(* ===== verification/_CoqProject ===== *)
-Q . S2P
Prelude.v
StdPath.v
StdFs.v
Prog.v
FsView.v
Rely.v
Append.v
Paths.v
Crypto.v
Config.v
Account.v
Limits.v
Auth.v
Store.v
Backend.v
Archive.v
Immutable.v
Confine.v
Own.v
Concurrent.v
Reading.v
Retention.v
Terminates.v
Server.v
System.v
Service.v
Moves.v
Commands.v
Keys.v
Main.v
Delivery.v
Upkeep.v
Toy.v
Scenario.v
UnitTests.v
FileTests.v
SystemTests.v
Race.v
Findings.v
Witnesses.v
