(* ===== verification/Prelude.v ===== *)
(** * A verification development for reoftpd, the append-only FTP server

    reoftpd receives recordings from Reolink cameras over FTP and serves them to
    viewers.  Cameras may only add files, finalized files never change, every
    account is confined to its part of the archive, and files can be encrypted
    at rest to keys the server does not hold.  This library models the program
    under [src/src/] and proves those promises, with the conditions they need;
    where the program breaks one, an execution shows it.

    ** How the model is built

    Paths are byte strings with Rust's component semantics ([StdPath]); the file
    system is a tree of entries over inodes with a table of open files, and
    each [std::fs] or [tokio::fs] call is one operation with its POSIX effect and
    its error kinds ([StdFs]).  A handler of the source becomes a program, a
    tree of operations with a continuation for every answer ([Prog]), so all its
    error paths are part of it.  [run] executes one program, failing the
    operations a plan names; [pool_steps] interleaves any number of programs
    operation by operation, with failures, a moving clock and new arrivals.
    Pure code is a plain function; fallible code answers a [result].  Integers are
    [Z]; casts, saturation and wrapping are written where the source has them.

    ** Files and what they correspond to

    - [Prelude]: results, machine integers, the parts of [str] the program uses,
      tactics, the hint databases, lemmas on strings, lists and sorted maps.
    - [StdPath], [StdFs], [Prog], [FsView]: the standard library and the
      operating system, and lemmas about file systems without symbolic links.
    - [Append] (append.rs): [classify_offset], [staging_path],
      [is_reolink_test_file].
    - [Paths] (paths.rs): [normalize], [contained], [ScopeMap], [resolve].
    - [Crypto] (crypto.rs): [parse_recipients], [encrypt_stream],
      [decrypt_stream] over the class [AgeLib].
    - [Config] (config.rs): the configuration records, [scope_deserialize],
      [validate] with one function per loop, [load].
    - [Account] (account.rs): [expand_scope], [build].
    - [Limits] (limits.rs, presence.rs): [SessionState] and its methods; the
      abstract accountant [Spec]; the interface [Admission] the login gate uses.
    - [Auth] (auth.rs, hashing.rs): [authenticate], [provide_user_detail], over the
      class [Argon2] and any [Admission].
    - [Store] (backend.rs): [store_stream] and [store_encrypted], their shared
      [finalize], and what an upload changes ([upload_effect]).
    - [Backend] (backend.rs): every method of the two storage back ends, and
      [serve], the dispatch of a client's request to them.  [Archive]: what users see
      of it, the abstract [Ledger], and that the back end implements it.
    - [Immutable]: finalized files under all interleavings of requests.
    - [Confine]: requests directed away from a region of the archive.
    - [Rely], [Own]: rules for one program among others that use other descriptors;
      every request uses only those it opened.  [Concurrent] and [Reading] apply
      them to an upload and a retrieval among any other requests.
    - [Retention] (retention.rs): [sweep] and [visit], one function per branch.
    - [Terminates]: the sweep and the walk in [contained] end.
    - [Server] (server.rs): settings, home directories, [reload_config],
      [start], the transitions on its in-memory state, [drop_privileges].
    - [System] (server.rs [run], auth.rs, presence.rs): the running server as one
      state, with clock, file system, account table, accountant, logins, sessions,
      requests and reload task, and its step relation [sys_step]; [Moves]
      executes it.  Its parameters say what the surroundings may do: the credentials
      presented, the configurations the administrator writes, the requests asked
      and the requests whose operations may fail.  [Service]: a request at work in it.
    - [Commands] (main.rs, cli.rs, nftables.rs, tls.rs): the commands and their
      renderers; [Main] (main.rs, cli.rs): [Command] and the program [main].
    - [Keys] (main.rs, crypto.rs, tls.rs): key files and the life of an age key.
    - [Delivery]: upload, retrieval and decryption of an encrypted recording.
    - [Upkeep] (main.rs [cleanup], retention.rs, backend.rs): cleanups and requests
      as processes that interleave.
    - [UnitTests], [FileTests], [SystemTests]: the repository's unit tests and
      integration tests, executable.
    - [Race] (backend.rs): two uploads of one name at a time.
    - [Toy], [Scenario], [Findings], [Witnesses]: concrete parameters, a server with
      two cameras run, executions that break a promise, and the theorems with
      hypotheses applied to concrete inputs.

    A component calls those listed before it, as in the source: a request goes
    through [Backend] to [Paths] and [Store], a login through [Auth] to [Account]
    and [Limits], a reload through [Server] to [Config], [Account] and [Limits];
    [System] puts logins, requests, reloads and the reaper side by side, and [main]
    starts it.

    ** What the theorems show

    - The whole server ([System]): in every run, with any clients, requests,
      failures, reloads and interleaving, a camera's directory does not change
      unless somebody presents its password, finalized files do not change at
      all, sessions were authenticated, and the state stays well formed.
    - Requests in the running server ([Service]): an upload for whose name nobody else
      asks can always be answered, and ends with exactly the sent bytes, or a
      ciphertext of them, under the final name, or with nothing there; what it
      stored, as everything finalized, is delivered to viewers from then on.  Logins,
      other requests, the reaper, reloads and edits of the configuration go on
      meanwhile, and an error is never their doing: only the request's own
      operations, or an upload that is not well continued, cause one ([ends_as],
      [delivers]).
    - Uploads ([Store]): the result of an upload on each branch (stored, already
      final, wrong offset, broken stream), the encrypted round trip, and that only
      ciphertext is ever written when encryption is on.
    - Immutability ([Immutable]): a published file keeps its bytes and its name
      whatever requests run, in any order, failing anywhere.
    - Confinement ([Confine]): whatever the interleaving, requests change nothing
      they are not directed to: a camera's nothing outside its home, nor inside
      it any name but those made of the one it gives; a viewer's nothing.
    - Concurrency ([Concurrent], [Reading]): the same for any pool of requests, of any
      cameras and viewers.  [Race.concurrent_uploads_break_final] shows that the
      condition, other names, is needed.
    - The contract ([Archive]), while encryption is off: requests one after the other
      are answered as an append-only ledger would, and the files are the ledger's.  The
      ledger knows the places of a [layout], any set of paths that do not get in each
      other's way: uploads, retrievals and measurements of them, and directories made
      of them; test files, directories elsewhere, listings, climbing paths and
      forbidden requests come in between and leave it alone.  Uploads of names that
      are not places, and directories inside a place, are not in such a history.
    - Requests ([Backend]): capabilities, viewers that cannot write, paths that
      climb are refused before any operation, what a viewer retrieves is what
      the camera sent, test files are set aside, and listings are exact;
      [Delivery] follows an encrypted recording to its decryption.
    - Jails ([Paths], [Account]): a resolved path stays at or below the base it was
      selected from, links followed; scopes are made of camera homes; homes are
      disjoint when camera names are plain names.
    - Logins and limits ([Auth], [Limits]): who is admitted, to what, and that the
      counts and caps hold in all reachable states; the tracker refines [Spec].
    - Configuration and server ([Config], [Account], [Server]): validation decides
      the declarative [valid_config]; a reload is all or nothing.
    - Cleanup ([Retention], [Upkeep]): alone, exactly the expired files go, and a dry
      run predicts it; among requests and other cleanups, no recording goes that is
      still to be kept, when no cleanup was on its way as it was published; a camera
      whose footage has all expired is locked out, until its home is made again: by
      a restart or reload, or by a Reolink test file, whose quarantine is inside it.
    - Termination ([Terminates]): the sweep ends on every archive of bounded depth,
      the search for an existing ancestor after one round per component.
    - Program ([Main]): only [serve] starts a server, and in the initial state of
      [System]; what must not write does not.
    - Commands ([Commands]): decryption restores the plaintext, the firewall rules
      are faithful, accounts added can log in, and the retention product wraps.
    - Keys ([Keys]): private keys are never in a file others can read, unless the
      file was there before; what is encrypted to a generated key is decrypted with
      the file that [genkey] wrote.
    - Tests ([SystemTests]): the repository's tests evaluate to true of the model; they
      are examples that tie its definitions to the program's own expectations, not
      properties of it.
    - [Race.concurrent_uploads_break_final] (any two uploads of one fresh name),
      [Limits.reaped_logout_overadmits] (any caps, any number of sessions),
      [System.reload_races_login] (any state, login and reload),
      [Upkeep.cleanup_locks_out_camera], and the single executions of [Findings] (the
      one about overlapping cleanups shows why the condition on cleanups is needed),
      [Account.camera_names_unchecked] and [Commands.camera_entry_injection]: where
      the program falls short of what it promises.

    ** Bounds and fuel

    [contained_loop] gets one unit per component of the candidate and one more;
    [contained_loop_fuel] shows that more changes nothing.  [visit] gets the
    depth still allowed and answers [None] without any, which [sweep_exact] excludes
    once the fuel exceeds the depth of the tree below the root, and [sweep_terminates]
    excludes under every failure and concurrent change.  [walk] follows at
    most [MAXSYMLINKS] links, as Linux does, and then answers the loop error.  Trimming
    gets the length of its string.  All other recursion is structural.

    ** Parameters

    Third-party code is an argument: the age crate ([AgeLib], [AgeLaws]), Argon2 and
    PHC strings ([Argon2], [Argon2Laws]), the TOML parser, rcgen, libunftp's builder,
    and the user database and identity calls of nix.  [Toy] has instances that
    satisfy the laws.

    ** Not modelled

    The async runtime and libunftp's protocol engine (their effect is the order of
    operations, which is arbitrary in [pool_steps]); owners, the modes of directories
    and permission checks (a refusal is a failed operation); the order of directory
    reads; argument parsing, logging and messages to standard error; the text of
    operating system errors.  [Seek] accepts every position, where lseek refuses those
    of 2^63 and above; that refusal is a run in which the operation fails.  [decrypt_stream]
    has the ciphertext as a whole before it decrypts: an error of the reader in the
    middle is reported with nothing written, where the program may have written the
    chunks before it.  Of the tests, those that only read fields back from
    the TOML parser.  The failed-login lockout, the passive ports and the connection limits
    per address are settings handed to libunftp and the firewall. *)
From Stdlib Require Export Lia ZArith Strings.Ascii Strings.Byte.
From stdpp Require Export base tactics list gmap strings numbers sorting.

Global Generalizable All Variables.
#[global] Arguments String.append : simpl nomatch.

(** ** Rust's [Result] *)

Inductive result (A E : Type) : Type :=
| Ok (a : A)
| Err (e : E).
Arguments Ok {A E} _.
Arguments Err {A E} _.

Definition map_err {A E F} (f : E → F) (r : result A E) : result A F :=
  match r with Ok a => Ok a | Err e => Err (f e) end.

Definition is_ok {A E} (r : result A E) : bool :=
  match r with Ok _ => true | Err _ => false end.

Definition ok_or {A E} (e : E) (o : option A) : result A E :=
  match o with Some a => Ok a | None => Err e end.

(** [collect] on an iterator of results: all values, or the first error. *)
Fixpoint collect {A E} (rs : list (result A E)) : result (list A) E :=
  match rs with
  | [] => Ok []
  | Ok a :: rs' =>
      match collect rs' with Ok l => Ok (a :: l) | Err e => Err e end
  | Err e :: _ => Err e
  end.

Declare Scope reo_scope.
Delimit Scope reo_scope with reo.

(** The [?] operator on pure results. *)
Notation "'let?' x := r 'in' k" :=
  (match r with Ok x => k | Err e => Err e end)
  (at level 10, x pattern, r at level 100, k at level 200) : reo_scope.
Global Open Scope reo_scope.

(** ** Machine integers *)

Definition u32_max : Z := 2 ^ 32 - 1.
Definition u64_max : Z := 2 ^ 64 - 1.

(** [as u32] on a wider unsigned integer keeps the low 32 bits. *)
Definition as_u32 (n : Z) : Z := n mod 2 ^ 32.
Definition wrap_u64 (n : Z) : Z := n mod 2 ^ 64.
Definition saturating_add_u32 (a b : Z) : Z := Z.min (a + b) u32_max.
Definition saturating_sub_u32 (a b : Z) : Z := Z.max (a - b) 0.

Abbreviation bytes := (list Byte.byte).

(** The bytes of a string literal (UTF-8 encoded, as Rust holds it). *)
Definition bytes_of (s : string) : bytes := String.list_byte_of_string s.

(** ** Strings *)

(** The double quote, as a one-character string. *)
Definition dquote : string := String (Ascii.ascii_of_nat 34) EmptyString.
Definition newline : string := String (Ascii.ascii_of_nat 10) EmptyString.

(** [str::ends_with] and [str::strip_suffix]. *)
Fixpoint strip_suffix (suf s : string) : option string :=
  if decide (s = suf) then Some EmptyString
  else match s with
       | EmptyString => None
       | String c s' => String c <$> strip_suffix suf s'
       end.

Definition ends_with (suf s : string) : bool :=
  match strip_suffix suf s with Some _ => true | None => false end.

Definition starts_with_str (pre s : string) : bool := String.prefix pre s.

(** [str::to_ascii_lowercase]. *)
Definition ascii_lower (c : ascii) : ascii :=
  let n := Ascii.nat_of_ascii c in
  if decide (65 ≤ n ≤ 90) then Ascii.ascii_of_nat (n + 32) else c.

Fixpoint to_ascii_lowercase (s : string) : string :=
  match s with
  | EmptyString => EmptyString
  | String c s' => String (ascii_lower c) (to_ascii_lowercase s')
  end.

(** [str::strip_prefix]. *)
Fixpoint strip_prefix (pre s : string) : option string :=
  match pre, s with
  | EmptyString, _ => Some s
  | String c pre', String d s' => if decide (c = d) then strip_prefix pre' s' else None
  | String _ _, EmptyString => None
  end.

Definition str_of_codes (l : list nat) : string :=
  foldr (λ n s, String (ascii_of_nat n) s) EmptyString l.

(** UTF-8 encodings of the Unicode [White_Space] characters. *)
Definition whitespace : list string :=
  str_of_codes <$>
    ([[9]; [10]; [11]; [12]; [13]; [32]; [194; 133]; [194; 160]; [225; 154; 128]]
     ++ ((λ n, [226; 128; n]) <$> seq 128 11)
     ++ [[226; 128; 168]; [226; 128; 169]; [226; 128; 175]; [226; 129; 159]; [227; 128; 128]]).

Definition first_some {A B} (f : A → option B) (l : list A) : option B :=
  head (omap f l).

(** [str::trim_start] and [str::trim_end]: each turn removes one character, so
    the length of the string is enough fuel. *)
Fixpoint trim_start_fuel (fuel : nat) (s : string) : string :=
  match fuel with
  | O => s
  | S fuel' =>
      match first_some (λ w, strip_prefix w s) whitespace with
      | Some s' => trim_start_fuel fuel' s'
      | None => s
      end
  end.
Fixpoint trim_end_fuel (fuel : nat) (s : string) : string :=
  match fuel with
  | O => s
  | S fuel' =>
      match first_some (λ w, strip_suffix w s) whitespace with
      | Some s' => trim_end_fuel fuel' s'
      | None => s
      end
  end.
Definition trim_start (s : string) : string := trim_start_fuel (String.length s) s.
Definition trim_end (s : string) : string := trim_end_fuel (String.length s) s.
Definition trim (s : string) : string := trim_end (trim_start s).

(** Byte order of strings, and the iteration order of a [BTreeMap]. *)
Definition str_le (a b : string) : Prop := String.leb a b = true.
#[export] Instance str_le_dec a b : Decision (str_le a b).
Proof. unfold str_le. apply _. Defined.

Definition key_le {V} (a b : string * V) : Prop := str_le a.1 b.1.
#[export] Instance key_le_dec {V} (a b : string * V) : Decision (key_le a b).
Proof. unfold key_le. apply _. Defined.

Definition btree_iter {V} (m : gmap string V) : list (string * V) :=
  merge_sort key_le (map_to_list m).

(** No character of [s] is a slash. *)
Fixpoint no_slash (s : string) : bool :=
  match s with
  | EmptyString => true
  | String c s' => negb (bool_decide (c = "/"%char)) && no_slash s'
  end.

(** ** Tactics *)

(** Case analysis on every match scrutinee of the goal or the context. *)
Ltac case_all :=
  repeat (case_match; simplify_eq/=; try done).

(** Decompose membership in explicit lists. *)
Ltac list_in :=
  repeat match goal with
  | H : _ ∈ [] |- _ => by apply elem_of_nil in H
  | H : _ ∈ _ :: _ |- _ => apply elem_of_cons in H as [H|H]
  | H : _ ∈ _ ++ _ |- _ => apply elem_of_app in H as [H|H]
  end; simplify_eq/=.

Create HintDb reo discriminated.
Create Rewrite HintDb reo.

(** ** Lemmas on strings *)

Lemma string_app_nil_r (s : string) : s +:+ "" = s.
Proof. induction s as [|c s IH]; cbn; [done|by f_equal]. Qed.

Lemma string_app_cons c (s t : string) : String c s +:+ t = String c (s +:+ t).
Proof. done. Qed.

Lemma string_app_assoc (s t u : string) : s +:+ (t +:+ u) = (s +:+ t) +:+ u.
Proof. induction s as [|c s IH]; cbn; [done|by rewrite IH]. Qed.

Lemma string_app_length (s t : string) :
  String.length (s +:+ t) = String.length s + String.length t.
Proof. induction s as [|c s IH]; cbn; [done|by f_equal]. Qed.

Lemma string_app_inj_r (s t u : string) : s +:+ u = t +:+ u → s = t.
Proof.
  revert t. induction s as [|c s IH]; intros [|d t] H; [done|..].
  - apply (f_equal String.length) in H. rewrite !string_app_length in H. cbn in H. lia.
  - apply (f_equal String.length) in H. rewrite !string_app_length in H. cbn in H. lia.
  - cbn in H. injection H as -> H. f_equal. eauto.
Qed.

Lemma strip_suffix_Some suf s t : strip_suffix suf s = Some t → s = t +:+ suf.
Proof.
  revert t. induction s as [|c s IH]; intros t; cbn.
  - case_decide as E; [|done]. by intros [= <-].
  - case_decide as E; [by intros [= <-]|].
    intros (u & Hu & ->)%fmap_Some. cbn. f_equal. auto.
Qed.

Lemma strip_suffix_app suf s : strip_suffix suf (s +:+ suf) = Some s.
Proof.
  induction s as [|c s IH]; cbn.
  - destruct suf; cbn; by rewrite decide_True.
  - rewrite decide_False; [by rewrite IH|]. intros H.
    apply (f_equal String.length) in H. cbn in H. rewrite string_app_length in H. lia.
Qed.

Lemma ends_with_spec suf s : ends_with suf s = true ↔ ∃ t, s = t +:+ suf.
Proof.
  unfold ends_with. split.
  - destruct (strip_suffix suf s) eqn:E; [|done]. intros _.
    eauto using strip_suffix_Some.
  - intros [t ->]. by rewrite strip_suffix_app.
Qed.

Lemma no_slash_app s t : no_slash (s +:+ t) = no_slash s && no_slash t.
Proof. induction s as [|c s IH]; cbn; [done|]. by rewrite IH, andb_assoc. Qed.

Lemma to_ascii_lowercase_app s t :
  to_ascii_lowercase (s +:+ t) = to_ascii_lowercase s +:+ to_ascii_lowercase t.
Proof. induction s as [|c s IH]; cbn; [done|by f_equal]. Qed.

Lemma prefix_str_app (p s t : string) :
  String.prefix p s = true → String.prefix p (s +:+ t) = true.
Proof.
  revert s. induction p as [|c p IH]; intros s.
  - intros _. by destruct (s +:+ t).
  - destruct s as [|d s]; [done|]. cbn. destruct (Ascii.ascii_dec c d); auto.
Qed.

(** ** Lemmas on results and lists *)

Lemma btree_iter_spec {V} (m : gmap string V) k v : (k, v) ∈ btree_iter m ↔ m !! k = Some v.
Proof. unfold btree_iter. rewrite merge_sort_Permutation. apply elem_of_map_to_list. Qed.

Lemma collect_Ok {A E} (rs : list (result A E)) l :
  collect rs = Ok l ↔ rs = Ok <$> l.
Proof.
  revert l. induction rs as [|[a|e] rs IH]; intros [|b l]; cbn; try done.
  - by destruct (collect rs).
  - destruct (collect rs) as [l'|e] eqn:Hl; split.
    + intros [= -> ->]. f_equal. by apply IH.
    + intros [= -> H]. apply IH in H. by simplify_eq.
    + done.
    + intros [= -> H]. by apply IH in H.
Qed.

Lemma collect_Err {A E} (rs : list (result A E)) e :
  collect rs = Err e ↔ ∃ l rs', rs = (Ok <$> l) ++ Err e :: rs'.
Proof.
  induction rs as [|[a|e'] rs IH]; cbn.
  - split; [done|]. intros (l & rs' & H). by destruct l.
  - split.
    + destruct (collect rs) as [l|e'] eqn:Hl; [done|]. intros [= ->].
      destruct (proj1 IH eq_refl) as (l & rs' & ->). by exists (a :: l), rs'.
    + intros ([|b l'] & rs' & H); simplify_eq/=.
      by rewrite (proj2 IH (ex_intro _ l' (ex_intro _ rs' eq_refl))).
  - split.
    + intros [= ->]. by exists [], rs.
    + intros ([|b l'] & rs' & H); by simplify_eq/=.
Qed.

Lemma last_Some_split {A} (l : list A) x : list.last l = Some x → l = removelast l ++ [x].
Proof.
  induction l as [|y l' _] using rev_ind; [done|].
  rewrite last_snoc, removelast_last. by intros [= ->].
Qed.

Lemma prefix_snoc_cases (l k : list string) x : l `prefix_of` k ++ [x] → l = k ++ [x] ∨ l `prefix_of` k.
Proof.
  intros [t Ht]. destruct t as [|y t _] using rev_ind; [left; by rewrite app_nil_r in Ht|right].
  rewrite app_assoc in Ht. apply app_inj_tail in Ht as [-> _]. by exists t.
Qed.

#[export] Hint Rewrite @removelast_last @last_snoc @string_app_nil_r : reo.

(** *** Printable text

    Characters that are neither spaces nor controls nor beyond ASCII. *)
Fixpoint graphic (s : string) : bool :=
  match s with
  | EmptyString => true
  | String c s' => bool_decide (33 ≤ Ascii.nat_of_ascii c ≤ 126) && graphic s'
  end.

Lemma graphic_app a b : graphic (a +:+ b) = graphic a && graphic b.
Proof. induction a as [|c a IH]; cbn; [done|]. by rewrite IH, andb_assoc. Qed.

Lemma strip_prefix_Some pre s t : strip_prefix pre s = Some t → s = pre +:+ t.
Proof.
  revert s. induction pre as [|c pre IH]; intros [|d s]; cbn; intros H; simplify_eq; try done.
  case_decide; [|done]. subst d. by rewrite (IH s).
Qed.

Lemma whitespace_not_graphic : Forall (λ w, graphic w = false) whitespace.
Proof. by repeat constructor. Qed.

Lemma first_some_None {A B} (f : A → option B) l : Forall (λ a, f a = None) l → first_some f l = None.
Proof. unfold first_some. induction 1 as [|a l Ha _ IH]; cbn; [done|]. by rewrite Ha. Qed.

(** Such text is not trimmed. *)
Lemma graphic_trim_start s : graphic s = true → trim_start s = s.
Proof.
  intros Hs. unfold trim_start. destruct (String.length s) as [|k]; cbn [trim_start_fuel]; [done|].
  rewrite first_some_None; [done|]. eapply Forall_impl; [exact whitespace_not_graphic|].
  intros w Hw. destruct (strip_prefix w s) as [t|] eqn:E; [|done]. apply strip_prefix_Some in E as ->.
  by rewrite graphic_app, Hw in Hs.
Qed.

Lemma graphic_trim s : graphic s = true → trim s = s.
Proof.
  intros Hs. unfold trim, trim_end. rewrite graphic_trim_start by done.
  destruct (String.length s) as [|k]; cbn [trim_end_fuel]; [done|].
  rewrite first_some_None; [done|]. eapply Forall_impl; [exact whitespace_not_graphic|].
  intros w Hw. destruct (strip_suffix w s) as [t|] eqn:E; [|done]. apply strip_suffix_Some in E as ->.
  by rewrite graphic_app, Hw, andb_false_r in Hs.
Qed.
