(* ===== verification/StdPath.v ===== *)
(** [std::path] on Unix: path strings, their components, and the lexical
    operations the program uses ([join], [components], [file_name], [parent],
    [starts_with], [with_file_name]) together with [OsStr::to_string_lossy].

    A [PathBuf] is its byte string.  [components] performs the normalisation of
    the standard library: repeated separators and interior [.] disappear, [..]
    is kept.  Two paths are equal for Rust when their components are. *)
From S2P Require Import Prelude.

Inductive Component : Type :=
| Prefix (s : string)
| RootDir
| CurDir
| ParentDir
| Normal (s : string).

#[export] Instance component_eq_dec : EqDecision Component.
Proof. solve_decision. Defined.

(** The pieces of a string between slashes; never empty. *)
Fixpoint split_slash (s : string) : list string :=
  match s with
  | EmptyString => [EmptyString]
  | String c s' =>
      if decide (c = "/"%char) then EmptyString :: split_slash s'
      else match split_slash s' with
           | h :: t => String c h :: t
           | [] => [String c EmptyString]
           end
  end.

(** The component one piece contributes, if any. *)
Definition piece_component (s : string) : list Component :=
  if decide (s = "") then []
  else if decide (s = ".") then []
  else if decide (s = "..") then [ParentDir]
  else [Normal s].

Definition has_root (p : string) : bool :=
  match p with String c _ => bool_decide (c = "/"%char) | EmptyString => false end.

(** [Path::components]: a leading [.] of a relative path is the only one kept. *)
Definition components (p : string) : list Component :=
  (if has_root p then [RootDir]
   else match split_slash p with
        | s :: _ => if decide (s = ".") then [CurDir] else []
        | [] => []
        end)
  ++ (split_slash p ≫= piece_component).

(** Equality of [Path]s. *)
Definition path_eq (p q : string) : Prop := components p = components q.
#[export] Instance path_eq_dec p q : Decision (path_eq p q).
Proof. unfold path_eq. apply _. Defined.

Definition ends_in_slash (p : string) : bool := ends_with "/" p.

(** [Path::join] ([PathBuf::push]): an absolute argument replaces the path. *)
Definition join (p q : string) : string :=
  if has_root q then q
  else if decide (p = "") then q
  else if ends_in_slash p then p +:+ q
  else p +:+ "/" +:+ q.

Definition component_str (c : Component) : string :=
  match c with
  | Prefix s => s
  | RootDir => "/"
  | CurDir => "."
  | ParentDir => ".."
  | Normal s => s
  end.

(** [components.collect::<PathBuf>()]. *)
Definition of_components (cs : list Component) : string :=
  foldl (λ p c, join p (component_str c)) "" cs.

Definition file_name (p : string) : option string :=
  match list.last (components p) with
  | Some (Normal s) => Some s
  | _ => None
  end.

(** [Path::parent]; [PathBuf::pop] replaces the path by it when there is one. *)
Definition parent (p : string) : option string :=
  match list.last (components p) with
  | Some (Normal _ | CurDir | ParentDir) => Some (of_components (removelast (components p)))
  | _ => None
  end.

(** [Path::starts_with]: by whole components. *)
Definition starts_with (p base : string) : bool :=
  bool_decide (components base `prefix_of` components p).

(** [Path::with_file_name]. *)
Definition with_file_name (p name : string) : string :=
  match file_name p, parent p with
  | Some _, Some d => join d name
  | _, _ => join p name
  end.

(** [OsString::push]: appends to the raw string, no separator. *)
Definition os_push (p suffix : string) : string := p +:+ suffix.

(** A string that can be one [Normal] component of a path. *)
Definition valid_name (s : string) : Prop :=
  no_slash s = true ∧ s ≠ "" ∧ s ≠ "." ∧ s ≠ "..".
#[export] Instance valid_name_dec s : Decision (valid_name s).
Proof. unfold valid_name. apply _. Defined.

(** The absolute path with the given names, root first. *)
Definition render (q : list string) : string :=
  of_components (RootDir :: (Normal <$> q)).

(** A list of names, as components. *)
Definition lexical (q : list string) : list Component := Normal <$> q.

(** *** [to_string_lossy]

    Maximal ill-formed UTF-8 prefixes become U+FFFD (bytes EF BF BD). *)

Definition replacement : string :=
  String (ascii_of_nat 239) (String (ascii_of_nat 191) (String (ascii_of_nat 189) EmptyString)).

Definition in_range (lo hi : nat) (c : ascii) : bool :=
  Nat.leb lo (nat_of_ascii c) && Nat.leb (nat_of_ascii c) hi.

(** The lead bytes of multi-byte sequences, with the range their first
    continuation byte must lie in and the sequence's length. *)
Definition lead (c : ascii) : option (nat * nat * nat) :=
  let n := nat_of_ascii c in
  if decide (194 ≤ n ≤ 223) then Some (2, 128, 191)
  else if decide (n = 224) then Some (3, 160, 191)
  else if decide (225 ≤ n ≤ 236) then Some (3, 128, 191)
  else if decide (n = 237) then Some (3, 128, 159)
  else if decide (238 ≤ n ≤ 239) then Some (3, 128, 191)
  else if decide (n = 240) then Some (4, 144, 191)
  else if decide (241 ≤ n ≤ 243) then Some (4, 128, 191)
  else if decide (n = 244) then Some (4, 128, 143)
  else None.

Fixpoint to_string_lossy (s : string) : string :=
  match s with
  | EmptyString => EmptyString
  | String a s1 =>
      if Nat.ltb (nat_of_ascii a) 128 then String a (to_string_lossy s1)
      else match lead a with
           | None => replacement +:+ to_string_lossy s1
           | Some (len, lo, hi) =>
               match s1 with
               | String b s2 =>
                   if in_range lo hi b then
                     if Nat.eqb len 2 then String a (String b (to_string_lossy s2))
                     else match s2 with
                          | String c s3 =>
                              if in_range 128 191 c then
                                if Nat.eqb len 3
                                then String a (String b (String c (to_string_lossy s3)))
                                else match s3 with
                                     | String d s4 =>
                                         if in_range 128 191 d
                                         then String a (String b (String c (String d (to_string_lossy s4))))
                                         else replacement +:+ to_string_lossy s3
                                     | EmptyString => replacement
                                     end
                              else replacement +:+ to_string_lossy s2
                          | EmptyString => replacement
                          end
                   else replacement +:+ to_string_lossy s1
               | EmptyString => replacement
               end
           end
  end.

#[global] Arguments components : simpl never.
#[global] Arguments of_components : simpl never.
#[global] Arguments join : simpl never.
#[global] Arguments render : simpl never.

(** ** Lemmas *)

Lemma split_slash_cons s : ∃ h t, split_slash s = h :: t.
Proof.
  induction s as [|c s (h & t & IH)]; cbn; [eauto|].
  rewrite IH. case_decide; eauto.
Qed.

Lemma split_slash_no_slash s : no_slash s = true → split_slash s = [s].
Proof.
  induction s as [|c s IH]; cbn; [done|]. intros [Hc Hs]%andb_prop.
  rewrite decide_False by (by case_bool_decide). by rewrite IH.
Qed.

Lemma split_slash_pieces s : Forall (λ p, no_slash p = true) (split_slash s).
Proof.
  induction s as [|c s IH]; cbn; [by constructor|].
  case_decide as Hc; [by constructor|].
  destruct (split_slash s) as [|h t]; inv IH; constructor; cbn; auto;
    rewrite bool_decide_false by done; auto.
Qed.

Lemma split_slash_app_slash s t :
  split_slash (s +:+ String "/" t) = split_slash s ++ split_slash t.
Proof.
  induction s as [|c s IH]; cbn; [done|]. case_decide; cbn.
  - by rewrite IH.
  - rewrite IH. destruct (split_slash_cons s) as (h & l & ->). done.
Qed.

Lemma split_slash_app s t :
  no_slash t = true →
  ∃ l x, split_slash s = l ++ [x] ∧ split_slash (s +:+ t) = l ++ [x +:+ t].
Proof.
  intros Ht. induction s as [|c s (l & x & IH1 & IH2)]; cbn.
  - exists [], "". by rewrite (split_slash_no_slash _ Ht).
  - rewrite IH1, IH2. case_decide.
    + by exists ("" :: l), x.
    + destruct l as [|h l]; cbn; [by exists [], (String c x)|by exists (String c h :: l), x].
Qed.

Lemma piece_component_valid s : valid_name s → piece_component s = [Normal s].
Proof.
  intros (_ & H1 & H2 & H3). unfold piece_component.
  by rewrite !decide_False by done.
Qed.

Lemma components_Normal_valid p s : Normal s ∈ components p → valid_name s.
Proof.
  unfold components. rewrite elem_of_app. intros [H|H].
  - repeat case_match; by list_in.
  - apply list_elem_of_bind in H as (x & H & Hx).
    pose proof (split_slash_pieces p) as Hp. rewrite list.Forall_forall in Hp.
    specialize (Hp _ Hx). unfold piece_component in H.
    repeat case_decide; list_in. by repeat split.
Qed.

Lemma has_root_no_slash s : no_slash s = true → has_root s = false.
Proof.
  destruct s as [|c s]; cbn; [done|]. intros [H _]%andb_prop.
  by apply negb_true_iff.
Qed.

Lemma has_root_app p q : p ≠ "" → has_root (p +:+ q) = has_root p.
Proof. by destruct p. Qed.

(** Components of a path extended below a slash. *)
Lemma components_app_slash p t :
  p ≠ "" →
  components (p +:+ String "/" t) =
    components p ++ (split_slash t ≫= piece_component).
Proof.
  intros Hp. unfold components.
  rewrite has_root_app, split_slash_app_slash, bind_app, app_assoc by done.
  f_equal. f_equal. destruct (split_slash_cons p) as (h & l & ->). done.
Qed.

Lemma components_slash t :
  components (String "/" t) = RootDir :: (split_slash t ≫= piece_component).
Proof. done. Qed.

(** Joining a relative path appends its pieces, whatever the base. *)
Lemma components_join_pieces p t :
  p ≠ "" → has_root t = false →
  components (join p t) = components p ++ (split_slash t ≫= piece_component).
Proof.
  intros Hp Ht. unfold join. rewrite Ht, decide_False by done.
  destruct (ends_in_slash p) eqn:E.
  - apply ends_with_spec in E as [r ->]. destruct (decide (r = "")) as [->|Hr]; [done|].
    replace ((r +:+ "/") +:+ t) with (r +:+ String "/" t).
    2: { clear. induction r; cbn; [done|by f_equal]. }
    rewrite !components_app_slash by done. cbn. by rewrite app_nil_r.
  - cbn. by rewrite components_app_slash.
Qed.

Lemma components_piece t :
  no_slash t = true → t ≠ "" → t ≠ "." → components t = piece_component t.
Proof.
  intros Hs H1 H2. unfold components.
  rewrite has_root_no_slash, split_slash_no_slash, decide_False by done. cbn. by rewrite app_nil_r.
Qed.

Lemma components_join_piece p t :
  no_slash t = true → t ≠ "" → t ≠ "." →
  components (join p t) = components p ++ piece_component t.
Proof.
  intros Hs H1 H2. destruct (decide (p = "")) as [->|Hp].
  - unfold join. rewrite has_root_no_slash by done. cbn. by rewrite components_piece.
  - rewrite components_join_pieces by auto using has_root_no_slash.
    rewrite split_slash_no_slash by done. cbn. by rewrite app_nil_r.
Qed.

(** A path whose first component is a name is the list of its pieces. *)
Lemma components_relative t n cs :
  components t = Normal n :: cs →
  has_root t = false ∧ split_slash t ≫= piece_component = Normal n :: cs.
Proof.
  unfold components. destruct (has_root t); [done|].
  destruct (split_slash t) as [|s l] eqn:E; [done|]. case_decide; [done|]. done.
Qed.

Lemma components_join_rel p t n cs :
  components t = Normal n :: cs → components (join p t) = components p ++ Normal n :: cs.
Proof.
  intros Ht. destruct (components_relative _ _ _ Ht) as [Hr Hs].
  destruct (decide (p = "")) as [->|Hp].
  - assert (join "" t = t) as -> by (unfold join; by rewrite Hr). by rewrite Ht.
  - by rewrite components_join_pieces, Hs by done.
Qed.

Lemma components_valid_name t : valid_name t → components t = [Normal t].
Proof.
  intros Ht. pose proof Ht as (Hs & H1 & H2 & H3).
  by rewrite components_piece, piece_component_valid by done.
Qed.

(** Joining one valid name adds exactly that component, whatever the base. *)
Lemma components_join p t :
  valid_name t → components (join p t) = components p ++ [Normal t].
Proof. intros Ht. by apply components_join_rel, components_valid_name. Qed.

Lemma join_nonempty p t : t ≠ "" → join p t ≠ "".
Proof.
  intros Ht H. unfold join in H. destruct (has_root t); [done|].
  case_decide; [done|]. by case_match; destruct p.
Qed.

Lemma components_fold_join q p :
  Forall valid_name q →
  components (foldl join p q) = components p ++ (Normal <$> q).
Proof.
  intros H. revert p. induction H as [|t q Ht Hq IH]; intros p; cbn.
  - by rewrite app_nil_r.
  - rewrite IH, components_join by done. by rewrite <- app_assoc.
Qed.

Lemma foldl_fmap_join p q :
  foldl (λ p c, join p (component_str c)) p (Normal <$> q) = foldl join p q.
Proof. revert p. induction q; intros p; cbn; auto. Qed.

Lemma components_render q :
  Forall valid_name q → components (render q) = RootDir :: (Normal <$> q).
Proof.
  intros H. unfold render, of_components. cbn.
  rewrite foldl_fmap_join, components_fold_join by done. done.
Qed.

(** *** Text of canonical paths *)

Lemma ends_in_slash_app p n : no_slash n = true → n ≠ "" → ends_in_slash (p +:+ n) = false.
Proof.
  intros Hn Hne. unfold ends_in_slash. apply not_true_is_false. rewrite ends_with_spec.
  intros [x Hx]. induction p as [|c p IH] in x, Hx |- *; cbn in Hx.
  - subst n. rewrite no_slash_app in Hn. by apply andb_true_iff in Hn as [_ ?].
  - destruct x as [|c' x]; cbn in Hx; simplify_eq.
    + destruct p; [by destruct n|done].
    + by eapply IH.
Qed.

Lemma join_name p t : p ≠ "" → ends_in_slash p = false → has_root t = false → join p t = p +:+ "/" +:+ t.
Proof. intros Hp He Ht. unfold join. rewrite Ht, decide_False, He by done. done. Qed.

Lemma valid_name_root n t : valid_name n → has_root (n +:+ t) = false.
Proof.
  intros (Hs & Hne & _). destruct n as [|c n]; [done|]. by apply (has_root_no_slash (String c n)).
Qed.

Lemma valid_name_slash n p : valid_name n → ends_in_slash (p +:+ n) = false.
Proof. intros (? & ? & _). by apply ends_in_slash_app. Qed.

Lemma join_valid p n t :
  p ≠ "" → valid_name n →
  join p (n +:+ t) = (if ends_in_slash p then p else p +:+ "/") +:+ (n +:+ t).
Proof.
  intros Hp Hn. unfold join. rewrite valid_name_root, decide_False by done.
  destruct (ends_in_slash p); [done|]. by rewrite string_app_assoc.
Qed.

Lemma join_valid_name p n :
  p ≠ "" → valid_name n → join p n = (if ends_in_slash p then p else p +:+ "/") +:+ n.
Proof. intros Hp Hn. pose proof (join_valid p n "" Hp Hn) as H. by rewrite string_app_nil_r in H. Qed.

Lemma join_assoc p n t :
  p ≠ "" → valid_name n → has_root t = false →
  join p (join n t) = join (join p n) t.
Proof.
  intros Hp Hn Ht. assert (n ≠ "") as Hne by apply Hn.
  pose proof (valid_name_slash n "" Hn) as Hs. change ("" +:+ n) with n in Hs.
  rewrite (join_name n t) by done. rewrite (join_valid p) by done. rewrite (join_valid_name p) by done.
  rewrite (join_name _ t); [by rewrite <- !string_app_assoc| |by apply valid_name_slash|done].
  destruct (ends_in_slash p); [by destruct p|]. by destruct p.
Qed.

(** The relative path with the given names. *)
Fixpoint rel (ns : list string) : string :=
  match ns with
  | [] => ""
  | [n] => n
  | n :: ns' => join n (rel ns')
  end.

Lemma rel_props ns :
  Forall valid_name ns →
  has_root (rel ns) = false ∧ components (rel ns) = lexical ns ∧ (ns ≠ [] → rel ns ≠ "").
Proof.
  induction 1 as [|n ns Hn Hns (IHr & IHc & IHn)]; [done|].
  destruct ns as [|m ns]; cbn [rel].
  - split; [by rewrite <- (string_app_nil_r n), valid_name_root|].
    split; [by apply components_valid_name|]. intros _. apply Hn.
  - assert (n ≠ "") as Hne by apply Hn. pose proof (valid_name_slash n "" Hn) as Hs. change ("" +:+ n) with n in Hs.
    split; [by rewrite join_name, valid_name_root|]. split; [|intros _; apply join_nonempty; auto].
    rewrite (components_join_rel _ _ m (lexical ns)) by done. by rewrite components_valid_name.
Qed.

Lemma rel_cons n ts :
  Forall valid_name ts →
  (if decide (path_eq (rel ts) "") then n else join n (rel ts)) = rel (n :: ts).
Proof.
  intros Hv. destruct ts as [|t ts]; [done|].
  rewrite decide_False; [done|]. unfold path_eq. by rewrite (proj1 (proj2 (rel_props _ Hv))).
Qed.

Lemma render_fold q : render q = foldl join "/" q.
Proof. unfold render, of_components. cbn [foldl fmap list_fmap]. by rewrite foldl_fmap_join. Qed.

Lemma render_ne q : Forall valid_name q → render q ≠ "".
Proof. intros Hq H. apply components_render in Hq. by rewrite H in Hq. Qed.

Lemma render_snoc q n : render (q ++ [n]) = join (render q) n.
Proof. by rewrite !render_fold, foldl_app. Qed.

Lemma join_render_rel q ts :
  Forall valid_name (q ++ ts) → ts ≠ [] → join (render q) (rel ts) = render (q ++ ts).
Proof.
  revert q. induction ts as [|t ts IH]; [done|]. intros q Hv _.
  destruct ts as [|m ts]; cbn [rel]; [by rewrite render_snoc|].
  rewrite (cons_middle t), app_assoc in Hv. pose proof Hv as [Hqt Hts]%Forall_app.
  apply Forall_app in Hqt as [Hq Ht]. inversion Ht; subst.
  destruct (rel_props _ Hts) as (? & _ & ?).
  rewrite join_assoc, <- render_snoc, IH, <- app_assoc by auto using render_ne. done.
Qed.

Lemma file_name_render q : Forall valid_name q → file_name (render q) = list.last q.
Proof.
  intros Hv. unfold file_name. rewrite components_render by done.
  destruct q as [|n q _] using rev_ind; [done|].
  rewrite fmap_app, app_comm_cons. change (Normal <$> [n]) with [Normal n]. by rewrite !last_snoc.
Qed.

(** Pushing a suffix on a canonical path extends its last name. *)
Lemma os_push_render q n suf :
  Forall valid_name q → valid_name n → os_push (render (q ++ [n])) suf = render (q ++ [n +:+ suf]).
Proof.
  intros Hq Hn. rewrite !render_snoc. unfold os_push.
  rewrite join_valid, join_valid_name by auto using render_ne. by rewrite string_app_assoc.
Qed.

(** A name stays one when a suffix of two characters or more is pushed on it. *)
Lemma valid_name_push n suf :
  valid_name n → no_slash suf = true → 2 ≤ String.length suf → valid_name (n +:+ suf).
Proof.
  intros (Hs & Hn & _ & _) Hsuf Hl. destruct n as [|c n]; [done|].
  assert (∀ t, String.length t < 3 → String c n +:+ suf ≠ t) as Hlen.
  { intros t Ht <-. rewrite string_app_length in Ht. cbn in Ht. lia. }
  split; [by rewrite no_slash_app, Hs|]. repeat split; apply Hlen; cbn; lia.
Qed.

(** Rebuilding a path from a front part of its components gives those back. *)
Definition rebuildable (cs : list Component) : Prop :=
  ∃ hd tl, cs = hd ++ tl ∧ (hd = [] ∨ hd = [RootDir] ∨ hd = [CurDir]) ∧
    Forall (λ c, c = ParentDir ∨ ∃ n, c = Normal n ∧ valid_name n) tl.

Lemma components_of_components cs : rebuildable cs → components (of_components cs) = cs.
Proof.
  intros (hd & tl & -> & Hhd & Htl). unfold of_components. rewrite foldl_app.
  assert (components (foldl (λ p c, join p (component_str c)) "" hd) = hd) as H.
  { by destruct Hhd as [->|[->| ->]]. }
  revert H. generalize (foldl (λ p c, join p (component_str c)) "" hd). intros p H.
  clear Hhd. revert p hd H. induction Htl as [|c tl Hc Htl IH]; intros p hd H; cbn.
  { by rewrite app_nil_r. }
  rewrite (IH _ (hd ++ [c])); [by rewrite <- app_assoc|].
  destruct Hc as [->|(n & -> & Hn)].
  - by rewrite components_join_piece, H by done.
  - cbn. by rewrite components_join, H.
Qed.

Lemma components_rebuildable p : rebuildable (components p).
Proof.
  unfold components, rebuildable. eexists _, _. split; [done|]. split.
  - repeat case_match; auto.
  - apply list.Forall_forall. intros c (s & Hc & Hs)%list_elem_of_bind.
    pose proof (split_slash_pieces p) as Hp. rewrite list.Forall_forall in Hp.
    specialize (Hp _ Hs). unfold piece_component in Hc.
    repeat case_decide; list_in; [by left|]. right. exists s. split; [done|]. by repeat split.
Qed.

Lemma rebuildable_front cs cs' : rebuildable (cs ++ cs') → rebuildable cs.
Proof.
  intros (hd & tl & H & Hhd & Htl).
  apply app_eq_inv in H as [(l & -> & ->)|(l & -> & ->)].
  - apply Forall_app in Htl as [Htl _]. exists hd, l. auto.
  - exists cs, []. split; [by rewrite app_nil_r|]. split; [|done].
    destruct cs as [|c [|]]; [by left| |].
    + right. destruct Hhd as [|[|]]; simplify_eq/=; auto.
    + by destruct Hhd as [|[|]].
Qed.

Lemma components_parent p cs n :
  components p = cs ++ [Normal n] → ∃ d, parent p = Some d ∧ components d = cs.
Proof.
  intros H. unfold parent. rewrite H, last_snoc, removelast_last.
  eexists. split; [done|]. apply components_of_components.
  apply (rebuildable_front _ [Normal n]). rewrite <- H. apply components_rebuildable.
Qed.

Lemma components_nil p : components p = [] → p = "".
Proof.
  destruct p as [|c p]; [done|]. unfold components. cbn [has_root].
  case_bool_decide as Hc; [done|]. cbn [split_slash]. rewrite decide_False by done.
  destruct (split_slash_cons p) as (h & t & ->).
  case_decide as Hh; [done|]. cbn. unfold piece_component at 1.
  rewrite decide_False, decide_False by done. by case_decide.
Qed.

Lemma file_name_join p t : valid_name t → file_name (join p t) = Some t.
Proof.
  intros Ht. unfold file_name. rewrite components_join by done.
  by rewrite last_snoc.
Qed.

Lemma file_name_valid p n : file_name p = Some n → valid_name n.
Proof.
  unfold file_name. intros H. destruct (list.last _) as [[]|] eqn:E; simplify_eq/=.
  apply (components_Normal_valid p). apply last_Some_split in E. rewrite E.
  apply elem_of_app. right. by apply list_elem_of_singleton.
Qed.

Lemma file_name_components p n :
  file_name p = Some n → ∃ cs, components p = cs ++ [Normal n].
Proof.
  unfold file_name. destruct (list.last _) as [[]|] eqn:E; intros; simplify_eq/=.
  apply last_Some_split in E. eauto.
Qed.

Lemma starts_with_spec p b : starts_with p b = true ↔ components b `prefix_of` components p.
Proof. unfold starts_with. by rewrite bool_decide_eq_true. Qed.

(** Appending a suffix that is itself a possible name always yields a path
    whose last component is a name with that suffix. *)
Lemma file_name_os_push p suf :
  valid_name suf → 3 ≤ String.length suf →
  ∃ x, file_name (os_push p suf) = Some (x +:+ suf).
Proof.
  intros (Hs & _) Hl. unfold os_push, file_name, components.
  destruct (split_slash_app p suf Hs) as (l & x & H1 & H2). rewrite H2. exists x.
  assert (piece_component (x +:+ suf) = [Normal (x +:+ suf)]) as Hpc.
  { unfold piece_component.
    rewrite !decide_False; [done|intros H..];
      apply (f_equal String.length) in H; rewrite string_app_length in H; cbn in H; lia. }
  rewrite bind_app. cbn. rewrite Hpc. cbn. by rewrite app_assoc, last_snoc.
Qed.


(** *** Lossy conversion *)

Fixpoint is_ascii (s : string) : bool :=
  match s with
  | EmptyString => true
  | String c s' => Nat.ltb (nat_of_ascii c) 128 && is_ascii s'
  end.

(** Every output byte outside ASCII comes from a multi-byte sequence or a
    replacement, so an ASCII output is the input itself. *)
Lemma to_string_lossy_ascii_out s : is_ascii (to_string_lossy s) = true → to_string_lossy s = s.
Proof.
  induction s as [|a s IH]; cbn [to_string_lossy]; [done|].
  destruct (Nat.ltb _ 128) eqn:Ha.
  - cbn [is_ascii]. rewrite Ha. cbn [andb]. intros H. by rewrite IH.
  - repeat case_match; cbn [is_ascii]; rewrite ?Ha; done.
Qed.

(** On ASCII input the conversion is the identity. *)
Lemma to_string_lossy_ascii s : is_ascii s = true → to_string_lossy s = s.
Proof.
  induction s as [|a s IH]; cbn [to_string_lossy is_ascii]; [done|].
  intros [-> H]%andb_prop. by rewrite IH.
Qed.

Lemma to_string_lossy_no_slash s : no_slash s = true → no_slash (to_string_lossy s) = true.
Proof.
  induction s as [s IH] using (induction_ltof1 _ String.length). unfold ltof in IH.
  destruct s as [|a s1]; cbn [to_string_lossy no_slash]; [done|]. intros [Ha H1]%andb_prop.
  assert (∀ t, String.length t < String.length (String a s1) → no_slash t = true →
    no_slash (to_string_lossy t) = true) as IH' by auto. clear IH. cbn [String.length] in IH'.
  destruct (Nat.ltb _ 128).
  { cbn. rewrite Ha. cbn. apply IH'; [lia|done]. }
  destruct (lead a) as [[[len lo] hi]|]; [|cbn; apply IH'; [lia|done]].
  destruct s1 as [|b s2]; [done|]. cbn [String.length no_slash] in *.
  pose proof H1 as [Hb H2]%andb_prop.
  destruct (in_range lo hi b); [|rewrite no_slash_app; cbn [andb]; apply IH'; [cbn; lia|done]].
  destruct (Nat.eqb len 2).
  { cbn. rewrite Ha, Hb. cbn. apply IH'; [lia|done]. }
  destruct s2 as [|c s3]; [done|]. cbn [String.length no_slash] in *.
  pose proof H2 as [Hc H3]%andb_prop.
  destruct (in_range 128 191 c); [|rewrite no_slash_app; cbn [andb]; apply IH'; [cbn; lia|done]].
  destruct (Nat.eqb len 3).
  { cbn. rewrite Ha, Hb, Hc. cbn. apply IH'; [lia|done]. }
  destruct s3 as [|d s4]; [done|]. cbn [String.length no_slash] in *.
  pose proof H3 as [Hd H4]%andb_prop.
  destruct (in_range 128 191 d); [|rewrite no_slash_app; cbn [andb]; apply IH'; [cbn; lia|done]].
  cbn. rewrite Ha, Hb, Hc, Hd. cbn. apply IH'; [lia|done].
Qed.

(** A converted name is still a name: in particular the conversion cannot
    create a separator, a [.] or a [..]. *)
Lemma to_string_lossy_valid s : valid_name s → valid_name (to_string_lossy s).
Proof.
  intros (H1 & H2 & H3 & H4). split; [by apply to_string_lossy_no_slash|].
  assert (∀ t, is_ascii t = true → s ≠ t → to_string_lossy s ≠ t) as Hne.
  { intros t Ht Hs Heq. apply Hs. rewrite <- Heq. symmetry.
    apply to_string_lossy_ascii_out. by rewrite Heq. }
  repeat split; by apply Hne.
Qed.

#[export] Hint Resolve components_join file_name_join to_string_lossy_valid
  components_Normal_valid file_name_valid : reo.
