(* ===== verification/StdFs.v ===== *)
(** The file system the program talks to: [std::fs] on a POSIX system.

    [tokio::fs] functions are documented to be the [std::fs] functions of the
    same name run on a blocking thread, so both are the operations [Sys] here.
    The state is a tree of directory entries keyed by the list of names from
    the root, files being inodes that several names may share (hard links),
    symbolic links, and the table of open files.  [exec] gives each operation
    its effect and answer; [fault_exec] is the same operation failing for a
    reason outside the model (no space, I/O error, permission), a failed write
    having possibly stored a prefix of its bytes.

    Not modelled: checks of permissions (a refusal is a fault of [fault_exec]),
    owners, the modes of directories and symbolic links, hard links to
    directories (POSIX has none), mount points, the order of [read_dir], and the
    refusal of a separator after the name of a regular file. *)
From S2P Require Import Prelude StdPath.

(** ** [std::io::ErrorKind] (the kinds the operations below report) *)
Module Io.
Inductive ErrorKind : Type :=
| NotFound
| PermissionDenied
| AlreadyExists
| NotADirectory
| IsADirectory
| DirectoryNotEmpty
| FilesystemLoop
| StorageFull
| ResourceBusy
| InvalidData
| Other.
#[global] Instance error_kind_eq_dec : EqDecision ErrorKind.
Proof. solve_decision. Defined.
End Io.

Definition io (T : Type) : Type := result T Io.ErrorKind.

(** ** State *)

Inductive Entry : Type :=
| EFile (i : nat)
| EDir
| ELink (target : string).
#[export] Instance entry_eq_dec : EqDecision Entry.
Proof. solve_decision. Defined.

(** A regular file: its bytes, its date and its permission bits. *)
Record Inode : Type := mkInode { i_data : bytes; i_mtime : Z; i_mode : Z }.

(** What an open file description refers to and how it writes. *)
Inductive Handle : Type :=
| HAppend (i : nat)
| HWrite (i pos : nat)
| HRead (i pos : nat)
| HReadDir (q : list string).

Abbreviation Tree := (gmap (list string) Entry).

Record Fs : Type := mkFs {
  fs_tree : Tree;
  fs_inodes : gmap nat Inode;
  fs_fds : gmap nat Handle;
  fs_next_ino : nat;
  fs_next_fd : nat;
  fs_dtime : gmap (list string) Z;
  fs_now : Z;
  fs_cwd : list string;
  fs_umask : Z
}.

Definition set_tree (f : Tree → Tree) (s : Fs) : Fs :=
  mkFs (f (fs_tree s)) (fs_inodes s) (fs_fds s) (fs_next_ino s) (fs_next_fd s)
       (fs_dtime s) (fs_now s) (fs_cwd s) (fs_umask s).
Definition set_inodes (f : gmap nat Inode → gmap nat Inode) (s : Fs) : Fs :=
  mkFs (fs_tree s) (f (fs_inodes s)) (fs_fds s) (fs_next_ino s) (fs_next_fd s)
       (fs_dtime s) (fs_now s) (fs_cwd s) (fs_umask s).
Definition set_fds (f : gmap nat Handle → gmap nat Handle) (s : Fs) : Fs :=
  mkFs (fs_tree s) (fs_inodes s) (f (fs_fds s)) (fs_next_ino s) (fs_next_fd s)
       (fs_dtime s) (fs_now s) (fs_cwd s) (fs_umask s).
Definition touch_dir (q : list string) (s : Fs) : Fs :=
  mkFs (fs_tree s) (fs_inodes s) (fs_fds s) (fs_next_ino s) (fs_next_fd s)
       (<[q := fs_now s]> (fs_dtime s)) (fs_now s) (fs_cwd s) (fs_umask s).
Definition set_now (t : Z) (s : Fs) : Fs :=
  mkFs (fs_tree s) (fs_inodes s) (fs_fds s) (fs_next_ino s) (fs_next_fd s)
       (fs_dtime s) t (fs_cwd s) (fs_umask s).

Definition inode_of (s : Fs) (i : nat) : Inode :=
  default (mkInode [] 0%Z 0%Z) (fs_inodes s !! i).
Definition content (s : Fs) (i : nat) : bytes := i_data (inode_of s i).

(** ** Path resolution *)

Inductive Walk : Type :=
| WFound (q : list string) (e : Entry)
| WMissing (dir : list string) (name : string)
| WErr (k : Io.ErrorKind).

(** Symbolic links followed before the kernel answers ELOOP. *)
Definition MAXSYMLINKS : nat := 40.

Fixpoint walk (links : nat) (t : Tree) (follow : bool) {struct links}
    : list string → list Component → Walk :=
  fix go (cur : list string) (todo : list Component) {struct todo} : Walk :=
    match todo with
    | [] => WFound cur EDir
    | RootDir :: r => go [] r
    | (CurDir | Prefix _) :: r => go cur r
    | ParentDir :: r => go (removelast cur) r
    | Normal n :: r =>
        match t !! (cur ++ [n]) with
        | None => match r with [] => WMissing cur n | _ :: _ => WErr Io.NotFound end
        | Some EDir => go (cur ++ [n]) r
        | Some (EFile i) =>
            match r with
            | [] => WFound (cur ++ [n]) (EFile i)
            | _ :: _ => WErr Io.NotADirectory
            end
        | Some (ELink target) =>
            match r, follow with
            | [], false => WFound (cur ++ [n]) (ELink target)
            | _, _ =>
                match links with
                | O => WErr Io.FilesystemLoop
                | S links' => walk links' t follow cur (components target ++ r)
                end
            end
        end
    end.

Definition lookup_path (s : Fs) (follow : bool) (p : string) : Walk :=
  if decide (p = "") then WErr Io.NotFound
  else walk MAXSYMLINKS (fs_tree s) follow (fs_cwd s) (components p).

(** ** Metadata *)

Inductive FileType : Type := IsFile | IsDir | IsSymlink.
#[export] Instance filetype_eq_dec : EqDecision FileType.
Proof. solve_decision. Defined.

Record Metadata : Type := mkMetadata {
  m_type : FileType;
  m_len : Z;
  m_modified : Z
}.

(** The length reported for a directory is the file system's own business;
    the model takes the usual block size. *)
Definition dir_len : Z := 4096.

Definition metadata_of (s : Fs) (q : list string) (e : Entry) : Metadata :=
  match e with
  | EFile i => mkMetadata IsFile (Z.of_nat (length (content s i))) (i_mtime (inode_of s i))
  | EDir => mkMetadata IsDir dir_len (default 0%Z (fs_dtime s !! q))
  | ELink target => mkMetadata IsSymlink (Z.of_nat (String.length target)) 0
  end.

(** Names directly below [q]. *)
Definition children (t : Tree) (q : list string) : list string :=
  omap (λ kv : list string * Entry,
          match list.last kv.1 with
          | Some n => if decide (removelast kv.1 = q) then Some n else None
          | None => None
          end)
       (map_to_list t).

(** ** Operations *)

Inductive Sys : Type → Type :=
| TryExists (p : string) : Sys bool
| Stat (p : string) : Sys Metadata
| SymlinkStat (p : string) : Sys Metadata
| Canonicalize (p : string) : Sys string
| RemoveFile (p : string) : Sys unit
| RemoveDir (p : string) : Sys unit
| Mkdir (p : string) : Sys unit
| OpenAppend (p : string) : Sys nat
| OpenTruncate (mode : Z) (p : string) : Sys nat
| OpenRead (p : string) : Sys nat
| Seek (fd : nat) (pos : Z) : Sys unit
| Write (fd : nat) (b : bytes) : Sys unit
| Flush (fd : nat) : Sys unit
| Close (fd : nat) : Sys unit
| HardLink (src dst : string) : Sys unit
| ReadDir (p : string) : Sys (list string)
| NextEntry (p : string) : Sys unit
| OpenExisting (p : string) : Sys nat
| ReadToString (p : string) : Sys string
| ReadToEnd (fd : nat) : Sys bytes.

Definition insert_entry (dir : list string) (n : string) (e : Entry) (s : Fs) : Fs :=
  touch_dir dir (set_tree <[dir ++ [n] := e]> s).

Definition remove_entry (q : list string) (s : Fs) : Fs :=
  touch_dir (removelast q) (set_tree (delete q) s).

(** The permission bits of [File::create], and the owner's alone. *)
Definition FILE_MODE : Z := 0x1b6.
Definition PRIVATE_MODE : Z := 0x180.

(** A fresh empty regular file at [dir/n], with the permission bits asked for that
    the process's mask leaves. *)
Definition create_file (mode : Z) (dir : list string) (n : string) (s : Fs) : Fs :=
  let s1 := insert_entry dir n (EFile (fs_next_ino s)) s in
  mkFs (fs_tree s1) (<[fs_next_ino s := mkInode [] (fs_now s) (Z.ldiff mode (fs_umask s))]> (fs_inodes s1)) (fs_fds s1)
       (S (fs_next_ino s)) (fs_next_fd s1) (fs_dtime s1) (fs_now s1) (fs_cwd s1) (fs_umask s1).

Definition open_handle (h : Handle) (s : Fs) : io nat * Fs :=
  (Ok (fs_next_fd s),
   mkFs (fs_tree s) (fs_inodes s) (<[fs_next_fd s := h]> (fs_fds s)) (fs_next_ino s)
        (S (fs_next_fd s)) (fs_dtime s) (fs_now s) (fs_cwd s) (fs_umask s)).

Definition set_content (i : nat) (b : bytes) (s : Fs) : Fs :=
  set_inodes <[i := mkInode b (fs_now s) (i_mode (inode_of s i))]> s.

(** Bytes [b] stored at offset [pos], a gap before them reading as zeros. *)
Definition overwrite (pos : nat) (b old : bytes) : bytes :=
  take pos (old ++ replicate (pos - length old) Byte.x00) ++ b ++ drop (pos + length b) old.

Definition write_handle (fd : nat) (b : bytes) (s : Fs) : option Fs :=
  match fs_fds s !! fd with
  | Some (HAppend i) => Some (set_content i (content s i ++ b) s)
  | Some (HWrite i pos) =>
      Some (set_fds <[fd := HWrite i (pos + length b)]>
              (set_content i (overwrite pos b (content s i)) s))
  | _ => None
  end.

Definition exec {T} (e : Sys T) (s : Fs) : io T * Fs :=
  match e in Sys T return io T * Fs with
  | TryExists p =>
      match lookup_path s true p with
      | WFound _ _ => (Ok true, s)
      | WMissing _ _ | WErr Io.NotFound => (Ok false, s)
      | WErr k => (Err k, s)
      end
  | Stat p =>
      match lookup_path s true p with
      | WFound q e => (Ok (metadata_of s q e), s)
      | WMissing _ _ => (Err Io.NotFound, s)
      | WErr k => (Err k, s)
      end
  | SymlinkStat p =>
      match lookup_path s false p with
      | WFound q e => (Ok (metadata_of s q e), s)
      | WMissing _ _ => (Err Io.NotFound, s)
      | WErr k => (Err k, s)
      end
  | Canonicalize p =>
      match lookup_path s true p with
      | WFound q _ => (Ok (render q), s)
      | WMissing _ _ => (Err Io.NotFound, s)
      | WErr k => (Err k, s)
      end
  | RemoveFile p =>
      match lookup_path s false p with
      | WFound _ EDir => (Err Io.IsADirectory, s)
      | WFound q _ => (Ok tt, remove_entry q s)
      | WMissing _ _ => (Err Io.NotFound, s)
      | WErr k => (Err k, s)
      end
  | RemoveDir p =>
      match lookup_path s false p with
      | WFound [] EDir => (Err Io.ResourceBusy, s)
      | WFound q EDir =>
          match children (fs_tree s) q with
          | [] => (Ok tt, remove_entry q s)
          | _ :: _ => (Err Io.DirectoryNotEmpty, s)
          end
      | WFound _ _ => (Err Io.NotADirectory, s)
      | WMissing _ _ => (Err Io.NotFound, s)
      | WErr k => (Err k, s)
      end
  | Mkdir p =>
      match lookup_path s false p with
      | WFound _ _ => (Err Io.AlreadyExists, s)
      | WMissing d n => (Ok tt, touch_dir (d ++ [n]) (insert_entry d n EDir s))
      | WErr k => (Err k, s)
      end
  | OpenAppend p =>
      match lookup_path s true p with
      | WFound _ (EFile i) => open_handle (HAppend i) s
      | WFound _ _ => (Err Io.IsADirectory, s)
      | WMissing d n => open_handle (HAppend (fs_next_ino s)) (create_file FILE_MODE d n s)
      | WErr k => (Err k, s)
      end
  | OpenTruncate mode p =>
      match lookup_path s true p with
      | WFound _ (EFile i) => open_handle (HWrite i 0) (set_content i [] s)
      | WFound _ _ => (Err Io.IsADirectory, s)
      | WMissing d n => open_handle (HWrite (fs_next_ino s) 0) (create_file mode d n s)
      | WErr k => (Err k, s)
      end
  | OpenRead p =>
      match lookup_path s true p with
      | WFound _ (EFile i) => open_handle (HRead i 0) s
      | WFound q _ => open_handle (HReadDir q) s
      | WMissing _ _ => (Err Io.NotFound, s)
      | WErr k => (Err k, s)
      end
  | Seek fd pos =>
      match fs_fds s !! fd with
      | Some (HRead i _) => (Ok tt, set_fds <[fd := HRead i (Z.to_nat pos)]> s)
      | Some (HWrite i _) => (Ok tt, set_fds <[fd := HWrite i (Z.to_nat pos)]> s)
      | Some _ => (Ok tt, s)
      | None => (Err Io.Other, s)
      end
  | Write fd b =>
      match write_handle fd b s with
      | Some s' => (Ok tt, s')
      | None => (Err Io.Other, s)
      end
  | Flush fd => (Ok tt, s)
  | Close fd => (Ok tt, set_fds (delete fd) s)
  | HardLink a b =>
      match lookup_path s false a with
      | WFound _ EDir => (Err Io.PermissionDenied, s)
      | WFound _ e =>
          match lookup_path s false b with
          | WFound _ _ => (Err Io.AlreadyExists, s)
          | WMissing d n => (Ok tt, insert_entry d n e s)
          | WErr k => (Err k, s)
          end
      | WMissing _ _ => (Err Io.NotFound, s)
      | WErr k => (Err k, s)
      end
  | ReadDir p =>
      match lookup_path s true p with
      | WFound q EDir => (Ok (children (fs_tree s) q), s)
      | WFound _ _ => (Err Io.NotADirectory, s)
      | WMissing _ _ => (Err Io.NotFound, s)
      | WErr k => (Err k, s)
      end
  | NextEntry _ => (Ok tt, s)
  | OpenExisting p =>
      match lookup_path s true p with
      | WFound _ (EFile i) => open_handle (HAppend i) s
      | WFound _ _ => (Err Io.IsADirectory, s)
      | WMissing _ _ => (Err Io.NotFound, s)
      | WErr k => (Err k, s)
      end
  | ReadToString p =>
      match lookup_path s true p with
      | WFound _ (EFile i) =>
          let str := String.string_of_list_byte (content s i) in
          (if decide (to_string_lossy str = str) then Ok str else Err Io.InvalidData, s)
      | WFound _ _ => (Err Io.IsADirectory, s)
      | WMissing _ _ => (Err Io.NotFound, s)
      | WErr k => (Err k, s)
      end
  | ReadToEnd fd =>
      match fs_fds s !! fd with
      | Some (HRead i pos) =>
          (Ok (drop pos (content s i)),
           set_fds <[fd := HRead i (Nat.max pos (length (content s i)))]> s)
      | Some (HReadDir _) => (Err Io.IsADirectory, s)
      | _ => (Err Io.Other, s)
      end
  end.

(** [OpenAppend] is [OpenOptions::append(true).create(true)], [OpenTruncate] is
    [write(true).create(true).truncate(true)] with the mode of a file it creates
    ([File::create] for [FILE_MODE]), [OpenExisting]
    is [append(true)] alone, [OpenRead] is [File::open]. *)

(** A failure the model does not explain: the error kind the caller sees and,
    for a write, how many of its bytes were stored before it. *)
Record Fault : Type := mkFault { fl_kind : Io.ErrorKind; fl_stored : nat }.

Definition fault_exec {T} (f : Fault) (e : Sys T) (s : Fs) : io T * Fs :=
  match e in Sys T return io T * Fs with
  | Write fd b => (Err (fl_kind f), default s (write_handle fd (take (fl_stored f) b) s))
  | Close fd => (Err (fl_kind f), set_fds (delete fd) s)
  | _ => (Err (fl_kind f), s)
  end.

(** An empty file system: only the root directory exists; the mask is 022. *)
Definition empty_fs (now : Z) : Fs := mkFs ∅ ∅ ∅ 0 0 ∅ now [] 0x12.

(** ** Well-formed file systems *)

Definition is_dir (t : Tree) (q : list string) : Prop := q = [] ∨ t !! q = Some EDir.

Record wf_tree (t : Tree) : Prop := {
  wft_parent q e : t !! q = Some e → ∃ d n, q = d ++ [n] ∧ valid_name n ∧ is_dir t d
}.

Definition handle_ino (h : Handle) : option nat :=
  match h with HAppend i | HWrite i _ | HRead i _ => Some i | HReadDir _ => None end.

Record wf_fs (s : Fs) : Prop := {
  wf_is_tree : wf_tree (fs_tree s);
  wf_cwd : is_dir (fs_tree s) (fs_cwd s);
  wf_names q i : fs_tree s !! q = Some (EFile i) → i < fs_next_ino s;
  wf_fd_inos fd h i : fs_fds s !! fd = Some h → handle_ino h = Some i → i < fs_next_ino s;
  wf_fd_nums fd h : fs_fds s !! fd = Some h → fd < fs_next_fd s
}.

(** No symbolic link anywhere: none of the operations creates one. *)
Definition no_symlinks (t : Tree) : Prop := ∀ q target, t !! q ≠ Some (ELink target).

(** ** Lemmas: resolution *)

Lemma walk_unfold links t follow cur todo :
  walk links t follow cur todo =
    match todo with
    | [] => WFound cur EDir
    | RootDir :: r => walk links t follow [] r
    | (CurDir | Prefix _) :: r => walk links t follow cur r
    | ParentDir :: r => walk links t follow (removelast cur) r
    | Normal n :: r =>
        match t !! (cur ++ [n]) with
        | None => match r with [] => WMissing cur n | _ :: _ => WErr Io.NotFound end
        | Some EDir => walk links t follow (cur ++ [n]) r
        | Some (EFile i) =>
            match r with
            | [] => WFound (cur ++ [n]) (EFile i)
            | _ :: _ => WErr Io.NotADirectory
            end
        | Some (ELink target) =>
            match r, follow with
            | [], false => WFound (cur ++ [n]) (ELink target)
            | _, _ =>
                match links with
                | O => WErr Io.FilesystemLoop
                | S links' => walk links' t follow cur (components target ++ r)
                end
            end
        end
    end.
Proof. by destruct links, todo as [|[] ?]. Qed.

(** An induction that follows the resolution: on the links left, then on the
    components left. *)
Lemma walk_ind (t : Tree) (follow : bool) (P : list string → list Component → Walk → Prop) :
  (∀ cur, P cur [] (WFound cur EDir)) →
  (∀ links cur r, P [] r (walk links t follow [] r) →
     P cur (RootDir :: r) (walk links t follow [] r)) →
  (∀ links cur c r, c = CurDir ∨ (∃ s, c = Prefix s) → P cur r (walk links t follow cur r) →
     P cur (c :: r) (walk links t follow cur r)) →
  (∀ links cur r, P (removelast cur) r (walk links t follow (removelast cur) r) →
     P cur (ParentDir :: r) (walk links t follow (removelast cur) r)) →
  (∀ cur n, t !! (cur ++ [n]) = None → P cur [Normal n] (WMissing cur n)) →
  (∀ cur n c r, t !! (cur ++ [n]) = None → P cur (Normal n :: c :: r) (WErr Io.NotFound)) →
  (∀ links cur n r, t !! (cur ++ [n]) = Some EDir →
     P (cur ++ [n]) r (walk links t follow (cur ++ [n]) r) →
     P cur (Normal n :: r) (walk links t follow (cur ++ [n]) r)) →
  (∀ cur n i, t !! (cur ++ [n]) = Some (EFile i) →
     P cur [Normal n] (WFound (cur ++ [n]) (EFile i))) →
  (∀ cur n i c r, t !! (cur ++ [n]) = Some (EFile i) →
     P cur (Normal n :: c :: r) (WErr Io.NotADirectory)) →
  (∀ cur n target, t !! (cur ++ [n]) = Some (ELink target) → follow = false →
     P cur [Normal n] (WFound (cur ++ [n]) (ELink target))) →
  (∀ cur n target r, t !! (cur ++ [n]) = Some (ELink target) → (r ≠ [] ∨ follow = true) →
     P cur (Normal n :: r) (WErr Io.FilesystemLoop)) →
  (∀ links cur n target r, t !! (cur ++ [n]) = Some (ELink target) → (r ≠ [] ∨ follow = true) →
     P cur (components target ++ r) (walk links t follow cur (components target ++ r)) →
     P cur (Normal n :: r) (walk links t follow cur (components target ++ r))) →
  ∀ links cur todo, P cur todo (walk links t follow cur todo).
Proof.
  intros Hnil Hroot Hcur Hpar Hm Hnf Hdir Hf Hnd Hl Hloop Hlink links.
  induction links as [|links IHl]; intros cur todo; revert cur;
    induction todo as [|[] r IH]; intros cur; rewrite walk_unfold; eauto;
    destruct (t !! (cur ++ [s])) as [[]|] eqn:E; eauto;
    destruct r as [|c r]; eauto; destruct follow eqn:Ef; eauto.
  all: eapply Hlink; eauto; left; done.
Qed.

Lemma walk_found t follow links cur todo q e :
  walk links t follow cur todo = WFound q e → e = EDir ∨ t !! q = Some e.
Proof.
  revert q e. pattern cur, todo, (walk links t follow cur todo).
  apply walk_ind; intros; simplify_eq; eauto.
Qed.

Lemma walk_missing t follow links cur todo d n :
  walk links t follow cur todo = WMissing d n → t !! (d ++ [n]) = None.
Proof.
  pattern cur, todo, (walk links t follow cur todo).
  apply walk_ind; intros; simplify_eq; eauto.
Qed.

Lemma walk_no_symlinks t follow links cur todo :
  no_symlinks t → walk links t follow cur todo = walk links t false cur todo.
Proof.
  intros Hn. generalize links at 2 as links0. intros links0.
  pattern cur, todo, (walk links t follow cur todo).
  apply walk_ind; clear cur todo.
  all: intros; rewrite (walk_unfold links0);
    repeat match goal with H : _ !! _ = _ |- _ => rewrite H end; try done.
  all: try match goal with H : _ !! _ = Some (ELink _) |- _ => by destruct (Hn _ _ H) end.
  by destruct H as [->|[? ->]].
Qed.

(** Without following a final link, resolution ends on the last name of the
    path: whatever it finds, or would create, has that name. *)
Lemma walk_nofollow_last t links cur todo n cs :
  todo = cs ++ [Normal n] →
  match walk links t false cur todo with
  | WFound q _ => list.last q = Some n
  | WMissing _ m => m = n
  | WErr _ => True
  end.
Proof.
  revert cs. pattern cur, todo, (walk links t false cur todo).
  apply walk_ind; clear; intros;
    repeat match goal with
    | H : ?c :: ?r = ?cs ++ _ |- _ =>
        destruct cs; cbn in H; simplify_eq/=
    end; autorewrite with reo.
  all: try (by match goal with H : [] = ?l ++ _ |- _ => destruct l end).
  all: try (match goal with IH : ∀ _ : list Component, _ → _ |- _ =>
              eapply IH; by rewrite ?app_assoc end).
  all: first [done | rewrite walk_unfold; by rewrite last_snoc | exfalso; naive_solver].
Qed.

(** ** Lemmas: well-formedness is preserved *)

Definition valid_comps (cs : list Component) : Prop := ∀ n, Normal n ∈ cs → valid_name n.

Lemma valid_comps_components p : valid_comps (components p).
Proof. intros n. apply components_Normal_valid. Qed.

Lemma valid_comps_cons c cs : valid_comps (c :: cs) → valid_comps cs.
Proof. intros H n Hn. apply H, elem_of_cons. auto. Qed.

Lemma valid_comps_app cs cs' : valid_comps cs → valid_comps cs' → valid_comps (cs ++ cs').
Proof. intros H H' n [Hn|Hn]%elem_of_app; auto. Qed.

Lemma is_dir_removelast t q : wf_tree t → is_dir t q → is_dir t (removelast q).
Proof.
  intros Hw [->|H]; [by left|].
  apply Hw in H as (d & n & -> & _ & Hd). by rewrite removelast_last.
Qed.

(** Where a resolution that starts in a directory can end. *)
Lemma walk_wf t follow links cur todo :
  wf_tree t → is_dir t cur → valid_comps todo →
  match walk links t follow cur todo with
  | WFound q EDir => is_dir t q
  | WFound q e => t !! q = Some e
  | WMissing d n => is_dir t d ∧ valid_name n ∧ t !! (d ++ [n]) = None
  | WErr _ => True
  end.
Proof.
  intros Hw. pattern cur, todo, (walk links t follow cur todo).
  apply walk_ind; clear cur todo.
  all: intros; try match goal with IH : _ → _ → _ |- _ => apply IH end.
  all: try done.
  all: try by (eapply valid_comps_cons; eauto).
  all: try by apply is_dir_removelast.
  - by left.
  - split; [done|]. split; [|done]. apply H1. by left.
  - by right.
  - apply valid_comps_app; [apply valid_comps_components|]. by eapply valid_comps_cons.
Qed.

Lemma lookup_path_wf s follow p :
  wf_fs s →
  match lookup_path s follow p with
  | WFound q EDir => is_dir (fs_tree s) q
  | WFound q e => fs_tree s !! q = Some e
  | WMissing d n => is_dir (fs_tree s) d ∧ valid_name n ∧ fs_tree s !! (d ++ [n]) = None
  | WErr _ => True
  end.
Proof.
  intros Hw. unfold lookup_path. case_decide; [done|].
  apply walk_wf; [apply Hw..|]. apply valid_comps_components.
Qed.

Lemma children_spec t q n : n ∈ children t q ↔ is_Some (t !! (q ++ [n])).
Proof.
  unfold children. rewrite list_elem_of_omap. split.
  - intros ([k e] & Hk & H). cbn in H. apply elem_of_map_to_list in Hk.
    destruct (list.last k) as [m|] eqn:E; [|done]. case_decide; simplify_eq.
    apply last_Some_split in E. rewrite <- E. eauto.
  - intros [e He]. exists (q ++ [n], e). split; [by apply elem_of_map_to_list|]. cbn.
    by rewrite last_snoc, removelast_last, decide_True.
Qed.

Lemma children_NoDup t q : NoDup (children t q).
Proof.
  unfold children. pose proof (NoDup_fst_map_to_list t) as Hnd.
  induction (map_to_list t) as [|[k e] l IH]; cbn; [constructor|].
  inversion Hnd as [|? ? Hk Hnd']; subst. destruct (list.last k) as [n|] eqn:E; [|auto].
  case_decide as Hq; [|auto]. constructor; [|auto].
  intros ([k' e'] & Hin & Hx)%list_elem_of_omap. cbn in Hx.
  destruct (list.last k') as [n'|] eqn:E'; [|done]. case_decide as Hq'; simplify_eq.
  apply last_Some_split in E. apply last_Some_split in E'. apply Hk, list_elem_of_fmap.
  exists (k', e'). split; [|done]. cbn. rewrite E, E'. by rewrite Hq'.
Qed.

Lemma is_dir_insert t q e d : t !! q = None → is_dir t d → is_dir (<[q := e]> t) d.
Proof.
  intros Hq [->|H]; [by left|]. right. rewrite lookup_insert_ne; [done|congruence].
Qed.

Lemma wf_tree_insert t d n e :
  wf_tree t → is_dir t d → valid_name n → t !! (d ++ [n]) = None →
  wf_tree (<[d ++ [n] := e]> t).
Proof.
  intros Hw Hd Hn Hq. constructor. intros q e' Hq'.
  apply lookup_insert_Some in Hq' as [[<- <-]|[_ Hq']].
  - exists d, n. eauto using is_dir_insert.
  - apply Hw in Hq' as (d' & n' & -> & ? & ?). exists d', n'. eauto using is_dir_insert.
Qed.

Lemma wf_tree_delete t q :
  wf_tree t → (∀ n, t !! (q ++ [n]) = None) → wf_tree (delete q t).
Proof.
  intros Hw Hc. constructor. intros q' e H.
  apply lookup_delete_Some in H as [Hne H].
  apply Hw in H as Hx. destruct Hx as (d & n & -> & Hn & [->|Hd]).
  - exists [], n. repeat split; try apply Hn. by left.
  - exists d, n. repeat split; try apply Hn. right.
    rewrite lookup_delete_ne; [done|]. intros ->. by rewrite Hc in H.
Qed.

Lemma is_dir_delete_file t q d e :
  t !! q = Some e → e ≠ EDir → is_dir t d → is_dir (delete q t) d.
Proof.
  intros Hq He [->|Hd]; [by left|]. right. rewrite lookup_delete_ne; [done|congruence].
Qed.

(** Only directories have entries below them. *)
Lemma wf_tree_no_children t q n e :
  wf_tree t → t !! q = Some e → e ≠ EDir → t !! (q ++ [n]) = None.
Proof.
  intros Hw Hq He. destruct (t !! (q ++ [n])) eqn:E; [|done].
  apply Hw in E as (d & m & [-> ->]%app_inj_tail & _ & [->|Hd]); [|congruence].
  apply Hw in Hq as (d & k & H & _). by destruct d.
Qed.

Section wf_exec.
Context (s : Fs) (Hw : wf_fs s).

Lemma wf_insert_entry d n e :
  is_dir (fs_tree s) d → valid_name n → fs_tree s !! (d ++ [n]) = None →
  (∀ i, e = EFile i → i < fs_next_ino s) →
  wf_fs (insert_entry d n e s).
Proof.
  intros Hd Hn Hq He. destruct Hw. split; cbn.
  - by apply wf_tree_insert.
  - by apply is_dir_insert.
  - intros q i [[_ ->]|[_ H]]%lookup_insert_Some; eauto.
  - eauto.
  - eauto.
Qed.

Lemma wf_create_file mode d n :
  is_dir (fs_tree s) d → valid_name n → fs_tree s !! (d ++ [n]) = None →
  wf_fs (create_file mode d n s).
Proof.
  intros Hd Hn Hq. destruct Hw. split; cbn.
  - by apply wf_tree_insert.
  - by apply is_dir_insert.
  - intros q i [[_ [= ->]]|[_ H]]%lookup_insert_Some; [lia|]. apply wf_names0 in H. lia.
  - intros fd h i H1 H2. eapply wf_fd_inos0 in H1; eauto.
  - eauto.
Qed.

Lemma wf_set_content i b : wf_fs (set_content i b s).
Proof. destruct Hw. by split. Qed.

Lemma wf_set_fds fd h :
  fd < fs_next_fd s → (∀ i, handle_ino h = Some i → i < fs_next_ino s) →
  wf_fs (set_fds <[fd := h]> s).
Proof.
  intros Hfd Hh. destruct Hw. split; cbn; auto.
  - intros fd' h' i [[<- <-]|[_ H]]%lookup_insert_Some; eauto.
  - intros fd' h' [[<- <-]|[_ H]]%lookup_insert_Some; eauto.
Qed.

Lemma wf_close fd : wf_fs (set_fds (delete fd) s).
Proof.
  destruct Hw. split; cbn; auto.
  - intros fd' h i [_ H]%lookup_delete_Some; eauto.
  - intros fd' h [_ H]%lookup_delete_Some; eauto.
Qed.

Lemma wf_touch d : wf_fs (touch_dir d s).
Proof. destruct Hw. by split. Qed.

Lemma wf_remove_file q e :
  fs_tree s !! q = Some e → e ≠ EDir → wf_fs (remove_entry q s).
Proof.
  intros Hq He. destruct Hw as [Ht Hc Hn Hi Hf]. split; cbn; auto.
  - apply wf_tree_delete; [done|]. intros n. eapply wf_tree_no_children; eauto.
  - eapply is_dir_delete_file; eauto.
  - intros q' i [_ H]%lookup_delete_Some; eauto.
Qed.

Lemma wf_write_handle fd b s' : write_handle fd b s = Some s' → wf_fs s'.
Proof.
  unfold write_handle. intros H. destruct (fs_fds s !! fd) as [[]|] eqn:E; simplify_eq.
  - apply wf_set_content.
  - destruct Hw as [Ht Hc Hn Hi Hf]. split; cbn; auto.
    + intros fd' h i' [[<- <-]|[_ H]]%lookup_insert_Some ?; eauto.
    + intros fd' h [[<- <-]|[_ H]]%lookup_insert_Some; eauto.
Qed.
End wf_exec.

Lemma wf_open_handle s h r s' :
  wf_fs s → (∀ i, handle_ino h = Some i → i < fs_next_ino s) →
  open_handle h s = (r, s') → wf_fs s'.
Proof.
  intros Hw Hh [= <- <-]. destruct Hw as [Ht Hc Hn Hi Hf]. split; cbn; auto.
  - intros fd h' i [[<- <-]|[_ H]]%lookup_insert_Some ?; eauto.
  - intros fd h' [[<- <-]|[_ H]]%lookup_insert_Some; [lia|]. apply Hf in H. lia.
Qed.

(** Opening a file that is there, and one that is not. *)
Lemma wf_open_found s q i h :
  wf_fs s → fs_tree s !! q = Some (EFile i) → handle_ino h = Some i → wf_fs (open_handle h s).2.
Proof.
  intros Hw Hq Hh. eapply wf_open_handle; [done| |done]. rewrite Hh. intros ? [= <-].
  by eapply wf_names.
Qed.

Lemma wf_open_new s mode d n h :
  wf_fs s → is_dir (fs_tree s) d → valid_name n → fs_tree s !! (d ++ [n]) = None →
  handle_ino h = Some (fs_next_ino s) → wf_fs (open_handle h (create_file mode d n s)).2.
Proof.
  intros Hw Hd Hn Hq Hh. eapply wf_open_handle; [by apply wf_create_file| |done]. rewrite Hh.
  cbn. intros ? [= <-]. lia.
Qed.

(** A descriptor that goes on with the inode it has. *)
Lemma wf_reposition s fd h h' :
  wf_fs s → fs_fds s !! fd = Some h → handle_ino h' = handle_ino h →
  wf_fs (set_fds <[fd := h']> s).
Proof.
  intros Hw Hfd Hh. apply wf_set_fds; [done|by eapply wf_fd_nums|]. rewrite Hh. intros i Hi.
  by eapply wf_fd_inos.
Qed.

(** An empty directory that is not the working directory can go. *)
Lemma wf_remove_dir s q :
  wf_fs s → fs_tree s !! q = Some EDir → children (fs_tree s) q = [] → q ≠ fs_cwd s →
  wf_fs (remove_entry q s).
Proof.
  intros [Ht Hcw Hn Hi Hf] Hq Hc Hne.
  assert (∀ n, fs_tree s !! (q ++ [n]) = None) as Hc'.
  { intros n. apply eq_None_not_Some. rewrite <- children_spec, Hc. apply not_elem_of_nil. }
  split; cbn; auto.
  - by apply wf_tree_delete.
  - destruct Hcw as [Hcw|Hcw]; [by left|]. right. by rewrite lookup_delete_ne.
  - intros q' i [_ H']%lookup_delete_Some; eauto.
Qed.

(** The working directory is not removed. *)
Definition keeps_cwd {T} (e : Sys T) (s : Fs) : Prop :=
  match e with
  | RemoveDir p => lookup_path s false p ≠ WFound (fs_cwd s) EDir
  | _ => True
  end.

(** Every operation leaves a well-formed file system well formed. *)
Lemma exec_wf {T} (e : Sys T) s : wf_fs s → keeps_cwd e s → wf_fs (exec e s).2.
Proof.
  intros Hw Hk. pose proof (λ follow p, lookup_path_wf s follow p Hw) as Hl.
  destruct e as [p|p|p|p|p|p|p|p|mode p|p|fd pos|fd b|fd|fd|a b|p|p|p|p|fd]; cbn [exec keeps_cwd] in *; auto.
  1-4,15,17: repeat (case_match; cbn; auto).
  - (* RemoveFile *) specialize (Hl false p).
    destruct (lookup_path s false p) as [q []| |]; cbn; auto; by eapply wf_remove_file.
  - (* RemoveDir *) specialize (Hl false p).
    destruct (lookup_path s false p) as [[|x q] []| |]; cbn [snd]; auto.
    destruct (children _ _) as [|c cs] eqn:E; cbn [snd]; auto.
    destruct Hl as [|Hl]; [done|]. apply wf_remove_dir; [done..|]. intros Heq. apply Hk. by rewrite Heq.
  - (* Mkdir *) specialize (Hl false p).
    destruct (lookup_path s false p) as [| |]; cbn [snd]; auto.
    apply wf_touch, wf_insert_entry; naive_solver.
  - (* OpenAppend *) specialize (Hl true p).
    destruct (lookup_path s true p) as [q []|d n|]; auto; [by eapply wf_open_found|].
    apply wf_open_new; naive_solver.
  - (* OpenTruncate *) specialize (Hl true p).
    destruct (lookup_path s true p) as [q []|d n|]; auto; [|apply wf_open_new; naive_solver].
    eapply (wf_open_found (set_content i [] s)); [by apply wf_set_content|done|done].
  - (* OpenRead *) specialize (Hl true p).
    destruct (lookup_path s true p) as [q []| |]; auto; [by eapply wf_open_found|..];
      by (eapply wf_open_handle; [done| |done]).
  - (* Seek *) destruct (fs_fds s !! fd) as [[]|] eqn:E; auto; by eapply wf_reposition.
  - (* Write *) destruct (write_handle fd b s) eqn:E; auto. by eapply wf_write_handle.
  - (* Close *) by apply wf_close.
  - (* HardLink *) pose proof (Hl false a) as Ha. specialize (Hl false b).
    destruct (lookup_path s false a) as [q []| |]; auto;
      destruct (lookup_path s false b) as [| |]; cbn [snd]; auto;
      apply wf_insert_entry; auto; try (by naive_solver); intros; simplify_eq; by eapply wf_names.
  - (* OpenExisting *) specialize (Hl true p).
    destruct (lookup_path s true p) as [q []| |]; auto. by eapply wf_open_found.
  - (* ReadToEnd *) destruct (fs_fds s !! fd) as [[]|] eqn:E; auto; by eapply wf_reposition.
Qed.

Lemma fault_exec_wf {T} (f : Fault) (e : Sys T) s : wf_fs s → wf_fs (fault_exec f e s).2.
Proof.
  intros Hw. destruct e; cbn; auto.
  - destruct (write_handle _ _ _) eqn:E; cbn; auto. by eapply wf_write_handle.
  - by apply wf_close.
Qed.

#[export] Hint Resolve exec_wf fault_exec_wf : reo.

(** ** Lemmas: resolution of canonical paths *)


Lemma is_dir_prefix t q q' : wf_tree t → is_dir t (q ++ q') → is_dir t q.
Proof.
  intros Hw. induction q' as [|n q' IH] using rev_ind; [by rewrite app_nil_r|].
  rewrite app_assoc. intros [H|H]; [by destruct (q ++ q')|].
  apply Hw in H as (d & m & [<- <-]%app_inj_tail & _ & Hd). auto.
Qed.

Lemma is_dir_valid t q : wf_tree t → is_dir t q → Forall valid_name q.
Proof.
  intros Hw. induction q as [|n q IH] using rev_ind; [constructor|].
  intros [H|H]; [by destruct q|].
  apply Hw in H as (d & m & [<- <-]%app_inj_tail & Hm & Hd).
  apply Forall_app. auto.
Qed.

Lemma entry_valid t q e : wf_tree t → t !! q = Some e → Forall valid_name q.
Proof.
  intros Hw H. apply Hw in H as (d & n & -> & Hn & Hd).
  apply Forall_app. eauto using is_dir_valid.
Qed.

(** Through real directories resolution just descends. *)
Lemma walk_dirs t follow links cur q r :
  wf_tree t → is_dir t (cur ++ q) →
  walk links t follow cur (lexical q ++ r) = walk links t follow (cur ++ q) r.
Proof.
  intros Hw. revert cur. induction q as [|n q IH]; intros cur H; cbn.
  { by rewrite app_nil_r. }
  rewrite (cons_middle n), app_assoc in H.
  rewrite walk_unfold. destruct (is_dir_prefix _ _ _ Hw H) as [Hn|Hn]; [by destruct cur|].
  rewrite Hn, IH by done. by rewrite <- app_assoc.
Qed.

Lemma render_nonempty q : Forall valid_name q → render q ≠ "".
Proof. intros Hq H. apply components_render in Hq. rewrite H in Hq. done. Qed.

(** The lookup of an absolute path below real directories. *)
Lemma lookup_below s follow p q r :
  wf_fs s → is_dir (fs_tree s) q → components p = RootDir :: lexical q ++ r →
  lookup_path s follow p = walk MAXSYMLINKS (fs_tree s) follow q r.
Proof.
  intros Hw Hd Hp. unfold lookup_path. rewrite decide_False by (by intros ->).
  rewrite Hp, walk_unfold. apply (walk_dirs _ _ _ [] q); [apply Hw|done].
Qed.

Lemma lookup_dir s follow p q :
  wf_fs s → is_dir (fs_tree s) q → components p = RootDir :: lexical q →
  lookup_path s follow p = WFound q EDir.
Proof.
  intros Hw Hd Hp. rewrite (lookup_below _ _ _ q []); [by rewrite walk_unfold|done..|].
  by rewrite app_nil_r.
Qed.

(** One name below a real directory. *)
Lemma lookup_name s p q n :
  wf_fs s → is_dir (fs_tree s) q → components p = RootDir :: lexical (q ++ [n]) →
  no_symlinks (fs_tree s) ∨ fs_tree s !! (q ++ [n]) = None →
  ∀ follow, lookup_path s follow p =
    match fs_tree s !! (q ++ [n]) with
    | None => WMissing q n
    | Some e => WFound (q ++ [n]) e
    end.
Proof.
  intros Hw Hd Hp Hl follow. rewrite (lookup_below _ _ _ q [Normal n]); [|done|done|].
  - rewrite walk_unfold. destruct (fs_tree s !! (q ++ [n])) as [[]|] eqn:E; try done.
    destruct Hl as [Hl|]; [|done]. by destruct (Hl _ _ E).
  - unfold lexical in *. by rewrite Hp, fmap_app.
Qed.

(** What a lookup finds, its canonical path finds again. *)
Lemma lookup_canonical s follow p q e :
  wf_fs s → lookup_path s true p = WFound q e →
  lookup_path s follow (render q) = WFound q e.
Proof.
  intros Hw H. pose proof (lookup_path_wf s true p Hw) as Hx. rewrite H in Hx.
  destruct e as [i| |target].
  - pose proof (entry_valid _ _ _ (wf_is_tree _ Hw) Hx) as Hv.
    apply (wf_is_tree _ Hw) in Hx as Hy. destruct Hy as (d & n & -> & Hn & Hd).
    rewrite (lookup_below _ _ _ d [Normal n]); [|done|done|].
    + by rewrite walk_unfold, Hx.
    + rewrite components_render by done. unfold lexical. by rewrite fmap_app.
  - pose proof (is_dir_valid _ _ (wf_is_tree _ Hw) Hx) as Hv.
    apply lookup_dir; [done|done|by apply components_render].
  - exfalso. unfold lookup_path in H. case_decide; [done|]. revert H. clear.
    generalize (components p). intros cs.
    pattern (fs_cwd s), cs, (walk MAXSYMLINKS (fs_tree s) true (fs_cwd s) cs).
    by apply walk_ind.
Qed.

(** More links allowed never changes an answer other than ELOOP. *)
Lemma walk_more_links t follow links links' cur todo :
  links ≤ links' → walk links t follow cur todo ≠ WErr Io.FilesystemLoop →
  walk links' t follow cur todo = walk links t follow cur todo.
Proof.
  revert links' cur todo. induction links as [|links IHl]; intros links' cur todo Hle;
    revert cur; induction todo as [|c r IH]; intros cur;
    rewrite (walk_unfold links'), (walk_unfold _ t follow cur); [done| |done|];
    destruct c; auto; destruct (t !! (cur ++ [s])) as [[]|] eqn:E; auto.
  - destruct r, follow; try done.
  - destruct links' as [|links']; [lia|].
    destruct r, follow; try done; intros Hx; apply IHl; auto; lia.
Qed.

(** Resolving the front of a path first. *)
Lemma walk_app t links cur cs1 cs2 q :
  walk links t true cur cs1 = WFound q EDir →
  ∃ links', links' ≤ links ∧ walk links t true cur (cs1 ++ cs2) = walk links' t true q cs2.
Proof.
  revert q cur cs1. induction links as [|links IHl]; intros q cur cs1; revert q cur;
    induction cs1 as [|c r IH]; intros q cur; rewrite walk_unfold.
  1,3: intros [= ->]; eauto.
  - cbn [app]. rewrite (walk_unfold _ _ _ _ (c :: _)). destruct c; auto.
    destruct (t !! (cur ++ [s])) as [[]|]; auto; by destruct r.
  - cbn [app]. rewrite (walk_unfold _ _ _ _ (c :: _)). destruct c; auto.
    destruct (t !! (cur ++ [s])) as [[|  |target]|]; auto; [by destruct r| |by destruct r].
    intros H. assert (walk links t true cur (components target ++ r) = WFound q EDir) as H'
      by (by destruct r).
    apply IHl in H' as (l & Hl & H'). exists l. split; [lia|].
    rewrite <- H', <- app_assoc. by destruct (r ++ cs2).
Qed.

(** Equal paths, in the sense of [path_eq], name the same thing. *)
Lemma lookup_path_eq s follow p q :
  p ≠ "" → q ≠ "" → path_eq p q → lookup_path s follow p = lookup_path s follow q.
Proof. intros Hp Hq H. unfold lookup_path. by rewrite !decide_False, H by done. Qed.

Lemma lookup_found_nonempty s follow p q e : lookup_path s follow p = WFound q e → p ≠ "".
Proof. by intros H ->. Qed.
