(* ===== verification/Prog.v ===== *)
(** Programs over the file system operations, and their executions.

    A handler of the source is a [prog]: a tree of operations, each followed by
    a continuation for every answer, so its error paths are part of it.  [run]
    executes one program alone, consuming a plan that says which operations
    fail for outside reasons; it is executable.  [pool_step] interleaves the
    operations of any number of programs, as the server's concurrent sessions
    do: every operation is one step, any of them may fail, the clock advances
    and new programs arrive between any two of them.  [pool_step_if] is the same
    with the failures of given threads only. *)
From stdpp Require Import relations.
From S2P Require Import Prelude StdPath StdFs.

(** ** Programs *)

Inductive prog (A : Type) : Type :=
| Ret (a : A)
| Vis {T} (e : Sys T) (k : io T → prog A).
Arguments Ret {A} _.
Arguments Vis {A T} _ _.

Fixpoint bind {A B} (p : prog A) (f : A → prog B) : prog B :=
  match p with
  | Ret a => f a
  | Vis e k => Vis e (λ r, bind (k r) f)
  end.

(** One operation, answering its result. *)
Definition ask {T} (e : Sys T) : prog (io T) := Vis e Ret.

Notation "'let!' x := p 'in' k" := (bind p (λ x, k))
  (at level 10, x pattern, p at level 100, k at level 200) : reo_scope.
(** The [?] operator: an error ends the program with that error. *)
Notation "'try!' x := p 'in' k" :=
  (bind p (λ r, match r with Ok x => k | Err e => Ret (Err e) end))
  (at level 10, x pattern, p at level 100, k at level 200) : reo_scope.

(** ** Running one program *)

Record World : Type := mkWorld { w_fs : Fs; w_plan : list (option Fault) }.

Definition perform {T} (e : Sys T) (w : World) : io T * World :=
  match w_plan w with
  | [] => ((exec e (w_fs w)).1, mkWorld (exec e (w_fs w)).2 [])
  | None :: pl => ((exec e (w_fs w)).1, mkWorld (exec e (w_fs w)).2 pl)
  | Some f :: pl => ((fault_exec f e (w_fs w)).1, mkWorld (fault_exec f e (w_fs w)).2 pl)
  end.

Fixpoint run {A} (p : prog A) (w : World) : A * World :=
  match p with
  | Ret a => (a, w)
  | Vis e k => run (k (perform e w).1) (perform e w).2
  end.

(** A run in which nothing fails for outside reasons. *)
Definition run_ok {A} (p : prog A) (s : Fs) : A * Fs :=
  ((run p (mkWorld s [])).1, w_fs (run p (mkWorld s [])).2).

#[global] Arguments run_ok : simpl never.
#[global] Arguments perform : simpl never.

(** ** Interleaved executions *)

Inductive ev_step {T} (e : Sys T) (s : Fs) : io T → Fs → Prop :=
| ev_ok : ev_step e s (exec e s).1 (exec e s).2
| ev_fault f : ev_step e s (fault_exec f e s).1 (fault_exec f e s).2.

Section pool.
Context {A : Type} (arrives : prog A → Prop).

Inductive pool_step : Fs * list (prog A) → Fs * list (prog A) → Prop :=
| step_thread i T (e : Sys T) k s ps r s' :
    ps !! i = Some (Vis e k) → ev_step e s r s' →
    pool_step (s, ps) (s', <[i := k r]> ps)
| step_arrive p s ps :
    arrives p → pool_step (s, ps) (s, ps ++ [p])
| step_clock t s ps :
    (fs_now s ≤ t)%Z → pool_step (s, ps) (set_now t s, ps).

Definition pool_steps := rtc pool_step.
End pool.

(** *** Who may fail *)

(** An operation that does as [exec] says, or else fails for outside reasons. *)
Inductive own_step (may_fail : Prop) {T} (e : Sys T) (s : Fs) : io T → Fs → Prop :=
| own_does : own_step may_fail e s (exec e s).1 (exec e s).2
| own_fails f : may_fail → own_step may_fail e s (fault_exec f e s).1 (fault_exec f e s).2.

(** Interleavings in which only operations of the threads [fails] fail. *)
Section pool_if.
Context {A : Type} (arrives : prog A → Prop) (fails : nat → Prop).

Inductive pool_step_if : Fs * list (prog A) → Fs * list (prog A) → Prop :=
| if_thread i T (e : Sys T) k s ps r s' :
    ps !! i = Some (Vis e k) → own_step (fails i) e s r s' →
    pool_step_if (s, ps) (s', <[i := k r]> ps)
| if_arrive p s ps : arrives p → pool_step_if (s, ps) (s, ps ++ [p])
| if_clock t s ps : (fs_now s ≤ t)%Z → pool_step_if (s, ps) (set_now t s, ps).

Definition pool_steps_if := rtc pool_step_if.

End pool_if.

(** An executable schedule: thread [i] performs its next operation, without
    outside failures, for each [i] of the list. *)
Fixpoint sched {A} (js : list nat) (s : Fs) (ps : list (prog A)) : Fs * list (prog A) :=
  match js with
  | [] => (s, ps)
  | j :: js' =>
      match ps !! j with
      | Some (Vis e k) => sched js' (exec e s).2 (<[j := k (exec e s).1]> ps)
      | _ => sched js' s ps
      end
  end.

(** Every operation the program can perform, whatever the answers, is in [P]. *)
Fixpoint all_ops {A} (P : ∀ T, Sys T → Prop) (p : prog A) : Prop :=
  match p with
  | Ret _ => True
  | Vis e k => P _ e ∧ ∀ r, all_ops P (k r)
  end.

(** *** Programs under an invariant

    [ensures p Q]: while every state the program meets satisfies [J], whatever
    others do between its operations, it performs operations of [P] only, and if it
    ends, its answer satisfies [Q]. *)
Section ensures.
Context (J : Fs → Prop) (P : ∀ T, Sys T → Prop).

Fixpoint ensures {A} (p : prog A) (Q : A → Prop) : Prop :=
  match p with
  | Ret a => Q a
  | Vis e k => P _ e ∧ ∀ s r s', J s → ev_step e s r s' → ensures (k r) Q
  end.
End ensures.

(** ** Composite operations of the standard library *)

(** [Path::is_dir]. *)
Definition path_is_dir (p : string) : prog bool :=
  let! r := ask (Stat p) in
  Ret (match r with Ok m => bool_decide (m_type m = IsDir) | Err _ => false end).

(** [fs::create_dir_all]: creates the path, recursing to its parent when that
    is missing; an existing directory on the way is fine.  The path is given by
    its components, innermost first. *)
Fixpoint create_dir_all_rev (rc : list Component) : prog (io unit) :=
  match rc with
  | [] | [RootDir] => Ret (Ok tt)
  | _ :: rc' =>
      let here := of_components (rev rc) in
      let! r := ask (Mkdir here) in
      match r with
      | Ok _ => Ret (Ok tt)
      | Err Io.NotFound =>
          try! _ := create_dir_all_rev rc' in
          let! r2 := ask (Mkdir here) in
          match r2 with
          | Ok _ => Ret (Ok tt)
          | Err Io.AlreadyExists =>
              let! d := path_is_dir here in
              Ret (if d then Ok tt else Err Io.AlreadyExists)
          | Err k => Ret (Err k)
          end
      | Err Io.AlreadyExists =>
          let! d := path_is_dir here in
          Ret (if d then Ok tt else Err Io.AlreadyExists)
      | Err k => Ret (Err k)
      end
  end.

Definition create_dir_all (p : string) : prog (io unit) :=
  create_dir_all_rev (rev (components p)).

(** Operations on open files. *)
Definition on_fd (T : Type) (e : Sys T) : Prop :=
  match e with
  | Seek _ _ | Write _ _ | Flush _ | Close _ | ReadToEnd _ => True
  | _ => False
  end.

(** A byte stream being read to its end: the chunks the reads return, and
    whether the last read reports the end of the stream or an error. *)
Record Input : Type := mkInput { in_chunks : list bytes; in_end : option Io.ErrorKind }.

Definition input_of (b : bytes) : Input := mkInput [b] None.

(** [io::copy] into an open file: every chunk read is written before the next
    read; answers the number of bytes copied. *)
Fixpoint copy_chunks (fd : nat) (chunks : list bytes) (fin : option Io.ErrorKind) (total : Z)
    : prog (io Z) :=
  match chunks with
  | [] => Ret (match fin with None => Ok total | Some e => Err e end)
  | c :: rest =>
      try! _ := ask (Write fd c) in
      copy_chunks fd rest fin (total + Z.of_nat (length c))
  end.

Definition copy (input : Input) (fd : nat) : prog (io Z) :=
  copy_chunks fd (in_chunks input) (in_end input) 0.

(** ** Lemmas *)

Lemma run_bind {A B} (p : prog A) (f : A → prog B) w :
  run (bind p f) w = run (f (run p w).1) (run p w).2.
Proof. revert w. induction p as [a|T e k IH]; intros w; cbn; auto. Qed.

Lemma all_ops_bind {A B} P (p : prog A) (f : A → prog B) :
  all_ops P p → (∀ a, all_ops P (f a)) → all_ops P (bind p f).
Proof.
  induction p as [a|T e k IH]; cbn; auto. intros [He Hk] Hf. auto.
Qed.

Lemma all_ops_ask {T} P (e : Sys T) : P T e → all_ops P (ask e).
Proof. by repeat split. Qed.

Lemma all_ops_mono {A} (P Q : ∀ T, Sys T → Prop) (p : prog A) :
  (∀ T e, P T e → Q T e) → all_ops P p → all_ops Q p.
Proof. intros H. induction p; cbn; naive_solver. Qed.

(** Walk through a program, one operation at a time: each must be allowed, by
    computation, by a hypothesis or by a lemma of the hint database. *)
Ltac head_of p := lazymatch p with ?f _ => head_of f | _ => p end.
Ltac op_done := first [exact I | assumption | solve [auto with reo] | solve [cbn; auto with reo]].
Ltac ops :=
  first
    [ op_done
    | lazymatch goal with
      | |- all_ops _ (bind _ _) => apply all_ops_bind; [ops | intros ?; ops]
      | |- all_ops _ (ask _) => apply all_ops_ask; try op_done
      | |- all_ops _ (Ret _) => exact I
      | |- all_ops _ (match ?x with _ => _ end) => destruct x; ops
      | |- all_ops _ ?p => let h := head_of p in unfold h; ops
      end
    | idtac ].

Lemma copy_on_fd input fd : all_ops on_fd (copy input fd).
Proof. unfold copy. generalize 0%Z. induction (in_chunks input) as [|c l IH]; intros t; cbn [copy_chunks]; ops. Qed.

(** [create_dir_all] performs [Mkdir] and [Stat] only. *)
Lemma create_dir_all_ops (P : ∀ T : Type, Sys T → Prop) rc :
  (∀ p, P _ (Mkdir p)) → (∀ p, P _ (Stat p)) → all_ops P (create_dir_all_rev rc).
Proof.
  intros Hm Hs. assert (∀ p, all_ops P (path_is_dir p)) as Hd by (intros; unfold path_is_dir; ops).
  induction rc as [|c rc IH]; [done|]. cbn [create_dir_all_rev]. destruct c, rc; ops.
Qed.

Lemma perform_step {T} (e : Sys T) w : ev_step e (w_fs w) (perform e w).1 (w_fs (perform e w).2).
Proof.
  unfold perform. destruct (w_plan w) as [|[f|] pl]; cbn; constructor.
Qed.

(** An invariant kept by every allowed operation holds after any run. *)
Lemma run_invariant {A} (I : Fs → Prop) (P : ∀ T, Sys T → Prop) (p : prog A) w :
  (∀ T (e : Sys T) s r s', P T e → ev_step e s r s' → I s → I s') →
  all_ops P p → I (w_fs w) → I (w_fs (run p w).2).
Proof.
  intros HI. revert w. induction p as [a|T e k IH]; intros w; cbn; [done|].
  intros [He Hk] Hw. apply IH; [done|].
  eapply HI; [done|apply perform_step|done].
Qed.

(** The same for interleavings, by induction on the step sequence. *)
Lemma pool_invariant {A} (arrives : prog A → Prop) (I : Fs → Prop)
    (P : ∀ T, Sys T → Prop) s ps s' ps' :
  (∀ T (e : Sys T) s r s', P T e → ev_step e s r s' → I s → I s') →
  (∀ t s, I s → I (set_now t s)) →
  (∀ p, arrives p → all_ops P p) →
  pool_steps arrives (s, ps) (s', ps') →
  Forall (all_ops P) ps → I s → I s' ∧ Forall (all_ops P) ps'.
Proof.
  intros HI Ht Ha Hs Hps Hi.
  remember (s, ps) as c eqn:Hc. remember (s', ps') as c' eqn:Hc'.
  revert s ps Hc Hps Hi. induction Hs as [c|c c1 c2 H1 _ IH]; intros s ps -> Hps Hi.
  { by simplify_eq. }
  inversion H1; subst.
  - pose proof Hps as Hv. eapply Forall_lookup_1 in Hv; [|done]. destruct Hv as [He Hk].
    eapply IH; [done|done| |by eapply HI]. apply Forall_insert; auto.
  - eapply IH; [done|done| |done]. apply Forall_app; auto.
  - eapply IH; eauto.
Qed.

(** *** Laws of [ensures] *)
Section ensures_laws.
Context (J : Fs → Prop) (P : ∀ T, Sys T → Prop).

Lemma ensures_mono {A} (p : prog A) (Q Q' : A → Prop) :
  (∀ a, Q a → Q' a) → ensures J P p Q → ensures J P p Q'.
Proof. intros HQ. induction p; cbn; naive_solver. Qed.

Lemma ensures_under {A} (J' : Fs → Prop) (p : prog A) Q :
  (∀ s, J s → J' s) → ensures J' P p Q → ensures J P p Q.
Proof. intros HJ. induction p; cbn; naive_solver. Qed.

Lemma ensures_ops_mono {A} (P' : ∀ T, Sys T → Prop) (p : prog A) Q :
  (∀ T e, P T e → P' T e) → ensures J P p Q → ensures J P' p Q.
Proof. intros HP. induction p; cbn; naive_solver. Qed.

Lemma ensures_bind {A B} (p : prog A) (f : A → prog B) Q Q' :
  ensures J P p Q → (∀ a, Q a → ensures J P (f a) Q') → ensures J P (bind p f) Q'.
Proof.
  intros Hp Hf. induction p as [a|T e k IH]; cbn in *; [auto|].
  destruct Hp as [He Hk]. split; [done|]. eauto.
Qed.

Lemma ensures_ops {A} (p : prog A) : all_ops P p → ensures J P p (λ _, True).
Proof. induction p; cbn; naive_solver. Qed.

Lemma ensures_with {A} (P' : ∀ T, Sys T → Prop) (p : prog A) Q :
  all_ops P' p → ensures J P p Q → ensures J P' p Q.
Proof. induction p; cbn; [done|]. intros [He Hk] [_ Hq]. split; eauto. Qed.

(** A program run from a state of the invariant keeps its promise. *)
Lemma ensures_run {A} (p : prog A) Q w :
  (∀ T (e : Sys T) s r s', P T e → ev_step e s r s' → J s → J s') →
  ensures J P p Q → J (w_fs w) → J (w_fs (run p w).2) ∧ Q (run p w).1.
Proof.
  intros HJ. revert w. induction p as [a|T e k IH]; intros w; cbn; [done|].
  intros [He Hk] Hj. pose proof (perform_step e w) as Hs. apply IH; eauto.
Qed.

(** Interleavings keep an invariant that every allowed operation keeps. *)
Lemma ensures_pool {A} (arrives : prog A → Prop) Q s ps s' ps' :
  (∀ T (e : Sys T) s r s', P T e → ev_step e s r s' → J s → J s') →
  (∀ t s, J s → J (set_now t s)) →
  (∀ p, arrives p → ensures J P p Q) →
  pool_steps arrives (s, ps) (s', ps') →
  Forall (λ p, ensures J P p Q) ps → J s → J s' ∧ Forall (λ p, ensures J P p Q) ps'.
Proof.
  intros HJ Ht Ha Hs Hps Hj.
  remember (s, ps) as c eqn:Hc. remember (s', ps') as c' eqn:Hc'.
  revert s ps Hc Hps Hj. induction Hs as [c|c c1 c2 H1 _ IH]; intros s ps -> Hps Hj.
  { by simplify_eq. }
  inversion H1; subst.
  - pose proof Hps as Hv. eapply Forall_lookup_1 in Hv; [|done]. destruct Hv as [He Hk].
    eapply IH; [done|done| |by eapply HJ]. apply Forall_insert; eauto.
  - eapply IH; [done|done| |done]. apply Forall_app; auto.
  - eapply IH; eauto.
Qed.
End ensures_laws.

Lemma own_ev may_fail {T} (e : Sys T) s r s' : own_step may_fail e s r s' → ev_step e s r s'.
Proof. intros []; constructor. Qed.

Section pool_if.
Context {A : Type} (arrives : prog A → Prop) (fails : nat → Prop).

Lemma pool_if_steps c c' : pool_steps_if arrives fails c c' → pool_steps arrives c c'.
Proof.
  apply rtc_congruence with (f := id). intros c1 c2 [i T e k s ps r s' Hi He| |].
  - eapply step_thread; [exact Hi|by eapply own_ev].
  - by constructor.
  - by constructor.
Qed.

Lemma sched_steps_if js s ps : pool_steps_if arrives fails (s, ps) (sched js s ps).
Proof.
  revert s ps. induction js as [|j js IH]; intros s ps; cbn; [apply rtc_refl|].
  destruct (ps !! j) as [[a|T e k]|] eqn:E; auto.
  eapply rtc_l; [|apply IH]. eapply if_thread; [done|constructor].
Qed.

(** Programs that arrive and are then scheduled. *)
Lemma arrive_sched_if js new s ps :
  Forall arrives new →
  pool_steps_if arrives fails (s, ps) ((sched js s (ps ++ new)).1, (sched js s (ps ++ new)).2).
Proof.
  intros Hn. rewrite <- surjective_pairing. revert ps. induction Hn as [|p new Hp Hn IH]; intros ps.
  - rewrite app_nil_r. apply sched_steps_if.
  - eapply rtc_l; [by apply (if_arrive arrives fails p)|]. specialize (IH (ps ++ [p])).
    by rewrite <- app_assoc in IH.
Qed.

(** A thread can be run to its end by itself. *)
Lemma thread_ends n s ps p :
  ps !! n = Some p → ∃ j a s', sched (replicate j n) s ps = (s', <[n := Ret a]> ps) ∧
    pool_steps_if arrives fails (s, ps) (s', <[n := Ret a]> ps).
Proof.
  revert s ps. induction p as [a|T e k IH]; intros s ps Hp.
  - exists 0, a, s. cbn. rewrite list_insert_id by done. split; [done|apply rtc_refl].
  - destruct (IH (exec e s).1 (exec e s).2 (<[n := k (exec e s).1]> ps)) as (j & a & s' & Hj & Hs).
    { rewrite list_lookup_insert_eq; [done|by eapply lookup_lt_Some]. }
    rewrite list_insert_insert_eq in Hj, Hs. exists (S j), a, s'. cbn. rewrite Hp. split; [done|].
    eapply rtc_l; [|exact Hs]. by apply (if_thread arrives fails n T e k), own_does.
Qed.
End pool_if.

(** A program run alone is one of the interleavings. *)
Lemma run_steps {A} (arrives : prog A → Prop) (p : prog A) w :
  pool_steps arrives (w_fs w, [p]) (w_fs (run p w).2, [Ret (run p w).1]).
Proof.
  revert w. induction p as [a|T e k IH]; intros w; cbn; [apply rtc_refl|].
  eapply rtc_l; [|apply IH].
  by apply (step_thread arrives 0 T e k _ [Vis e k]), perform_step.
Qed.

(** A program that arrives and runs alone, undisturbed. *)
Lemma run_ok_steps {A} (arrives : prog A → Prop) (p : prog A) s :
  arrives p → pool_steps arrives (s, []) ((run_ok p s).2, [Ret (run_ok p s).1]).
Proof.
  intros Hp. eapply rtc_l; [by apply (step_arrive arrives p)|].
  apply (run_steps arrives p (mkWorld s [])).
Qed.

Lemma arrive_sched {A} (arrives : prog A → Prop) js new s ps :
  Forall arrives new →
  pool_steps arrives (s, ps) ((sched js s (ps ++ new)).1, (sched js s (ps ++ new)).2).
Proof. intros Hn. by eapply pool_if_steps, (arrive_sched_if arrives (λ _, False)). Qed.

(** Runs without outside failures. *)
Lemma perform_ok {T} (e : Sys T) s :
  perform e (mkWorld s []) = ((exec e s).1, mkWorld (exec e s).2 []).
Proof. done. Qed.

Lemma run_plan_nil {A} (p : prog A) s : w_plan (run p (mkWorld s [])).2 = [].
Proof.
  revert s. induction p as [a|T e k IH]; intros s; cbn; [done|apply IH].
Qed.

Lemma run_ok_ret {A} (a : A) s : run_ok (Ret a) s = (a, s).
Proof. done. Qed.

Lemma run_ok_vis {A T} (e : Sys T) (k : io T → prog A) s :
  run_ok (Vis e k) s = run_ok (k (exec e s).1) (exec e s).2.
Proof. done. Qed.

Lemma run_ok_bind {A B} (p : prog A) (f : A → prog B) s :
  run_ok (bind p f) s = run_ok (f (run_ok p s).1) (run_ok p s).2.
Proof.
  unfold run_ok. rewrite run_bind. pose proof (run_plan_nil p s) as H.
  destruct (run p (mkWorld s [])) as [a [s' pl]]; cbn in *. by subst.
Qed.

Lemma run_ok_ask {T} (e : Sys T) s : run_ok (ask e) s = exec e s.
Proof. unfold run_ok. cbn. unfold perform. cbn. by destruct (exec e s). Qed.

#[export] Hint Rewrite @run_ok_bind @run_ok_ask @run_ok_ret @run_bind : reo.
#[export] Hint Resolve copy_on_fd : reo.
