(* ===== verification/FsView.v ===== *)
(** Plain file systems: well formed and free of symbolic links.

    What the operations of [StdFs] do to canonical paths of such a file system,
    the contents of the files by path ([file_at]), and the specification of
    [create_dir_all]. *)
From S2P Require Import Prelude StdPath StdFs Prog.

Record plain_fs (s : Fs) : Prop := {
  pf_wf : wf_fs s;
  pf_links : no_symlinks (fs_tree s)
}.

(** The content of the regular file with the given canonical name. *)
Definition file_at (s : Fs) (q : list string) : option bytes :=
  match fs_tree s !! q with Some (EFile i) => Some (content s i) | _ => None end.

(** No other name, and no open file, refers to the inode. *)
Definition sole_name (s : Fs) (q : list string) (i : nat) : Prop :=
  ∀ q', fs_tree s !! q' = Some (EFile i) → q' = q.

(** Directories made on the way to [q]; nothing else differs. *)
Record dirs_made (q : list string) (s s' : Fs) : Prop := {
  dm_plain : plain_fs s';
  dm_inodes : fs_inodes s' = fs_inodes s;
  dm_fds : fs_fds s' = fs_fds s;
  dm_next_ino : fs_next_ino s' = fs_next_ino s;
  dm_next_fd : fs_next_fd s' = fs_next_fd s;
  dm_cwd : fs_cwd s' = fs_cwd s;
  dm_now : fs_now s' = fs_now s;
  dm_tree q' : fs_tree s' !! q' = fs_tree s !! q' ∨
    (fs_tree s !! q' = None ∧ fs_tree s' !! q' = Some EDir ∧ q' `prefix_of` q)
}.

(** ** Lemmas *)

Section plain.
Context (s : Fs) (Hp : plain_fs s).

Lemma plain_dir_valid q : is_dir (fs_tree s) q → Forall valid_name q.
Proof. apply is_dir_valid, Hp. Qed.

Lemma lookup_at q n follow :
  is_dir (fs_tree s) q → valid_name n →
  lookup_path s follow (render (q ++ [n])) =
    match fs_tree s !! (q ++ [n]) with
    | None => WMissing q n
    | Some e => WFound (q ++ [n]) e
    end.
Proof.
  intros Hd Hn. apply lookup_name; [apply Hp|done| |left; apply Hp].
  apply components_render, Forall_app. auto using plain_dir_valid.
Qed.

Lemma lookup_dir_at q follow :
  is_dir (fs_tree s) q → lookup_path s follow (render q) = WFound q EDir.
Proof.
  intros Hd. apply lookup_dir; [apply Hp|done|]. by apply components_render, plain_dir_valid.
Qed.

Lemma dir_child_missing q n : ¬ is_dir (fs_tree s) q → fs_tree s !! (q ++ [n]) = None.
Proof.
  intros Hd. destruct (_ !! _) eqn:E; [|done].
  apply Hp in E as (d & m & [<- <-]%app_inj_tail & _ & H). done.
Qed.

(** Below a missing directory the lookup answers [NotFound]. *)
Lemma walk_missing_dir links follow q ns n :
  is_dir (fs_tree s) q → ¬ is_dir (fs_tree s) (q ++ ns) →
  (∀ q' i, q' `prefix_of` q ++ ns → fs_tree s !! q' ≠ Some (EFile i)) →
  walk links (fs_tree s) follow q (lexical (ns ++ [n])) = WErr Io.NotFound.
Proof.
  revert q. induction ns as [|m ns IH]; intros q Hd Hnd Hf; [by rewrite app_nil_r in Hnd|].
  cbn. rewrite walk_unfold. rewrite (cons_middle m), app_assoc in Hnd, Hf.
  destruct (fs_tree s !! (q ++ [m])) as [[i| |l]|] eqn:E.
  - destruct (Hf (q ++ [m]) i); [by apply prefix_app_r|done].
  - apply IH; [by right|done..].
  - by destruct (pf_links _ Hp _ _ E).
  - by destruct ns.
Qed.

Lemma lookup_missing_dir follow q n :
  Forall valid_name q → valid_name n → ¬ is_dir (fs_tree s) q →
  (∀ q' i, q' `prefix_of` q → fs_tree s !! q' ≠ Some (EFile i)) →
  lookup_path s follow (render (q ++ [n])) = WErr Io.NotFound.
Proof.
  intros Hq Hn Hnd Hf. assert (Forall valid_name (q ++ [n])) as Hv by (apply Forall_app; auto).
  unfold lookup_path. rewrite decide_False by (by apply render_ne).
  rewrite components_render, walk_unfold by done.
  apply (walk_missing_dir _ _ [] q n); [by left|done..].
Qed.
End plain.

(** Everything above an entry is a directory. *)
Lemma is_dir_above s p x r e :
  plain_fs s → fs_tree s !! (p ++ x :: r) = Some e → is_dir (fs_tree s) p.
Proof.
  intros Hp He. destruct (wft_parent _ (wf_is_tree _ (pf_wf _ Hp)) _ _ He) as (d & m & Heq & _ & Hd).
  destruct (exists_last (l := x :: r)) as (r' & y & Hr); [done|]. rewrite Hr, app_assoc in Heq.
  apply app_inj_tail in Heq as [<- _]. by eapply is_dir_prefix; [apply Hp|].
Qed.

Lemma exec_links {T} (e : Sys T) s : no_symlinks (fs_tree s) → no_symlinks (fs_tree (exec e s).2).
Proof.
  intros Hn. assert (∀ q e0, (∀ t, e0 ≠ ELink t) → no_symlinks (<[q := e0]> (fs_tree s))) as Hi.
  { intros q e0 He q' t [[_ Ht]|[_ Ht]]%lookup_insert_Some; [by eapply He|by eapply Hn]. }
  assert (∀ q, no_symlinks (delete q (fs_tree s))) as Hd.
  { intros q q' t [_ Ht]%lookup_delete_Some. by eapply Hn. }
  assert (∀ p q e0, lookup_path s false p = WFound q e0 → ∀ t, e0 ≠ ELink t) as Hw.
  { intros p q e0 H t ->. unfold lookup_path in H. case_decide; [done|].
    apply walk_found in H as [?|H]; [done|by eapply Hn]. }
  destruct e; cbn [exec open_handle]; repeat case_match; cbn; auto; try (by apply Hi).
  all: try (by apply Hi; by eapply Hw).
  unfold write_handle in *. repeat case_match; by simplify_eq/=.
Qed.

Lemma fault_links {T} (f : Fault) (e : Sys T) s :
  no_symlinks (fs_tree s) → no_symlinks (fs_tree (fault_exec f e s).2).
Proof.
  intros Hn. destruct e; try done; cbn. unfold write_handle. by repeat case_match.
Qed.

Lemma exec_plain {T} (e : Sys T) s : plain_fs s → keeps_cwd e s → plain_fs (exec e s).2.
Proof. intros [Hw Hl] Hk. split; [by apply exec_wf|by apply exec_links]. Qed.

Lemma fault_plain {T} (f : Fault) (e : Sys T) s : plain_fs s → plain_fs (fault_exec f e s).2.
Proof. intros [Hw Hl]. split; [by apply fault_exec_wf|by apply fault_links]. Qed.

Lemma ev_step_plain {T} (e : Sys T) s r s' :
  keeps_cwd e s → ev_step e s r s' → plain_fs s → plain_fs s'.
Proof. intros Hk Hs Hp. inversion Hs; subst; [by apply exec_plain|by apply fault_plain]. Qed.

(** Programs that remove no directory keep the file system plain. *)
Definition removes_no_dir (T : Type) (e : Sys T) : Prop :=
  match e with RemoveDir _ => False | _ => True end.

Lemma run_plain {A} (p : prog A) s : all_ops removes_no_dir p → plain_fs s → plain_fs (run_ok p s).2.
Proof.
  intros Hp Hs. unfold run_ok. cbn [snd].
  apply (run_invariant plain_fs removes_no_dir p (mkWorld s [])); try done.
  intros T e s1 r s2 He. apply ev_step_plain. by destruct e.
Qed.

(** No operation changes the working directory. *)
Lemma ev_step_cwd {T} (e : Sys T) s r s' : ev_step e s r s' → fs_cwd s' = fs_cwd s.
Proof.
  intros Hs. inversion Hs; subst; clear Hs; destruct e; try done; cbn [exec fault_exec];
    unfold write_handle; repeat case_match; try done; simplify_eq/=; done.
Qed.

Lemma file_at_None s q : fs_tree s !! q = None → file_at s q = None.
Proof. unfold file_at. by intros ->. Qed.

Lemma parent_render q n :
  Forall valid_name (q ++ [n]) → parent (render (q ++ [n])) = Some (render q).
Proof.
  intros Hv. unfold parent. rewrite components_render by done.
  rewrite fmap_app, app_comm_cons. change (Normal <$> [n]) with [Normal n].
  by rewrite last_snoc, removelast_last.
Qed.

(** *** [create_dir_all] *)

Section create_dir.
Context (s : Fs) (Hp : plain_fs s).

Lemma dirs_made_refl q : dirs_made q s s.
Proof. by split; try done; left. Qed.

Lemma path_is_dir_at q : is_dir (fs_tree s) q → run_ok (path_is_dir (render q)) s = (true, s).
Proof.
  intros Hd. unfold path_is_dir. rewrite run_ok_bind, run_ok_ask. cbn [exec].
  by rewrite (lookup_dir_at s Hp) by done.
Qed.

Lemma dirs_made_mkdir q n :
  is_dir (fs_tree s) q → valid_name n → fs_tree s !! (q ++ [n]) = None →
  exec (Mkdir (render (q ++ [n]))) s =
    (Ok tt, touch_dir (q ++ [n]) (insert_entry q n EDir s)) ∧
  dirs_made (q ++ [n]) s (touch_dir (q ++ [n]) (insert_entry q n EDir s)).
Proof.
  intros Hd Hn He.
  assert (exec (Mkdir (render (q ++ [n]))) s =
    (Ok tt, touch_dir (q ++ [n]) (insert_entry q n EDir s))) as Hx.
  { cbn [exec]. by rewrite (lookup_at s Hp), He by done. }
  split; [done|]. split; try done.
  - pose proof (exec_plain (Mkdir (render (q ++ [n]))) s Hp I) as H. by rewrite Hx in H.
  - intros q'. cbn. destruct (decide (q' = q ++ [n])) as [->|]; simplify_map_eq; [|by left].
    right. done.
Qed.
End create_dir.

Lemma dirs_made_trans q n s s1 s2 :
  dirs_made q s s1 → dirs_made (q ++ [n]) s1 s2 → dirs_made (q ++ [n]) s s2.
Proof.
  intros [] []. split; try done; try congruence. intros q'.
  destruct (dm_tree1 q') as [H1|(H1 & H2 & H3)].
  - rewrite H1. destruct (dm_tree0 q') as [|(? & ? & ?)]; [by left|].
    right. repeat split; [done..|by apply prefix_app_r].
  - right. destruct (dm_tree0 q') as [<-|(? & ? & ?)]; [done|congruence].
Qed.

(** The part of [create_dir_all_rev] below the path's own [Mkdir]. *)
Lemma create_dir_all_rev_snoc q n :
  create_dir_all_rev (rev (RootDir :: lexical (q ++ [n]))) =
    let! r := ask (Mkdir (render (q ++ [n]))) in
    match r with
    | Ok _ => Ret (Ok tt)
    | Err Io.NotFound =>
        try! _ := create_dir_all_rev (rev (RootDir :: lexical q)) in
        let! r2 := ask (Mkdir (render (q ++ [n]))) in
        match r2 with
        | Ok _ => Ret (Ok tt)
        | Err Io.AlreadyExists =>
            let! d := path_is_dir (render (q ++ [n])) in
            Ret (if d then Ok tt else Err Io.AlreadyExists)
        | Err k => Ret (Err k)
        end
    | Err Io.AlreadyExists =>
        let! d := path_is_dir (render (q ++ [n])) in
        Ret (if d then Ok tt else Err Io.AlreadyExists)
    | Err k => Ret (Err k)
    end.
Proof.
  assert (rev (RootDir :: lexical (q ++ [n])) = Normal n :: rev (RootDir :: lexical q)) as Hr.
  { unfold lexical. by rewrite fmap_app, app_comm_cons, rev_app_distr. }
  assert (render (q ++ [n]) = of_components (rev (Normal n :: rev (RootDir :: lexical q)))) as ->.
  { by rewrite <- Hr, rev_involutive. }
  by rewrite Hr.
Qed.

(** Over a path without regular files [create_dir_all] succeeds; it makes the
    missing directories of the path and changes nothing else. *)
Lemma create_dir_all_ok q s :
  plain_fs s → Forall valid_name q →
  (∀ q' i, q' `prefix_of` q → fs_tree s !! q' ≠ Some (EFile i)) →
  ∃ s', run_ok (create_dir_all (render q)) s = (Ok tt, s') ∧
    is_dir (fs_tree s') q ∧ dirs_made q s s'.
Proof.
  intros Hp Hv Hf. unfold create_dir_all. rewrite components_render by done.
  change (Normal <$> q) with (lexical q).
  induction q as [|n q IH] using rev_ind.
  { exists s. split; [done|]. split; [by left|by apply dirs_made_refl]. }
  apply Forall_app in Hv as [Hv Hn]. inversion Hn as [|? ? Hvn _]; subst.
  rewrite create_dir_all_rev_snoc, run_ok_bind, run_ok_ask.
  destruct (decide (is_dir (fs_tree s) q)) as [Hd|Hnd].
  - destruct (fs_tree s !! (q ++ [n])) as [[i| |l]|] eqn:E.
    + by destruct (Hf (q ++ [n]) i).
    + exists s. cbn [exec]. rewrite (lookup_at s Hp), E by done. cbn [fst snd].
      rewrite run_ok_bind, path_is_dir_at by (done || by right).
      split; [done|]. split; [by right|by apply dirs_made_refl].
    + by destruct (pf_links _ Hp _ _ E).
    + destruct (dirs_made_mkdir s Hp q n) as [-> Hm]; [done..|].
      eexists. split; [done|]. split; [|done]. right. cbn. by simplify_map_eq.
  - cbn [exec]. rewrite (lookup_missing_dir s Hp) by
      (try done; intros q' i Hpre; apply Hf; by apply prefix_app_r).
    cbn [fst snd]. rewrite run_ok_bind.
    destruct IH as (s1 & Hr & Hd1 & Hm1); [done|intros q' i Hpre; apply Hf; by apply prefix_app_r|].
    rewrite Hr. cbn [fst snd]. rewrite run_ok_bind, run_ok_ask.
    assert (fs_tree s1 !! (q ++ [n]) = None) as He.
    { pose proof (dir_child_missing s Hp q n Hnd) as H0.
      destruct (dm_tree _ _ _ Hm1 (q ++ [n])) as [->|(_ & _ & Hx)]; [done|].
      exfalso. apply prefix_length in Hx. rewrite length_app in Hx. cbn in Hx. lia. }
    destruct (dirs_made_mkdir s1 (dm_plain _ _ _ Hm1) q n) as [-> Hm2]; [done..|].
    eexists. split; [done|]. split; [right; cbn; by simplify_map_eq|].
    by eapply dirs_made_trans.
Qed.

Lemma dirs_made_file_at q s s' q' : dirs_made q s s' → file_at s' q' = file_at s q'.
Proof.
  intros Hm. unfold file_at, content, inode_of. rewrite (dm_inodes _ _ _ Hm).
  by destruct (dm_tree _ _ _ Hm q') as [->|(-> & -> & _)].
Qed.

(** *** Looking up a path whose directory may still be missing *)

(** [q] can be a directory: no regular file is on the way. *)
Definition open_way (s : Fs) (q : list string) : Prop :=
  Forall valid_name q ∧ ∀ q' i, q' `prefix_of` q → fs_tree s !! q' ≠ Some (EFile i).

Lemma dir_open_way s q : plain_fs s → is_dir (fs_tree s) q → open_way s q.
Proof.
  intros Hp Hd. split; [by eapply plain_dir_valid|]. intros q' i [k ->] H.
  destruct (is_dir_prefix _ _ _ (wf_is_tree _ (pf_wf _ Hp)) Hd) as [->|H']; [|congruence].
  apply Hp in H as (d & m & H & _). by destruct d.
Qed.

Section open_way.
Context (s : Fs) (Hp : plain_fs s) (q : list string) (Hq : open_way s q).

Lemma lookup_way n follow :
  valid_name n →
  lookup_path s follow (render (q ++ [n])) =
    match fs_tree s !! (q ++ [n]) with
    | Some e => WFound (q ++ [n]) e
    | None => if bool_decide (is_dir (fs_tree s) q) then WMissing q n else WErr Io.NotFound
    end.
Proof.
  intros Hn. case_bool_decide as Hd; [by rewrite (lookup_at s Hp)|].
  rewrite (dir_child_missing s Hp) by done. apply lookup_missing_dir; try done; apply Hq.
Qed.

Lemma try_exists_way n :
  valid_name n →
  exec (TryExists (render (q ++ [n]))) s =
    (Ok (match fs_tree s !! (q ++ [n]) with Some _ => true | None => false end), s).
Proof.
  intros Hn. cbn [exec]. rewrite lookup_way by done.
  destruct (fs_tree s !! _); [done|]. by case_bool_decide.
Qed.

Lemma stat_way n :
  valid_name n →
  exec (Stat (render (q ++ [n]))) s =
    (match fs_tree s !! (q ++ [n]) with
     | Some e => Ok (metadata_of s (q ++ [n]) e)
     | None => Err Io.NotFound
     end, s).
Proof.
  intros Hn. cbn [exec]. rewrite lookup_way by done.
  destruct (fs_tree s !! _); [done|]. by case_bool_decide.
Qed.

Lemma remove_file_way n :
  valid_name n →
  exec (RemoveFile (render (q ++ [n]))) s =
    match fs_tree s !! (q ++ [n]) with
    | Some EDir => (Err Io.IsADirectory, s)
    | Some _ => (Ok tt, remove_entry (q ++ [n]) s)
    | None => (Err Io.NotFound, s)
    end.
Proof.
  intros Hn. cbn [exec]. rewrite lookup_way by done.
  destruct (fs_tree s !! _) as [[]|]; try done. by case_bool_decide.
Qed.
End open_way.

(** *** Writing at the end of an open file *)

Definition at_end (h : Handle) (i : nat) (s : Fs) : Prop :=
  h = HAppend i ∨ h = HWrite i (length (content s i)).

(** [b] was appended to inode [i] through the descriptor [fd]. *)
Record wrote (fd i : nat) (b : bytes) (s s' : Fs) : Prop := {
  wr_tree : fs_tree s' = fs_tree s;
  wr_content : content s' i = content s i ++ b;
  wr_others j : j ≠ i → content s' j = content s j;
  wr_fd : ∃ h, fs_fds s' !! fd = Some h ∧ at_end h i s';
  wr_fds fd' : fd' ≠ fd → fs_fds s' !! fd' = fs_fds s !! fd';
  wr_next_ino : fs_next_ino s' = fs_next_ino s;
  wr_next_fd : fs_next_fd s' = fs_next_fd s;
  wr_cwd : fs_cwd s' = fs_cwd s;
  wr_plain : plain_fs s → plain_fs s'
}.

Lemma wrote_nil fd i s h : fs_fds s !! fd = Some h → at_end h i s → wrote fd i [] s s.
Proof. intros. split; try done; [by rewrite app_nil_r|eauto]. Qed.

Lemma wrote_trans fd i b1 b2 s s1 s2 :
  wrote fd i b1 s s1 → wrote fd i b2 s1 s2 → wrote fd i (b1 ++ b2) s s2.
Proof.
  intros [] []. split; try congruence; auto.
  - rewrite wr_content1, wr_content0. by rewrite app_assoc.
  - intros j Hj. rewrite wr_others1, wr_others0; auto.
  - intros fd' Hfd. rewrite wr_fds1, wr_fds0; auto.
Qed.

Lemma overwrite_end b old : overwrite (length old) b old = old ++ b.
Proof.
  unfold overwrite. rewrite Nat.sub_diag, app_nil_r, firstn_all.
  rewrite drop_ge by lia. by rewrite app_nil_r.
Qed.

Lemma write_end fd i b s h :
  fs_fds s !! fd = Some h → at_end h i s →
  ∃ s', exec (Write fd b) s = (Ok tt, s') ∧ wrote fd i b s s'.
Proof.
  intros Hfd Hh. destruct (exec (Write fd b) s) as [r s'] eqn:E. exists s'.
  assert (plain_fs s → plain_fs s') as Hpl.
  { intros Hp. pose proof (exec_plain (Write fd b) s Hp I) as H. by rewrite E in H. }
  cbn [exec] in E. unfold write_handle in E. rewrite Hfd in E.
  destruct Hh as [->| ->]; rewrite ?overwrite_end in E; simplify_eq/=; (split; [done|]);
    split; try done; unfold content, inode_of in *; cbn; intros; simplify_map_eq; try done.
  - eexists. split; [done|by left].
  - eexists. split; [done|]. right. unfold content, inode_of. cbn. simplify_map_eq.
    by rewrite length_app.
Qed.

Lemma copy_spec fd i input s h :
  fs_fds s !! fd = Some h → at_end h i s →
  ∃ s', run_ok (copy input fd) s =
      (match in_end input with
       | None => Ok (Z.of_nat (length (concat (in_chunks input))))
       | Some k => Err k
       end, s') ∧ wrote fd i (concat (in_chunks input)) s s'.
Proof.
  destruct input as [chunks fin]. unfold copy. cbn [in_chunks in_end].
  rewrite <- (Z.add_0_l (Z.of_nat _)). generalize 0%Z. intros t Hfd Hh. revert t s h Hfd Hh.
  induction chunks as [|c chunks IH]; intros t s h Hfd Hh; cbn [copy_chunks concat].
  - exists s. split; [|by eapply wrote_nil]. cbn. rewrite Z.add_0_r. done.
  - rewrite run_ok_bind, run_ok_ask. destruct (write_end fd i c s h Hfd Hh) as (s1 & -> & Hw1).
    cbn [fst snd]. destruct (wr_fd _ _ _ _ _ Hw1) as (h1 & Hfd1 & Hh1).
    destruct (IH (t + Z.of_nat (length c))%Z s1 h1 Hfd1 Hh1) as (s2 & -> & Hw2).
    exists s2. split; [|by eapply wrote_trans]. rewrite length_app, Nat2Z.inj_add, Z.add_assoc. done.
Qed.

Lemma wrote_file_at fd i b s s' q :
  wrote fd i b s s' → fs_tree s !! q ≠ Some (EFile i) → file_at s' q = file_at s q.
Proof.
  intros Hw Hq. unfold file_at. rewrite (wr_tree _ _ _ _ _ Hw).
  destruct (fs_tree s !! q) as [[j| |]|]; try done.
  rewrite (wr_others _ _ _ _ _ Hw); congruence.
Qed.

(** *** Directories found stay found while directories are only added *)

Lemma walk_dirs_mono t t' links cur todo q :
  no_symlinks t → (∀ d, is_dir t d → is_dir t' d) →
  walk links t true cur todo = WFound q EDir → walk links t' true cur todo = WFound q EDir.
Proof.
  intros Hn Hd. revert cur. induction todo as [|c r IH]; intros cur;
    rewrite (walk_unfold _ t), (walk_unfold _ t'); [done|].
  destruct c; auto. destruct (t !! (cur ++ [s])) as [[i| |l]|] eqn:E; [by destruct r| | |by destruct r].
  - destruct (Hd (cur ++ [s]) ltac:(by right)) as [Hx| ->];
      [by apply app_eq_nil in Hx as [_ Hx]|]. apply IH.
  - by destruct (Hn _ _ E).
Qed.

Lemma lookup_dirs_mono s s' p q :
  no_symlinks (fs_tree s) → fs_cwd s' = fs_cwd s →
  (∀ d, is_dir (fs_tree s) d → is_dir (fs_tree s') d) →
  lookup_path s true p = WFound q EDir → lookup_path s' true p = WFound q EDir.
Proof.
  intros Hn Hc Hd. unfold lookup_path. case_decide; [done|]. rewrite Hc. by apply walk_dirs_mono.
Qed.
