(* ===== verification/Rely.v ===== *)
(** One program among others: rely-guarantee reasoning for the interleaved
    executions of [Prog].

    Between two operations of a program anything may happen that the others are
    allowed to do.  [K mine b s] says that from the state [b], which the program
    itself left, the others have led to [s], while the program holds the
    descriptors [mine].  A descriptor belongs to the program that opened it:
    [owned] programs use only their own.  [wp] is then what the program can count
    on, and [wp_pool_if] carries it through every interleaving: its own operations
    fail for outside reasons only if [may_fail]. *)
From stdpp Require Import relations.
From S2P Require Import Prelude StdPath StdFs Prog FsView.

(** ** Descriptors *)

(** The descriptor an operation uses, and the one it answers. *)
Definition op_fd {T} (e : Sys T) : option nat :=
  match e with
  | Seek fd _ | Write fd _ | Flush fd | Close fd | ReadToEnd fd => Some fd
  | _ => None
  end.

Definition returned {T} (e : Sys T) : io T → option nat :=
  match e in Sys T return io T → option nat with
  | OpenAppend _ | OpenTruncate _ _ | OpenRead _ | OpenExisting _ =>
      λ r, match r with Ok fd => Some fd | Err _ => None end
  | _ => λ _, None
  end.

Definition uses {T} (F : nat → Prop) (e : Sys T) : Prop :=
  match op_fd e with Some fd => F fd | None => True end.

(** Programs that use no descriptors but those of [F] and the ones they open
    themselves; the answer comes with all of these. *)
Fixpoint owned {A} (F : nat → Prop) (p : prog A) (Q : A → (nat → Prop) → Prop) : Prop :=
  match p with
  | Ret a => Q a F
  | Vis e k => uses F e ∧ ∀ r, owned (λ fd, F fd ∨ returned e r = Some fd) (k r) Q
  end.

Definition no_fd (T : Type) (e : Sys T) : Prop := op_fd e = None.

Lemma uses_mono {T} (F F' : nat → Prop) (e : Sys T) : (∀ fd, F fd → F' fd) → uses F e → uses F' e.
Proof. unfold uses. destruct (op_fd e); auto. Qed.

Lemma owned_mono {A} (p : prog A) (F F' : nat → Prop) (Q Q' : A → (nat → Prop) → Prop) :
  (∀ fd, F fd → F' fd) →
  (∀ a G G', Q a G → (∀ fd, G fd → G' fd) → Q' a G') → owned F p Q → owned F' p Q'.
Proof.
  intros Hf HQ. revert F F' Hf. induction p as [a|T e k IH]; intros F F' Hf; cbn; [eauto|].
  intros [Hu Hk]. split; [by eapply uses_mono|]. intros r. eapply IH; [|exact (Hk r)].
  intros fd [H|H]; auto.
Qed.

Lemma owned_bind {A B} (p : prog A) (f : A → prog B) F Q Q' :
  owned F p Q → (∀ a G, Q a G → owned G (f a) Q') → owned F (bind p f) Q'.
Proof.
  revert F. induction p as [a|T e k IH]; intros F; cbn; [auto|]. intros [Hu Hk] Hf. split; [done|].
  intros r. by apply IH.
Qed.

Lemma uses_all {T} (F : nat → Prop) (e : Sys T) : (∀ fd, F fd) → uses F e.
Proof. intros HF. unfold uses. by destruct (op_fd e). Qed.

(** Programs whose answer carries no descriptor. *)
Definition own {A} (F : nat → Prop) (p : prog A) : Prop := owned F p (λ _ _, True).

Lemma own_bind {A B} (p : prog A) (f : A → prog B) F :
  own F p → (∀ a, own F (f a)) → own F (bind p f).
Proof.
  intros Hp Hf. eapply (owned_bind _ _ _ (λ _ G, ∀ fd, F fd → G fd)).
  - assert (∀ G : nat → Prop, (∀ fd, F fd → G fd) → own G p → owned G p (λ _ G, ∀ fd, F fd → G fd)) as H.
    { clear Hp Hf. induction p as [a|T e k IH]; intros G Hg; cbn; [done|]. intros [Hu Hk].
      split; [done|]. intros r. apply IH; [auto|apply Hk]. }
    by apply H.
  - intros a G Hg. by eapply owned_mono; [exact Hg| |apply Hf].
Qed.

Lemma own_no_fd {A} F (p : prog A) : all_ops no_fd p → own F p.
Proof.
  revert F. induction p as [a|T e k IH]; intros F; cbn; [done|]. intros [He Hk].
  split; [unfold uses; by rewrite He|]. intros r. by apply IH.
Qed.

Lemma own_on_fd {A} (F : nat → Prop) fd (p : prog A) :
  F fd → all_ops (λ T e, op_fd e = Some fd ∧ ∀ r, returned e r = None) p → own F p.
Proof.
  intros HF. induction p as [a|T e k IH]; cbn; [done|]. intros [[He Hr] Hk].
  split; [unfold uses; by rewrite He|]. intros r. eapply owned_mono; [|done|by apply IH]. auto.
Qed.

(** A descriptor that is answered is new. *)
Lemma ev_step_returned {T} (e : Sys T) s r s' fd :
  ev_step e s r s' → returned e r = Some fd → fd = fs_next_fd s ∧ fs_next_fd s' = S fd.
Proof.
  intros Hs Hr. inversion Hs; subst; clear Hs; destruct e; try done; cbn [exec fault_exec returned] in *;
    repeat case_match; by simplify_eq/=.
Qed.

Lemma ev_step_next_fd {T} (e : Sys T) s r s' : ev_step e s r s' → fs_next_fd s ≤ fs_next_fd s'.
Proof.
  intros Hs. inversion Hs; subst; clear Hs; destruct e; try done; cbn [exec fault_exec];
    unfold write_handle; repeat case_match; simplify_eq/=; lia.
Qed.

(** A descriptor in use is only changed through itself. *)
Lemma ev_step_other_fd {T} (e : Sys T) s r s' fd :
  ev_step e s r s' → uses (λ fd', fd' ≠ fd) e → fd < fs_next_fd s → fs_fds s' !! fd = fs_fds s !! fd.
Proof.
  intros Hs Hu Hfd. unfold uses in Hu.
  inversion Hs; subst; clear Hs; destruct e; try done; cbn [exec fault_exec op_fd] in *;
    unfold write_handle, open_handle; repeat case_match; simplify_eq/=; try done;
    try (by rewrite lookup_insert_ne by lia); by rewrite ?lookup_insert_ne, ?lookup_delete_ne.
Qed.

(** Whatever is in flight uses descriptors that were opened. *)
Lemma pool_own {A} (arrives : prog A → Prop) s ps s' ps' :
  (∀ p, arrives p → own (λ _, False) p) → pool_steps arrives (s, ps) (s', ps') →
  Forall (own (λ fd, fd < fs_next_fd s)) ps → Forall (own (λ fd, fd < fs_next_fd s')) ps'.
Proof.
  intros Ha Hs. remember (s, ps) as c eqn:Hc. remember (s', ps') as c' eqn:Hc'. revert s ps Hc.
  induction Hs as [c|c [s1 ps1] c2 H1 _ IH]; intros s ps -> Hps; [by simplify_eq|].
  eapply IH; [done|done|]. inversion H1 as [j T e k s2 ps2 r s3 Hj He|p s2 ps2 Hp|]; subst.
  - assert (∀ p : prog A, own (λ fd, fd < fs_next_fd s) p → own (λ fd, fd < fs_next_fd s1) p) as Hm.
    { intros p. apply owned_mono; [|done]. intros fd Hfd.
      pose proof (ev_step_next_fd _ _ _ _ He). lia. }
    pose proof Hps as Hv. eapply Forall_lookup_1 in Hv; [|exact Hj]. destruct Hv as [_ Hk].
    apply Forall_insert; [by eapply Forall_impl|]. eapply owned_mono; [|done|exact (Hk r)]. cbn.
    pose proof (ev_step_next_fd _ _ _ _ He). intros fd [Hfd|Hret]; [lia|].
    apply (ev_step_returned _ _ _ _ _ He) in Hret as [-> ->]. lia.
  - apply Forall_app_2; [done|]. repeat constructor. eapply owned_mono; [|done|by apply Ha]. done.
  - done.
Qed.

(** ** What a program can count on *)

Section rely.
Context (K : gset nat → Fs → Fs → Prop) (may_fail : Prop) (O : ∀ T, Sys T → Prop).

(** [K] describes what operations of [O] can do that do not use [mine]. *)
Record reliable : Prop := {
  rl_others mine b s T (e : Sys T) r s' :
    K mine b s → O T e → uses (λ fd, fd ∉ mine) e → ev_step e s r s' → K mine b s';
  rl_clock t mine b s : K mine b s → K mine b (set_now t s);
  rl_live mine b s fd : K mine b s → fd ∈ mine → fd < fs_next_fd s;
  rl_trans mine b s s' : K mine b s → K mine s s' → K mine b s';
  rl_again mine b s : K mine b s → K mine s s
}.

(** The program, started in [b] with the descriptors [mine] while the others do
    what [K] allows, keeps to [K] itself and ends as [Q] says.  Its own operations
    fail for outside reasons only if [may_fail].  After an operation it
    may give up descriptors. *)
Fixpoint wp {A} (mine : gset nat) (p : prog A) (Q : A → gset nat → Fs → Prop) (b : Fs) : Prop :=
  match p with
  | Ret a => ∀ s, K mine b s → Q a mine s
  | Vis e k => ∀ s r s', K mine b s → own_step may_fail e s r s' →
      ∃ mine', (∀ fd, fd ∈ mine' → fd ∈ mine ∨ returned e r = Some fd) ∧
        K mine' s' s' ∧ wp mine' (k r) Q s'
  end.

Context (Hrl : reliable).

Lemma wp_later {A} mine (p : prog A) Q b s : K mine b s → wp mine p Q b → wp mine p Q s.
Proof.
  intros Hk. destruct p as [a|T e k]; cbn; intros Hp.
  - intros s' Hs. apply Hp. by eapply (rl_trans Hrl).
  - intros s1 r s2 Hs. apply Hp. by eapply (rl_trans Hrl).
Qed.

Lemma wp_mono {A} mine (p : prog A) (Q Q' : A → gset nat → Fs → Prop) b :
  (∀ a m s, Q a m s → Q' a m s) → wp mine p Q b → wp mine p Q' b.
Proof.
  intros HQ. revert mine b. induction p as [a|T e k IH]; intros mine b; cbn; [auto|].
  intros Hp s r s' Hs He. destruct (Hp s r s' Hs He) as (m & Hm & Hk & Hw). eauto.
Qed.

Lemma wp_bind {A B} mine (p : prog A) (f : A → prog B) Q b :
  K mine b b → wp mine p (λ a m s, wp m (f a) Q s) b → wp mine (bind p f) Q b.
Proof.
  revert mine b. induction p as [a|T e k IH]; intros mine b Hb; cbn; [auto|].
  intros Hp s r s' Hs He. destruct (Hp s r s' Hs He) as (m & Hm & Hk & Hw). eauto.
Qed.

(** An operation that the others could perform as well. *)
Lemma wp_op {A T} mine (e : Sys T) (k : io T → prog A) Q b :
  O T e → op_fd e = None →
  (∀ s r s', K mine b s → own_step may_fail e s r s' → K mine b s' → wp mine (k r) Q s') →
  wp mine (Vis e k) Q b.
Proof.
  intros Ho Hn Hk s r s' Hs He.
  assert (K mine b s') as Hs'.
  { eapply (rl_others Hrl); [exact Hs|exact Ho| |exact (own_ev _ _ _ _ _ He)]. unfold uses. by rewrite Hn. }
  exists mine. split; [auto|]. split; [by eapply (rl_again Hrl)|]. exact (Hk s r s' Hs He Hs').
Qed.

(** What the program finds out when nothing fails, whatever the others do. *)
Fixpoint settles {A} (J : Fs → Prop) (p : prog A) (Q : A → Prop) : Prop :=
  match p with
  | Ret a => Q a
  | Vis e k => ∀ s, J s → settles J (k (exec e s).1) Q
  end.

Lemma settles_bind {A B} J (p : prog A) (f : A → prog B) Q Q' :
  settles J p Q → (∀ a, Q a → settles J (f a) Q') → settles J (bind p f) Q'.
Proof. intros Hp Hf. induction p as [a|T e k IH]; cbn in *; auto. Qed.

(** A whole program of such operations; what it finds out is its answer.  In a
    situation [P] it finds out more, unless it may fail. *)
Lemma wp_others_if (P : Prop) {A B} mine (p : prog A) (f : A → prog B) Q Q' Q'' b :
  all_ops no_fd p → ensures (K mine b) O p Q' → (P → settles (K mine b) p Q'') →
  (∀ a, Q' a → (P → may_fail ∨ Q'' a) → wp mine (f a) Q b) → wp mine (bind p f) Q b.
Proof.
  intros Hn Hp Hs Hf. assert (P → may_fail ∨ settles (K mine b) p Q'') as Hs' by auto. clear Hs.
  induction p as [a|T e k IH]; cbn [bind]; [by apply Hf|].
  destruct Hn as [He Hn], Hp as [Ho Hp]. apply wp_op; [done|done|].
  intros s r s' Hk Hst Hk'. apply (wp_later _ _ _ b); [done|].
  apply IH; [apply Hn|eapply Hp; [exact Hk|by eapply own_ev]|].
  intros HP. destruct Hst as [|x]; [|by left]. destruct (Hs' HP) as [|Hset]; [by left|right]. by apply Hset.
Qed.

Lemma wp_others {A B} mine (p : prog A) (f : A → prog B) Q Q' b :
  all_ops no_fd p → ensures (K mine b) O p Q' → (∀ a, Q' a → wp mine (f a) Q b) →
  wp mine (bind p f) Q b.
Proof. intros Hn Hp Hf. by apply (wp_others_if False _ _ _ _ Q' (λ _, True)); auto. Qed.

(** *** Interleavings *)

Context (J : Fs → Prop).

(** Another program, using descriptors in use that are not [mine]. *)
Definition other {A} (mine : gset nat) (s : Fs) (p : prog A) : Prop :=
  ensures J O p (λ _, True) ∧ own (λ fd, fd < fs_next_fd s ∧ fd ∉ mine) p.

(** Thread [n] is at [p], which can count on [Q], and all threads beside it are
    others. *)
Definition attended {A} (n : nat) (Q : A → gset nat → Fs → Prop) (s : Fs) (ps : list (prog A)) : Prop :=
  ∃ mine b p, ps !! n = Some p ∧ K mine b s ∧ wp mine p Q b ∧
    ∀ j p', j ≠ n → ps !! j = Some p' → other mine s p'.

Lemma other_later {A} mine mine' s s' (p : prog A) :
  (∀ fd, fd < fs_next_fd s → fd ∈ mine' → fd ∈ mine) → fs_next_fd s ≤ fs_next_fd s' →
  other mine s p → other mine' s' p.
Proof.
  intros Hm Hn [He Ho]. split; [done|]. eapply owned_mono; [|done|exact Ho]. cbn.
  intros fd [Hfd Hnm]. split; [lia|]. naive_solver.
Qed.

(** An operation of the thread itself, *)
Lemma rely_own {A T} mine b s (e : Sys T) (k : io T → prog A) Q r s' :
  K mine b s → wp mine (Vis e k) Q b → own_step may_fail e s r s' →
  ∃ mine', K mine' s' s' ∧ wp mine' (k r) Q s' ∧
    ∀ B (p : prog B), other mine s p → other mine' s' p.
Proof.
  intros Hk Hw He. destruct (Hw s r s' Hk He) as (mine' & Hm & Hk' & Hw'). apply own_ev in He.
  exists mine'. split; [done|]. split; [done|]. intros B p. apply other_later; [|by eapply ev_step_next_fd].
  intros fd Hfd Hin. destruct (Hm fd Hin) as [?|Hret]; [done|].
  apply (ev_step_returned _ _ _ _ _ He) in Hret as [-> _]. lia.
Qed.

(** and of another one. *)
Lemma rely_other {A T} mine b s (e : Sys T) (k : io T → prog A) r s' :
  K mine b s → J s → other mine s (Vis e k) → ev_step e s r s' →
  K mine b s' ∧ other mine s' (k r) ∧ ∀ B (p : prog B), other mine s p → other mine s' p.
Proof.
  intros Hk Hj [[Hoe Hek] [Hu Hok]] He. split; [|split].
  - eapply (rl_others Hrl); [done|done| |done]. eapply uses_mono; [|exact Hu]. by intros fd [].
  - split; [by eapply Hek|]. eapply owned_mono; [|done|exact (Hok r)]. cbn. intros fd [[Hfd Hnm]|Hret].
    + pose proof (ev_step_next_fd _ _ _ _ He). split; [lia|done].
    + apply (ev_step_returned _ _ _ _ _ He) in Hret as [-> ->]. split; [lia|].
      intros Hin. apply (rl_live Hrl _ _ _ _ Hk) in Hin. lia.
  - intros B p. apply other_later; [done|by eapply ev_step_next_fd].
Qed.

Section attended.
Context {A : Type} (n : nat) (Q : A → gset nat → Fs → Prop).

(** A thread that starts while others are at work. *)
Lemma attended_start s ps p :
  n = length ps → K ∅ s s → wp ∅ p Q s →
  Forall (λ p, ensures J O p (λ _, True)) ps → Forall (own (λ fd, fd < fs_next_fd s)) ps →
  attended n Q s (ps ++ [p]).
Proof.
  intros -> Hk Hw He Ho. exists ∅, s, p. split; [by rewrite lookup_app_r, Nat.sub_diag by lia|].
  split; [done|]. split; [done|]. intros j p' Hj Hjp. apply lookup_app_Some in Hjp as [Hjp|[Hle Hjp]].
  - split; [by eapply Forall_lookup_1 in He|].
    eapply Forall_lookup_1 in Ho; [|exact Hjp]. eapply owned_mono; [|done|exact Ho].
    intros fd Hfd. split; [done|apply not_elem_of_empty].
  - apply list_lookup_singleton_Some in Hjp as [Hjp _]. lia.
Qed.

Lemma attended_thread i T (e : Sys T) k s ps r s' :
  J s → ps !! i = Some (Vis e k) → own_step (i = n → may_fail) e s r s' →
  attended n Q s ps → attended n Q s' (<[i := k r]> ps).
Proof.
  intros Hj Hi He (mine & b & p & Hp & Hk & Hw & Ho). destruct (decide (i = n)) as [->|Hne].
  - rewrite Hp in Hi. injection Hi as ->.
    destruct (rely_own mine b s e k Q r s') as (mine' & Hk' & Hw' & Hl); [done|done|by destruct He; constructor; auto|].
    exists mine', s', (k r). rewrite list_lookup_insert_eq by (by eapply lookup_lt_Some).
    split; [done|]. split; [done|]. split; [done|]. intros j p' Hj' Hp'.
    rewrite list_lookup_insert_ne in Hp' by done. eauto.
  - apply own_ev in He. destruct (rely_other mine b s e k r s') as (Hk' & Hok & Hl); [done|done|by eapply Ho|done|].
    exists mine, b, p. rewrite list_lookup_insert_ne by done. split; [done|]. split; [done|]. split; [done|].
    intros j p' Hj' Hp'. destruct (decide (i = j)) as [->|Hij].
    + rewrite list_lookup_insert_eq in Hp' by (by eapply lookup_lt_Some). by injection Hp' as <-.
    + rewrite list_lookup_insert_ne in Hp' by done. eauto.
Qed.

Lemma attended_arrive s ps p :
  ensures J O p (λ _, True) → own (λ _, False) p → attended n Q s ps → attended n Q s (ps ++ [p]).
Proof.
  intros He Hown (mine & b & p0 & Hp & Hk & Hw & Ho).
  exists mine, b, p0. split; [by apply lookup_app_l_Some|]. split; [done|]. split; [done|].
  intros j p' Hj Hp'. apply lookup_app_Some in Hp' as [Hp'|[_ Hp']]; [by eapply Ho|].
  apply list_lookup_singleton_Some in Hp' as [_ <-]. split; [done|]. by eapply owned_mono; [|done|exact Hown].
Qed.

(** Something else changes the file system, as [K] allows. *)
Lemma attended_env s s' ps :
  (∀ mine b, K mine b s → K mine b s') → fs_next_fd s ≤ fs_next_fd s' →
  attended n Q s ps → attended n Q s' ps.
Proof.
  intros HK Hfd (mine & b & p & Hp & Hk & Hw & Ho). exists mine, b, p. split; [done|]. split; [auto|].
  split; [done|]. intros j p' Hj Hp'. by eapply other_later; [..|by eapply Ho].
Qed.

(** An operation from elsewhere that uses no descriptor. *)
Lemma attended_beside {T} (e : Sys T) s r s' ps :
  O T e → op_fd e = None → ev_step e s r s' → attended n Q s ps → attended n Q s' ps.
Proof.
  intros Ho Hn He. apply attended_env; [|by eapply ev_step_next_fd]. intros mine b Hk.
  eapply (rl_others Hrl); [done|exact Ho| |exact He]. unfold uses. by rewrite Hn.
Qed.

Lemma attended_clock t s ps : attended n Q s ps → attended n Q (set_now t s) ps.
Proof. apply attended_env; [|done]. intros mine b. by apply (rl_clock Hrl). Qed.

Lemma attended_step (arrives : prog A → Prop) fails s ps s' ps' :
  (∀ mine b s, K mine b s → J s) → (fails n → may_fail) →
  (∀ p, arrives p → ensures J O p (λ _, True) ∧ own (λ _, False) p) →
  pool_step_if arrives fails (s, ps) (s', ps') → attended n Q s ps → attended n Q s' ps'.
Proof.
  intros HJ Hfail Ha Hs Hat. inversion Hs as [i T e k s1 ps1 r s2 Hi He| |]; subst.
  - eapply attended_thread; [|exact Hi| |done].
    + destruct Hat as (mine & b & p & _ & Hk & _). by eapply HJ.
    + destruct He; constructor. intros ->. auto.
  - by apply attended_arrive; [apply Ha..|].
  - by apply attended_clock.
Qed.
End attended.

Section pool.
Context {A : Type} (arrives : prog A → Prop) (fails : nat → Prop) (n : nat).
Context (HJ : ∀ mine b s, K mine b s → J s) (Hfail : fails n → may_fail).
Context (Ha : ∀ p, arrives p → ensures J O p (λ _, True) ∧ own (λ _, False) p).

Lemma attended_steps Q s ps s' ps' :
  attended n Q s ps → pool_steps_if arrives fails (s, ps) (s', ps') → attended n Q s' ps'.
Proof.
  intros Hat Hs. remember (s, ps) as c eqn:Hc. remember (s', ps') as c' eqn:Hc'. revert s ps Hc Hat.
  induction Hs as [c|c [s1 ps1] c2 H1 _ IH]; intros s ps -> Hat; [by simplify_eq|].
  by eapply IH, (attended_step n Q arrives fails).
Qed.

(** A thread that is at work among others ends as it can count on, in every
    interleaving. *)
Lemma wp_pool_if Q s ps s' ps' a :
  attended n Q s ps → pool_steps_if arrives fails (s, ps) (s', ps') → ps' !! n = Some (Ret a) →
  ∃ mine, Q a mine s'.
Proof.
  intros Hat Hs Hend. destruct (attended_steps _ _ _ _ _ Hat Hs) as (mine & b & p & Hp & Hk & Hw & _).
  rewrite Hend in Hp. injection Hp as <-. exists mine. by apply Hw.
Qed.

(** Wherever it has got to, what is left of it brings it there. *)
Lemma wp_pool_ends Q s ps s' ps' :
  attended n Q s ps → pool_steps_if arrives fails (s, ps) (s', ps') →
  ∃ j a s'' mine, sched (replicate j n) s' ps' = (s'', <[n := Ret a]> ps') ∧ Q a mine s''.
Proof.
  intros Hat Hs. destruct (attended_steps _ _ _ _ _ Hat Hs) as (_ & _ & p & Hp & _).
  destruct (thread_ends arrives fails n s' ps' p Hp) as (j & a & s'' & Hj & Hs'). exists j, a, s''.
  destruct (wp_pool_if Q s ps s'' (<[n := Ret a]> ps') a) as [mine HQ]; [done|by etrans| |by exists mine].
  rewrite list_lookup_insert_eq; [done|by eapply lookup_lt_Some].
Qed.
End pool.
End rely.

(** Fewer operations. *)
Lemma reliable_sub K (O O' : ∀ T, Sys T → Prop) :
  (∀ T e, O' T e → O T e) → reliable K O → reliable K O'.
Proof. intros HO []. split; eauto. Qed.
