(* ===== verification/Append.v ===== *)
(** The append-only rules of [append.rs]: offset classification, the staging
    name of an upload, and the recognition of Reolink's connection-test files. *)
From S2P Require Import Prelude StdPath.

Definition STAGING_SUFFIX : string := ".reoftpd-partial".
Definition QUARANTINE_DIR : string := ".quarantine".

Module Verdict.
Inductive OffsetVerdict : Type := Ok | Overlap | Gap.
#[global] Instance offset_verdict_eq_dec : EqDecision OffsetVerdict.
Proof. solve_decision. Defined.
End Verdict.

(** A store may only begin exactly at the current end of the staging file. *)
Definition classify_offset (start_pos existing_size : Z) : Verdict.OffsetVerdict :=
  match (start_pos ?= existing_size)%Z with
  | Eq => Verdict.Ok
  | Lt => Verdict.Overlap
  | Gt => Verdict.Gap
  end.

Definition staging_path (final_path : string) : string :=
  os_push final_path STAGING_SUFFIX.

Definition is_reolink_test_file (name : string) : bool :=
  let lower := to_ascii_lowercase name in
  bool_decide (lower = "test") || starts_with_str "test." lower || starts_with_str "testftp" lower.

(** A name some session uses while an upload is in progress. *)
Definition is_staging_name (name : string) : bool := ends_with STAGING_SUFFIX name.

(** ** Properties *)

Lemma classify_offset_spec start size :
  (classify_offset start size = Verdict.Ok ↔ start = size) ∧
  (classify_offset start size = Verdict.Overlap ↔ (start < size)%Z) ∧
  (classify_offset start size = Verdict.Gap ↔ (size < start)%Z).
Proof.
  unfold classify_offset. destruct (Z.compare_spec start size); repeat split; intros; try done; lia.
Qed.

Lemma staging_suffix_valid : valid_name STAGING_SUFFIX.
Proof. by vm_compute. Qed.

(** Whatever the final path, its staging path ends in a staging name. *)
Lemma staging_path_name p : ∃ n, file_name (staging_path p) = Some n ∧ is_staging_name n = true.
Proof.
  destruct (file_name_os_push p STAGING_SUFFIX) as [x Hx];
    [apply staging_suffix_valid|cbn; lia|].
  exists (x +:+ STAGING_SUFFIX). split; [done|]. apply ends_with_spec. eauto.
Qed.

Lemma test_name_suffix n :
  is_reolink_test_file n = true → is_reolink_test_file (n +:+ STAGING_SUFFIX) = true.
Proof.
  unfold is_reolink_test_file. rewrite to_ascii_lowercase_app.
  set (l := to_ascii_lowercase n). rewrite !orb_true_iff, bool_decide_eq_true.
  intros [[->|H]|H].
  - left. right. reflexivity.
  - left. right. by apply prefix_str_app.
  - right. by apply prefix_str_app.
Qed.

(** A prefix of what is appended to ends in either part. *)
Lemma prefix_str_split (p s t : string) :
  String.prefix p (s +:+ t) = true →
  String.prefix p s = true ∨ ∃ r, p = s +:+ r ∧ String.prefix r t = true.
Proof.
  revert s. induction p as [|c p IH]; intros s; [by left; destruct s|].
  destruct s as [|d s]; [intros Hp; right; by exists (String c p)|]. cbn.
  destruct (Ascii.ascii_dec c d) as [->|]; [|done]. intros [Hs|(r & -> & Hr)]%IH; [by left|right; by exists r].
Qed.

(** An encrypted file is neither taken for a staging file, nor for a test file if
    the recording was not. *)
Lemma age_name_lasting n :
  is_reolink_test_file n = false →
  is_staging_name (n +:+ ".age") = false ∧ is_reolink_test_file (n +:+ ".age") = false.
Proof.
  intros Ht. split; apply not_true_is_false.
  - unfold is_staging_name. rewrite ends_with_spec. intros [t Hn].
    pose proof (f_equal String.length Hn) as Hl. rewrite !string_app_length in Hl. cbn in Hl.
    pose proof (String.append_correct2 n ".age" 3) as H1. pose proof (String.append_correct2 t STAGING_SUFFIX 15) as H2.
    change (n ++ ".age")%string with (n +:+ ".age") in H1. rewrite Hn in H1.
    replace (3 + String.length n) with (15 + String.length t) in H1 by lia.
    change (t ++ STAGING_SUFFIX)%string with (t +:+ STAGING_SUFFIX) in H2. rewrite <- H2 in H1. done.
  - unfold is_reolink_test_file in *. rewrite to_ascii_lowercase_app. set (l := to_ascii_lowercase n) in *.
    apply orb_false_iff in Ht as [[He%bool_decide_eq_false H1]%orb_false_iff H2].
    rewrite !orb_true_iff, bool_decide_eq_true. unfold starts_with_str in *.
    intros [[Hl|[Hl|(r & Hr & Hp)]%prefix_str_split]|[Hl|(r & Hr & Hp)]%prefix_str_split]; [|congruence| |congruence|].
    all: do 8 (try destruct l as [|? l]); cbn in *; simplify_eq; try done.
Qed.

#[export] Hint Resolve staging_suffix_valid : reo.
