(* ===== verification/Paths.v ===== *)
(** [paths.rs]: the virtual paths of an account and the jail they must stay in.

    [normalize] refuses parent components, [contained] is the final guard that
    canonicalizes what exists of a candidate path and checks it against the
    canonical base, [ScopeMap] is a single root or a map of named roots, and
    [resolve] maps a virtual path to a real one. *)
From S2P Require Import Prelude StdPath StdFs Prog.

Inductive PathError : Type := Traversal | NotFound | OutsideScope.
#[export] Instance path_error_eq_dec : EqDecision PathError.
Proof. solve_decision. Defined.

(** A [BTreeMap<String, PathBuf>]; its keys come out in byte order. *)
Record ScopeMap : Type := mkScopeMap {
  roots : gmap string string;
  single_root : option string
}.

Definition single (root : string) : ScopeMap := mkScopeMap ∅ (Some root).
Definition multi (rs : gmap string string) : ScopeMap := mkScopeMap rs None.

Definition list_root (m : ScopeMap) : list string := (btree_iter (roots m)).*1.

(** Names of a virtual path; a parent component anywhere is a traversal. *)
Fixpoint normalize_components (cs : list Component) : result (list string) PathError :=
  match cs with
  | [] => Ok []
  | (RootDir | CurDir) :: cs' => normalize_components cs'
  | Normal s :: cs' =>
      let? out := normalize_components cs' in
      Ok (to_string_lossy s :: out)
  | (ParentDir | Prefix _) :: _ => Err Traversal
  end.

Definition normalize (virtual_path : string) : result (list string) PathError :=
  normalize_components (components virtual_path).

(** The loop of [contained]: canonicalize the longest existing ancestor and
    re-attach the part that does not exist. *)
Fixpoint contained_loop (fuel : nat) (base_c ancestor tail : string)
    : prog (result string PathError) :=
  match fuel with
  | O => Ret (Err NotFound)
  | S fuel' =>
      let! r := ask (Canonicalize ancestor) in
      match r with
      | Ok canon =>
          let resolved := join canon tail in
          Ret (if starts_with resolved base_c then Ok resolved else Err Traversal)
      | Err _ =>
          match file_name ancestor with
          | Some name =>
              let new_tail := if decide (path_eq tail "") then name else join name tail in
              contained_loop fuel' base_c (default ancestor (parent ancestor)) new_tail
          | None => Ret (Err NotFound)
          end
      end
  end.

(** Each turn of the loop drops one component of the candidate. *)
Definition contained_fuel (candidate : string) : nat := S (length (components candidate)).

#[global] Arguments contained_fuel : simpl never.

Definition contained (base candidate : string) : prog (result string PathError) :=
  let! rb := ask (Canonicalize base) in
  match rb with
  | Err _ => Ret (Err NotFound)
  | Ok base_c =>
      let! rc := ask (Canonicalize candidate) in
      match rc with
      | Ok resolved =>
          Ret (if starts_with resolved base_c then Ok resolved else Err Traversal)
      | Err _ => contained_loop (contained_fuel candidate) base_c candidate ""
      end
  end.

Definition resolve (m : ScopeMap) (virtual_path : string) : prog (result string PathError) :=
  match normalize virtual_path with
  | Err e => Ret (Err e)
  | Ok parts =>
      match single_root m with
      | Some base => contained base (foldl join base parts)
      | None =>
          match parts with
          | [] => Ret (Err OutsideScope)
          | cam :: rest =>
              match roots m !! cam with
              | None => Ret (Err OutsideScope)
              | Some base => contained base (foldl join base rest)
              end
          end
      end
  end.

(** The root directory and the names below it that a virtual path selects. *)
Definition select_root (m : ScopeMap) (virtual_path : string)
    : result (string * list string) PathError :=
  let? parts := normalize virtual_path in
  match single_root m with
  | Some base => Ok (base, parts)
  | None =>
      match parts with
      | [] => Err OutsideScope
      | cam :: rest =>
          match roots m !! cam with
          | None => Err OutsideScope
          | Some base => Ok (base, rest)
          end
      end
  end.

(** Operations that only look at the file system. *)
Definition read_only (T : Type) (e : Sys T) : Prop :=
  match e with
  | TryExists _ | Stat _ | SymlinkStat _ | Canonicalize _ | ReadDir _ | NextEntry _ => True
  | _ => False
  end.

(** ** Lemmas *)

Lemma read_only_step T (e : Sys T) s r s' : read_only T e → ev_step e s r s' → s' = s.
Proof.
  intros He H. inversion H; subst; clear H.
  - destruct e; try done; cbn [exec]; repeat case_match; done.
  - by destruct e.
Qed.

Lemma read_only_run {A} (p : prog A) w : all_ops read_only p → w_fs (run p w).2 = w_fs w.
Proof.
  intros Hp. apply (run_invariant (λ s, s = w_fs w) read_only); [|done|done].
  intros T e s r s' He Hs ->. by eapply read_only_step.
Qed.

Lemma contained_loop_read_only fuel b a t : all_ops read_only (contained_loop fuel b a t).
Proof. revert a t. induction fuel as [|fuel IH]; intros a t; cbn [contained_loop]; ops. Qed.

Lemma contained_read_only b c : all_ops read_only (contained b c).
Proof. pose proof contained_loop_read_only. unfold contained; ops. Qed.

(** Resolving a path never changes the file system. *)
Lemma resolve_read_only m v : all_ops read_only (resolve m v).
Proof. pose proof contained_read_only. unfold resolve; ops. Qed.

Lemma normalize_components_Ok cs parts :
  normalize_components cs = Ok parts ↔
  (ParentDir ∉ cs ∧ (∀ s, Prefix s ∉ cs)) ∧
  parts = to_string_lossy <$> omap (λ c, match c with Normal s => Some s | _ => None end) cs.
Proof.
  revert parts. induction cs as [|c cs IH]; intros parts; cbn.
  { split; [intros [= <-]|intros [_ ->]; done].
    split; [split|done]; intros; apply not_elem_of_nil. }
  setoid_rewrite not_elem_of_cons. destruct c; cbn; rewrite ?IH; try naive_solver.
  destruct (normalize_components cs) as [out|e] eqn:E; cbn.
  - destruct (proj1 (IH out) eq_refl) as [[H1 H2] ->]. naive_solver.
  - split; [done|]. intros [[[_ H1] H2] ->].
    assert (Err e = Ok (to_string_lossy <$> omap (λ c, match c with Normal s => Some s | _ => None end) cs)
      :> result (list string) PathError); [|done].
    apply IH. naive_solver.
Qed.

Lemma normalize_components_parent cs :
  ParentDir ∈ cs → normalize_components cs = Err Traversal.
Proof.
  induction cs as [|c cs IH]; [by intros Hp%elem_of_nil|].
  intros [<-|Hp]%elem_of_cons; [done|].
  destruct c; cbn; rewrite ?IH by done; done.
Qed.

Lemma normalize_valid v parts : normalize v = Ok parts → Forall valid_name parts.
Proof.
  intros [_ ->]%normalize_components_Ok. apply Forall_fmap, list.Forall_forall.
  intros s (c & Hc & H)%list_elem_of_omap. destruct c; simplify_eq/=.
  apply to_string_lossy_valid. by eapply components_Normal_valid.
Qed.

Lemma resolve_select m v :
  resolve m v = match select_root m v with
                | Err e => Ret (Err e)
                | Ok (base, parts) => contained base (foldl join base parts)
                end.
Proof.
  unfold resolve, select_root. destruct (normalize v) as [parts|]; [|done].
  destruct (single_root m); [done|]. destruct parts; [done|].
  by destruct (roots m !! s).
Qed.

Lemma list_root_spec m n : n ∈ list_root m ↔ is_Some (roots m !! n).
Proof.
  unfold list_root. rewrite list_elem_of_fmap. split.
  - intros ([k v] & -> & H%btree_iter_spec). eauto.
  - intros [v H]. exists (n, v). split; [done|]. by apply btree_iter_spec.
Qed.

Lemma list_root_nil m : list_root m = [] ↔ roots m = ∅.
Proof.
  split; [|intros H; unfold list_root, btree_iter; by rewrite H, map_to_list_empty].
  intros H. apply map_empty. intros n. apply eq_None_not_Some.
  rewrite <- list_root_spec, H. apply not_elem_of_nil.
Qed.

Lemma components_join_empty p : components (join p "") = components p.
Proof.
  destruct (decide (p = "")) as [->|Hp]; [by vm_compute|].
  rewrite components_join_pieces by done. cbn. by rewrite app_nil_r.
Qed.

(** Joining a tail made of names only. *)
Lemma components_join_lexical p t ns :
  components t = lexical ns → (ns = [] → t = "") →
  components (join p t) = components p ++ lexical ns.
Proof.
  intros Ht Hne. destruct ns as [|n ns]; cbn in *.
  - rewrite Hne, components_join_empty by done. by rewrite app_nil_r.
  - by apply components_join_rel.
Qed.

Lemma canonicalize_Ok w b c :
  (perform (Canonicalize b) w).1 = Ok c →
  ∃ q e, lookup_path (w_fs w) true b = WFound q e ∧ c = render q.
Proof.
  unfold perform. destruct (w_plan w) as [|[f|] pl]; cbn; [|done|];
    destruct (lookup_path _ true b); intros; simplify_eq/=; eauto.
Qed.

Lemma contained_loop_starts fuel base_c a t w p :
  (run (contained_loop fuel base_c a t) w).1 = Ok p → starts_with p base_c = true.
Proof.
  revert a t w. induction fuel as [|fuel IH]; intros a t w; cbn; [done|].
  destruct (perform (Canonicalize a) w).1 as [c|k]; cbn.
  - destruct (starts_with (join c t) base_c) eqn:E; [|done]. by intros [= <-].
  - destruct (file_name a); [apply IH|done].
Qed.

(** Where the loop stops: at an ancestor that resolves, the names dropped on
    the way being re-attached to its canonical form. *)
Lemma contained_loop_stops s base_c fuel a t ns p :
  wf_fs s → components t = lexical ns → (ns = [] → t = "") →
  (run_ok (contained_loop fuel base_c a t) s).1 = Ok p →
  ∃ a' q e ns', lookup_path s true a' = WFound q e ∧
    components a ++ lexical ns = components a' ++ lexical ns' ∧
    components p = RootDir :: lexical (q ++ ns').
Proof.
  intros Hw. revert a t ns. induction fuel as [|fuel IH]; intros a t ns Ht Hne; cbn; [done|].
  rewrite run_ok_vis. cbn. destruct (lookup_path s true a) as [q e|d n|k] eqn:E; cbn.
  { destruct (starts_with _ _); [|done]. intros [= <-]. exists a, q, e, ns.
    split; [done|]. split; [done|].
    rewrite (components_join_lexical _ _ ns) by done.
    pose proof (lookup_path_wf s true a Hw) as Hv. rewrite E in Hv.
    assert (Forall valid_name q) as Hq.
    { destruct e; [|eapply is_dir_valid; eauto; apply Hw|]; eapply entry_valid; eauto; apply Hw. }
    rewrite components_render by done. unfold lexical. by rewrite fmap_app. }
  all: destruct (file_name a) as [name|] eqn:Hf; [|done]; intros H.
  all: destruct (file_name_components _ _ Hf) as [cs Hcs];
    destruct (components_parent _ _ _ Hcs) as (d' & Hd & Hdc);
    pose proof (file_name_valid _ _ Hf) as Hname; rewrite Hd in H; cbn in H.
  all: apply (IH _ _ (name :: ns)) in H; [rewrite Hdc in H; rewrite Hcs; cbn in *;
      by rewrite <- app_assoc| |done].
  all: destruct ns as [|m ns]; [rewrite Hne by done; cbn; by apply components_valid_name|].
  all: rewrite decide_False by (unfold path_eq; by rewrite Ht).
  all: rewrite (components_join_lexical _ _ (m :: ns)) by done; by rewrite components_valid_name.
Qed.

(** With fuel for every component of the candidate the loop answers what it
    answers with any larger fuel, under every plan of failures. *)
Lemma contained_loop_fuel base_c fuel fuel' a t w :
  length (components a) < fuel → fuel ≤ fuel' →
  run (contained_loop fuel base_c a t) w = run (contained_loop fuel' base_c a t) w.
Proof.
  revert fuel' a t w. induction fuel as [|fuel IH]; intros [|fuel'] a t w Hl Hle; [lia..|]. cbn.
  destruct (perform (Canonicalize a) w).1 as [c|k]; [done|].
  destruct (file_name a) as [name|] eqn:Hf; [|done].
  destruct (file_name_components _ _ Hf) as [cs Hcs].
  destruct (components_parent _ _ _ Hcs) as (d & -> & Hdc). cbn.
  apply IH; [|lia]. rewrite Hcs, length_app in Hl. rewrite Hdc. cbn in Hl. lia.
Qed.

(** ** What [resolve] guarantees *)

(** A virtual path with a parent component anywhere is refused as a
    traversal before any file system operation is made: under every failure
    plan the answer is [Traversal] and the world is untouched. *)
Theorem resolve_rejects_parent m v w :
  ParentDir ∈ components v → run (resolve m v) w = (Err Traversal, w).
Proof. intros Hp. unfold resolve, normalize. by rewrite normalize_components_parent. Qed.

(** C17. Whatever operations fail on the way, an answer of [resolve] lies, component
    by component, below the canonical form of the root the virtual path selects. *)
Theorem resolve_in_jail m v w p :
  (run (resolve m v) w).1 = Ok p →
  ∃ base parts q e, select_root m v = Ok (base, parts) ∧
    lookup_path (w_fs w) true base = WFound q e ∧
    starts_with p (render q) = true.
Proof.
  rewrite resolve_select. destruct (select_root m v) as [[base parts]|]; [|done].
  unfold contained. rewrite run_bind. cbn.
  destruct (perform (Canonicalize base) w).1 as [base_c|k] eqn:Hb; [|done].
  apply canonicalize_Ok in Hb as (q & e & Hq & ->).
  intros H. exists base, parts, q, e. split; [done|]. split; [done|]. revert H.
  cbn [run]. match goal with |- context [(perform ?e ?w').1] => destruct (perform e w').1 as [r|k] end.
  - cbn. destruct (starts_with r (render q)) eqn:E; [|done]. by intros [= <-].
  - apply contained_loop_starts.
Qed.

Lemma prefix_lexical q q' : lexical q `prefix_of` lexical q' → q `prefix_of` q'.
Proof.
  revert q'. induction q as [|n q IH]; intros q' H; [apply prefix_nil|].
  destruct q' as [|m q'], H as [k H]; simplify_eq/=. apply prefix_cons, IH. by exists k.
Qed.

Lemma starts_with_lexical p qb qp :
  Forall valid_name qb → components p = RootDir :: lexical qp →
  starts_with p (render qb) = true → qb `prefix_of` qp.
Proof.
  intros Hv Hp H%starts_with_spec. rewrite components_render, Hp in H by done.
  apply prefix_lexical. destruct H as [k H]. exists k. by simplify_eq/=.
Qed.

Lemma lookup_found_valid s p q e :
  wf_fs s → lookup_path s true p = WFound q e → Forall valid_name q.
Proof.
  intros Hw H. pose proof (lookup_path_wf s true p Hw) as Hv. rewrite H in Hv.
  destruct e; [|eapply is_dir_valid; eauto; apply Hw|]; eapply entry_valid; eauto; apply Hw.
Qed.

(** A path that goes on below something that is not a directory finds nothing. *)
Lemma lookup_below_found s p q e n ns :
  wf_fs s → lookup_path s true p = WFound q e → e ≠ EDir →
  ∀ p' q' e', components p' = RootDir :: lexical (q ++ n :: ns) →
    lookup_path s true p' ≠ WFound q' e'.
Proof.
  intros Hw Hq He p' q' e' Hp'.
  pose proof (lookup_path_wf s true p Hw) as Hv. rewrite Hq in Hv.
  destruct e as [i| |target]; [|done|].
  - apply (wf_is_tree _ Hw) in Hv as Hx. destruct Hx as (d & m & -> & Hm & Hd).
    rewrite (lookup_below _ _ _ d (Normal m :: Normal n :: lexical ns)); [|done|done|].
    + by rewrite walk_unfold, Hv.
    + unfold lexical in *. rewrite Hp', !fmap_app. cbn. by rewrite <- app_assoc.
  - pose proof (lookup_canonical s true p _ _ Hw Hq) as Hc.
    exfalso. revert Hq. unfold lookup_path. case_decide; [done|]. clear.
    generalize (components p). intros cs.
    pattern (fs_cwd s), cs, (walk MAXSYMLINKS (fs_tree s) true (fs_cwd s) cs).
    by apply walk_ind.
Qed.

(** If the candidate does not resolve, neither does the path the loop answers:
    its tail fails below the canonical ancestor as it did in the candidate. *)
Lemma contained_not_found s base_c candidate p :
  wf_fs s → candidate ≠ "" →
  lookup_path s true candidate ≠ WErr Io.FilesystemLoop →
  (∀ q e, lookup_path s true candidate ≠ WFound q e) →
  (run_ok (contained_loop (contained_fuel candidate) base_c candidate "") s).1 = Ok p →
  ∀ q e, lookup_path s true p ≠ WFound q e.
Proof.
  intros Hw Hne Hloop Hnf Hrun q e Hp.
  apply (contained_loop_stops _ _ _ _ _ []) in Hrun as (a & qa & ea & ns & Ha & Hca & Hcp); [|done..].
  cbn in Hca. rewrite app_nil_r in Hca.
  destruct (decide (ea = EDir)) as [->|He].
  - pose proof (lookup_path_wf s true a Hw) as Hd. rewrite Ha in Hd.
    rewrite (lookup_below _ _ _ qa (lexical ns)) in Hp; [|done|done|].
    2: { unfold lexical in *. by rewrite Hcp, fmap_app. }
    unfold lookup_path in Ha, Hloop, Hnf. rewrite decide_False in Hloop, Hnf by done.
    case_decide; [done|]. rewrite Hca in Hloop, Hnf.
    apply (walk_app _ _ _ _ (lexical ns)) in Ha as (l & Hl & Ha).
    rewrite Ha in Hloop. rewrite (walk_more_links _ _ l) in Hp by done.
    apply (Hnf q e). by rewrite Ha, Hp.
  - destruct ns as [|n ns].
    + apply (Hnf qa ea). rewrite <- Ha. apply lookup_path_eq; [done| |].
      * exact (lookup_found_nonempty _ _ _ _ _ Ha).
      * unfold path_eq. by rewrite Hca, app_nil_r.
    + exact (lookup_below_found s a qa ea n ns Hw Ha He p q e Hcp Hp).
Qed.

(** Physical confinement: in a well-formed file system, whatever an answered
    path resolves to, through any symbolic links, is below the directory the
    selected root resolves to.  (The candidate path itself must not hit the
    kernel's limit on symbolic links.) *)
Theorem contained_confined s base candidate p q e :
  wf_fs s → candidate ≠ "" →
  lookup_path s true candidate ≠ WErr Io.FilesystemLoop →
  (run_ok (contained base candidate) s).1 = Ok p →
  lookup_path s true p = WFound q e →
  ∃ qb eb, lookup_path s true base = WFound qb eb ∧ qb `prefix_of` q.
Proof.
  intros Hw Hne Hloop Hrun Hp. revert Hrun. unfold contained.
  rewrite run_ok_bind, run_ok_ask. cbn [exec].
  destruct (lookup_path s true base) as [qb eb| |] eqn:Hb; [|done..]. cbn [fst snd].
  intros H. exists qb, eb. split; [done|].
  pose proof (lookup_found_valid _ _ _ _ Hw Hb) as Hvb.
  revert H. rewrite run_ok_bind, run_ok_ask. cbn [exec].
  destruct (lookup_path s true candidate) as [qc ec|dc nc|kc] eqn:Hc; cbn [fst snd].
  - rewrite run_ok_ret. cbn. destruct (starts_with (render qc) _) eqn:E; [|done]. intros [= <-].
    rewrite (lookup_canonical _ _ _ _ _ Hw Hc) in Hp. simplify_eq.
    eapply starts_with_lexical; [done| |done].
    apply components_render. by eapply lookup_found_valid.
  - intros H. exfalso. eapply (contained_not_found s (render qb) candidate p); eauto; congruence.
  - intros H. exfalso. eapply (contained_not_found s (render qb) candidate p); eauto; congruence.
Qed.

(** *** Jails without symbolic links *)

Lemma walk_lexical t links q ns q' e :
  no_symlinks t → walk links t true q (lexical ns) = WFound q' e → q' = q ++ ns.
Proof.
  intros Hn. revert q. induction ns as [|n ns IH]; intros q; cbn; rewrite walk_unfold.
  { intros [= -> _]. by rewrite app_nil_r. }
  destruct (t !! (q ++ [n])) as [[]|] eqn:E; [| | |by destruct ns].
  - destruct ns; [|done]. by intros [= <- _].
  - intros ->%IH. by rewrite <- app_assoc.
  - by destruct (Hn _ _ E).
Qed.

Section plain_jail.
Context (s : Fs) (Hw : wf_fs s) (Hn : no_symlinks (fs_tree s)).
Context (base : string) (qb : list string) (Hb : lookup_path s true base = WFound qb EDir).

Lemma lookup_in_jail a ns q e :
  components a = components base ++ lexical ns →
  lookup_path s true a = WFound q e → q = qb ++ ns.
Proof.
  intros Ha H. unfold lookup_path in *. repeat case_decide; try done. rewrite Ha in H.
  apply (walk_app _ _ _ _ (lexical ns)) in Hb as (l & _ & Hl). rewrite Hl in H.
  by apply walk_lexical in H.
Qed.

Lemma qb_valid : Forall valid_name qb.
Proof. by eapply lookup_found_valid. Qed.

Lemma starts_with_qb p ns :
  components p = RootDir :: lexical (qb ++ ns) → starts_with p (render qb) = true.
Proof.
  intros Hp. apply starts_with_spec. rewrite Hp, components_render by apply qb_valid.
  unfold lexical. rewrite fmap_app. by exists (lexical ns).
Qed.

Lemma contained_loop_plain fuel a ns ts :
  length (components a) < fuel → a ≠ "" →
  components a = components base ++ lexical ns → Forall valid_name ts →
  (ts = [] → ∀ q e, lookup_path s true a ≠ WFound q e) →
  run_ok (contained_loop fuel (render qb) a (rel ts)) s = (Ok (render (qb ++ ns ++ ts)), s).
Proof.
  revert a ns ts. induction fuel as [|fuel IH]; intros a ns ts Hl Hne Ha Hv Hts; [lia|].
  cbn. rewrite run_ok_vis. cbn. destruct (lookup_path s true a) as [q e|d m|k] eqn:E; cbn.
  { pose proof (lookup_in_jail _ _ _ _ Ha E) as ->.
    pose proof (lookup_found_valid _ _ _ _ Hw E) as Hq.
    assert (ts ≠ []) as Hnil by (intros Hz; exact (Hts Hz _ _ eq_refl)).
    assert (Forall valid_name ((qb ++ ns) ++ ts)) as Hall by (apply Forall_app; auto).
    rewrite join_render_rel, <- app_assoc by done.
    rewrite (starts_with_qb _ (ns ++ ts)); [done|]. apply components_render. by rewrite app_assoc. }
  all: destruct ns as [|n ns _] using rev_ind;
    [exfalso; rewrite app_nil_r in Ha;
     rewrite (lookup_path_eq s true a base) in E;
       [congruence|done|by eapply lookup_found_nonempty|done]|].
  all: unfold lexical in Ha; rewrite fmap_app, app_assoc in Ha; cbn in Ha.
  all: assert (file_name a = Some n) as Hf by (unfold file_name; by rewrite Ha, last_snoc);
    destruct (components_parent _ _ _ Ha) as (d' & Hd & Hdc); rewrite Hf, Hd; cbn.
  all: pose proof (file_name_valid _ _ Hf) as Hnv.
  all: assert (d' ≠ "") as Hd'
    by (intros ->; symmetry in Hdc; apply app_eq_nil in Hdc as [Hdc _];
        by apply components_nil in Hdc; apply lookup_found_nonempty in Hb).
  all: rewrite rel_cons by done; rewrite Ha, length_app in Hl; cbn in Hl.
  all: rewrite <- (app_assoc ns); apply IH; try done; [rewrite Hdc; lia|by constructor].
Qed.

Lemma contained_plain parts :
  Forall valid_name parts →
  run_ok (contained base (foldl join base parts)) s = (Ok (render (qb ++ parts)), s).
Proof.
  intros Hv. pose proof (components_fold_join parts base Hv) as Hc.
  assert (foldl join base parts ≠ "") as Hne.
  { intros H. rewrite H in Hc. symmetry in Hc. apply app_eq_nil in Hc as [Hc _].
    by apply components_nil in Hc; apply lookup_found_nonempty in Hb. }
  pose proof (contained_loop_plain (contained_fuel (foldl join base parts))
    (foldl join base parts) parts [] ltac:(unfold contained_fuel; lia) Hne Hc) as Hloop.
  rewrite app_nil_r in Hloop.
  unfold contained. rewrite run_ok_bind, run_ok_ask. cbn [exec]. rewrite Hb. cbn [fst snd].
  rewrite run_ok_bind, run_ok_ask. cbn [exec].
  destruct (lookup_path s true (foldl join base parts)) as [q e| |] eqn:E; cbn [fst snd].
  - pose proof (lookup_in_jail _ _ _ _ Hc E) as ->.
    pose proof (lookup_found_valid _ _ _ _ Hw E) as Hvq.
    by rewrite (starts_with_qb _ parts) by auto using components_render.
  - apply Hloop; [constructor|congruence].
  - apply Hloop; [constructor|congruence].
Qed.
End plain_jail.

Lemma select_root_valid m v base parts :
  select_root m v = Ok (base, parts) → Forall valid_name parts.
Proof.
  unfold select_root. intros Hs. destruct (normalize v) as [ps|] eqn:E; [|done].
  apply normalize_valid in E. destruct (single_root m); [by simplify_eq/=|].
  destruct ps as [|cam rest]; [done|]. destruct (roots m !! cam); simplify_eq/=.
  by inversion E.
Qed.

Lemma resolve_selected s m v base parts qb :
  wf_fs s → no_symlinks (fs_tree s) →
  select_root m v = Ok (base, parts) → lookup_path s true base = WFound qb EDir →
  run_ok (resolve m v) s = (Ok (render (qb ++ parts)), s).
Proof.
  intros Hw Hn Hs Hb. rewrite resolve_select, Hs. apply contained_plain; [done..|].
  by eapply select_root_valid.
Qed.

(** Completeness: in a jail without symbolic links every virtual path that
    selects an existing root is accepted, and answers the root's canonical
    directory followed by exactly the names asked for, present or not. *)
Theorem resolve_plain s m v base parts qb :
  wf_fs s → no_symlinks (fs_tree s) →
  select_root m v = Ok (base, parts) → lookup_path s true base = WFound qb EDir →
  run_ok (resolve m v) s = (Ok (render (qb ++ parts)), s).
Proof. apply resolve_selected. Qed.
