(* ===== verification/Crypto.v ===== *)
(** [crypto.rs]: the age (X25519) helpers, over an interface of the age crate.

    The age library is a parameter: [AgeLib] lists the operations the source
    calls, [AgeLaws] the documented behaviour the theorems rely on (what one of
    the recipients decrypts is what was encrypted).  Its randomness is the
    [Seed] argument.  A stream writer is a state that turns each plaintext write
    into the writes it performs on the file below. *)
From S2P Require Import Prelude StdPath StdFs Prog FsView.

Class AgeLib : Type := {
  Recipient : Type;
  Identity : Type;
  Seed : Type;
  Encryptor : Type;
  StreamWriter : Type;
  recipient_from_str : string → result Recipient string;
  identity_from_str : string → result Identity string;
  identity_generate : Seed → Identity;
  to_public : Identity → Recipient;
  recipient_to_string : Recipient → string;
  identity_to_string : Identity → string;
  with_recipients : Seed → list Recipient → result Encryptor string;
  wrap_output : Encryptor → StreamWriter * list bytes;
  stream_write : StreamWriter → bytes → StreamWriter * list bytes;
  stream_finish : StreamWriter → list bytes;
  (** Plaintext reads of a decrypted stream, and how the last one ends. *)
  decryptor : Identity → bytes → result (list bytes * option string) string;
  (** The text of an I/O error. *)
  io_to_string : Io.ErrorKind → string
}.

(** All writes a stream writer makes for a sequence of plaintext writes. *)
Fixpoint stream_writes `{AgeLib} (sw : StreamWriter) (chunks : list bytes) : list bytes * StreamWriter :=
  match chunks with
  | [] => ([], sw)
  | c :: rest =>
      let '(sw', out) := stream_write sw c in
      let '(outs, sw'') := stream_writes sw' rest in
      (out ++ outs, sw'')
  end.

(** The whole ciphertext of a plaintext read in the given chunks. *)
Definition ciphertext `{AgeLib} (enc : Encryptor) (chunks : list bytes) : list bytes :=
  let '(sw, header) := wrap_output enc in
  let '(outs, sw') := stream_writes sw chunks in
  header ++ outs ++ stream_finish sw'.

Class AgeLaws `{AgeLib} : Prop := {
  age_decrypts id seed recs enc chunks :
    to_public id ∈ recs → with_recipients seed recs = Ok enc →
    ∃ cs, decryptor id (concat (ciphertext enc chunks)) = Ok (cs, None) ∧
      concat cs = concat chunks ∧ Forall (λ c, c ≠ []) cs;
  age_recipient_roundtrip r : recipient_from_str (recipient_to_string r) = Ok r;
  age_key_text r : graphic (recipient_to_string r) = true;
  age_identity_roundtrip id : identity_from_str (identity_to_string id) = Ok id;
  age_identity_text id : graphic (identity_to_string id) = true ∧
    starts_with_str "AGE-SECRET-KEY-" (identity_to_string id) = true
}.

Inductive CryptoError : Type :=
| CERecipient (e : string)
| CEIdentity (e : string)
| CEEncrypt (e : string)
| CEDecrypt (e : string)
| CEIo (k : Io.ErrorKind).

Section crypto.
Context `{AgeLib}.

(** [Display for CryptoError]. *)
Definition crypto_error_to_string (e : CryptoError) : string :=
  match e with
  | CERecipient e => "invalid age recipient: " +:+ e
  | CEIdentity e => "invalid age identity: " +:+ e
  | CEEncrypt e => "encryption failed: " +:+ e
  | CEDecrypt e => "decryption failed: " +:+ e
  | CEIo k => "io error: " +:+ io_to_string k
  end.

Definition parse_recipients (strs : list string) : result (list Recipient) CryptoError :=
  collect ((λ s, map_err (λ e, CERecipient (s +:+ ": " +:+ e))
                   (recipient_from_str (trim s))) <$> strs).

(** The public and the secret key, as text. *)
Definition generate_identity (seed : Seed) : string * string :=
  let id := identity_generate seed in
  (recipient_to_string (to_public id), identity_to_string id).

(** [write_all] of each piece in turn. *)
Fixpoint write_pieces (fd : nat) (pieces : list bytes) : prog (io unit) :=
  match pieces with
  | [] => Ret (Ok tt)
  | b :: rest => try! _ := ask (Write fd b) in write_pieces fd rest
  end.

(** [io::copy] of the plaintext into the stream writer. *)
Fixpoint encrypt_copy (fd : nat) (sw : StreamWriter) (chunks : list bytes)
    (fin : option Io.ErrorKind) (total : Z) : prog (io (Z * StreamWriter)) :=
  match chunks with
  | [] => Ret (match fin with None => Ok (total, sw) | Some k => Err k end)
  | c :: rest =>
      let '(sw', out) := stream_write sw c in
      try! _ := write_pieces fd out in
      encrypt_copy fd sw' rest fin (total + Z.of_nat (length c))
  end.

Definition encrypt_stream (seed : Seed) (recipients : list Recipient) (reader : Input) (fd : nat)
    : prog (result Z CryptoError) :=
  match with_recipients seed recipients with
  | Err e => Ret (Err (CEEncrypt e))
  | Ok encryptor =>
      let '(sw, header) := wrap_output encryptor in
      let! r := write_pieces fd header in
      match r with
      | Err k => Ret (Err (CEEncrypt (io_to_string k)))
      | Ok _ =>
          let! r := encrypt_copy fd sw (in_chunks reader) (in_end reader) 0 in
          match r with
          | Err k => Ret (Err (CEIo k))
          | Ok (n, sw') =>
              let! r := write_pieces fd (stream_finish sw') in
              match r with
              | Err k => Ret (Err (CEEncrypt (io_to_string k)))
              | Ok _ =>
                  let! r := ask (Flush fd) in
                  Ret (match r with Ok _ => Ok n | Err k => Err (CEIo k) end)
              end
          end
      end
  end.

(** The read loop of [decrypt_stream]: it ends at the first empty read. *)
Fixpoint decrypt_loop (wr : nat) (reads : list bytes) (fin : option string) (total : Z)
    : prog (result Z CryptoError) :=
  match reads with
  | [] => Ret (match fin with None => Ok total | Some e => Err (CEDecrypt e) end)
  | buf :: rest =>
      if decide (buf = []) then Ret (Ok total)
      else
        let! r := ask (Write wr buf) in
        match r with
        | Err k => Ret (Err (CEIo k))
        | Ok _ => decrypt_loop wr rest fin (total + Z.of_nat (length buf))
        end
  end.

Definition decrypt_stream (identity : Identity) (rd wr : nat) : prog (result Z CryptoError) :=
  let! r := ask (ReadToEnd rd) in
  match r with
  | Err k => Ret (Err (CEDecrypt (io_to_string k)))
  | Ok ct =>
      match decryptor identity ct with
      | Err e => Ret (Err (CEDecrypt e))
      | Ok (reads, fin) => decrypt_loop wr reads fin 0
      end
  end.

(** ** Properties *)

Lemma parse_recipients_length strs rs :
  parse_recipients strs = Ok rs → length rs = length strs.
Proof.
  unfold parse_recipients. intros Hc%collect_Ok.
  apply (f_equal length) in Hc. by rewrite !length_fmap in Hc.
Qed.

(** All keys parse, or the answer is the first one that does not, with its text. *)
Lemma parse_recipients_error strs e :
  parse_recipients strs = Err e →
  ∃ pre s post m, strs = pre ++ s :: post ∧ recipient_from_str (trim s) = Err m ∧
    e = CERecipient (s +:+ ": " +:+ m) ∧
    Forall (λ s, is_ok (recipient_from_str (trim s)) = true) pre.
Proof.
  unfold parse_recipients. induction strs as [|s strs IH]; cbn; [done|].
  destruct (recipient_from_str (trim s)) as [r|m] eqn:E; cbn.
  - destruct (collect _) as [l|e'] eqn:Ec; [done|]. intros [= ->].
    destruct (IH eq_refl) as (pre & s' & post & m & -> & Hm & -> & Hf).
    exists (s :: pre), s', post, m. repeat split; [done|]. constructor; [by rewrite E|done].
  - intros [= <-]. exists [], s, strs, m. by repeat split.
Qed.

Lemma write_pieces_ops (P : ∀ T : Type, Sys T → Prop) fd pieces :
  (∀ b, b ∈ pieces → P unit (Write fd b)) → all_ops P (write_pieces fd pieces).
Proof.
  induction pieces as [|b rest IH]; cbn; [done|]. intros HP. split; [apply HP; by left|].
  intros [[]|k]; cbn; [|done]. apply IH. intros b' Hb. apply HP. by right.
Qed.

Lemma encrypt_stream_on_fd seed recs input fd : all_ops on_fd (encrypt_stream seed recs input fd).
Proof.
  assert (∀ ps, all_ops on_fd (write_pieces fd ps)) as Hw by (intros; by apply write_pieces_ops).
  assert (∀ sw chunks fin t, all_ops on_fd (encrypt_copy fd sw chunks fin t)) as Hc.
  { intros sw chunks fin. revert sw. induction chunks as [|c l IH]; intros sw t; cbn [encrypt_copy]; ops. }
  unfold encrypt_stream; ops.
Qed.

(** Pieces the library emits for some plaintext. *)
Inductive age_output : bytes → Prop :=
| out_header enc b : b ∈ (wrap_output enc).2 → age_output b
| out_body sw c b : b ∈ (stream_write sw c).2 → age_output b
| out_final sw b : b ∈ stream_finish sw → age_output b.

Definition writes_ciphertext (T : Type) (e : Sys T) : Prop :=
  match e with Write _ b => age_output b | _ => True end.

Lemma encrypt_copy_ops fd sw chunks fin total :
  all_ops writes_ciphertext (encrypt_copy fd sw chunks fin total).
Proof.
  revert sw total. induction chunks as [|c rest IH]; intros sw total; cbn; [done|].
  destruct (stream_write sw c) as [sw' out] eqn:E. apply all_ops_bind.
  - apply write_pieces_ops. intros b Hb. cbn. apply (out_body sw c). by rewrite E.
  - intros [[]|k]; cbn; auto.
Qed.

Lemma encrypt_stream_ops seed recs reader fd :
  all_ops writes_ciphertext (encrypt_stream seed recs reader fd).
Proof.
  unfold encrypt_stream. destruct (with_recipients seed recs) as [enc|]; [|done].
  destruct (wrap_output enc) as [sw header] eqn:E. apply all_ops_bind.
  { apply write_pieces_ops. intros b Hb. apply (out_header enc). by rewrite E. }
  intros [[]|k]; [|done]. apply all_ops_bind; [apply encrypt_copy_ops|].
  intros [[n sw']|k]; [|done]. apply all_ops_bind.
  { apply write_pieces_ops. intros b Hb. by apply (out_final sw'). }
  intros [[]|k]; [|done]. by repeat split.
Qed.

(** *** What reaches the file *)

Lemma write_pieces_spec fd i pieces s h :
  fs_fds s !! fd = Some h → at_end h i s →
  ∃ s', run_ok (write_pieces fd pieces) s = (Ok tt, s') ∧ wrote fd i (concat pieces) s s'.
Proof.
  revert s h. induction pieces as [|b rest IH]; intros s h Hfd Hh; cbn [write_pieces concat].
  { exists s. split; [done|]. by eapply wrote_nil. }
  rewrite run_ok_bind, run_ok_ask. destruct (write_end fd i b s h Hfd Hh) as (s1 & -> & Hw1).
  cbn [fst snd]. destruct (wr_fd _ _ _ _ _ Hw1) as (h1 & Hfd1 & Hh1).
  destruct (IH s1 h1 Hfd1 Hh1) as (s2 & -> & Hw2). exists s2. split; [done|]. by eapply wrote_trans.
Qed.

Lemma encrypt_copy_spec fd i sw chunks t s h :
  fs_fds s !! fd = Some h → at_end h i s →
  ∃ s', run_ok (encrypt_copy fd sw chunks None t) s =
      (Ok ((t + Z.of_nat (length (concat chunks)))%Z, (stream_writes sw chunks).2), s') ∧
    wrote fd i (concat (stream_writes sw chunks).1) s s'.
Proof.
  revert sw t s h. induction chunks as [|c rest IH]; intros sw t s h Hfd Hh;
    cbn [encrypt_copy stream_writes concat fst snd].
  { exists s. split; [|by eapply wrote_nil]. by rewrite run_ok_ret, Z.add_0_r. }
  destruct (stream_write sw c) as [sw' out] eqn:E.
  rewrite run_ok_bind. destruct (write_pieces_spec fd i out s h Hfd Hh) as (s1 & -> & Hw1).
  cbn [fst snd]. destruct (wr_fd _ _ _ _ _ Hw1) as (h1 & Hfd1 & Hh1).
  destruct (IH sw' (t + Z.of_nat (length c))%Z s1 h1 Hfd1 Hh1) as (s2 & -> & Hw2). exists s2.
  destruct (stream_writes sw' rest) as [outs sw''] eqn:E2. cbn [fst snd] in *.
  rewrite concat_app, length_app, Nat2Z.inj_add, Z.add_assoc. split; [done|].
  by eapply wrote_trans.
Qed.

(** A whole plaintext through the encryptor: the file receives exactly the
    ciphertext, the answer is the length of the plaintext. *)
Lemma encrypt_stream_spec seed recs enc input fd i s h :
  with_recipients seed recs = Ok enc → in_end input = None →
  fs_fds s !! fd = Some h → at_end h i s →
  ∃ s', run_ok (encrypt_stream seed recs input fd) s =
      (Ok (Z.of_nat (length (concat (in_chunks input)))), s') ∧
    wrote fd i (concat (ciphertext enc (in_chunks input))) s s'.
Proof.
  intros Henc Hend Hfd Hh. unfold encrypt_stream, ciphertext. rewrite Henc, Hend.
  destruct (wrap_output enc) as [sw header] eqn:E.
  rewrite run_ok_bind. destruct (write_pieces_spec fd i header s h Hfd Hh) as (s1 & -> & Hw1).
  cbn [fst snd]. destruct (wr_fd _ _ _ _ _ Hw1) as (h1 & Hfd1 & Hh1).
  rewrite run_ok_bind. destruct (encrypt_copy_spec fd i sw (in_chunks input) 0 s1 h1 Hfd1 Hh1) as (s2 & -> & Hw2).
  destruct (stream_writes sw (in_chunks input)) as [outs sw'] eqn:E2. cbn [fst snd] in *.
  destruct (wr_fd _ _ _ _ _ Hw2) as (h2 & Hfd2 & Hh2).
  rewrite run_ok_bind. destruct (write_pieces_spec fd i (stream_finish sw') s2 h2 Hfd2 Hh2) as (s3 & -> & Hw3).
  cbn [fst snd]. exists s3. rewrite run_ok_bind, run_ok_ask. split; [done|].
  rewrite !concat_app. by eapply wrote_trans, wrote_trans.
Qed.
End crypto.
