(* ===== verification/Config.v ===== *)
(** [config.rs]: the configuration, its validation and its loading.

    TOML parsing is the [toml] crate and a parameter of [load]; what is modelled
    is the data it fills, the conversion of a viewer scope, and [validate]. *)
From S2P Require Import Prelude StdPath StdFs Prog Crypto.

Inductive ConfigError : Type :=
| CRead (e : string)
| CParse (e : string)
| CInvalid (e : string).

Definition config_error_to_string (e : ConfigError) : string :=
  match e with
  | CRead e => "reading config: " +:+ e
  | CParse e => "parsing config: " +:+ e
  | CInvalid e => "invalid config: " +:+ e
  end.

Record EncryptionCfg : Type := mkEncryptionCfg { recipients : list string }.

(** [u16], [u32] and [u64] fields are integers in range. *)
Record ServerCfg : Type := mkServerCfg {
  listen : string;
  port : Z;
  passive_ports : Z * Z;
  passive_host : option string;
  greeting : option string;
  tls_cert : option string;
  tls_key : option string
}.

Record ArchiveCfg : Type := mkArchiveCfg { root : string; retention_days : Z }.

Record LockoutCfg : Type := mkLockoutCfg {
  max_attempts : Z;
  window_secs : Z;
  ban_secs : Z
}.

Record LimitsCfg : Type := mkLimitsCfg {
  max_connections : Z;
  max_connections_per_ip : Z;
  new_conns_per_min_per_ip : Z;
  idle_timeout_secs : Z;
  min_transfer_rate_bytes_per_sec : Z;
  failed_login_lockout : LockoutCfg;
  max_connections_per_account : option Z
}.

Record CameraCfg : Type := mkCameraCfg {
  cam_name : string;
  cam_username : option string;
  upload_password_hash : string;
  cam_require_tls : option bool
}.

Inductive Scope : Type :=
| All
| ScopeList (items : list string).

Record ViewerCfg : Type := mkViewerCfg {
  viewer_name : string;
  viewer_password_hash : string;
  viewer_scope : Scope
}.

Record Config : Type := mkConfig {
  server : ServerCfg;
  archive : ArchiveCfg;
  limits : LimitsCfg;
  camera : list CameraCfg;
  group : gmap string (list string);
  viewer : list ViewerCfg;
  encryption : option EncryptionCfg
}.

(** The untagged intermediate form of a scope, and its conversion. *)
Inductive ScopeRepr : Type :=
| ReprStr (s : string)
| ReprList (v : list string).

Definition scope_deserialize (r : ScopeRepr) : result Scope string :=
  match r with
  | ReprStr s =>
      if decide (s = "all") then Ok All
      else Err ("expected " +:+ dquote +:+ "all" +:+ dquote
                +:+ " or an array of strings, got " +:+ dquote +:+ s +:+ dquote)
  | ReprList v => Ok (ScopeList v)
  end.

(** [CameraCfg::login]. *)
Definition cam_login (c : CameraCfg) : string := default (cam_name c) (cam_username c).

Abbreviation validation := (result unit ConfigError).

(** First loop of [validate]: camera names and logins are unique.  Answers the
    names and the logins seen. *)
Fixpoint check_cameras (names logins : gset string) (cams : list CameraCfg)
    : result (gset string * gset string) ConfigError :=
  match cams with
  | [] => Ok (names, logins)
  | cam :: rest =>
      if decide (cam_name cam ∈ names) then
        Err (CInvalid ("duplicate camera name " +:+ cam_name cam))
      else if decide (cam_login cam ∈ logins) then
        Err (CInvalid ("duplicate username " +:+ cam_login cam))
      else check_cameras ({[cam_name cam]} ∪ names) ({[cam_login cam]} ∪ logins) rest
  end.

Fixpoint check_members (names : gset string) (g : string) (members : list string) : validation :=
  match members with
  | [] => Ok tt
  | m :: rest =>
      if decide (m ∈ names) then check_members names g rest
      else Err (CInvalid ("group " +:+ g +:+ " references unknown camera " +:+ m))
  end.

Fixpoint check_groups (names : gset string) (groups : list (string * list string)) : validation :=
  match groups with
  | [] => Ok tt
  | (g, members) :: rest =>
      let? _ := check_members names g members in
      check_groups names rest
  end.

Fixpoint check_viewer_names (viewer_names logins : gset string) (vs : list ViewerCfg) : validation :=
  match vs with
  | [] => Ok tt
  | v :: rest =>
      if decide (viewer_name v ∈ viewer_names) then
        Err (CInvalid ("duplicate viewer name " +:+ viewer_name v))
      else if decide (viewer_name v ∈ logins) then
        Err (CInvalid ("viewer name " +:+ viewer_name v +:+ " collides with a camera login"))
      else check_viewer_names ({[viewer_name v]} ∪ viewer_names) logins rest
  end.

Fixpoint check_scope_items (names : gset string) (groups : gmap string (list string))
    (v : string) (items : list string) : validation :=
  match items with
  | [] => Ok tt
  | it :: rest =>
      if decide (it ∉ names ∧ groups !! it = None) then
        Err (CInvalid ("viewer " +:+ v +:+ " scope references unknown " +:+ it))
      else check_scope_items names groups v rest
  end.

Fixpoint check_scopes (names : gset string) (groups : gmap string (list string))
    (vs : list ViewerCfg) : validation :=
  match vs with
  | [] => Ok tt
  | v :: rest =>
      let? _ := match viewer_scope v with
                | All => Ok tt
                | ScopeList items => check_scope_items names groups (viewer_name v) items
                end in
      check_scopes names groups rest
  end.

Section config.
Context `{AgeLib}.

Definition check_encryption (enc : option EncryptionCfg) : validation :=
  match enc with
  | None => Ok tt
  | Some enc =>
      if decide (recipients enc = []) then
        Err (CInvalid "[encryption].recipients must be non-empty")
      else
        match parse_recipients (recipients enc) with
        | Ok _ => Ok tt
        | Err e => Err (CInvalid ("[encryption]: " +:+ crypto_error_to_string e))
        end
  end.

Definition validate (c : Config) : validation :=
  if decide ((passive_ports (server c)).1 > (passive_ports (server c)).2)%Z then
    Err (CInvalid "passive_ports must be ordered")
  else
    let? (names, logins) := check_cameras ∅ ∅ (camera c) in
    let? _ := check_groups names (btree_iter (group c)) in
    let? _ := check_viewer_names ∅ logins (viewer c) in
    let? _ := check_scopes names (group c) (viewer c) in
    check_encryption (encryption c).

(** What an accepted configuration promises. *)
Record valid_config (c : Config) : Prop := {
  vc_ports : ((passive_ports (server c)).1 ≤ (passive_ports (server c)).2)%Z;
  vc_names : NoDup (cam_name <$> camera c);
  vc_logins : NoDup (cam_login <$> camera c);
  vc_groups g ms m : group c !! g = Some ms → m ∈ ms → m ∈ cam_name <$> camera c;
  vc_viewers : NoDup (viewer_name <$> viewer c);
  vc_disjoint v : v ∈ viewer_name <$> viewer c → v ∉ cam_login <$> camera c;
  vc_scopes v items it :
    v ∈ viewer c → viewer_scope v = ScopeList items → it ∈ items →
    it ∈ cam_name <$> camera c ∨ is_Some (group c !! it);
  vc_encryption enc :
    encryption c = Some enc →
    recipients enc ≠ [] ∧ is_ok (parse_recipients (recipients enc)) = true
}.

Section load.
Context (toml_from_str : string → result Config string).

Definition parse_str (s : string) : result Config ConfigError :=
  map_err CParse (toml_from_str s).

Definition load (path : string) : prog (result Config ConfigError) :=
  let! r := ask (ReadToString path) in
  Ret (let? s := map_err (λ k, CRead (io_to_string k)) r in
       let? c := parse_str s in
       let? _ := validate c in
       Ok c).
End load.

(** ** Lemmas: each check decides its condition *)

Lemma check_cameras_spec names logins cams names' logins' :
  check_cameras names logins cams = Ok (names', logins') ↔
  NoDup (cam_name <$> cams) ∧ NoDup (cam_login <$> cams) ∧
  (∀ n, n ∈ cam_name <$> cams → n ∉ names) ∧ (∀ n, n ∈ cam_login <$> cams → n ∉ logins) ∧
  names' = list_to_set (cam_name <$> cams) ∪ names ∧
  logins' = list_to_set (cam_login <$> cams) ∪ logins.
Proof.
  revert names logins. induction cams as [|cam rest IH]; intros names logins; cbn.
  { split.
    - intros [= <- <-]. repeat split; try constructor; try set_solver.
    - intros (_ & _ & _ & _ & -> & ->). f_equal. f_equal; set_solver. }
  repeat case_decide.
  - split; [done|]. intros (_ & _ & Hx & _). exfalso. apply (Hx (cam_name cam)); set_solver.
  - split; [done|]. intros (_ & _ & _ & Hx & _). exfalso. apply (Hx (cam_login cam)); set_solver.
  - rewrite IH, !NoDup_cons. split.
    + intros (Hn & Hl & Hnn & Hll & -> & ->). repeat split; try done; try set_solver.
    + intros ([Hn1 Hn] & [Hl1 Hl] & Hnn & Hll & -> & ->).
      repeat split; try done; try set_solver.
Qed.

Lemma check_members_spec names g ms :
  check_members names g ms = Ok tt ↔ ∀ m, m ∈ ms → m ∈ names.
Proof.
  induction ms as [|m ms IH]; cbn; [set_solver|].
  case_decide; [rewrite IH; set_solver|]. split; [done|]. intros Hm. set_solver.
Qed.

Lemma check_groups_spec names groups :
  check_groups names groups = Ok tt ↔
  ∀ g ms m, (g, ms) ∈ groups → m ∈ ms → m ∈ names.
Proof.
  induction groups as [|[g ms] rest IH]; cbn; [set_solver|].
  pose proof (check_members_spec names g ms) as Hm.
  destruct (check_members names g ms) as [[]|e].
  - rewrite IH. destruct Hm as [Hm _]. specialize (Hm eq_refl). split.
    + intros Hr g' ms' m [[= -> ->]|Hg]%elem_of_cons ?; eauto.
    + intros Hr g' ms' m Hg. apply (Hr g' ms' m). by right.
  - split; [done|]. intros Hr. destruct Hm as [_ Hm]. discriminate Hm.
    intros m. apply (Hr g ms). by left.
Qed.

Lemma check_viewer_names_spec seen logins vs :
  check_viewer_names seen logins vs = Ok tt ↔
  NoDup (viewer_name <$> vs) ∧
  (∀ n, n ∈ viewer_name <$> vs → n ∉ seen) ∧ (∀ n, n ∈ viewer_name <$> vs → n ∉ logins).
Proof.
  revert seen. induction vs as [|v vs IH]; intros seen; cbn.
  { split; [|done]. repeat split; [constructor|set_solver..]. }
  repeat case_decide.
  - split; [done|]. intros (_ & Hx & _). exfalso. apply (Hx (viewer_name v)); set_solver.
  - split; [done|]. intros (_ & _ & Hx). exfalso. apply (Hx (viewer_name v)); set_solver.
  - rewrite IH, NoDup_cons. split.
    + intros (Hn & Hs & Hl). repeat split; try done; set_solver.
    + intros ([Hn1 Hn] & Hs & Hl). repeat split; try done; set_solver.
Qed.

Lemma check_scope_items_spec names groups v items :
  check_scope_items names groups v items = Ok tt ↔
  ∀ it, it ∈ items → it ∈ names ∨ is_Some (groups !! it).
Proof.
  induction items as [|it items IH]; cbn; [set_solver|]. case_decide as Hd.
  - split; [done|]. intros Hi. exfalso. destruct (Hi it) as [?|[? ?]]; [by left|naive_solver..].
  - rewrite IH. split.
    + intros Hi it' [->|?]%elem_of_cons; [|auto].
      destruct (decide (it ∈ names)); [by left|]. right.
      apply not_eq_None_Some. naive_solver.
    + intros Hi it' ?. apply Hi. by right.
Qed.

Lemma check_scopes_spec names groups vs :
  check_scopes names groups vs = Ok tt ↔
  ∀ v items it, v ∈ vs → viewer_scope v = ScopeList items → it ∈ items →
    it ∈ names ∨ is_Some (groups !! it).
Proof.
  induction vs as [|v vs IH]; cbn; [set_solver|].
  assert (match viewer_scope v with
          | All => Ok tt
          | ScopeList items => check_scope_items names groups (viewer_name v) items
          end = Ok tt ↔
          ∀ items it, viewer_scope v = ScopeList items → it ∈ items →
            it ∈ names ∨ is_Some (groups !! it)) as Hv.
  { destruct (viewer_scope v) as [|items]; [naive_solver|].
    rewrite check_scope_items_spec. naive_solver. }
  destruct (match viewer_scope v with
            | All => Ok tt
            | ScopeList items => check_scope_items names groups (viewer_name v) items
            end) as [[]|e].
  - rewrite IH. destruct Hv as [Hv _]. specialize (Hv eq_refl). split.
    + intros Hr v' items it [->|?]%elem_of_cons; eauto.
    + intros Hr v' items it ?. apply Hr. by right.
  - split; [done|]. intros Hr. destruct Hv as [_ Hv]. discriminate Hv.
    intros items it. apply Hr. by left.
Qed.

Lemma check_encryption_spec enc :
  check_encryption enc = Ok tt ↔
  ∀ e, enc = Some e → recipients e ≠ [] ∧ is_ok (parse_recipients (recipients e)) = true.
Proof.
  destruct enc as [e|]; cbn; [|naive_solver]. case_decide; [naive_solver|].
  destruct (parse_recipients (recipients e)) eqn:E; split; try done.
  - intros _ e' [= <-]. by rewrite E.
  - intros He. destruct (He e eq_refl) as [_ He']. by rewrite E in He'.
Qed.

(** The checks after the cameras, whose names and logins are known. *)
Lemma validate_rest_spec c names logins :
  (let? _ := check_groups names (btree_iter (group c)) in
   let? _ := check_viewer_names ∅ logins (viewer c) in
   let? _ := check_scopes names (group c) (viewer c) in
   check_encryption (encryption c)) = Ok tt ↔
  check_groups names (btree_iter (group c)) = Ok tt ∧
  check_viewer_names ∅ logins (viewer c) = Ok tt ∧
  check_scopes names (group c) (viewer c) = Ok tt ∧
  check_encryption (encryption c) = Ok tt.
Proof.
  destruct (check_groups _ _) as [[]|]; [|split; [done|by intros []]].
  destruct (check_viewer_names _ _ _) as [[]|]; [|split; [done|by intros (_ & ? & _)]].
  destruct (check_scopes _ _ _) as [[]|]; [|split; [done|by intros (_ & _ & ? & _)]].
  split; [done|by intros (_ & _ & _ & ?)].
Qed.

Lemma validate_iff c : validate c = Ok tt ↔ valid_config c.
Proof.
  unfold validate. case_decide as Hp.
  { split; [done|]. intros []. lia. }
  pose proof (check_cameras_spec ∅ ∅ (camera c)) as Hc.
  destruct (check_cameras ∅ ∅ (camera c)) as [[names logins]|e].
  - destruct (proj1 (Hc names logins) eq_refl) as (Hn & Hl & _ & _ & -> & ->). clear Hc.
    rewrite validate_rest_spec, check_groups_spec, check_viewer_names_spec,
      check_scopes_spec, check_encryption_spec.
    setoid_rewrite btree_iter_spec. rewrite !union_empty_r_L.
    setoid_rewrite elem_of_list_to_set. split.
    + intros (Hg & (Hv & _ & Hvl) & Hs & He). split; auto with lia.
    + intros [? ? ? Hg Hv Hd Hs He]. split; [done|]. split; [|done].
      split; [done|]. split; [set_solver|done].
  - split; [done|]. intros [_ Hn Hl _ _ _ _ _].
    specialize (Hc (list_to_set (cam_name <$> camera c) ∪ ∅)
                   (list_to_set (cam_login <$> camera c) ∪ ∅)) as [_ Hc].
    discriminate Hc. repeat split; try done; set_solver.
Qed.

(** A loaded configuration is what the parser answered. *)
Lemma load_parsed toml path w c w' :
  run (load toml path) w = (Ok c, w') → ∃ s, toml s = Ok c.
Proof.
  unfold load. cbn. destruct (perform _ w).1 as [s|k]; cbn; [|done].
  unfold parse_str. destruct (toml s) as [c'|] eqn:Et; cbn; [|done].
  destruct (validate c') as [[]|]; [|done]. intros [= <- _]. eauto.
Qed.

(** Loading answers a configuration only when it satisfies [valid_config]. *)
Lemma load_valid toml path w c w' :
  run (load toml path) w = (Ok c, w') → valid_config c.
Proof.
  unfold load. cbn. destruct (perform _ w).1 as [s|k]; cbn; [|done].
  destruct (parse_str toml s) as [c'|]; [|done].
  destruct (validate c') as [[]|] eqn:E; [|done].
  intros [= <- _]. by apply validate_iff.
Qed.

(** C28. Validation accepts exactly the configurations that satisfy every promise
    of [valid_config]: unique names and logins, no viewer shadowing a camera,
    only known cameras and groups referenced, ordered ports, parsing keys. *)
Theorem validate_spec c : validate c = Ok tt ↔ valid_config c.
Proof. apply validate_iff. Qed.
End config.
