(* ===== verification/Account.v ===== *)
(** [account.rs]: the accounts a configuration defines, keyed by login, with
    the role and the file-system scope of each. *)
From S2P Require Import Prelude StdPath StdFs Prog Paths Crypto Config.

Inductive Role : Type :=
| Uploader (home : string)
| Viewer (scope : ScopeMap).

Record Account : Type := mkAccount {
  username : string;
  password_hash : string;
  role : Role;
  require_tls : bool
}.

Record Accounts : Type := mkAccounts { by_login : gmap string Account }.

Definition get (a : Accounts) (login : string) : option Account := by_login a !! login.

(** Names one item of a scope list stands for: a group's members if there is a
    group of that name, the camera of that name otherwise. *)
Definition scope_item_names (groups : gmap string (list string)) (it : string) : list string :=
  match groups !! it with Some members => members | None => [it] end.

Definition scope_names (groups : gmap string (list string)) (items : list string) : gset string :=
  foldl (λ names it, list_to_set (scope_item_names groups it) ∪ names) ∅ items.

Definition expand_scope (cfg : Config) (scope : Scope) : ScopeMap :=
  match scope with
  | All => single (root (archive cfg))
  | ScopeList items =>
      multi (set_to_map (λ n, (n, join (root (archive cfg)) n)) (scope_names (group cfg) items))
  end.

Definition camera_account (cfg : Config) (cam : CameraCfg) : Account :=
  mkAccount (cam_login cam) (upload_password_hash cam)
    (Uploader (join (root (archive cfg)) (cam_name cam)))
    (default false (cam_require_tls cam)).

Definition viewer_account (cfg : Config) (v : ViewerCfg) : Account :=
  mkAccount (viewer_name v) (viewer_password_hash v)
    (Viewer (expand_scope cfg (viewer_scope v))) false.

Definition build (cfg : Config) : Accounts :=
  let m1 := foldl (λ m cam, <[cam_login cam := camera_account cfg cam]> m) ∅ (camera cfg) in
  mkAccounts (foldl (λ m v, <[viewer_name v := viewer_account cfg v]> m) m1 (viewer cfg)).

(** ** Lemmas *)

Lemma fold_insert_notin {A} (key : A → string) (val : A → Account) l (m : gmap string Account) k :
  k ∉ key <$> l → foldl (λ m x, <[key x := val x]> m) m l !! k = m !! k.
Proof.
  revert m. induction l as [|x l IH]; intros m; cbn; [done|].
  intros Hk%not_elem_of_cons. rewrite IH by naive_solver. rewrite lookup_insert_ne; naive_solver.
Qed.

(** With unique keys the fold holds exactly the elements' entries and, for
    other keys, the map it started from. *)
Lemma fold_insert_lookup {A} (key : A → string) (val : A → Account) l (m : gmap string Account) k a :
  NoDup (key <$> l) →
  foldl (λ m x, <[key x := val x]> m) m l !! k = Some a ↔
  (∃ x, x ∈ l ∧ k = key x ∧ a = val x) ∨ (k ∉ key <$> l ∧ m !! k = Some a).
Proof.
  revert m. induction l as [|x l IH]; intros m; cbn.
  { intros _. split; [|naive_solver set_solver]. intros ?. right. split; [apply not_elem_of_nil|done]. }
  intros [Hx Hl]%NoDup_cons. rewrite IH by done. rewrite not_elem_of_cons. split.
  - intros [(y & ? & ?)|[Hk Hm]]; [left; exists y; set_solver|].
    apply lookup_insert_Some in Hm as [[<- <-]|[? ?]]; [left; exists x; set_solver|].
    right. naive_solver.
  - intros [(y & [->|Hy]%elem_of_cons & -> & ->)|[[? ?] ?]].
    + right. split; [done|]. by rewrite lookup_insert_eq.
    + left. eauto.
    + right. split; [done|]. by rewrite lookup_insert_ne.
Qed.

Lemma scope_names_acc groups items (acc : gset string) n :
  n ∈ foldl (λ names it, list_to_set (scope_item_names groups it) ∪ names) acc items ↔
  n ∈ acc ∨ ∃ it, it ∈ items ∧ n ∈ scope_item_names groups it.
Proof.
  revert acc. induction items as [|it items IH]; intros acc; cbn.
  { split; [auto|]. intros [?|(it & H & _)]; [done|]. by apply elem_of_nil in H. }
  rewrite IH, elem_of_union, elem_of_list_to_set. setoid_rewrite elem_of_cons. naive_solver.
Qed.

Lemma scope_names_spec groups items n :
  n ∈ scope_names groups items ↔ ∃ it, it ∈ items ∧ n ∈ scope_item_names groups it.
Proof. unfold scope_names. rewrite scope_names_acc. set_solver. Qed.

Lemma expand_scope_lookup cfg items n p :
  roots (expand_scope cfg (ScopeList items)) !! n = Some p ↔
  n ∈ scope_names (group cfg) items ∧ p = join (root (archive cfg)) n.
Proof.
  cbn. rewrite lookup_set_to_map by (intros ? ? _ _ ?; by simplify_eq/=). naive_solver.
Qed.

Lemma build_get `{AgeLib} cfg login a :
  valid_config cfg →
  get (build cfg) login = Some a ↔
  (∃ cam, cam ∈ camera cfg ∧ login = cam_login cam ∧ a = camera_account cfg cam) ∨
  (∃ v, v ∈ viewer cfg ∧ login = viewer_name v ∧ a = viewer_account cfg v).
Proof.
  intros Hv. unfold get, build. cbn.
  rewrite fold_insert_lookup by apply Hv. rewrite fold_insert_lookup by apply Hv.
  rewrite lookup_empty. split; [naive_solver|].
  intros [(cam & Hc & -> & ->)|?]; [|by left]. right. split; [|left; eauto].
  intros Hin. eapply vc_disjoint; [done..|]. apply list_elem_of_fmap. eauto.
Qed.

(** ** Properties *)

Section account.
Context `{AgeLib}.

(** Under a valid configuration the account table holds exactly one account
    per camera, under its login, and one per viewer, under its name: none
    overwrites another and there is no other login. *)
Theorem build_complete cfg login a :
  valid_config cfg →
  get (build cfg) login = Some a ↔
  (∃ cam, cam ∈ camera cfg ∧ login = cam_login cam ∧ a = camera_account cfg cam) ∨
  (∃ v, v ∈ viewer cfg ∧ login = viewer_name v ∧ a = viewer_account cfg v).
Proof.
  apply build_get.
Qed.

(** A viewer restricted to a list of cameras and groups is given exactly the
    cameras those items name (a group standing for its members), each one a
    declared camera and each mapped to that camera's upload directory. *)
Theorem expand_scope_cameras cfg v items n p :
  valid_config cfg → v ∈ viewer cfg → viewer_scope v = ScopeList items →
  roots (expand_scope cfg (viewer_scope v)) !! n = Some p →
  ∃ cam, cam ∈ camera cfg ∧ n = cam_name cam ∧
    role (camera_account cfg cam) = Uploader p ∧
    ∃ it, it ∈ items ∧ n ∈ scope_item_names (group cfg) it.
Proof.
  intros Hc Hv Hs. rewrite Hs, expand_scope_lookup, scope_names_spec.
  intros [(it & Hit & Hn) ->].
  assert (n ∈ cam_name <$> camera cfg) as Hcam.
  { unfold scope_item_names in Hn. destruct (group cfg !! it) as [ms|] eqn:E.
    - by eapply vc_groups.
    - apply list_elem_of_singleton in Hn as ->.
      destruct (vc_scopes _ Hc v items it Hv Hs Hit) as [?|[? ?]]; [done|congruence]. }
  apply list_elem_of_fmap in Hcam as (cam & -> & Hcam). eauto 10.
Qed.

(** When the camera names are file names, the cameras' jails are disjoint: the
    homes of two different cameras are different directories and neither lies
    inside the other. *)
Theorem camera_jails_disjoint cfg c1 c2 h1 h2 :
  valid_config cfg → c1 ∈ camera cfg → c2 ∈ camera cfg → c1 ≠ c2 →
  valid_name (cam_name c1) → valid_name (cam_name c2) →
  role (camera_account cfg c1) = Uploader h1 → role (camera_account cfg c2) = Uploader h2 →
  starts_with h1 h2 = false.
Proof.
  intros Hv H1 H2 Hne Hn1 Hn2 [= <-] [= <-]. unfold starts_with. apply bool_decide_eq_false.
  rewrite !components_join by done. intros Hp. apply Hne.
  assert (cam_name c1 = cam_name c2) as Hn.
  { destruct Hp as [k Hk]. simplify_list_eq. congruence. }
  apply list_elem_of_lookup in H1 as [i Hi]. apply list_elem_of_lookup in H2 as [j Hj].
  pose proof (vc_names _ Hv) as Hnd. rewrite NoDup_alt in Hnd.
  assert (i = j) as ->; [|congruence]. apply (Hnd i j (cam_name c1)).
  - by rewrite list_lookup_fmap, Hi.
  - by rewrite list_lookup_fmap, Hj, Hn.
Qed.
End account.

(** Validation does not look at what a camera name is: a configuration whose
    cameras are called "a" and "./a" is accepted and gives both the same home,
    and a camera called "/etc" is jailed outside the archive. *)
Theorem camera_names_unchecked `{AgeLib} (srv : ServerCfg) (days : Z) (lim : LimitsCfg) :
  ((passive_ports srv).1 ≤ (passive_ports srv).2)%Z →
  let cam n := mkCameraCfg n None "" None in
  let cfg := mkConfig srv (mkArchiveCfg "/a" days) lim [cam "a"; cam "./a"; cam "/etc"] ∅ [] None in
  validate cfg = Ok tt ∧
  (∀ h1 h2, role (camera_account cfg (cam "a")) = Uploader h1 →
    role (camera_account cfg (cam "./a")) = Uploader h2 → path_eq h1 h2) ∧
  role (camera_account cfg (cam "/etc")) = Uploader "/etc".
Proof.
  intros Hp cam cfg. split; [|split].
  - apply validate_iff. split; try done; cbn; try set_solver.
    + apply (bool_decide_unpack (NoDup ["a"; "./a"; "/etc"])). by vm_compute.
    + apply (bool_decide_unpack (NoDup ["a"; "./a"; "/etc"])). by vm_compute.
    + constructor.
  - intros h1 h2 [= <-] [= <-]. by vm_compute.
  - by vm_compute.
Qed.
