(* ===== verification/Limits.v ===== *)
(** [limits.rs] and [presence.rs]: the concurrent-session accountant.

    [SessionState] is the state behind the tracker's mutex; every method runs
    under one lock and is one atomic function here.  Times are nanoseconds of
    the monotonic clock, passed to the methods that read it.  The reachable
    states are those of [tstep], whose events are the calls the program makes:
    admission at the authentication gate, release on logout, the reaper, and
    a change of limits on reload. *)
From stdpp Require Import relations.
From S2P Require Import Prelude.

Definition REAP_INTERVAL_SECS : Z := 60.
Definition SESSION_TTL_SECS : Z := 300.

(** [Duration::from_secs], in nanoseconds. *)
Definition from_secs (s : Z) : Z := s * 10 ^ 9.

Record SessionState : Type := mkSessionState {
  per_account : gmap string (list Z);
  global : Z;
  max_global : Z;
  max_per_account : option Z
}.

Definition new (max_g : Z) (max_pa : option Z) : SessionState :=
  mkSessionState ∅ 0 max_g max_pa.

(** [entry(username).or_default().push(now)], and the global count. *)
Definition push_session (now : Z) (u : string) (s : SessionState) : SessionState :=
  mkSessionState (<[u := default [] (per_account s !! u) ++ [now]]> (per_account s))
    (saturating_add_u32 (global s) 1) (max_global s) (max_per_account s).

Definition on_login (now : Z) (u : string) (s : SessionState) : SessionState :=
  push_session now u s.

Definition on_logout (u : string) (s : SessionState) : SessionState :=
  match per_account s !! u with
  | Some (_ :: v') =>
      mkSessionState
        (if decide (v' = []) then delete u (per_account s) else <[u := v']> (per_account s))
        (saturating_sub_u32 (global s) 1) (max_global s) (max_per_account s)
  | Some [] =>
      mkSessionState (delete u (per_account s)) (global s) (max_global s) (max_per_account s)
  | None => s
  end.

(** [now.duration_since(t) < ttl]; [duration_since] saturates at zero. *)
Definition fresh_session (now ttl t : Z) : Prop := (Z.max (now - t) 0 < ttl)%Z.
#[export] Instance fresh_session_dec now ttl t : Decision (fresh_session now ttl t).
Proof. unfold fresh_session. apply _. Defined.

Definition retained (now ttl : Z) (v : list Z) : list Z := filter (fresh_session now ttl) v.

Definition reap_account (now ttl : Z) (v : list Z) : option (list Z) :=
  let v' := retained now ttl v in
  if decide (v' = []) then None else Some v'.

Definition reap (now ttl : Z) (s : SessionState) : Z * SessionState :=
  let reaped :=
    as_u32 (map_fold (λ _ v acc, acc + as_u32 (Z.of_nat (length v - length (retained now ttl v))))%Z
              0%Z (per_account s)) in
  (reaped,
   mkSessionState (omap (reap_account now ttl) (per_account s))
     (saturating_sub_u32 (global s) reaped) (max_global s) (max_per_account s)).

(** [map_or(0, |v| v.len() as u32)]. *)
Definition account_count (u : string) (s : SessionState) : Z :=
  match per_account s !! u with
  | None => 0
  | Some v => as_u32 (Z.of_nat (length v))
  end.

Definition at_capacity (u : string) (s : SessionState) : bool :=
  if decide (global s >= max_global s)%Z then true
  else match max_per_account s with
       | Some m => bool_decide (account_count u s >= m)%Z
       | None => false
       end.

Definition try_admit (now : Z) (u : string) (s : SessionState) : bool * SessionState :=
  if decide (global s >= max_global s)%Z then (false, s)
  else
    match max_per_account s with
    | Some m =>
        if decide (account_count u s >= m)%Z then (false, s) else (true, push_session now u s)
    | None => (true, push_session now u s)
    end.

Definition set_limits (max_g : Z) (max_pa : option Z) (s : SessionState) : SessionState :=
  mkSessionState (per_account s) (global s) max_g max_pa.

(** [ReoPresenceListener::receive_presence_event]: only a logout counts. *)
Inductive PresenceEvent : Type := LoggedIn | LoggedOut.

Definition receive_presence_event (e : PresenceEvent) (u : string) (s : SessionState) : SessionState :=
  match e with
  | LoggedIn => s
  | LoggedOut => on_logout u s
  end.

(** ** The calls the program makes *)

Inductive tstep : Z * SessionState → Z * SessionState → Prop :=
| t_admit now now' u s : (now ≤ now')%Z → tstep (now, s) (now', (try_admit now' u s).2)
| t_presence now e u s : tstep (now, s) (now, receive_presence_event e u s)
| t_reap now now' ttl s : (now ≤ now')%Z → tstep (now, s) (now', (reap now' ttl s).2)
| t_limits now g pa s :
    (0 ≤ g ≤ u32_max)%Z → tstep (now, s) (now, set_limits g pa s).

(** ** Connections

    The tracker beside the control connections it accounts for: the user and
    the admission time of every admitted connection that is still open.  A
    connection opens through the gate and closes with a logout event (an
    orderly end) or without one (an unclean disconnect). *)
Record Conn : Type := mkConn { c_user : string; c_since : Z }.

Record Sessions : Type := mkSessions { clock : Z; tracker : SessionState; live : list Conn }.

Inductive Action : Type :=
| Connect (u : string)
| Disconnect (i : nat)
| Lose (i : nat)
| ReapNow
| Wait (ns : Z).

Definition act (a : Action) (y : Sessions) : Sessions :=
  match a with
  | Connect u =>
      let '(ok, s) := try_admit (clock y) u (tracker y) in
      mkSessions (clock y) s (if ok then live y ++ [mkConn u (clock y)] else live y)
  | Disconnect i =>
      match live y !! i with
      | Some c =>
          mkSessions (clock y) (receive_presence_event LoggedOut (c_user c) (tracker y))
            (take i (live y) ++ drop (S i) (live y))
      | None => y
      end
  | Lose i => mkSessions (clock y) (tracker y) (take i (live y) ++ drop (S i) (live y))
  | ReapNow =>
      mkSessions (clock y) (reap (clock y) (from_secs SESSION_TTL_SECS) (tracker y)).2 (live y)
  | Wait ns => mkSessions (clock y + Z.max ns 0) (tracker y) (live y)
  end.

Definition acts (l : list Action) (y : Sessions) : Sessions := fold_left (λ y a, act a y) l y.

(** Sessions a table of slots holds. *)
Definition total (m : gmap string (list Z)) : nat :=
  map_fold (λ _ v acc, length v + acc) 0 m.

Record inv (now : Z) (s : SessionState) : Prop := {
  inv_nonempty u v : per_account s !! u = Some v → v ≠ [];
  inv_global : global s = Z.of_nat (total (per_account s));
  inv_bound : (global s ≤ u32_max)%Z;
  inv_sorted u v : per_account s !! u = Some v → StronglySorted Z.le v;
  inv_past u v t : per_account s !! u = Some v → t ∈ v → (t ≤ now)%Z;
  inv_limit : (max_global s ≤ u32_max)%Z
}.

(** ** The abstract accountant

    A count of live slots per account; a session is admitted when the total
    and the account's own count are below the limits. *)
Module Spec.
Definition counts (s : SessionState) (u : string) : nat :=
  length (default [] (per_account s !! u)).

Definition may_admit (s : SessionState) (u : string) : Prop :=
  (Z.of_nat (total (per_account s)) < max_global s)%Z ∧
  (∀ m, max_per_account s = Some m → (Z.of_nat (counts s u) < m)%Z).
End Spec.

(** The limits in force, and the counts they bound. *)
Definition capped (u : string) (g : Z) (pa : option Z) (s : SessionState) : Prop :=
  max_global s = g ∧ max_per_account s = pa ∧ (Z.of_nat (total (per_account s)) ≤ g)%Z ∧
  (∀ m, pa = Some m → (0 ≤ m)%Z → (Z.of_nat (Spec.counts s u) ≤ m)%Z).

(** ** Lemmas *)

Lemma total_insert m u v :
  total (<[u := v]> m) = length v + total (delete u m).
Proof.
  unfold total. rewrite <- insert_delete_eq.
  rewrite map_fold_insert_L; [done| |apply lookup_delete_eq]. intros; lia.
Qed.

Lemma total_delete m u v : m !! u = Some v → total m = length v + total (delete u m).
Proof. intros H. rewrite <- (insert_id m u v) at 1 by done. apply total_insert. Qed.

Lemma total_lookup m u : length (default [] (m !! u)) ≤ total m.
Proof.
  destruct (m !! u) as [v|] eqn:E; cbn; [|lia]. rewrite (total_delete _ _ _ E). lia.
Qed.

Lemma total_push m u t :
  total (<[u := default [] (m !! u) ++ [t]]> m) = S (total m).
Proof.
  rewrite total_insert, length_app. destruct (m !! u) as [v|] eqn:E; cbn.
  - rewrite (total_delete _ _ _ E). lia.
  - by rewrite delete_id.
Qed.

(** Slots a reaping drops, against the slots it keeps. *)
Lemma total_omap now ttl m :
  total (omap (reap_account now ttl) m) +
  map_fold (λ _ v acc, (length v - length (retained now ttl v)) + acc) 0 m = total m.
Proof.
  unfold total. induction m as [|u v m Hu IH] using map_ind; [done|].
  rewrite !map_fold_insert_L by (done || (intros; lia)).
  destruct (reap_account now ttl v) as [v'|] eqn:E.
  - rewrite (omap_insert_Some _ _ _ _ v') by done.
    rewrite map_fold_insert_L; [|intros; lia|by rewrite lookup_omap, Hu].
    unfold reap_account in E. case_decide; simplify_eq.
    pose proof (length_filter (fresh_session now ttl) v). unfold retained in *. lia.
  - rewrite omap_insert_None by done. rewrite delete_id by (by rewrite lookup_omap, Hu).
    unfold reap_account in E. case_decide as Hr; simplify_eq. rewrite Hr. cbn. lia.
Qed.

Lemma reaped_count now ttl s now0 :
  inv now0 s →
  (reap now ttl s).1 =
    Z.of_nat (map_fold (λ _ v acc, (length v - length (retained now ttl v)) + acc) 0 (per_account s)).
Proof.
  intros Hi. cbn. pose proof (inv_global _ _ Hi) as Hg. pose proof (inv_bound _ _ Hi) as Hb.
  pose proof (total_omap now ttl (per_account s)) as Ht.
  unfold u32_max in Hb. rewrite Hg in Hb. clear Hi Hg.
  assert (map_fold (λ _ v acc, acc + as_u32 (Z.of_nat (length v - length (retained now ttl v))))%Z
            0%Z (per_account s) =
          Z.of_nat (map_fold (λ _ v acc, (length v - length (retained now ttl v)) + acc) 0
            (per_account s))) as ->.
  { assert (Z.of_nat (total (per_account s)) < 2 ^ 32)%Z as Hlt by lia. clear Hb Ht. revert Hlt.
    induction (per_account s) as [|u v m Hu IH] using map_ind; [done|].
    rewrite total_insert, delete_id by done. intros Hlt.
    rewrite !map_fold_insert_L by (done || (intros; lia)).
    rewrite IH by lia. unfold as_u32. rewrite Z.mod_small by lia. lia. }
  unfold as_u32. apply Z.mod_small. lia.
Qed.

#[export] Hint Rewrite total_push : reo.

(** *** The invariant *)

Lemma inv_new g pa now : (0 ≤ g ≤ u32_max)%Z → inv now (new g pa).
Proof.
  unfold u32_max. intros Hg. split; cbn; try (intros *; by rewrite lookup_empty); try done; unfold u32_max; lia.
Qed.

Lemma inv_later now now' s : (now ≤ now')%Z → inv now s → inv now' s.
Proof. intros Hle []. split; auto. intros u v t H1 H2. pose proof (inv_past0 _ _ _ H1 H2). lia. Qed.

Lemma sorted_snoc (v : list Z) t :
  StronglySorted Z.le v → (∀ x, x ∈ v → (x ≤ t)%Z) → StronglySorted Z.le (v ++ [t]).
Proof.
  induction 1 as [|x v Hs IH Hx]; cbn; intros Hle; [repeat constructor|].
  constructor; [apply IH; intros y Hy; apply Hle; by right|].
  apply Forall_app. split; [done|]. constructor; [|done]. apply Hle. by left.
Qed.

Lemma sorted_filter P `{∀ x : Z, Decision (P x)} v :
  StronglySorted Z.le v → StronglySorted Z.le (filter P v).
Proof.
  induction 1 as [|x v Hs IH Hx]; [constructor|]. rewrite filter_cons. case_decide; [|done].
  constructor; [done|]. apply list.Forall_forall. intros y [_ Hy]%list_elem_of_filter.
  rewrite list.Forall_forall in Hx. auto.
Qed.

Lemma inv_push now u s :
  inv now s → (global s < max_global s)%Z → inv now (push_session now u s).
Proof.
  intros [Hn Hg Hb Hs Hp Hl] Hlt. split; cbn.
  - intros u' v [[<- <-]|[_ ?]]%lookup_insert_Some; [|eauto]. by destruct (default [] _).
  - autorewrite with reo. unfold saturating_add_u32, u32_max in *. lia.
  - unfold saturating_add_u32. lia.
  - intros u' v [[<- <-]|[_ ?]]%lookup_insert_Some; [|eauto].
    destruct (per_account s !! u) as [v|] eqn:E; cbn; [|repeat constructor].
    apply sorted_snoc; eauto.
  - intros u' v t [[<- <-]|[_ ?]]%lookup_insert_Some Ht; [|eauto].
    apply elem_of_app in Ht as [Ht|Ht]; [|by apply list_elem_of_singleton in Ht as ->].
    destruct (per_account s !! u) as [v|] eqn:E; cbn in Ht; [eauto|by apply elem_of_nil in Ht].
  - done.
Qed.

Lemma try_admit_cases now u s :
  (try_admit now u s = (true, push_session now u s) ∧ (global s < max_global s)%Z ∧
     ∀ m, max_per_account s = Some m → (account_count u s < m)%Z) ∨
  try_admit now u s = (false, s).
Proof.
  unfold try_admit. case_decide; [by right|].
  destruct (max_per_account s) as [m|]; [case_decide; [by right|]|]; left;
    repeat split; try lia; intros ? [= <-]; lia.
Qed.

Lemma inv_try_admit now u s : inv now s → inv now (try_admit now u s).2.
Proof.
  intros Hi. destruct (try_admit_cases now u s) as [(-> & Hlt & _)| ->]; [|done].
  by apply inv_push.
Qed.

Lemma inv_on_logout now u s : inv now s → inv now (on_logout u s).
Proof.
  intros [Hn Hg Hb Hs Hp Hl]. unfold on_logout.
  destruct (per_account s !! u) as [[|t v]|] eqn:E; [by destruct (Hn _ _ E)| |by split].
  pose proof (total_delete _ _ _ E) as Ht. cbn in Ht.
  assert (StronglySorted Z.le v) as Hsv by (pose proof (Hs _ _ E) as Hx; by inversion Hx).
  assert (∀ x, x ∈ v → (x ≤ now)%Z) as Hpv by (intros x Hx; eapply Hp; [exact E|by right]).
  unfold saturating_sub_u32 in *. case_decide as Hv; split; cbn; try done; try lia.
  - intros u' v' [_ ?]%lookup_delete_Some; eauto.
  - subst v. cbn in Ht. lia.
  - intros u' v' [_ ?]%lookup_delete_Some; eauto.
  - intros u' v' t' [_ ?]%lookup_delete_Some; eauto.
  - intros u' v' [[<- <-]|[_ ?]]%lookup_insert_Some; eauto.
  - rewrite total_insert. lia.
  - intros u' v' [[<- <-]|[_ ?]]%lookup_insert_Some; eauto.
  - intros u' v' t' [[<- <-]|[_ ?]]%lookup_insert_Some ?; eauto.
Qed.

Lemma reap_lookup now ttl s u v :
  per_account (reap now ttl s).2 !! u = Some v ↔
  ∃ v0, per_account s !! u = Some v0 ∧ v = retained now ttl v0 ∧ v ≠ [].
Proof.
  cbn. rewrite lookup_omap. unfold reap_account.
  destruct (per_account s !! u) as [v0|]; cbn; [case_decide|]; naive_solver.
Qed.

Lemma inv_reap now ttl s : inv now s → inv now (reap now ttl s).2.
Proof.
  intros Hi. pose proof (reaped_count now ttl s now Hi) as Hr. cbn in Hr.
  pose proof Hi as [Hn Hg Hb Hs Hp Hl].
  pose proof (total_omap now ttl (per_account s)) as Ht.
  split.
  - intros u v (v0 & _ & _ & ?)%reap_lookup. done.
  - cbn. rewrite Hr. unfold saturating_sub_u32. lia.
  - cbn. rewrite Hr. unfold saturating_sub_u32. lia.
  - intros u v (v0 & Hu & -> & _)%reap_lookup. apply sorted_filter. eauto.
  - intros u v t (v0 & Hu & -> & _)%reap_lookup [_ Ht']%list_elem_of_filter. eauto.
  - done.
Qed.

Lemma inv_tstep c c' : tstep c c' → inv c.1 c.2 → inv c'.1 c'.2.
Proof.
  intros []; cbn [fst snd].
  - intros Hi. apply inv_try_admit. by eapply inv_later.
  - destruct e; [done|]. apply inv_on_logout.
  - intros Hi. apply inv_reap. by eapply inv_later.
  - intros [? ? ? ? ? ?]. split; auto. cbn. lia.
Qed.

Lemma inv_steps c c' : rtc tstep c c' → inv c.1 c.2 → inv c'.1 c'.2.
Proof. induction 1 as [c|c c1 c2 H1 _ IH]; [done|]. intros Hi. by eapply IH, inv_tstep. Qed.

Lemma counts_account u now s : inv now s → account_count u s = Z.of_nat (Spec.counts s u).
Proof.
  intros [_ Hg Hb _ _ _]. unfold account_count, Spec.counts.
  pose proof (total_lookup (per_account s) u) as Ht.
  destruct (per_account s !! u) as [v|]; cbn in *; [|done].
  unfold as_u32. apply Z.mod_small. unfold u32_max in Hb. lia.
Qed.

(** A session reaping keeps one account's slots that are younger than [ttl];
    the count it returns is the drop in the global count. *)
Lemma reap_counts now ttl s u :
  Spec.counts (reap now ttl s).2 u = length (retained now ttl (default [] (per_account s !! u))).
Proof.
  unfold Spec.counts. cbn. rewrite lookup_omap. unfold reap_account.
  destruct (per_account s !! u) as [v|]; cbn; [|done].
  unfold retained. case_decide as H; cbn; [by rewrite H|done].
Qed.

Lemma total_counts_le (s : SessionState) m :
  (∀ u', length (default [] (m !! u')) ≤ length (default [] (per_account s !! u'))) →
  total m ≤ total (per_account s).
Proof.
  generalize (per_account s). clear s. induction m as [|u' v m Hu IH] using map_ind; intros m' H.
  { unfold total at 1. rewrite map_fold_empty. lia. }
  rewrite total_insert, delete_id by done. specialize (IH (delete u' m')).
  assert (length v + total (delete u' m') ≤ total m').
  { pose proof (H u') as Hv. rewrite lookup_insert_eq in Hv. cbn in Hv.
    destruct (m' !! u') as [v'|] eqn:E; cbn in Hv.
    - rewrite (total_delete _ _ _ E). lia.
    - rewrite delete_id by done. lia. }
  enough (total m ≤ total (delete u' m')) by lia. apply IH. intros w.
  destruct (decide (w = u')) as [->|Hne]; [rewrite Hu; cbn; lia|].
  pose proof (H w) as Hw. rewrite lookup_insert_ne in Hw by done.
  by rewrite lookup_delete_ne.
Qed.

(** Logouts and reapings only shrink an account's slots. *)
Lemma capped_shrink u g pa s s' :
  max_global s' = max_global s → max_per_account s' = max_per_account s →
  (∀ u', Spec.counts s' u' ≤ Spec.counts s u') → capped u g pa s → capped u g pa s'.
Proof.
  intros Hg Hp Hc (Hmg & Hmp & Ht & Hu). pose proof (total_counts_le s (per_account s') Hc).
  split; [congruence|]. split; [congruence|]. split; [lia|].
  intros m Hm H0. specialize (Hu m Hm H0). specialize (Hc u). lia.
Qed.

Lemma logout_counts now u u' s : inv now s → Spec.counts (on_logout u s) u' ≤ Spec.counts s u'.
Proof.
  intros Hi. unfold on_logout, Spec.counts.
  destruct (per_account s !! u) as [[|t v]|] eqn:E; [by destruct (inv_nonempty _ _ Hi _ _ E)| |done].
  destruct (decide (u' = u)) as [->|]; case_decide; subst; simplify_map_eq; lia.
Qed.

Lemma capped_step u c c' :
  tstep c c' → max_global c'.2 = max_global c.2 → max_per_account c'.2 = max_per_account c.2 →
  inv c.1 c.2 → ∀ g pa, capped u g pa c.2 → capped u g pa c'.2.
Proof.
  intros [now now' u' s Hle|now [|] u' s|now now' ttl s Hle|now g' pa' s Hg']; cbn [fst snd];
    intros Hg Hp Hi g pa Hc.
  - destruct (try_admit_cases now' u' s) as [(-> & Hlt & Hm)| ->]; [|done].
    destruct Hc as (<- & <- & Ht & Hu). split; [done|]. split; [done|].
    cbn. autorewrite with reo. pose proof (inv_global _ _ Hi). split; [lia|].
    intros m Hpa H0. specialize (Hm m Hpa). specialize (Hu m Hpa H0).
    rewrite (counts_account u' now s Hi) in Hm. unfold Spec.counts in *. cbn.
    destruct (decide (u = u')) as [->|]; simplify_map_eq; [rewrite length_app; cbn|]; lia.
  - done.
  - apply (capped_shrink u g pa s); try done; [cbn in *; congruence..|].
    intros u''. by apply (logout_counts now).
  - apply (capped_shrink u g pa s); try done.
    intros u''. rewrite reap_counts. unfold Spec.counts, retained. apply length_filter.
  - destruct Hc as (<- & <- & Ht & Hu). cbn in *. subst. done.
Qed.

Lemma retained_all now ttl v :
  (∀ t, t ∈ v → (ttl ≤ now - t)%Z) → (0 < ttl)%Z → retained now ttl v = [].
Proof.
  intros H Hp. unfold retained. induction v as [|t v IH]; [done|].
  rewrite filter_cons_False; [apply IH; intros; apply H; by right|].
  unfold fresh_session. pose proof (H t ltac:(by left)). lia.
Qed.

Lemma try_admit_iff now u s : inv now s → (try_admit now u s).1 = true ↔ Spec.may_admit s u.
Proof.
  intros Hi. pose proof (inv_global _ _ Hi) as Hg. pose proof (counts_account u now s Hi) as Hc.
  unfold Spec.may_admit. rewrite <- Hg, <- Hc.
  unfold try_admit. case_decide; cbn; [split; [done|lia]|].
  destruct (max_per_account s) as [m|]; [case_decide|]; cbn; split; try done.
  - intros [_ Hm]. specialize (Hm m eq_refl). lia.
  - intros _. split; [lia|]. intros ? [= <-]. lia.
  - intros _. split; [lia|done].
Qed.

Lemma try_admit_counts now u s u' :
  Spec.counts (try_admit now u s).2 u' =
    Spec.counts s u' + (if (try_admit now u s).1 then if decide (u' = u) then 1 else 0 else 0).
Proof.
  destruct (try_admit_cases now u s) as [(-> & _)| ->]; cbn; [|lia].
  unfold Spec.counts. cbn. destruct (decide (u' = u)) as [->|]; simplify_map_eq; [|lia].
  by rewrite length_app.
Qed.

Lemma try_admit_refused now u s : (try_admit now u s).1 = false → (try_admit now u s).2 = s.
Proof. by destruct (try_admit_cases now u s) as [(-> & _)| ->]. Qed.

(** ** The accountant as an interface

    What the authentication gate relies on: an admission decided and reserved
    in one step. *)
Class Admission (S : Type) := {
  take_slot : Z → string → S → bool * S;
  admission_ok : Z → S → Prop;
  slots : S → string → nat;
  may : S → string → Prop;
  admit_ok now u s : admission_ok now s → admission_ok now (take_slot now u s).2;
  admit_iff now u s : admission_ok now s → (take_slot now u s).1 = true ↔ may s u;
  admit_slots now u s u' :
    slots (take_slot now u s).2 u' =
      slots s u' + (if (take_slot now u s).1 then if decide (u' = u) then 1 else 0 else 0);
  admit_refused now u s : (take_slot now u s).1 = false → (take_slot now u s).2 = s
}.

#[export] Instance session_admission : Admission SessionState := {
  take_slot := try_admit;
  admission_ok := inv;
  slots := Spec.counts;
  may := Spec.may_admit;
  admit_ok := inv_try_admit;
  admit_iff := try_admit_iff;
  admit_slots := try_admit_counts;
  admit_refused := try_admit_refused
}.

(** ** Properties *)

(** From any fresh tracker, after any sequence of admissions, presence
    events, reapings and limit changes, the global count is exactly the number
    of slots in the per-account table, it has not wrapped, no account keeps an
    empty table entry, and every account's timestamps are in admission order. *)
Theorem tracker_invariant g pa now now' s :
  (0 ≤ g ≤ u32_max)%Z → rtc tstep (now, new g pa) (now', s) → inv now' s.
Proof.
  intros Hg Hr. apply (inv_steps _ _ Hr). by apply inv_new.
Qed.

(** C20. The gate admits exactly when the abstract accountant may: the total of
    live slots is below the global limit and the account's own count below the
    per-account limit, compared without wrap-around.  An admission adds one
    slot to that account only; a refusal changes nothing. *)
Theorem try_admit_refines now u s :
  inv now s →
  ((try_admit now u s).1 = true ↔ Spec.may_admit s u) ∧
  (∀ u', Spec.counts (try_admit now u s).2 u' =
     Spec.counts s u' + (if (try_admit now u s).1 then if decide (u' = u) then 1 else 0 else 0)) ∧
  ((try_admit now u s).1 = false → (try_admit now u s).2 = s).
Proof. eauto 6 using try_admit_iff, try_admit_counts, try_admit_refused. Qed.

(** C21. While the limits in force stay the same, no sequence of admissions,
    logouts and reapings from a fresh tracker takes the number of slots over
    the global limit or an account's over the per-account limit. *)
Theorem caps_respected g pa now now' s u :
  (0 ≤ g ≤ u32_max)%Z →
  rtc (λ c c', tstep c c' ∧ max_global c'.2 = max_global c.2 ∧
                max_per_account c'.2 = max_per_account c.2) (now, new g pa) (now', s) →
  (Z.of_nat (total (per_account s)) ≤ g)%Z ∧
  (∀ m, pa = Some m → (0 ≤ m)%Z → (Z.of_nat (Spec.counts s u) ≤ m)%Z).
Proof.
  intros Hg Hr.
  assert (∀ c c', rtc (λ c c', tstep c c' ∧ max_global c'.2 = max_global c.2 ∧
      max_per_account c'.2 = max_per_account c.2) c c' → inv c.1 c.2 → capped u g pa c.2 →
      capped u g pa c'.2) as Hall.
  { induction 1 as [c|c c1 c2 (H1 & H2 & H3) _ IH]; [done|]. intros Hi Hc.
    apply IH; [by eapply inv_tstep|by eapply capped_step]. }
  destruct (Hall _ _ Hr) as (_ & _ & ? & ?); [by apply inv_new| |done].
  split; [done|]. split; [done|].
  change (total (per_account (now, new g pa).2)) with 0.
  split; [lia|]. intros m _ ?. unfold Spec.counts. cbn. rewrite lookup_empty. cbn. lia.
Qed.

(** A reaping keeps of every account exactly the slots younger than the
    time to live, in order, returns the number of slots it dropped, lowers the
    global count by it and leaves the limits alone. *)
Theorem reap_exact now ttl s :
  inv now s →
  (∀ u, default [] (per_account (reap now ttl s).2 !! u) =
        filter (fresh_session now ttl) (default [] (per_account s !! u))) ∧
  (reap now ttl s).1 = (global s - global (reap now ttl s).2)%Z ∧
  max_global (reap now ttl s).2 = max_global s ∧
  max_per_account (reap now ttl s).2 = max_per_account s.
Proof.
  intros Hi. pose proof (inv_reap now ttl s Hi) as Hi'.
  pose proof (reaped_count now ttl s now Hi) as Hr.
  pose proof (total_omap now ttl (per_account s)) as Ht.
  rewrite Hr, (inv_global _ _ Hi), (inv_global _ _ Hi'). split; [|split; [|done]].
  - intros u. cbn. rewrite lookup_omap. unfold reap_account, retained.
    destruct (per_account s !! u) as [v|]; cbn; [|done]. by case_decide.
  - cbn in *. lia.
Qed.

(** C33. A tracker whose slots all leaked (every connection was lost without a
    logout event) is not wedged: one reaping past the time to live empties it,
    and any account is admitted again when the limits allow one session. *)
Theorem reap_unwedges now ttl s u :
  inv now s → (0 < ttl)%Z →
  (∀ u' v t, per_account s !! u' = Some v → t ∈ v → (ttl ≤ now - t)%Z) →
  (0 < max_global s)%Z → (∀ m, max_per_account s = Some m → (0 < m)%Z) →
  per_account (reap now ttl s).2 = ∅ ∧ global (reap now ttl s).2 = 0%Z ∧
  (try_admit now u (reap now ttl s).2).1 = true.
Proof.
  intros Hi Httl Hold Hg Hpa.
  assert (per_account (reap now ttl s).2 = ∅) as He.
  { apply map_empty. intros u'. destruct (_ !! u') as [v|] eqn:E; [|done].
    apply reap_lookup in E as (v0 & Hv & -> & Hne). destruct Hne.
    apply retained_all; [|done]. eauto. }
  pose proof (inv_global _ _ (inv_reap now ttl s Hi)) as Hz. rewrite He in Hz.
  change (total ∅) with 0%nat in Hz.
  split; [done|]. split; [done|]. unfold try_admit, account_count.
  rewrite Hz, He, lookup_empty. cbn [max_global max_per_account reap snd].
  case_decide; [lia|]. destruct (max_per_account s) as [m|]; [|done].
  case_decide; [|done]. specialize (Hpa m eq_refl). lia.
Qed.

(** A logout drops the oldest slot of its own account and nothing else;
    for an account without slots it changes nothing, so the counts never
    underflow. *)
Theorem on_logout_oldest now u s :
  inv now s →
  (∀ u', default [] (per_account (on_logout u s) !! u') =
     if decide (u' = u) then tail (default [] (per_account s !! u)) else
       default [] (per_account s !! u')) ∧
  (per_account s !! u = None → on_logout u s = s) ∧
  (per_account s !! u ≠ None → global (on_logout u s) = global s - 1)%Z.
Proof.
  intros Hi. pose proof (total_lookup (per_account s) u) as Ht.
  pose proof (inv_global _ _ Hi) as Hg. unfold on_logout.
  destruct (per_account s !! u) as [[|t v]|] eqn:E.
  - by destruct (inv_nonempty _ _ Hi _ _ E).
  - cbn in *. split; [|split; [done|]]; cycle 1.
    { intros _. unfold saturating_sub_u32. lia. }
    intros u'. case_decide as Hv; case_decide; subst; simplify_map_eq; done.
  - split; [|done]. intros u'. case_decide; subst; [by rewrite E|done].
Qed.

(** The at-capacity query agrees with the gate: it answers true exactly
    when an admission at this moment would be refused. *)
Theorem at_capacity_agrees now u s : at_capacity u s = negb (try_admit now u s).1.
Proof.
  unfold at_capacity, try_admit. case_decide; [done|].
  destruct (max_per_account s) as [m|]; [|done].
  case_decide; [by rewrite bool_decide_eq_true_2|by rewrite bool_decide_eq_false_2].
Qed.

(** *** Logouts of reaped connections *)

(** [k] connections of one account outlive the time to live, one after the other;
    then a new one is opened, and each old one that logs out is followed by
    another new one. *)
Definition outlive (u : string) : list Action := [Connect u; Wait (from_secs SESSION_TTL_SECS); ReapNow].
Definition relieve (u : string) : list Action := [Disconnect 0; Connect u].
Definition overadmission (u : string) (k : nat) : list Action :=
  concat (replicate k (outlive u)) ++ [Connect u] ++ concat (replicate k (relieve u)).

Section overadmission.
Context (u : string) (g : Z) (pa : option Z) (Hg : (1 ≤ g)%Z) (Hpa : ∀ m, pa = Some m → (1 ≤ m)%Z).

(** The tracker with the one slot of [u] taken. *)
Abbreviation held t := (mkSessionState {[u := [t]]} 1 g pa).

Lemma connect_new t L :
  act (Connect u) (mkSessions t (new g pa) L) = mkSessions t (held t) (L ++ [mkConn u t]).
Proof.
  unfold act, try_admit, account_count, push_session. cbn. rewrite lookup_empty, decide_False by lia.
  destruct pa as [m|]; [|done]. by rewrite decide_False by (specialize (Hpa m eq_refl); lia).
Qed.

Lemma reap_held t : (reap (t + from_secs SESSION_TTL_SECS) (from_secs SESSION_TTL_SECS) (held t)).2 = new g pa.
Proof.
  assert (retained (t + from_secs SESSION_TTL_SECS) (from_secs SESSION_TTL_SECS) [t] = []) as Hr.
  { apply retained_all; [|done]. intros t' ->%list_elem_of_singleton. lia. }
  unfold reap. cbn [per_account global max_global max_per_account snd].
  rewrite map_fold_singleton, omap_singleton. unfold reap_account. by rewrite Hr, decide_True.
Qed.

Lemma logout_held t : on_logout u (held t) = new g pa.
Proof. unfold on_logout. cbn. by rewrite lookup_singleton_eq, decide_True, delete_singleton_eq. Qed.

Lemma acts_app l l' y : acts (l ++ l') y = acts l' (acts l y).
Proof. apply fold_left_app. Qed.

Lemma act_relieve t c L :
  acts (relieve u) (mkSessions t (held t) (mkConn u c :: L)) = mkSessions t (held t) (L ++ [mkConn u t]).
Proof.
  assert (act (Disconnect 0) (mkSessions t (held t) (mkConn u c :: L)) = mkSessions t (new g pa) L) as He.
  { unfold act. cbn. by rewrite logout_held. }
  unfold relieve, acts. cbn [fold_left]. by rewrite He, connect_new.
Qed.

Lemma act_outlive t L :
  acts (outlive u) (mkSessions t (new g pa) L) =
    mkSessions (t + from_secs SESSION_TTL_SECS) (new g pa) (L ++ [mkConn u t]).
Proof.
  unfold outlive, acts. cbn [fold_left]. rewrite connect_new. cbn [act clock tracker live].
  by rewrite Z.max_l, reap_held by done.
Qed.

Lemma outlive_acts k t L :
  ∃ t' old, length old = k ∧ acts (concat (replicate k (outlive u))) (mkSessions t (new g pa) L) =
    mkSessions t' (new g pa) (L ++ (mkConn u <$> old)).
Proof.
  revert t L. induction k as [|k IH]; intros t L; cbn [replicate concat].
  { exists t, []. by rewrite app_nil_r. }
  rewrite acts_app, act_outlive. destruct (IH (t + from_secs SESSION_TTL_SECS)%Z (L ++ [mkConn u t]))
    as (t' & old & <- & ->).
  exists t', (t :: old). split; [done|]. by rewrite <- app_assoc.
Qed.

Lemma relieve_acts old t now :
  acts (concat (replicate (length old) (relieve u))) (mkSessions t (held t) (((mkConn u) <$> old) ++ now)) =
    mkSessions t (held t) (now ++ replicate (length old) (mkConn u t)).
Proof.
  revert now. induction old as [|c old IH]; intros now; [by rewrite app_nil_r|].
  cbn [length replicate concat fmap list_fmap app]. rewrite acts_app.
  rewrite act_relieve, <- app_assoc, IH, <- app_assoc. done.
Qed.
End overadmission.

(** C38. Reaping a live session is not harmless: the late logout of a reaped
    connection drops the slot of a younger connection of the same account.  With
    any caps, and from any moment on, an account opens any number of connections
    at one time and keeps them all open while the tracker counts one: [k]
    connections that outlived the time to live, each replaced when it logs out.
    All that are open at the end were opened just then. *)
Theorem reaped_logout_overadmits u g pa t k :
  (1 ≤ g)%Z → (∀ m, pa = Some m → (1 ≤ m)%Z) →
  let y := acts (overadmission u k) (mkSessions t (new g pa) []) in
  live y = replicate (S k) (mkConn u (clock y)) ∧
  global (tracker y) = 1%Z ∧ Spec.counts (tracker y) u = 1 ∧
  max_global (tracker y) = g ∧ max_per_account (tracker y) = pa.
Proof.
  intros Hg Hpa y. destruct (outlive_acts u g pa Hg Hpa k t []) as (t' & old & <- & Ho).
  assert (y = mkSessions t' (mkSessionState {[u := [t']]} 1 g pa) (replicate (S (length old)) (mkConn u t'))) as ->.
  { subst y. unfold overadmission. rewrite !acts_app, Ho. unfold acts at 2. cbn [fold_left app].
    by rewrite connect_new, relieve_acts. }
  split; [done|]. unfold Spec.counts. cbn. by rewrite lookup_singleton_eq.
Qed.
