(* ===== verification/Auth.v ===== *)
(** [auth.rs] and [hashing.rs]: the authentication gate and the user details
    a session is opened with.

    Argon2 and the PHC string format are the class [Argon2].  The session
    accountant is used through the interface [Admission]. *)
From S2P Require Import Prelude StdPath StdFs Prog Paths Crypto Config Account Limits.

(** ** [hashing.rs] *)

Inductive HashError : Type :=
| Hash (e : string)
| Parse (e : string).

Definition hash_error_to_string (e : HashError) : string :=
  match e with
  | Hash e => "password hashing failed: " +:+ e
  | Parse e => "invalid password hash: " +:+ e
  end.

(** What the crate's [Argon2::new] is called with. *)
Inductive Algorithm : Type := Argon2d | Argon2i | Argon2id.
Inductive Version : Type := V0x10 | V0x13.
Record Params : Type := mkParams { m_cost : Z; t_cost : Z; p_cost : Z; output_len : option Z }.
Record Hasher : Type := mkHasher { algorithm : Algorithm; version : Version; params : Params }.

Definition hasher : Hasher := mkHasher Argon2id V0x13 (mkParams 19456 2 1 None).

(** The [argon2] and [password_hash] crates: hashing under a salt to a parsed
    hash, its printed form, the parser of that form and the verifier, which
    takes algorithm and parameters from the parsed hash. *)
Class Argon2 := {
  PasswordHash : Type;
  argon2_hash : Hasher → bytes → bytes → result PasswordHash string;
  phc_to_string : PasswordHash → string;
  phc_parse : string → result PasswordHash string;
  argon2_verify : bytes → PasswordHash → bool
}.

(** Documented behaviour: printing a hash and parsing it gives it back, and
    the verifier accepts the password a hash was computed from. *)
Class Argon2Laws `{Argon2} := {
  phc_parse_print h : phc_parse (phc_to_string h) = Ok h;
  argon2_verify_hash hs p salt h : argon2_hash hs p salt = Ok h → argon2_verify p h = true
}.

(** The credentials of a login and the two outcomes of the crate's traits. *)
Inductive ChannelEncryptionState : Type := Plaintext | Tls.

Record Credentials : Type := mkCredentials {
  password : option string;
  command_channel_security : ChannelEncryptionState
}.

Inductive AuthenticationError : Type :=
| BadPassword
| ImplPropagated (e : string).

Record Principal : Type := mkPrincipal { principal_username : string }.

Inductive UserDetailError : Type := UserNotFound (u : string).

Record ReoUser : Type := mkReoUser {
  login : string;
  user_role : Role;
  user_require_tls : bool
}.

Section auth.
Context `{Argon2}.

(** The salt is drawn by the operating system's generator. *)
Definition hash_password (salt : bytes) (plain : string) : result string HashError :=
  let? phc := map_err Hash (argon2_hash hasher (bytes_of plain) salt) in
  Ok (phc_to_string phc).

Definition verify_password (plain phc : string) : result bool HashError :=
  let? parsed := map_err Parse (phc_parse phc) in
  Ok (argon2_verify (bytes_of plain) parsed).

(** ** [auth.rs] *)

Definition check_credentials (accounts : Accounts) (login password : string) : option Account :=
  match get accounts login with
  | None => None
  | Some acct =>
      match verify_password password (password_hash acct) with
      | Ok true => Some acct
      | _ => None
      end
  end.

Definition channel_is_secure (st : ChannelEncryptionState) : bool :=
  match st with Tls => true | Plaintext => false end.

Definition user_to_string (u : ReoUser) : string := login u.

Definition home (u : ReoUser) : option string :=
  match user_role u with
  | Uploader h => Some h
  | Viewer _ => None
  end.

Definition authenticate `{Admission Tk} (now : Z) (accounts : Accounts) (username : string)
    (creds : Credentials) (sessions : Tk) : result Principal AuthenticationError * Tk :=
  let pw := default EmptyString (password creds) in
  match check_credentials accounts username pw with
  | Some acct =>
      if require_tls acct && negb (channel_is_secure (command_channel_security creds)) then
        (Err (ImplPropagated "TLS required for this account"), sessions)
      else
        let '(ok, sessions') := take_slot now username sessions in
        if negb ok then (Err (ImplPropagated "connection limit reached"), sessions')
        else (Ok (mkPrincipal username), sessions')
  | None => (Err BadPassword, sessions)
  end.

Definition provide_user_detail (accounts : Accounts) (p : Principal)
    : result ReoUser UserDetailError :=
  match get accounts (principal_username p) with
  | Some a => Ok (mkReoUser (username a) (role a) (require_tls a))
  | None => Err (UserNotFound (principal_username p))
  end.

(** A whole login, as the server library runs it: the gate, then the details
    of the principal it answered.  The two read the account table separately,
    so a reload may come between them. *)
Definition log_in `{Admission Tk} (now : Z) (accounts accounts' : Accounts) (username : string)
    (creds : Credentials) (sessions : Tk) : option ReoUser * Tk :=
  match authenticate now accounts username creds sessions with
  | (Ok p, sessions') =>
      match provide_user_detail accounts' p with
      | Ok u => (Some u, sessions')
      | Err _ => (None, sessions')
      end
  | (Err _, sessions') => (None, sessions')
  end.

(** What a login must show before it is admitted. *)
Definition credentials_ok (accounts : Accounts) (u : string) (creds : Credentials)
    (a : Account) : Prop :=
  get accounts u = Some a ∧
  ∃ h, phc_parse (password_hash a) = Ok h ∧
       argon2_verify (bytes_of (default EmptyString (password creds))) h = true.

Definition channel_ok (a : Account) (creds : Credentials) : Prop :=
  require_tls a = true → command_channel_security creds = Tls.

(** ** Lemmas *)

Lemma check_credentials_Some accounts u pw a :
  check_credentials accounts u pw = Some a ↔
  get accounts u = Some a ∧
  ∃ h, phc_parse (password_hash a) = Ok h ∧ argon2_verify (bytes_of pw) h = true.
Proof.
  unfold check_credentials, verify_password.
  destruct (get accounts u) as [a'|]; [|naive_solver].
  destruct (phc_parse (password_hash a')) as [h|e] eqn:E; cbn.
  - destruct (argon2_verify (bytes_of pw) h) eqn:E'; (split; [intros [= <-]; eauto|]);
      intros ([= <-] & h' & Hp & Hv); congruence.
  - split; [done|]. intros ([= <-] & h & Hp & _). congruence.
Qed.

Lemma tls_gate a creds :
  require_tls a && negb (channel_is_secure (command_channel_security creds)) = false ↔
  channel_ok a creds.
Proof.
  unfold channel_ok. destruct (require_tls a), (command_channel_security creds); cbn; naive_solver.
Qed.

Section gate.
Context `{Admission Tk}.

Lemma authenticate_admitted now accounts u creds a (s : Tk) :
  credentials_ok accounts u creds a → channel_ok a creds →
  authenticate now accounts u creds s =
    (if (take_slot now u s).1 then Ok (mkPrincipal u) else Err (ImplPropagated "connection limit reached"),
     (take_slot now u s).2).
Proof.
  intros Hc Ht. unfold authenticate.
  rewrite (proj2 (check_credentials_Some _ _ _ a)) by done.
  rewrite (proj2 (tls_gate a creds) Ht). by destruct (take_slot now u s) as [[|] s'].
Qed.

Lemma authenticate_inv now accounts u creds (s : Tk) r s' :
  authenticate now accounts u creds s = (r, s') →
  (∃ a, credentials_ok accounts u creds a ∧ channel_ok a creds ∧ s' = (take_slot now u s).2 ∧
     r = if (take_slot now u s).1 then Ok (mkPrincipal u)
         else Err (ImplPropagated "connection limit reached")) ∨
  (s' = s ∧ is_ok r = false ∧ ∀ a, credentials_ok accounts u creds a → ¬ channel_ok a creds).
Proof.
  intros E. destruct (check_credentials accounts u (default EmptyString (password creds))) as [a|] eqn:Ec.
  - apply check_credentials_Some in Ec as Hc. 
    destruct (decide (require_tls a && negb (channel_is_secure (command_channel_security creds)) = true))
      as [Ht|Ht%not_true_is_false].
    + right. unfold authenticate in E. rewrite Ec, Ht in E. simplify_eq. split; [done|].
      split; [done|]. intros a' [Ha' _] Hch. destruct Hc as [Ha _]. simplify_eq.
      apply tls_gate in Hch. congruence.
    + left. exists a. apply tls_gate in Ht. rewrite (authenticate_admitted _ _ _ _ a) in E by done.
      by simplify_eq.
  - right. unfold authenticate in E. rewrite Ec in E. simplify_eq. split; [done|]. split; [done|].
    intros a Ha _. unfold credentials_ok in Ha. apply check_credentials_Some in Ha. congruence.
Qed.
End gate.
End auth.

(** ** Properties *)

Section properties.
Context `{Argon2} `{Admission Tk}.

(** C18. A login is accepted exactly when the account exists, the password
    verifies against its stored hash, the command channel is encrypted if the
    account requires it, and the accountant has room; it then takes exactly
    one slot of that account.  Every refused login leaves the accountant as it
    was. *)
Theorem authenticate_spec now accounts u creds (s : Tk) r s' :
  admission_ok now s → authenticate now accounts u creds s = (r, s') →
  (is_ok r = true ↔
     ∃ a, credentials_ok accounts u creds a ∧ channel_ok a creds ∧ may s u) ∧
  (is_ok r = true → r = Ok (mkPrincipal u) ∧ slots s' u = slots s u + 1 ∧
     ∀ u', u' ≠ u → slots s' u' = slots s u') ∧
  (is_ok r = false → s' = s).
Proof.
  intros Hok Ha. apply authenticate_inv in Ha as [(a & Hc & Ht & -> & ->)|(-> & Hr & Hno)].
  - pose proof (admit_iff now u s Hok) as Hi.
    pose proof (λ u', admit_slots now u s u') as Hs. pose proof (admit_refused now u s) as Hf.
    destruct (take_slot now u s) as [[|] s'']; cbn in *.
    + split; [|split; [|done]]; [naive_solver|]. intros _. split; [done|]. split.
      * rewrite Hs, decide_True by done. lia.
      * intros u' Hne. rewrite Hs, decide_False by done. lia.
    + split; [split; [done|]|split; [done|auto]]. intros (a' & _ & _ & Hm). by apply Hi in Hm.
  - rewrite Hr. split; [split; [done|]|done]. intros (a & ? & ? & _). by destruct (Hno a).
Qed.
End properties.

Section details.
Context `{AgeLib} `{Argon2}.

(** C19. Under a valid configuration, a session that comes out of a login
    carries the scope of the account that was authenticated: a camera login is
    an uploader whose home is its own directory under the archive root, with
    the camera's password and its TLS requirement checked; a viewer login has
    no home and the expanded scope of that viewer. *)
Theorem login_scope cfg now u creds (s : SessionState) user s' :
  valid_config cfg →
  log_in now (build cfg) (build cfg) u creds s = (Some user, s') →
  login user = u ∧
  ((∃ cam, cam ∈ camera cfg ∧ u = cam_login cam ∧
      home user = Some (join (root (archive cfg)) (cam_name cam)) ∧
      verify_password (default EmptyString (password creds)) (upload_password_hash cam) = Ok true ∧
      (cam_require_tls cam = Some true → command_channel_security creds = Tls)) ∨
   (∃ v, v ∈ viewer cfg ∧ u = viewer_name v ∧ home user = None ∧
      user_role user = Viewer (expand_scope cfg (viewer_scope v)) ∧
      verify_password (default EmptyString (password creds)) (viewer_password_hash v) = Ok true)).
Proof.
  intros Hv. unfold log_in.
  destruct (authenticate now (build cfg) u creds s) as [r s1] eqn:Ea.
  apply authenticate_inv in Ea as [(a & [Hg (h & Hp & Hh)] & Ht & -> & ->)|(-> & Hr & _)];
    [|by destruct r].
  destruct (take_slot now u s) as [[|] s2]; cbn; [|done].
  unfold provide_user_detail. cbn [principal_username]. rewrite Hg. intros [= <- <-].
  pose proof Hg as Hb. apply build_get in Hb; [|done].
  unfold verify_password. destruct Hb as [(cam & Hc & -> & ->)|(v & Hvv & -> & ->)]; cbn in *.
  - split; [done|]. left. exists cam. rewrite Hp. cbn. rewrite Hh. repeat split; try done.
    intros Hreq. apply Ht. cbn. by rewrite Hreq.
  - split; [done|]. right. exists v. rewrite Hp. cbn. by rewrite Hh.
Qed.
End details.
