(* ===== verification/Store.v ===== *)
(** The append-only store of [backend.rs]: [store_stream], [age_suffix] and
    [store_encrypted], each as a program over the file system operations, with
    every early return and the removal of the staging file on each failure. *)
From S2P Require Import Prelude StdPath StdFs Prog FsView Append Crypto.

Inductive StoreError : Type :=
| Overlap
| Gap
| Finalized
| SIo (k : Io.ErrorKind).

Definition io_store {A} (r : io A) : result A StoreError := map_err SIo r.

(** [create_dir_all] of the parent, when the path has one. *)
Definition make_parent (p : string) : prog (io unit) :=
  match parent p with
  | Some d => create_dir_all d
  | None => Ret (Ok tt)
  end.

(** The hard link that publishes the staging file, and the removal of the
    staging name that follows it on every outcome. *)
Definition finalize (staging real_final : string) (n : Z) : prog (result Z StoreError) :=
  let! r := ask (HardLink staging real_final) in
  match r with
  | Ok _ => let! _ := ask (RemoveFile staging) in Ret (Ok n)
  | Err Io.AlreadyExists => let! _ := ask (RemoveFile staging) in Ret (Err Finalized)
  | Err k => let! _ := ask (RemoveFile staging) in Ret (Err (SIo k))
  end.

(** Steps 4 to 6 of [store_stream]: from the creation of the parent on. *)
Definition append_to (staging real_final : string) (input : Input) : prog (result Z StoreError) :=
  try! _ := (let! r := make_parent staging in Ret (io_store r)) in
  try! fd := (let! r := ask (OpenAppend staging) in Ret (io_store r)) in
  let! r := copy input fd in
  match r with
  | Err e =>
      let! _ := ask (RemoveFile staging) in
      let! _ := ask (Close fd) in
      Ret (Err (SIo e))
  | Ok bytes_written =>
      let! r := ask (Flush fd) in
      match r with
      | Err e => let! _ := ask (Close fd) in Ret (Err (SIo e))
      | Ok _ =>
          let! _ := ask (Close fd) in
          finalize staging real_final bytes_written
      end
  end.

(** The size of the staging file, zero when there is none. *)
Definition staging_size (staging : string) : prog (result Z StoreError) :=
  let! r := ask (Stat staging) in
  Ret (match r with
       | Ok m => Ok (m_len m)
       | Err Io.NotFound => Ok 0%Z
       | Err e => Err (SIo e)
       end).

Definition store_stream (real_final : string) (start_pos : Z) (input : Input)
    : prog (result Z StoreError) :=
  try! ex := (let! r := ask (TryExists real_final) in Ret (io_store r)) in
  if ex : bool then Ret (Err Finalized)
  else
    let staging := staging_path real_final in
    try! existing_size := staging_size staging in
    match classify_offset start_pos existing_size with
    | Verdict.Ok => append_to staging real_final input
    | Verdict.Overlap => let! _ := ask (RemoveFile staging) in Ret (Err Overlap)
    | Verdict.Gap => let! _ := ask (RemoveFile staging) in Ret (Err Gap)
    end.

Definition age_suffix (path : string) : string := os_push path ".age".

Section store.
Context `{AgeLib}.

(** The blocking task: create the staging file and encrypt into it. *)
Definition encrypt_task (seed : Seed) (staging : string) (recipients : list Recipient)
    (input : Input) : prog (result Z CryptoError) :=
  let! r := ask (OpenTruncate FILE_MODE staging) in
  match r with
  | Err k => Ret (Err (CEIo k))
  | Ok fd =>
      let! r := encrypt_stream seed recipients input fd in
      let! _ := ask (Close fd) in
      Ret r
  end.

Definition store_encrypted (seed : Seed) (real_final : string) (recipients : list Recipient)
    (input : Input) : prog (result Z StoreError) :=
  let! ex := ask (TryExists real_final) in
  if match ex with Ok b => b | Err _ => false end then Ret (Err Finalized)
  else
    let staging := staging_path real_final in
    try! _ := (let! r := make_parent staging in Ret (io_store r)) in
    let! r := encrypt_task seed staging recipients input in
    match r with
    | Err _ => Ret (Err (SIo Io.Other))
    | Ok n => finalize staging real_final n
    end.

Definition store_error_to_string (e : StoreError) : string :=
  match e with
  | Overlap => "overlap: start_pos < staging size"
  | Gap => "gap: start_pos > staging size"
  | Finalized => "file already finalized (no overwrite)"
  | SIo e => "io error: " +:+ io_to_string e
  end.

Definition store_error_source (e : StoreError) : option Io.ErrorKind :=
  match e with SIo e => Some e | _ => None end.
End store.

(** ** Specification vocabulary *)

Definition in_data (input : Input) : bytes := concat (in_chunks input).

(** No open file refers to the inode. *)
Definition quiet (s : Fs) (i : nat) : Prop :=
  ∀ fd h, fs_fds s !! fd = Some h → handle_ino h ≠ Some i.

(** Nobody else holds the staging file of an upload: it has one name and no
    open descriptor. *)
Definition own_staging (s : Fs) (q : list string) : Prop :=
  ∀ i, fs_tree s !! q = Some (EFile i) → sole_name s q i ∧ quiet s i.

(** The file under [q] is published: one name, no open descriptor. *)
Definition published (s : Fs) (q : list string) (b : bytes) : Prop :=
  ∃ i, fs_tree s !! q = Some (EFile i) ∧ content s i = b ∧ sole_name s q i ∧ quiet s i.

(** A name and its staging name below a directory that can be made. *)
Record target (s : Fs) (q : list string) (n : string) : Prop := {
  tg_plain : plain_fs s;
  tg_way : open_way s q;
  tg_name : valid_name n
}.

(** The entry is unchanged, or a directory that was made on the way to [q]. *)
Definition made_on (q : list string) (s s' : Fs) (q' : list string) : Prop :=
  fs_tree s' !! q' = fs_tree s !! q' ∨
  (fs_tree s !! q' = None ∧ fs_tree s' !! q' = Some EDir ∧ q' `prefix_of` q).

(** The effect of an upload that ends without leaving a staging file: [fin] is
    the final file's content afterwards, everything else is as before. *)
Record upload_effect (q : list string) (n : string) (fin : option bytes) (s s' : Fs) : Prop := {
  ue_plain : plain_fs s';
  ue_fds fd : fs_fds s' !! fd = fs_fds s !! fd;
  ue_cwd : fs_cwd s' = fs_cwd s;
  ue_dirs d : is_dir (fs_tree s) d → is_dir (fs_tree s') d;
  ue_final : file_at s' (q ++ [n]) = fin;
  ue_staging : fs_tree s' !! (q ++ [n +:+ STAGING_SUFFIX]) = None;
  ue_others q' : q' ≠ q ++ [n] → q' ≠ q ++ [n +:+ STAGING_SUFFIX] → file_at s' q' = file_at s q';
  ue_tree q' : q' ≠ q ++ [n +:+ STAGING_SUFFIX] →
    made_on q s s' q' ∨ (q' = q ++ [n] ∧ ∃ i, fs_tree s' !! q' = Some (EFile i))
}.

(** ** Lemmas *)

Lemma staging_name_valid n : valid_name n → valid_name (n +:+ STAGING_SUFFIX).
Proof. intros Hn. apply valid_name_push; [done|done|cbn; lia]. Qed.

Lemma staging_name_ne n : n +:+ STAGING_SUFFIX ≠ n.
Proof. intros H%(f_equal String.length). rewrite string_app_length in H. cbn in H. lia. Qed.

Lemma final_ne_staging (q : list string) n : q ++ [n] ≠ q ++ [n +:+ STAGING_SUFFIX].
Proof. intros H. simplify_list_eq. symmetry in H. by apply staging_name_ne in H. Qed.

Lemma staging_render q n :
  Forall valid_name q → valid_name n →
  staging_path (render (q ++ [n])) = render (q ++ [n +:+ STAGING_SUFFIX]).
Proof. apply os_push_render. Qed.

(** *** Opening the staging file *)

(** The descriptor [fd] was opened on the staging file [st], which is inode [i]
    holding [old]; nobody else refers to the inode. *)
Record opened (st : list string) (fd i : nat) (h : Handle) (old : bytes) (s s' : Fs) : Prop := {
  op_plain : plain_fs s';
  op_tree : fs_tree s' = <[st := EFile i]> (fs_tree s);
  op_content : content s' i = old;
  op_others j : j ≠ i → content s' j = content s j;
  op_fds : fs_fds s' = <[fd := h]> (fs_fds s);
  op_fresh : fs_fds s !! fd = None;
  op_cwd : fs_cwd s' = fs_cwd s;
  op_entry : fs_tree s !! st = None ∨ fs_tree s !! st = Some (EFile i);
  op_end : at_end h i s';
  op_sole : sole_name s st i;
  op_quiet : quiet s i
}.

Lemma next_fd_fresh s : wf_fs s → fs_fds s !! fs_next_fd s = None.
Proof.
  intros Hw. destruct (_ !! _) eqn:E; [|done]. apply (wf_fd_nums _ Hw) in E. lia.
Qed.

Lemma next_ino_fresh s q : wf_fs s → sole_name s q (fs_next_ino s) ∧ quiet s (fs_next_ino s).
Proof.
  intros Hw. split.
  - intros q' Hq%(wf_names _ Hw). lia.
  - intros fd h Hfd Hh. pose proof (wf_fd_inos _ Hw _ _ _ Hfd Hh). lia.
Qed.

Section opening.
Context (s : Fs) (q : list string) (x : string).
Context (Hp : plain_fs s) (Hd : is_dir (fs_tree s) q) (Hx : valid_name x).
Context (Hown : own_staging s (q ++ [x])) (Hfile : fs_tree s !! (q ++ [x]) ≠ Some EDir).

Lemma open_append_staging :
  ∃ i s', exec (OpenAppend (render (q ++ [x]))) s = (Ok (fs_next_fd s), s') ∧
    opened (q ++ [x]) (fs_next_fd s) i (HAppend i) (default [] (file_at s (q ++ [x]))) s s'.
Proof.
  pose proof (next_fd_fresh s (pf_wf _ Hp)) as Hfd.
  destruct (exec (OpenAppend (render (q ++ [x]))) s) as [r s'] eqn:E.
  pose proof (exec_plain (OpenAppend (render (q ++ [x]))) s Hp I) as Hpl. rewrite E in Hpl.
  cbn [exec] in E. rewrite (lookup_at s Hp) in E by done. unfold file_at.
  destruct (fs_tree s !! (q ++ [x])) as [[i| |l]|] eqn:Ex; [|done|by destruct (pf_links _ Hp _ _ Ex)|].
  - exists i, s'. destruct (Hown i Ex) as [Hs Hq]. unfold open_handle in E. simplify_eq/=. split; [done|].
    split; try done; [cbn; by rewrite insert_id|by right|by left].
  - exists (fs_next_ino s), s'. destruct (next_ino_fresh s (q ++ [x]) (pf_wf _ Hp)) as [Hs Hq].
    unfold open_handle in E. simplify_eq/=. split; [done|].
    split; try done; [| |by left|by left]; unfold content, inode_of; cbn; intros; by simplify_map_eq.
Qed.

Lemma open_truncate_staging :
  ∃ i s', exec (OpenTruncate FILE_MODE (render (q ++ [x]))) s = (Ok (fs_next_fd s), s') ∧
    opened (q ++ [x]) (fs_next_fd s) i (HWrite i 0) [] s s'.
Proof.
  pose proof (next_fd_fresh s (pf_wf _ Hp)) as Hfd.
  destruct (exec (OpenTruncate FILE_MODE (render (q ++ [x]))) s) as [r s'] eqn:E.
  pose proof (exec_plain (OpenTruncate FILE_MODE (render (q ++ [x]))) s Hp I) as Hpl. rewrite E in Hpl.
  cbn [exec] in E. rewrite (lookup_at s Hp) in E by done.
  destruct (fs_tree s !! (q ++ [x])) as [[i| |l]|] eqn:Ex; [|done|by destruct (pf_links _ Hp _ _ Ex)|].
  - exists i, s'. destruct (Hown i Ex) as [Hs Hq]. unfold open_handle in E. simplify_eq/=. split; [done|].
    split; try done; unfold content, inode_of, at_end; cbn; intros; simplify_map_eq; auto.
    + by rewrite insert_id.
    + right. unfold content, inode_of. cbn. by simplify_map_eq.
  - exists (fs_next_ino s), s'. destruct (next_ino_fresh s (q ++ [x]) (pf_wf _ Hp)) as [Hs Hq].
    unfold open_handle in E. simplify_eq/=. split; [done|].
    split; try done; unfold content, inode_of, at_end; cbn; intros; simplify_map_eq; auto.
    right. unfold content, inode_of. cbn. by simplify_map_eq.
Qed.
End opening.

(** Removing a name and closing a descriptor commute. *)
Lemma remove_close p fd s :
  (exec (Close fd) (exec (RemoveFile p) s).2).2 = (exec (RemoveFile p) (set_fds (delete fd) s)).2.
Proof.
  cbn [exec snd]. change (lookup_path (set_fds (delete fd) s) false p) with (lookup_path s false p).
  by destruct (lookup_path s false p) as [q []| |].
Qed.

(** *** From the written staging file on *)

(** The staging file is complete and closed: it holds [data], everything else
    is as it was in [s]. *)
Record staged (st : list string) (i : nat) (data : bytes) (s s' : Fs) : Prop := {
  sg_plain : plain_fs s';
  sg_tree : fs_tree s' = <[st := EFile i]> (fs_tree s);
  sg_content : content s' i = data;
  sg_others j : j ≠ i → content s' j = content s j;
  sg_fds fd : fs_fds s' !! fd = fs_fds s !! fd;
  sg_cwd : fs_cwd s' = fs_cwd s;
  sg_entry : fs_tree s !! st = None ∨ fs_tree s !! st = Some (EFile i);
  sg_sole : sole_name s st i;
  sg_quiet : quiet s i
}.

Lemma staged_close st fd i h old data s s1 s2 :
  opened st fd i h old s s1 → wrote fd i data s1 s2 →
  staged st i (old ++ data) s (set_fds (delete fd) s2).
Proof.
  intros [] []. split; cbn; try done.
  - apply (exec_plain (Close fd) s2); [auto|exact I].
  - congruence.
  - change (content s2 i = old ++ data). congruence.
  - intros j Hj. change (content s2 j = content s j). rewrite wr_others, op_others0; done.
  - intros fd'. destruct (decide (fd' = fd)) as [->|]; [by simplify_map_eq|].
    rewrite lookup_delete_ne, wr_fds, op_fds0, lookup_insert_ne by done. done.
  - congruence.
Qed.

Lemma staged_files st i data s s1 :
  staged st i data s s1 →
  file_at s1 st = Some data ∧ ∀ q', q' ≠ st → file_at s1 q' = file_at s q'.
Proof.
  intros Hg. unfold file_at. rewrite (sg_tree _ _ _ _ _ Hg), lookup_insert_eq.
  split; [f_equal; apply Hg|]. intros q' Hne. rewrite lookup_insert_ne by done.
  destruct (fs_tree s !! q') as [[j| |]|] eqn:E; try done.
  rewrite (sg_others _ _ _ _ _ Hg); [done|]. intros ->. by apply (sg_sole _ _ _ _ _ Hg) in E.
Qed.

Section finishing.
Context (s s1 : Fs) (q : list string) (n : string) (i : nat) (data : bytes).
Context (Hg : staged (q ++ [n +:+ STAGING_SUFFIX]) i data s s1).
Context (Hd : is_dir (fs_tree s) q) (Hn : valid_name n).

Lemma staged_dirs d : is_dir (fs_tree s) d → is_dir (fs_tree s1) d.
Proof.
  rewrite (sg_tree _ _ _ _ _ Hg). intros [->|H]; [by left|]. right.
  rewrite lookup_insert_ne; [done|]. intros Heq. rewrite Heq in *.
  destruct (sg_entry _ _ _ _ _ Hg); congruence.
Qed.

Lemma staged_dir : is_dir (fs_tree s1) q.
Proof. by apply staged_dirs. Qed.

Lemma staged_file_at q' : q' ≠ q ++ [n +:+ STAGING_SUFFIX] → file_at s1 q' = file_at s q'.
Proof. by apply (staged_files _ _ _ _ _ Hg). Qed.

(** Removing the staging file undoes the upload. *)
Lemma discard_effect :
  let s2 := (exec (RemoveFile (render (q ++ [n +:+ STAGING_SUFFIX]))) s1).2 in
  upload_effect q n (file_at s (q ++ [n])) s s2.
Proof.
  pose proof (exec_plain (RemoveFile (render (q ++ [n +:+ STAGING_SUFFIX]))) s1 (sg_plain _ _ _ _ _ Hg) I) as Hpl.
  cbn [exec] in *. rewrite (lookup_at s1 (sg_plain _ _ _ _ _ Hg)) in * by
    (apply staged_dir || by apply staging_name_valid).
  rewrite (sg_tree _ _ _ _ _ Hg), lookup_insert_eq in *. cbn in *.
  assert (∀ q', q' ≠ q ++ [n +:+ STAGING_SUFFIX] →
    file_at (remove_entry (q ++ [n +:+ STAGING_SUFFIX]) s1) q' = file_at s q') as Hf.
  { intros q' Hne. rewrite <- staged_file_at by done. unfold file_at. cbn.
    by rewrite lookup_delete_ne. }
  split; [done|apply Hg|apply Hg| |apply Hf, final_ne_staging|cbn; by simplify_map_eq|auto|].
  2: { intros q' Hne. left. left. cbn. by rewrite lookup_delete_ne, (sg_tree _ _ _ _ _ Hg), lookup_insert_ne. }
  intros d Hdd. apply (is_dir_delete_file _ _ _ (EFile i)); [|done|by apply staged_dirs].
  by rewrite (sg_tree _ _ _ _ _ Hg), lookup_insert_eq.
Qed.

(** The file system after the hard link, and after the staging name is gone. *)
Abbreviation linked := (insert_entry q n (EFile i) s1).
Abbreviation finalized := (remove_entry (q ++ [n +:+ STAGING_SUFFIX]) linked).

Lemma link_staged :
  fs_tree s !! (q ++ [n]) = None →
  exec (HardLink (render (q ++ [n +:+ STAGING_SUFFIX])) (render (q ++ [n]))) s1 = (Ok tt, linked) ∧
  plain_fs linked.
Proof.
  intros Hfin. pose proof (staging_name_valid n Hn) as Hst. pose proof (sg_plain _ _ _ _ _ Hg) as Hp1.
  pose proof staged_dir as Hd1. pose proof (final_ne_staging q n) as Hne.
  pose proof (exec_plain (HardLink (render (q ++ [n +:+ STAGING_SUFFIX])) (render (q ++ [n]))) s1 Hp1 I) as Hp2.
  cbn [exec] in *. rewrite !(lookup_at s1 Hp1), (sg_tree _ _ _ _ _ Hg), lookup_insert_eq in * by done.
  by rewrite lookup_insert_ne, Hfin in * by done.
Qed.

Lemma linked_staging : fs_tree linked !! (q ++ [n +:+ STAGING_SUFFIX]) = Some (EFile i).
Proof.
  pose proof (final_ne_staging q n). cbn.
  by rewrite lookup_insert_ne, (sg_tree _ _ _ _ _ Hg), lookup_insert_eq by done.
Qed.

Lemma linked_dirs d :
  fs_tree s !! (q ++ [n]) = None → is_dir (fs_tree s) d → is_dir (fs_tree linked) d.
Proof.
  intros Hfin Hdd. pose proof (final_ne_staging q n). apply is_dir_insert; [|by apply staged_dirs].
  by rewrite (sg_tree _ _ _ _ _ Hg), lookup_insert_ne by done.
Qed.

Lemma finalize_run m :
  fs_tree s !! (q ++ [n]) = None →
  run_ok (finalize (render (q ++ [n +:+ STAGING_SUFFIX])) (render (q ++ [n])) m) s1 = (Ok m, finalized) ∧
  plain_fs finalized.
Proof.
  intros Hfin. destruct (link_staged Hfin) as [Hl Hp2].
  pose proof (exec_plain (RemoveFile (render (q ++ [n +:+ STAGING_SUFFIX]))) _ Hp2 I) as Hp3.
  pose proof (linked_dirs q Hfin Hd) as Hd2.
  unfold finalize. rewrite run_ok_bind, run_ok_ask, Hl. cbn [fst snd].
  rewrite run_ok_bind, run_ok_ask. cbn [exec] in *.
  rewrite (lookup_at _ Hp2), linked_staging in * by (done || by apply staging_name_valid). done.
Qed.

Lemma finalize_effect m :
  fs_tree s !! (q ++ [n]) = None →
  ∃ s2, run_ok (finalize (render (q ++ [n +:+ STAGING_SUFFIX])) (render (q ++ [n])) m) s1 = (Ok m, s2) ∧
    upload_effect q n (Some data) s s2 ∧ published s2 (q ++ [n]) data.
Proof.
  intros Hfin. pose proof (final_ne_staging q n) as Hne. destruct (finalize_run m Hfin) as [Hr Hp3].
  exists finalized. split; [done|].
  assert (fs_tree finalized !! (q ++ [n]) = Some (EFile i)) as Hf.
  { cbn. by rewrite lookup_delete_ne, lookup_insert_eq by done. }
  split; [split|exists i; split_and!]; try done; try apply Hg.
  - intros d Hdd. apply (is_dir_delete_file _ _ _ (EFile i)); [apply linked_staging|done|].
    by apply linked_dirs.
  - unfold file_at. rewrite Hf. f_equal. apply Hg.
  - cbn. by simplify_map_eq.
  - intros q' H1 H2. rewrite <- staged_file_at by done. unfold file_at. cbn.
    by rewrite lookup_delete_ne, lookup_insert_ne by done.
  - intros q' Hq'. destruct (decide (q' = q ++ [n])) as [->|Hnq]; [right; eauto|]. left. left. cbn.
    by rewrite lookup_delete_ne, lookup_insert_ne, (sg_tree _ _ _ _ _ Hg), lookup_insert_ne by done.
  - intros q' Hq'. cbn in Hq'. apply lookup_delete_Some in Hq' as [Hnq Hq'].
    apply lookup_insert_Some in Hq' as [[<- _]|[Hn' Hq']]; [done|].
    cbn in Hq'. rewrite (sg_tree _ _ _ _ _ Hg), lookup_insert_ne in Hq' by done.
    by apply (sg_sole _ _ _ _ _ Hg) in Hq'.
  - intros fd h Hfd. apply (sg_quiet _ _ _ _ _ Hg fd). by rewrite <- (sg_fds _ _ _ _ _ Hg).
Qed.
End finishing.

(** *** The parent directory *)

Lemma make_parent_ok s q x :
  plain_fs s → open_way s q → valid_name x →
  ∃ s0, run_ok (make_parent (render (q ++ [x]))) s = (Ok tt, s0) ∧
    is_dir (fs_tree s0) q ∧ dirs_made q s s0.
Proof.
  intros Hp [Hv Hf] Hx. unfold make_parent. rewrite parent_render.
  - by apply create_dir_all_ok.
  - apply Forall_app. auto.
Qed.

Section made.
Context (s s0 : Fs) (q : list string) (Hm : dirs_made q s s0).

Lemma dirs_made_child x : fs_tree s0 !! (q ++ [x]) = fs_tree s !! (q ++ [x]).
Proof.
  destruct (dm_tree _ _ _ Hm (q ++ [x])) as [|(_ & _ & Hx)]; [done|].
  apply prefix_length in Hx. rewrite length_app in Hx. cbn in Hx. lia.
Qed.

Lemma dirs_made_own st : own_staging s st → own_staging s0 st.
Proof.
  assert (∀ q' i, fs_tree s0 !! q' = Some (EFile i) → fs_tree s !! q' = Some (EFile i)) as Ht.
  { intros q' i H. destruct (dm_tree _ _ _ Hm q') as [<-|(_ & H' & _)]; [done|congruence]. }
  intros Ho i Hi. destruct (Ho i (Ht _ _ Hi)) as [Hs Hq]. split.
  - intros q' Hq'. by apply Hs, Ht.
  - intros fd h. rewrite (dm_fds _ _ _ Hm). apply Hq.
Qed.

Lemma dirs_made_effect n fin s' : upload_effect q n fin s0 s' → upload_effect q n fin s s'.
Proof.
  intros []. split; try done.
  - intros fd. by rewrite ue_fds0, (dm_fds _ _ _ Hm).
  - by rewrite ue_cwd0, (dm_cwd _ _ _ Hm).
  - intros d Hd. apply ue_dirs0. destruct Hd as [->|Hd]; [by left|]. right.
    destruct (dm_tree _ _ _ Hm d) as [->|(? & ? & _)]; congruence.
  - intros q' H1 H2. rewrite ue_others0 by done. by eapply dirs_made_file_at.
  - intros q' Hq. destruct (ue_tree0 q' Hq) as [Ht|Ht]; [left|by right]. unfold made_on in *.
    destruct (dm_tree _ _ _ Hm q') as [<-|(Hn & Hd & Hpre)]; [done|]. right. split; [done|].
    destruct Ht as [->|(? & ? & _)]; [done|congruence].
Qed.
End made.

(** *** [append_to] *)

Section append.
Context (s : Fs) (q : list string) (n : string) (Ht : target s q n).
Context (Hst : fs_tree s !! (q ++ [n +:+ STAGING_SUFFIX]) ≠ Some EDir).
Context (Hown : own_staging s (q ++ [n +:+ STAGING_SUFFIX])).

Lemma append_staged input :
  ∃ s0 i s1 s2,
    run_ok (make_parent (render (q ++ [n +:+ STAGING_SUFFIX]))) s = (Ok tt, s0) ∧
    dirs_made q s s0 ∧ is_dir (fs_tree s0) q ∧
    exec (OpenAppend (render (q ++ [n +:+ STAGING_SUFFIX]))) s0 = (Ok (fs_next_fd s0), s1) ∧
    run_ok (copy input (fs_next_fd s0)) s1 =
      (match in_end input with None => Ok (Z.of_nat (length (in_data input))) | Some k => Err k end, s2) ∧
    staged (q ++ [n +:+ STAGING_SUFFIX]) i
      (default [] (file_at s (q ++ [n +:+ STAGING_SUFFIX])) ++ in_data input) s0
      (set_fds (delete (fs_next_fd s0)) s2).
Proof.
  destruct Ht as [Hp Hw Hn]. pose proof (staging_name_valid n Hn) as Hx.
  destruct (make_parent_ok s q (n +:+ STAGING_SUFFIX)) as (s0 & Hmk & Hd & Hm); [done..|].
  destruct (open_append_staging s0 q (n +:+ STAGING_SUFFIX)) as (i & s1 & Ho & Hop).
  - apply Hm.
  - done.
  - done.
  - by eapply dirs_made_own.
  - by rewrite (dirs_made_child s s0 q Hm).
  - destruct (copy_spec (fs_next_fd s0) i input s1 (HAppend i)) as (s2 & Hc & Hwr).
    { rewrite (op_fds _ _ _ _ _ _ _ Hop). by simplify_map_eq. }
    { by left. }
    exists s0, i, s1, s2. split_and!; try done.
    rewrite <- (dirs_made_file_at _ _ _ (q ++ [n +:+ STAGING_SUFFIX]) Hm).
    by eapply staged_close.
Qed.

Lemma append_to_ok input :
  fs_tree s !! (q ++ [n]) = None → in_end input = None →
  ∃ s', run_ok (append_to (render (q ++ [n +:+ STAGING_SUFFIX])) (render (q ++ [n])) input) s =
      (Ok (Z.of_nat (length (in_data input))), s') ∧
    upload_effect q n (Some (default [] (file_at s (q ++ [n +:+ STAGING_SUFFIX])) ++ in_data input)) s s' ∧
    published s' (q ++ [n]) (default [] (file_at s (q ++ [n +:+ STAGING_SUFFIX])) ++ in_data input).
Proof.
  intros Hfin Hend. destruct (append_staged input) as (s0 & i & s1 & s2 & Hmk & Hm & Hd & Ho & Hc & Hg).
  destruct (finalize_effect _ _ _ _ _ _ Hg Hd (tg_name _ _ _ Ht) (Z.of_nat (length (in_data input))))
    as (s3 & Hf & He & Hpub); [by rewrite (dirs_made_child s s0 q Hm)|].
  exists s3. split; [|split; [by eapply dirs_made_effect|done]].
  unfold append_to. rewrite run_ok_bind, run_ok_bind, Hmk. cbn [fst snd].
  rewrite run_ok_ret. cbn [io_store map_err fst snd].
  rewrite run_ok_bind, run_ok_bind, run_ok_ask, Ho. cbn [fst snd].
  rewrite run_ok_ret. cbn [io_store map_err fst snd].
  rewrite run_ok_bind, Hc, Hend. cbn [fst snd].
  rewrite run_ok_bind, run_ok_ask. cbn [exec fst snd]. rewrite run_ok_bind, run_ok_ask.
  cbn [exec fst snd]. exact Hf.
Qed.

Lemma append_to_broken input k :
  in_end input = Some k →
  ∃ s', run_ok (append_to (render (q ++ [n +:+ STAGING_SUFFIX])) (render (q ++ [n])) input) s =
      (Err (SIo k), s') ∧ upload_effect q n (file_at s (q ++ [n])) s s'.
Proof.
  intros Hend. destruct (append_staged input) as (s0 & i & s1 & s2 & Hmk & Hm & Hd & Ho & Hc & Hg).
  pose proof (discard_effect _ _ _ _ _ _ Hg Hd (tg_name _ _ _ Ht)) as He.
  eexists. split; cycle 1.
  { rewrite <- (dirs_made_file_at _ _ _ (q ++ [n]) Hm). eapply dirs_made_effect; [done|exact He]. }
  unfold append_to. rewrite run_ok_bind, run_ok_bind, Hmk. cbn [fst snd].
  rewrite run_ok_ret. cbn [io_store map_err fst snd].
  rewrite run_ok_bind, run_ok_bind, run_ok_ask, Ho. cbn [fst snd].
  rewrite run_ok_ret. cbn [io_store map_err fst snd].
  rewrite run_ok_bind, Hc, Hend. cbn [fst snd].
  rewrite run_ok_bind, run_ok_ask, run_ok_bind, run_ok_ask. cbn [fst snd].
  rewrite run_ok_ret. f_equal. apply remove_close.
Qed.
End append.

(** Discarding a staging file that nobody else holds. *)
Lemma discard_staging s q n :
  target s q n → fs_tree s !! (q ++ [n]) = None →
  fs_tree s !! (q ++ [n +:+ STAGING_SUFFIX]) ≠ Some EDir →
  upload_effect q n None s (exec (RemoveFile (render (q ++ [n +:+ STAGING_SUFFIX]))) s).2.
Proof.
  intros [Hp Hw Hn] Hfin Hst. pose proof (staging_name_valid n Hn) as Hx.
  pose proof (exec_plain (RemoveFile (render (q ++ [n +:+ STAGING_SUFFIX]))) s Hp I) as Hpl.
  rewrite (remove_file_way s Hp q Hw) in * by done.
  destruct (fs_tree s !! (q ++ [n +:+ STAGING_SUFFIX])) as [[i| |l]|] eqn:E.
  2: done. 2: by destruct (pf_links _ Hp _ _ E).
  - cbn [snd] in *. split; cbn; try done; [intros d; by apply (is_dir_delete_file _ _ _ (EFile i))| |by simplify_map_eq| |].
    + unfold file_at. cbn. by rewrite lookup_delete_ne, Hfin by (apply not_eq_sym, final_ne_staging).
    + intros q' _ Hne. unfold file_at. cbn. by rewrite lookup_delete_ne.
    + intros q' Hne. left. left. cbn. by rewrite lookup_delete_ne.
  - split; try done; [by apply file_at_None|]. intros q' _. left. by left.
Qed.

(** ** Properties *)

Lemma staging_size_at s q n :
  target s q n → fs_tree s !! (q ++ [n +:+ STAGING_SUFFIX]) ≠ Some EDir →
  run_ok (staging_size (render (q ++ [n +:+ STAGING_SUFFIX]))) s =
    (Ok (Z.of_nat (length (default [] (file_at s (q ++ [n +:+ STAGING_SUFFIX]))))), s).
Proof.
  intros [Hp Hw Hn] Hst. unfold staging_size. rewrite run_ok_bind, run_ok_ask.
  rewrite (stat_way s Hp) by auto using staging_name_valid. unfold file_at.
  destruct (fs_tree s !! (q ++ [n +:+ STAGING_SUFFIX])) as [[i| |l]|] eqn:E; [done|done| |done].
  by destruct (pf_links _ Hp _ _ E).
Qed.

(** The front of [store_stream], when the final name is free. *)
Lemma store_stream_front s q n start input :
  target s q n → fs_tree s !! (q ++ [n]) = None →
  fs_tree s !! (q ++ [n +:+ STAGING_SUFFIX]) ≠ Some EDir →
  run_ok (store_stream (render (q ++ [n])) start input) s =
    run_ok (match classify_offset start
                    (Z.of_nat (length (default [] (file_at s (q ++ [n +:+ STAGING_SUFFIX]))))) with
            | Verdict.Ok => append_to (render (q ++ [n +:+ STAGING_SUFFIX])) (render (q ++ [n])) input
            | Verdict.Overlap =>
                let! _ := ask (RemoveFile (render (q ++ [n +:+ STAGING_SUFFIX]))) in Ret (Err Overlap)
            | Verdict.Gap =>
                let! _ := ask (RemoveFile (render (q ++ [n +:+ STAGING_SUFFIX]))) in Ret (Err Gap)
            end) s.
Proof.
  intros Ht Hfin Hst. pose proof Ht as [Hp Hw Hn]. unfold store_stream.
  rewrite run_ok_bind, run_ok_bind, run_ok_ask, (try_exists_way s Hp), Hfin by done.
  cbn [fst snd]. rewrite run_ok_ret. cbn [io_store map_err fst snd].
  rewrite staging_render by (done || apply Hw).
  by rewrite run_ok_bind, staging_size_at by done.
Qed.

Lemma store_stream_ok s q n start input :
  target s q n → fs_tree s !! (q ++ [n]) = None →
  fs_tree s !! (q ++ [n +:+ STAGING_SUFFIX]) ≠ Some EDir →
  own_staging s (q ++ [n +:+ STAGING_SUFFIX]) →
  start = Z.of_nat (length (default [] (file_at s (q ++ [n +:+ STAGING_SUFFIX])))) →
  in_end input = None →
  ∃ s', run_ok (store_stream (render (q ++ [n])) start input) s =
      (Ok (Z.of_nat (length (in_data input))), s') ∧
    upload_effect q n
      (Some (default [] (file_at s (q ++ [n +:+ STAGING_SUFFIX])) ++ in_data input)) s s' ∧
    published s' (q ++ [n]) (default [] (file_at s (q ++ [n +:+ STAGING_SUFFIX])) ++ in_data input).
Proof.
  intros Ht Hfin Hst Hown -> Hend. rewrite store_stream_front by done.
  rewrite (proj2 (proj1 (classify_offset_spec _ _)) eq_refl). by apply append_to_ok.
Qed.

(** A first upload of a name, with nothing staged. *)
Lemma upload_fresh s q n input :
  plain_fs s → open_way s q → valid_name n → fs_tree s !! (q ++ [n]) = None →
  fs_tree s !! (q ++ [n +:+ STAGING_SUFFIX]) = None → in_end input = None →
  ∃ s', run_ok (store_stream (render (q ++ [n])) 0 input) s =
      (Ok (Z.of_nat (length (in_data input))), s') ∧
    upload_effect q n (Some (in_data input)) s s' ∧ published s' (q ++ [n]) (in_data input).
Proof.
  intros Hp Hw Hn Hfin Hst Hend. pose proof (file_at_None _ _ Hst) as Hf.
  destruct (store_stream_ok s q n 0 input) as (s' & Hs & He & Hpub); rewrite ?Hf in *; try done.
  - rewrite Hst. done.
  - intros i Hi. congruence.
  - eauto.
Qed.

(** C6. An upload that begins at the end of what is staged succeeds: the final
    file then holds the staged bytes followed by everything the client sent,
    the answer is the number of bytes sent, the staging name is gone, no
    descriptor stays open, every other file keeps its content, and the final
    file has no other name and no open descriptor. *)
Theorem store_stream_stores s q n start input :
  target s q n → fs_tree s !! (q ++ [n]) = None →
  fs_tree s !! (q ++ [n +:+ STAGING_SUFFIX]) ≠ Some EDir →
  own_staging s (q ++ [n +:+ STAGING_SUFFIX]) →
  start = Z.of_nat (length (default [] (file_at s (q ++ [n +:+ STAGING_SUFFIX])))) →
  in_end input = None →
  ∃ s', run_ok (store_stream (render (q ++ [n])) start input) s =
      (Ok (Z.of_nat (length (in_data input))), s') ∧
    upload_effect q n
      (Some (default [] (file_at s (q ++ [n +:+ STAGING_SUFFIX])) ++ in_data input)) s s' ∧
    published s' (q ++ [n]) (default [] (file_at s (q ++ [n +:+ STAGING_SUFFIX])) ++ in_data input).
Proof. apply store_stream_ok. Qed.

(** An upload onto an existing final name is refused as finalized and
    changes nothing at all, whatever its offset and content. *)
Theorem store_stream_immutable s q n start input e :
  target s q n → fs_tree s !! (q ++ [n]) = Some e →
  run_ok (store_stream (render (q ++ [n])) start input) s = (Err Finalized, s).
Proof.
  intros [Hp Hw Hn] Hfin. unfold store_stream.
  by rewrite run_ok_bind, run_ok_bind, run_ok_ask, (try_exists_way s Hp), Hfin by done.
Qed.

(** C14. An upload that does not begin exactly at the staged size is refused,
    as an overlap below it and as a gap above it; not a byte is stored, the
    staging file is discarded, the final name stays free and every other file
    keeps its content. *)
Theorem store_stream_offset s q n start input :
  target s q n → fs_tree s !! (q ++ [n]) = None →
  fs_tree s !! (q ++ [n +:+ STAGING_SUFFIX]) ≠ Some EDir →
  let size := Z.of_nat (length (default [] (file_at s (q ++ [n +:+ STAGING_SUFFIX])))) in
  start ≠ size →
  ∃ s', run_ok (store_stream (render (q ++ [n])) start input) s =
      (Err (if decide (start < size)%Z then Overlap else Gap), s') ∧
    upload_effect q n None s s'.
Proof.
  intros Ht Hfin Hst size Hne. rewrite store_stream_front by done. fold size.
  exists (exec (RemoveFile (render (q ++ [n +:+ STAGING_SUFFIX]))) s).2. split.
  - destruct (classify_offset_spec start size) as (H1 & H2 & H3). case_decide as Hlt.
    + apply H2 in Hlt as ->. by rewrite run_ok_bind, run_ok_ask.
    + assert (size < start)%Z as Hgt%H3 by lia. rewrite Hgt. by rewrite run_ok_bind, run_ok_ask.
  - by apply discard_staging.
Qed.

(** When the client's stream breaks, the error is reported, the staging
    file is discarded with whatever was received and every other file keeps
    its content. *)
Theorem store_stream_broken s q n start input k :
  target s q n → fs_tree s !! (q ++ [n]) = None →
  fs_tree s !! (q ++ [n +:+ STAGING_SUFFIX]) ≠ Some EDir →
  own_staging s (q ++ [n +:+ STAGING_SUFFIX]) →
  start = Z.of_nat (length (default [] (file_at s (q ++ [n +:+ STAGING_SUFFIX])))) →
  in_end input = Some k →
  ∃ s', run_ok (store_stream (render (q ++ [n])) start input) s = (Err (SIo k), s') ∧
    upload_effect q n None s s'.
Proof.
  intros Ht Hfin Hst Hown -> Hend. rewrite store_stream_front by done.
  rewrite (proj2 (proj1 (classify_offset_spec _ _)) eq_refl).
  rewrite <- (file_at_None s (q ++ [n])) by done. by apply append_to_broken.
Qed.

(** *** The encrypted store *)

Section encrypted.
Context `{AgeLib}.

Lemma encrypted_staged seed recs enc input s q n :
  target s q n → fs_tree s !! (q ++ [n +:+ STAGING_SUFFIX]) ≠ Some EDir →
  own_staging s (q ++ [n +:+ STAGING_SUFFIX]) →
  with_recipients seed recs = Ok enc → in_end input = None →
  ∃ s0 i s1,
    run_ok (make_parent (render (q ++ [n +:+ STAGING_SUFFIX]))) s = (Ok tt, s0) ∧
    dirs_made q s s0 ∧ is_dir (fs_tree s0) q ∧
    run_ok (encrypt_task seed (render (q ++ [n +:+ STAGING_SUFFIX])) recs input) s0 =
      (Ok (Z.of_nat (length (in_data input))), s1) ∧
    staged (q ++ [n +:+ STAGING_SUFFIX]) i (concat (ciphertext enc (in_chunks input))) s0 s1.
Proof.
  intros [Hp Hw Hn] Hst Hown Henc Hend. pose proof (staging_name_valid n Hn) as Hx.
  destruct (make_parent_ok s q (n +:+ STAGING_SUFFIX)) as (s0 & Hmk & Hd & Hm); [done..|].
  destruct (open_truncate_staging s0 q (n +:+ STAGING_SUFFIX)) as (i & s1 & Ho & Hop).
  - apply Hm.
  - done.
  - done.
  - by eapply dirs_made_own.
  - by rewrite (dirs_made_child s s0 q Hm).
  - destruct (encrypt_stream_spec seed recs enc input (fs_next_fd s0) i s1 (HWrite i 0))
      as (s2 & Hc & Hwr); [done..| | |].
    { rewrite (op_fds _ _ _ _ _ _ _ Hop). by simplify_map_eq. }
    { apply Hop. }
    exists s0, i, (set_fds (delete (fs_next_fd s0)) s2). split_and!; try done.
    + unfold encrypt_task. rewrite run_ok_bind, run_ok_ask, Ho. cbn [fst snd].
      by rewrite run_ok_bind, Hc.
    + pose proof (staged_close _ _ _ _ _ _ _ _ _ Hop Hwr) as Hg. done.
Qed.

Lemma store_encrypted_ok seed recs enc s q n input :
  target s q n → fs_tree s !! (q ++ [n]) = None →
  fs_tree s !! (q ++ [n +:+ STAGING_SUFFIX]) ≠ Some EDir →
  own_staging s (q ++ [n +:+ STAGING_SUFFIX]) →
  with_recipients seed recs = Ok enc → in_end input = None →
  ∃ s', run_ok (store_encrypted seed (render (q ++ [n])) recs input) s =
      (Ok (Z.of_nat (length (in_data input))), s') ∧
    upload_effect q n (Some (concat (ciphertext enc (in_chunks input)))) s s' ∧
    published s' (q ++ [n]) (concat (ciphertext enc (in_chunks input))).
Proof.
  intros Ht Hfin Hst Hown Henc Hend.
  destruct (encrypted_staged seed recs enc input s q n) as (s0 & i & s1 & Hmk & Hm & Hd & He & Hg);
    [done..|].
  destruct (finalize_effect _ _ _ _ _ _ Hg Hd (tg_name _ _ _ Ht) (Z.of_nat (length (in_data input))))
    as (s2 & Hf & Heff & Hpub); [by rewrite (dirs_made_child s s0 q Hm)|].
  exists s2. split_and!; [|by eapply dirs_made_effect|done].
  destruct Ht as [Hp Hw Hn]. unfold store_encrypted.
  rewrite run_ok_bind, run_ok_ask, (try_exists_way s Hp), Hfin by done. cbn [fst snd].
  rewrite staging_render by (done || apply Hw).
  rewrite run_ok_bind, run_ok_bind, Hmk. cbn [fst snd]. rewrite run_ok_ret. cbn [io_store map_err fst snd].
  rewrite run_ok_bind, He. cbn [fst snd]. exact Hf.
Qed.

(** C12. With encryption on, a completed upload leaves under the final name
    exactly the age ciphertext of what the client sent, under no other name and
    with no descriptor open, whatever an abandoned staging file held before;
    every one of the recipients it was encrypted to decrypts it back to the
    bytes the client sent. *)
Theorem store_encrypted_roundtrip `{!AgeLaws} seed recs enc id s q n input :
  target s q n → fs_tree s !! (q ++ [n]) = None →
  fs_tree s !! (q ++ [n +:+ STAGING_SUFFIX]) ≠ Some EDir →
  own_staging s (q ++ [n +:+ STAGING_SUFFIX]) →
  with_recipients seed recs = Ok enc → in_end input = None → to_public id ∈ recs →
  ∃ s' ct cs,
    run_ok (store_encrypted seed (render (q ++ [n])) recs input) s =
      (Ok (Z.of_nat (length (in_data input))), s') ∧
    upload_effect q n (Some ct) s s' ∧ published s' (q ++ [n]) ct ∧
    decryptor id ct = Ok (cs, None) ∧ concat cs = in_data input.
Proof.
  intros Ht Hfin Hst Hown Henc Hend Hid.
  destruct (store_encrypted_ok seed recs enc s q n input) as (s' & Hr & He & Hp); [done..|].
  destruct (age_decrypts id seed recs enc (in_chunks input) Hid Henc) as (cs & Hdec & Hcs & _).
  eauto 8.
Qed.

(** C13. No plaintext reaches the disk: whatever answers the file system gives,
    in every branch, every byte string the encrypted store writes is a piece of
    output of the age writer. *)
Theorem store_encrypted_ciphertext_only seed real_final recs input :
  all_ops writes_ciphertext (store_encrypted seed real_final recs input).
Proof.
  assert (∀ p, all_ops writes_ciphertext (create_dir_all p)) as Hmk by (intros; by apply create_dir_all_ops).
  pose proof encrypt_stream_ops. unfold store_encrypted. ops.
Qed.
End encrypted.
