(* ===== verification/Backend.v ===== *)
(** [backend.rs]: the storage backend that serves authenticated sessions.

    Every method of the two [StorageBackend] implementations is a program over
    the file system operations; [serve] dispatches a client request to the
    method it calls, as the server library does. *)
From S2P Require Import Prelude StdPath StdFs Prog FsView Append Paths Crypto Config Account.
From S2P Require Import Limits Auth Store.

Module Op.
Inductive Op : Type := Get | Put | List | Metadata | Cwd | Mkd | Del | Rmd | Rename.
#[global] Instance op_eq_dec : EqDecision Op.
Proof. solve_decision. Defined.
End Op.

Definition capability_allowed (r : Role) (op : Op.Op) : bool :=
  match r with
  | Uploader _ =>
      match op with Op.Put | Op.Mkd | Op.List | Op.Metadata | Op.Cwd => true | _ => false end
  | Viewer _ =>
      match op with Op.Get | Op.List | Op.Metadata | Op.Cwd => true | _ => false end
  end.

Definition user_view (user : ReoUser) : ScopeMap :=
  match user_role user with
  | Uploader h => single h
  | Viewer scope => scope
  end.

(** ** Errors of the storage interface

    The error kinds the source names; [FromIo] is the interface's own
    conversion of an I/O error. *)
Module Storage.
Inductive ErrorKind : Type :=
| PermissionDenied
| PermanentFileNotAvailable
| PermanentDirectoryNotAvailable
| FileNameNotAllowedError
| LocalError.

Inductive Error : Type :=
| Kind (k : ErrorKind)
| New (k : ErrorKind) (source : string)
| FromIo (k : Io.ErrorKind).
End Storage.

Definition path_err_to_storage (e : PathError) : Storage.Error :=
  match e with
  | Traversal | OutsideScope => Storage.Kind Storage.PermissionDenied
  | NotFound => Storage.Kind Storage.PermanentFileNotAvailable
  end.

Definition store_error_to_storage `{AgeLib} (e : StoreError) : Storage.Error :=
  match e with
  | Overlap | Gap => Storage.New Storage.FileNameNotAllowedError (store_error_to_string e)
  | Finalized => Storage.New Storage.PermanentFileNotAvailable (store_error_to_string e)
  | SIo k => Storage.FromIo k
  end.

Definition denied {A} : result A Storage.Error := Err (Storage.Kind Storage.PermissionDenied).

(** Answers [k] for a missing path, the converted error otherwise. *)
Definition or_missing (k : Storage.ErrorKind) (e : Io.ErrorKind) : Storage.Error :=
  if decide (e = Io.NotFound) then Storage.Kind k else Storage.FromIo e.

(** ** Metadata *)

Inductive Meta : Type :=
| Real (m : Metadata)
| SynthDir.

Module MetaImpl.
Definition len (m : Meta) : Z := match m with Real m => m_len m | SynthDir => 0 end.
Definition is_dir (m : Meta) : bool :=
  match m with Real m => bool_decide (m_type m = IsDir) | SynthDir => true end.
Definition is_file (m : Meta) : bool :=
  match m with Real m => bool_decide (m_type m = IsFile) | SynthDir => false end.
Definition is_symlink (m : Meta) : bool :=
  match m with Real m => bool_decide (m_type m = IsSymlink) | SynthDir => false end.
(** Seconds since the epoch. *)
Definition modified (m : Meta) : result Z Storage.Error :=
  match m with Real m => Ok (m_modified m) | SynthDir => Ok 0%Z end.
End MetaImpl.

Record Fileinfo : Type := mkFileinfo { fi_path : string; fi_metadata : Meta }.

(** ** The backend *)

Definition is_single_scope (scope : ScopeMap) : bool := bool_decide (list_root scope = []).

Definition is_root (virt : string) : bool := bool_decide (path_eq virt "/" ∨ path_eq virt "").

Section backend.
Context `{AgeLib}.

Record ReoBackend : Type := mkReoBackend { backend_recipients : option (list Recipient) }.

Definition FEATURE_RESTART : Z := 1.
Definition supported_features (b : ReoBackend) : Z := FEATURE_RESTART.

Abbreviation reply A := (prog (result A Storage.Error)).

Definition resolve_for (user : ReoUser) (virt : string) : reply string :=
  let! r := resolve (user_view user) virt in
  Ret (map_err path_err_to_storage r).

Definition metadata (b : ReoBackend) (user : ReoUser) (path : string) : reply Meta :=
  if negb (capability_allowed (user_role user) Op.Metadata) then Ret denied
  else
    try! real := resolve_for user path in
    let! r := ask (Stat real) in
    Ret (match r with
         | Ok m => Ok (Real m)
         | Err e => Err (or_missing Storage.PermanentFileNotAvailable e)
         end).

(** The loop over the directory's entries. *)
Fixpoint list_entries (real : string) (names : list string) (entries : list Fileinfo)
    : reply (list Fileinfo) :=
  match names with
  | [] => Ret (Ok entries)
  | name :: rest =>
      let! r := ask (NextEntry real) in
      match r with
      | Err e => Ret (Err (Storage.FromIo e))
      | Ok _ =>
          let name_str := to_string_lossy name in
          if ends_with STAGING_SUFFIX name_str then list_entries real rest entries
          else if decide (name_str = QUARANTINE_DIR) then list_entries real rest entries
          else
            let! r := ask (SymlinkStat (join real name)) in
            match r with
            | Err _ => list_entries real rest entries
            | Ok m => list_entries real rest (entries ++ [mkFileinfo name (Real m)])
            end
      end
  end.

Definition list_dir (user : ReoUser) (virt : string) : reply (list Fileinfo) :=
  try! real := resolve_for user virt in
  let! r := ask (ReadDir real) in
  match r with
  | Err e => Ret (Err (or_missing Storage.PermanentDirectoryNotAvailable e))
  | Ok names => list_entries real names []
  end.

Definition list_ (b : ReoBackend) (user : ReoUser) (virt : string) : reply (list Fileinfo) :=
  if negb (capability_allowed (user_role user) Op.List) then Ret denied
  else
    match user_role user with
    | Viewer scope =>
        if is_root virt && negb (bool_decide (list_root scope = [])) && negb (is_single_scope scope)
        then Ret (Ok ((λ n, mkFileinfo n SynthDir) <$> list_root scope))
        else list_dir user virt
    | Uploader _ => list_dir user virt
    end.

(** The reader answered is the open descriptor. *)
Definition get (b : ReoBackend) (user : ReoUser) (path : string) (start_pos : Z) : reply nat :=
  if negb (capability_allowed (user_role user) Op.Get) then Ret denied
  else
    try! real := resolve_for user path in
    let! r := ask (OpenRead real) in
    match r with
    | Err e => Ret (Err (or_missing Storage.PermanentFileNotAvailable e))
    | Ok fd =>
        if decide (0 < start_pos)%Z then
          let! r := ask (Seek fd start_pos) in
          match r with
          | Ok _ => Ret (Ok fd)
          | Err e => let! _ := ask (Close fd) in Ret (Err (Storage.FromIo e))
          end
        else Ret (Ok fd)
    end.

(** Reolink's test files go to the quarantine directory of the home. *)
Definition put_quarantine (home filename : string) (input : Input) : reply Z :=
  let quarantine_dir := join home QUARANTINE_DIR in
  let! r := create_dir_all quarantine_dir in
  match r with
  | Err e => Ret (Err (Storage.FromIo e))
  | Ok _ =>
      let! r := ask (OpenTruncate FILE_MODE (join quarantine_dir filename)) in
      match r with
      | Err e => Ret (Err (Storage.FromIo e))
      | Ok fd =>
          let! r := copy input fd in
          let! _ := ask (Close fd) in
          Ret (map_err Storage.FromIo r)
      end
  end.

Definition put (b : ReoBackend) (seed : Seed) (user : ReoUser) (input : Input) (virt : string)
    (start_pos : Z) : reply Z :=
  if negb (capability_allowed (user_role user) Op.Put) then Ret denied
  else
    match user_role user with
    | Viewer _ => Ret denied
    | Uploader home =>
        match file_name virt with
        | None => Ret (Err (Storage.Kind Storage.FileNameNotAllowedError))
        | Some fname =>
            let filename := to_string_lossy fname in
            if is_reolink_test_file filename then put_quarantine home filename input
            else
              try! resolved := resolve_for user virt in
              match backend_recipients b with
              | Some recipients =>
                  if negb (bool_decide (start_pos = 0%Z)) then Ret denied
                  else
                    let! r := store_encrypted seed (age_suffix resolved) recipients input in
                    Ret (map_err store_error_to_storage r)
              | None =>
                  let! r := store_stream resolved start_pos input in
                  Ret (map_err store_error_to_storage r)
              end
        end
    end.

Definition del (b : ReoBackend) (user : ReoUser) (path : string) : reply unit := Ret denied.

Definition mkd (b : ReoBackend) (user : ReoUser) (path : string) : reply unit :=
  if negb (capability_allowed (user_role user) Op.Mkd) then Ret denied
  else
    try! real := resolve_for user path in
    let! r := create_dir_all real in
    Ret (map_err Storage.FromIo r).

Definition rename (b : ReoBackend) (user : ReoUser) (from to : string) : reply unit := Ret denied.

Definition rmd (b : ReoBackend) (user : ReoUser) (path : string) : reply unit := Ret denied.

Definition cwd_dir (user : ReoUser) (virt : string) : reply unit :=
  try! real := resolve_for user virt in
  let! r := ask (Stat real) in
  Ret (match r with
       | Err e => Err (or_missing Storage.PermanentDirectoryNotAvailable e)
       | Ok m =>
           if bool_decide (m_type m = IsDir) then Ok tt
           else Err (Storage.Kind Storage.PermanentDirectoryNotAvailable)
       end).

Definition cwd (b : ReoBackend) (user : ReoUser) (virt : string) : reply unit :=
  if negb (capability_allowed (user_role user) Op.Cwd) then Ret denied
  else
    match user_role user with
    | Viewer scope =>
        if is_root virt && negb (is_single_scope scope) then Ret (Ok tt) else cwd_dir user virt
    | Uploader _ => cwd_dir user virt
    end.

(** ** Requests *)

Inductive Request : Type :=
| RGet (path : string) (start_pos : Z)
| RPut (seed : Seed) (input : Input) (path : string) (start_pos : Z)
| RList (path : string)
| RMetadata (path : string)
| RCwd (path : string)
| RMkd (path : string)
| RDel (path : string)
| RRmd (path : string)
| RRename (from to : string).

Definition request_op (r : Request) : Op.Op :=
  match r with
  | RGet _ _ => Op.Get | RPut _ _ _ _ => Op.Put | RList _ => Op.List | RMetadata _ => Op.Metadata
  | RCwd _ => Op.Cwd | RMkd _ => Op.Mkd | RDel _ => Op.Del | RRmd _ => Op.Rmd
  | RRename _ _ => Op.Rename
  end.

Inductive Answer : Type :=
| ABytes (b : bytes)
| AStored (n : Z)
| AList (l : list Fileinfo)
| AMeta (m : Meta)
| ADone.

Definition answered {A} (f : A → Answer) (p : reply A) : reply Answer :=
  let! r := p in
  Ret (match r with Ok a => Ok (f a) | Err e => Err e end).

(** A retrieval: the method's reader is read to its end and dropped. *)
Definition download (b : ReoBackend) (user : ReoUser) (path : string) (start_pos : Z) : reply bytes :=
  try! fd := get b user path start_pos in
  let! r := ask (ReadToEnd fd) in
  let! _ := ask (Close fd) in
  Ret (map_err Storage.FromIo r).

Definition serve (b : ReoBackend) (user : ReoUser) (r : Request) : reply Answer :=
  match r with
  | RGet p pos => answered ABytes (download b user p pos)
  | RPut seed input p pos => answered AStored (put b seed user input p pos)
  | RList p => answered AList (list_ b user p)
  | RMetadata p => answered AMeta (metadata b user p)
  | RCwd p => answered (λ _, ADone) (cwd b user p)
  | RMkd p => answered (λ _, ADone) (mkd b user p)
  | RDel p => answered (λ _, ADone) (del b user p)
  | RRmd p => answered (λ _, ADone) (rmd b user p)
  | RRename p p' => answered (λ _, ADone) (rename b user p p')
  end.

(** The second implementation, for the library's [DefaultUser]: never reached,
    every method refuses. *)
Definition serve_default (b : ReoBackend) (r : Request) : reply Answer := Ret denied.
End backend.

(** ** Lemmas *)

Section lemmas.
Context `{AgeLib}.

Lemma resolve_for_read_only user v : all_ops read_only (resolve_for user v).
Proof. apply all_ops_bind; [apply resolve_read_only|]. done. Qed.

(** Resolution in a jail without symbolic links. *)
Lemma resolve_for_selected s user v base parts qb :
  plain_fs s → select_root (user_view user) v = Ok (base, parts) →
  lookup_path s true base = WFound qb EDir →
  run_ok (resolve_for user v) s = (Ok (render (qb ++ parts)), s).
Proof.
  intros [Hw Hl] Hs Hb. unfold resolve_for.
  by rewrite run_ok_bind, (resolve_selected s _ _ _ _ _ Hw Hl Hs Hb).
Qed.

Lemma resolve_for_parent user v w :
  ParentDir ∈ components v → run (resolve_for user v) w = (denied, w).
Proof.
  intros Hp. unfold resolve_for. rewrite run_bind.
  assert (run (resolve (user_view user) v) w = (Err Traversal, w)) as ->; [|done].
  unfold resolve, normalize. by rewrite normalize_components_parent.
Qed.

Lemma not_root_parent v : ParentDir ∈ components v → is_root v = false.
Proof.
  intros Hp. unfold is_root. apply bool_decide_eq_false. unfold path_eq.
  intros [Hv|Hv]; rewrite Hv in Hp.
  - change (components "/") with [RootDir] in Hp. by apply list_elem_of_singleton in Hp.
  - change (components "") with (@nil Component) in Hp. by apply elem_of_nil in Hp.
Qed.

(** Operations that change neither names nor contents. *)
Definition looks (T : Type) (e : Sys T) : Prop :=
  match e with
  | OpenRead _ | Seek _ _ | ReadToEnd _ | Close _ => True
  | _ => read_only T e
  end.

Lemma looks_step T (e : Sys T) s r s' :
  looks T e → ev_step e s r s' → fs_tree s' = fs_tree s ∧ fs_inodes s' = fs_inodes s.
Proof.
  intros He Hs. inversion Hs; subst; clear Hs; destruct e; try done;
    cbn [exec open_handle]; repeat case_match; done.
Qed.

Lemma read_only_looks {A} (p : prog A) : all_ops read_only p → all_ops looks p.
Proof. apply all_ops_mono. by intros T []. Qed.

Lemma list_entries_looks real names acc : all_ops looks (list_entries real names acc).
Proof.
  revert acc. induction names as [|n names IH]; intros acc; cbn [list_entries]; [done|].
  split; [done|]. intros [u|k]; [|done]. cbn.
  destruct (ends_with _ _); [apply IH|]. case_decide; [apply IH|].
  split; [done|]. intros [m|k]; apply IH.
Qed.

(** What the loop of [list_] lists: the entries that are neither staging files
    nor the quarantine directory. *)
Definition visible (n : string) : bool :=
  negb (ends_with STAGING_SUFFIX (to_string_lossy n)) &&
  negb (bool_decide (to_string_lossy n = QUARANTINE_DIR)).

Lemma list_entries_spec s q names acc :
  plain_fs s → is_dir (fs_tree s) q →
  (∀ n, n ∈ names → is_Some (fs_tree s !! (q ++ [n])) ∧ valid_name n) →
  run_ok (list_entries (render q) names acc) s =
    (Ok (acc ++ omap (λ n, if visible n then
                   (λ e, mkFileinfo n (Real (metadata_of s (q ++ [n]) e))) <$> fs_tree s !! (q ++ [n])
                   else None) names), s).
Proof.
  intros Hp Hd. revert acc. induction names as [|n names IH]; intros acc Hn; cbn [list_entries].
  { by rewrite run_ok_ret, app_nil_r. }
  rewrite run_ok_bind, run_ok_ask. cbn [exec fst snd omap list_omap].
  destruct (Hn n ltac:(by left)) as [[e He] Hv].
  assert (∀ m, m ∈ names → is_Some (fs_tree s !! (q ++ [m])) ∧ valid_name m) as Hn'
    by (intros m Hm; apply Hn; by right).
  unfold visible at 1. destruct (ends_with STAGING_SUFFIX (to_string_lossy n)); cbn; [by apply IH|].
  case_decide; case_bool_decide; try done; cbn; [by apply IH|].
  rewrite run_ok_vis. rewrite <- render_snoc. cbn [exec]. rewrite (lookup_at s Hp), He by done. cbn.
  rewrite IH by done. rewrite <- app_assoc. done.
Qed.
End lemmas.

(** ** The session's view of a path *)

Section serving.
Context `{AgeLib}.

(** The user's virtual path [v] stands for the names [parts] below the
    directory [qb]. *)
Definition rooted (s : Fs) (user : ReoUser) (v : string) (qb parts : Datatypes.list string) : Prop :=
  ∃ base, select_root (user_view user) v = Ok (base, parts) ∧
    lookup_path s true base = WFound qb EDir.

Lemma rooted_resolve s user v qb parts :
  plain_fs s → rooted s user v qb parts →
  run_ok (resolve_for user v) s = (Ok (render (qb ++ parts)), s).
Proof. intros Hp (base & Hs & Hb). by eapply resolve_for_selected. Qed.

Lemma rooted_valid s user v qb parts :
  plain_fs s → rooted s user v qb parts → Forall valid_name (qb ++ parts).
Proof.
  intros Hp (base & Hs & Hb). apply Forall_app. split.
  - by eapply (lookup_found_valid s); [apply Hp|].
  - by eapply select_root_valid.
Qed.

Lemma rooted_mono s s' user v qb parts :
  plain_fs s → fs_cwd s' = fs_cwd s → (∀ d, is_dir (fs_tree s) d → is_dir (fs_tree s') d) →
  rooted s user v qb parts → rooted s' user v qb parts.
Proof.
  intros Hp Hc Hd (base & Hs & Hb). exists base. split; [done|].
  eapply lookup_dirs_mono; [apply Hp|done..].
Qed.

(** *** Retrieval *)

Lemma open_read_at s q b :
  plain_fs s → file_at s q = Some b →
  ∃ i, exec (OpenRead (render q)) s = open_handle (HRead i 0) s ∧ content s i = b.
Proof.
  intros Hp Hb. unfold file_at in Hb. destruct (fs_tree s !! q) as [[i| |]|] eqn:E; simplify_eq.
  destruct (wft_parent _ (wf_is_tree _ (pf_wf _ Hp)) _ _ E) as (d & n & -> & Hn & Hd).
  exists i. split; [|done]. cbn [exec]. by rewrite (lookup_at s Hp), E by done.
Qed.

Lemma download_content b user v pos s qb parts bs :
  plain_fs s → capability_allowed (user_role user) Op.Get = true →
  rooted s user v qb parts → file_at s (qb ++ parts) = Some bs →
  ∃ s', run_ok (download b user v pos) s = (Ok (drop (Z.to_nat pos) bs), s') ∧
    fs_tree s' = fs_tree s ∧ fs_inodes s' = fs_inodes s ∧ (∀ fd, fs_fds s' !! fd = fs_fds s !! fd).
Proof.
  intros Hp Hc Hr Hb. destruct (open_read_at s (qb ++ parts) bs Hp Hb) as (i & Ho & Hi).
  pose proof (next_fd_fresh s (pf_wf _ Hp)) as Hfd.
  unfold download, get. rewrite Hc. cbn [negb]. 
  rewrite !run_ok_bind, (rooted_resolve s user v qb parts) by done. cbn [fst snd].
  rewrite run_ok_bind, run_ok_ask, Ho. unfold open_handle. cbn [fst snd].
  case_decide as Hpos.
  - rewrite run_ok_bind, run_ok_ask. cbn [exec fs_fds]. rewrite lookup_insert_eq. cbn [fst snd].
    rewrite run_ok_ret. cbn [fst snd].
    rewrite run_ok_bind, run_ok_ask. cbn [exec fs_fds set_fds]. rewrite lookup_insert_eq. cbn [fst snd].
    rewrite run_ok_bind, run_ok_ask. cbn [exec fst snd]. rewrite run_ok_ret. eexists. split.
    + unfold content, inode_of in *. cbn. by rewrite <- Hi.
    + split; [done|]. split; [done|]. intros fd. cbn.
      destruct (decide (fd = fs_next_fd s)) as [->|]; by simplify_map_eq.
  - rewrite run_ok_ret. cbn [fst snd].
    rewrite run_ok_bind, run_ok_ask. cbn [exec fs_fds set_fds]. rewrite lookup_insert_eq. cbn [fst snd].
    rewrite run_ok_bind, run_ok_ask. cbn [exec fst snd]. rewrite run_ok_ret. eexists. split.
    + replace (Z.to_nat pos) with 0 by lia. unfold content, inode_of in *. cbn. by rewrite <- Hi.
    + split; [done|]. split; [done|]. intros fd. cbn.
      destruct (decide (fd = fs_next_fd s)) as [->|]; by simplify_map_eq.
Qed.

(** *** Storing *)

Lemma put_plain b seed user home v f pos input s qb parts :
  plain_fs s → backend_recipients b = None → user_role user = Uploader home →
  file_name v = Some f → is_reolink_test_file (to_string_lossy f) = false →
  rooted s user v qb parts →
  run_ok (put b seed user input v pos) s =
    (map_err store_error_to_storage (run_ok (store_stream (render (qb ++ parts)) pos input) s).1,
     (run_ok (store_stream (render (qb ++ parts)) pos input) s).2).
Proof.
  intros Hp Hb Hu Hf Ht Hr. unfold put. rewrite Hu, Hf, Ht, Hb. cbn [capability_allowed negb].
  rewrite run_ok_bind, (rooted_resolve s user v qb parts) by done. cbn [fst snd].
  by rewrite run_ok_bind, run_ok_ret.
Qed.

Lemma put_encrypted b recs seed user home v f input s qb parts n :
  plain_fs s → backend_recipients b = Some recs → user_role user = Uploader home →
  file_name v = Some f → is_reolink_test_file (to_string_lossy f) = false →
  rooted s user v qb (parts ++ [n]) →
  run_ok (put b seed user input v 0) s =
    (map_err store_error_to_storage
       (run_ok (store_encrypted seed (render (qb ++ parts ++ [n +:+ ".age"])) recs input) s).1,
     (run_ok (store_encrypted seed (render (qb ++ parts ++ [n +:+ ".age"])) recs input) s).2).
Proof.
  intros Hp Hb Hu Hf Ht Hr. pose proof (rooted_valid _ _ _ _ _ Hp Hr) as Hv.
  rewrite app_assoc in Hv. apply Forall_app in Hv as [Hv Hn]. inversion Hn; subst.
  unfold put. rewrite Hu, Hf, Ht, Hb. cbn [capability_allowed negb bool_decide].
  rewrite run_ok_bind, (rooted_resolve s user v qb (parts ++ [n])) by done. cbn [fst snd].
  rewrite bool_decide_true by done. cbn [negb]. rewrite run_ok_bind, run_ok_ret.
  unfold age_suffix. by rewrite app_assoc, os_push_render, <- app_assoc.
Qed.

Lemma run_answered {A} (f : A → Answer) (p : prog (result A Storage.Error)) s :
  run_ok (answered f p) s =
    (match (run_ok p s).1 with Ok a => Ok (f a) | Err e => Err e end, (run_ok p s).2).
Proof. unfold answered. by rewrite run_ok_bind, run_ok_ret. Qed.
End serving.

(** *** Read-only requests *)

Section readers.
Context `{AgeLib}.

Lemma resolve_for_looks user v : all_ops looks (resolve_for user v).
Proof. apply read_only_looks, resolve_for_read_only. Qed.
#[local] Hint Resolve resolve_for_looks list_entries_looks : reo.

Lemma metadata_looks b user v : all_ops looks (metadata b user v).
Proof.
  unfold metadata. ops.
Qed.

Lemma list_dir_looks user v : all_ops looks (list_dir user v).
Proof.
  unfold list_dir. ops.
Qed.
#[local] Hint Resolve list_dir_looks : reo.

Lemma list_looks b user v : all_ops looks (list_ b user v).
Proof.
  unfold list_. ops.
Qed.

Lemma download_looks b user v pos : all_ops looks (download b user v pos).
Proof.
  unfold download, get. ops.
Qed.

Lemma cwd_looks b user v : all_ops looks (cwd b user v).
Proof.
  unfold cwd, cwd_dir. ops.
Qed.

Lemma viewer_looks b user scope r : user_role user = Viewer scope → all_ops looks (serve b user r).
Proof.
  intros Hu. destruct r; cbn [serve]; (apply all_ops_bind; [|by intros []]).
  - apply download_looks.
  - unfold put. by rewrite Hu.
  - apply list_looks.
  - apply metadata_looks.
  - apply cwd_looks.
  - unfold mkd. by rewrite Hu.
  - done.
  - done.
  - done.
Qed.

(** *** Listing *)

Definition listing (s : Fs) (q : Datatypes.list string) : Datatypes.list Fileinfo :=
  omap (λ n, if visible n then
          (λ e, mkFileinfo n (Real (metadata_of s (q ++ [n]) e))) <$> fs_tree s !! (q ++ [n])
        else None) (children (fs_tree s) q).

Lemma listing_elem s q fi :
  fi ∈ listing s q ↔
  ∃ n e, fi = mkFileinfo n (Real (metadata_of s (q ++ [n]) e)) ∧ visible n = true ∧
    fs_tree s !! (q ++ [n]) = Some e.
Proof.
  unfold listing. rewrite list_elem_of_omap. split.
  - intros (n & _ & Hn). destruct (visible n) eqn:Hv; [|done].
    apply fmap_Some in Hn as (e & He & ->). eauto 10.
  - intros (n & e & -> & Hv & He). exists n. split; [apply children_spec; eauto|].
    by rewrite Hv, He.
Qed.

Lemma listing_NoDup s q : NoDup (fi_path <$> listing s q).
Proof.
  unfold listing. pose proof (children_NoDup (fs_tree s) q) as Hnd.
  induction (children (fs_tree s) q) as [|n l IH]; cbn; [constructor|].
  inversion Hnd as [|? ? Hn Hnd']; subst. destruct (visible n); [|auto].
  destruct (fs_tree s !! (q ++ [n])) as [e|]; cbn; [|auto]. constructor; [|auto].
  rewrite list_elem_of_fmap. intros (fi & Hfi & (m & Hm & Hx)%list_elem_of_omap).
  destruct (visible m); [|done]. apply fmap_Some in Hx as (e' & _ & ->). by subst.
Qed.

Lemma list_run b user v s qb parts :
  plain_fs s → capability_allowed (user_role user) Op.List = true → is_root v = false →
  rooted s user v qb parts → is_dir (fs_tree s) (qb ++ parts) →
  run_ok (list_ b user v) s = (Ok (listing s (qb ++ parts)), s).
Proof.
  intros Hp Hc Hroot Hr Hd. assert (run_ok (list_dir user v) s = (Ok (listing s (qb ++ parts)), s)) as Hl.
  { unfold list_dir. rewrite run_ok_bind, (rooted_resolve s user v qb parts) by done. cbn [fst snd].
    rewrite run_ok_bind, run_ok_ask. cbn [exec]. rewrite (lookup_dir_at s Hp) by done. cbn [fst snd].
    rewrite (list_entries_spec s (qb ++ parts)); [done|done|done|].
    intros n Hn%children_spec. split; [done|]. destruct Hn as [e He].
    apply (entry_valid _ _ _ (wf_is_tree _ (pf_wf _ Hp))) in He.
    apply Forall_app in He as [_ He]. by inversion He. }
  unfold list_. rewrite Hc. cbn [negb]. rewrite Hroot. by destruct (user_role user).
Qed.
End readers.

(** *** Test files *)

(** A test file goes to the quarantine, which is made when it is not there. *)
Lemma quarantine_run `{AgeLib} b seed cam (qb : Datatypes.list string) v f input pos s :
  plain_fs s → user_role cam = Uploader (render qb) → file_name v = Some f →
  is_reolink_test_file (to_string_lossy f) = true →
  let qdir := qb ++ [QUARANTINE_DIR] in
  let dst := qdir ++ [to_string_lossy f] in
  open_way s qdir → fs_tree s !! dst ≠ Some EDir → own_staging s dst →
  ∃ s0 s' i, run_ok (serve b cam (RPut seed input v pos)) s =
      (match in_end input with
       | None => Ok (AStored (Z.of_nat (length (in_data input))))
       | Some k => Err (Storage.FromIo k)
       end, s') ∧
    dirs_made qdir s s0 ∧ is_dir (fs_tree s0) qdir ∧ staged dst i (in_data input) s0 s'.
Proof.
  intros Hp Hu Hf Ht qdir dst Hw Hne Hown. subst dst. set (n := to_string_lossy f) in *.
  assert (valid_name n) as Hn by (by eapply to_string_lossy_valid, file_name_valid).
  destruct (create_dir_all_ok qdir s Hp) as (s0 & Hmk & Hd & Hm); [apply Hw..|].
  destruct (open_truncate_staging s0 qdir n) as (i & s1 & Ho & Hop); try done.
  { apply Hm. }
  { by eapply dirs_made_own. }
  { by rewrite (dirs_made_child s s0 _ Hm). }
  destruct (copy_spec (fs_next_fd s0) i input s1 (HWrite i 0)) as (s2 & Hc & Hwr).
  { rewrite (op_fds _ _ _ _ _ _ _ Hop). by rewrite lookup_insert_eq. }
  { apply Hop. }
  exists s0, (set_fds (delete (fs_next_fd s0)) s2), i. split_and!; [|done|done|exact (staged_close _ _ _ _ _ _ _ _ _ Hop Hwr)].
  cbn [serve]. rewrite run_answered. unfold put. rewrite Hu, Hf. fold n. rewrite Ht. cbn [capability_allowed negb].
  unfold put_quarantine. subst qdir. rewrite <- !render_snoc, run_ok_bind, Hmk. cbn [fst snd].
  rewrite run_ok_bind, run_ok_ask, Ho. cbn [fst snd]. rewrite run_ok_bind, Hc. cbn [fst snd].
  rewrite run_ok_bind, run_ok_ask. by destruct (in_end input).
Qed.

(** The quarantine, and with it the home, are there afterwards. *)
Lemma staged_keeps_dir st i data s s' d : staged st i data s s' → is_dir (fs_tree s) d → is_dir (fs_tree s') d.
Proof.
  intros Hg [->|Hd]; [by left|]. right. rewrite (sg_tree _ _ _ _ _ Hg), lookup_insert_ne; [done|].
  intros ->. destruct (sg_entry _ _ _ _ _ Hg); congruence.
Qed.

(** ** Properties *)

Section properties.
Context `{AgeLib}.

Lemma denied_request b user r :
  capability_allowed (user_role user) (request_op r) = false → serve b user r = Ret denied.
Proof.
  destruct r; cbn; intros Hc; try done;
    unfold answered, download, get, put, list_, metadata, cwd, mkd; by rewrite Hc.
Qed.

(** C15. A request for an operation the role does not have is refused with
    "permission denied" without a single file system operation; deletion,
    directory removal and renaming are refused for every user; storing and
    directory creation are for uploaders only, retrieval for viewers only. *)
Theorem serve_capabilities b user r :
  (capability_allowed (user_role user) (request_op r) = false → serve b user r = Ret denied) ∧
  (capability_allowed (user_role user) (request_op r) = true →
     match r with
     | RDel _ | RRmd _ | RRename _ _ => False
     | RPut _ _ _ _ | RMkd _ => ∃ home, user_role user = Uploader home
     | RGet _ _ => ∃ scope, user_role user = Viewer scope
     | _ => True
     end).
Proof.
  split.
  - apply denied_request.
  - destruct r, (user_role user); cbn; intros; try done; eauto.
Qed.

(** C16. A viewer never changes the archive: no sequence of answers, failures
    included, lets a viewer's request create, remove, rename or write anything;
    the names and the contents are the same after it. *)
Theorem viewer_never_writes b user scope r w :
  user_role user = Viewer scope →
  fs_tree (w_fs (run (serve b user r) w).2) = fs_tree (w_fs w) ∧
  fs_inodes (w_fs (run (serve b user r) w).2) = fs_inodes (w_fs w).
Proof.
  intros Hu. apply (run_invariant (λ s, fs_tree s = fs_tree (w_fs w) ∧
    fs_inodes s = fs_inodes (w_fs w)) looks); [| |done].
  - intros T e s rr s' He Hs [Ht Hi]. destruct (looks_step _ _ _ _ _ He Hs). split; congruence.
  - by eapply viewer_looks.
Qed.

(** A path that tries to climb out of the jail is refused before any file
    system operation, for every request of every user; the only request that
    does not look at the directories of its path is the upload of a Reolink
    test file, which always goes to the quarantine. *)
Theorem climbing_refused b user r v w :
  (match r with
   | RGet p _ | RList p | RMetadata p | RCwd p | RMkd p => p = v
   | RPut _ _ p _ => p = v ∧ ∀ f, file_name v = Some f → is_reolink_test_file (to_string_lossy f) = false
   | _ => True
   end) →
  ParentDir ∈ components v →
  ∃ e, run (serve b user r) w = (Err e, w).
Proof.
  intros Hr Hp. destruct r; cbn [serve]; unfold answered; rewrite ?run_bind.
  all: try (eexists; done).
  all: try subst; unfold download, get, put, list_, metadata, cwd, mkd, list_dir, cwd_dir;
    rewrite ?run_bind, ?not_root_parent by done.
  all: destruct (user_role user) eqn:Hu; cbn; rewrite ?run_bind, ?resolve_for_parent by done;
    try (eexists; done).
  destruct Hr as [-> Hf]. destruct (file_name v) as [f|]; [|eexists; done].
  rewrite Hf by done. rewrite run_bind, resolve_for_parent by done. eexists; done.
Qed.

(** C7. What a camera stores is what a viewer retrieves: when the upload of a
    fresh name completes, a viewer whose scope reaches the same file gets
    exactly the bytes the camera sent, from any offset. *)
Theorem put_then_get b seed cam viewer home v f v' qb qb' parts parts' n input pos s :
  plain_fs s → backend_recipients b = None →
  user_role cam = Uploader home → capability_allowed (user_role viewer) Op.Get = true →
  file_name v = Some f → is_reolink_test_file (to_string_lossy f) = false →
  rooted s cam v qb (parts ++ [n]) → rooted s viewer v' qb' parts' →
  qb' ++ parts' = qb ++ parts ++ [n] →
  open_way s (qb ++ parts) →
  fs_tree s !! (qb ++ parts ++ [n]) = None →
  fs_tree s !! (qb ++ parts ++ [n +:+ STAGING_SUFFIX]) = None →
  in_end input = None →
  ∃ s1 s2,
    run_ok (serve b cam (RPut seed input v 0)) s =
      (Ok (AStored (Z.of_nat (length (in_data input)))), s1) ∧
    run_ok (serve b viewer (RGet v' pos)) s1 = (Ok (ABytes (drop (Z.to_nat pos) (in_data input))), s2).
Proof.
  intros Hp Hb Hu Hg Hf Ht Hr Hr' Hq Hw Hfin Hst Hend.
  pose proof (rooted_valid _ _ _ _ _ Hp Hr) as Hv. rewrite app_assoc in Hv.
  apply Forall_app in Hv as [_ Hn]. inversion Hn as [|? ? Hvn _]; subst.
  destruct (upload_fresh s (qb ++ parts) n input) as (s1 & Hs & He); try done.
  { by rewrite <- app_assoc. }
  { by rewrite <- app_assoc. }
  destruct (download_content b viewer v' pos s1 qb' parts' (in_data input)) as (s2 & Hd & _).
  - apply He.
  - done.
  - eapply rooted_mono; [done|apply He|apply He|done].
  - rewrite Hq, app_assoc. apply He.
  - exists s1, s2. cbn [serve]. rewrite !run_answered, Hd.
    erewrite put_plain by done. by rewrite app_assoc, Hs.
Qed.

(** C31. Reolink's connection tests are set aside: whatever the configuration, a
    test file goes to the quarantine directory of the camera's home under its
    own name, in place of an earlier one, and every other file keeps its bytes. *)
Theorem quarantine_stores b seed cam qb v f input pos s :
  plain_fs s → user_role cam = Uploader (render qb) → file_name v = Some f →
  is_reolink_test_file (to_string_lossy f) = true →
  let dst := qb ++ [QUARANTINE_DIR; to_string_lossy f] in
  open_way s (qb ++ [QUARANTINE_DIR]) → fs_tree s !! dst ≠ Some EDir → own_staging s dst →
  in_end input = None →
  ∃ s', run_ok (serve b cam (RPut seed input v pos)) s =
      (Ok (AStored (Z.of_nat (length (in_data input)))), s') ∧
    file_at s' dst = Some (in_data input) ∧
    (∀ q, q ≠ dst → file_at s' q = file_at s q) ∧
    (∀ fd, fs_fds s' !! fd = fs_fds s !! fd).
Proof.
  intros Hp Hu Hf Ht dst Hw Hne Hown Hend. subst dst.
  change [QUARANTINE_DIR; to_string_lossy f] with ([QUARANTINE_DIR] ++ [to_string_lossy f]) in *. rewrite app_assoc in *.
  destruct (quarantine_run b seed cam qb v f input pos s) as (s0 & s' & i & Hr & Hm & _ & Hg); [done..|].
  destruct (staged_files _ _ _ _ _ Hg) as [Hfile Hothers]. rewrite Hend in Hr. exists s'. split_and!; [done..| |].
  - intros q' Hq. rewrite Hothers by done. by eapply dirs_made_file_at.
  - intros fd. by rewrite (sg_fds _ _ _ _ _ Hg), (dm_fds _ _ _ Hm).
Qed.

(** C32. A directory listing shows exactly the entries of the directory whose
    name is neither a staging name nor the quarantine directory, each once and
    with its own metadata.  The path is not the root [/], where a viewer of several
    directories is shown the names of these. *)
Theorem list_dir_exact b user v s qb parts :
  plain_fs s → capability_allowed (user_role user) Op.List = true → is_root v = false →
  rooted s user v qb parts → is_dir (fs_tree s) (qb ++ parts) →
  ∃ l, run_ok (list_ b user v) s = (Ok l, s) ∧
    (∀ n e, fs_tree s !! (qb ++ parts ++ [n]) = Some e → visible n = true →
       mkFileinfo n (Real (metadata_of s (qb ++ parts ++ [n]) e)) ∈ l) ∧
    (∀ fi, fi ∈ l → visible (fi_path fi) = true ∧ ∃ e,
       fs_tree s !! (qb ++ parts ++ [fi_path fi]) = Some e ∧
       fi_metadata fi = Real (metadata_of s (qb ++ parts ++ [fi_path fi]) e)) ∧
    NoDup (fi_path <$> l).
Proof.
  intros Hp Hc Hroot Hr Hd. eexists. split; [by eapply list_run|].
  split; [|split]; [..|by apply listing_NoDup].
  - intros n e He Hv. rewrite app_assoc in *. apply listing_elem. eauto.
  - intros fi (n & e & -> & Hv & He)%listing_elem. rewrite <- app_assoc in *. cbn. eauto.
Qed.
End properties.
