(* ===== verification/Archive.v ===== *)
(** The archive as its users see it: an append-only store, and the refinement
    that the storage backend implements it, while encryption is off.

    [Ledger] is the contract, with no file system in it: finished recordings that
    never change, what is staged for the others, and the places a camera made a
    directory of.  The backend's handlers, run on a file system that [represents] a
    ledger, give the answers of the ledger and leave a file system that represents
    the ledger afterwards, for any history of requests of cameras and viewers that
    [means] has a case for: about the places of a [layout], which the theorem leaves
    open (all the names that a history uploads, say, if they do not get in each
    other's way), or about something that is away from them.  It has none for uploads
    of names outside the layout and directories inside a place. *)
From S2P Require Import Prelude StdPath StdFs Prog FsView Append Paths Crypto Config Account.
From S2P Require Import Limits Auth Store Backend.

Abbreviation place := (list string).

Module Ledger.
Record Ledger : Type := mkLedger {
  recordings : gmap place bytes;
  partials : gmap place bytes;
  folders : gset place
}.

(** What users ask for. *)
Inductive Event : Type :=
| Upload (p : place) (start : Z) (input : Input)
| Retrieve (p : place) (pos : Z)
| Measure (p : place)
| Folder (p : place)
| Forbidden.

(** What they learn. *)
Inductive Outcome : Type :=
| Stored (n : Z)
| Rejected (e : StoreError)
| Content (b : bytes)
| Size (n : Z)
| Missing
| IsFolder
| Unreadable
| Made
| Occupied
| Denied.

Definition discard (p : place) (l : Ledger) : Ledger :=
  mkLedger (recordings l) (delete p (partials l)) (folders l).

(** An upload goes on where the staged bytes end, or everything staged is
    dropped; it takes effect as a whole, and only once. *)
Definition upload (p : place) (start : Z) (input : Input) (l : Ledger) : Outcome * Ledger :=
  match recordings l !! p with
  | Some _ => (Rejected Finalized, l)
  | None =>
      if decide (p ∈ folders l) then (Rejected Finalized, l)
      else
        let old := default [] (partials l !! p) in
        let size := Z.of_nat (length old) in
        if decide (start = size) then
          match in_end input with
          | None => (Stored (Z.of_nat (length (in_data input))),
                     mkLedger (<[p := old ++ in_data input]> (recordings l)) (delete p (partials l)) (folders l))
          | Some k => (Rejected (SIo k), discard p l)
          end
        else (Rejected (if decide (start < size)%Z then Overlap else Gap), discard p l)
  end.

(** What is at a place that is not a recording. *)
Definition otherwise (folder : Outcome) (p : place) (l : Ledger) : Outcome :=
  if decide (p ∈ folders l) then folder else Missing.

Definition step (e : Event) (l : Ledger) : Outcome * Ledger :=
  match e with
  | Upload p start input => upload p start input l
  | Retrieve p pos =>
      (match recordings l !! p with Some b => Content (drop (Z.to_nat pos) b) | None => otherwise Unreadable p l end, l)
  | Measure p =>
      (match recordings l !! p with Some b => Size (Z.of_nat (length b)) | None => otherwise IsFolder p l end, l)
  | Folder p =>
      match recordings l !! p with
      | Some _ => (Occupied, l)
      | None => (Made, mkLedger (recordings l) (partials l) ({[p]} ∪ folders l))
      end
  | Forbidden => (Denied, l)
  end.

(** A history of events, with others between them that do not concern the
    ledger. *)
Definition attend (e : option Event) (l : Ledger) : option Outcome * Ledger :=
  match e with
  | Some e => let '(o, l') := step e l in (Some o, l')
  | None => (None, l)
  end.

Fixpoint history (es : list (option Event)) (l : Ledger) : list (option Outcome) * Ledger :=
  match es with
  | [] => ([], l)
  | e :: es' =>
      let '(o, l1) := attend e l in
      let '(os, l2) := history es' l1 in
      (o :: os, l2)
  end.

(** Recordings are only added. *)
Lemma upload_grows p start input l : recordings l ⊆ recordings (upload p start input l).2.
Proof.
  unfold upload. destruct (recordings l !! p) eqn:E; [done|]. case_decide; [done|]. case_decide; [|done].
  destruct (in_end input); [done|]. by apply insert_subseteq.
Qed.

Lemma history_grows es l : recordings l ⊆ recordings (history es l).2.
Proof.
  revert l. induction es as [|e es IH]; intros l; cbn [history]; [done|].
  assert (recordings l ⊆ recordings (attend e l).2) as Hs.
  { destruct e as [[p start input|p pos|p|p|]|]; try done; cbn.
    - pose proof (upload_grows p start input l) as Hg. by destruct (upload p start input l).
    - by destruct (recordings l !! p). }
  destruct (attend e l) as [o l1]. specialize (IH l1). destruct (history es l1) as [os l2].
  by etransitivity.
Qed.
End Ledger.

(** ** The representation *)

(** The staging name beside a place. *)
Definition beside (p : place) : place :=
  removelast p ++ [default "" (list.last p) +:+ STAGING_SUFFIX].

Lemma beside_snoc q n : beside (q ++ [n]) = q ++ [n +:+ STAGING_SUFFIX].
Proof. unfold beside. by rewrite removelast_last, last_snoc. Qed.

(** Where recordings are, and where test files go: no place is inside another one,
    nor inside the staging file of one, and the quarantines are away from them and
    from each other. *)
Record layout (rec quar : place → Prop) : Prop := {
  ly_name p : rec p → p ≠ [] ∧ Forall valid_name p;
  ly_apart p p' : rec p → rec p' → p `prefix_of` p' → p = p';
  ly_beside p p' : rec p → rec p' → ¬ beside p `prefix_of` p';
  ly_above d p : quar d → rec p → ¬ d `prefix_of` p;
  ly_below d p : quar d → rec p → ¬ p `prefix_of` d;
  ly_aside d p : quar d → rec p → ¬ beside p `prefix_of` d;
  ly_quars d d' f : quar d → quar d' → ¬ d ++ [f] `prefix_of` d'
}.

(** Names that uploads use besides the places, *)
Definition loose (rec quar : place → Prop) (x : place) : Prop :=
  (∃ p, rec p ∧ x = beside p) ∨ (∃ d f, quar d ∧ x = d ++ [f]).

(** and the directories they make. *)
Definition lane (rec quar : place → Prop) (x : place) : Prop :=
  (∃ p, rec p ∧ x = removelast p) ∨ quar x.

Record represents (rec quar : place → Prop) (l : Ledger.Ledger) (s : Fs) : Prop := {
  rp_plain : plain_fs s;
  rp_recordings p : rec p → file_at s p = Ledger.recordings l !! p;
  rp_partials p : rec p → file_at s (beside p) = Ledger.partials l !! p;
  rp_folders p : rec p → fs_tree s !! p = Some EDir ↔ p ∈ Ledger.folders l;
  rp_loose x : loose rec quar x → fs_tree s !! x ≠ Some EDir ∧ own_staging s x;
  rp_lane x : lane rec quar x → open_way s x
}.

Section layout.
Context (rec quar : place → Prop) (Hly : layout rec quar).

Abbreviation loose := (loose rec quar).
Abbreviation lane := (lane rec quar).
Abbreviation represents := (represents rec quar).

Lemma place_cases p : rec p → ∃ q n, p = q ++ [n] ∧ Forall valid_name q ∧ valid_name n.
Proof.
  intros Hr. destruct (ly_name _ _ Hly p Hr) as [Hne Hv]. destruct p as [|n q _] using rev_ind; [done|].
  apply Forall_app in Hv as [Hq Hn]. inversion Hn; subst. eauto.
Qed.

Lemma beside_inj p p' : rec p → rec p' → beside p = beside p' → p = p'.
Proof.
  intros Hp Hp'. destruct (place_cases p Hp) as (q & n & -> & _), (place_cases p' Hp') as (q' & n' & -> & _).
  rewrite !beside_snoc. intros [-> Hn%string_app_inj_r]%app_inj_tail. by rewrite Hn.
Qed.

Lemma beside_loose p : rec p → loose (beside p).
Proof. left. eauto. Qed.

Lemma place_lane_at q n : rec (q ++ [n]) → lane q.
Proof. left. exists (q ++ [n]). by rewrite removelast_last. Qed.

(** No loose name is above a place, *)
Lemma loose_place x p : loose x → rec p → ¬ x `prefix_of` p.
Proof.
  intros [(p' & Hp' & ->)|(d & f & Hd & ->)] Hp; [by apply (ly_beside _ _ Hly)|].
  intros Hpre. apply (ly_above _ _ Hly d p Hd Hp). etransitivity; [|exact Hpre]. by apply prefix_app_r.
Qed.

Lemma loose_ne x p : loose x → rec p → x ≠ p.
Proof. intros Hx Hp ->. by apply (loose_place p p). Qed.

(** nor above a lane, *)
Lemma loose_lane x y : loose x → lane y → ¬ x `prefix_of` y.
Proof.
  intros Hx [(p & Hp & ->)|Hy] Hpre.
  - apply (loose_place x p Hx Hp). etransitivity; [exact Hpre|]. destruct (place_cases p Hp) as (q & n & -> & _).
    rewrite removelast_last. by apply prefix_app_r.
  - destruct Hx as [(p & Hp & ->)|(d & f & Hd & ->)].
    + by apply (ly_aside _ _ Hly y p Hy Hp).
    + by apply (ly_quars _ _ Hly d y f).
Qed.

(** and neither is a place. *)
Lemma place_lane p y : rec p → lane y → ¬ p `prefix_of` y.
Proof.
  intros Hp [(p' & Hp' & ->)|Hy] Hpre; [|by apply (ly_below _ _ Hly y p Hy Hp)].
  destruct (place_cases p' Hp') as (q & n & -> & _). rewrite removelast_last in Hpre.
  assert (p = q ++ [n]) as ->.
  { apply (ly_apart _ _ Hly); [done..|]. etransitivity; [exact Hpre|]. by apply prefix_app_r. }
  by apply prefix_snoc_not in Hpre.
Qed.

(** ** Making directories *)

Lemma dirs_made_file d s s' q i :
  dirs_made d s s' → fs_tree s' !! q = Some (EFile i) → fs_tree s !! q = Some (EFile i).
Proof. intros Hm Hi. destruct (dm_tree _ _ _ Hm q) as [<-|(_ & ? & _)]; [done|congruence]. Qed.

Lemma dirs_made_way d s s' y : dirs_made d s s' → open_way s y → open_way s' y.
Proof. intros Hm [Hv Hw]. split; [done|]. intros q i Hq Hi. by eapply Hw, dirs_made_file. Qed.

Lemma dirs_represent l s s' d F :
  represents l s → dirs_made d s s' → (∀ x, loose x → ¬ x `prefix_of` d) →
  (∀ p, rec p → fs_tree s' !! p = Some EDir ↔ p ∈ F) →
  represents (Ledger.mkLedger (Ledger.recordings l) (Ledger.partials l) F) s'.
Proof.
  intros Hrep Hm Hx HF. split; cbn; [apply Hm|..].
  - intros p Hp. rewrite (dirs_made_file_at _ _ _ _ Hm). by apply Hrep.
  - intros p Hp. rewrite (dirs_made_file_at _ _ _ _ Hm). by apply Hrep.
  - done.
  - intros x Hl. destruct (rp_loose _ _ _ _ Hrep x Hl) as [Hne Ho]. split; [|by eapply dirs_made_own].
    destruct (dm_tree _ _ _ Hm x) as [->|(_ & _ & Hpre)]; [done|]. by destruct (Hx x Hl).
  - intros y Hy. eapply dirs_made_way; [done|]. by apply Hrep.
Qed.

(** Directories that are not places. *)
Lemma dirs_aside l s s' d :
  represents l s → dirs_made d s s' → (∀ x, loose x → ¬ x `prefix_of` d) → (∀ p, rec p → ¬ p `prefix_of` d) →
  represents l s'.
Proof.
  intros Hrep Hm Hx Hp. assert (l = Ledger.mkLedger (Ledger.recordings l) (Ledger.partials l) (Ledger.folders l)) as ->
    by by destruct l. eapply dirs_represent; [done..|]. intros p Hr. rewrite <- (rp_folders _ _ _ _ Hrep p Hr).
  destruct (dm_tree _ _ _ Hm p) as [->|(_ & _ & Hpre)]; [done|]. by destruct (Hp p Hr).
Qed.

(** ** A test file in its quarantine *)

Lemma quarantined l s s' d f i data :
  represents l s → quar d → staged (d ++ [f]) i data s s' → represents l s'.
Proof.
  intros Hrep Hd Hg. destruct (staged_files _ _ _ _ _ Hg) as [_ Hfiles].
  assert (loose (d ++ [f])) as Hl by (right; eauto).
  assert (∀ p, rec p → d ++ [f] ≠ p) as Hp by (intros p Hr; by apply loose_ne).
  assert (∀ p, rec p → beside p ≠ d ++ [f]) as Hb.
  { intros p Hr He. destruct (place_cases p Hr) as (q & n & -> & _). rewrite beside_snoc in He.
    apply app_inj_tail in He as [-> _]. apply (ly_above _ _ Hly d (d ++ [n]) Hd Hr). by apply prefix_app_r. }
  split; [apply Hg|..].
  - intros p Hr. rewrite Hfiles by (by apply not_eq_sym, Hp). by apply Hrep.
  - intros p Hr. rewrite Hfiles by by apply Hb. by apply Hrep.
  - intros p Hr. rewrite (sg_tree _ _ _ _ _ Hg), lookup_insert_ne by by apply Hp. by apply Hrep.
  - intros x Hx. rewrite (sg_tree _ _ _ _ _ Hg). destruct (decide (x = d ++ [f])) as [->|Hne].
    + rewrite lookup_insert_eq. split; [done|]. intros j. rewrite (sg_tree _ _ _ _ _ Hg), lookup_insert_eq.
      intros [= <-]. split.
      * intros q. rewrite (sg_tree _ _ _ _ _ Hg). intros [[<- _]|[_ Hq]]%lookup_insert_Some; [done|].
        by apply (sg_sole _ _ _ _ _ Hg).
      * intros fd h. rewrite (sg_fds _ _ _ _ _ Hg). by apply (sg_quiet _ _ _ _ _ Hg).
    + destruct (rp_loose _ _ _ _ Hrep x Hx) as [Hnd Ho]. rewrite lookup_insert_ne by done. split; [done|].
      intros j. rewrite (sg_tree _ _ _ _ _ Hg), lookup_insert_ne by done. intros Hj.
      destruct (Ho j Hj) as [Hs Hq]. split.
      * intros q. rewrite (sg_tree _ _ _ _ _ Hg). intros [[<- [= ->]]|[_ Hq']]%lookup_insert_Some; [|by apply Hs].
        by apply (sg_sole _ _ _ _ _ Hg) in Hj.
      * intros fd h. rewrite (sg_fds _ _ _ _ _ Hg). apply Hq.
  - intros y Hy. destruct (rp_lane _ _ _ _ Hrep y Hy) as [Hv Hw]. split; [done|]. intros q j Hq.
    rewrite (sg_tree _ _ _ _ _ Hg). intros [[<- _]|[_ Hj]]%lookup_insert_Some; [|by apply (Hw q j)].
    by apply (loose_lane (d ++ [f]) y).
Qed.

(** ** An upload on the representation *)

Section upload.
Context (l : Ledger.Ledger) (s s' : Fs) (q : list string) (n : string) (fin : option bytes).
Context (Hrep : represents l s) (Hr : rec (q ++ [n])) (Hnone : fs_tree s !! (q ++ [n]) = None).
Context (He : upload_effect q n fin s s').
Context (Hpub : ∀ b, fin = Some b → published s' (q ++ [n]) b).

Lemma kept_entry p i :
  p ≠ q ++ [n] → fs_tree s' !! p = Some (EFile i) → fs_tree s !! p = Some (EFile i).
Proof.
  intros Hne Hi. destruct (decide (p = beside (q ++ [n]))) as [->|Hst].
  { rewrite beside_snoc, (ue_staging _ _ _ _ _ He) in Hi. done. }
  rewrite beside_snoc in Hst.
  destruct (ue_tree _ _ _ _ _ He p Hst) as [[<-|(_ & Hd & _)]|[Hp _]]; [done|congruence|done].
Qed.

Lemma way_kept y : ¬ q ++ [n] `prefix_of` y → open_way s y → open_way s' y.
Proof.
  intros Hy [Hv Hw]. split; [done|]. intros p i Hpre Hi. apply (Hw p i Hpre), kept_entry; [|done].
  by intros ->.
Qed.

Lemma folders_kept p : rec p → fs_tree s' !! p = Some EDir ↔ p ∈ Ledger.folders l.
Proof.
  intros Hp. rewrite <- (rp_folders _ _ _ _ Hrep p Hp).
  assert (p ≠ q ++ [n +:+ STAGING_SUFFIX]) as Hst.
  { rewrite <- beside_snoc. by apply not_eq_sym, loose_ne; [apply beside_loose|]. }
  destruct (ue_tree _ _ _ _ _ He p Hst) as [[->|(_ & _ & Hpre)]|[-> [i Hi]]]; [done| |].
  - exfalso. by apply (place_lane p q); [|eapply place_lane_at|].
  - by rewrite Hi, Hnone.
Qed.

Lemma loose_kept x : loose x → fs_tree s' !! x ≠ Some EDir ∧ own_staging s' x.
Proof.
  intros Hx. assert (x ≠ q ++ [n]) as Hne by by apply loose_ne. split.
  - intros Hd. destruct (decide (x = q ++ [n +:+ STAGING_SUFFIX])) as [->|Hst].
    { by rewrite (ue_staging _ _ _ _ _ He) in Hd. }
    destruct (ue_tree _ _ _ _ _ He x Hst) as [[Ht|(_ & _ & Hpre)]|[? _]]; [| |done].
    + rewrite Ht in Hd. by apply (rp_loose _ _ _ _ Hrep x).
    + by apply (loose_lane x q); [|eapply place_lane_at|].
  - intros i Hi. destruct (proj2 (rp_loose _ _ _ _ Hrep x Hx) i (kept_entry _ _ Hne Hi)) as [Hs Hq]. split.
    + intros q' Hq'. destruct (decide (q' = q ++ [n])) as [->|Hn]; [|by apply Hs, kept_entry].
      exfalso. pose proof (ue_final _ _ _ _ _ He) as Hf. unfold file_at in Hf. rewrite Hq' in Hf.
      destruct (Hpub _ (eq_sym Hf)) as (j & Hj & _ & Hsole & _). simplify_eq. by apply Hne, Hsole.
    + intros fd h. rewrite (ue_fds _ _ _ _ _ He). apply Hq.
Qed.

(** What the upload leaves represents the ledger with the recording entered and
    nothing staged. *)
Lemma upload_represents :
  Ledger.recordings l !! (q ++ [n]) = None →
  represents
    (Ledger.mkLedger (match fin with Some b => <[q ++ [n] := b]> (Ledger.recordings l) | None => Ledger.recordings l end)
       (delete (q ++ [n]) (Ledger.partials l)) (Ledger.folders l)) s'.
Proof.
  intros Hrnone. pose proof (beside_snoc q n) as Hbs.
  split; cbn; [apply He| | |apply folders_kept|apply loose_kept|].
  - intros p Hp. destruct (decide (p = q ++ [n])) as [->|Hne].
    + rewrite (ue_final _ _ _ _ _ He). destruct fin; by simplify_map_eq.
    + rewrite (ue_others _ _ _ _ _ He); [|done|].
      * rewrite (rp_recordings _ _ _ _ Hrep) by done. destruct fin; by simplify_map_eq.
      * rewrite <- Hbs. by apply not_eq_sym, loose_ne; [apply beside_loose|].
  - intros p Hp. destruct (decide (p = q ++ [n])) as [->|Hne].
    + rewrite Hbs, lookup_delete_eq. apply file_at_None, He.
    + rewrite lookup_delete_ne by done.
      rewrite (ue_others _ _ _ _ _ He); [by apply Hrep|by apply loose_ne; [apply beside_loose|]|].
      rewrite <- Hbs. intros Heq. by apply Hne, beside_inj.
  - intros y Hy. apply way_kept; [by apply place_lane|by apply Hrep].
Qed.
End upload.
End layout.

(** ** Requests as events *)

Section refinement.
Context `{AgeLib} (b : ReoBackend) (Hb : backend_recipients b = None).
Context (rec quar : place → Prop) (Hly : layout rec quar).

Abbreviation loose := (loose rec quar).
Abbreviation lane := (lane rec quar).
Abbreviation represents := (represents rec quar).

Definition browsing (r : Request) : bool :=
  match r with RGet _ _ | RList _ | RCwd _ | RMetadata _ => true | _ => false end.

(** Directories there concern no place. *)
Definition away (d : place) : Prop :=
  (∀ p, rec p → ¬ p `prefix_of` d) ∧ (∀ x, loose x → ¬ x `prefix_of` d).

(** Requests whose path climbs, uploads of test files excepted. *)
Definition climbs (r : Request) : Prop :=
  match r with
  | RGet v _ | RList v | RMetadata v | RCwd v | RMkd v => ParentDir ∈ components v
  | RPut _ _ v _ => ParentDir ∈ components v ∧
      ∀ f, file_name v = Some f → is_reolink_test_file (to_string_lossy f) = false
  | _ => False
  end.

(** What a request of a user asks of the ledger: [None], nothing that concerns
    it. *)
Inductive means (s : Fs) (user : ReoUser) : Request → option Ledger.Event → Prop :=
| means_upload home seed input v pos f qb parts :
    user_role user = Uploader home → file_name v = Some f →
    is_reolink_test_file (to_string_lossy f) = false →
    rooted s user v qb parts → rec (qb ++ parts) →
    means s user (RPut seed input v pos) (Some (Ledger.Upload (qb ++ parts) pos input))
| means_retrieve scope v pos qb parts :
    user_role user = Viewer scope → rooted s user v qb parts → rec (qb ++ parts) →
    means s user (RGet v pos) (Some (Ledger.Retrieve (qb ++ parts) pos))
| means_measure v qb parts :
    rooted s user v qb parts → rec (qb ++ parts) →
    means s user (RMetadata v) (Some (Ledger.Measure (qb ++ parts)))
| means_folder home v qb parts :
    user_role user = Uploader home → rooted s user v qb parts → rec (qb ++ parts) →
    means s user (RMkd v) (Some (Ledger.Folder (qb ++ parts)))
| means_directory home v qb parts :
    user_role user = Uploader home → rooted s user v qb parts → away (qb ++ parts) →
    open_way s (qb ++ parts) → means s user (RMkd v) None
| means_test qb seed input v pos f :
    user_role user = Uploader (render qb) → file_name v = Some f →
    is_reolink_test_file (to_string_lossy f) = true → quar (qb ++ [QUARANTINE_DIR]) →
    means s user (RPut seed input v pos) None
| means_climb r : climbs r → means s user r None
| means_forbidden r :
    capability_allowed (user_role user) (request_op r) = false →
    means s user r (Some Ledger.Forbidden)
| means_browse r : browsing r = true → means s user r None.

(** The answer tells the user the outcome. *)
Definition tells (o : Ledger.Outcome) (r : result Answer Storage.Error) : Prop :=
  match o with
  | Ledger.Stored n => r = Ok (AStored n)
  | Ledger.Rejected e => r = Err (store_error_to_storage e)
  | Ledger.Content bs => r = Ok (ABytes bs)
  | Ledger.Size n => ∃ m, r = Ok (AMeta m) ∧ MetaImpl.len m = n ∧ MetaImpl.is_file m = true
  | Ledger.Missing => r = Err (Storage.Kind Storage.PermanentFileNotAvailable)
  | Ledger.IsFolder => ∃ m, r = Ok (AMeta m) ∧ MetaImpl.is_dir m = true
  | Ledger.Unreadable => r = Err (Storage.FromIo Io.IsADirectory)
  | Ledger.Made => r = Ok ADone
  | Ledger.Occupied => r = Err (Storage.FromIo Io.AlreadyExists)
  | Ledger.Denied => r = denied
  end.

(** The file system moved on, but nobody's directory went away, and nothing got in
    the way of a directory that concerns no place. *)
Definition onwards (s s' : Fs) : Prop :=
  fs_cwd s' = fs_cwd s ∧ (∀ d, is_dir (fs_tree s) d → is_dir (fs_tree s') d) ∧
  ∀ d, away d → open_way s d → open_way s' d.

Lemma onwards_refl s : onwards s s.
Proof. done. Qed.

Lemma onwards_trans s1 s2 s3 : onwards s1 s2 → onwards s2 s3 → onwards s1 s3.
Proof. intros (H1 & H1' & H1'') (H2 & H2' & H2''). split_and!; [congruence|auto..]. Qed.

Lemma onwards_tree s s' : fs_cwd s' = fs_cwd s → fs_tree s' = fs_tree s → onwards s s'.
Proof. intros Hc Ht. unfold onwards, open_way. by rewrite Ht. Qed.

Lemma onwards_dirs s s' d : dirs_made d s s' → onwards s s'.
Proof.
  intros Hm. split_and!; [apply Hm| |by intros x _; apply (dirs_made_way d)].
  intros x [->|Hx]; [by left|]. right. destruct (dm_tree _ _ _ Hm x) as [->|(Hn & _)]; [done|congruence].
Qed.

Lemma onwards_upload s s' q n fin : rec (q ++ [n]) → upload_effect q n fin s s' → onwards s s'.
Proof.
  intros Hr He. split_and!; [apply He..|]. intros d [Hd _]. apply (way_kept s s' q n fin He). by apply Hd.
Qed.

Lemma onwards_staged s s' d f i data : quar d → staged (d ++ [f]) i data s s' → onwards s s'.
Proof.
  intros Hd Hg. split_and!; [apply Hg|by intros x; eapply Backend.staged_keeps_dir|].
  intros x [_ Hx] [Hv Hw]. split; [done|]. intros q j Hq. rewrite (sg_tree _ _ _ _ _ Hg).
  intros [[<- _]|[_ Hj]]%lookup_insert_Some; [|by apply (Hw q j)]. apply (Hx (d ++ [f])); [right; eauto|done].
Qed.

Lemma means_later s s' user r ev : plain_fs s → onwards s s' → means s user r ev → means s' user r ev.
Proof.
  intros Hp (Hc & Hd & Hw) Hm.
  assert (∀ v qb parts, rooted s user v qb parts → rooted s' user v qb parts) as Hr.
  { intros v qb parts. by apply rooted_mono. }
  destruct Hm as [home seed input v pos f qb parts Hu Hf Ht Hq Hx|scope v pos qb parts Hu Hq Hx|v qb parts Hq Hx
    |home v qb parts Hu Hq Hx|home v qb parts Hu Hq Hx Ho|qb seed input v pos f Hu Hf Ht Hx|r Hx|r Hx|r Hx].
  - exact (means_upload s' user home seed input v pos f qb parts Hu Hf Ht (Hr _ _ _ Hq) Hx).
  - exact (means_retrieve s' user scope v pos qb parts Hu (Hr _ _ _ Hq) Hx).
  - exact (means_measure s' user v qb parts (Hr _ _ _ Hq) Hx).
  - exact (means_folder s' user home v qb parts Hu (Hr _ _ _ Hq) Hx).
  - exact (means_directory s' user home v qb parts Hu (Hr _ _ _ Hq) Hx (Hw _ Hx Ho)).
  - exact (means_test s' user qb seed input v pos f Hu Hf Ht Hx).
  - exact (means_climb s' user r Hx).
  - exact (means_forbidden s' user r Hx).
  - exact (means_browse s' user r Hx).
Qed.

Lemma represents_looks l s s' :
  represents l s → plain_fs s' → fs_tree s' = fs_tree s → fs_inodes s' = fs_inodes s →
  (∀ fd, fs_fds s' !! fd = fs_fds s !! fd) → represents l s'.
Proof.
  intros [] Hp Ht Hi Hf.
  assert (∀ p, file_at s' p = file_at s p) as Hfile.
  { intros p. unfold file_at, content, inode_of. by rewrite Ht, Hi. }
  split; [done|..]; intros p Hr; rewrite ?Hfile, ?Ht; auto.
  - destruct (rp_loose0 p Hr) as [Hd Ho]. split; [done|]. intros i. rewrite Ht. intros Hi'.
    destruct (Ho i Hi') as [Hs Hq]. split.
    + intros q'. rewrite Ht. apply Hs.
    + intros fd h. rewrite Hf. apply Hq.
  - destruct (rp_lane0 p Hr) as [Hv Hw]. split; [done|]. intros q' i. rewrite Ht. apply Hw.
Qed.

Abbreviation matches l s ev r s' :=
  (tells (Ledger.step ev l).1 r ∧ represents (Ledger.step ev l).2 s' ∧ onwards s s').

(** What is at a place. *)
Lemma place_entry l s p :
  represents l s → rec p →
  match Ledger.recordings l !! p with
  | Some bs => ∃ i, fs_tree s !! p = Some (EFile i) ∧ content s i = bs
  | None => if decide (p ∈ Ledger.folders l) then fs_tree s !! p = Some EDir else fs_tree s !! p = None
  end.
Proof.
  intros Hrep Hr. rewrite <- (rp_recordings _ _ _ _ Hrep) by done. unfold file_at.
  pose proof (rp_folders _ _ _ _ Hrep p Hr) as Hf.
  destruct (fs_tree s !! p) as [[i| |t]|] eqn:E; [eauto| | |].
  - by rewrite decide_True by by apply Hf.
  - by destruct (pf_links _ (rp_plain _ _ _ _ Hrep) _ _ E).
  - by rewrite decide_False by (intros Hx; by apply Hf in Hx).
Qed.

Lemma place_way l s p :
  represents l s → rec p → ∃ q n, p = q ++ [n] ∧ open_way s q ∧ valid_name n.
Proof.
  intros Hrep Hr. destruct (place_cases rec quar Hly _ Hr) as (q & n & -> & _ & Hn). exists q, n.
  split; [done|]. split; [|done]. apply Hrep. by eapply place_lane_at.
Qed.

Lemma upload_matches l s home user seed input v f pos qb parts :
  represents l s → user_role user = Uploader home → file_name v = Some f →
  is_reolink_test_file (to_string_lossy f) = false → rooted s user v qb parts → rec (qb ++ parts) →
  let '(r, s') := run_ok (serve b user (RPut seed input v pos)) s in
  matches l s (Ledger.Upload (qb ++ parts) pos input) r s'.
Proof.
  intros Hrep Hu Hf Ht Hroot Hr. cbn [serve].
  rewrite run_answered, (put_plain _ seed _ _ _ _ pos input _ _ _ (rp_plain _ _ _ _ Hrep) Hb Hu Hf Ht Hroot).
  cbn [fst snd Ledger.step]. unfold Ledger.upload.
  pose proof (place_entry l s _ Hrep Hr) as Hentry. destruct (place_way l s _ Hrep Hr) as (q & n & Hqn & Hw & Hn).
  rewrite Hqn in *. clear qb parts Hroot Hqn.
  assert (target s q n) as Htg by (split; [apply Hrep|done..]).
  pose proof (rp_partials _ _ _ _ Hrep _ Hr) as Hpart.
  destruct (rp_loose _ _ _ _ Hrep _ (beside_loose rec quar _ Hr)) as [Hnd Hown]. rewrite beside_snoc in *.
  destruct (Ledger.recordings l !! (q ++ [n])) as [bs|] eqn:Hrec.
  { destruct Hentry as (i & Hi & _). by rewrite (store_stream_immutable s q n pos input (EFile i)). }
  case_decide. { by rewrite (store_stream_immutable s q n pos input EDir). }
  rewrite <- Hpart.
  assert (∀ s', upload_effect q n None s s' → represents (Ledger.discard (q ++ [n]) l) s' ∧ onwards s s') as Hdisc.
  { intros s' He. split; [|by eapply onwards_upload].
    by apply (upload_represents rec quar Hly l s s' q n None Hrep Hr Hentry He). }
  case_decide as Hpos; [destruct (in_end input) as [k|] eqn:Hend|].
  - destruct (store_stream_broken s q n pos input k) as (s' & -> & He); [done..|]. split; [done|by apply Hdisc].
  - destruct (store_stream_ok s q n pos input) as (s' & -> & He & Hpub); [done..|]. split; [done|].
    split; [|by eapply onwards_upload].
    apply (upload_represents rec quar Hly l s s' q n (Some _) Hrep Hr Hentry He); [by intros bs [= <-]|done].
  - destruct (store_stream_offset s q n pos input) as (s' & -> & He); [done..|]. split; [done|by apply Hdisc].
Qed.

Lemma looks_state {A} (p : prog A) s :
  all_ops looks p → plain_fs s → plain_fs (run_ok p s).2 ∧ fs_cwd (run_ok p s).2 = fs_cwd s.
Proof.
  intros Hp Hs. apply (run_invariant (λ s', plain_fs s' ∧ fs_cwd s' = fs_cwd s) looks p (mkWorld s []));
    [|done|done].
  intros T e s1 r s2 He Hst [H1 H2]. split; [|by rewrite (ev_step_cwd _ _ _ _ Hst)].
  eapply ev_step_plain; [|done|done]. by destruct e.
Qed.

(** *** Retrievals *)

Definition leaves (s s' : Fs) : Prop :=
  fs_tree s' = fs_tree s ∧ fs_inodes s' = fs_inodes s ∧ ∀ fd, fs_fds s' !! fd = fs_fds s !! fd.

#[local] Hint Resolve resolve_for_read_only : reo.

(** Whatever it comes to, a retrieval leaves the files and the open files as they
    were. *)
Lemma download_leaves user v pos s : wf_fs s → leaves s (run_ok (download b user v pos) s).2.
Proof.
  intros Hs. pose proof (next_fd_fresh s Hs) as Hfd. unfold download, Backend.get.
  destruct (negb _); [done|]. rewrite !run_ok_bind.
  assert ((run_ok (resolve_for user v) s).2 = s) as ->.
  { apply (read_only_run (resolve_for user v) (mkWorld s [])). auto with reo. }
  destruct (run_ok (resolve_for user v) s).1 as [real|e]; [|done].
  rewrite run_ok_bind, run_ok_ask. cbn [exec].
  destruct (lookup_path s true real) as [q [i| |t]|d n|k]; try done; unfold open_handle; cbn [fst snd];
    case_decide; rewrite ?run_ok_bind, ?run_ok_ask; cbn [exec fs_fds set_fds fst snd];
    rewrite ?lookup_insert_eq; cbn [fst snd]; rewrite ?run_ok_ret; cbn [fst snd];
    rewrite ?run_ok_bind, ?run_ok_ask; cbn [exec fs_fds set_fds fst snd];
    rewrite ?lookup_insert_eq; cbn [fst snd]; rewrite ?run_ok_bind, ?run_ok_ask; cbn [exec fst snd];
    split_and!; try done; intros fd; cbn; destruct (decide (fd = fs_next_fd s)) as [->|]; by simplify_map_eq.
Qed.

Lemma download_onwards l s user v pos :
  represents l s →
  represents l (run_ok (download b user v pos) s).2 ∧ onwards s (run_ok (download b user v pos) s).2.
Proof.
  intros Hrep. pose proof (rp_plain _ _ _ _ Hrep) as Hp.
  destruct (download_leaves user v pos s (pf_wf _ Hp)) as (Ht & Hi & Hfd).
  destruct (looks_state (download b user v pos) s (download_looks b user v pos) Hp) as [Hp' Hc].
  split; [by eapply represents_looks|by apply onwards_tree].
Qed.

(** The answer where there is no recording. *)
Lemma download_other s user v pos qb parts q n :
  plain_fs s → capability_allowed (user_role user) Op.Get = true → rooted s user v qb parts →
  qb ++ parts = q ++ [n] → open_way s q → valid_name n →
  (fs_tree s !! (q ++ [n]) = None →
    (run_ok (download b user v pos) s).1 = Err (Storage.Kind Storage.PermanentFileNotAvailable)) ∧
  (fs_tree s !! (q ++ [n]) = Some EDir →
    (run_ok (download b user v pos) s).1 = Err (Storage.FromIo Io.IsADirectory)).
Proof.
  intros Hp Hc Hroot Hqn Hw Hn. unfold download, Backend.get. rewrite Hc. cbn [negb].
  rewrite !run_ok_bind, (rooted_resolve s user v qb parts) by done. cbn [fst snd].
  rewrite run_ok_bind, run_ok_ask, Hqn. cbn [exec]. rewrite (lookup_way s Hp q Hw) by done.
  split; intros ->.
  - by case_bool_decide.
  - unfold open_handle. cbn [fst snd]. case_decide; rewrite ?run_ok_bind, ?run_ok_ask; cbn [exec fs_fds set_fds fst snd];
      rewrite ?lookup_insert_eq; cbn [fst snd]; rewrite ?run_ok_ret; cbn [fst snd];
      rewrite ?run_ok_bind, ?run_ok_ask; cbn [exec fs_fds set_fds fst snd];
      rewrite ?lookup_insert_eq; cbn [fst snd]; by rewrite ?run_ok_bind, ?run_ok_ask.
Qed.

Lemma retrieve_matches l s scope user v pos qb parts :
  represents l s → user_role user = Viewer scope → rooted s user v qb parts → rec (qb ++ parts) →
  let '(r, s') := run_ok (serve b user (RGet v pos)) s in
  matches l s (Ledger.Retrieve (qb ++ parts) pos) r s'.
Proof.
  intros Hrep Hu Hroot Hr. cbn [serve Ledger.step]. rewrite run_answered. cbn [fst snd].
  assert (capability_allowed (user_role user) Op.Get = true) as Hc by by rewrite Hu.
  split; [|by apply download_onwards].
  pose proof (place_entry _ _ _ Hrep Hr) as He. pose proof (rp_plain _ _ _ _ Hrep) as Hp.
  destruct (Ledger.recordings l !! (qb ++ parts)) as [bs|].
  - destruct He as (i & Hi & Hbs).
    destruct (download_content b user v pos s qb parts bs) as (s' & Hd & _); [done..| |by rewrite Hd].
    unfold file_at. by rewrite Hi, Hbs.
  - destruct (place_way _ _ _ Hrep Hr) as (q & n & Hqn & Hw & Hn).
    destruct (download_other s user v pos qb parts q n Hp Hc Hroot Hqn Hw Hn) as [Hmiss Hdir].
    rewrite <- Hqn in *. unfold Ledger.otherwise. case_decide; cbn [tells].
    + by rewrite Hdir.
    + by rewrite Hmiss.
Qed.

Lemma measure_matches l s user v qb parts :
  represents l s → rooted s user v qb parts → rec (qb ++ parts) →
  let '(r, s') := run_ok (serve b user (RMetadata v)) s in
  matches l s (Ledger.Measure (qb ++ parts)) r s'.
Proof.
  intros Hrep Hroot Hr. cbn [serve Ledger.step]. rewrite run_answered. cbn [fst snd].
  pose proof (place_entry _ _ _ Hrep Hr) as He. pose proof (rp_plain _ _ _ _ Hrep) as Hp.
  destruct (place_way _ _ _ Hrep Hr) as (q & n & Hqn & Hw & Hn).
  assert (run_ok (metadata b user v) s =
    (match fs_tree s !! (qb ++ parts) with
     | Some e => Ok (Real (metadata_of s (qb ++ parts) e))
     | None => Err (Storage.Kind Storage.PermanentFileNotAvailable)
     end, s)) as ->.
  { unfold metadata. assert (capability_allowed (user_role user) Op.Metadata = true) as ->
      by by destruct (user_role user).
    cbn [negb]. rewrite run_ok_bind, (rooted_resolve s user v qb parts) by done. cbn [fst snd].
    rewrite run_ok_bind, run_ok_ask, Hqn, (stat_way s Hp q Hw) by done. cbn [fst snd].
    rewrite run_ok_ret. by destruct (fs_tree s !! (q ++ [n])). }
  cbn [fst snd]. destruct (Ledger.recordings l !! (qb ++ parts)) as [bs|].
  - destruct He as (i & -> & <-). split; [|by split]. eexists. split; [done|]. by split.
  - unfold Ledger.otherwise. case_decide; rewrite He; (split; [|by split]); [|done].
    eexists. by split.
Qed.

(** *** Directories *)

Lemma mkd_run s home user v qb parts :
  plain_fs s → user_role user = Uploader home → rooted s user v qb parts →
  run_ok (serve b user (RMkd v)) s =
    (match (run_ok (create_dir_all (render (qb ++ parts))) s).1 with
     | Ok _ => Ok ADone
     | Err k => Err (Storage.FromIo k)
     end, (run_ok (create_dir_all (render (qb ++ parts))) s).2).
Proof.
  intros Hp Hu Hroot. cbn [serve]. rewrite run_answered. unfold mkd. rewrite Hu. cbn [capability_allowed negb].
  rewrite run_ok_bind, (rooted_resolve s user v qb parts) by done. cbn [fst snd].
  rewrite run_ok_bind, run_ok_ret. cbn [fst snd]. by destruct (run_ok _ s).1.
Qed.

Lemma create_over_file s q n i :
  plain_fs s → open_way s q → valid_name n → fs_tree s !! (q ++ [n]) = Some (EFile i) →
  run_ok (create_dir_all (render (q ++ [n]))) s = (Err Io.AlreadyExists, s).
Proof.
  intros Hp Hw Hn Hi. unfold create_dir_all. rewrite components_render.
  2: { apply Forall_app. split; [apply Hw|by constructor]. }
  change (Normal <$> q ++ [n]) with (lexical (q ++ [n])).
  rewrite create_dir_all_rev_snoc, run_ok_bind, run_ok_ask. cbn [exec].
  rewrite (lookup_way s Hp q Hw), Hi by done. cbn [fst snd]. unfold path_is_dir.
  rewrite !run_ok_bind, run_ok_ask, (stat_way s Hp q Hw), Hi by done. done.
Qed.

Lemma folder_matches l s home user v qb parts :
  represents l s → user_role user = Uploader home → rooted s user v qb parts → rec (qb ++ parts) →
  let '(r, s') := run_ok (serve b user (RMkd v)) s in
  matches l s (Ledger.Folder (qb ++ parts)) r s'.
Proof.
  intros Hrep Hu Hroot Hr. pose proof (rp_plain _ _ _ _ Hrep) as Hp.
  rewrite (mkd_run s home user v qb parts) by done. cbn [Ledger.step].
  pose proof (place_entry _ _ _ Hrep Hr) as He. destruct (place_way _ _ _ Hrep Hr) as (q & n & Hqn & Hw & Hn).
  rewrite Hqn in *. clear Hroot Hqn qb parts. destruct (Ledger.recordings l !! (q ++ [n])) as [bs|].
  { destruct He as (i & Hi & _). by rewrite (create_over_file s q n i). }
  destruct (create_dir_all_ok (q ++ [n]) s Hp) as (s' & -> & Hd & Hm).
  { apply Forall_app. split; [apply Hw|by constructor]. }
  { intros q' i [->|Hpre]%prefix_snoc_cases; [|by apply Hw].
    case_decide; by rewrite He. }
  split; [done|]. split; [|by eapply onwards_dirs].
  apply (dirs_represent rec quar l s s' (q ++ [n])); [done..|by intros x Hx; apply (loose_place rec quar Hly)|].
  intros p Hpr. destruct (decide (p = q ++ [n])) as [->|Hne].
  { destruct Hd as [Hnil|Hd]; [by destruct q|]. split; [set_solver|done]. }
  rewrite elem_of_union, elem_of_singleton, <- (rp_folders _ _ _ _ Hrep p Hpr).
  destruct (dm_tree _ _ _ Hm p) as [->|(_ & _ & Hpre)]; [naive_solver|].
  by destruct Hne; apply (ly_apart _ _ Hly).
Qed.

Lemma directory_aside l s home user v qb parts :
  represents l s → user_role user = Uploader home → rooted s user v qb parts →
  away (qb ++ parts) → open_way s (qb ++ parts) →
  let '(r, s') := run_ok (serve b user (RMkd v)) s in represents l s' ∧ onwards s s'.
Proof.
  intros Hrep Hu Hroot [Hr Hx] Hw. pose proof (rp_plain _ _ _ _ Hrep) as Hp.
  rewrite (mkd_run s home user v qb parts) by done.
  destruct (create_dir_all_ok (qb ++ parts) s Hp) as (s' & -> & Hd & Hm); [apply Hw..|].
  split; [by eapply dirs_aside|by eapply onwards_dirs].
Qed.

Lemma test_aside l s user qb seed input v f pos :
  represents l s → user_role user = Uploader (render qb) → file_name v = Some f →
  is_reolink_test_file (to_string_lossy f) = true → quar (qb ++ [QUARANTINE_DIR]) →
  let '(r, s') := run_ok (serve b user (RPut seed input v pos)) s in represents l s' ∧ onwards s s'.
Proof.
  intros Hrep Hu Hf Ht Hd. pose proof (rp_plain _ _ _ _ Hrep) as Hp.
  assert (loose ((qb ++ [QUARANTINE_DIR]) ++ [to_string_lossy f])) as Hl by (right; eauto).
  assert (lane (qb ++ [QUARANTINE_DIR])) as Hlane by by right.
  destruct (rp_loose _ _ _ _ Hrep _ Hl) as [Hnd Hown].
  destruct (quarantine_run b seed user qb v f input pos s) as (s0 & s' & i & -> & Hm & _ & Hg); try done.
  { by apply Hrep. }
  split.
  - eapply quarantined; [done| |done|done]. apply (dirs_aside rec quar l s s0 (qb ++ [QUARANTINE_DIR])); [done..| |].
    + intros x Hx. by apply (loose_lane rec quar Hly).
    + intros p Hr. by apply (place_lane rec quar Hly).
  - eapply onwards_trans; [by eapply onwards_dirs|by eapply onwards_staged].
Qed.

(** *** Browsing *)

Lemma list_entries_read_only real names acc : all_ops read_only (list_entries real names acc).
Proof. revert acc. induction names as [|n names IH]; intros acc; cbn [list_entries]; ops. Qed.
#[local] Hint Resolve list_entries_read_only : reo.

Lemma browse_read_only user r :
  match r with RList _ | RCwd _ | RMetadata _ => True | _ => False end → all_ops read_only (serve b user r).
Proof.
  destruct r; try done; intros _; cbn [serve]; (apply all_ops_bind; [|by intros []]);
    unfold list_, list_dir, metadata, cwd, cwd_dir; ops.
Qed.

Lemma browse_aside l s user r :
  represents l s → browsing r = true →
  represents l (run_ok (serve b user r) s).2 ∧ onwards s (run_ok (serve b user r) s).2.
Proof.
  intros Hrep Hbr. destruct r; try done; cbn [browsing] in *.
  { cbn [serve]. rewrite run_answered. by apply download_onwards. }
  all: match goal with |- context [serve ?b' ?u ?r] =>
    pose proof (read_only_run (serve b' u r) (mkWorld s []) (browse_read_only u r I)) as Hs end;
    unfold run_ok; cbn [w_fs snd] in *; rewrite Hs; by split.
Qed.

(** *** Climbing paths *)

Lemma climb_refused user r s : climbs r → ∃ e, run_ok (serve b user r) s = (Err e, s).
Proof.
  intros Hc. set (v := match r with
    | RGet v _ | RList v | RMetadata v | RCwd v | RMkd v | RPut _ _ v _ => v
    | RDel v | RRmd v | RRename v _ => v
    end).
  destruct (climbing_refused b user r v (mkWorld s [])) as [e He].
  - subst v. destruct r; cbn in *; tauto.
  - subst v. destruct r; cbn in *; tauto.
  - exists e. unfold run_ok. by rewrite He.
Qed.

(** One request. *)
Lemma serve_matches l s user r ev :
  represents l s → means s user r ev →
  let '(o, l') := Ledger.attend ev l in
  let '(a, s') := run_ok (serve b user r) s in
  from_option (λ o, tells o a) True o ∧ represents l' s' ∧ onwards s s'.
Proof.
  intros Hrep Hm. destruct Hm as [home seed input v pos f qb parts Hu Hf Ht Hq Hr|scope v pos qb parts Hu Hq Hr
    |v qb parts Hq Hr|home v qb parts Hu Hq Hr|home v qb parts Hu Hq Ha Ho|qb seed input v pos f Hu Hf Ht Hd
    |r Hc|r Hc|r Hbr]; cbn [Ledger.attend].
  - pose proof (upload_matches l s home user seed input v f pos qb parts Hrep Hu Hf Ht Hq Hr) as Hx.
    destruct (Ledger.step _ l), (run_ok _ s). exact Hx.
  - pose proof (retrieve_matches l s scope user v pos qb parts Hrep Hu Hq Hr) as Hx.
    destruct (Ledger.step _ l), (run_ok _ s). exact Hx.
  - pose proof (measure_matches l s user v qb parts Hrep Hq Hr) as Hx.
    destruct (Ledger.step _ l), (run_ok _ s). exact Hx.
  - pose proof (folder_matches l s home user v qb parts Hrep Hu Hq Hr) as Hx.
    destruct (Ledger.step _ l), (run_ok _ s). exact Hx.
  - pose proof (directory_aside l s home user v qb parts Hrep Hu Hq Ha Ho) as Hx.
    destruct (run_ok _ s). exact (conj I Hx).
  - pose proof (test_aside l s user qb seed input v f pos Hrep Hu Hf Ht Hd) as Hx.
    destruct (run_ok _ s). exact (conj I Hx).
  - destruct (climb_refused user r s Hc) as [e ->]. split; [done|]. by split.
  - cbn [Ledger.step]. rewrite (denied_request b user r Hc). split; [done|]. by split.
  - pose proof (browse_aside l s user r Hrep Hbr) as Hx. destruct (run_ok _ s). exact (conj I Hx).
Qed.

(** Requests served one after the other. *)
Fixpoint serve_all (rs : list (ReoUser * Request)) (s : Fs) : list (result Answer Storage.Error) * Fs :=
  match rs with
  | [] => ([], s)
  | (user, r) :: rs' =>
      let '(a, s1) := run_ok (serve b user r) s in
      let '(l, s2) := serve_all rs' s1 in
      (a :: l, s2)
  end.

(** ** Properties *)

(** C3. The storage backend implements the ledger, while encryption is off.  Let the
    places be any set of paths of which none is inside another one or below the
    staging name of one, away from the quarantines.  Requests served one after the
    other, without failures, in any number and of any cameras and viewers, are
    answered as the ledger says: uploads to the places that are not test files,
    retrievals and measurements of them, making directories of them, and attempts
    at what the role may not do.  The files at the end are the ledger's at the end,
    also with other requests in between: listings and the like, directories made
    away from the places, test files, paths that climb.  So recordings are only
    added, uploads take effect as a whole or not at all, a place made a directory
    takes no upload any more, and exactly the bytes that were sent come back. *)
Theorem backend_refines_ledger rs evs l s :
  represents l s → Forall2 (λ '(user, r) ev, means s user r ev) rs evs →
  let '(os, l') := Ledger.history evs l in
  let '(answers, s') := serve_all rs s in
  Forall2 (λ o a, from_option (λ o, tells o a) True o) os answers ∧ represents l' s' ∧
  Ledger.recordings l ⊆ Ledger.recordings l'.
Proof.
  intros Hrep Hm. pose proof (Ledger.history_grows evs l) as Hg.
  enough (let '(os, l') := Ledger.history evs l in
    let '(answers, s') := serve_all rs s in
    Forall2 (λ o a, from_option (λ o, tells o a) True o) os answers ∧ represents l' s') as He.
  { destruct (Ledger.history evs l), (serve_all rs s). destruct He. done. }
  clear Hg. revert l s Hrep Hm. generalize rs. clear rs.
  induction evs as [|ev evs IH]; intros rs l s Hrep Hm.
  { by apply Forall2_nil_inv_r in Hm as ->. }
  apply Forall2_cons_inv_r in Hm as ([user r] & rs' & Hev & Hm & ->). cbn [Ledger.history serve_all].
  pose proof (serve_matches l s user r ev Hrep Hev) as H1.
  destruct (Ledger.attend ev l) as [o l1], (run_ok (serve b user r) s) as [a s1].
  destruct H1 as (Ht & Hrep1 & Hon). specialize (IH rs' l1 s1 Hrep1).
  destruct (Ledger.history evs l1) as [os l2], (serve_all rs' s1) as [answers s2].
  destruct IH as [H2 H3]; [|by split; [constructor|]].
  eapply Forall2_impl; [exact Hm|]. intros [u r'] ev' Hm'. by eapply means_later, Hm'; [apply Hrep|].
Qed.
End refinement.
