(* ===== verification/Immutable.v ===== *)
(** Finalized files are immutable: the guarantee the append-only design is for,
    over every interleaving of client requests.

    The operations a client request can cause are bounded by [client_op]; a file
    is [sealed] when its names are final names and nobody holds it open for
    writing.  No step of any number of concurrent requests, failing or being
    abandoned anywhere, changes a sealed file's content or takes its name away. *)
From S2P Require Import Prelude StdPath StdFs Prog FsView Append Paths Crypto Config Account.
From S2P Require Import Limits Auth Store Backend.

(** Names the server itself rewrites: staging files and Reolink test files. *)
Definition volatile (n : string) : bool := is_staging_name n || is_reolink_test_file n.

Definition named (P : string → bool) (p : string) : Prop :=
  ∃ n, file_name p = Some n ∧ P n = true.

(** What a client request may do to the file system. *)
Definition client_op (T : Type) (e : Sys T) : Prop :=
  match e with
  | RemoveFile p | OpenAppend p | HardLink p _ => named is_staging_name p
  | OpenTruncate _ p => named volatile p
  | RemoveDir _ | OpenExisting _ => False
  | _ => True
  end.

Definition writes_to (h : Handle) (i : nat) : Prop :=
  match h with HAppend j | HWrite j _ => j = i | _ => False end.

(** The file [q], which has a final name, is inode [i] with the content and the
    date [ino]; the inode has no other name and no descriptor can write to it. *)
Record sealed (q : list string) (i : nat) (ino : Inode) (s : Fs) : Prop := {
  se_entry : fs_tree s !! q = Some (EFile i);
  se_inode : inode_of s i = ino;
  se_final : ∃ d n, q = d ++ [n] ∧ volatile n = false;
  se_names q' : fs_tree s !! q' = Some (EFile i) → q' = q;
  se_fds fd h : fs_fds s !! fd = Some h → ¬ writes_to h i
}.

(** ** What client requests do *)

Section ops.
Context `{AgeLib}.

Abbreviation client := (all_ops client_op).

Lemma looks_client {A} (p : prog A) : all_ops looks p → client p.
Proof. apply all_ops_mono. by intros T []. Qed.

Lemma staging_named p : named is_staging_name (staging_path p).
Proof. apply staging_path_name. Qed.

Lemma named_volatile p : named is_staging_name p → named volatile p.
Proof. intros (n & Hn & Hs). exists n. split; [done|]. unfold volatile. by rewrite Hs. Qed.

Lemma create_dir_all_client p : client (create_dir_all p).
Proof. by apply create_dir_all_ops. Qed.
#[local] Hint Resolve create_dir_all_client : reo.

Lemma make_parent_client p : client (make_parent p).
Proof. unfold make_parent. ops. Qed.

Lemma on_fd_client {A} (p : prog A) : all_ops on_fd p → client p.
Proof. apply all_ops_mono. by intros T []. Qed.

#[local] Hint Resolve looks_client on_fd_client make_parent_client staging_named : reo.
#[local] Hint Resolve copy_on_fd encrypt_stream_on_fd resolve_for_looks download_looks : reo.
#[local] Hint Resolve list_looks metadata_looks cwd_looks : reo.

Lemma finalize_client st f n : named is_staging_name st → client (finalize st f n).
Proof. intros Hs. unfold finalize. ops. Qed.
#[local] Hint Resolve finalize_client : reo.

Lemma store_stream_client p pos input : client (store_stream p pos input).
Proof.
  pose proof (staging_named p) as Hs. unfold store_stream, staging_size, append_to. ops.
Qed.

Lemma store_encrypted_client seed p recs input : client (store_encrypted seed p recs input).
Proof.
  pose proof (named_volatile _ (staging_named p)) as Hs. unfold store_encrypted. ops.
Qed.
#[local] Hint Resolve store_stream_client store_encrypted_client : reo.

Lemma put_quarantine_client home f input :
  valid_name f → is_reolink_test_file f = true → client (put_quarantine home f input).
Proof.
  intros Hf Ht. assert (∀ d, named volatile (join d f)) as Hv.
  { intros d. exists f. split; [by apply file_name_join|]. unfold volatile. by rewrite Ht, orb_true_r. }
  unfold put_quarantine. ops.
Qed.
#[local] Hint Resolve put_quarantine_client : reo.

Lemma put_client b seed user input v pos : client (put b seed user input v pos).
Proof.
  unfold put. destruct (negb _); [done|]. destruct (user_role user) as [h|]; [|done].
  destruct (file_name v) as [f|] eqn:Hf; [|done].
  destruct (is_reolink_test_file (to_string_lossy f)) eqn:Ht.
  { apply put_quarantine_client; [|done]. by eapply to_string_lossy_valid, file_name_valid. }
  ops.
Qed.
#[local] Hint Resolve put_client : reo.

(** Every operation of every request is a client operation. *)
Lemma serve_client b user r : client (serve b user r).
Proof.
  unfold serve, answered, mkd. ops.
Qed.
End ops.

(** ** Client operations keep sealed files *)

(** In a plain file system a lookup ends at the path's own last name. *)
Lemma lookup_last s follow p n :
  plain_fs s → file_name p = Some n →
  match lookup_path s follow p with
  | WFound q _ => ∃ q', q = q' ++ [n]
  | WMissing _ m => m = n
  | WErr _ => True
  end.
Proof.
  intros Hp Hn. destruct (file_name_components _ _ Hn) as [cs Hcs].
  unfold lookup_path. case_decide; [done|].
  rewrite walk_no_symlinks by apply Hp. rewrite Hcs.
  pose proof (walk_nofollow_last (fs_tree s) MAXSYMLINKS (fs_cwd s) _ n cs eq_refl) as Hw.
  destruct (walk _ _ _ _ _); try done. apply last_Some_split in Hw. eauto.
Qed.

Section seal.
Context (q : list string) (i : nat) (ino : Inode).

Lemma sealed_other_inode s q' n j :
  sealed q i ino s → fs_tree s !! (q' ++ [n]) = Some (EFile j) → volatile n = true → j ≠ i.
Proof.
  intros Hs Hq Hv ->. apply (se_names _ _ _ _ Hs) in Hq.
  destruct (se_final _ _ _ _ Hs) as (d & m & -> & Hm). simplify_list_eq. congruence.
Qed.

Lemma sealed_fresh_inode s : plain_fs s → sealed q i ino s → fs_next_ino s ≠ i.
Proof.
  intros Hp Hs Heq. pose proof (wf_names _ (pf_wf _ Hp) _ _ (se_entry _ _ _ _ Hs)). lia.
Qed.

(** A new entry for another inode, at a free place. *)
Lemma sealed_insert s d n e :
  sealed q i ino s → fs_tree s !! (d ++ [n]) = None → e ≠ EFile i → sealed q i ino (insert_entry d n e s).
Proof.
  intros [] Hf He. split; cbn; try done.
  - rewrite lookup_insert_ne; [done|]. congruence.
  - intros q' [[_ ?]|[_ ?]]%lookup_insert_Some; [done|eauto].
Qed.

Lemma sealed_remove s d n :
  sealed q i ino s → volatile n = true → sealed q i ino (remove_entry (d ++ [n]) s).
Proof.
  intros Hs Hv. destruct (se_final _ _ _ _ Hs) as (q0 & m & Hq & Hm). destruct Hs.
  split; cbn; try done.
  - rewrite lookup_delete_ne; [done|]. intros Heq. rewrite Hq in Heq. simplify_list_eq. congruence.
  - intros q' [_ ?]%lookup_delete_Some. eauto.
Qed.

Lemma sealed_content s j c : sealed q i ino s → j ≠ i → sealed q i ino (set_content j c s).
Proof.
  intros [] Hj. split; cbn; try done. unfold inode_of in *. cbn.
  by rewrite lookup_insert_ne.
Qed.

Lemma sealed_set_fd s fd h :
  sealed q i ino s → ¬ writes_to h i → sealed q i ino (set_fds <[fd := h]> s).
Proof.
  intros [] Hh. split; cbn; try done.
  intros fd' h' [[_ <-]|[_ ?]]%lookup_insert_Some; [done|eauto].
Qed.

Lemma sealed_close s fd : sealed q i ino s → sealed q i ino (set_fds (delete fd) s).
Proof. intros []. split; cbn; try done. intros fd' h [_ ?]%lookup_delete_Some; eauto. Qed.

Lemma sealed_open s h : sealed q i ino s → ¬ writes_to h i → sealed q i ino (open_handle h s).2.
Proof.
  intros [] Hh. split; cbn; try done.
  intros fd h' [[_ <-]|[_ ?]]%lookup_insert_Some; [done|eauto].
Qed.

Lemma sealed_create s mode d n :
  plain_fs s → sealed q i ino s → fs_tree s !! (d ++ [n]) = None → sealed q i ino (create_file mode d n s).
Proof.
  intros Hp Hs Hf. pose proof (sealed_fresh_inode _ Hp Hs) as Hi. destruct Hs.
  split; cbn; try done.
  - rewrite lookup_insert_ne; [done|]. congruence.
  - unfold inode_of in *. cbn. by rewrite lookup_insert_ne.
  - intros q' [[_ [= ?]]|[_ ?]]%lookup_insert_Some; [done|eauto].
Qed.

Lemma sealed_write s fd c s' : sealed q i ino s → write_handle fd c s = Some s' → sealed q i ino s'.
Proof.
  intros Hs Hw. unfold write_handle in Hw.
  destruct (fs_fds s !! fd) as [[j|j pos|j pos|]|] eqn:E; simplify_eq;
    pose proof (se_fds _ _ _ _ Hs _ _ E) as Hj.
  - by apply sealed_content.
  - by apply sealed_set_fd, Hj; apply sealed_content.
Qed.

(** Opening a file under a volatile name for writing. *)
Lemma sealed_open_volatile s p q' j :
  plain_fs s → sealed q i ino s → named volatile p → lookup_path s true p = WFound q' (EFile j) → j ≠ i.
Proof.
  intros Hp Hs (n & Hn & Hv) E. pose proof (lookup_last s true p n Hp Hn) as Hl.
  pose proof (lookup_path_wf s true p (pf_wf _ Hp)) as Hw. rewrite E in Hl, Hw.
  destruct Hl as [d ->]. by eapply sealed_other_inode.
Qed.

Lemma sealed_exec T (e : Sys T) s :
  client_op T e → plain_fs s → sealed q i ino s → sealed q i ino (exec e s).2.
Proof.
  intros He Hp Hs. pose proof (λ follow p, lookup_path_wf s follow p (pf_wf _ Hp)) as Hw.
  pose proof (sealed_fresh_inode _ Hp Hs) as Hi.
  destruct e as [p|p|p|p|p|p|p|p|mode p|p|fd pos|fd c|fd|fd|src dst|p|p|p|p|fd]; try done;
    cbn [exec client_op] in *.
  1-4: by repeat case_match.
  - (* RemoveFile *) destruct He as (n & Hn & Hv). pose proof (lookup_last s false p n Hp Hn) as Hl.
    destruct (lookup_path s false p) as [q' [j| |t]| |]; try done; destruct Hl as [d ->];
      apply sealed_remove; try done; unfold volatile; by rewrite Hv.
  - (* Mkdir *) specialize (Hw false p). destruct (lookup_path s false p) as [| |]; try done.
    assert (sealed q i ino (insert_entry dir name EDir s)) as [] by (apply sealed_insert; [done|apply Hw|done]).
    by split.
  - (* OpenAppend *) specialize (Hw true p). apply named_volatile in He.
    destruct (lookup_path s true p) as [q' [j| |]|d n|] eqn:E; try done.
    + apply sealed_open; [done|]. by eapply sealed_open_volatile.
    + apply sealed_open; [|done]. apply sealed_create; [done..|apply Hw].
  - (* OpenTruncate *) specialize (Hw true p).
    destruct (lookup_path s true p) as [q' [j| |]|d n|] eqn:E; try done.
    + apply sealed_open_volatile in E as Hj; [|done..].
      apply sealed_open; [by apply sealed_content|done].
    + apply sealed_open; [|done]. apply sealed_create; [done..|apply Hw].
  - (* OpenRead *) destruct (lookup_path s true p) as [q' [j| |]| |]; try done; (apply sealed_open; [done|by intros []]).
  - (* Seek *) destruct (fs_fds s !! fd) as [[j|j po|j po|]|] eqn:E; try done; apply sealed_set_fd; try done.
    + exact (se_fds _ _ _ _ Hs _ _ E).
    + by intros [].
  - (* Write *) destruct (write_handle fd c s) eqn:E; [by eapply sealed_write|done].
  - (* Close *) by apply sealed_close.
  - (* HardLink *) destruct He as (n & Hn & Hv). pose proof (lookup_last s false src n Hp Hn) as Hl.
    pose proof (Hw false src) as Hsrc. pose proof (Hw false dst) as Hdst.
    destruct (lookup_path s false src) as [q' [j| |t]| |]; try done; destruct Hl as [d ->];
      destruct (lookup_path s false dst) as [| |]; try done; apply sealed_insert; try done; try apply Hdst.
    intros [= ->]. eapply (sealed_other_inode s d n i); try done. unfold volatile. by rewrite Hv.
  - by repeat case_match.
  - by repeat case_match.
  - (* ReadToEnd *) destruct (fs_fds s !! fd) as [[]|]; try done.
    apply sealed_set_fd; [done|by intros []].
Qed.

Lemma sealed_fault T f (e : Sys T) s : sealed q i ino s → sealed q i ino (fault_exec f e s).2.
Proof.
  intros Hs. destruct e; try done; cbn.
  - destruct (write_handle _ _ _) eqn:E; [by eapply sealed_write|done].
  - by apply sealed_close.
Qed.
End seal.

(** Client operations keep a file system plain. *)
Lemma client_plain T (e : Sys T) s r s' :
  client_op T e → ev_step e s r s' → plain_fs s → plain_fs s'.
Proof. intros He. apply ev_step_plain. by destruct e. Qed.

(** One step of a client operation, failing or not. *)
Lemma client_step q i ino T (e : Sys T) s r s' :
  client_op T e → ev_step e s r s' →
  plain_fs s ∧ sealed q i ino s → plain_fs s' ∧ sealed q i ino s'.
Proof.
  intros He Hs [Hp Hi]. split; [by eapply client_plain|].
  inversion Hs; subst; clear Hs; [by apply sealed_exec|by apply sealed_fault].
Qed.

(** *** From a completed upload to a sealed file *)

Lemma published_sealed s q n b :
  published s (q ++ [n]) b → volatile n = false →
  ∃ i ino, sealed (q ++ [n]) i ino s ∧ i_data ino = b.
Proof.
  intros (i & He & Hc & Hs & Hq) Hn. exists i, (inode_of s i). split; [|done]. split; [done|done|by eauto|done|].
  - intros fd h Hfd Hw. eapply Hq; [exact Hfd|]. by destruct h; cbn in *; subst.
Qed.

(** A finalized file: a name the server does not rewrite holds these bytes, they
    have no other name, and nobody has the file open for writing. *)
Definition finalized (s : Fs) (q : list string) (bs : bytes) : Prop :=
  ∃ i ino, sealed q i ino s ∧ i_data ino = bs.

Lemma published_finalized s q n b : published s (q ++ [n]) b → volatile n = false → finalized s (q ++ [n]) b.
Proof. apply published_sealed. Qed.

Lemma plain_set_now t s : plain_fs s → plain_fs (set_now t s).
Proof. intros [[] ?]. split; [by split|done]. Qed.

(** What is in flight after any execution still performs client operations
    only. *)
Lemma pool_client {A} (arrives : prog A → Prop) s s' ps' :
  (∀ p, arrives p → all_ops client_op p) → plain_fs s →
  pool_steps arrives (s, []) (s', ps') → plain_fs s' ∧ Forall (all_ops client_op) ps'.
Proof.
  intros Ha Hp Hsteps. eapply (pool_invariant arrives plain_fs client_op); eauto using client_plain, plain_set_now.
Qed.

Lemma sealed_forever {A} (arrives : prog A → Prop) q i ino s ps s' ps' :
  (∀ p, arrives p → all_ops client_op p) → Forall (all_ops client_op) ps →
  plain_fs s → sealed q i ino s → pool_steps arrives (s, ps) (s', ps') → sealed q i ino s'.
Proof.
  intros Ha Hps Hp Hs Hsteps.
  destruct (pool_invariant arrives (λ s, plain_fs s ∧ sealed q i ino s) client_op
    s ps s' ps') as [[_ Hs'] _]; try done.
  - intros T e s1 r s2. apply client_step.
  - intros t s1 [Hp1 []]. split; [by apply plain_set_now|by split].
Qed.

Lemma sealed_file_at q i ino s : sealed q i ino s → file_at s q = Some (i_data ino).
Proof.
  intros Hs. unfold file_at, content. by rewrite (se_entry _ _ _ _ Hs), (se_inode _ _ _ _ Hs).
Qed.

(** The server's requests, from any user of any configuration. *)
Definition server_request `{AgeLib} (p : prog (result Answer Storage.Error)) : Prop :=
  ∃ b user r, p = serve b user r.

Lemma server_request_client `{AgeLib} p : server_request p → all_ops client_op p.
Proof. intros (b & user & r & ->). apply serve_client. Qed.

(** ** Properties *)

Section properties.
Context `{AgeLib}.

(** A finalized file is immutable.  Once a file is published under a final
    name, in any state the server can reach, no interleaving of the requests in
    flight and of any number of later ones, by any users, arriving at any time,
    failing anywhere or abandoned halfway, ever changes a byte of the file or
    takes its name away. *)
Theorem finalized_immutable s0 s ps q n b s' ps' :
  plain_fs s0 → pool_steps server_request (s0, []) (s, ps) →
  finalized s (q ++ [n]) b →
  pool_steps server_request (s, ps) (s', ps') →
  file_at s' (q ++ [n]) = Some b.
Proof.
  intros Hp0 Hreach (i & ino & Hs & <-) Hsteps.
  destruct (pool_client _ _ _ _ server_request_client Hp0 Hreach) as [Hp Hps].
  by eapply sealed_file_at, (sealed_forever _ _ _ _ _ _ _ _ server_request_client Hps Hp Hs).
Qed.

(** End to end: after a camera's upload of a fresh final name completes, the
    file holds exactly what the camera sent through every later interleaving of
    requests. *)
Theorem upload_permanent b seed cam home v f qb parts n input s s1 s' ps' :
  plain_fs s → backend_recipients b = None → user_role cam = Uploader home →
  file_name v = Some f → is_reolink_test_file (to_string_lossy f) = false →
  rooted s cam v qb (parts ++ [n]) → volatile n = false → open_way s (qb ++ parts) →
  fs_tree s !! (qb ++ parts ++ [n]) = None →
  fs_tree s !! (qb ++ parts ++ [n +:+ STAGING_SUFFIX]) = None →
  in_end input = None →
  (run_ok (serve b cam (RPut seed input v 0)) s).2 = s1 →
  pool_steps server_request (s1, []) (s', ps') →
  file_at s' (qb ++ parts ++ [n]) = Some (in_data input).
Proof.
  intros Hp Hb Hu Hf Ht Hr Hn Hw Hfin Hst Hend Hs1 Hsteps.
  pose proof (rooted_valid _ _ _ _ _ Hp Hr) as Hv. rewrite app_assoc in *.
  apply Forall_app in Hv as [_ Hvn]. inversion Hvn as [|? ? Hvn' _]; subst.
  destruct (upload_fresh s (qb ++ parts) n input) as (s1 & Hs & He & Hpub); try done.
  cbn [serve] in Hsteps. rewrite run_answered in Hsteps. erewrite put_plain in Hsteps by done.
  rewrite app_assoc, Hs in Hsteps. cbn [snd] in Hsteps.
  destruct (published_sealed s1 (qb ++ parts) n _ Hpub Hn) as (i & ino & Hse & <-).
  pose proof (ue_plain _ _ _ _ _ He) as Hp1.
  by eapply sealed_file_at, (sealed_forever _ _ _ _ _ _ _ _ server_request_client (Forall_nil_2 _) Hp1 Hse).
Qed.
End properties.
