(* ===== verification/Confine.v ===== *)
(** Confinement of writes: what the requests of confined users leave untouched,
    over every interleaving.

    A region is a set of places of the archive.  A user is confined when it is a
    viewer or a camera whose home has no place in the region.  The requests of
    confined users, run together in any order, failing anywhere, leave every
    entry of the region and every file in it as it was.  With the places outside
    a home for region this confines the camera to its home; with the home of
    another camera it protects that camera's recordings. *)
From S2P Require Import Prelude StdPath StdFs Prog FsView Rely Append Paths Crypto Config Account.
From S2P Require Import Limits Auth Store Backend Immutable.

(** ** The region and what may be done around it *)

Section region.
Context (R : list string → Prop) (mine : gset nat) (s0 : Fs).

(** A path to a place outside the region. *)
Definition free (p : string) : Prop :=
  ∃ q, components p = RootDir :: lexical q ∧ Forall valid_name q ∧ ¬ R q.

(** A directory may also be asked for where there was one from the start. *)
Definition free_dir (q : list string) : Prop := ¬ R q ∨ is_dir (fs_tree s0) q.

Definition confined_op (T : Type) (e : Sys T) : Prop :=
  match e with
  | RemoveFile p | OpenAppend p | OpenTruncate _ p => free p
  | HardLink p p' => free p ∧ free p'
  | Mkdir p => ∃ q, components p = RootDir :: lexical q ∧ Forall valid_name q ∧ free_dir q
  | RemoveDir _ | OpenExisting _ => False
  | _ => True
  end.

(** Inode [j] has no name in the region. *)
Definition outside (s : Fs) (j : nat) : Prop := ∀ q, R q → fs_tree s !! q ≠ Some (EFile j).

(** The region is as it was at the start, its files have no names elsewhere, and
    nobody has them open for writing but through the descriptors [mine], which are
    as they were. *)
Record kept (s : Fs) : Prop := {
  kp_dirs d : is_dir (fs_tree s0) d → is_dir (fs_tree s) d;
  kp_entries q : R q → fs_tree s !! q = fs_tree s0 !! q;
  kp_content q i : R q → fs_tree s !! q = Some (EFile i) → content s i = content s0 i;
  kp_private q i : ¬ R q → fs_tree s !! q = Some (EFile i) → outside s i;
  kp_fds fd h i : fd ∉ mine → fs_fds s !! fd = Some h → writes_to h i → outside s i;
  kp_mine fd : fd ∈ mine → ∃ h, fs_fds s !! fd = Some h ∧ fs_fds s0 !! fd = Some h
}.

Definition intact (s : Fs) : Prop := plain_fs s ∧ kept s.

(** What a request may be from: a viewer, or a camera whose home is a directory
    away from the region. *)
Definition confined (user : ReoUser) : Prop :=
  match user_role user with
  | Viewer _ => True
  | Uploader home =>
      ∃ qb, home = render qb ∧ is_dir (fs_tree s0) qb ∧ ∀ r, ¬ R (qb ++ r)
  end.

(** ** Confined operations keep the region *)

Lemma lookup_lexical s follow p q :
  plain_fs s → components p = RootDir :: lexical q → Forall valid_name q →
  match lookup_path s follow p with
  | WFound q' _ => q' = q
  | WMissing d n => d ++ [n] = q
  | WErr _ => True
  end.
Proof.
  intros Hp Hc Hv. unfold lookup_path. case_decide; [done|].
  rewrite walk_no_symlinks by apply Hp. rewrite Hc. rewrite walk_unfold.
  assert (∀ cur, match walk MAXSYMLINKS (fs_tree s) false cur (lexical q) with
    | WFound q' _ => q' = cur ++ q | WMissing d n => d ++ [n] = cur ++ q | WErr _ => True end) as Hw.
  { clear Hc Hv. induction q as [|n q IH]; intros cur; rewrite walk_unfold.
    - by rewrite app_nil_r.
    - change (lexical (n :: q)) with (Normal n :: lexical q).
      destruct (fs_tree s !! (cur ++ [n])) as [[i| |t]|] eqn:E; rewrite ?E.
      + by destruct q.
      + specialize (IH (cur ++ [n])). by rewrite <- app_assoc in IH.
      + by destruct (pf_links _ Hp _ _ E).
      + by destruct q. }
  apply (Hw []).
Qed.

Lemma outside_tree s s' j : fs_tree s' = fs_tree s → outside s j → outside s' j.
Proof. unfold outside. by intros ->. Qed.

(** The tree of the region decides what is outside it. *)
Lemma outside_region s s' j :
  (∀ q, R q → fs_tree s' !! q = fs_tree s !! q) → outside s j → outside s' j.
Proof. intros Ht Hj q Hq. rewrite Ht by done. by apply Hj. Qed.

Lemma fresh_outside s : plain_fs s → outside s (fs_next_ino s).
Proof. intros Hp q _ Hq. apply (wf_names _ (pf_wf _ Hp)) in Hq. lia. Qed.

Lemma kept_insert s d n e :
  kept s → ¬ R (d ++ [n]) → fs_tree s !! (d ++ [n]) = None →
  (∀ i, e = EFile i → outside s i) → kept (insert_entry d n e s).
Proof.
  intros [Hd He Hc Hpr Hf Hm] Hn Hnone Ho.
  assert (∀ q, R q → fs_tree (insert_entry d n e s) !! q = fs_tree s !! q) as Ht.
  { intros q Hq. cbn. rewrite lookup_insert_ne; [done|]. by intros <-. }
  split; [| | | | |exact Hm].
  - intros d' Hd'. cbn. by apply is_dir_insert; [|apply Hd].
  - intros q Hq. rewrite Ht by done. by apply He.
  - intros q i Hq. rewrite Ht by done. by apply Hc.
  - intros q i Hq Hi. cbn in Hi. apply lookup_insert_Some in Hi as [[<- ->]|[_ Hi]];
      eapply outside_region; eauto.
  - intros fd h i Hfd Hh Hw. eapply outside_region; eauto.
Qed.

Lemma kept_remove s q e :
  kept s → ¬ R q → fs_tree s !! q = Some e → e ≠ EDir → kept (remove_entry q s).
Proof.
  intros [Hd He Hc Hpr Hf Hm] Hn Hq Hne.
  assert (∀ q', R q' → fs_tree (remove_entry q s) !! q' = fs_tree s !! q') as Ht.
  { intros q' Hq'. cbn. rewrite lookup_delete_ne; [done|]. by intros <-. }
  split; [| | | | |exact Hm].
  - intros d' Hd'. cbn. eapply is_dir_delete_file; eauto.
  - intros q' Hq'. rewrite Ht by done. by apply He.
  - intros q' i Hq'. rewrite Ht by done. by apply Hc.
  - intros q' i Hq' Hi. cbn in Hi. apply lookup_delete_Some in Hi as [_ Hi]. eapply outside_region; eauto.
  - intros fd h i Hfd Hh Hw. eapply outside_region; eauto.
Qed.

Lemma kept_content s j c : kept s → outside s j → kept (set_content j c s).
Proof.
  intros [Hd He Hc Hpr Hf Hm] Hj. split; try done.
  intros q i Hq Hi. unfold content, inode_of. cbn. rewrite lookup_insert_ne; [by eapply Hc|].
  intros ->. by eapply Hj.
Qed.

Lemma kept_fd s fd h :
  kept s → fd ∉ mine → (∀ i, writes_to h i → outside s i) → kept (set_fds <[fd := h]> s).
Proof.
  intros [Hd He Hc Hpr Hf Hm] Hfd Hh. split; try done.
  - intros fd' h' i Hx' Hx Hw. cbn in Hx.
    apply lookup_insert_Some in Hx as [[_ <-]|[_ Hx]]; [by apply Hh|by eapply Hf].
  - intros fd' Hx. cbn. rewrite lookup_insert_ne; [by apply Hm|]. by intros <-.
Qed.

Lemma kept_close s fd : kept s → fd ∉ mine → kept (set_fds (delete fd) s).
Proof.
  intros [Hd He Hc Hpr Hf Hm] Hfd. split; try done.
  - intros fd' h' i Hx' Hx Hw. cbn in Hx. apply lookup_delete_Some in Hx as [_ Hx]. by eapply Hf.
  - intros fd' Hx. cbn. rewrite lookup_delete_ne; [by apply Hm|]. by intros <-.
Qed.

Lemma next_not_mine s : plain_fs s → kept s → fs_next_fd s ∉ mine.
Proof.
  intros Hp Hk Hm. destruct (kp_mine _ Hk _ Hm) as (h & Hh & _).
  apply (wf_fd_nums _ (pf_wf _ Hp)) in Hh. lia.
Qed.

Lemma kept_open s h :
  plain_fs s → kept s → (∀ i, writes_to h i → outside s i) → kept (open_handle h s).2.
Proof.
  intros Hp Hk Hh. pose proof (kept_fd s _ h Hk (next_not_mine s Hp Hk) Hh) as [].
  by split.
Qed.

Lemma create_plain s mode d n :
  plain_fs s → is_dir (fs_tree s) d → valid_name n → fs_tree s !! (d ++ [n]) = None →
  plain_fs (create_file mode d n s).
Proof.
  intros [Hw Hl] Hd Hn Hq. split; [by apply wf_create_file|]. cbn.
  intros q t [[_ ?]|[_ Ht]]%lookup_insert_Some; [done|by eapply Hl].
Qed.

Lemma kept_create s mode d n :
  plain_fs s → kept s → ¬ R (d ++ [n]) → fs_tree s !! (d ++ [n]) = None → kept (create_file mode d n s).
Proof.
  intros Hp Hk Hn Hnone. pose proof (fresh_outside s Hp) as Hfr.
  destruct (kept_insert s d n (EFile (fs_next_ino s)) Hk Hn Hnone) as [Hd He Hc Hpr Hf Hm];
    [by intros i [= <-]|].
  split; try done.
  intros q i Hq Hi. unfold content, inode_of. cbn. rewrite lookup_insert_ne; [by eapply Hc|].
  intros <-. cbn in Hi. rewrite lookup_insert_ne in Hi by (by intros <-). by eapply Hfr.
Qed.

Lemma kept_write s fd c s' : kept s → fd ∉ mine → write_handle fd c s = Some s' → kept s'.
Proof.
  intros Hk Hfd Hw. unfold write_handle in Hw.
  destruct (fs_fds s !! fd) as [[j|j pos|j pos|]|] eqn:E; simplify_eq.
  - apply kept_content; [done|]. by eapply (kp_fds _ Hk _ _ _ Hfd E).
  - assert (outside s j) as Hj by (by eapply (kp_fds _ Hk _ _ _ Hfd E)).
    apply kept_fd; [by apply kept_content|done|]. by intros i ->.
Qed.

(** An entry found at a path outside the region. *)
Lemma free_found s follow p q e :
  plain_fs s → free p → lookup_path s follow p = WFound q e → ¬ R q.
Proof.
  intros Hp (q0 & Hc & Hv & Hn) H. pose proof (lookup_lexical s follow p q0 Hp Hc Hv) as Hl.
  rewrite H in Hl. by subst.
Qed.

Lemma free_missing s follow p d n :
  plain_fs s → free p → lookup_path s follow p = WMissing d n →
  ¬ R (d ++ [n]) ∧ fs_tree s !! (d ++ [n]) = None.
Proof.
  intros Hp (q0 & Hc & Hv & Hn) H. pose proof (lookup_lexical s follow p q0 Hp Hc Hv) as Hl.
  pose proof (lookup_path_wf s follow p (pf_wf _ Hp)) as Hw. rewrite H in Hl, Hw.
  subst. by destruct Hw as (_ & _ & Hw).
Qed.

Lemma free_file s follow p q i :
  plain_fs s → kept s → free p → lookup_path s follow p = WFound q (EFile i) →
  fs_tree s !! q = Some (EFile i) ∧ outside s i.
Proof.
  intros Hp Hk Hf H. pose proof (free_found s follow p q _ Hp Hf H) as Hn.
  pose proof (lookup_path_wf s follow p (pf_wf _ Hp)) as Hw. rewrite H in Hw.
  split; [done|]. by eapply kp_private.
Qed.

Lemma kept_open_file s p h mode :
  plain_fs s → kept s → free p →
  match lookup_path s true p with
  | WFound _ (EFile i) => (∀ j, writes_to (h i) j → j = i) → kept (open_handle (h i) s).2
  | WMissing d n => (∀ j, writes_to (h (fs_next_ino s)) j → j = fs_next_ino s) →
      kept (open_handle (h (fs_next_ino s)) (create_file mode d n s)).2
  | _ => True
  end.
Proof.
  intros Hp Hk Hf. destruct (lookup_path s true p) as [q [i| |]|d n|] eqn:E; try done.
  - intros Hh. apply kept_open; [done..|]. intros j ->%Hh. by eapply free_file.
  - intros Hh. destruct (free_missing s true p d n Hp Hf E) as [Hn Hnone].
    pose proof (lookup_path_wf s true p (pf_wf _ Hp)) as Hw. rewrite E in Hw.
    apply kept_open; [by apply create_plain; destruct Hw as (? & ? & ?)|by apply kept_create|].
    intros j ->%Hh.
    eapply outside_region; [|by apply fresh_outside].
    intros q Hq. cbn. rewrite lookup_insert_ne; [done|]. by intros <-.
Qed.

Lemma kept_exec T (e : Sys T) s :
  confined_op T e → uses (λ fd, fd ∉ mine) e → plain_fs s → kept s → kept (exec e s).2.
Proof.
  intros He Hu Hp Hk.
  destruct e as [p|p|p|p|p|p|p|p|mode p|p|fd pos|fd c|fd|fd|src dst|p|p|p|p|fd]; try done;
    cbn [exec confined_op] in *; unfold uses in Hu; cbn in Hu.
  1-4: by repeat case_match.
  - (* RemoveFile *) pose proof (lookup_path_wf s false p (pf_wf _ Hp)) as Hw.
    destruct (lookup_path s false p) as [q e| |] eqn:E; try done.
    pose proof (free_found s false p q _ Hp He E) as Hn.
    destruct e; try done; by eapply kept_remove.
  - (* Mkdir *) destruct He as (q & Hc & Hv & Hq).
    pose proof (lookup_lexical s false p q Hp Hc Hv) as Hl.
    pose proof (lookup_path_wf s false p (pf_wf _ Hp)) as Hw.
    destruct (lookup_path s false p) as [| d n|] eqn:E; try done. subst q.
    destruct Hw as (_ & _ & Hw). destruct Hq as [Hn|Hd].
    + by destruct (kept_insert s d n EDir Hk Hn Hw).
    + apply (kp_dirs _ Hk) in Hd as [?|Hd]; [by destruct d|congruence].
  - (* OpenAppend *) pose proof (kept_open_file s p HAppend FILE_MODE Hp Hk He) as H.
    destruct (lookup_path s true p) as [q [i| |]|d n|]; try done; by apply H.
  - (* OpenTruncate *) pose proof (kept_open_file s p (λ i, HWrite i 0) mode Hp Hk He) as H.
    destruct (lookup_path s true p) as [q [i| |]|d n|] eqn:E; try done; [|by apply H].
    apply (free_file _ _ _ _ _ Hp Hk He) in E as [_ Ho].
    apply kept_open; [split; [apply wf_set_content|]; apply Hp|by apply kept_content|].
    by intros j ->.
  - (* OpenRead *) destruct (lookup_path s true p) as [q [i| |]| |]; try done; by apply kept_open.
  - (* Seek *) destruct (fs_fds s !! fd) as [[j|j po|j po|]|] eqn:E; try done; apply kept_fd; try done.
    intros i Hi. by eapply (kp_fds _ Hk _ _ _ Hu E).
  - (* Write *) destruct (write_handle fd c s) eqn:E; [exact (kept_write _ _ _ _ Hk Hu E)|done].
  - (* Close *) by apply kept_close.
  - (* HardLink *) destruct He as [Hsrc Hdst].
    destruct (lookup_path s false src) as [q e| |] eqn:E; try done.
    assert (∀ d n, lookup_path s false dst = WMissing d n → e ≠ EDir →
      kept (insert_entry d n e s)) as Hins.
    { intros d n E' He. destruct (free_missing s false dst d n Hp Hdst E') as [Hn Hnone].
      apply kept_insert; try done. intros i ->. by eapply (free_file s false src). }
    destruct e; try done; (destruct (lookup_path s false dst); try done; by apply Hins).
  - by repeat case_match.
  - by repeat case_match.
  - (* ReadToEnd *) destruct (fs_fds s !! fd) as [[]|]; try done. by apply kept_fd.
Qed.

Lemma intact_step T (e : Sys T) s r s' :
  confined_op T e → uses (λ fd, fd ∉ mine) e → ev_step e s r s' → intact s → intact s'.
Proof.
  intros He Hu Hs [Hp Hk]. inversion Hs; subst; clear Hs; split.
  - apply exec_plain; [done|by destruct e].
  - by apply kept_exec.
  - by apply fault_plain.
  - unfold uses in Hu. destruct e; try done; cbn in *; [|by apply kept_close].
    destruct (write_handle _ _ _) eqn:E; [exact (kept_write _ _ _ _ Hk Hu E)|done].
Qed.

Lemma intact_clock t s : intact s → intact (set_now t s).
Proof. intros [Hp []]. split; [by apply plain_set_now|by split]. Qed.
End region.

(** ** What the requests of a confined user do *)

(** Canonicalizing what exists of a path may leave a separator at its end: when
    the path appears between the two attempts of [contained]. *)
Definition resolved (q : list string) (p : string) : Prop :=
  p = render q ∨ (p = render q +:+ "/" ∧ ends_in_slash (render q) = false).

Lemma resolved_join q : Forall valid_name q → resolved q (join (render q) "").
Proof.
  intros Hv. unfold join. cbn [has_root]. rewrite decide_False by (by apply render_ne).
  destruct (ends_in_slash (render q)) eqn:E; [left|right]; by rewrite string_app_nil_r.
Qed.

Lemma resolved_components q p :
  Forall valid_name q → resolved q p → components p = RootDir :: lexical q.
Proof.
  intros Hv [->|[-> _]]; [by apply components_render|].
  pose proof (components_join_lexical (render q) "" [] eq_refl (λ _, eq_refl)) as Hj.
  change (render q +:+ "/") with (render q +:+ String "/" ""). rewrite components_app_slash by (by apply render_ne).
  cbn. by rewrite app_nil_r, components_render.
Qed.

Definition pushed (suf : string) (r : list string) (m : string) (r' : list string) (m' : string) : Prop :=
  (r' = r ∧ m' = m +:+ suf) ∨ (r' = r ++ [m] ∧ m' = suf).

(** A suffix pushed on a resolved path names a place beside it or below it. *)
Lemma resolved_push qb r m p suf :
  Forall valid_name (qb ++ r ++ [m]) → resolved (qb ++ r ++ [m]) p →
  valid_name suf → 2 ≤ String.length suf →
  ∃ r' m', os_push p suf = render (qb ++ r' ++ [m']) ∧ Forall valid_name (qb ++ r' ++ [m']) ∧
    pushed suf r m r' m'.
Proof.
  intros Hv Hp Hsuf Hl. rewrite app_assoc in *. pose proof Hv as [Hq Hm]%Forall_app.
  inversion Hm as [|? ? Hm' _]; subst. destruct Hp as [->|[-> He]].
  - exists r, (m +:+ suf). rewrite app_assoc. split; [by apply os_push_render|]. split; [|by left].
    apply Forall_app. split; [done|]. constructor; [|done]. apply valid_name_push; try done. apply Hsuf.
  - exists (r ++ [m]), suf. rewrite !app_assoc. split; [|split; [apply Forall_app; auto|by right]].
    assert (has_root suf = false) as Hr by (by rewrite <- (string_app_nil_r suf), valid_name_root).
    rewrite (render_snoc _ suf), join_name by (done || by apply render_ne). unfold os_push. by rewrite string_app_assoc.
Qed.

(** Creating a directory whose way is free. *)
Lemma create_dirs_free R s0 p q :
  components p = RootDir :: lexical q → Forall valid_name q →
  (∀ q', q' `prefix_of` q → free_dir R s0 q') → all_ops (confined_op R s0) (create_dir_all p).
Proof.
  intros Hc Hv Hf. unfold create_dir_all. rewrite Hc. revert Hf Hv. clear Hc.
  induction q as [|n q IH] using rev_ind; intros Hf Hv; [done|].
  assert (confined_op R s0 _ (Mkdir (render (q ++ [n])))) as Hm.
  { exists (q ++ [n]). split; [by apply components_render|]. split; [done|]. by apply Hf. }
  assert (all_ops (confined_op R s0) (create_dir_all_rev (rev (RootDir :: lexical q)))) as Hq.
  { apply IH; [intros q' Hpre; apply Hf; by apply prefix_app_r|by apply Forall_app in Hv as []]. }
  rewrite create_dir_all_rev_snoc. unfold path_is_dir. ops.
Qed.

Section home.
Context `{AgeLib} (R : list string → Prop) (s0 : Fs) (qb : list string).
Context (Hp0 : plain_fs s0) (Hd : is_dir (fs_tree s0) qb).

(** A place below the home that is not in the region. *)
Abbreviation clear r := (¬ R (qb ++ r)).

Abbreviation confines := (all_ops (confined_op R s0)).
Abbreviation promises := (ensures plain_fs (confined_op R s0)).

Lemma home_valid : Forall valid_name qb.
Proof. by eapply plain_dir_valid. Qed.

Lemma home_free p r :
  components p = RootDir :: lexical (qb ++ r) → Forall valid_name (qb ++ r) → clear r → free R p.
Proof. intros Hc Hv. by exists (qb ++ r). Qed.

Lemma home_free_dir q r :
  (∀ r', r' `prefix_of` r → clear r') → q `prefix_of` qb ++ r → free_dir R s0 q.
Proof.
  intros Hr [t Ht]. symmetry in Ht. apply app_eq_inv in Ht as [(k & -> & Hk)|(k & Hk & _)].
  - left. apply Hr. by exists t.
  - right. eapply (is_dir_prefix _ q k); [apply Hp0|by rewrite <- Hk].
Qed.

Lemma looks_confined {A} (p : prog A) : all_ops looks p → confines p.
Proof. apply all_ops_mono. intros T e He. by destruct e. Qed.

Lemma on_fd_confined {A} (p : prog A) : all_ops on_fd p → confines p.
Proof. apply all_ops_mono. intros T e He. by destruct e. Qed.

#[local] Hint Resolve looks_confined on_fd_confined copy_on_fd encrypt_stream_on_fd : reo.

Lemma create_dirs_confined p r :
  components p = RootDir :: lexical (qb ++ r) → Forall valid_name (qb ++ r) →
  (∀ r', r' `prefix_of` r → clear r') → confines (create_dir_all p).
Proof. intros Hc Hv Hr. eapply create_dirs_free; [done..|]. intros q. by apply home_free_dir. Qed.

(** *** Storing *)

(** The places an upload to [r/m] may touch: the directories on the way, and what
    a suffix makes of the name, the file below it included. *)
Definition around (sufs : list string) (r : list string) (m : string) (r' : list string) : Prop :=
  r' `prefix_of` r ++ [m] ∨ ∃ suf t, suf ∈ "" :: sufs ∧ r' = r ++ (m +:+ suf) :: t.

Abbreviation clears r m := (∀ r', around [STAGING_SUFFIX] r m r' → clear r').

Lemma around_pushed suf sufs r m r' m' :
  pushed suf r m r' m' → suf ∈ sufs → around sufs r m (r' ++ [m']).
Proof.
  intros [[-> ->]|[-> ->]] Hs; right; [exists suf, []|exists "", [suf]].
  - split; [by right|done].
  - rewrite string_app_nil_r, <- app_assoc. split; [by left|done].
Qed.

(** Directories above what a suffix names. *)
Lemma around_above suf sufs r m r' m' r'' :
  pushed suf r m r' m' → r'' `prefix_of` r' → around sufs r m r''.
Proof.
  intros [[-> _]|[-> _]] Hpre; left; [|done]. by apply prefix_app_r.
Qed.

Lemma staging_confined p r m :
  Forall valid_name (qb ++ r ++ [m]) → resolved (qb ++ r ++ [m]) p → clears r m →
  free R (staging_path p) ∧ confines (make_parent (staging_path p)).
Proof.
  intros Hv Hp Hc. destruct (resolved_push qb r m p STAGING_SUFFIX) as (r' & m' & Hs & Hv' & Hx);
    [done|done|by vm_compute|cbn; lia|].
  unfold staging_path. rewrite Hs. split.
  - apply (home_free _ (r' ++ [m'])); [by apply components_render|done|].
    apply Hc. eapply around_pushed; [done|by left].
  - unfold make_parent. rewrite app_assoc, parent_render by (by rewrite <- app_assoc).
    rewrite app_assoc in Hv'. apply Forall_app in Hv' as [Hv' _].
    apply (create_dirs_confined _ r'); [by apply components_render|done|].
    intros r'' Hr. by eapply Hc, around_above.
Qed.

Lemma finalize_confined st f n : free R st → free R f → confines (finalize st f n).
Proof. intros Hs Hf. unfold finalize. ops. Qed.
#[local] Hint Resolve finalize_confined : reo.

Lemma final_free p r m :
  Forall valid_name (qb ++ r ++ [m]) → resolved (qb ++ r ++ [m]) p → clears r m → free R p.
Proof.
  intros Hv Hp Hc. apply (home_free _ (r ++ [m])); [by apply resolved_components|done|].
  apply Hc. by left.
Qed.

Lemma store_stream_confined p r m pos input :
  Forall valid_name (qb ++ r ++ [m]) → resolved (qb ++ r ++ [m]) p → clears r m →
  confines (store_stream p pos input).
Proof.
  intros Hv Hp Hc. destruct (staging_confined p r m Hv Hp Hc) as [Hs Hmk].
  pose proof (final_free p r m Hv Hp Hc) as Hf. unfold store_stream.
  ops.
Qed.

Lemma store_encrypted_confined seed p r m recs input :
  Forall valid_name (qb ++ r ++ [m]) → resolved (qb ++ r ++ [m]) p → clears r m →
  confines (store_encrypted seed p recs input).
Proof.
  intros Hv Hp Hc. destruct (staging_confined p r m Hv Hp Hc) as [Hs Hmk].
  pose proof (final_free p r m Hv Hp Hc) as Hf. unfold store_encrypted.
  ops.
Qed.

Lemma put_quarantine_confined f input :
  valid_name f → clear [] → (∀ t, clear (QUARANTINE_DIR :: t)) →
  confines (put_quarantine (render qb) f input).
Proof.
  intros Hf Hc0 Hc. assert (Forall valid_name (qb ++ [QUARANTINE_DIR; f])) as Hv.
  { apply Forall_app. split; [apply home_valid|]. repeat constructor; try done; apply Hf. }
  assert (Forall valid_name (qb ++ [QUARANTINE_DIR])) as Hq.
  { apply Forall_app. split; [apply home_valid|by repeat constructor]. }
  unfold put_quarantine. rewrite <- !render_snoc, <- app_assoc.
  assert (confines (create_dir_all (render (qb ++ [QUARANTINE_DIR])))).
  { apply (create_dirs_confined _ [QUARANTINE_DIR] (components_render _ Hq) Hq).
    intros [|x r'] [t Ht]; [done|]. injection Ht as <- _. apply Hc. }
  pose proof (home_free _ [QUARANTINE_DIR; f] (components_render _ Hv) Hv (Hc [f])). ops.
Qed.

(** *** Resolving

    The answer of [contained] is the path it was asked for; it ends in a separator
    only if there was something at the path at some moment meanwhile. *)
Section resolving.
Context (J : Fs → Prop) (HJ : ∀ s, J s → plain_fs s).

Abbreviation while_j := (ensures J (confined_op R s0)).

Definition seen (q : list string) : Prop := ∃ s, J s ∧ (q = [] ∨ is_Some (fs_tree s !! q)).

Definition landed (q : list string) (p : string) : Prop := p = render q ∨ (resolved q p ∧ seen q).

Lemma landed_resolved q p : landed q p → resolved q p.
Proof. intros [->|[? _]]; [by left|done]. Qed.

Lemma canonicalize_render s q c s' :
  J s → Forall valid_name q → ev_step (Canonicalize (render q)) s (Ok c) s' → c = render q ∧ seen q.
Proof.
  intros Hj Hv Hs. inversion Hs as [Hr Hs'|]. cbn [exec] in Hr.
  pose proof (lookup_lexical s true _ q (HJ _ Hj) (components_render q Hv) Hv) as Hl.
  pose proof (lookup_path_wf s true (render q) (pf_wf _ (HJ _ Hj))) as Hw.
  destruct (lookup_path s true (render q)) as [q' e| |]; simplify_eq/=.
  split; [done|]. exists s. split; [done|]. destruct e; eauto. destruct Hw; eauto.
Qed.

Lemma contained_loop_promises fuel base_c q ts :
  Forall valid_name (q ++ ts) →
  while_j (contained_loop fuel base_c (render q) (rel ts))
    (λ r, ∀ p, r = Ok p → landed (q ++ ts) p).
Proof.
  revert q ts. induction fuel as [|fuel IH]; intros q ts Hv; [done|]. cbn [contained_loop].
  pose proof Hv as [Hq Hts]%Forall_app. split; [done|]. intros s r s' Hj Hr.
  destruct r as [c|k]; cbn.
  - apply canonicalize_render in Hr as [-> Hseen]; [|done..]. destruct (starts_with _ _); [|done].
    intros p [= <-].
    destruct (decide (ts = [])) as [->|Hne]; [rewrite app_nil_r; right; auto using resolved_join|].
    left. by apply join_render_rel.
  - rewrite file_name_render by done. destruct q as [|n q _] using rev_ind; [done|].
    rewrite last_snoc, parent_render, rel_cons by done. cbn [default].
    rewrite <- app_assoc in *. by apply IH.
Qed.

Lemma contained_promises base q :
  Forall valid_name q → while_j (contained base (render q)) (λ r, ∀ p, r = Ok p → landed q p).
Proof.
  intros Hv. unfold contained. split; [done|]. intros s r s' _ _. destruct r as [bc|k]; cbn; [|done].
  split; [done|]. intros s1 r1 s1' Hj Hr. destruct r1 as [c|k]; cbn.
  - apply canonicalize_render in Hr as [-> _]; [|done..]. destruct (starts_with _ _); [|done].
    intros p [= <-]. by left.
  - pose proof (contained_loop_promises (contained_fuel (render q)) bc q []) as Hl.
    rewrite app_nil_r in Hl. by apply Hl.
Qed.

Lemma resolve_promises user v :
  user_role user = Uploader (render qb) →
  while_j (resolve_for user v) (λ r, ∀ p, r = Ok p →
    ∃ parts, normalize v = Ok parts ∧ Forall valid_name (qb ++ parts) ∧ landed (qb ++ parts) p).
Proof.
  intros Hu. unfold resolve_for, user_view. rewrite Hu. unfold resolve. cbn [single_root single].
  destruct (normalize v) as [parts|e] eqn:En; [|done].
  assert (foldl join (render qb) parts = render (qb ++ parts)) as -> by (by rewrite !render_fold, foldl_app).
  assert (Forall valid_name (qb ++ parts)) as Hv
    by (apply Forall_app; eauto using home_valid, normalize_valid).
  eapply ensures_bind; [by apply contained_promises|]. intros [p|e] Hp; cbn; [|done].
  intros p' [= <-]. eauto.
Qed.
End resolving.

Lemma resolve_resolved user v :
  user_role user = Uploader (render qb) →
  promises (resolve_for user v) (λ r, ∀ p, r = Ok p →
    ∃ parts, normalize v = Ok parts ∧ Forall valid_name (qb ++ parts) ∧ resolved (qb ++ parts) p).
Proof.
  intros Hu. eapply ensures_mono; [|by apply resolve_promises]. intros r Hr p Hp.
  destruct (Hr p Hp) as (parts & Hn & Hv & Hl). exists parts. eauto using landed_resolved.
Qed.

(** *** Requests *)

Lemma normalize_file_name v f parts :
  file_name v = Some f → normalize v = Ok parts → ∃ r, parts = r ++ [to_string_lossy f].
Proof.
  intros Hf [_ ->]%normalize_components_Ok. destruct (file_name_components _ _ Hf) as [cs ->].
  rewrite omap_app, fmap_app. cbn. eauto.
Qed.

(** What a request of the camera may touch is clear of the region. *)
Definition spots (parts r' : list string) : Prop :=
  r' `prefix_of` parts ∨
  ∃ r m, parts = r ++ [m] ∧
    around [STAGING_SUFFIX; ".age"; ".age" +:+ STAGING_SUFFIX] r m r'.

Definition elsewhere (req : Request) : Prop :=
  match req with
  | RPut _ _ v _ | RMkd v =>
      (∀ t, clear (QUARANTINE_DIR :: t)) ∧
      ∀ parts r', normalize v = Ok parts → spots parts r' → clear r'
  | _ => True
  end.

Lemma clears_plain r m : (∀ r', spots (r ++ [m]) r' → clear r') → clears r m.
Proof.
  intros Hc r' Hr. apply Hc. right. exists r, m. split; [done|]. destruct Hr as [?|(suf & t & Hs & ->)]; [by left|].
  right. exists suf, t. split; [|done]. set_solver.
Qed.

Lemma clears_age r m r' m' :
  (∀ r', spots (r ++ [m]) r' → clear r') → pushed ".age" r m r' m' → clears r' m'.
Proof.
  intros Hc Hp r'' Hr. apply Hc. right. exists r, m. split; [done|].
  destruct Hr as [Hpre|(suf & t & Hs & ->)].
  - destruct Hp as [[-> ->]|[-> ->]].
    + apply prefix_snoc_cases in Hpre as [->|Hpre]; [|left; by apply prefix_app_r].
      right. exists ".age", []. split; [set_solver|done].
    + apply prefix_snoc_cases in Hpre as [->|Hpre]; [|by left].
      right. exists "", [".age"]. rewrite string_app_nil_r, <- app_assoc. split; [set_solver|done].
  - right. destruct Hp as [[-> ->]|[-> ->]].
    + exists (".age" +:+ suf), t. rewrite string_app_assoc. split; [|done].
      apply elem_of_cons in Hs as [->|Hs]; [set_solver|].
      apply list_elem_of_singleton in Hs as ->. set_solver.
    + exists "", ((".age" +:+ suf) :: t). rewrite string_app_nil_r, <- app_assoc. split; [set_solver|done].
Qed.

Lemma put_promises b seed user input v pos :
  user_role user = Uploader (render qb) → clear [] → elsewhere (RPut seed input v pos) →
  promises (put b seed user input v pos) (λ _, True).
Proof.
  intros Hu Hc0 [Hcq Hc]. unfold put. rewrite Hu. cbn [capability_allowed negb].
  destruct (file_name v) as [f|] eqn:Hf; [|done].
  destruct (is_reolink_test_file (to_string_lossy f)).
  { apply ensures_ops, put_quarantine_confined; [|done|done]. by eapply to_string_lossy_valid, file_name_valid. }
  eapply ensures_bind; [by apply resolve_resolved|]. intros [p|e] Hr; [|done].
  destruct (Hr p eq_refl) as (parts & Hn & Hv & Hp). clear Hr. destruct (normalize_file_name v f parts Hf Hn) as [r ->].
  assert (∀ r', spots (r ++ [to_string_lossy f]) r' → clear r') as Hc' by eauto.
  destruct (backend_recipients b) as [recs|].
  - destruct (negb _); [done|]. apply ensures_ops, all_ops_bind; [|done].
    destruct (resolved_push qb r _ p ".age" Hv Hp) as (r' & m' & Ha & Hv' & Hx); [by vm_compute|cbn; lia|].
    unfold age_suffix. rewrite Ha. apply (store_encrypted_confined _ _ r' m'); [done|by left|].
    by eapply clears_age.
  - apply ensures_ops, all_ops_bind; [|done]. eapply store_stream_confined; [done..|by apply clears_plain].
Qed.

Lemma mkd_promises b user v :
  user_role user = Uploader (render qb) → elsewhere (RMkd v) → promises (mkd b user v) (λ _, True).
Proof.
  intros Hu [_ Hc]. unfold mkd. rewrite Hu. cbn [capability_allowed negb].
  eapply ensures_bind; [by apply resolve_resolved|]. intros [p|e] Hr; [|done].
  destruct (Hr p eq_refl) as (parts & Hn & Hv & Hp). clear Hr. apply ensures_ops, all_ops_bind; [|done].
  eapply create_dirs_confined; [by apply resolved_components|done|]. intros r' Hr.
  apply (Hc parts); [done|by left].
Qed.
End home.

(** A request is apart from the region: a viewer's, or a camera's that is directed
    elsewhere. *)
Definition apart (R : list string → Prop) (s0 : Fs) (user : ReoUser) `{AgeLib} (r : Request) : Prop :=
  match user_role user with
  | Viewer _ => True
  | Uploader home =>
      ∃ qb, home = render qb ∧ is_dir (fs_tree s0) qb ∧ ¬ R qb ∧ elsewhere R qb r
  end.

Lemma confined_apart `{AgeLib} R s0 user r : confined R s0 user → apart R s0 user r.
Proof.
  unfold confined, apart. destruct (user_role user); [|done]. intros (qb & -> & Hd & Hout).
  exists qb. split; [done|]. split; [done|]. split; [by rewrite <- (app_nil_r qb)|].
  by destruct r.
Qed.

Lemma apart_promises `{AgeLib} R s0 b user r :
  plain_fs s0 → apart R s0 user r →
  ensures plain_fs (confined_op R s0) (serve b user r) (λ _, True).
Proof.
  intros Hp Hu. unfold apart in Hu. destruct (user_role user) as [home|scope] eqn:Hr.
  2: { by eapply ensures_ops, looks_confined, viewer_looks. }
  destruct Hu as (qb & -> & Hd & Hq & Hout).
  assert (∀ A (p : prog A), all_ops looks p → ensures plain_fs (confined_op R s0) p (λ _, True)) as Hl.
  { intros A p Hops. by apply ensures_ops, looks_confined. }
  destruct r; cbn [serve]; (apply (ensures_bind _ _ _ _ (λ _, True)); [|by intros []]).
  - apply Hl, download_looks.
  - eapply put_promises; [done..|by rewrite app_nil_r|done].
  - apply Hl, list_looks.
  - apply Hl, metadata_looks.
  - apply Hl, cwd_looks.
  - by eapply mkd_promises.
  - done.
  - done.
  - done.
Qed.

Lemma serve_promises `{AgeLib} R s0 b user r :
  plain_fs s0 → confined R s0 user →
  ensures plain_fs (confined_op R s0) (serve b user r) (λ _, True).
Proof. intros Hp Hu. by apply apart_promises, confined_apart. Qed.

(** *** Smaller regions *)

Section smaller.
Context (R R' : list string → Prop) (HR : ∀ q, R q → R' q).

Lemma free_sub p : free R' p → free R p.
Proof. intros (q & Hc & Hv & Hn). exists q. split; [done|]. split; [done|]. intros Hq. by apply Hn, HR. Qed.

(** A confined operation is confined to less, also later when there are more
    directories. *)
Lemma confined_op_sub s0 s1 T (e : Sys T) :
  (∀ d, is_dir (fs_tree s0) d → is_dir (fs_tree s1) d) →
  confined_op R' s0 T e → confined_op R s1 T e.
Proof.
  intros Hd. destruct e; cbn; try done; try apply free_sub.
  - intros (q & Hc & Hv & [Hq|Hq]); exists q; (split; [done|]; split; [done|]); [left|right]; auto.
  - intros [H1 H2]. split; by apply free_sub.
Qed.

Lemma elsewhere_sub `{AgeLib} qb r : elsewhere R' qb r → elsewhere R qb r.
Proof.
  destruct r; try done; intros [Hq Hs]; (split; [intros t Ht; by apply (Hq t), HR|]);
    intros ps r' Hn Hsp Hr; by apply (Hs ps r' Hn Hsp), HR.
Qed.

Lemma apart_sub `{AgeLib} s0 user r : apart R' s0 user r → apart R s0 user r.
Proof.
  unfold apart. destruct (user_role user); [|done]. intros (qb & -> & Hd & Hn & He). exists qb.
  split; [done|]. split; [done|]. split; [auto|]. by apply elsewhere_sub.
Qed.
End smaller.

(** ** Properties *)

Section properties.
Context `{AgeLib}.

(** Requests of any users that are directed away from a region: cameras whose
    whole home is outside, and the others' requests for names outside. *)
Definition apart_request (R : list string → Prop) (s0 : Fs)
    (p : prog (result Answer Storage.Error)) : Prop :=
  ∃ b user r, apart R s0 user r ∧ p = serve b user r.

(** Files of the region have all their names in it, and none is open for
    writing. *)
Definition enclosed (R : list string → Prop) (s : Fs) : Prop :=
  (∀ q q' i, R q → fs_tree s !! q = Some (EFile i) → fs_tree s !! q' = Some (EFile i) → R q') ∧
  (∀ q i fd h, R q → fs_tree s !! q = Some (EFile i) → fs_fds s !! fd = Some h → ¬ writes_to h i).

Lemma enclosed_intact R s : plain_fs s → enclosed R s → intact R ∅ s s.
Proof.
  intros Hp [Hn Hf]. split; [done|]. split; try done.
  - intros q i Hq Hi q' Hr Hi'. by apply Hq, (Hn q' q i).
  - intros fd h i _ Hh Hw q Hr Hi. by eapply Hf.
Qed.

(** C4. Requests directed away from a region leave it alone: any number of them,
    in any interleaving, failing anywhere or abandoned halfway, and every entry of
    the region and the bytes of every file in it stay as they were.  A viewer's
    requests are directed away from everything.  A camera's are directed away from
    all that is outside its home; and within it from all but its quarantine, the
    directories on the way to the name it gives, that name, its [.age] name, the
    staging names of both and what is below these. *)
Theorem requests_confined R s0 s ps :
  plain_fs s0 → enclosed R s0 → pool_steps (apart_request R s0) (s0, []) (s, ps) →
  ∀ q, R q → fs_tree s !! q = fs_tree s0 !! q ∧ file_at s q = file_at s0 q.
Proof.
  intros Hp He Hs q Hq.
  destruct (ensures_pool (intact R ∅ s0) (confined_op R s0) (apart_request R s0) (λ _, True)
    s0 [] s ps) as [[_ Hk] _]; try done.
  - intros T e s1 r s2 Hop. apply intact_step; [done|by apply uses_all].
  - intros t s1. apply intact_clock.
  - intros p (b & user & r & Hu & ->). eapply ensures_under; [|by apply apart_promises]. by intros s1 [].
  - by apply enclosed_intact.
  - pose proof (kp_entries _ _ _ _ Hk q Hq) as Ht. split; [done|]. unfold file_at. rewrite <- Ht.
    destruct (fs_tree s !! q) as [[i| |]|] eqn:E; try done. f_equal. by eapply (kp_content _ _ _ _ Hk).
Qed.
End properties.
