(* ===== verification/Own.v ===== *)
(** Every handler of the server uses only the descriptors it opened itself: no
    request can write to, move or close what another one has open. *)
From S2P Require Import Prelude StdPath StdFs Prog FsView Rely Append Paths Crypto Config Account.
From S2P Require Import Limits Auth Store Backend.

(** ** Handlers use their own descriptors *)

Section ownership.
Context `{AgeLib}.

Definition on_this (fd : nat) (T : Type) (e : Sys T) : Prop :=
  op_fd e = Some fd ∧ ∀ r, returned e r = None.

#[local] Hint Extern 1 (no_fd _ _) => reflexivity : reo.
#[local] Hint Extern 1 (on_this _ _ _) => (split; reflexivity) : reo.

Lemma read_only_no_fd {A} (p : prog A) : all_ops read_only p → all_ops no_fd p.
Proof. apply all_ops_mono. by intros T []. Qed.

Lemma create_dir_all_no_fd p : all_ops no_fd (create_dir_all p).
Proof. by apply create_dir_all_ops. Qed.
#[local] Hint Resolve create_dir_all_no_fd read_only_no_fd resolve_for_read_only : reo.

Lemma make_parent_no_fd p : all_ops no_fd (make_parent p).
Proof. unfold make_parent. ops. Qed.
#[local] Hint Resolve make_parent_no_fd : reo.

Lemma finalize_no_fd st f n : all_ops no_fd (finalize st f n).
Proof. unfold finalize. ops. Qed.

Lemma list_no_fd b user v : all_ops no_fd (list_ b user v).
Proof.
  assert (∀ real names entries, all_ops no_fd (list_entries real names entries)) as Hl.
  { intros real names. induction names as [|n names IH]; intros entries; cbn [list_entries]; ops. }
  unfold list_, list_dir. ops.
Qed.

Lemma metadata_no_fd b user v : all_ops no_fd (metadata b user v).
Proof. unfold metadata. ops. Qed.

Lemma cwd_no_fd b user v : all_ops no_fd (cwd b user v).
Proof. unfold cwd, cwd_dir. ops. Qed.

Lemma mkd_no_fd b user v : all_ops no_fd (mkd b user v).
Proof. unfold mkd. ops. Qed.

Lemma copy_this input fd : all_ops (on_this fd) (copy input fd).
Proof.
  unfold copy. generalize 0%Z. induction (in_chunks input) as [|c l IH]; intros t; cbn [copy_chunks]; ops.
Qed.

Lemma encrypt_stream_this seed recs input fd : all_ops (on_this fd) (encrypt_stream seed recs input fd).
Proof.
  assert (∀ ps, all_ops (on_this fd) (write_pieces fd ps)) as Hps.
  { intros ps. induction ps; cbn [write_pieces]; ops. }
  assert (∀ sw chunks fin t, all_ops (on_this fd) (encrypt_copy fd sw chunks fin t)) as Hc.
  { intros sw chunks fin. revert sw. induction chunks as [|c l IH]; intros sw t; cbn [encrypt_copy]; ops. }
  unfold encrypt_stream; ops.
Qed.

(** A descriptor is opened, or the opening fails. *)
Lemma own_open {A} F (e : Sys nat) (k : io nat → prog A) :
  op_fd e = None → (∀ r, returned e r = match r with Ok fd => Some fd | Err _ => None end) →
  (∀ x, own F (k (Err x))) → (∀ fd (G : nat → Prop), G fd → own G (k (Ok fd))) → own F (Vis e k).
Proof.
  intros He Hr Hx Hk. split; [unfold uses; by rewrite He|]. intros [fd|x]; rewrite Hr.
  - apply Hk. by right.
  - eapply owned_mono; [|done|apply Hx]. auto.
Qed.

Lemma own_mono {A} (F F' : nat → Prop) (p : prog A) : (∀ fd, F fd → F' fd) → own F p → own F' p.
Proof. intros HF. by apply owned_mono. Qed.

(** One operation on an own descriptor, and a program of such operations. *)
Lemma own_vis {A T} (F : nat → Prop) fd (e : Sys T) (k : io T → prog A) :
  F fd → op_fd e = Some fd → (∀ r, own F (k r)) → own F (Vis e k).
Proof.
  intros HF He Hk. split; [unfold uses; by rewrite He|]. intros r.
  eapply owned_mono; [|done|apply Hk]. auto.
Qed.

Lemma append_to_own F st f input : own F (append_to st f input).
Proof.
  unfold append_to. apply own_bind.
  { apply own_bind; [by apply own_no_fd, make_parent_no_fd|done]. }
  intros [u|k]; [|done]. cbn [bind ask io_store map_err]. apply own_open; [done..|].
  clear F. intros fd F Hfd. apply own_bind; [apply (own_on_fd F fd); [done|apply copy_this]|].
  intros [m|k]; cbn [bind ask].
  - apply (own_vis F fd); [done..|]. intros [[]|k]; (apply (own_vis F fd); [done..|]); intros _; [|done].
    apply own_no_fd, finalize_no_fd.
  - split; [done|]. intros r. eapply own_mono; [|by apply (own_vis F fd)]. auto.
Qed.

Lemma store_stream_own F f pos input : own F (store_stream f pos input).
Proof.
  unfold store_stream, staging_size. apply own_bind; [by apply own_no_fd|]. intros [[]|k]; [done| |done].
  apply own_bind; [by apply own_no_fd|]. intros [m|k]; [|done].
  destruct (classify_offset _ _); [apply append_to_own|by apply own_no_fd..].
Qed.

Lemma store_encrypted_own F seed f recs input : own F (store_encrypted seed f recs input).
Proof.
  unfold store_encrypted. apply own_bind; [by apply own_no_fd|]. intros [[]|k]; [done| |].
  all: apply own_bind; [apply own_bind; [by apply own_no_fd, make_parent_no_fd|done]|]; intros [u|x]; [|done].
  all: apply own_bind; [|intros [m|e]; [apply own_no_fd, finalize_no_fd|done]].
  all: unfold encrypt_task; cbn [bind ask]; apply own_open; [done..|]; intros fd G Hfd.
  all: apply own_bind; [apply (own_on_fd G fd); [done|apply encrypt_stream_this]|].
  all: intros r; cbn [bind ask]; by apply (own_vis G fd).
Qed.

Lemma put_quarantine_own F home f input : own F (put_quarantine home f input).
Proof.
  unfold put_quarantine. apply own_bind; [by apply own_no_fd, create_dir_all_no_fd|].
  intros [u|k]; [|done]. cbn [bind ask]. apply own_open; [done..|]. intros fd G Hfd.
  apply own_bind; [apply (own_on_fd G fd); [done|apply copy_this]|].
  intros r. cbn [bind ask]. by apply (own_vis G fd).
Qed.

Lemma put_own F b seed user input v pos : own F (put b seed user input v pos).
Proof.
  unfold put. destruct (negb _); [done|]. destruct (user_role user) as [home|]; [|done].
  destruct (file_name v) as [f|]; [|done]. case_match; [apply put_quarantine_own|].
  apply own_bind; [apply own_no_fd, read_only_no_fd, resolve_for_read_only|]. intros [p|e]; [|done].
  destruct (backend_recipients b) as [recs|]; [case_match; [done|]|];
    (apply own_bind; [|done]); [apply store_encrypted_own|apply store_stream_own].
Qed.

(** A reader that is answered is the request's own. *)
Lemma get_owned F b user v pos :
  owned F (Backend.get b user v pos) (λ r G, ∀ fd, r = Ok fd → G fd).
Proof.
  unfold Backend.get. destruct (negb _); [done|]. eapply (owned_bind _ _ _ (λ _ _, True)).
  { apply own_no_fd, read_only_no_fd, resolve_for_read_only. }
  intros [real|e] G _; [|done]. cbn. split; [done|]. intros [fd|k]; [|done]. cbn.
  case_decide; cbn; [|by intros ? [= <-]; right]. split; [by right|].
  intros [u|k]; cbn; [by intros ? [= <-]; left; right|]. split; [by left; right|done].
Qed.

Lemma download_own F b user v pos : own F (download b user v pos).
Proof.
  unfold download. eapply owned_bind; [apply get_owned|]. intros [fd|e] G Hfd; [|done].
  specialize (Hfd fd eq_refl). cbn [bind ask]. apply (own_vis G fd); [done..|]. intros r.
  by apply (own_vis G fd).
Qed.

(** Every request uses only the descriptors it opened. *)
Lemma serve_own F b user r : own F (serve b user r).
Proof.
  destruct r; cbn [serve]; (apply own_bind; [|done]).
  - apply download_own.
  - apply put_own.
  - apply own_no_fd, list_no_fd.
  - apply own_no_fd, metadata_no_fd.
  - apply own_no_fd, cwd_no_fd.
  - apply own_no_fd, mkd_no_fd.
  - done.
  - done.
  - done.
Qed.
End ownership.
