(* ===== verification/Concurrent.v ===== *)
(** Uploads among others: what a camera can count on while any number of other
    requests are served at the same time.

    Every handler uses only the descriptors it opened itself ([Own]), so [Rely]
    applies.  The region of an upload is its final name and its staging name.  As
    long as the other requests are directed elsewhere, the same camera's uploads of
    other names and the downloads of viewers included, the upload behaves as if it
    ran alone: if it is answered as stored, the file holds exactly what was sent; it
    is answered with an error only for a reason of its own.  Every stage therefore
    says two things of the error path: nothing is published, and the error is
    [excused].  [Rely.settles] is what an operation finds whatever the others do. *)
From S2P Require Import Prelude StdPath StdFs Prog FsView Rely Append Paths Crypto Config Account.
From S2P Require Import Limits Auth Store Backend Immutable Confine Own.

(** ** What a program writes through a descriptor *)

(** The program only appends to [fd]: it ends with the bytes [acc] and all it
    wrote if every operation succeeds, and at once if one fails. *)
Fixpoint emits {A} (fd : nat) (p : prog A) (acc : bytes) (Q : A → bytes → Prop) (E : A → Prop) : Prop :=
  match p with
  | Ret a => Q a acc
  | Vis e k =>
      match e in Sys T return (io T → prog A) → (io T → bytes → Prop) → Prop with
      | Write fd' b => λ k go, fd' = fd ∧ go (Ok tt) (acc ++ b) ∧ ∀ x, ∃ a, k (Err x) = Ret a ∧ E a
      | Flush fd' => λ k go, fd' = fd ∧ go (Ok tt) acc ∧ ∀ x, ∃ a, k (Err x) = Ret a ∧ E a
      | _ => λ _ _, False
      end k (λ r acc', emits fd (k r) acc' Q E)
  end.

Lemma emits_bind {A B} fd (p : prog A) (f : A → prog B) acc Q E Q' E' :
  emits fd p acc Q' E' → (∀ a acc', Q' a acc' → emits fd (f a) acc' Q E) →
  (∀ a, E' a → ∃ a', f a = Ret a' ∧ E a') → emits fd (bind p f) acc Q E.
Proof.
  intros Hp Hf He. revert acc Hp. induction p as [a|T e k IH]; intros acc; cbn; [auto|].
  assert (∀ x, (∃ a, k x = Ret a ∧ E' a) → ∃ a, bind (k x) f = Ret a ∧ E a) as Herr.
  { intros x (a & -> & Ha). by apply He. }
  destruct e; try done; intros (-> & Hgo & Hx); (split; [done|]; split; [by apply IH|]); auto.
Qed.

Abbreviation failed := (λ r, ∃ x, r = Err x).

Lemma copy_emits fd input acc :
  emits fd (copy input fd) acc
    (λ r acc', match r with
       | Ok m => in_end input = None ∧ m = Z.of_nat (length (in_data input)) ∧ acc' = acc ++ in_data input
       | Err x => in_end input = Some x
       end)
    failed.
Proof.
  unfold copy, in_data. replace (Z.of_nat (length (concat (in_chunks input)))) with
    (0 + Z.of_nat (length (concat (in_chunks input))))%Z by lia.
  generalize 0%Z. revert acc. induction (in_chunks input) as [|c l IH]; intros acc t; cbn [copy_chunks].
  - cbn. rewrite app_nil_r. destruct (in_end input); [done|]. split; [done|]. split; [lia|done].
  - cbn. split; [done|]. split; [|eauto].
    specialize (IH (acc ++ c) (t + Z.of_nat (length c))%Z). rewrite length_app, app_assoc.
    replace (t + Z.of_nat (length c + length (concat l)))%Z with
      (t + Z.of_nat (length c) + Z.of_nat (length (concat l)))%Z by lia. done.
Qed.

Section encrypted.
Context `{AgeLib}.

Lemma write_pieces_emits fd ps acc :
  emits fd (write_pieces fd ps) acc (λ r acc', r = Ok tt ∧ acc' = acc ++ concat ps) failed.
Proof.
  revert acc. induction ps as [|b l IH]; intros acc; cbn [write_pieces concat].
  - cbn. by rewrite app_nil_r.
  - cbn. split; [done|]. split; [|eauto]. rewrite app_assoc. apply IH.
Qed.

Lemma encrypt_copy_emits fd sw chunks fin t acc :
  emits fd (encrypt_copy fd sw chunks fin t) acc
    (λ r acc', match r with
       | Ok (m, sw') => fin = None ∧ sw' = (stream_writes sw chunks).2 ∧
           m = (t + Z.of_nat (length (concat chunks)))%Z ∧ acc' = acc ++ concat (stream_writes sw chunks).1
       | Err _ => fin ≠ None
       end)
    failed.
Proof.
  revert sw t acc. induction chunks as [|c l IH]; intros sw t acc; cbn [encrypt_copy stream_writes concat].
  - cbn. rewrite app_nil_r. destruct fin; [done|]. split_and!; [done|done|lia|done].
  - destruct (stream_write sw c) as [sw' out] eqn:E.
    eapply emits_bind; [apply write_pieces_emits| |intros a [x ->]; eauto].
    intros r acc' [-> ->]. specialize (IH sw' (t + Z.of_nat (length c))%Z (acc ++ concat out)).
    destruct (stream_writes sw' l) as [outs sw''] eqn:E2. cbn [fst snd] in *.
    rewrite concat_app, length_app, app_assoc.
    replace (t + Z.of_nat (length c + length (concat l)))%Z with
      (t + Z.of_nat (length c) + Z.of_nat (length (concat l)))%Z by lia. done.
Qed.

Lemma encrypt_stream_emits fd seed recs input acc :
  emits fd (encrypt_stream seed recs input fd) acc
    (λ r acc', match r with
       | Ok m => in_end input = None ∧ m = Z.of_nat (length (in_data input)) ∧
           ∃ enc, with_recipients seed recs = Ok enc ∧
             acc' = acc ++ concat (ciphertext enc (in_chunks input))
       | Err _ => in_end input ≠ None ∨ ∃ e, with_recipients seed recs = Err e
       end)
    failed.
Proof.
  unfold encrypt_stream, ciphertext, in_data. destruct (with_recipients seed recs) as [enc|e]; [|cbn; eauto].
  destruct (wrap_output enc) as [sw header] eqn:Ew.
  eapply emits_bind; [apply write_pieces_emits| |intros a [x ->]; eauto]. intros r acc' [-> ->].
  eapply emits_bind; [apply encrypt_copy_emits| |intros a [x ->]; eauto].
  intros [[m sw']|k] acc'; [|by left]. intros (Hend & -> & -> & ->).
  eapply emits_bind; [apply write_pieces_emits| |intros a [x ->]; eauto]. intros r acc' [-> ->].
  cbn. split; [done|]. split; [|eauto]. split; [done|]. split; [lia|].
  exists enc. split; [done|]. rewrite Ew. destruct (stream_writes sw (in_chunks input)) as [outs sw''].
  cbn [fst snd]. by rewrite !concat_app, <- !app_assoc.
Qed.
End encrypted.

(** ** What an upload finds when nothing fails *)

(** An existing directory is not in the way. *)
Lemma dir_settles (J : Fs → Prop) q :
  Forall valid_name q → (∀ s, J s → ∀ follow, lookup_path s follow (render q) = WFound q EDir) →
  settles J (create_dir_all (render q)) (λ r, r = Ok tt).
Proof.
  intros Hv Hl. unfold create_dir_all. rewrite components_render by done. change (Normal <$> q) with (lexical q).
  destruct q as [|m q _] using rev_ind; [done|]. rewrite create_dir_all_rev_snoc. cbn.
  intros s Hs. rewrite Hl by done. cbn. intros s' Hs'. by rewrite Hl.
Qed.

(** ** An upload and its region *)

Section upload.
Context (s0 : Fs) (q : list string) (n : string) (extra : list string).
Context (Hp0 : plain_fs s0) (Hvq : Forall valid_name q) (Hvn : valid_name n).

(** The upload's own operations fail for outside reasons only if [may_fail].  When
    it is [ready], its directory exists. *)
Context (may_fail ready : Prop) (Hready : ready → is_dir (fs_tree s0) q).

(** When it is ready, an error has such a reason. *)
Abbreviation excused := (ready → may_fail).

Abbreviation final := (q ++ [n]).
Abbreviation staging := (q ++ [n +:+ STAGING_SUFFIX]).

(** The names that belong to the upload. *)
Definition claimed (q' : list string) : Prop :=
  ∃ x, x ∈ n :: (n +:+ STAGING_SUFFIX) :: extra ∧ q' = q ++ [x].

(** The names of the region that are not for the upload do not exist. *)
Definition spare (b : Fs) : Prop :=
  ∀ x, x ∈ extra → x ≠ n → x ≠ n +:+ STAGING_SUFFIX → fs_tree b !! (q ++ [x]) = None.

(** What the upload leaves as it was. *)
Definition begun (b : Fs) : Prop := (∀ d, is_dir (fs_tree s0) d → is_dir (fs_tree b) d) ∧ spare b.

(** From [b], left by the upload, the others led to [s]. *)
Definition among (mine : gset nat) (b s : Fs) : Prop := begun b ∧ intact claimed mine b s.

Abbreviation others_op := (confined_op claimed s0).

Lemma final_claimed : claimed final.
Proof. exists n. split; [by left|done]. Qed.

Lemma staging_claimed : claimed staging.
Proof. eexists. split; [by right; left|done]. Qed.

Lemma among_plain mine b s : among mine b s → plain_fs s.
Proof. by intros [_ [? _]]. Qed.

Lemma extra_claimed x : x ∈ extra → claimed (q ++ [x]).
Proof. intros Hx. exists x. split; [by right; right|done]. Qed.

Lemma begun_kept mine b s : begun b → kept claimed mine b s → begun s.
Proof.
  intros [Hd Hx] Hk. split; [intros d Hs; by apply Hk, Hd|]. intros x Hi Hn Hst.
  rewrite (kp_entries _ _ _ _ Hk) by (by apply extra_claimed). auto.
Qed.

Lemma begun_tree s s' : begun s → fs_tree s' = fs_tree s → begun s'.
Proof. unfold begun, spare. by intros [Hd Hx] ->. Qed.

(** A name of the upload's own comes and goes. *)
Lemma begun_insert x e s s' :
  begun s → x = n ∨ x = n +:+ STAGING_SUFFIX → fs_tree s !! (q ++ [x]) = None →
  fs_tree s' = <[q ++ [x] := e]> (fs_tree s) → begun s'.
Proof.
  intros [Hd Hx] Hn Hnone Ht. split.
  - intros d Hs. rewrite Ht. apply is_dir_insert; [by rewrite Hnone|auto].
  - intros y Hy Hyn Hys. rewrite Ht, lookup_insert_ne; [auto|]. intros [_ ->]%app_inj_tail. by destruct Hn.
Qed.

Lemma begun_remove x s :
  begun s → (∃ e, fs_tree s !! x = Some e ∧ e ≠ EDir) → begun (remove_entry x s).
Proof.
  intros [Hd Hx] (e & He & Hne). split.
  - intros d Hs. cbn. eapply is_dir_delete_file; [done|done|auto].
  - intros y Hy Hyn Hys. cbn. apply lookup_delete_None. auto.
Qed.

(** What the upload leaves is a new beginning for the others. *)
Lemma among_start mine s :
  begun s → plain_fs s →
  (∀ q' i, ¬ claimed q' → fs_tree s !! q' = Some (EFile i) → outside claimed s i) →
  (∀ fd h i, fd ∉ mine → fs_fds s !! fd = Some h → writes_to h i → outside claimed s i) →
  (∀ fd, fd ∈ mine → is_Some (fs_fds s !! fd)) → among mine s s.
Proof.
  intros Hd Hp Hpr Hf Hm. split; [done|]. split; [done|]. split; try done.
  intros fd [h Hh]%Hm. eauto.
Qed.

Lemma among_reliable : reliable among others_op.
Proof.
  split.
  - intros mine b s T e r s' [Hd Hi] He Hu Hs. split; [done|]. eapply intact_step; [|done..].
    destruct e; try done. cbn in *. destruct He as (q' & Hc & Hv & Hf). exists q'. split; [done|].
    split; [done|]. destruct Hf; [by left|right; by apply Hd].
  - intros t mine b s [Hd Hi]. split; [done|]. by apply intact_clock.
  - intros mine b s fd [_ [Hp Hk]] Hfd. destruct (kp_mine _ _ _ _ Hk _ Hfd) as (h & Hh & _).
    by eapply wf_fd_nums, Hh; apply Hp.
  - intros mine b s s' [Hd [Hp Hk]] [_ [Hp' Hk']]. split; [done|]. split; [done|]. split.
    + intros d Hb. apply Hk', Hk, Hb.
    + intros q' Hq. rewrite (kp_entries _ _ _ _ Hk'), (kp_entries _ _ _ _ Hk) by done. done.
    + intros q' i Hq Hi. rewrite (kp_content _ _ _ _ Hk' q') by done. apply (kp_content _ _ _ _ Hk q'); [done|].
      by rewrite <- (kp_entries _ _ _ _ Hk').
    + apply Hk'.
    + apply Hk'.
    + intros fd Hfd. destruct (kp_mine _ _ _ _ Hk' _ Hfd) as (h & Hh & Hs).
      destruct (kp_mine _ _ _ _ Hk _ Hfd) as (h' & Hh' & Hb). exists h. split; [done|]. congruence.
  - intros mine b s [Hd [Hp Hk]]. apply among_start; [by eapply begun_kept|done|apply Hk|apply Hk|].
    intros fd Hfd. destruct (kp_mine _ _ _ _ Hk _ Hfd) as (h & Hh & _). eauto.
Qed.

(** What the others leave alone. *)
Lemma among_entry mine b s q' : among mine b s → claimed q' → fs_tree s !! q' = fs_tree b !! q'.
Proof. intros [_ [_ Hk]]. apply Hk. Qed.

Lemma among_content mine b s q' i :
  among mine b s → claimed q' → fs_tree b !! q' = Some (EFile i) → content s i = content b i.
Proof.
  intros Ha Hq Hb. pose proof (among_entry _ _ _ _ Ha Hq) as He. destruct Ha as [_ [_ Hk]].
  apply (kp_content _ _ _ _ Hk q'); [done|congruence].
Qed.

(** *** The stages of an upload *)

(** Nothing is published. *)
Definition unpublished (mine : gset nat) (b : Fs) : Prop :=
  among mine b b ∧ fs_tree b !! final = None.

(** The staging file is inode [i], which holds [acc]. *)
Definition staged_in (mine : gset nat) (i : nat) (acc : bytes) (b : Fs) : Prop :=
  unpublished mine b ∧ fs_tree b !! staging = Some (EFile i) ∧ content b i = acc.

(** It is open for writing at its end. *)
Definition writing (fd i : nat) (acc : bytes) (b : Fs) : Prop :=
  staged_in {[fd]} i acc b ∧ ∃ h, fs_fds b !! fd = Some h ∧ at_end h i b.

(** The final name is published with the content [acc]; the staging name may still
    be there. *)
Definition stored (mine : gset nat) (acc : bytes) (b : Fs) : Prop :=
  among mine b b ∧ ∃ i, fs_tree b !! final = Some (EFile i) ∧ content b i = acc ∧
    (fs_tree b !! staging = None ∨ fs_tree b !! staging = Some (EFile i)).

Lemma unpublished_later mine b s : unpublished mine b → among mine b s → unpublished mine s.
Proof.
  intros [Hb Hf] Ha. split; [by eapply (rl_again _ _ among_reliable)|].
  rewrite (among_entry _ _ _ _ Ha); [done|apply final_claimed].
Qed.

Lemma staged_later mine i acc b s : staged_in mine i acc b → among mine b s → staged_in mine i acc s.
Proof.
  intros (Hu & Hs & Hc) Ha. split; [by eapply unpublished_later|].
  rewrite (among_entry _ _ _ _ Ha), (among_content _ _ _ staging i Ha) by (done || apply staging_claimed).
  done.
Qed.

Lemma writing_later fd i acc b s : writing fd i acc b → among {[fd]} b s → writing fd i acc s.
Proof.
  intros [Hs (h & Hh & He)] Ha. split; [by eapply staged_later|]. exists h.
  destruct Hs as (_ & Hst & _).
  pose proof (among_content _ _ _ staging i Ha staging_claimed Hst) as Hc. destruct Ha as [_ [_ Hk]].
  destruct (kp_mine _ _ _ _ Hk fd) as (h' & Hh' & Hb); [set_solver|].
  split; [congruence|]. unfold at_end in *. by rewrite Hc.
Qed.

Lemma stored_later mine acc b s : stored mine acc b → among mine b s → stored mine acc s.
Proof.
  intros [Hb (i & Hf & Hc & Hs)] Ha. split; [by eapply (rl_again _ _ among_reliable)|]. exists i.
  rewrite !(among_entry _ _ _ _ Ha), (among_content _ _ _ final i Ha)
    by (done || apply final_claimed || apply staging_claimed).
  done.
Qed.

(** *** The upload's own operations *)

(** Giving up descriptors that nothing of the region is open through. *)
Lemma among_tree mine mine' s s' :
  among mine s s → plain_fs s' → fs_tree s' = fs_tree s →
  (∀ fd h, fd ∉ mine' → fs_fds s' !! fd = Some h → (fd ∉ mine) ∧ fs_fds s !! fd = Some h) →
  (∀ fd, fd ∈ mine' → is_Some (fs_fds s' !! fd)) → among mine' s' s'.
Proof.
  intros [Hd [_ Hk]] Hp Ht Hf Hm. apply among_start; [by eapply begun_tree|done| | |done].
  - intros q' i Hq. rewrite Ht. intros Hi. eapply outside_tree; [exact Ht|]. by eapply kp_private.
  - intros fd h i Hfd Hh Hw. destruct (Hf fd h Hfd Hh) as [Hfd' Hh'].
    eapply outside_tree; [exact Ht|]. by eapply (kp_fds _ _ _ _ Hk fd).
Qed.

Lemma own_write fd c s r s' i acc :
  own_step may_fail (Write fd c) s r s' → writing fd i acc s →
  ∃ c', writing fd i (acc ++ c') s' ∧ (r = Ok tt ∧ c' = c ∨ may_fail ∧ ∃ x, r = Err x).
Proof.
  intros Hs [(Hu & Hst & Hc) (h & Hh & He)].
  assert (∀ c', writing fd i (acc ++ c') (exec (Write fd c') s).2 ∧ (exec (Write fd c') s).1 = Ok tt) as Hw.
  { intros c'. destruct (write_end fd i c' s h Hh He) as (s1 & Hx & Hw). rewrite Hx. split; [|done].
    cbn [snd]. destruct Hu as [Ha Hf]. split; [split; [split|]|by apply Hw].
    - eapply among_tree; [exact Ha|apply Hw, (among_plain _ _ _ Ha)|apply Hw| |].
      + intros fd' h' Hfd. rewrite (wr_fds _ _ _ _ _ Hw) by set_solver. done.
      + intros fd' ->%elem_of_singleton. destruct (wr_fd _ _ _ _ _ Hw) as (h' & Hh' & _). eauto.
    - by rewrite (wr_tree _ _ _ _ _ Hw).
    - rewrite (wr_tree _ _ _ _ _ Hw), (wr_content _ _ _ _ _ Hw), Hc. done. }
  inversion Hs; subst; clear Hs.
  - exists c. destruct (Hw c) as [? ->]. split; [done|]. by left.
  - exists (take (fl_stored f) c). split; [|right; split; [done|by eexists]].
    destruct (Hw (take (fl_stored f) c)) as [H1 H2]. cbn [exec fault_exec snd] in *.
    by destruct (write_handle fd (take (fl_stored f) c) s).
Qed.

Lemma own_close fd s r s' :
  ev_step (Close fd) s r s' → unpublished {[fd]} s →
  unpublished ∅ s' ∧ fs_tree s' = fs_tree s ∧ ∀ i, content s' i = content s i.
Proof.
  intros Hs [Ha Hf]. assert (s' = set_fds (delete fd) s) as -> by (by inversion Hs).
  split; [split; [|done]|done]. eapply among_tree; [exact Ha| |done| |set_solver].
  - split; [apply wf_close, (among_plain _ _ _ Ha)|apply (among_plain _ _ _ Ha)].
  - intros fd' h _ Hh. cbn in Hh. apply lookup_delete_Some in Hh as [Hne Hh]. split; [set_solver|done].
Qed.

Lemma own_flush fd s r s' :
  own_step may_fail (Flush fd) s r s' → s' = s ∧ (r = Ok tt ∨ may_fail ∧ ∃ x, r = Err x).
Proof. intros Hs. inversion Hs; subst; (split; [done|]); [by left|right; eauto]. Qed.

(** What canonical paths of the region lead to. *)
Lemma claimed_lookup s follow x :
  plain_fs s → valid_name x →
  match lookup_path s follow (render (q ++ [x])) with
  | WFound q' e => q' = q ++ [x] ∧ fs_tree s !! (q ++ [x]) = Some e
  | WMissing d m => d ++ [m] = q ++ [x] ∧ is_dir (fs_tree s) d ∧ valid_name m ∧
      fs_tree s !! (q ++ [x]) = None
  | WErr _ => True
  end.
Proof.
  intros Hp Hx. assert (Forall valid_name (q ++ [x])) as Hv by (apply Forall_app; auto).
  pose proof (lookup_lexical s follow _ _ Hp (components_render _ Hv) Hv) as Hl.
  pose proof (lookup_path_wf s follow (render (q ++ [x])) (pf_wf _ Hp)) as Hw.
  destruct (lookup_path s follow (render (q ++ [x]))) as [q' e|d m|]; [|by rewrite Hl in Hw|done].
  subst q'. split; [done|]. destruct e; try done. destruct Hw as [Hw|?]; [by destruct q|done].
Qed.

Lemma staging_valid : valid_name (n +:+ STAGING_SUFFIX).
Proof. by apply staging_name_valid. Qed.

(** A name of the upload's disappears. *)
Lemma among_remove mine s x :
  among mine s s → claimed x → is_Some (fs_tree s !! x) → fs_tree s !! x ≠ Some EDir →
  among mine (remove_entry x s) (remove_entry x s).
Proof.
  intros [Hd [Hp Hk]] Hx [e He] Hne. rewrite He in Hne.
  assert (∀ j, outside claimed s j → outside claimed (remove_entry x s) j) as Ho.
  { intros j Hj q' Hq. cbn. intros [_ ?]%lookup_delete_Some. by eapply Hj. }
  apply among_start.
  - apply begun_remove; [done|]. exists e. split; [done|congruence].
  - split; [by eapply wf_remove_file; [apply Hp|done|congruence]|]. cbn.
    intros q' t [_ ?]%lookup_delete_Some. by eapply (pf_links _ Hp).
  - intros q' j Hq. cbn. intros [_ ?]%lookup_delete_Some. by eapply Ho, kp_private.
  - intros fd h j Hfd Hh Hw. by eapply Ho, (kp_fds _ _ _ _ Hk fd).
  - intros fd Hfd. destruct (kp_mine _ _ _ _ Hk _ Hfd) as (h & Hh & _). by exists h.
Qed.

Lemma own_remove mine s r s' :
  ev_step (RemoveFile (render staging)) s r s' → among mine s s →
  s' = s ∨ (s' = remove_entry staging s ∧ among mine s' s').
Proof.
  intros Hs Ha. inversion Hs; subst; clear Hs; [|by left]. cbn [exec].
  pose proof (claimed_lookup s false _ (among_plain _ _ _ Ha) staging_valid) as Hl.
  destruct (lookup_path s false (render staging)) as [q' e| |]; [|by left..]. destruct Hl as [-> Hl].
  destruct e; [right|by left|right]; (split; [done|]);
    (apply among_remove; [done|apply staging_claimed|by rewrite Hl|congruence]).
Qed.

Lemma unpublished_remove mine s r s' :
  ev_step (RemoveFile (render staging)) s r s' → unpublished mine s → unpublished mine s'.
Proof.
  intros Hs [Ha Hf]. destruct (own_remove _ _ _ _ Hs Ha) as [->|[-> Ha']]; [done|].
  split; [done|]. cbn. by apply lookup_delete_None; right.
Qed.

Lemma stored_remove s r s' acc :
  ev_step (RemoveFile (render staging)) s r s' → stored ∅ acc s → stored ∅ acc s'.
Proof.
  intros Hs [Ha (i & Hf & Hc & Hst)]. destruct (own_remove _ _ _ _ Hs Ha) as [->|[-> Ha']].
  - split; [done|]. eauto.
  - split; [done|]. exists i. split; [|split; [done|left; cbn; by rewrite lookup_delete_eq]].
    cbn. rewrite lookup_delete_ne; [done|]. apply not_eq_sym, final_ne_staging.
Qed.

(** The staging name is gone at the end, unless its removal may fail. *)
Definition finished (acc : bytes) (b : Fs) : Prop :=
  stored ∅ acc b ∧ (may_fail ∨ fs_tree b !! staging = None).

Lemma finished_later acc b s : finished acc b → among ∅ b s → finished acc s.
Proof.
  intros [Hb Hs] Ha. split; [by eapply stored_later|].
  rewrite (among_entry _ _ _ _ Ha); [done|apply staging_claimed].
Qed.

Lemma own_unlink s r s' acc :
  own_step may_fail (RemoveFile (render staging)) s r s' → stored ∅ acc s → finished acc s'.
Proof.
  intros Hs Hst. split; [by eapply stored_remove, Hst; eapply own_ev|].
  destruct Hst as [Ha (i & Hf & _ & Hst)]. pose proof (among_plain _ _ _ Ha) as Hp.
  inversion Hs; subst; clear Hs; [right|by left].
  assert (is_dir (fs_tree s) q) as Hd by (by eapply is_dir_above). cbn [exec].
  rewrite (lookup_at s Hp q _ false) by auto using staging_valid.
  destruct Hst as [Hst|Hst]; rewrite Hst; cbn; [done|by rewrite lookup_delete_eq].
Qed.

Lemma own_link s r s' i acc :
  own_step may_fail (HardLink (render staging) (render final)) s r s' → staged_in ∅ i acc s →
  (s' = s ∧ may_fail ∧ ∃ x, r = Err x) ∨ (stored ∅ acc s' ∧ r = Ok tt).
Proof.
  intros Hs ([Ha Hf] & Hst & Hc). pose proof (among_plain _ _ _ Ha) as Hp.
  inversion Hs; subst; clear Hs; [|by left; eauto].
  pose proof (exec_plain (HardLink (render staging) (render final)) s Hp I) as Hp'. cbn [exec] in *.
  assert (is_dir (fs_tree s) q) as Hd by (by eapply is_dir_above).
  rewrite !(lookup_at s Hp q _ false), Hst, Hf in * by auto using staging_valid.
  right. split; [|done]. cbn [snd] in *.
  assert (fs_tree (insert_entry q n (EFile i) s) = <[final := EFile i]> (fs_tree s)) as Ht by done.
  destruct Ha as [Hdirs [_ Hk]].
  assert (∀ j, j ≠ i → outside claimed s j → outside claimed (insert_entry q n (EFile i) s) j) as Ho.
  { intros j Hj Hout q' Hq'. rewrite Ht. intros [[_ ?]|[_ ?]]%lookup_insert_Some; [congruence|by eapply Hout]. }
  assert (∀ j, outside claimed s j → j ≠ i) as Hi.
  { intros j Hj ->. by eapply (Hj staging); [apply staging_claimed|]. }
  split; [apply among_start; [eapply begun_insert with (x := n); by eauto|done| | |set_solver]|].
  - intros q' j Hq'. rewrite Ht. intros [[<- _]|[_ Hj]]%lookup_insert_Some; [by destruct Hq'; apply final_claimed|].
    pose proof (kp_private _ _ _ _ Hk _ _ Hq' Hj) as Hout. auto.
  - intros fd h j Hfd Hh Hw. pose proof (kp_fds _ _ _ _ Hk _ _ _ Hfd Hh Hw) as Hout. auto.
  - exists i. rewrite Ht, lookup_insert_eq, lookup_insert_ne by (apply final_ne_staging). auto.
Qed.

(** Opening the staging file, to append to it or to begin it anew. *)
Lemma own_open_file (h : nat → Handle) (old : bytes) s s1 j r s' :
  (∀ i k, writes_to (h i) k → k = i) →
  unpublished ∅ s → among ∅ s1 s1 → fs_tree s1 !! final = None →
  fs_tree s1 !! staging = Some (EFile j) → content s1 j = old → at_end (h j) j s1 →
  open_handle (h j) s1 = (r, s') →
  ∃ fd, r = Ok fd ∧ writing fd j old s'.
Proof.
  intros Hw [Ha Hf] Ha1 Hf1 Hst Hc He [= <- <-]. pose proof (among_plain _ _ _ Ha1) as Hp1.
  exists (fs_next_fd s1). split; [done|]. split; [split; [split|done]|].
  - eapply among_tree; [exact Ha1| |done| |].
    + split; [|apply Hp1]. eapply wf_open_handle; [apply Hp1| |done].
      intros i Hi. destruct He as [He|He]; rewrite He in Hi; cbn in Hi; simplify_eq; by eapply wf_names; [apply Hp1|].
    + intros fd' h' Hfd Hh. cbn in Hh. rewrite lookup_insert_ne in Hh by set_solver. done.
    + intros fd' ->%elem_of_singleton. cbn. by rewrite lookup_insert_eq.
  - done.
  - exists (h j). split; [cbn; by rewrite lookup_insert_eq|done].
Qed.

(** What is staged already. *)
Definition stock (old : bytes) (s : Fs) : Prop :=
  match fs_tree s !! staging with
  | None => old = []
  | Some (EFile i) => content s i = old
  | Some _ => True
  end.

Lemma stock_later mine old b s : stock old b → among mine b s → stock old s.
Proof.
  unfold stock. intros Hs Ha. rewrite (among_entry _ _ _ _ Ha) by apply staging_claimed.
  destruct (fs_tree b !! staging) as [[i| |]|] eqn:E; try done.
  by rewrite (among_content _ _ _ staging i Ha) by (done || apply staging_claimed).
Qed.

(** A fresh staging file. *)
Lemma among_create s mode d m :
  unpublished ∅ s → d ++ [m] = staging → is_dir (fs_tree s) d → valid_name m →
  fs_tree s !! staging = None →
  let s1 := create_file mode d m s in
  among ∅ s1 s1 ∧ fs_tree s1 !! final = None ∧ fs_tree s1 !! staging = Some (EFile (fs_next_ino s)) ∧
  content s1 (fs_next_ino s) = [].
Proof.
  intros [[Hdirs [Hp Hk]] Hf] Hq Hd Hm Hnone s1.
  assert (fs_tree s1 = <[staging := EFile (fs_next_ino s)]> (fs_tree s)) as Ht by (cbn; by rewrite Hq).
  assert (∀ j, j < fs_next_ino s → outside claimed s j → outside claimed s1 j) as Ho.
  { intros j Hj Hout q' Hq'. rewrite Ht. intros [[_ [= ?]]|[_ ?]]%lookup_insert_Some; [lia|by eapply Hout]. }
  rewrite Ht, lookup_insert_eq, lookup_insert_ne by (apply not_eq_sym, final_ne_staging).
  split; [apply among_start|split; [done|split; [done|]]].
  - eapply begun_insert with (x := n +:+ STAGING_SUFFIX); by eauto.
  - apply create_plain; [done..|by rewrite Hq].
  - intros q' j Hq'. rewrite Ht. intros [[<- _]|[_ Hj]]%lookup_insert_Some; [by destruct Hq'; apply staging_claimed|].
    apply Ho; [by eapply wf_names; [apply Hp|]|by eapply kp_private].
  - intros fd h j Hfd Hh Hw. apply Ho; [|by eapply (kp_fds _ _ _ _ Hk fd)].
    eapply (wf_fd_inos _ (pf_wf _ Hp)); [exact Hh|]. by destruct h; cbn in *; subst.
  - set_solver.
  - unfold content, inode_of. cbn. by rewrite lookup_insert_eq.
Qed.

(** Where the staging file can be opened. *)
Definition receptive (s : Fs) : Prop := ready → fs_tree s !! staging ≠ Some EDir.

Lemma receptive_later mine b s : receptive b → among mine b s → receptive s.
Proof. unfold receptive. intros Hs Ha. by rewrite (among_entry _ _ _ _ Ha) by apply staging_claimed. Qed.

Lemma ready_dir mine b s : ready → among mine b s → is_dir (fs_tree s) q.
Proof. intros Hr [Hd [_ Hk]]. by apply Hk, (proj1 Hd), Hready. Qed.

Lemma ready_lookup follow s :
  ready → among ∅ s s → receptive s →
  (∃ i, fs_tree s !! staging = Some (EFile i) ∧ lookup_path s follow (render staging) = WFound staging (EFile i)) ∨
  lookup_path s follow (render staging) = WMissing q (n +:+ STAGING_SUFFIX).
Proof.
  intros Hr Ha Hn. pose proof (among_plain _ _ _ Ha) as Hp.
  rewrite (lookup_at s Hp) by (by eapply ready_dir || apply staging_valid).
  specialize (Hn Hr). destruct (_ !! _) as [[i| |t]|] eqn:E; [left; eauto|done| |by right].
  by destruct (pf_links _ Hp _ _ E).
Qed.

Lemma own_append s r s' old :
  own_step may_fail (OpenAppend (render staging)) s r s' → unpublished ∅ s → stock old s → receptive s →
  (s' = s ∧ excused ∧ ∃ x, r = Err x) ∨ ∃ fd i, r = Ok fd ∧ writing fd i old s'.
Proof.
  intros Hs Hu Hk Hn. pose proof Hu as [Ha Hf]. inversion Hs; subst; clear Hs; [|by left; eauto].
  pose proof (ready_lookup true s) as Hl0. cbn [exec]. pose proof (claimed_lookup s true _ (among_plain _ _ _ Ha) staging_valid) as Hl.
  unfold stock in Hk.
  destruct (lookup_path s true (render staging)) as [q' e|d m|]; [| |left; naive_solver].
  - destruct Hl as [-> Hl]. rewrite Hl in Hk. destruct e as [i| |]; [right|left; naive_solver..].
    destruct (own_open_file HAppend old s s i (Ok (fs_next_fd s)) (open_handle (HAppend i) s).2)
      as (fd & Hr & Hw); try done; [by left|]. by exists fd, i.
  - destruct Hl as (Hq & Hd & Hm & Hnone). rewrite Hnone in Hk. subst old. right.
    destruct (among_create s FILE_MODE d m Hu Hq Hd Hm Hnone) as (Ha1 & Hf1 & Hst & Hc).
    destruct (own_open_file HAppend [] s (create_file FILE_MODE d m s) (fs_next_ino s) (Ok (fs_next_fd s))
      (open_handle (HAppend (fs_next_ino s)) (create_file FILE_MODE d m s)).2) as (fd & Hr & Hw); try done; [by left|].
    by exists fd, (fs_next_ino s).
Qed.

Lemma own_truncate s r s' :
  own_step may_fail (OpenTruncate FILE_MODE (render staging)) s r s' → unpublished ∅ s → receptive s →
  (s' = s ∧ excused ∧ ∃ x, r = Err x) ∨ ∃ fd i, r = Ok fd ∧ writing fd i [] s'.
Proof.
  intros Hs Hu Hn. pose proof Hu as [Ha Hf]. inversion Hs; subst; clear Hs; [|by left; eauto].
  pose proof (among_plain _ _ _ Ha) as Hp. pose proof (ready_lookup true s) as Hl0.
  cbn [exec]. pose proof (claimed_lookup s true _ Hp staging_valid) as Hl.
  destruct (lookup_path s true (render staging)) as [q' e|d m|]; [| |left; naive_solver].
  - destruct Hl as [-> Hl]. destruct e as [i| |]; [right|left; naive_solver..].
    assert (content (set_content i [] s) i = []) as Hc
      by (unfold content, inode_of; cbn; by rewrite lookup_insert_eq).
    assert (among ∅ (set_content i [] s) (set_content i [] s)) as Ha1.
    { eapply among_tree; [exact Ha| |done|set_solver..].
      split; [apply wf_set_content|]; apply Hp. }
    destruct (own_open_file (λ i, HWrite i 0) [] s (set_content i [] s) i (Ok (fs_next_fd s))
      (open_handle (HWrite i 0) (set_content i [] s)).2) as (fd & Hr & Hw); try done; [by right; rewrite Hc|].
    by exists fd, i.
  - destruct Hl as (Hq & Hd & Hm & Hnone). right.
    destruct (among_create s FILE_MODE d m Hu Hq Hd Hm Hnone) as (Ha1 & Hf1 & Hst & Hc).
    destruct (own_open_file (λ i, HWrite i 0) [] s (create_file FILE_MODE d m s) (fs_next_ino s) (Ok (fs_next_fd s))
      (open_handle (HWrite (fs_next_ino s) 0) (create_file FILE_MODE d m s)).2) as (fd & Hr & Hw); try done;
      [by right; rewrite Hc|].
    by exists fd, (fs_next_ino s).
Qed.

(** *** The stages in order *)

Abbreviation counts := (wp among may_fail).

(** The outcome: published with the content [acc], or not at all and excused. *)
Definition outcome {E} (acc : bytes) (m : Z) (r : result Z E) (mine : gset nat) (s : Fs) : Prop :=
  match r with
  | Ok m' => m' = m ∧ mine = ∅ ∧ finished acc s
  | Err _ => fs_tree s !! final = None ∧ excused
  end.

Lemma counts_emits {A B} fd i (p : prog A) (f : A → prog B) acc Q' E' Q b :
  writing fd i acc b → emits fd p acc Q' E' →
  (∀ a acc' b', writing fd i acc' b' → Q' a acc' ∨ may_fail ∧ E' a → counts {[fd]} (f a) Q b') →
  counts {[fd]} (bind p f) Q b.
Proof.
  intros Hw Hp Hf. revert acc b Hw Hp. induction p as [a|T e k IH]; intros acc b Hw Hp; cbn [bind]; [eauto|].
  intros s r s' Ha Hs. pose proof (writing_later _ _ _ _ _ Hw Ha) as Hws. exists {[fd]}.
  split; [by left|]. cbn in Hp. destruct e as [| | | | | | | | | | |fd' c|fd'| | | | | | |]; try done;
    destruct Hp as (-> & Hgo & Hx).
  - destruct (own_write _ _ _ _ _ _ _ Hs Hws) as (c' & Hw' & Hr). split; [apply Hw'|].
    destruct Hr as [[-> ->]|[Hm [x ->]]]; [by eapply IH|]. destruct (Hx x) as (a & -> & He). eauto 6.
  - apply own_flush in Hs as [-> Hr]. split; [apply Hws|].
    destruct Hr as [->|[Hm [x ->]]]; [by eapply IH|]. destruct (Hx x) as (a & -> & He). eauto 6.
Qed.

Lemma counts_close {A} fd (k : io unit → prog A) Q b :
  unpublished {[fd]} b →
  (∀ r b', unpublished ∅ b' → (∀ i acc, staged_in {[fd]} i acc b → staged_in ∅ i acc b') →
     counts ∅ (k r) Q b') →
  counts {[fd]} (Vis (Close fd) k) Q b.
Proof.
  intros Hu Hk s r s' Ha Hs%own_ev.
  destruct (own_close _ _ _ _ Hs (unpublished_later _ _ _ Hu Ha)) as (Hu' & Ht & Hc). exists ∅.
  split; [set_solver|]. split; [apply Hu'|]. apply Hk; [done|]. intros i acc Hst.
  apply (staged_later _ _ _ _ _ Hst) in Ha as (_ & He & Hco). split; [done|]. by rewrite Ht, Hc.
Qed.

(** Whatever fails is answered, and nothing is published. *)
Lemma counts_failed {A} mine (a : A) (Q : A → gset nat → Fs → Prop) b :
  unpublished mine b → (∀ s, fs_tree s !! final = None → Q a mine s) → counts mine (Ret a) Q b.
Proof. intros Hu HQ s Ha. apply HQ. by apply (unpublished_later _ _ _ Hu Ha). Qed.

(** The staging name is dropped while nothing is published. *)
Lemma counts_discard {A} mine (k : io unit → prog A) Q b :
  unpublished mine b → (∀ r b', unpublished mine b' → counts mine (k r) Q b') →
  counts mine (Vis (RemoveFile (render staging)) k) Q b.
Proof.
  intros Hu Hk s r s' Ha Hs%own_ev. pose proof (unpublished_remove _ _ _ _ Hs (unpublished_later _ _ _ Hu Ha)) as Hu'.
  exists mine. split; [by left|]. split; [apply Hu'|]. by apply Hk.
Qed.

Lemma finalize_counts i acc m b :
  staged_in ∅ i acc b → counts ∅ (finalize (render staging) (render final) m) (outcome acc m) b.
Proof.
  intros Hst s r s' Ha Hs. pose proof (staged_later _ _ _ _ _ Hst Ha) as Hst'. exists ∅.
  split; [by left|]. destruct (own_link _ _ _ _ _ Hs Hst') as [(-> & Hm & x & ->)|[Hok ->]].
  - split; [apply Hst'|]. destruct Hst' as [Hu _].
    destruct x; apply counts_discard; try done; intros r b' Hu'; by eapply counts_failed.
  - split; [apply Hok|]. intros s2 r2 s2' Ha2 Hs2. exists ∅. split; [by left|].
    pose proof (own_unlink _ _ _ _ Hs2 (stored_later _ _ _ _ Hok Ha2)) as Hok2. split; [apply Hok2|].
    intros s3 Ha3. split; [done|]. split; [done|]. by eapply finished_later.
Qed.

(** The way to the upload's directory is clear of its names. *)
Lemma way_clear q' : q' `prefix_of` q → ¬ claimed q'.
Proof. intros Hq (x & _ & ->). by apply prefix_snoc_not in Hq. Qed.

Lemma parent_confined : all_ops others_op (make_parent (render staging)).
Proof.
  unfold make_parent. rewrite parent_render by (apply Forall_app; auto using staging_valid).
  eapply create_dirs_free; [by apply components_render|done|]. intros q' Hq. left. by apply way_clear.
Qed.

Lemma parent_counts {A} (f : result unit StoreError → prog A) Q b :
  unpublished ∅ b → (∀ r, (ready → may_fail ∨ r = Ok tt) → counts ∅ (f r) Q b) →
  counts ∅ (bind (let! r := make_parent (render staging) in Ret (io_store r)) f) Q b.
Proof.
  intros Hu Hf. apply (wp_others_if _ _ _ among_reliable ready _ _ _ _ (λ _, True) (λ r, r = Ok tt)); [| | |auto].
  - by apply all_ops_bind; [apply make_parent_no_fd|].
  - apply ensures_ops. by apply all_ops_bind; [apply parent_confined|].
  - intros Hr. apply (settles_bind _ _ _ (λ r, r = Ok tt)); [|by intros r ->].
    unfold make_parent. rewrite parent_render by (apply Forall_app; auto using staging_valid).
    apply dir_settles; [done|]. intros s Ha follow. apply lookup_dir_at; [by eapply among_plain|by eapply ready_dir].
Qed.

(** Everything that was to be received was. *)
Abbreviation complete input := (ready → in_end input = None).

(** The outcome of an upload without encryption. *)
Definition continued {E} (old : bytes) (input : Input) (r : result Z E) (mine : gset nat) (s : Fs) : Prop :=
  (∀ m, r = Ok m → in_end input = None) ∧
  outcome (old ++ in_data input) (Z.of_nat (length (in_data input))) r mine s.

(** From the received stream to the answer. *)
Lemma received_counts i acc old input fd r b :
  writing fd i acc b →
  match r with
  | Ok m => in_end input = None ∧ m = Z.of_nat (length (in_data input)) ∧ acc = old ++ in_data input
  | Err _ => excused
  end →
  counts {[fd]}
    (match r with
     | Err e => let! _ := ask (RemoveFile (render staging)) in let! _ := ask (Close fd) in Ret (Err (SIo e))
     | Ok m =>
         let! r := ask (Flush fd) in
         match r with
         | Err e => let! _ := ask (Close fd) in Ret (Err (SIo e))
         | Ok _ => let! _ := ask (Close fd) in finalize (render staging) (render final) m
         end
     end)
    (continued old input) b.
Proof.
  intros Hw Hr. pose proof Hw as [[Hu _] _]. destruct r as [m|e]; cbn [bind ask].
  - destruct Hr as (Hend & -> & ->). intros s r s' Ha Hs. apply own_flush in Hs as [-> Hr].
    pose proof (writing_later _ _ _ _ _ Hw Ha) as [Hst _]. exists {[fd]}. split; [by left|].
    split; [apply Hst|]. destruct Hr as [->|[Hm [x ->]]]; (apply counts_close; [apply Hst|]); intros r b' Hu' Hb.
    + eapply wp_mono; [|by eapply finalize_counts, Hb]. intros r' mine s'. by split.
    + eapply counts_failed; [done|]. done.
  - apply counts_discard; [done|]. intros r1 b1 Hu1. apply counts_close; [done|].
    intros r2 b2 Hu2 _. eapply counts_failed; [done|]. done.
Qed.

Lemma append_to_counts old input b :
  unpublished ∅ b → stock old b → receptive b → complete input →
  counts ∅ (append_to (render staging) (render final) input) (continued old input) b.
Proof.
  intros Hu Hk Hn Hc. unfold append_to. apply parent_counts; [done|]. intros [u|x] Hp.
  2: { eapply counts_failed; [done|]. split; [done|]. split; [done|]. intros Hr. by destruct (Hp Hr). }
  cbn [bind ask io_store map_err]. intros s r s' Ha Hs.
  destruct (own_append _ _ _ _ Hs (unpublished_later _ _ _ Hu Ha) (stock_later _ _ _ _ Hk Ha)
      (receptive_later _ _ _ Hn Ha)) as [(-> & Hx & x & ->)|(fd & i & -> & Hw)].
  { exists ∅. split; [by left|]. pose proof (unpublished_later _ _ _ Hu Ha) as Hu'. split; [apply Hu'|].
    eapply counts_failed; [done|]. done. }
  exists {[fd]}. split; [intros fd' ->%elem_of_singleton; by right|]. split; [apply Hw|].
  cbn [bind map_err]. eapply counts_emits; [exact Hw|apply copy_emits|].
  intros r acc b' Hw' Hr. eapply received_counts; [exact Hw'|].
  destruct Hr as [Hr|[Hm [x ->]]]; [|done]. destruct r as [m|x]; [done|].
  intros Hrd. by rewrite (Hc Hrd) in Hr.
Qed.

(** While nothing is published, the final name does not exist. *)
Lemma absent s r s' b :
  unpublished ∅ b → among ∅ b s → ev_step (TryExists (render final)) s r s' → r ≠ Ok true.
Proof.
  intros Hu Ha Hs. pose proof (unpublished_later _ _ _ Hu Ha) as [Ha' Hf].
  pose proof (claimed_lookup s true n (among_plain _ _ _ Ha') Hvn) as Hl.
  inversion Hs; subst; clear Hs; [|done]. cbn [exec].
  destruct (lookup_path s true (render final)) as [q' e| |[]]; try done. destruct Hl as [_ Hl]. congruence.
Qed.

Lemma absent_lookup follow x b s :
  ready → claimed (q ++ [x]) → valid_name x → fs_tree b !! (q ++ [x]) = None → among ∅ b s →
  lookup_path s follow (render (q ++ [x])) = WMissing q x.
Proof.
  intros Hr Hx Hv Hf Ha. rewrite (lookup_at s (among_plain _ _ _ Ha)) by (by eapply ready_dir || done).
  by rewrite (among_entry _ _ _ _ Ha), Hf.
Qed.

(** The first check: the final name does not exist. *)
Lemma exists_counts {A} (f : result bool StoreError → prog A) Q b :
  unpublished ∅ b → (∀ r, r ≠ Ok true → (ready → may_fail ∨ r = Ok false) → counts ∅ (f r) Q b) →
  counts ∅ (bind (let! r := ask (TryExists (render final)) in Ret (io_store r)) f) Q b.
Proof.
  intros Hu Hf.
  apply (wp_others_if _ _ _ among_reliable ready _ _ _ _ (λ r, r ≠ Ok true) (λ r, r = Ok false)); [done|..|done].
  - cbn. split; [done|]. intros s r s' Ha Hs. pose proof (absent _ _ _ _ Hu Ha Hs) as Hr. by destruct r as [[]|].
  - cbn. intros Hr s Ha. by rewrite (absent_lookup true n b) by (done || apply final_claimed || apply Hu).
Qed.

(** The second: what is staged already. *)
Lemma size_counts {A} old (f : result Z StoreError → prog A) Q b :
  unpublished ∅ b → stock old b → receptive b →
  (∀ r, (ready → may_fail ∨ r = Ok (Z.of_nat (length old))) → counts ∅ (f r) Q b) →
  counts ∅ (bind (staging_size (render staging)) f) Q b.
Proof.
  intros Hu Hk Hn Hf.
  apply (wp_others_if _ _ _ among_reliable ready _ _ _ _ (λ _, True) (λ r, r = Ok (Z.of_nat (length old))));
    [done|by split|..|auto].
  cbn. intros Hr s Ha. pose proof (rl_again _ _ among_reliable _ _ _ Ha) as Has.
  pose proof (stock_later _ _ _ _ Hk Ha) as Hks. unfold stock in Hks.
  destruct (ready_lookup true s Hr Has (receptive_later _ _ _ Hn Ha)) as [(i & Hi & ->)|Hl].
  - rewrite Hi in Hks. cbn. by rewrite Hks.
  - rewrite Hl. pose proof (claimed_lookup s true _ (among_plain _ _ _ Ha) staging_valid) as Hm.
    rewrite Hl in Hm. destruct Hm as (_ & _ & _ & Hm). rewrite Hm in Hks. by subst.
Qed.

Lemma store_stream_counts old pos input b :
  unpublished ∅ b → stock old b → receptive b → complete input →
  (ready → pos = Z.of_nat (length old)) →
  counts ∅ (store_stream (render final) pos input) (continued old input) b.
Proof.
  intros Hu Hk Hn Hc Hpos.
  assert (∀ (e : StoreError) b', unpublished ∅ b' → excused → counts ∅ (Ret (Err e)) (continued old input) b') as Herr.
  { intros e b' Hu' Hx. by eapply counts_failed. }
  unfold store_stream. apply exists_counts; [done|]. intros [[]|x] Hx Hs; [done| |].
  2: { apply Herr; [done|]. intros Hr. by destruct (Hs Hr). }
  rewrite staging_render by done. apply (size_counts old); [done..|]. intros [z|x] Hz.
  2: { apply Herr; [done|]. intros Hr. by destruct (Hz Hr). }
  destruct (classify_offset pos z) eqn:Ho; [by apply append_to_counts|..].
  all: assert excused as Hexc by (intros Hr; destruct (Hz Hr) as [|[= ->]]; [done|];
    rewrite (Hpos Hr) in Ho; unfold classify_offset in Ho; by rewrite Z.compare_refl in Ho).
  all: cbn [bind ask]; apply counts_discard; [done|]; auto.
Qed.

Section encrypted.
Context `{AgeLib}.

(** The outcome of an encrypted upload. *)
Definition sealed_outcome {E} (seed : Seed) (recs : list Recipient) (input : Input) (r : result Z E)
    (mine : gset nat) (s : Fs) : Prop :=
  match r with
  | Ok m => in_end input = None ∧ m = Z.of_nat (length (in_data input)) ∧ mine = ∅ ∧
      ∃ enc, with_recipients seed recs = Ok enc ∧ finished (concat (ciphertext enc (in_chunks input))) s
  | Err _ => fs_tree s !! final = None ∧ excused
  end.

(** There is somebody to encrypt to. *)
Abbreviation encryptable seed recs := (ready → ∃ enc, with_recipients seed recs = Ok enc).

Lemma encrypt_task_counts {A} seed recs input (f : result Z CryptoError → prog A) Q b :
  unpublished ∅ b → receptive b → complete input → encryptable seed recs →
  (∀ x b', unpublished ∅ b' → excused → counts ∅ (f (Err x)) Q b') →
  (∀ enc i b', in_end input = None → with_recipients seed recs = Ok enc →
     staged_in ∅ i (concat (ciphertext enc (in_chunks input))) b' →
     counts ∅ (f (Ok (Z.of_nat (length (in_data input))))) Q b') →
  counts ∅ (bind (encrypt_task seed (render staging) recs input) f) Q b.
Proof.
  intros Hu Hn Hc Henc Hx Hf. unfold encrypt_task. cbn [bind ask]. intros s r s' Ha Hs.
  destruct (own_truncate _ _ _ Hs (unpublished_later _ _ _ Hu Ha) (receptive_later _ _ _ Hn Ha))
    as [(-> & He & x & ->)|(fd & i & -> & Hw)].
  { exists ∅. split; [by left|]. pose proof (unpublished_later _ _ _ Hu Ha) as Hu'. split; [apply Hu'|].
    by apply Hx. }
  exists {[fd]}. split; [intros fd' ->%elem_of_singleton; by right|]. split; [apply Hw|].
  apply wp_bind; [apply Hw|].
  eapply counts_emits; [exact Hw|apply (encrypt_stream_emits _ _ _ _ [])|].
  intros r acc b' Hw' Hr. pose proof Hw' as [[Hu' _] _]. cbn [bind ask]. apply counts_close; [done|].
  intros r1 b1 Hu1 Hb1. intros s2 Ha2. eapply wp_later; [apply among_reliable|exact Ha2|].
  destruct r as [m|x].
  - destruct Hr as [(Hend & -> & enc & He & ->)|[_ [x Hr]]]; [|done].
    eapply Hf; [done..|]. by apply Hb1, Hw'.
  - apply Hx; [done|]. intros Hrd. destruct Hr as [[Hr|[e Hr]]|[Hm _]]; [|exfalso|done].
    + by destruct (Hr (Hc Hrd)).
    + destruct (Henc Hrd) as [enc He]. congruence.
Qed.

Lemma store_encrypted_counts seed recs input b :
  unpublished ∅ b → receptive b → complete input → encryptable seed recs →
  counts ∅ (store_encrypted seed (render final) recs input) (sealed_outcome seed recs input) b.
Proof.
  intros Hu Hn Hc Henc. unfold store_encrypted.
  apply (wp_others _ _ _ among_reliable _ _ _ _ (λ r, r ≠ Ok true)); [done| |].
  { split; [done|]. intros s r s' Ha Hs. by eapply absent. }
  intros [[]|x] Hx; [done|..]; rewrite staging_render by done; (apply parent_counts; [done|]);
    (intros [u|e] Hp; [|eapply counts_failed; [done|]; split; [done|]; intros Hr; by destruct (Hp Hr)]);
    (apply encrypt_task_counts; [done..| |]).
  1,3: intros e b' Hu' He; by eapply counts_failed.
  all: intros enc i b' Hend He Hst; cbv beta iota;
    (eapply wp_mono; [|exact (finalize_counts _ _ _ _ Hst)]);
    intros [m|e] mine s; [|done]; intros (-> & -> & Hs); split; [done|]; split; [done|]; split; [done|]; by exists enc.
Qed.
End encrypted.

(** *** The whole request *)

Lemma unpublished_start : enclosed claimed s0 → spare s0 → fs_tree s0 !! final = None → unpublished ∅ s0.
Proof. intros He Hx Hf. split; [split; [by split|by apply enclosed_intact]|done]. Qed.

Section request.
Context `{AgeLib} (qb parts : list string) (Hqb : is_dir (fs_tree s0) qb) (Hq : q = qb ++ parts).

(** The jail lets the path of a name of the region pass. *)
Lemma resolve_settles user v x b :
  ready → user_role user = Uploader (render qb) → normalize v = Ok (parts ++ [x]) → valid_name x →
  claimed (q ++ [x]) → fs_tree b !! (q ++ [x]) = None →
  settles (among ∅ b) (resolve_for user v) (λ r, r = Ok (render (q ++ [x]))).
Proof.
  intros Hr Hu Hn Hv Hx Hnone. assert (Forall valid_name (q ++ [x])) as Hvx by (apply Forall_app; auto).
  pose proof (λ s, absent_lookup true x b s Hr Hx Hv Hnone) as Hl.
  assert (∀ s, among ∅ b s → lookup_path s true (render qb) = WFound qb EDir) as Hlb.
  { intros s [Hd [Hp Hk]]. apply lookup_dir_at; [done|]. by apply Hk, (proj1 Hd). }
  assert (∀ s, among ∅ b s → lookup_path s true (render q) = WFound q EDir) as Hlq.
  { intros s Ha. apply lookup_dir_at; [by eapply among_plain|by eapply ready_dir]. }
  assert (starts_with (render (q ++ [x])) (render qb) = true) as Hst.
  { apply starts_with_spec. rewrite !components_render by (done || by eapply plain_dir_valid).
    rewrite Hq, <- app_assoc, fmap_app. by eexists. }
  unfold resolve_for, user_view. rewrite Hu.
  apply (settles_bind _ _ _ (λ r, r = Ok (render (q ++ [x])))); [|by intros r ->].
  unfold resolve. rewrite Hn. cbn [single single_root].
  assert (foldl join (render qb) (parts ++ [x]) = render (q ++ [x])) as ->.
  { rewrite Hq, <- app_assoc, !render_fold. by rewrite <- (foldl_app _ qb). }
  unfold contained. cbn [bind ask]. intros s Hs. cbn [exec]. rewrite Hlb by done. cbn [fst].
  intros s1 Hs1. cbn [exec]. rewrite Hl by done. cbn [fst]. unfold contained_fuel. rewrite components_render by done.
  cbn [length]. rewrite length_fmap, length_app, Nat.add_comm. cbn [length Nat.add contained_loop bind ask].
  intros s2 Hs2. cbn [exec]. rewrite Hl by done. cbn [fst]. rewrite file_name_render, last_snoc, parent_render by done.
  rewrite decide_True by done. cbn [default]. intros s3 Hs3. cbn [exec].
  rewrite Hlq by done. cbn [fst]. by rewrite <- render_snoc, Hst.
Qed.

(** The path of a name of the region that does not exist is answered as it is. *)
Lemma resolve_counts {A} user v x (f : result string Storage.Error → prog A) Q b :
  user_role user = Uploader (render qb) → normalize v = Ok (parts ++ [x]) → valid_name x →
  claimed (q ++ [x]) → among ∅ b b → fs_tree b !! (q ++ [x]) = None →
  (∀ e, excused → counts ∅ (f (Err e)) Q b) → counts ∅ (f (Ok (render (q ++ [x])))) Q b →
  counts ∅ (bind (resolve_for user v) f) Q b.
Proof.
  intros Hu Hn Hv Hx Ha Hnone Herr Hok.
  eapply (wp_others_if _ _ _ among_reliable ready); [apply read_only_no_fd, resolve_for_read_only| | |].
  - eapply ensures_mono; [|apply (resolve_promises claimed s0 qb Hp0 Hqb (among ∅ b) (among_plain _ _) user v Hu)].
    intros r Hr. exact (λ p Hp, Hr p Hp).
  - intros Hr. by eapply resolve_settles.
  - intros [p|e] Hr Hs; [|apply Herr; intros Hrd; by destruct (Hs Hrd)].
    destruct (Hr p eq_refl) as (ps & Hn' & _ & Hl).
    rewrite Hn in Hn'. injection Hn' as <-. rewrite app_assoc, <- Hq in Hl.
    destruct Hl as [->|[_ (s & Hs' & Hseen)]]; [done|]. exfalso.
    destruct Hseen as [He|[e He]]; [by destruct q|].
    rewrite (among_entry _ _ _ _ Hs' Hx) in He. congruence.
Qed.

(** What the request ends with: [R] holds of the answer, or nothing is published. *)
Definition settled_as (R : Answer → Fs → Prop) (r : result Answer Storage.Error) (_ : gset nat) (s : Fs) : Prop :=
  match r with Ok a => R a s | Err _ => fs_tree s !! final = None ∧ excused end.

(** An answer that stays true while the others go on. *)
Lemma answer_counts (R : Answer → Fs → Prop) (r : result Z StoreError) mine s :
  match r with
  | Ok m => ∀ s', among mine s s' → R (AStored m) s'
  | Err _ => fs_tree s !! final = None ∧ excused
  end →
  counts mine (Ret (map_err store_error_to_storage r))
    (λ a m s, counts m (Ret (match a with Ok n => Ok (AStored n) | Err e => Err e end)) (settled_as R) s) s.
Proof.
  intros Hr s1 Hs1 s2 Hs2. pose proof (rl_trans _ _ among_reliable _ _ _ _ Hs1 Hs2) as Hs.
  destruct r as [m|e]; cbn; [by apply Hr|]. destruct Hr as [Hr Hx]. split; [|done].
  by rewrite (among_entry _ _ _ _ Hs) by apply final_claimed.
Qed.

Lemma error_counts (R : Answer → Fs → Prop) (e : Storage.Error) mine s :
  fs_tree s !! final = None → excused →
  counts mine (Ret (Err e))
    (λ (a : result Z Storage.Error) m s, counts m (Ret (match a with Ok n => Ok (AStored n) | Err e => Err e end))
       (settled_as R) s) s.
Proof.
  intros Hr Hx s1 Hs1 s2 Hs2. pose proof (rl_trans _ _ among_reliable _ _ _ _ Hs1 Hs2) as Hs. split; [|done].
  by rewrite (among_entry _ _ _ _ Hs) by apply final_claimed.
Qed.

(** The camera's request, up to its answer: without encryption, *)
Definition as_sent (old : bytes) (input : Input) (a : Answer) (s : Fs) : Prop :=
  a = AStored (Z.of_nat (length (in_data input))) ∧ in_end input = None ∧ finished (old ++ in_data input) s.

Lemma put_plain_counts bk seed cam v f old pos input :
  user_role cam = Uploader (render qb) → file_name v = Some f →
  is_reolink_test_file (to_string_lossy f) = false → normalize v = Ok (parts ++ [n]) →
  backend_recipients bk = None → unpublished ∅ s0 → stock old s0 → receptive s0 → complete input →
  (ready → pos = Z.of_nat (length old)) →
  counts ∅ (serve bk cam (RPut seed input v pos)) (settled_as (as_sent old input)) s0.
Proof.
  intros Hu Hf Ht Hn Hb Hun Hk Hrc Hc Hpos. cbn [serve]. unfold answered, put.
  rewrite Hu, Hf, Ht, Hb. cbn [capability_allowed negb]. apply wp_bind; [apply Hun|].
  eapply resolve_counts; [done|exact Hn|done|apply final_claimed|apply Hun..| |].
  { intros e. apply error_counts, Hun. }
  cbv beta iota. apply wp_bind; [apply Hun|]. eapply wp_mono; [|by apply store_stream_counts].
  intros r mine s [Hend Hr]. apply answer_counts. destruct r as [m|e]; [|done].
  destruct Hr as (-> & -> & Hs). intros s' Hs'. split; [done|]. split; [by eapply Hend|]. by eapply finished_later.
Qed.

(** and with it. *)
Definition sealed_as (seed : Seed) (recs : list Recipient) (input : Input) (a : Answer) (s : Fs) : Prop :=
  a = AStored (Z.of_nat (length (in_data input))) ∧ in_end input = None ∧
  ∃ enc, with_recipients seed recs = Ok enc ∧ finished (concat (ciphertext enc (in_chunks input))) s.

Lemma put_encrypted_counts bk seed cam v f recs input n0 :
  n = n0 +:+ ".age" → valid_name n0 → n0 ∈ extra → fs_tree s0 !! (q ++ [n0]) = None →
  user_role cam = Uploader (render qb) → file_name v = Some f →
  is_reolink_test_file (to_string_lossy f) = false → normalize v = Ok (parts ++ [n0]) →
  backend_recipients bk = Some recs → unpublished ∅ s0 → receptive s0 → complete input →
  (ready → ∃ enc, with_recipients seed recs = Ok enc) →
  counts ∅ (serve bk cam (RPut seed input v 0)) (settled_as (sealed_as seed recs input)) s0.
Proof.
  intros Hn0 Hv0 Hx Hnone Hu Hf Ht Hn Hb Hun Hrc Hc Henc. cbn [serve]. unfold answered, put.
  rewrite Hu, Hf, Ht, Hb. cbn [capability_allowed negb]. apply wp_bind; [apply Hun|].
  eapply (resolve_counts _ _ n0); [done|exact Hn|done| |apply Hun|done| |].
  { exists n0. split; [by right; right|done]. }
  { intros e. apply error_counts, Hun. }
  cbv beta iota. assert (age_suffix (render (q ++ [n0])) = render final) as ->.
  { unfold age_suffix. rewrite Hn0. by apply os_push_render. }
  rewrite bool_decide_true by done. cbn [negb].
  apply wp_bind; [apply Hun|]. eapply wp_mono; [|by apply store_encrypted_counts].
  intros r mine s Hr. apply answer_counts. destruct r as [m|e]; [|done].
  destruct Hr as (Hend & -> & -> & enc & He & Hs). intros s' Hs'.
  split; [done|]. split; [done|]. exists enc. split; [done|]. by eapply finished_later.
Qed.
End request.
End upload.

#[export] Instance claimed_dec q n extra p : Decision (claimed q n extra p).
Proof.
  refine (cast_if (decide (Exists (λ x, p = q ++ [x]) (n :: (n +:+ STAGING_SUFFIX) :: extra))));
    unfold claimed; by rewrite <- Exists_exists.
Defined.

(** ** Properties *)

Section properties.
Context `{AgeLib}.

Lemma apart_others R s p :
  plain_fs s → apart_request R s p →
  ensures plain_fs (confined_op R s) p (λ _, True) ∧ own (λ _, False) p.
Proof. intros Hp (b & user & r & Hu & ->). split; [by apply apart_promises|apply serve_own]. Qed.

(** What comes of an upload, the first of all threads. *)
Section upload_pool.
Context (s : Fs) (q : list string) (n : string) (extra : list string).
Context (Hp : plain_fs s) (He : enclosed (claimed q n extra) s) (Hx : spare q n extra s).
Context (fails : nat → Prop).
Context (Q : result Answer Storage.Error → gset nat → Fs → Prop) (p : prog (result Answer Storage.Error)).
Context (Hw : wp (among s q n extra) (fails 0) ∅ p Q s).
Context (s' : Fs) (ps' : list (prog (result Answer Storage.Error))).
Context (Hs : pool_steps_if (apart_request (claimed q n extra) s) fails (s, [p]) (s', ps')).

Lemma upload_attended :
  attended (among s q n extra) (fails 0) (confined_op (claimed q n extra) s) plain_fs 0 Q s [p].
Proof.
  exists ∅, s, p. split; [done|]. split; [split; [by split|by apply enclosed_intact]|].
  split; [done|]. by intros [|j] p'.
Qed.

Lemma upload_pool a : ps' !! 0 = Some (Ret a) → ∃ mine, Q a mine s'.
Proof.
  eapply (wp_pool_if _ (fails 0) (confined_op (claimed q n extra) s));
    [by apply among_reliable|intros mine b s1; apply among_plain|done| |apply upload_attended|exact Hs].
  intros p'. by apply apart_others.
Qed.

(** Wherever they have got to, the upload can be brought to its end by what is left
    of it. *)
Lemma upload_pool_ends :
  ∃ j a s'' mine, sched (replicate j 0) s' ps' = (s'', <[0 := Ret a]> ps') ∧ Q a mine s''.
Proof.
  eapply (wp_pool_ends _ (fails 0) (confined_op (claimed q n extra) s));
    [by apply among_reliable|intros mine b s1; apply among_plain|done| |apply upload_attended|exact Hs].
  intros p'. by apply apart_others.
Qed.
End upload_pool.

Lemma upload_names s qb parts n v :
  plain_fs s → is_dir (fs_tree s) qb → normalize v = Ok (parts ++ [n]) →
  Forall valid_name (qb ++ parts) ∧ valid_name n.
Proof.
  intros Hp Hd Hn. apply normalize_valid in Hn. apply Forall_app in Hn as [Hvp Hvn].
  inversion Hvn; subst. split; [|done]. apply Forall_app. split; [by eapply plain_dir_valid|done].
Qed.

Lemma finished_file_at s0 q n extra may_fail acc s :
  finished s0 q n extra may_fail acc s → file_at s (q ++ [n]) = Some acc.
Proof. intros [[_ (i & Hi & Hc & _)] _]. unfold file_at. by rewrite Hi, Hc. Qed.

(** What is finished without failures has no other name and no writers. *)
Lemma finished_finalized s0 q n extra may_fail acc s :
  finished s0 q n extra may_fail acc s → volatile n = false → may_fail ∨ finalized s (q ++ [n]) acc.
Proof.
  intros [[[[_ Hsp] [_ Hk]] (i & Hi & Hc & _)] [Hm|Hst]] Hn; [by left|right].
  exists i, (inode_of s i). split; [|done].
  assert (claimed q n extra (q ++ [n])) as Hf by apply final_claimed. split; [done|done|by eauto|..].
  - intros q' Hq'. destruct (decide (q' = q ++ [n])) as [|Hne]; [done|].
    destruct (decide (q' = q ++ [n +:+ STAGING_SUFFIX])) as [->|Hne']; [congruence|].
    exfalso. refine (kp_private _ _ _ _ Hk q' i _ Hq' _ Hf Hi).
    intros (x & [->|[->|Hx]%elem_of_cons]%elem_of_cons & ->); [done..|].
    rewrite Hsp in Hq'; [done|done|congruence..].
  - intros fd h Hh Hw. by eapply (kp_fds _ _ _ _ Hk fd h i).
Qed.

Lemma spare_nil q n s : spare q n [] s.
Proof. intros x Hx. by apply elem_of_nil in Hx. Qed.

Lemma spare_one q n x s : fs_tree s !! (q ++ [x]) = None → spare q n [x] s.
Proof. by intros Hn y ->%list_elem_of_singleton. Qed.

(** An upload that goes on where the camera left off: the directory exists, the
    staging name is not taken by a directory, the offset is right and the stream
    complete. *)
Definition well_continued (q : list string) (n : string) (old : bytes) (pos : Z) (input : Input) (s : Fs) : Prop :=
  is_dir (fs_tree s) q ∧ fs_tree s !! (q ++ [n +:+ STAGING_SUFFIX]) ≠ Some EDir ∧
  pos = Z.of_nat (length old) ∧ in_end input = None.

Lemma continuing_counts bk seed cam qb parts n v f old input pos s may_fail :
  let q := qb ++ parts in
  plain_fs s → backend_recipients bk = None → user_role cam = Uploader (render qb) →
  is_dir (fs_tree s) qb → file_name v = Some f → is_reolink_test_file (to_string_lossy f) = false →
  normalize v = Ok (parts ++ [n]) → fs_tree s !! (q ++ [n]) = None →
  stock q n old s → enclosed (claimed q n []) s →
  wp (among s q n []) may_fail ∅ (serve bk cam (RPut seed input v pos))
    (settled_as q n may_fail (well_continued q n old pos input s) (as_sent s q n [] may_fail old input)) s.
Proof.
  intros q Hp Hb Hu Hd Hf Ht Hn Hnone Hk He. destruct (upload_names _ _ _ _ _ Hp Hd Hn) as [Hvq Hvn].
  eapply put_plain_counts; try done; try by intros (? & ? & ? & ?).
  apply unpublished_start; by try apply spare_nil.
Qed.

(** A camera's upload among any other requests.  While a camera uploads a file,
    by itself or going on with a staging file, other cameras upload, the same
    camera uploads other files and makes directories, viewers list and download,
    the operations of all of them interleaved in any way and those of the requests
    [fails] failing.  Once the upload is answered, and ever after while these
    requests go on: if it was answered as stored, the final file holds exactly what
    was staged and sent; and if not, the final name does not exist, and either the
    upload was not well continued or its own operations may fail.  So nothing the
    others do, or fail to do, makes a camera's upload fail. *)
Theorem upload_among_others fails bk seed cam qb parts n v f old input pos s ps' s' ans :
  let q := qb ++ parts in
  plain_fs s → backend_recipients bk = None → user_role cam = Uploader (render qb) →
  is_dir (fs_tree s) qb → file_name v = Some f → is_reolink_test_file (to_string_lossy f) = false →
  normalize v = Ok (parts ++ [n]) → fs_tree s !! (q ++ [n]) = None →
  stock q n old s → enclosed (claimed q n []) s →
  pool_steps_if (apart_request (claimed q n []) s) fails (s, [serve bk cam (RPut seed input v pos)]) (s', ps') →
  ps' !! 0 = Some (Ret ans) →
  match ans with
  | Ok a => a = AStored (Z.of_nat (length (in_data input))) ∧ in_end input = None ∧
      file_at s' (q ++ [n]) = Some (old ++ in_data input)
  | Err _ => fs_tree s' !! (q ++ [n]) = None ∧ (well_continued q n old pos input s → fails 0)
  end.
Proof.
  intros q Hp Hb Hu Hd Hf Ht Hn Hnone Hk He Hs Ha.
  destruct (upload_pool s q n [] Hp He (spare_nil _ _ _) fails _ _ (continuing_counts bk seed cam qb parts n v f old input pos s
    (fails 0) Hp Hb Hu Hd Hf Ht Hn Hnone Hk He) s' ps' Hs ans Ha) as [mine HQ].
  destruct ans as [a|e]; [|exact HQ]. destruct HQ as (-> & Hend & Hst). split; [done|]. split; [done|].
  by eapply finished_file_at.
Qed.

(** And it is answered: wherever all the work has got to, an upload that is well
    continued is brought to its end by its own remaining operations, without any
    of the others, and is stored. *)
Theorem upload_completes_among_others bk seed cam qb parts n v f old input pos s ps' s' :
  let q := qb ++ parts in
  plain_fs s → backend_recipients bk = None → user_role cam = Uploader (render qb) →
  is_dir (fs_tree s) qb → file_name v = Some f → is_reolink_test_file (to_string_lossy f) = false →
  normalize v = Ok (parts ++ [n]) → fs_tree s !! (q ++ [n]) = None →
  stock q n old s → enclosed (claimed q n []) s → well_continued q n old pos input s →
  pool_steps_if (apart_request (claimed q n []) s) (λ i, i ≠ 0)
    (s, [serve bk cam (RPut seed input v pos)]) (s', ps') →
  ∃ j s'', sched (replicate j 0) s' ps' =
      (s'', <[0 := Ret (Ok (AStored (Z.of_nat (length (in_data input)))))]> ps') ∧
    file_at s'' (q ++ [n]) = Some (old ++ in_data input).
Proof.
  intros q Hp Hb Hu Hd Hf Ht Hn Hnone Hk He Hwc Hs.
  destruct (upload_pool_ends s q n [] Hp He (spare_nil _ _ _) (λ i, i ≠ 0) _ _ (continuing_counts bk seed cam qb parts n v f old
    input pos s (0 ≠ 0) Hp Hb Hu Hd Hf Ht Hn Hnone Hk He) s' ps' Hs)
    as (j & [a|e] & s'' & mine & Hj & HQ); [|by destruct HQ as [_ []]].
  destruct HQ as (-> & _ & HQ). exists j, s''. split; [done|]. by eapply finished_file_at.
Qed.

(** An encrypted upload that is well begun, with somebody to encrypt to. *)
Definition well_sealed (q : list string) (name : string) (seed : Seed) (recs : list Recipient) (input : Input)
    (s : Fs) : Prop :=
  well_continued q name [] 0 input s ∧ ∃ enc, with_recipients seed recs = Ok enc.

Lemma sealing_counts bk seed recs cam qb parts n v f input s may_fail :
  let q := qb ++ parts in
  let name := n +:+ ".age" in
  plain_fs s → backend_recipients bk = Some recs → user_role cam = Uploader (render qb) →
  is_dir (fs_tree s) qb → file_name v = Some f → is_reolink_test_file (to_string_lossy f) = false →
  normalize v = Ok (parts ++ [n]) → fs_tree s !! (q ++ [n]) = None →
  fs_tree s !! (q ++ [name]) = None → enclosed (claimed q name [n]) s →
  wp (among s q name [n]) may_fail ∅ (serve bk cam (RPut seed input v 0))
    (settled_as q name may_fail (well_sealed q name seed recs input s)
       (sealed_as s q name [n] may_fail seed recs input)) s.
Proof.
  intros q name Hp Hb Hu Hd Hf Ht Hn Hnone Hfin He. destruct (upload_names _ _ _ _ _ Hp Hd Hn) as [Hvq Hvn].
  assert (valid_name name) as Hvm by (apply valid_name_push; [done|done|cbn; lia]).
  eapply put_encrypted_counts; try done; try by intros [(? & ? & ? & ?) ?].
  - by left.
  - apply unpublished_start; by try apply spare_one.
Qed.

(** What it answers, put in terms of the file. *)
Lemma sealed_answer `{!AgeLaws} s0 q name extra may_fail seed recs input s mine ans :
  settled_as q name may_fail (well_sealed q name seed recs input s0)
    (sealed_as s0 q name extra may_fail seed recs input) ans mine s →
  match ans with
  | Ok a => a = AStored (Z.of_nat (length (in_data input))) ∧ in_end input = None ∧
      ∃ ct, file_at s (q ++ [name]) = Some ct ∧
        ∀ id, to_public id ∈ recs → ∃ cs, decryptor id ct = Ok (cs, None) ∧ concat cs = in_data input
  | Err _ => fs_tree s !! (q ++ [name]) = None ∧ (well_sealed q name seed recs input s0 → may_fail)
  end.
Proof.
  destruct ans as [a|e]; [|done]. intros (-> & Hend & enc & Henc & Hst).
  split; [done|]. split; [done|]. eexists. split; [by eapply finished_file_at|].
  intros id Hid. destruct (age_decrypts id seed recs enc (in_chunks input) Hid Henc) as (cs & Hdec & Hcs & _).
  by exists cs.
Qed.

(** The same with encryption on, where the final name is the name with [.age].  If
    the upload was answered as stored, the final file is a ciphertext that every
    identity it was encrypted to decrypts to exactly what the camera sent; and
    if not, the final name does not exist, and the upload was not well begun or its
    own operations may fail.  What the camera had staged before does not matter, as
    it is overwritten. *)
Theorem encrypted_upload_among_others `{!AgeLaws} fails bk seed recs cam qb parts n v f input s ps' s' ans :
  let q := qb ++ parts in
  let name := n +:+ ".age" in
  let region := claimed q name [n] in
  plain_fs s → backend_recipients bk = Some recs → user_role cam = Uploader (render qb) →
  is_dir (fs_tree s) qb → file_name v = Some f → is_reolink_test_file (to_string_lossy f) = false →
  normalize v = Ok (parts ++ [n]) → fs_tree s !! (q ++ [n]) = None →
  fs_tree s !! (q ++ [name]) = None → enclosed region s →
  pool_steps_if (apart_request region s) fails (s, [serve bk cam (RPut seed input v 0)]) (s', ps') →
  ps' !! 0 = Some (Ret ans) →
  match ans with
  | Ok a => a = AStored (Z.of_nat (length (in_data input))) ∧ in_end input = None ∧
      ∃ ct, file_at s' (q ++ [name]) = Some ct ∧
        ∀ id, to_public id ∈ recs → ∃ cs, decryptor id ct = Ok (cs, None) ∧ concat cs = in_data input
  | Err _ => fs_tree s' !! (q ++ [name]) = None ∧ (well_sealed q name seed recs input s → fails 0)
  end.
Proof.
  intros q name region Hp Hb Hu Hd Hf Ht Hn Hnone Hfin He Hs Ha.
  destruct (upload_pool s q name [n] Hp He (spare_one _ _ _ _ Hnone) fails _ _ (sealing_counts bk seed recs cam qb parts n v f input s
    (fails 0) Hp Hb Hu Hd Hf Ht Hn Hnone Hfin He) s' ps' Hs ans Ha) as [mine HQ].
  by eapply sealed_answer.
Qed.
End properties.
