(* ===== verification/Reading.v ===== *)
(** Downloads among others: what a viewer gets while any number of other requests
    are served at the same time.

    The file is [sealed], so nothing the others do changes it; the reader is the
    request's own, so nobody else moves it.  The download therefore answers the
    file from the position it was asked for, or an error if one of its own
    operations failed, and nothing between. *)
From S2P Require Import Prelude StdPath StdFs Prog FsView Rely Append Paths Crypto Config Account.
From S2P Require Import Limits Auth Store Backend Immutable Confine Own.

Section download.
Context (q : list string) (i : nat) (ino : Inode).
Context (Hvq : Forall valid_name q).
(** The download's own operations fail for outside reasons only if [may_fail]. *)
Context (may_fail : Prop).

(** The file stays sealed, and so do the reader's descriptors. *)
Definition around_reader (mine : gset nat) (b s : Fs) : Prop :=
  plain_fs s ∧ sealed q i ino s ∧
  ∀ fd, fd ∈ mine → ∃ h, fs_fds s !! fd = Some h ∧ fs_fds b !! fd = Some h.

Lemma around_plain mine b s : around_reader mine b s → plain_fs s.
Proof. by intros [? _]. Qed.

Definition settled (s : Fs) : Prop := plain_fs s ∧ sealed q i ino s.

Lemma reader_start mine s :
  settled s → (∀ fd, fd ∈ mine → is_Some (fs_fds s !! fd)) → around_reader mine s s.
Proof. intros [Hp Hs] Hm. split; [done|]. split; [done|]. intros fd [h Hh]%Hm. eauto. Qed.

Lemma reader_reliable : reliable around_reader client_op.
Proof.
  split.
  - intros mine b s T e r s' (Hp & Hse & Hm) He Hu Hs.
    destruct (client_step q i ino T e s r s' He Hs (conj Hp Hse)) as [Hp' Hse'].
    split; [done|]. split; [done|]. intros fd Hfd. destruct (Hm fd Hfd) as (h & Hh & Hb). exists h.
    split; [|done]. rewrite (ev_step_other_fd e s r s'); [done|done| |].
    + eapply uses_mono; [|exact Hu]. by intros fd' Hn ->.
    + by eapply wf_fd_nums, Hh; apply Hp.
  - intros t mine b s (Hp & [] & Hm). split; [by apply plain_set_now|]. by split.
  - intros mine b s fd (Hp & _ & Hm) Hfd. destruct (Hm fd Hfd) as (h & Hh & _).
    by eapply wf_fd_nums, Hh; apply Hp.
  - intros mine b s s' (_ & _ & Hm) (Hp & Hs & Hm'). split; [done|]. split; [done|]. intros fd Hfd.
    destruct (Hm' fd Hfd) as (h & Hh & Hs'), (Hm fd Hfd) as (h' & Hh' & Hb). exists h. split; [done|]. congruence.
  - intros mine b s (Hp & Hs & Hm). apply reader_start; [done|]. intros fd Hfd.
    destruct (Hm fd Hfd) as (h & Hh & _). eauto.
Qed.

Abbreviation counts := (wp around_reader may_fail).

(** The reader [fd] is at [pos] of the file. *)
Definition reads_at (fd pos : nat) (s : Fs) : Prop :=
  settled s ∧ fs_fds s !! fd = Some (HRead i pos).

Lemma reads_later fd pos b s : reads_at fd pos b → around_reader {[fd]} b s → reads_at fd pos s.
Proof.
  intros [_ Hb] (Hp & Hs & Hm). split; [done|]. destruct (Hm fd) as (h & Hh & Hb'); [set_solver|]. congruence.
Qed.

Lemma reads_start fd pos s : reads_at fd pos s → around_reader {[fd]} s s.
Proof. intros [Hs Hh]. apply reader_start; [done|]. intros fd' ->%elem_of_singleton. eauto. Qed.

(** Operations of the reader keep the file. *)
Lemma settled_step T (e : Sys T) s r s' :
  client_op T e → ev_step e s r s' → settled s → settled s'.
Proof. apply client_step. Qed.

(** Its path leads to the file. *)
Lemma settled_lookup s follow p :
  settled s → components p = RootDir :: lexical q → lookup_path s follow p = WFound q (EFile i).
Proof.
  intros [Hp Hse] Hc. pose proof (se_entry _ _ _ _ Hse) as He.
  destruct (se_final _ _ _ _ Hse) as (d & m & Hq & _). rewrite Hq in *.
  apply Forall_app in Hvq as [_ Hm]. inversion Hm; subst.
  rewrite (lookup_name s p d m); [by rewrite He|apply Hp| |done|left; apply Hp].
  by eapply is_dir_above.
Qed.

Lemma reader_open s p r s' :
  settled s → components p = RootDir :: lexical q → own_step may_fail (OpenRead p) s r s' →
  (s' = s ∧ may_fail ∧ ∃ x, r = Err x) ∨ ∃ fd, r = Ok fd ∧ reads_at fd 0 s'.
Proof.
  intros Hs Hc Hst. pose proof (settled_step _ (OpenRead p) _ _ _ I (own_ev _ _ _ _ _ Hst) Hs) as Hs'.
  inversion Hst; subst; clear Hst; [|by left; eauto]. cbn [exec] in *.
  rewrite settled_lookup in * by done. right. exists (fs_next_fd s). split; [done|]. split; [done|].
  cbn. by rewrite lookup_insert_eq.
Qed.

Lemma reader_seek fd p pos s r s' :
  reads_at fd p s → own_step may_fail (Seek fd pos) s r s' →
  match r with
  | Ok _ => reads_at fd (Z.to_nat pos) s'
  | Err _ => reads_at fd p s' ∧ may_fail
  end.
Proof.
  intros [Hs Hh] Hst. pose proof (settled_step _ (Seek fd pos) _ _ _ I (own_ev _ _ _ _ _ Hst) Hs) as Hs'.
  inversion Hst; subst; clear Hst; cbn [exec fault_exec fst snd] in *; [|done]. rewrite Hh in *.
  split; [done|]. cbn. by rewrite lookup_insert_eq.
Qed.

Lemma reader_read fd pos s r s' :
  reads_at fd pos s → own_step may_fail (ReadToEnd fd) s r s' →
  match r with Ok bs => bs = drop pos (i_data ino) | Err _ => may_fail end ∧ ∃ pos', reads_at fd pos' s'.
Proof.
  intros [Hs Hh] Hst. pose proof (settled_step _ (ReadToEnd fd) _ _ _ I (own_ev _ _ _ _ _ Hst) Hs) as Hs'.
  inversion Hst; subst; clear Hst.
  - cbn [exec] in *. rewrite Hh in *. cbn [fst snd] in *. split.
    + unfold content. by rewrite (se_inode _ _ _ _ (proj2 Hs)).
    + eexists. split; [done|]. cbn. by rewrite lookup_insert_eq.
  - split; [done|]. by exists pos.
Qed.

(** The reader is dropped. *)
Lemma counts_drop {A} fd pos (k : io unit → prog A) (Q : A → gset nat → Fs → Prop) b :
  reads_at fd pos b → (∀ r s, settled s → counts ∅ (k r) Q s) →
  counts {[fd]} (Vis (Close fd) k) Q b.
Proof.
  intros Hb Hk s r s' Ha Hst%own_ev. exists ∅. split; [set_solver|].
  assert (settled s') as Hs' by (by eapply (settled_step _ (Close fd)), (reads_later _ _ _ _ Hb Ha)).
  split; [by apply reader_start; [|set_solver]|by apply Hk].
Qed.

Section request.
Context `{AgeLib} (qb parts : list string) (Hq : q = qb ++ parts).

Lemma resolve_contained user v :
  select_root (user_view user) v = Ok (render qb, parts) →
  resolve (user_view user) v = contained (render qb) (render q).
Proof. intros Hs. rewrite resolve_select, Hs, Hq. f_equal. by rewrite !render_fold, foldl_app. Qed.

(** Whatever the others do, a path that is answered leads to the file. *)
Lemma resolve_lands (J : Fs → Prop) user v :
  (∀ s, J s → plain_fs s) → select_root (user_view user) v = Ok (render qb, parts) →
  ensures J client_op (resolve_for user v) (λ r, ∀ p, r = Ok p → components p = RootDir :: lexical q).
Proof.
  intros HJ Hs. apply (ensures_with _ (confined_op (λ _, False) (empty_fs 0))).
  { apply looks_client, resolve_for_looks. }
  unfold resolve_for. rewrite (resolve_contained user v Hs).
  apply (ensures_bind _ _ _ _ (λ r, ∀ p, r = Ok p → components p = RootDir :: lexical q)).
  - eapply ensures_mono; [|by apply contained_promises]. cbn. intros r Hr p Hp.
    eapply resolved_components, landed_resolved, Hr, Hp. done.
  - intros [p|e] Hr; cbn; [|done]. intros ? [= <-]. by apply Hr.
Qed.

(** And it is answered. *)
Lemma resolve_settles_on user v (J : Fs → Prop) :
  (∀ s, J s → settled s) → select_root (user_view user) v = Ok (render qb, parts) →
  settles J (resolve_for user v) (λ r, r = Ok (render q)).
Proof.
  intros HJ Hs. unfold resolve_for. rewrite (resolve_contained user v Hs).
  apply (settles_bind _ _ _ (λ r, r = Ok (render q))); [|by intros r ->].
  assert (Forall valid_name qb) as Hvb by (pose proof Hvq as Hv; rewrite Hq in Hv; by apply Forall_app in Hv as [? _]).
  assert (∀ s, J s → ∃ e, lookup_path s true (render qb) = WFound qb e) as Hb.
  { intros s Hj. apply HJ in Hj. destruct parts as [|x ps].
    - exists (EFile i). rewrite app_nil_r in Hq. rewrite <- Hq. by apply settled_lookup; [|apply components_render].
    - exists EDir. apply lookup_dir_at; [apply Hj|]. eapply (is_dir_above s qb x ps); [apply Hj|].
      rewrite <- Hq. apply Hj. }
  assert (starts_with (render q) (render qb) = true) as Hst.
  { apply starts_with_spec. rewrite !components_render by done. rewrite Hq, fmap_app. by eexists. }
  unfold contained. cbn [bind ask]. intros s Hj. cbn [exec]. destruct (Hb s Hj) as [e ->]. cbn [fst].
  intros s1 Hj1. cbn [exec]. rewrite settled_lookup; [|by apply HJ|by apply components_render].
  cbn [fst]. by rewrite Hst.
Qed.

(** Reading to the end and dropping the reader. *)
Abbreviation exact pos := (λ (r : result Answer Storage.Error) (_ : gset nat) (_ : Fs),
  match r with Ok a => a = ABytes (drop (Z.to_nat pos) (i_data ino)) | Err _ => may_fail end).

Lemma read_out fd pos s :
  reads_at fd (Z.to_nat pos) s →
  counts {[fd]} (Ret (Ok fd)) (λ (a : result nat Storage.Error) m s, counts m
    match a with
    | Ok fd => let! r := ask (ReadToEnd fd) in let! _ := ask (Close fd) in Ret (map_err Storage.FromIo r)
    | Err e => Ret (Err e)
    end (λ a m s, counts m (Ret match a with Ok a => Ok (ABytes a) | Err e => Err e end) (exact pos) s) s) s.
Proof.
  intros Hs s1 Ha1. cbn [bind ask]. intros s2 r s3 Ha2 Hst.
  destruct (reader_read _ _ _ _ _ (reads_later _ _ _ _ (reads_later _ _ _ _ Hs Ha1) Ha2) Hst) as [Hr [p Hs3]].
  exists {[fd]}. split; [by left|]. split; [by eapply reads_start|].
  eapply counts_drop; [exact Hs3|]. intros r4 s4 _ s5 _ s6 _.
  destruct r as [bs|k]; cbn; [by rewrite Hr|done].
Qed.

Lemma serve_reads bk user scope v pos b :
  user_role user = Viewer scope → select_root (user_view user) v = Ok (render qb, parts) → settled b →
  counts ∅ (serve bk user (RGet v pos)) (exact pos) b.
Proof.
  intros Hu Hs Hb. assert (around_reader ∅ b b) as Ha by (apply reader_start; [done|set_solver]).
  cbn [serve]. unfold answered, download, Backend.get. rewrite Hu. cbn [capability_allowed negb].
  apply wp_bind; [done|]. apply wp_bind; [done|].
  eapply (wp_others_if _ _ _ reader_reliable True); [apply read_only_no_fd, resolve_for_read_only| | |].
  { apply (resolve_lands _ user v); [by intros s []|done]. }
  { intros _. apply resolve_settles_on; [by intros s (? & ? & _)|done]. }
  intros [real|e] Hr Hset; [|by intros s1 _ s2 _ s3 _; destruct (Hset I)]. specialize (Hr real eq_refl).
  cbn [bind ask]. intros s r s' (Hp & Hse & _) Hst.
  destruct (reader_open _ _ _ _ (conj Hp Hse) Hr Hst) as [(-> & Hm & x & ->)|(fd & -> & Hfd)].
  { exists ∅. split; [by left|]. split; [apply reader_start; [done|set_solver]|]. by intros s1 _ s2 _ s3 _. }
  exists {[fd]}. split; [intros fd' ->%elem_of_singleton; by right|]. split; [by eapply reads_start|].
  cbv beta iota. case_decide as Hpos.
  2: { apply read_out. replace (Z.to_nat pos) with 0 by lia. done. }
  cbn [bind ask]. intros s2 r2 s3 Ha2 Hst2.
  pose proof (reader_seek _ _ _ _ _ _ (reads_later _ _ _ _ Hfd Ha2) Hst2) as Hs3. exists {[fd]}.
  split; [by left|]. destruct r2 as [u|k].
  - split; [by eapply reads_start|]. by apply read_out.
  - destruct Hs3 as [Hs3 Hm]. split; [by eapply reads_start|]. cbn [bind ask].
    eapply counts_drop; [exact Hs3|]. by intros r4 s4 _ s5 _ s6 _ s7 _.
Qed.
End request.
End download.

(** ** Properties *)

Section properties.
Context `{AgeLib}.

(** A download among any other requests.  A published recording is requested from
    some position while anything else goes on: requests that were in flight
    already, and any that arrive meanwhile, of any users, in any interleaving, the
    operations of the threads [fails] failing.  The viewer is answered exactly the
    recording from that position on, unless the download's own operations may fail:
    nothing anybody else does makes a download fail or disturbs it. *)
Theorem download_among_others fails bk viewer scope v pos qb parts m bs s0 s ps s' ps' ans :
  plain_fs s0 → pool_steps server_request (s0, []) (s, ps) →
  finalized s (qb ++ parts ++ [m]) bs →
  user_role viewer = Viewer scope → select_root scope v = Ok (render qb, parts ++ [m]) →
  pool_steps_if server_request fails (s, ps ++ [serve bk viewer (RGet v pos)]) (s', ps') →
  ps' !! length ps = Some (Ret ans) →
  match ans with Ok a => a = ABytes (drop (Z.to_nat pos) bs) | Err _ => fails (length ps) end.
Proof.
  intros Hp0 Hreach (i & ino & Hse & <-) Hu Hsel Hs Hend.
  destruct (pool_client _ _ _ _ server_request_client Hp0 Hreach) as [Hp Hcl].
  assert (Forall valid_name (qb ++ parts ++ [m])) as Hv by (eapply entry_valid; [apply Hp|apply Hse]).
  assert (Forall (own (λ fd, fd < fs_next_fd s)) ps) as Hown.
  { eapply pool_own; [|exact Hreach|constructor]. intros p (b & user & r & ->). apply serve_own. }
  destruct (wp_pool_if (around_reader (qb ++ parts ++ [m]) i ino) (fails (length ps)) client_op
    (reader_reliable _ _ _) plain_fs server_request fails (length ps) (around_plain _ _ _)) with
    (Q := λ (r : result Answer Storage.Error) (_ : gset nat) (_ : Fs),
      match r with Ok a => a = ABytes (drop (Z.to_nat pos) (i_data ino)) | Err _ => fails (length ps) end)
    (s := s) (ps := ps ++ [serve bk viewer (RGet v pos)]) (s' := s') (ps' := ps') (a := ans)
    as [mine HQ]; [done| | |done|done|exact HQ].
  - intros p (b & user & r & ->). split; [apply ensures_ops, serve_client|apply serve_own].
  - apply attended_start; [done|by apply reader_start| |by eapply Forall_impl; [exact Hcl|apply ensures_ops]|done].
    eapply serve_reads; [done|done|exact Hu| |done]. unfold user_view. rewrite Hu. exact Hsel.
Qed.
End properties.
