(* ===== verification/Retention.v ===== *)
(** [retention.rs]: the age-based sweep of the archive.

    [visit] recurses into directories; its fuel is the depth still allowed, and
    [None] is the answer when it runs out.  Times are nanoseconds; the entries of a
    directory are those present when it is opened. *)
From S2P Require Import Prelude StdPath StdFs Prog FsView Append Paths.

Record SweepReport : Type := mkSweepReport { deleted : list string; pruned_dirs : list string }.

Definition older_than (path : string) (ttl now : Z) : prog bool :=
  let! r := ask (Stat path) in
  Ret (match r with
       | Ok meta =>
           if decide (m_modified meta ≤ now)%Z then bool_decide (now - m_modified meta > ttl)%Z
           else false
       | Err _ => false
       end).

(** [path.file_name().and_then(to_str).unwrap_or("")]. *)
Definition name_str (path : string) : string :=
  match file_name path with
  | Some n => if decide (to_string_lossy n = n) then n else ""
  | None => ""
  end.

Section sweep.
Context (retention quarantine_ttl staging_ttl now : Z) (dry_run : bool).

Abbreviation visited := (prog (option (io SweepReport))).

(** A directory entry that is itself a directory: visited, then pruned if it
    is empty afterwards. *)
Definition visit_dir (rec : string → SweepReport → visited) (path : string) (report : SweepReport)
    : visited :=
  let! r := rec path report in
  match r with
  | None => Ret None
  | Some (Err e) => Ret (Some (Err e))
  | Some (Ok report) =>
      let! r := ask (ReadDir path) in
      match r with
      | Err e => Ret (Some (Err e))
      | Ok [] =>
          let report := mkSweepReport (deleted report) (pruned_dirs report ++ [path]) in
          if dry_run then Ret (Some (Ok report))
          else let! _ := ask (RemoveDir path) in Ret (Some (Ok report))
      | Ok (_ :: _) => Ret (Some (Ok report))
      end
  end.

(** Any other entry: deleted if it is older than its time to live. *)
Definition visit_file (in_quarantine : bool) (path : string) (report : SweepReport) : visited :=
  let ttl := if in_quarantine then quarantine_ttl
             else if ends_with STAGING_SUFFIX (name_str path) then staging_ttl
             else retention in
  let! old := older_than path ttl now in
  if old : bool then
    let report := mkSweepReport (deleted report ++ [path]) (pruned_dirs report) in
    if dry_run then Ret (Some (Ok report))
    else
      let! r := ask (RemoveFile path) in
      Ret (Some (match r with Ok _ => Ok report | Err e => Err e end))
  else Ret (Some (Ok report)).

Fixpoint visit_entries (rec : string → SweepReport → visited) (dir : string) (in_quarantine : bool)
    (names : list string) (report : SweepReport) : visited :=
  match names with
  | [] => Ret (Some (Ok report))
  | name :: rest =>
      let! r := ask (NextEntry dir) in
      match r with
      | Err e => Ret (Some (Err e))
      | Ok _ =>
          let path := join dir name in
          let! r := ask (SymlinkStat path) in
          match r with
          | Err e => Ret (Some (Err e))
          | Ok ft =>
              let! r := (if bool_decide (m_type ft = IsDir) then visit_dir rec path report
                         else visit_file in_quarantine path report) in
              match r with
              | Some (Ok report) => visit_entries rec dir in_quarantine rest report
              | _ => Ret r
              end
          end
      end
  end.

Definition is_quarantine (dir : string) : bool :=
  match file_name dir with Some n => bool_decide (n = QUARANTINE_DIR) | None => false end.

Fixpoint visit (fuel : nat) (dir : string) (report : SweepReport) : visited :=
  match fuel with
  | O => Ret None
  | S fuel' =>
      let! r := ask (ReadDir dir) in
      match r with
      | Err e => Ret (Some (Err e))
      | Ok names => visit_entries (visit fuel') dir (is_quarantine dir) names report
      end
  end.

Definition sweep (fuel : nat) (root : string) : visited := visit fuel root (mkSweepReport [] []).

(** ** What a sweep is for *)

(** The time to live of the file [q]. *)
Definition ttl_of (q : list string) : Z :=
  if decide (list.last (removelast q) = Some QUARANTINE_DIR) then quarantine_ttl
  else if ends_with STAGING_SUFFIX (name_str (render q)) then staging_ttl
  else retention.

Definition expired (s : Fs) (q : list string) (i : nat) : Prop :=
  (i_mtime (inode_of s i) ≤ now)%Z ∧ (now - i_mtime (inode_of s i) > ttl_of q)%Z.

(** Paths below [q] through one of the names. *)
Definition region (q ns q' : list string) : Prop := ∃ n r, n ∈ ns ∧ q' = q ++ n :: r.

(** The archive after its part [R] was swept: expired files are gone, all
    other files are there, no empty directory is left, and nothing else
    changed. *)
Record swept (R : list string → Prop) (s s' : Fs) : Prop := {
  sw_plain : plain_fs s';
  sw_cwd : fs_cwd s' = fs_cwd s;
  sw_inodes : fs_inodes s' = fs_inodes s;
  sw_fds : fs_fds s' = fs_fds s;
  sw_outside q' : ¬ R q' → fs_tree s' !! q' = fs_tree s !! q';
  sw_subset q' e : fs_tree s' !! q' = Some e → fs_tree s !! q' = Some e;
  sw_files q' i : R q' → fs_tree s !! q' = Some (EFile i) →
    fs_tree s' !! q' = Some (EFile i) ↔ ¬ expired s q' i;
  sw_dirs q' : R q' → fs_tree s' !! q' = Some EDir → ∃ n, is_Some (fs_tree s' !! (q' ++ [n]))
}.

Definition after (R : list string → Prop) (s s' : Fs) : Prop :=
  if dry_run then s' = s else swept R s s'.

(** The files a report names. *)
Definition reports (R : list string → Prop) (s : Fs) (rep rep' : SweepReport) : Prop :=
  ∀ p, p ∈ deleted rep' ↔ p ∈ deleted rep ∨
    ∃ q' i, R q' ∧ fs_tree s !! q' = Some (EFile i) ∧ expired s q' i ∧ p = render q'.

(** No entry of the tree is deeper than [d]. *)
Definition depth_below (d : nat) (t : Tree) : Prop := ∀ q e, t !! q = Some e → length q ≤ d.
End sweep.

(** ** Lemmas *)

Section sweep_lemmas.
Context (retention quarantine_ttl staging_ttl now : Z).
Abbreviation expired := (expired retention quarantine_ttl staging_ttl now).
Abbreviation swept := (swept retention quarantine_ttl staging_ttl now).
Abbreviation after := (after retention quarantine_ttl staging_ttl now).
Abbreviation reports := (reports retention quarantine_ttl staging_ttl now).
Abbreviation visit := (visit retention quarantine_ttl staging_ttl now).
Abbreviation visit_entries := (visit_entries retention quarantine_ttl staging_ttl now).
Abbreviation visit_file := (visit_file retention quarantine_ttl staging_ttl now).

Lemma older_than_read_only p ttl : all_ops read_only (older_than p ttl now).
Proof. by repeat split. Qed.

(** A dry run performs no operation that changes anything. *)
Lemma visit_dry_read_only fuel dir rep : all_ops read_only (visit true fuel dir rep).
Proof.
  revert dir rep. induction fuel as [|fuel IH]; intros dir rep; [done|]. cbn [Retention.visit].
  apply all_ops_bind; [done|]. intros [names|e]; [|done]. revert rep.
  induction names as [|n names IHn]; intros rep; [done|]. cbn [Retention.visit_entries].
  apply all_ops_bind; [done|]. intros [u|e]; [|done].
  apply all_ops_bind; [done|]. intros [ft|e]; [|done].
  apply all_ops_bind; [|intros [[rep'|e]|]; done].
  destruct (bool_decide _).
  - apply all_ops_bind; [apply IH|]. intros [[rep'|e]|]; [|done..].
    apply all_ops_bind; [done|]. by intros [[|m l]|e].
  - apply all_ops_bind; [apply older_than_read_only|]. by intros [].
Qed.

(** *** Composing sweeps of disjoint parts *)

Lemma region_cons q n ns q' : region q (n :: ns) q' ↔ region q [n] q' ∨ region q ns q'.
Proof.
  unfold region. setoid_rewrite elem_of_cons. setoid_rewrite elem_of_nil. naive_solver.
Qed.

Lemma region_disjoint q n ns q' : n ∉ ns → region q [n] q' → ¬ region q ns q'.
Proof.
  intros Hn (m & r & ->%list_elem_of_singleton & ->) (m' & r' & Hm & Heq). by simplify_list_eq.
Qed.

Lemma region_child q ns q' n : region q ns q' → region q ns (q' ++ [n]).
Proof. intros (m & r & Hm & ->). exists m, (r ++ [n]). split; [done|]. by rewrite <- app_assoc. Qed.

Lemma expired_inodes s s' q i : fs_inodes s' = fs_inodes s → expired s' q i ↔ expired s q i.
Proof. intros Hi. unfold Retention.expired, inode_of. by rewrite Hi. Qed.

Lemma swept_nil q s : plain_fs s → swept (region q []) s s.
Proof.
  intros Hp. assert (∀ q', ¬ region q [] q') as Hn by (by intros q' (n & r & Hn%elem_of_nil & _)).
  split; try done; intros q' H; intros; by destruct (Hn q').
Qed.

Lemma swept_cons q n ns s s1 s2 :
  n ∉ ns → swept (region q [n]) s s1 → swept (region q ns) s1 s2 → swept (region q (n :: ns)) s s2.
Proof.
  intros Hn H1 H2. pose proof (λ q', region_disjoint q n ns q' Hn) as Hd.
  assert (∀ q', ¬ region q [n] q' → fs_tree s1 !! q' = fs_tree s !! q') as Ho1 by apply H1.
  assert (∀ q', ¬ region q ns q' → fs_tree s2 !! q' = fs_tree s1 !! q') as Ho2 by apply H2.
  split.
  - apply H2.
  - by rewrite (sw_cwd _ _ _ _ _ _ _ H2), (sw_cwd _ _ _ _ _ _ _ H1).
  - by rewrite (sw_inodes _ _ _ _ _ _ _ H2), (sw_inodes _ _ _ _ _ _ _ H1).
  - by rewrite (sw_fds _ _ _ _ _ _ _ H2), (sw_fds _ _ _ _ _ _ _ H1).
  - intros q' Hq. rewrite region_cons in Hq. rewrite Ho2, Ho1 by tauto. done.
  - intros q' e He. eapply H1, H2, He.
  - intros q' i [Hq|Hq]%region_cons He.
    + rewrite Ho2 by auto. by apply H1.
    + rewrite <- (expired_inodes s s1) by apply H1. apply H2; [done|]. rewrite Ho1; [done|].
      intros Hq'. by apply (Hd q').
  - intros q' [Hq|Hq]%region_cons He.
    + rewrite Ho2 in He by auto. destruct (sw_dirs _ _ _ _ _ _ _ H1 q' Hq He) as [m Hm]. exists m.
      rewrite Ho2; [done|]. apply Hd. by apply region_child.
    + by apply H2.
Qed.

Lemma after_cons dry q n ns s s1 s2 :
  n ∉ ns → after dry (region q [n]) s s1 → after dry (region q ns) s1 s2 →
  after dry (region q (n :: ns)) s s2.
Proof. unfold Retention.after. destruct dry; [congruence|]. apply swept_cons. Qed.

(** What an already swept part reports does not depend on the rest. *)
Lemma reports_cons dry q n ns s s1 rep rep1 rep2 :
  n ∉ ns → after dry (region q [n]) s s1 →
  reports (region q [n]) s rep rep1 → reports (region q ns) s1 rep1 rep2 →
  reports (region q (n :: ns)) s rep rep2.
Proof.
  intros Hn Ha H1 H2 p. rewrite (H2 p), (H1 p).
  assert (∀ q' i, region q ns q' →
    (fs_tree s1 !! q' = Some (EFile i) ∧ expired s1 q' i ↔
     fs_tree s !! q' = Some (EFile i) ∧ expired s q' i)) as Hs.
  { intros q' i Hq. unfold Retention.after in Ha. destruct dry; [by subst|].
    rewrite (expired_inodes s s1) by apply Ha. rewrite (sw_outside _ _ _ _ _ _ _ Ha); [done|].
    intros Hq'. by eapply region_disjoint. }
  split.
  - intros [[?|(q' & i & Hq & He & Hx & ->)]|(q' & i & Hq & He & Hx & ->)]; [by left|..]; right;
      exists q', i; rewrite region_cons.
    + by auto.
    + destruct (proj1 (Hs q' i Hq) (conj He Hx)). by auto.
  - intros [?|(q' & i & [Hq|Hq]%region_cons & He & Hx & ->)]; [by auto|..].
    + left. right. by exists q', i.
    + right. exists q', i. destruct (proj2 (Hs q' i Hq) (conj He Hx)). by auto.
Qed.

(** *** One file *)

Lemma ttl_of_child q n :
  Forall valid_name (q ++ [n]) →
  ttl_of retention quarantine_ttl staging_ttl (q ++ [n]) =
    if is_quarantine (render q) then quarantine_ttl
    else if ends_with STAGING_SUFFIX (name_str (render (q ++ [n]))) then staging_ttl else retention.
Proof.
  intros Hv. unfold ttl_of, is_quarantine. rewrite removelast_last.
  apply Forall_app in Hv as [Hq _]. rewrite file_name_render by done.
  destruct (list.last q) as [m|]; cbn; [|done]. case_decide; case_bool_decide; naive_solver.
Qed.

Section entry.
Context (s : Fs) (q : list string) (n : string).
Context (Hp : plain_fs s) (Hd : is_dir (fs_tree s) q) (Hn : valid_name n).

Lemma entry_region_file i q' e :
  fs_tree s !! (q ++ [n]) = Some (EFile i) → region q [n] q' → fs_tree s !! q' = Some e →
  q' = q ++ [n].
Proof.
  intros Hf (m & r & ->%list_elem_of_singleton & ->) He. destruct r as [|x r]; [done|].
  exfalso. rewrite (cons_middle n), app_assoc in He.
  destruct (is_dir_above s (q ++ [n]) x r e Hp He) as [H|H]; [by destruct q|congruence].
Qed.

Lemma region_self : region q [n] (q ++ [n]).
Proof. exists n, []. split; [by left|done]. Qed.

Lemma file_kept dry i rep :
  fs_tree s !! (q ++ [n]) = Some (EFile i) → ¬ expired s (q ++ [n]) i →
  after dry (region q [n]) s s ∧ reports (region q [n]) s rep rep.
Proof.
  intros Hf Hx. pose proof (λ q' e, entry_region_file i q' e Hf) as Hr. split.
  - unfold Retention.after. destruct dry; [done|]. split; try done.
    + intros q' i' Hq He. pose proof (Hr _ _ Hq He) as ->. naive_solver.
    + intros q' Hq He. pose proof (Hr _ _ Hq He) as ->. congruence.
  - intros p. split; [by left|]. intros [?|(q' & i' & Hq & He & Hx' & ->)]; [done|].
    pose proof (Hr _ _ Hq He) as ->. naive_solver.
Qed.

Lemma file_expired (dry : bool) i rep :
  fs_tree s !! (q ++ [n]) = Some (EFile i) → expired s (q ++ [n]) i →
  let rep' := mkSweepReport (deleted rep ++ [render (q ++ [n])]) (pruned_dirs rep) in
  ∃ rep'' s',
    run_ok (if dry then Ret (Some (Ok rep' : io SweepReport)) else
      let! r := ask (RemoveFile (render (q ++ [n]))) in
      Ret (Some (match r with Ok _ => Ok rep' | Err e => Err e end))) s = (Some (Ok rep''), s') ∧
    after dry (region q [n]) s s' ∧ reports (region q [n]) s rep rep''.
Proof.
  intros Hf Hx rep'. pose proof (λ q' e, entry_region_file i q' e Hf) as Hr.
  exists rep', (if dry then s else remove_entry (q ++ [n]) s). split; [|split].
  - destruct dry; [done|]. rewrite run_ok_bind, run_ok_ask. cbn [exec].
    by rewrite (lookup_at s Hp), Hf by done.
  - unfold Retention.after. destruct dry; [done|].
    pose proof (exec_plain (RemoveFile (render (q ++ [n]))) s Hp I) as Hpl.
    cbn [exec] in Hpl. rewrite (lookup_at s Hp), Hf in Hpl by done.
    assert (∀ q', q' ≠ q ++ [n] → fs_tree (remove_entry (q ++ [n]) s) !! q' = fs_tree s !! q') as Ho
      by (intros; cbn; by apply lookup_delete_ne).
    split; try done.
    + intros q' Hq. apply Ho. intros ->. by apply Hq, region_self.
    + intros q' e. cbn. by intros [_ ?]%lookup_delete_Some.
    + intros q' i' Hq He. pose proof (Hr _ _ Hq He) as ->. simplify_eq. cbn. rewrite lookup_delete_eq. naive_solver.
    + intros q' Hq He. cbn in He. apply lookup_delete_Some in He as [Hne He].
      pose proof (Hr _ _ Hq He) as ->. done.
  - intros p. unfold rep'. cbn. rewrite elem_of_app, list_elem_of_singleton. split.
    + intros [?| ->]; [by left|]. right. exists (q ++ [n]), i. auto using region_self.
    + intros [?|(q' & i' & Hq & He & Hx' & ->)]; [by left|]. right. by rewrite (Hr _ _ Hq He).
Qed.

Lemma visit_file_spec dry i rep :
  fs_tree s !! (q ++ [n]) = Some (EFile i) →
  ∃ rep' s', run_ok (visit_file dry (is_quarantine (render q)) (render (q ++ [n])) rep) s =
      (Some (Ok rep'), s') ∧
    after dry (region q [n]) s s' ∧ reports (region q [n]) s rep rep'.
Proof.
  intros Hf. assert (Forall valid_name (q ++ [n])) as Hv
    by (apply Forall_app; eauto using plain_dir_valid).
  unfold Retention.visit_file. rewrite <- ttl_of_child by done.
  rewrite run_ok_bind. unfold older_than. rewrite run_ok_bind, run_ok_ask. cbn [exec].
  rewrite (lookup_at s Hp), Hf by done. cbn [fst snd metadata_of m_modified]. rewrite run_ok_ret.
  cbn [fst snd].
  assert ((if decide (i_mtime (inode_of s i) ≤ now)%Z
    then bool_decide (now - i_mtime (inode_of s i) > ttl_of retention quarantine_ttl staging_ttl (q ++ [n]))%Z
    else false) = true ↔ expired s (q ++ [n]) i) as Hx.
  { unfold Retention.expired. case_decide; [rewrite bool_decide_eq_true|]; naive_solver. }
  destruct (if decide (i_mtime (inode_of s i) ≤ now)%Z then _ else false).
  - destruct Hx as [Hx _]. specialize (Hx eq_refl). by apply (file_expired dry i).
  - exists rep, s. split; [done|]. apply (file_kept dry i); [done|]. intros He%Hx. done.
Qed.

(** *** One directory *)

Section directory.
Context (Hdir : fs_tree s !! (q ++ [n]) = Some EDir).
Abbreviation inside := (region (q ++ [n]) (children (fs_tree s) (q ++ [n]))).

Lemma region_inside q' : inside q' → region q [n] q'.
Proof.
  intros (m & r & _ & ->). exists n, (m :: r). split; [by left|]. by rewrite <- app_assoc.
Qed.

Lemma region_dir q' e :
  region q [n] q' → fs_tree s !! q' = Some e → q' = q ++ [n] ∨ inside q'.
Proof.
  intros (m & r & ->%list_elem_of_singleton & ->) He. destruct r as [|x r]; [by left|right].
  assert (q ++ n :: x :: r = (q ++ [n]) ++ x :: r) as Heq by (by rewrite <- app_assoc).
  rewrite Heq in *. exists x, r. split; [|done]. apply children_spec.
  destruct r as [|y r]; [eauto|].
  assert (((q ++ [n]) ++ [x]) ++ y :: r = (q ++ [n]) ++ x :: y :: r) as Hy by (by rewrite <- !app_assoc).
  rewrite <- Hy in He.
  destruct (is_dir_above s _ _ _ _ Hp He) as [H|H]; [by apply app_eq_nil in H as [_ ?]|eauto].
Qed.

Lemma not_inside_self : ¬ inside (q ++ [n]).
Proof.
  intros (m & r & _ & Heq%(f_equal length)). rewrite !length_app in Heq. cbn in Heq. lia.
Qed.

Lemma reports_inside rep rep' : reports inside s rep rep' → reports (region q [n]) s rep rep'.
Proof.
  intros Hr p. rewrite (Hr p). split; (intros [?|(q' & i & Hq & He & Hx)]; [by left|right]).
  - exists q', i. auto using region_inside.
  - exists q', i. destruct (region_dir q' _ Hq He) as [->|]; [congruence|auto].
Qed.

Lemma swept_dir_kept s1 m l :
  swept inside s s1 → children (fs_tree s1) (q ++ [n]) = m :: l → swept (region q [n]) s s1.
Proof.
  intros Hs Hc. split; try apply Hs.
  - intros q' Hq. apply Hs. intros Hi. by apply Hq, region_inside.
  - intros q' i Hq He. apply Hs; [|done]. destruct (region_dir q' _ Hq He) as [->|]; [congruence|done].
  - intros q' Hq He. pose proof (sw_subset _ _ _ _ _ _ _ Hs _ _ He) as He0.
    destruct (region_dir q' _ Hq He0) as [->|Hi]; [|by apply Hs].
    exists m. apply children_spec. rewrite Hc. by left.
Qed.

Lemma swept_dir_pruned s1 :
  fs_cwd s = [] → swept inside s s1 → children (fs_tree s1) (q ++ [n]) = [] →
  exec (RemoveDir (render (q ++ [n]))) s1 = (Ok tt, remove_entry (q ++ [n]) s1) ∧
  swept (region q [n]) s (remove_entry (q ++ [n]) s1).
Proof.
  intros Hcwd Hs Hc. pose proof (sw_plain _ _ _ _ _ _ _ Hs) as Hp1.
  assert (fs_tree s1 !! (q ++ [n]) = Some EDir) as Hd1
    by (rewrite (sw_outside _ _ _ _ _ _ _ Hs); [done|apply not_inside_self]).
  assert (is_dir (fs_tree s1) q) as Hq1.
  { destruct Hd as [->|H]; [by left|]. right. rewrite (sw_outside _ _ _ _ _ _ _ Hs); [done|].
    intros (m & r & _ & Heq%(f_equal length)). rewrite !length_app in Heq. cbn in Heq. lia. }
  assert (lookup_path s1 false (render (q ++ [n])) = WFound (q ++ [n]) EDir) as Hl
    by (by rewrite (lookup_at s1 Hp1), Hd1).
  assert (exec (RemoveDir (render (q ++ [n]))) s1 = (Ok tt, remove_entry (q ++ [n]) s1)) as Hx.
  { cbn [exec]. rewrite Hl, Hc. by destruct (q ++ [n]) eqn:E; [apply app_eq_nil in E as [_ ?]|]. }
  split; [done|].
  pose proof (exec_plain (RemoveDir (render (q ++ [n]))) s1 Hp1) as Hpl. rewrite Hx in Hpl.
  assert (∀ q', q' ≠ q ++ [n] → fs_tree (remove_entry (q ++ [n]) s1) !! q' = fs_tree s1 !! q') as Ho
    by (intros; cbn; by apply lookup_delete_ne).
  split; try apply Hs.
  - apply Hpl. cbn. rewrite Hl, (sw_cwd _ _ _ _ _ _ _ Hs), Hcwd. intros [= Heq].
    by apply app_eq_nil in Heq as [_ ?].
  - intros q' Hq. rewrite Ho by (intros ->; by apply Hq, region_self).
    apply Hs. intros Hi. by apply Hq, region_inside.
  - intros q' e. cbn. intros [_ ?]%lookup_delete_Some. by apply Hs.
  - intros q' i Hq He. destruct (region_dir q' _ Hq He) as [->|Hi]; [congruence|].
    rewrite Ho by (intros ->; by apply not_inside_self). by apply Hs.
  - intros q' Hq He. cbn in He. apply lookup_delete_Some in He as [Hne He].
    pose proof (sw_subset _ _ _ _ _ _ _ Hs _ _ He) as He0.
    destruct (region_dir q' _ Hq He0) as [->|Hi]; [done|].
    destruct (sw_dirs _ _ _ _ _ _ _ Hs q' Hi He) as [m Hm]. exists m. rewrite Ho; [done|].
    intros Heq. destruct Hi as (x & r & _ & ->). apply (f_equal length) in Heq.
    rewrite !length_app in Heq. cbn in Heq. lia.
Qed.

Lemma visit_dir_spec (dry : bool) (rec : string → SweepReport → prog (option (io SweepReport))) rep rep1 s1 :
  fs_cwd s = [] →
  run_ok (rec (render (q ++ [n])) rep) s = (Some (Ok rep1), s1) →
  after dry inside s s1 → reports inside s rep rep1 →
  ∃ rep' s', run_ok (visit_dir dry rec (render (q ++ [n])) rep) s = (Some (Ok rep'), s') ∧
    after dry (region q [n]) s s' ∧ reports (region q [n]) s rep rep'.
Proof.
  intros Hcwd Hrec Ha Hr. apply reports_inside in Hr.
  assert (lookup_path s1 true (render (q ++ [n])) = WFound (q ++ [n]) EDir) as Hl.
  { apply lookup_dir_at; [|right]; unfold Retention.after in Ha; destruct dry; try (by subst); [apply Ha|].
    rewrite (sw_outside _ _ _ _ _ _ _ Ha); [done|apply not_inside_self]. }
  unfold visit_dir. rewrite run_ok_bind, Hrec. cbn [fst snd].
  rewrite run_ok_bind, run_ok_ask. cbn [exec]. rewrite Hl. cbn [fst snd].
  destruct (children (fs_tree s1) (q ++ [n])) as [|m l] eqn:Hc; unfold Retention.after in *.
  - destruct dry; [by eexists _, s1|].
    destruct (swept_dir_pruned s1 Hcwd Ha Hc) as [Hx Hs].
    eexists _, _. rewrite run_ok_bind, run_ok_ask, Hx. done.
  - eexists _, s1. split; [done|]. split; [|done]. destruct dry; [done|]. by eapply swept_dir_kept.
Qed.
End directory.
End entry.

(** *** The whole recursion *)

Lemma after_keeps dry q n s s1 :
  after dry (region q [n]) s s1 → plain_fs s → is_dir (fs_tree s) q →
  plain_fs s1 ∧ is_dir (fs_tree s1) q ∧ fs_cwd s1 = fs_cwd s ∧
  (∀ q' e, fs_tree s1 !! q' = Some e → fs_tree s !! q' = Some e) ∧
  (∀ m, m ≠ n → fs_tree s1 !! (q ++ [m]) = fs_tree s !! (q ++ [m])).
Proof.
  unfold Retention.after. destruct dry; [by intros ->|]. intros Ha Hp Hd.
  split; [apply Ha|]. split; [|split; [apply Ha|split; [apply Ha|]]].
  - destruct Hd as [->|H]; [by left|]. right. rewrite (sw_outside _ _ _ _ _ _ _ Ha); [done|].
    intros (m & r & _ & Heq%(f_equal length)). rewrite length_app in Heq. cbn in Heq. lia.
  - intros m Hm. apply Ha. intros (m' & r & ->%list_elem_of_singleton & Heq). by simplify_list_eq.
Qed.

Definition visits dry fuel q s rep : Prop :=
  ∃ rep' s', run_ok (visit dry fuel (render q) rep) s = (Some (Ok rep'), s') ∧
    after dry (region q (children (fs_tree s) q)) s s' ∧
    reports (region q (children (fs_tree s) q)) s rep rep'.

Lemma visit_entries_spec dry fuel d q names s rep :
  (∀ q s rep, plain_fs s → is_dir (fs_tree s) q → fs_cwd s = [] → depth_below d (fs_tree s) →
     d < length q + fuel → visits dry fuel q s rep) →
  plain_fs s → is_dir (fs_tree s) q → fs_cwd s = [] → depth_below d (fs_tree s) →
  d < length q + S fuel → NoDup names → (∀ n, n ∈ names → is_Some (fs_tree s !! (q ++ [n]))) →
  ∃ rep' s', run_ok (visit_entries dry (visit dry fuel) (render q) (is_quarantine (render q)) names rep) s
      = (Some (Ok rep'), s') ∧
    after dry (region q names) s s' ∧ reports (region q names) s rep rep'.
Proof.
  intros IH Hp Hd Hc Hdep Hfuel Hnd. revert s rep Hp Hd Hc Hdep.
  induction Hnd as [|n names Hn Hnd IHn]; intros s rep Hp Hd Hc Hdep Hnames.
  { exists rep, s. split; [done|]. split.
    - unfold Retention.after. destruct dry; [done|by apply swept_nil].
    - intros p. split; [by left|]. intros [?|(q' & i & (m & r & Hm%elem_of_nil & _) & _)]; done. }
  destruct (Hnames n ltac:(by left)) as [e He].
  assert (valid_name n) as Hv.
  { apply (entry_valid _ _ _ (wf_is_tree _ (pf_wf _ Hp))) in He.
    apply Forall_app in He as [_ He]. by inversion He. }
  assert (∃ rep1 s1, run_ok (if bool_decide (m_type (metadata_of s (q ++ [n]) e) = IsDir)
        then visit_dir dry (visit dry fuel) (render (q ++ [n])) rep
        else visit_file dry (is_quarantine (render q)) (render (q ++ [n])) rep) s = (Some (Ok rep1), s1) ∧
      after dry (region q [n]) s s1 ∧ reports (region q [n]) s rep rep1) as (rep1 & s1 & Hr1 & Ha1 & Hrep1).
  { destruct e as [i| |t]; [by eapply visit_file_spec| |by destruct (pf_links _ Hp _ _ He)].
    destruct (IH (q ++ [n]) s rep) as (rep1 & s1 & ? & ? & ?); try done; [by right|rewrite length_app; cbn; lia|].
    by eapply visit_dir_spec. }
  destruct (after_keeps _ _ _ _ _ Ha1 Hp Hd) as (Hp1 & Hd1 & Hc1 & Hsub & Hoth).
  destruct (IHn s1 rep1) as (rep2 & s2 & Hr2 & Ha2 & Hrep2); try done.
  - by rewrite Hc1.
  - intros q' e' He'. by eapply Hdep, Hsub.
  - intros m Hm. rewrite Hoth; [apply Hnames; by right|]. by intros ->.
  - exists rep2, s2. split; [|split; [by eapply after_cons|by eapply reports_cons]].
    cbn [Retention.visit_entries]. rewrite run_ok_bind, run_ok_ask. cbn [exec fst snd].
    rewrite run_ok_bind, run_ok_ask, <- render_snoc. cbn [exec].
    rewrite (lookup_at s Hp), He by done. cbn [fst snd]. by rewrite run_ok_bind, Hr1.
Qed.

Lemma visit_spec dry d fuel q s rep :
  plain_fs s → is_dir (fs_tree s) q → fs_cwd s = [] → depth_below d (fs_tree s) →
  d < length q + fuel → visits dry fuel q s rep.
Proof.
  revert q s rep. induction fuel as [|fuel IH]; intros q s rep Hp Hd Hc Hdep Hf.
  { destruct Hd as [->|H]; [cbn in Hf; lia|]. apply Hdep in H. lia. }
  destruct (visit_entries_spec dry fuel d q (children (fs_tree s) q) s rep) as (rep' & s' & Hr & Ha & Hrep);
    try done; [apply children_NoDup|intros n; apply children_spec|].
  exists rep', s'. split; [|done]. cbn [Retention.visit].
  rewrite run_ok_bind, run_ok_ask. cbn [exec]. by rewrite (lookup_dir_at s Hp).
Qed.
End sweep_lemmas.

(** *** The sweep among others

    A rule for what a sweep promises whatever happens between its operations: to
    show that it only performs operations of [P] and answers in [Q] while [J] holds,
    it is enough to look at the files it visits; [inside] holds of every path it
    finds. *)
Section among_others.
Context (retention quarantine_ttl staging_ttl now : Z) (dry : bool).
Context (J : Fs → Prop) (P : ∀ T, Sys T → Prop) (inside : list string → Prop).
Context (Q : option (io SweepReport) → Prop).
Abbreviation visit := (visit retention quarantine_ttl staging_ttl now dry).
Abbreviation visit_entries := (visit_entries retention quarantine_ttl staging_ttl now dry).
Abbreviation visit_file := (visit_file retention quarantine_ttl staging_ttl now dry).
Abbreviation promises p := (ensures J P p Q).

Record sweep_rule : Prop := {
  sr_answers r : Q (Some r);
  sr_looks T (e : Sys T) : read_only T e → P T e;
  sr_prunes p : P _ (RemoveDir p);
  sr_names q s r s' names :
    J s → Forall valid_name q → ev_step (ReadDir (render q)) s r s' → r = Ok names →
    Forall valid_name names;
  sr_inside q n s r s' ft :
    J s → Forall valid_name (q ++ [n]) → ev_step (SymlinkStat (render (q ++ [n]))) s r s' →
    r = Ok ft → inside (q ++ [n]);
  sr_file q n rep :
    Forall valid_name (q ++ [n]) →
    promises (visit_file (is_quarantine (render q)) (render (q ++ [n])) rep)
}.

Context (Hr : sweep_rule).

Lemma visit_dir_promises rec p rep :
  (∀ rep, promises (rec p rep)) → promises (visit_dir dry rec p rep).
Proof.
  intros Hrec. unfold visit_dir. eapply ensures_bind; [apply Hrec|].
  intros [[rep1|e]|] Hq; cbn; [clear Hq|by apply Hr|done].
  split; [by apply Hr|]. intros s r s' _ _. destruct r as [[|n l]|e]; cbn; try apply Hr.
  destruct dry; cbn; [apply Hr|]. split; [apply (sr_prunes Hr)|].
  intros s1 r1 s1' _ _. apply Hr.
Qed.

Lemma visit_entries_promises rec q names rep :
  Forall valid_name q → Forall valid_name names →
  (∀ n rep, valid_name n → inside (q ++ [n]) → promises (rec (render (q ++ [n])) rep)) →
  promises (visit_entries rec (render q) (is_quarantine (render q)) names rep).
Proof.
  intros Hq Hn Hrec. revert rep. induction Hn as [|n names Hn Hns IH]; intros rep;
    cbn [Retention.visit_entries]; [by apply Hr|].
  cbn. split; [by apply Hr|]. intros s r s' _ _. destruct r as [u|e]; cbn; [|apply Hr].
  rewrite <- render_snoc. split; [by apply Hr|]. intros s1 r1 s1' Hj Hs.
  destruct r1 as [ft|e]; cbn; [|apply Hr].
  assert (Forall valid_name (q ++ [n])) as Hv by (apply Forall_app; auto).
  pose proof (sr_inside Hr q n _ _ _ ft Hj Hv Hs eq_refl) as Hi.
  apply (ensures_bind _ _ _ _ Q).
  - case_match; [apply visit_dir_promises; auto|by apply Hr].
  - intros [[rep1|e]|] Hq1; cbn; [apply IH|done|done].
Qed.

Lemma visit_promises fuel q rep :
  Forall valid_name q →
  (∀ n rep, valid_name n → inside (q ++ [n]) → promises (visit fuel (render (q ++ [n])) rep)) →
  promises (visit (S fuel) (render q) rep).
Proof.
  intros Hv Hrec. cbn. split; [by apply Hr|]. intros s r s' Hj Hs.
  destruct r as [names|e]; cbn; [|apply Hr].
  apply visit_entries_promises; [done| |done]. by eapply (sr_names Hr).
Qed.
End among_others.

(** ** Properties *)

(** C22. A sweep of an archive without symbolic links, given fuel for the depth of its
    tree, terminates with a report and does exactly what retention promises:
    below the root every file that outlived its time to live (the quarantine's,
    the staging files' or the general one) is gone and every other file is still
    there with its content, no empty directory is left below the root, nothing
    outside was touched, and the report names exactly the files deleted. *)
Theorem sweep_exact retention qttl sttl now d fuel q s :
  plain_fs s → is_dir (fs_tree s) q → fs_cwd s = [] → depth_below d (fs_tree s) →
  d < length q + fuel →
  ∃ rep s', run_ok (sweep retention qttl sttl now false fuel (render q)) s = (Some (Ok rep), s') ∧
    swept retention qttl sttl now (region q (children (fs_tree s) q)) s s' ∧
    ∀ p, p ∈ deleted rep ↔ ∃ q' i, region q (children (fs_tree s) q) q' ∧
      fs_tree s !! q' = Some (EFile i) ∧ expired retention qttl sttl now s q' i ∧ p = render q'.
Proof.
  intros Hp Hd Hc Hdep Hf.
  destruct (visit_spec retention qttl sttl now false d fuel q s (mkSweepReport [] []))
    as (rep & s' & Hr & Ha & Hrep); [done..|].
  exists rep, s'. split; [done|]. split; [done|]. intros p. rewrite (Hrep p). cbn.
  rewrite elem_of_nil. naive_solver.
Qed.

(** C26. A dry run never changes anything, whatever fails under it; undisturbed, it names
    exactly the files that the real sweep would delete at that moment. *)
Theorem dry_run_predicts retention qttl sttl now d fuel q s :
  (∀ w dir, w_fs (run (sweep retention qttl sttl now true fuel dir) w).2 = w_fs w) ∧
  (plain_fs s → is_dir (fs_tree s) q → fs_cwd s = [] → depth_below d (fs_tree s) →
   d < length q + fuel →
   ∃ rep rep' s', run_ok (sweep retention qttl sttl now true fuel (render q)) s = (Some (Ok rep), s) ∧
     run_ok (sweep retention qttl sttl now false fuel (render q)) s = (Some (Ok rep'), s') ∧
     ∀ p, p ∈ deleted rep ↔ p ∈ deleted rep').
Proof.
  split.
  { intros w dir. apply read_only_run, visit_dry_read_only. }
  intros Hp Hd Hc Hdep Hf.
  destruct (visit_spec retention qttl sttl now true d fuel q s (mkSweepReport [] []))
    as (rep & s1 & Hr & -> & Hrep); [done..|].
  destruct (visit_spec retention qttl sttl now false d fuel q s (mkSweepReport [] []))
    as (rep' & s' & Hr' & _ & Hrep'); [done..|].
  exists rep, rep', s'. split; [done|]. split; [done|]. intros p. by rewrite (Hrep p), (Hrep' p).
Qed.
