(* ===== verification/Terminates.v ===== *)
(** Termination: the recursions of the source that are not structural end, with
    the fuel their models are given, whatever the file system answers.

    The sweep recurses into the directories it finds; it ends because the archive
    is not deeper than [d], even while other programs change it, as long as they
    do not make it deeper.  The walk to an existing ancestor in [contained] ends
    because every round drops a component. *)
From S2P Require Import Prelude StdPath StdFs Prog FsView Append Paths Retention.

(** No entry deeper than [d], no symbolic links, and names that are names. *)
Definition tame (d : nat) (t : Tree) : Prop :=
  ∀ q e, t !! q = Some e → Forall valid_name q ∧ length q ≤ d ∧ ∀ l, e ≠ ELink l.

(** Operations that add nothing to the tree. *)
Definition only_removes (T : Type) (e : Sys T) : Prop :=
  match e with
  | TryExists _ | Stat _ | SymlinkStat _ | Canonicalize _ | ReadDir _ | NextEntry _
  | RemoveFile _ | RemoveDir _ => True
  | _ => False
  end.

(** ** Lemmas *)

Section tame.
Context (d : nat).
Abbreviation calm := (λ s, tame d (fs_tree s)).

Lemma tame_delete q t : tame d t → tame d (delete q t).
Proof. intros Ht q' e [_ H]%lookup_delete_Some. by eapply Ht. Qed.

Lemma calm_step T (e : Sys T) s r s' :
  only_removes T e → ev_step e s r s' → calm s → calm s'.
Proof.
  intros He Hs Ht. inversion Hs; subst; clear Hs; destruct e; try done; cbn [exec];
    repeat case_match; try done; by apply tame_delete.
Qed.

Lemma lookup_calm s follow q q' e :
  calm s → Forall valid_name q → lookup_path s follow (render q) = WFound q' e →
  q' = q ∧ ((q = [] ∧ e = EDir) ∨ fs_tree s !! q = Some e).
Proof.
  intros Ht Hv. unfold lookup_path. rewrite decide_False by (by apply render_ne).
  rewrite walk_no_symlinks by (intros ? ? H; by destruct (Ht _ _ H) as (_ & _ & Hl); eapply Hl).
  rewrite components_render, walk_unfold by done.
  assert (∀ cur, walk MAXSYMLINKS (fs_tree s) false cur (lexical q) = WFound q' e →
    q' = cur ++ q ∧ ((q = [] ∧ e = EDir) ∨ fs_tree s !! (cur ++ q) = Some e)) as Hw; [|apply (Hw [])].
  clear Hv. induction q as [|n q IH]; intros cur; rewrite walk_unfold.
  - intros [= <- <-]. rewrite app_nil_r. auto.
  - change (lexical (n :: q)) with (Normal n :: lexical q).
    destruct (fs_tree s !! (cur ++ [n])) as [[i| |t]|] eqn:E; rewrite ?E.
    + destruct q; [|done]. intros [= <- <-]. auto.
    + intros [-> H]%IH. rewrite <- app_assoc in *. split; [done|right].
      by destruct H as [[-> ->]|H].
    + by destruct (Ht _ _ E) as (_ & _ & Hl); destruct (Hl t).
    + by destruct q.
Qed.

(** What an entry of a directory that was read can be. *)
Lemma read_names s r s' q names :
  calm s → Forall valid_name q → ev_step (ReadDir (render q)) s r s' → r = Ok names →
  Forall valid_name names.
Proof.
  intros Ht Hv Hs ->. inversion Hs as [Hr Hs'|]; clear Hs. cbn [exec] in Hr, Hs'.
  destruct (lookup_path s true (render q)) as [q' [i| |l]| |] eqn:E; simplify_eq/=.
  apply lookup_calm in E as [-> _]; [|done..]. apply list.Forall_forall. intros n [e He]%children_spec.
  apply Ht in He as (Hn & _). apply Forall_app in Hn as [_ Hn]. by inversion Hn.
Qed.

Lemma stat_depth s r s' q ft :
  calm s → q ≠ [] → Forall valid_name q → ev_step (SymlinkStat (render q)) s r s' → r = Ok ft →
  length q ≤ d.
Proof.
  intros Ht Hq Hv Hs ->. inversion Hs as [Hr Hs'|]; clear Hs. cbn [exec] in Hr, Hs'.
  destruct (lookup_path s false (render q)) as [q' e| |] eqn:E; simplify_eq/=.
  apply lookup_calm in E as [-> [[? _]|H]]; [done| |done..]. by apply Ht in H as (_ & ? & _).
Qed.

Section sweep.
Context (retention qttl sttl now : Z) (dry : bool).
Abbreviation visit := (visit retention qttl sttl now dry).
Abbreviation ends p := (ensures calm only_removes p is_Some).

Lemma visit_file_ends in_q p rep : ends (visit_file retention qttl sttl now dry in_q p rep).
Proof.
  unfold visit_file, older_than. cbn. split; [done|]. intros s r s' _ _.
  match goal with |- ensures _ _ (if ?x then _ else _) _ => destruct x end; cbn; [|eauto].
  destruct dry; cbn; [eauto|]. split; [done|]. intros s1 r1 s1' _ _. eauto.
Qed.

Lemma ends_rule :
  sweep_rule retention qttl sttl now dry calm only_removes (λ q, length q ≤ d) is_Some.
Proof.
  split; try done.
  - by intros T [].
  - intros q s r s' names. by apply read_names.
  - intros q n s r s' ft Hs Hv. apply stat_depth; [done|by destruct q|done].
  - intros. apply visit_file_ends.
Qed.

Lemma visit_ends fuel q rep :
  Forall valid_name q → d < length q + fuel → 0 < fuel → ends (visit fuel (render q) rep).
Proof.
  revert q rep. induction fuel as [|fuel IH]; intros q rep Hv Hd H0; [lia|].
  eapply visit_promises; [apply ends_rule|done|]. cbn beta. intros n rep1 Hn Hl.
  apply IH; [apply Forall_app; auto|..]; rewrite length_app in *; cbn in *; lia.
Qed.
End sweep.
End tame.

(** ** Properties *)

(** C24. The sweep ends, with a report or an error: on an archive no deeper than
    [d] its recursion never needs more than the fuel for that depth, whichever
    operations fail, in both modes, and also while other programs create, change
    and remove entries between its operations, as long as the archive stays within
    that depth. *)
Theorem sweep_terminates retention qttl sttl now dry d fuel q :
  Forall valid_name q → d < length q + fuel → 0 < fuel →
  ensures (λ s, tame d (fs_tree s)) only_removes
    (sweep retention qttl sttl now dry fuel (render q)) is_Some ∧
  ∀ w, tame d (fs_tree (w_fs w)) →
    ∃ r, (run (sweep retention qttl sttl now dry fuel (render q)) w).1 = Some r.
Proof.
  intros Hv Hd H0.
  assert (ensures (λ s, tame d (fs_tree s)) only_removes
    (sweep retention qttl sttl now dry fuel (render q)) is_Some) as He by (by apply visit_ends).
  split; [done|]. intros w Hw.
  by eapply (ensures_run (λ s, tame d (fs_tree s)) only_removes); [apply calm_step|exact He|].
Qed.

(** C34. The search for an existing ancestor ends: the fuel [contained] gives it,
    one round per component, is enough, for any larger fuel gives the same answer
    and does the same operations, whichever of them fail. *)
Theorem contained_terminates base_c candidate fuel w :
  contained_fuel candidate ≤ fuel →
  run (contained_loop fuel base_c candidate "") w =
  run (contained_loop (contained_fuel candidate) base_c candidate "") w.
Proof. intros Hf. symmetry. apply contained_loop_fuel; [unfold contained_fuel; lia|done]. Qed.
