(* ===== verification/Server.v ===== *)
(** [server.rs]: start-up, configuration reload and privilege dropping.

    The FTP server library is a parameter: [build_server] answers the settings
    it hands to the library's builder.  The running server's own state is the
    account table and the session accountant; [server_step] are the transitions
    the running server makes on them. *)
From stdpp Require Import pretty.
From S2P Require Import Prelude StdPath StdFs Prog FsView Append Paths Crypto Config Account.
From S2P Require Import Limits Auth Store Backend.

Record FailedLoginsPolicy : Type := mkFailedLoginsPolicy {
  flp_max_attempts : Z;
  flp_expires_after_secs : Z
}.

(** What [build_server] configures: the storage generator's recipients and the
    builder's settings.  The lockout blocks by user and address. *)
Record ServerSettings `{AgeLib} : Type := mkServerSettings {
  ss_backend : ReoBackend;
  ss_passive_ports : Z * Z;
  ss_idle_session_timeout : Z;
  ss_failed_logins : FailedLoginsPolicy;
  ss_passive_host : option string;
  ss_greeting : option string;
  ss_ftps : option (string * string)
}.

Arguments mkServerSettings {_}.
Arguments ServerSettings {_}.

(** The state the running server shares between its tasks. *)
Record Running : Type := mkRunning { r_accounts : Accounts; r_sessions : SessionState }.

Record UserIds : Type := mkUserIds { uid : Z; gid : Z }.

Section server.
Context `{AgeLib} (toml : string → result Config string).

Definition server_settings (cfg : Config) (rs : option (list Recipient)) : ServerSettings :=
  mkServerSettings (mkReoBackend rs) (passive_ports (server cfg)) (idle_timeout_secs (limits cfg))
    (mkFailedLoginsPolicy (max_attempts (failed_login_lockout (limits cfg)))
       (window_secs (failed_login_lockout (limits cfg))))
    (passive_host (server cfg)) (greeting (server cfg))
    (match tls_cert (server cfg), tls_key (server cfg) with
     | Some c, Some k => Some (c, k)
     | _, _ => None
     end).

Definition build_server {S} (build : ServerSettings → result S string) (cfg : Config)
    : result S string :=
  let? rs := match encryption cfg with
             | Some enc =>
                 match parse_recipients (recipients enc) with
                 | Ok rs => Ok (Some rs)
                 | Err e => Err ("encryption recipients: " +:+ crypto_error_to_string e)
                 end
             | None => Ok None
             end in
  match build (server_settings cfg rs) with
  | Ok s => Ok s
  | Err _ => Err "libunftp ServerBuilder::build failed"
  end.

Fixpoint ensure_dirs (root : string) (cams : list CameraCfg) : prog (io unit) :=
  match cams with
  | [] => Ret (Ok tt)
  | cam :: rest =>
      try! _ := create_dir_all (join root (cam_name cam)) in
      ensure_dirs root rest
  end.

Definition ensure_home_dirs (cfg : Config) : prog (io unit) :=
  ensure_dirs (root (archive cfg)) (camera cfg).

(** Reload: the new tables are stored only after the file was read, parsed,
    validated and the home directories were made. *)
Definition reload_config (path : string) (st : Running) : prog (result unit string * Running) :=
  let! r := load toml path in
  match r with
  | Err e => Ret (Err ("reload: " +:+ config_error_to_string e), st)
  | Ok cfg =>
      let! r := ensure_home_dirs cfg in
      match r with
      | Err e => Ret (Err ("reload: ensure_home_dirs: " +:+ io_to_string e), st)
      | Ok _ =>
          Ret (Ok tt, mkRunning (build cfg)
                 (set_limits (max_connections (limits cfg))
                    (max_connections_per_account (limits cfg)) (r_sessions st)))
      end
  end.

(** [run] up to the point where the server listens: the home directories, the
    initial state, the server and its address. *)
Definition start {S} (lib_build : ServerSettings → result S string) (cfg : Config)
    : prog (result (S * Running * string) string) :=
  let! r := ensure_home_dirs cfg in
  match r with
  | Err _ => Ret (Err "failed to create camera home directories")
  | Ok _ =>
      let st := mkRunning (build cfg)
        (new (max_connections (limits cfg)) (max_connections_per_account (limits cfg))) in
      Ret (let? srv := build_server lib_build cfg in
           Ok (srv, st, listen (server cfg) +:+ ":" +:+ pretty (port (server cfg))))
  end.

(** The transitions of the running server: a SIGHUP, a tick of the reaper, an
    authentication, and a presence event; the clock moves on. *)
Inductive server_step `{Argon2} : Z * Running → Z * Running → Prop :=
| s_reload path w now st :
    server_step (now, st) (now, (run (reload_config path st) w).1.2)
| s_reap now now' st :
    (now ≤ now')%Z →
    server_step (now, st)
      (now', mkRunning (r_accounts st) (reap now' (from_secs SESSION_TTL_SECS) (r_sessions st)).2)
| s_login now now' u creds st :
    (now ≤ now')%Z →
    server_step (now, st)
      (now', mkRunning (r_accounts st)
               (authenticate now' (r_accounts st) u creds (r_sessions st)).2)
| s_presence now e u st :
    server_step (now, st)
      (now, mkRunning (r_accounts st) (receive_presence_event e u (r_sessions st))).
End server.

(** ** Privileges *)

Section privileges.
Context (from_name : string → result (option UserIds) string).

Definition resolve_user (name : string) : result UserIds string :=
  match from_name name with
  | Ok (Some u) => Ok u
  | Ok None => Err ("user '" +:+ name +:+ "' not found")
  | Err e => Err ("os error looking up user '" +:+ name +:+ "': " +:+ e)
  end.

(** The process identity, and the calls that change it: [setgid] and [setuid]
    answer an error message or the changed identity. *)
Context (setgid setuid : Z → UserIds → result UserIds string).

Definition drop_privileges (name : string) (me : UserIds) : result unit string * UserIds :=
  match resolve_user name with
  | Err e => (Err e, me)
  | Ok ids =>
      match setgid (gid ids) me with
      | Err e => (Err ("setgid to " +:+ pretty (gid ids) +:+ " failed: " +:+ e), me)
      | Ok me1 =>
          match setuid (uid ids) me1 with
          | Err e => (Err ("setuid to " +:+ pretty (uid ids) +:+ " failed: " +:+ e), me1)
          | Ok me2 => (Ok tt, me2)
          end
      end
  end.
End privileges.

(** ** Lemmas *)

Section lemmas.
Context `{AgeLib} (toml : string → result Config string).

Lemma reload_cases path st w r st' w' :
  run (reload_config toml path st) w = ((r, st'), w') →
  (st' = st ∧ is_ok r = false) ∨
  (r = Ok tt ∧ ∃ cfg, valid_config cfg ∧ st' = mkRunning (build cfg)
     (set_limits (max_connections (limits cfg)) (max_connections_per_account (limits cfg)) (r_sessions st))).
Proof.
  unfold reload_config. rewrite run_bind.
  destruct (run (load toml path) w) as [[cfg|e] w1] eqn:El; cbn [fst snd]; [|by intros [= <- <- _]; left].
  rewrite run_bind. destruct (run (ensure_home_dirs cfg) w1) as [[u|e] w2]; cbn.
  - intros [= <- <- _]. right. split; [done|]. exists cfg. split; [|done]. by eapply load_valid.
  - intros [= <- <- _]. by left.
Qed.

Lemma ensure_dirs_ok q cams s :
  plain_fs s → Forall valid_name q → (∀ c, c ∈ cams → valid_name (cam_name c)) →
  (∀ c q' i, c ∈ cams → q' `prefix_of` q ++ [cam_name c] → fs_tree s !! q' ≠ Some (EFile i)) →
  ∃ s', run_ok (ensure_dirs (render q) cams) s = (Ok tt, s') ∧ plain_fs s' ∧
    (∀ d, is_dir (fs_tree s) d → is_dir (fs_tree s') d) ∧
    (∀ q', file_at s' q' = file_at s q') ∧
    ∀ c, c ∈ cams → is_dir (fs_tree s') (q ++ [cam_name c]).
Proof.
  revert s. induction cams as [|c cams IH]; intros s Hp Hq Hv Hf; cbn [ensure_dirs].
  { exists s. split_and!; try done. intros c Hc. by apply elem_of_nil in Hc. }
  destruct (create_dir_all_ok (q ++ [cam_name c]) s Hp) as (s1 & Hr & Hd1 & Hm).
  { apply Forall_app. split; [done|]. constructor; [apply Hv; by left|done]. }
  { intros q' i. apply Hf. by left. }
  assert (∀ d, is_dir (fs_tree s) d → is_dir (fs_tree s1) d) as Hmono.
  { intros d [->|H']; [by left|]. right.
    destruct (dm_tree _ _ _ Hm d) as [->|(? & _)]; [done|congruence]. }
  destruct (IH s1) as (s2 & Hr2 & Hp2 & Hd2 & Hf2 & Hc2); [apply Hm|done|..].
  - intros c' Hc. apply Hv. by right.
  - intros c' q' i Hc Hpre. destruct (dm_tree _ _ _ Hm q') as [->|(_ & -> & _)]; [|done].
    apply (Hf c'); [by right|done].
  - exists s2. split_and!; [|done|by auto| |].
    + rewrite run_ok_bind, <- render_snoc, Hr. done.
    + intros q'. rewrite Hf2. by eapply dirs_made_file_at.
    + intros c' [->|Hc]%elem_of_cons; auto.
Qed.
End lemmas.

Lemma reload_limits `{AgeLib} toml path st w now :
  (∀ s c, toml s = Ok c → 0 ≤ max_connections (limits c) ≤ u32_max)%Z →
  inv now (r_sessions st) → inv now (r_sessions (run (reload_config toml path st) w).1.2).
Proof.
  intros Ht Hi. unfold reload_config. rewrite run_bind.
  destruct (run (load toml path) w) as [[cfg|e] w1] eqn:El; cbn [fst snd]; [|done].
  rewrite run_bind. destruct (run (ensure_home_dirs cfg) w1) as [[u|e] w2]; cbn; [|done].
  destruct (load_parsed _ _ _ _ _ El) as [t Hpt].
  by apply (inv_tstep (now, r_sessions st) (now, _) (t_limits _ _ _ _ (Ht _ _ Hpt))).
Qed.

Lemma server_step_inv `{AgeLib} `{Argon2} toml c c' :
  (∀ s c, toml s = Ok c → 0 ≤ max_connections (limits c) ≤ u32_max)%Z →
  server_step toml c c' → inv c.1 (r_sessions c.2) → inv c'.1 (r_sessions c'.2).
Proof.
  intros Ht [path w now st|now now' st Hle|now now' u creds st Hle|now e u st]; cbn [fst snd r_sessions]; intros Hi.
  - by apply reload_limits.
  - by eapply inv_reap, inv_later.
  - destruct (authenticate now' (r_accounts st) u creds (r_sessions st)) as [r s'] eqn:E.
    apply authenticate_inv in E as [(a & _ & _ & -> & _)|(-> & _)]; cbn.
    + by eapply inv_try_admit, inv_later.
    + by eapply inv_later.
  - apply (inv_tstep _ _ (t_presence now e u _) Hi).
Qed.

(** ** Properties *)

Section properties.
Context `{AgeLib} `{Argon2} (toml : string → result Config string).

(** C27. Reloading is fail-safe: whatever fails (the file unreadable, not TOML,
    invalid, a home directory not creatable), a reload that answers an error
    leaves the account table and the accountant exactly as they were; one that
    succeeds installs the accounts of a valid configuration and its limits,
    keeping every running session counted. *)
Theorem reload_fail_safe path st w r st' w' :
  run (reload_config toml path st) w = ((r, st'), w') →
  (is_ok r = false → st' = st) ∧
  (is_ok r = true → ∃ cfg, valid_config cfg ∧ r_accounts st' = build cfg ∧
     max_global (r_sessions st') = max_connections (limits cfg) ∧
     max_per_account (r_sessions st') = max_connections_per_account (limits cfg) ∧
     per_account (r_sessions st') = per_account (r_sessions st) ∧
     global (r_sessions st') = global (r_sessions st)).
Proof.
  intros [[-> ->]|[-> (cfg & Hv & ->)]]%reload_cases; [done|]. split; [done|]. intros _.
  by exists cfg.
Qed.

(** Start-up leaves every camera with its upload directory: in an archive
    without symbolic links whose root is canonical, with camera names that are
    file names and no regular file in the way, the home of every camera exists
    afterwards, no existing directory was lost and no file was changed. *)
Theorem homes_ready cfg q s :
  plain_fs s → root (archive cfg) = render q → Forall valid_name q →
  (∀ c, c ∈ camera cfg → valid_name (cam_name c)) →
  (∀ c q' i, c ∈ camera cfg → q' `prefix_of` q ++ [cam_name c] → fs_tree s !! q' ≠ Some (EFile i)) →
  ∃ s', run_ok (ensure_home_dirs cfg) s = (Ok tt, s') ∧ plain_fs s' ∧
    (∀ q', file_at s' q' = file_at s q') ∧
    ∀ c, c ∈ camera cfg → ∃ home, role (camera_account cfg c) = Uploader home ∧
      lookup_path s' true home = WFound (q ++ [cam_name c]) EDir.
Proof.
  intros Hp Hr Hq Hv Hf.
  destruct (ensure_dirs_ok q (camera cfg) s Hp Hq Hv Hf) as (s' & Hrun & Hp' & _ & Hfile & Hd).
  exists s'. unfold ensure_home_dirs. rewrite Hr. split; [done|]. split; [done|]. split; [done|].
  intros c Hc. eexists. split; [done|]. rewrite Hr, <- render_snoc.
  apply lookup_dir_at; [done|]. by apply Hd.
Qed.

(** The accountant's invariant holds in every state the running server can
    reach from start-up, through any sequence of reloads, reaper ticks, logins
    and presence events, provided configured limits are 32-bit numbers. *)
Theorem server_invariant cfg now now' st :
  (∀ s c, toml s = Ok c → 0 ≤ max_connections (limits c) ≤ u32_max)%Z →
  (0 ≤ max_connections (limits cfg) ≤ u32_max)%Z →
  rtc (server_step toml)
    (now, mkRunning (build cfg)
       (new (max_connections (limits cfg)) (max_connections_per_account (limits cfg))))
    (now', st) →
  inv now' (r_sessions st).
Proof.
  intros Ht Hm Hr.
  assert (∀ c c', rtc (server_step toml) c c' → inv c.1 (r_sessions c.2) → inv c'.1 (r_sessions c'.2)) as Hall.
  { induction 1 as [c|c c1 c2 H1 _ IH]; [done|]. intros Hi. by eapply IH, server_step_inv. }
  apply (Hall _ _ Hr). by apply inv_new.
Qed.

(** The group is changed before the user, so an identity is never left with
    the old group and the new user: after any failure the process either kept
    its identity or has exactly the effect of a successful [setgid]; success
    is both calls in that order. *)
Theorem drop_privileges_order from_name setgid setuid name me r me' :
  drop_privileges from_name setgid setuid name me = (r, me') →
  match r with
  | Ok _ => ∃ ids me1, from_name name = Ok (Some ids) ∧ setgid (gid ids) me = Ok me1 ∧
      setuid (uid ids) me1 = Ok me'
  | Err _ => me' = me ∨ ∃ ids, from_name name = Ok (Some ids) ∧ setgid (gid ids) me = Ok me'
  end.
Proof.
  unfold drop_privileges, resolve_user.
  destruct (from_name name) as [[ids|]|e] eqn:Ef; [|by intros [= <- <-]; left..].
  destruct (setgid (gid ids) me) as [me1|e] eqn:Eg; [|by intros [= <- <-]; left].
  destruct (setuid (uid ids) me1) as [me2|e] eqn:Eu; intros [= <- <-]; eauto 10.
Qed.
End properties.
