(* ===== verification/System.v ===== *)
(** The running server as one system: connections that log in and make requests
    (auth.rs, presence.rs, backend.rs), the reload task and the reaper of
    [server::run] (server.rs), over one file system, one account table, one
    accountant and one clock.

    Nothing in here is new code: each transition is an operation of a component,
    placed where the tasks of the server can interleave.  A login reads the
    account table when it starts, is admitted later and reads the table again
    for its details; a reload reads the configuration, makes directories, swaps
    the table and sets the limits in four separate moments; requests are programs
    of [Backend.serve] whose operations interleave with everything else. *)
From stdpp Require Import relations.
From S2P Require Import Prelude StdPath StdFs Prog FsView Rely Append Paths Crypto Config Account.
From S2P Require Import Limits Auth Store Backend Immutable Confine Server.

(** A login in progress: the table it loaded, with what the client presented; or
    the principal that was admitted and has no user details yet. *)
Inductive Login : Type :=
| Checking (accounts : Accounts) (u : string) (creds : Credentials)
| Granted (p : Principal).

(** The task that answers SIGHUP. *)
Inductive Reloading : Type :=
| Waiting
| Reading (p : prog (result Config string))
| Swapped (cfg : Config).

Section system.
Context `{AgeLib} `{Argon2} (toml : string → result Config string).

Record System : Type := mkSystem {
  sy_clock : Z;
  sy_fs : Fs;
  sy_running : Running;
  sy_logins : list Login;
  sy_sessions : list ReoUser;
  sy_requests : list (prog (result Answer Storage.Error));
  sy_reload : Reloading
}.

(** What a reload does to the file system, answering the configuration it will
    put in force; [reload_config] up to its two stores. *)
Definition reload_io (path : string) : prog (result Config string) :=
  let! r := load toml path in
  match r with
  | Err e => Ret (Err ("reload: " +:+ config_error_to_string e))
  | Ok cfg =>
      let! r := ensure_home_dirs cfg in
      match r with
      | Err e => Ret (Err ("reload: ensure_home_dirs: " +:+ io_to_string e))
      | Ok _ => Ret (Ok cfg)
      end
  end.

Definition store_accounts (cfg : Config) (st : Running) : Running :=
  mkRunning (build cfg) (r_sessions st).

Definition store_limits (cfg : Config) (st : Running) : Running :=
  mkRunning (r_accounts st)
    (set_limits (max_connections (limits cfg)) (max_connections_per_account (limits cfg))
       (r_sessions st)).

Definition on_sessions (f : SessionState → SessionState) (st : Running) : Running :=
  mkRunning (r_accounts st) (f (r_sessions st)).

(** The system as [run] starts it: nobody is connected. *)
Definition started (cfg : Config) (t : Z) (s : Fs) : System :=
  mkSystem t s
    (mkRunning (build cfg) (new (max_connections (limits cfg)) (max_connections_per_account (limits cfg))))
    [] [] [] Waiting.

(** The environment: what the clients can present, the texts the administrator
    ever puts into the configuration file, and the file's place. *)
Context (b : ReoBackend) (path : string) (qc : list string).
Context (presented : string → Credentials → Prop) (editions : bytes → Prop).

(** What the users ask for, and the requests, by their number, whose operations may
    fail for outside reasons. *)
Context (asked : ReoUser → Request → Prop) (fails : nat → Prop).

Inductive sys_step : System → System → Prop :=
| y_connect u creds t s st ls us ps rl :
    presented u creds →
    sys_step (mkSystem t s st ls us ps rl)
             (mkSystem t s st (ls ++ [Checking (r_accounts st) u creds]) us ps rl)
| y_check i acc u creds t s st ls us ps rl :
    ls !! i = Some (Checking acc u creds) →
    sys_step (mkSystem t s st ls us ps rl)
             (mkSystem t s (mkRunning (r_accounts st) (authenticate t acc u creds (r_sessions st)).2)
                (match (authenticate t acc u creds (r_sessions st)).1 with
                 | Ok p => <[i := Granted p]> ls
                 | Err _ => delete i ls
                 end) us ps rl)
| y_details i p t s st ls us ps rl :
    ls !! i = Some (Granted p) →
    sys_step (mkSystem t s st ls us ps rl)
             (mkSystem t s st (delete i ls)
                (match provide_user_detail (r_accounts st) p with
                 | Ok user => us ++ [user]
                 | Err _ => us
                 end) ps rl)
| y_request i user r t s st ls us ps rl :
    us !! i = Some user → asked user r →
    sys_step (mkSystem t s st ls us ps rl) (mkSystem t s st ls us (ps ++ [serve b user r]) rl)
| y_operate i T (e : Sys T) k r t s s' st ls us ps rl :
    ps !! i = Some (Vis e k) → own_step (fails i) e s r s' →
    sys_step (mkSystem t s st ls us ps rl) (mkSystem t s' st ls us (<[i := k r]> ps) rl)
| y_logout i user t s st ls us ps rl :
    us !! i = Some user →
    sys_step (mkSystem t s st ls us ps rl)
             (mkSystem t s (on_sessions (receive_presence_event LoggedOut (login user)) st)
                ls (delete i us) ps rl)
| y_lost i t s st ls us ps rl :
    sys_step (mkSystem t s st ls us ps rl) (mkSystem t s st ls (delete i us) ps rl)
| y_reap t s st ls us ps rl :
    sys_step (mkSystem t s st ls us ps rl)
             (mkSystem t s (on_sessions (λ ss, (reap t (from_secs SESSION_TTL_SECS) ss).2) st)
                ls us ps rl)
| y_hangup t s st ls us ps :
    sys_step (mkSystem t s st ls us ps Waiting) (mkSystem t s st ls us ps (Reading (reload_io path)))
| y_reading T (e : Sys T) k r t s s' st ls us ps :
    ev_step e s r s' →
    sys_step (mkSystem t s st ls us ps (Reading (Vis e k))) (mkSystem t s' st ls us ps (Reading (k r)))
| y_refused e t s st ls us ps :
    sys_step (mkSystem t s st ls us ps (Reading (Ret (Err e)))) (mkSystem t s st ls us ps Waiting)
| y_swap cfg t s st ls us ps :
    sys_step (mkSystem t s st ls us ps (Reading (Ret (Ok cfg))))
             (mkSystem t s (store_accounts cfg st) ls us ps (Swapped cfg))
| y_limits cfg t s st ls us ps :
    sys_step (mkSystem t s st ls us ps (Swapped cfg))
             (mkSystem t s (store_limits cfg st) ls us ps Waiting)
| y_edit txt i t s st ls us ps rl :
    editions txt → fs_tree s !! qc = Some (EFile i) →
    sys_step (mkSystem t s st ls us ps rl) (mkSystem t (set_content i txt s) st ls us ps rl)
| y_clock t' now t s st ls us ps rl :
    (t ≤ t')%Z → (fs_now s ≤ now)%Z →
    sys_step (mkSystem t s st ls us ps rl) (mkSystem t' (set_now now s) st ls us ps rl).

Definition sys_steps := rtc sys_step.

(** The configurations a reload may put in force. *)
Definition may_load (cfg : Config) : Prop :=
  ∃ txt, editions txt ∧ validate cfg = Ok tt ∧
    parse_str toml (String.string_of_list_byte txt) = Ok cfg.

(** The session of [u]: its password was accepted over a channel its account
    allowed, under a table of one configuration of [C], and its role is the one a
    table of [C] gives it. *)
Definition entitled (C : Config → Prop) (user : ReoUser) : Prop :=
  ∃ cfg cfg' u creds a a',
    C cfg ∧ C cfg' ∧ presented u creds ∧
    credentials_ok (build cfg) u creds a ∧ channel_ok a creds ∧
    Account.get (build cfg') u = Some a' ∧ user = mkReoUser (username a') (role a') (require_tls a').

(** ** Invariants of the system

    The general form: a property [J] of the file system that the operations of
    [P] keep, when every request a session may make, and the reload, perform only
    operations of [P] while [J] holds.  Every configuration put in force is in
    [C]. *)
Section invariant.
Context (J : Fs → Prop) (P : ∀ T, Sys T → Prop) (C : Config → Prop).

Definition login_ok (l : Login) : Prop :=
  match l with
  | Checking acc u creds => (∃ cfg, C cfg ∧ acc = build cfg) ∧ presented u creds
  | Granted p =>
      ∃ cfg creds a, C cfg ∧ presented (principal_username p) creds ∧
        credentials_ok (build cfg) (principal_username p) creds a ∧ channel_ok a creds
  end.

Definition reload_ok (rl : Reloading) : Prop :=
  match rl with
  | Waiting => True
  | Reading p => ensures J P p (λ r, ∀ cfg, r = Ok cfg → C cfg)
  | Swapped cfg => C cfg
  end.

Record sys_ok (y : System) : Prop := {
  so_fs : J (sy_fs y);
  so_accounts : ∃ cfg, C cfg ∧ r_accounts (sy_running y) = build cfg;
  so_logins : Forall login_ok (sy_logins y);
  so_sessions : Forall (entitled C) (sy_sessions y);
  so_requests : Forall (λ p, ensures J P p (λ _, True)) (sy_requests y);
  so_reload : reload_ok (sy_reload y)
}.

Record contract : Prop := {
  ct_step T (e : Sys T) s r s' : P T e → ev_step e s r s' → J s → J s';
  ct_clock now s : J s → J (set_now now s);
  ct_edit txt i s : editions txt → fs_tree s !! qc = Some (EFile i) → J s → J (set_content i txt s);
  ct_request user r : entitled C user → asked user r → ensures J P (serve b user r) (λ _, True);
  ct_reload : ensures J P (reload_io path) (λ r, ∀ cfg, r = Ok cfg → C cfg)
}.

Lemma started_ok cfg t s : C cfg → J s → sys_ok (started cfg t s).
Proof. intros Hc Hj. split; cbn; eauto. Qed.

Lemma checked_ok acc u creds t ss p :
  login_ok (Checking acc u creds) → (authenticate t acc u creds ss).1 = Ok p → login_ok (Granted p).
Proof.
  intros [(cfg & Hc & ->) Hp] Ha. destruct (authenticate t (build cfg) u creds ss) as [r ss'] eqn:E.
  cbn in Ha. subst. apply authenticate_inv in E as [(a & Hcr & Hch & _ & Hr)|(_ & Hr & _)]; [|done].
  destruct (take_slot t u ss).1; simplify_eq. exists cfg, creds, a. auto.
Qed.

Lemma detailed_ok cfg p user :
  login_ok (Granted p) → C cfg → provide_user_detail (build cfg) p = Ok user → entitled C user.
Proof.
  intros (cfg' & creds & a & Hc' & Hp & Hcr & Hch) Hc Hd. unfold provide_user_detail in Hd.
  destruct (Account.get (build cfg) (principal_username p)) as [a'|] eqn:E; simplify_eq.
  exists cfg', cfg, (principal_username p), creds, a, a'. auto 10.
Qed.

Lemma sys_step_ok y y' : contract → sys_step y y' → sys_ok y → sys_ok y'.
Proof.
  intros Hct Hs [Hj (cfg0 & Hc0 & Ha) Hl Hu Hr Hrl].
  pose proof own_ev as Hown.
  destruct Hs; cbn in *; split; cbn; eauto using Forall_delete, Forall_app_2, ct_clock, ct_edit.
  - apply Forall_app_2; [done|]. repeat constructor; [by exists cfg0|done].
  - destruct (authenticate _ _ _ _ _).1 as [p|] eqn:E; [|by apply Forall_delete].
    apply Forall_insert; [done|]. eapply checked_ok; [|done]. by eapply Forall_lookup_1 in Hl.
  - rewrite Ha. destruct (provide_user_detail (build cfg0) p) as [user|] eqn:E; [|done].
    apply Forall_app_2; [done|]. repeat constructor. eapply detailed_ok; [|done..].
    by eapply Forall_lookup_1 in Hl.
  - apply Forall_app_2; [done|]. repeat constructor. apply (ct_request Hct); [|done].
    by eapply Forall_lookup_1 in Hu.
  - pose proof Hr as Hv. eapply Forall_lookup_1 in Hv; [|done]. destruct Hv. eapply ct_step; eauto.
  - pose proof Hr as Hv. eapply Forall_lookup_1 in Hv; [|done]. destruct Hv. apply Forall_insert; eauto.
  - apply (ct_reload Hct).
  - destruct Hrl as [He _]. by eapply ct_step.
  - destruct Hrl as [_ Hk]. eauto.
Qed.

Lemma sys_steps_ok y y' : contract → sys_steps y y' → sys_ok y → sys_ok y'.
Proof. intros Hct. induction 1 as [y|y y1 y2 H1 _ IH]; [done|]. intros Ho. by eapply IH, sys_step_ok. Qed.
End invariant.

(** A stronger property of the file system leaves the promises in place. *)
Lemma sys_ok_under (J J' : Fs → Prop) P C y :
  (∀ s, J s → J' s) → sys_ok J' P C y → J (sy_fs y) → sys_ok J P C y.
Proof.
  intros HJ [H1 H2 H3 H4 H5 H6] Hj. split; try done.
  - eapply Forall_impl; [done|]. intros p. by apply ensures_under.
  - destruct (sy_reload y); try done. by eapply ensures_under.
Qed.

(** *** What a reload does *)

Lemma ensure_dirs_ops (P : ∀ T, Sys T → Prop) r cams :
  (∀ c, c ∈ cams → all_ops P (create_dir_all (join r (cam_name c)))) → all_ops P (ensure_dirs r cams).
Proof.
  induction cams as [|c cams IH]; intros Hc; cbn [ensure_dirs]; [done|].
  apply all_ops_bind; [apply Hc; by left|]. intros [u|k]; [|done]. apply IH. intros c' Hc'. apply Hc. by right.
Qed.

(** The directories of a configuration it just loaded, and its answer. *)
Lemma reload_io_ensures (J : Fs → Prop) (P : ∀ T, Sys T → Prop) (C : Config → Prop) :
  P _ (ReadToString path) →
  (∀ s r s' str cfg, J s → ev_step (ReadToString path) s r s' → r = Ok str →
     parse_str toml str = Ok cfg → validate cfg = Ok tt →
     C cfg ∧ all_ops P (ensure_home_dirs cfg)) →
  ensures J P (reload_io path) (λ r, ∀ cfg, r = Ok cfg → C cfg).
Proof.
  intros Hr Hc. unfold reload_io, load. cbn. split; [done|]. intros s r s' Hj Hs.
  destruct r as [str|k]; cbn; [|done]. specialize (Hc s (Ok str) s' str).
  destruct (parse_str toml str) as [cfg|] eqn:Ep; cbn; [|done].
  destruct (validate cfg) as [[]|] eqn:Ev; cbn; [|done].
  destruct (Hc cfg Hj Hs eq_refl eq_refl Ev) as [HC Ho].
  apply (ensures_bind _ _ _ _ (λ _, True)); [by apply ensures_ops|].
  intros [u|k] _; cbn; [|done]. by intros ? [= <-].
Qed.

Lemma ensure_home_dirs_client cfg : all_ops client_op (ensure_home_dirs cfg).
Proof. apply ensure_dirs_ops. intros c _. apply create_dir_all_client. Qed.

Lemma reload_io_client J (C : Config → Prop) :
  (∀ str cfg, parse_str toml str = Ok cfg → valid_config cfg → C cfg) →
  ensures J client_op (reload_io path) (λ r, ∀ cfg, r = Ok cfg → C cfg).
Proof.
  intros HC. apply reload_io_ensures; [done|]. intros s r s' str cfg _ _ _ Hp Hv%validate_iff.
  split; [by eapply HC|apply ensure_home_dirs_client].
Qed.

(** [reload_config] is [reload_io] and the two stores, in one go. *)
Lemma reload_config_io st w :
  run (reload_config toml path st) w =
    match run (reload_io path) w with
    | (Ok cfg, w') => ((Ok tt, store_limits cfg (store_accounts cfg st)), w')
    | (Err e, w') => ((Err e, st), w')
    end.
Proof.
  unfold reload_config, reload_io. rewrite !run_bind.
  destruct (run (load toml path) w) as [[cfg|e] w1]; cbn [fst snd]; [|done].
  rewrite !run_bind. by destruct (run (ensure_home_dirs cfg) w1) as [[u|k] w2].
Qed.

(** *** The administrator's edits *)

Lemma plain_edit txt i s : plain_fs s → plain_fs (set_content i txt s).
Proof. intros [[] Hl]. by split. Qed.

(** ** The contracts *)

Lemma wf_contract (C : Config → Prop) :
  (∀ str cfg, parse_str toml str = Ok cfg → valid_config cfg → C cfg) →
  contract plain_fs client_op C.
Proof.
  intros HC. split.
  - intros T e s r s'. apply client_plain.
  - intros now s. apply plain_set_now.
  - intros txt i s _ _. apply plain_edit.
  - intros user r _ _. apply ensures_ops, serve_client.
  - by apply reload_io_client.
Qed.

Lemma sealed_contract q i ino :
  qc ≠ q → contract (λ s, plain_fs s ∧ sealed q i ino s) client_op (λ _, True).
Proof.
  intros Hq. split.
  - intros T e s r s'. apply client_step.
  - intros now s [Hp []]. split; [by apply plain_set_now|by split].
  - intros txt j s _ Hj [Hp Hs]. split; [by apply plain_edit|]. apply sealed_content; [done|].
    intros ->. by apply (se_names _ _ _ _ Hs) in Hj.
  - intros user r _ _. apply ensures_ops, serve_client.
  - by apply reload_io_client.
Qed.

Lemma inv_system_step J P C y y' :
  (∀ cfg, C cfg → 0 ≤ max_connections (limits cfg) ≤ u32_max)%Z →
  sys_step y y' → sys_ok J P C y → inv (sy_clock y) (r_sessions (sy_running y)) →
  inv (sy_clock y') (r_sessions (sy_running y')).
Proof.
  intros Hm Hs Ho Hi. destruct Hs; cbn in *; try done.
  - destruct (authenticate t acc u creds (r_sessions st)) as [r s'] eqn:E.
    apply authenticate_inv in E as [(a & _ & _ & -> & _)|(-> & _)]; [by apply inv_try_admit|done].
  - by apply inv_on_logout.
  - by apply inv_reap.
  - by apply (inv_tstep (t, r_sessions st) (t, _) (t_limits _ _ _ _ (Hm _ (so_reload _ _ _ _ Ho)))).
  - by eapply inv_later.
Qed.

Lemma inv_system_steps J P C y y' :
  (∀ cfg, C cfg → 0 ≤ max_connections (limits cfg) ≤ u32_max)%Z → contract J P C →
  sys_steps y y' → sys_ok J P C y → inv (sy_clock y) (r_sessions (sy_running y)) →
  inv (sy_clock y') (r_sessions (sy_running y')).
Proof.
  intros Hm Hct. induction 1 as [y|y y1 y2 H1 _ IH]; [done|]. intros Ho Hi.
  eapply IH; [by eapply sys_step_ok|by eapply inv_system_step].
Qed.

(** *** Nobody enters a region *)

Section guarded.
Context (R : list string → Prop) (s0 : Fs).

(** The region together with the configuration file. *)
Definition watched (q : list string) : Prop := R q ∨ q = qc.

(** [s0] with the administrator's edits made, and nothing else. *)
Record edited (sb : Fs) : Prop := {
  ed_tree : fs_tree sb = fs_tree s0;
  ed_content q i : R q → fs_tree s0 !! q = Some (EFile i) → content sb i = content s0 i;
  ed_edition i : fs_tree s0 !! qc = Some (EFile i) → editions (content sb i)
}.

Definition guarded (s : Fs) : Prop := ∃ sb, edited sb ∧ intact watched ∅ sb s.

(** The configuration file has a canonical path, is none of the region's files,
    and is nowhere else open or linked. *)
Record config_file : Prop := {
  cf_path : components path = RootDir :: lexical qc;
  cf_valid : Forall valid_name qc;
  cf_region : ¬ R qc;
  cf_private : own_staging s0 qc;
  cf_edition i : fs_tree s0 !! qc = Some (EFile i) → editions (content s0 i)
}.

Context (Hp0 : plain_fs s0) (Hen : enclosed R s0) (Hcf : config_file).

Lemma guarded_start : guarded s0.
Proof.
  exists s0. split; [split; [done|done|apply Hcf]|]. apply enclosed_intact; [done|].
  destruct Hen as [Hn Hf]. split.
  - intros q q' i [Hq| ->] Hi Hi'; [left; by eapply Hn|right].
    by apply (cf_private Hcf _ Hi).
  - intros q i fd h [Hq| ->] Hi Hh; [by eapply Hf|]. intros Hw.
    apply (proj2 (cf_private Hcf _ Hi) _ _ Hh). by destruct h; cbn in *; subst.
Qed.

Lemma confined_op_tree sb T (e : Sys T) :
  fs_tree sb = fs_tree s0 → confined_op watched s0 T e → confined_op watched sb T e.
Proof. intros Ht. destruct e; try done. cbn. unfold free_dir. by rewrite Ht. Qed.

Lemma guarded_step T (e : Sys T) s r s' :
  confined_op watched s0 T e → ev_step e s r s' → guarded s → guarded s'.
Proof.
  intros He Hs (sb & Hed & Hi). exists sb. split; [done|].
  eapply (intact_step _ ∅); [|by apply uses_all|done..]. apply confined_op_tree; [apply Hed|done].
Qed.

Lemma guarded_clock now s : guarded s → guarded (set_now now s).
Proof. intros (sb & Hed & Hi). exists sb. split; [done|]. by apply intact_clock. Qed.

(** The content of inode [i], after writing inode [j]. *)
Lemma content_edit txt j s i : content (set_content j txt s) i = if decide (i = j) then txt else content s i.
Proof.
  unfold content, inode_of. cbn. case_decide as H'; [subst; by rewrite lookup_insert_eq|].
  by rewrite lookup_insert_ne.
Qed.

Lemma guarded_edit txt i s :
  editions txt → fs_tree s !! qc = Some (EFile i) → guarded s → guarded (set_content i txt s).
Proof.
  intros Htxt Hqc (sb & [Ht Hc He] & [Hp [Hd Hen' Hco Hpr Hf]]). exists (set_content i txt sb).
  assert (fs_tree s0 !! qc = Some (EFile i)) as Hq0 by (rewrite <- Ht, <- Hen'; [done|by right]).
  split; [split; [done| |]|split; [by apply plain_edit|split; try done]].
  - intros q j Hq Hj. rewrite content_edit, decide_False; [by eapply Hc|]. intros ->.
    apply (cf_private Hcf _ Hq0) in Hj as ->. by apply (cf_region Hcf).
  - intros j Hj. rewrite content_edit, decide_True; [done|]. congruence.
  - intros q j Hq Hj. rewrite !content_edit. case_decide; [done|]. by apply (Hco q).
Qed.

Context (Husers : ∀ user r, entitled may_load user → asked user r → apart watched s0 user r).
Context (Hhomes : ∀ cfg, may_load cfg → all_ops (confined_op watched s0) (ensure_home_dirs cfg)).

(** What the reload reads is one of the administrator's texts. *)
Lemma guarded_reads s r s' str cfg :
  guarded s → ev_step (ReadToString path) s r s' → r = Ok str →
  parse_str toml str = Ok cfg → validate cfg = Ok tt → may_load cfg.
Proof.
  intros (sb & [Ht Hc He] & [Hp [Hd Hen' Hco Hpr Hf]]) Hs -> Hpa Hv.
  inversion Hs as [Hr Hs'|]. clear Hs. cbn [exec] in Hr, Hs'.
  pose proof (lookup_lexical s true path qc Hp (cf_path Hcf) (cf_valid Hcf)) as Hl.
  pose proof (lookup_path_wf s true path (pf_wf _ Hp)) as Hw.
  destruct (lookup_path s true path) as [q [i| |]| |]; try done. subst q. cbn in Hr, Hw.
  case_decide; [|done]. injection Hr as <-.
  exists (content s i). split; [|done]. rewrite (Hco qc i) by (done || by right).
  apply He. rewrite <- Ht, <- Hen'; [done|by right].
Qed.

Lemma guarded_contract : contract guarded (confined_op watched s0) may_load.
Proof.
  split.
  - intros T e s r s'. apply guarded_step.
  - intros now s. apply guarded_clock.
  - intros txt i s. apply guarded_edit.
  - intros user r Hu Hr. eapply ensures_under; [|by apply apart_promises, Husers].
    by intros s (sb & _ & [Hp _]).
  - apply reload_io_ensures; [done|]. intros s r s' str cfg Hj Hs Hr Hpa Hv.
    pose proof (guarded_reads s r s' str cfg Hj Hs Hr Hpa Hv). auto.
Qed.

(** In a guarded state the region is as it was. *)
Lemma guarded_region s q :
  guarded s → R q → fs_tree s !! q = fs_tree s0 !! q ∧ file_at s q = file_at s0 q.
Proof.
  intros (sb & [Ht Hc _] & [_ Hk]) Hq. pose proof (kp_entries _ _ _ _ Hk q (or_introl Hq)) as He.
  rewrite Ht in He. split; [done|]. unfold file_at. rewrite He.
  destruct (fs_tree s0 !! q) as [[i| |]|] eqn:E; try done. f_equal.
  rewrite (kp_content _ _ _ _ Hk q i); [by eapply Hc|by left|done].
Qed.
End guarded.
End system.

(** ** Properties *)

Section properties.
Context `{AgeLib} `{Argon2} (toml : string → result Config string).
Context (b : ReoBackend) (path : string) (qc : list string).
Context (presented : string → Credentials → Prop) (editions : bytes → Prop).
Context (asked : ReoUser → Request → Prop) (fails : nat → Prop).

Abbreviation loadable := (may_load toml editions).
Abbreviation runs := (sys_steps toml b path qc presented editions asked fails).

Definition below (d q : list string) : Prop := d `prefix_of` q.

(** The archive of every configuration in force is [q], away from the
    configuration file, and its cameras have their directories. *)
Record archive_at (q : list string) (s0 : Fs) : Prop := {
  aa_root cfg : loadable cfg → root (archive cfg) = render q;
  aa_homes cfg c : loadable cfg → c ∈ camera cfg →
    valid_name (cam_name c) ∧ is_dir (fs_tree s0) (q ++ [cam_name c]);
  aa_outside : ¬ below q qc
}.

(** No client ever presents a password that any configuration in force accepts
    for a login of camera [x]. *)
Definition password_unknown (x : string) : Prop :=
  ∀ cfg cfg' c creds a,
    loadable cfg → loadable cfg' → c ∈ camera cfg' → cam_name c = x →
    presented (cam_login c) creds → ¬ credentials_ok (build cfg) (cam_login c) creds a.

Lemma may_load_valid cfg : loadable cfg → valid_config cfg.
Proof. intros (_ & _ & Hv & _). by apply validate_iff. Qed.

Lemma outsiders_confined q x s0 user :
  archive_at q s0 → password_unknown x → entitled presented loadable user →
  confined (watched qc (below (q ++ [x]))) s0 user.
Proof.
  intros Ha Hx (cfg & cfg' & u & creds & a & a' & Hc & Hc' & Hp & Hcr & _ & Hg & ->).
  unfold confined. cbn. apply build_get in Hg; [|by apply may_load_valid].
  destruct Hg as [(cam & Hcam & -> & ->)|(v & _ & _ & ->)]; cbn; [|by destruct (viewer_scope v)].
  destruct (aa_homes _ _ Ha cfg' cam Hc' Hcam) as [Hn Hd].
  exists (q ++ [cam_name cam]). rewrite (aa_root _ _ Ha cfg') by done.
  split; [by rewrite render_snoc|]. split; [done|]. intros r [[k Hk]|Hq].
  - rewrite <- !app_assoc in Hk. apply app_inv_head in Hk. injection Hk as Hk _.
    by eapply (Hx cfg cfg' cam creds a).
  - apply (aa_outside _ _ Ha). rewrite <- Hq, <- app_assoc. by eexists.
Qed.

Lemma homes_confined R q s0 cfg :
  plain_fs s0 → archive_at q s0 → loadable cfg →
  all_ops (confined_op R s0) (ensure_home_dirs cfg).
Proof.
  intros Hp Ha Hc. apply ensure_dirs_ops. intros c Hcam.
  destruct (aa_homes _ _ Ha cfg c Hc Hcam) as [Hn Hd].
  assert (Forall valid_name (q ++ [cam_name c])) as Hv by (by eapply plain_dir_valid).
  rewrite (aa_root _ _ Ha cfg), <- render_snoc by done.
  eapply create_dirs_free; [by apply components_render|done|].
  intros q' [k Hk]. right. eapply (is_dir_prefix _ q' k); [apply Hp|by rewrite <- Hk].
Qed.

(** C1. A camera's recordings are out of reach of everyone who does not know its
    password.  Whatever the clients of the running server do, logging in with
    what they know, making any requests as any user they get to be, disconnecting,
    interleaved in any way with each other, with failures of the file system, the
    reaper, and reloads of any configuration the administrator writes: as long as
    nobody presents a password that is accepted for the camera, every entry of the
    camera's directory and every byte in it stays as it was.  The configurations keep
    the archive root they have and name cameras by plain names, and the homes are
    there when the server starts ([archive_at]). *)
Theorem recordings_need_password q x cfg0 t s0 y r :
  plain_fs s0 → enclosed (below (q ++ [x])) s0 →
  config_file path qc editions (below (q ++ [x])) s0 →
  archive_at q s0 → password_unknown x →
  loadable cfg0 → runs (started cfg0 t s0) y →
  fs_tree (sy_fs y) !! (q ++ [x] ++ r) = fs_tree s0 !! (q ++ [x] ++ r) ∧
  file_at (sy_fs y) (q ++ [x] ++ r) = file_at s0 (q ++ [x] ++ r).
Proof.
  intros Hp He Hcf Ha Hx Hc Hr.
  assert (sys_ok presented (guarded qc editions (below (q ++ [x])) s0)
    (confined_op (watched qc (below (q ++ [x]))) s0) loadable y) as Hy.
  { eapply sys_steps_ok; [|exact Hr|].
    - apply guarded_contract; [done..| |].
      + intros user req Hu _. by apply confined_apart, outsiders_confined.
      + intros cfg. by apply (homes_confined _ q).
    - apply started_ok; [done|]. by eapply guarded_start. }
  eapply guarded_region; [apply Hy|]. rewrite app_assoc. by eexists.
Qed.

(** C2. A finalized file is immutable in the whole system.  Once a file is
    published under a final name, nothing that happens afterwards changes a byte
    of it or takes its name away: no login, whoever's password it uses, no
    request, no reload of any configuration, no failure and no interleaving of
    these. *)
Theorem system_keeps_finalized q n bs cfg0 t s0 y y' :
  plain_fs s0 → qc ≠ q ++ [n] →
  runs (started cfg0 t s0) y → finalized (sy_fs y) (q ++ [n]) bs →
  runs y y' → file_at (sy_fs y') (q ++ [n]) = Some bs.
Proof.
  intros Hp Hq Hr (i & ino & Hse & <-) Hr'.
  assert (sys_ok presented plain_fs client_op (λ _, True) y) as Hy.
  { eapply sys_steps_ok; [by apply wf_contract|exact Hr|by apply started_ok]. }
  assert (sys_ok presented (λ s, plain_fs s ∧ sealed (q ++ [n]) i ino s) client_op (λ _, True) y') as Hy'.
  { eapply sys_steps_ok; [by apply sealed_contract|exact Hr'|].
    eapply sys_ok_under; [|exact Hy|split; [apply Hy|done]]. by intros s []. }
  eapply sealed_file_at, (so_fs _ _ _ _ _ Hy').
Qed.

(** The configuration texts the parser accepts have limits of 32 bits. *)
Definition limits_u32 : Prop :=
  ∀ s cfg, toml s = Ok cfg → (0 ≤ max_connections (limits cfg) ≤ u32_max)%Z.

Definition sound (cfg : Config) : Prop :=
  valid_config cfg ∧ (0 ≤ max_connections (limits cfg) ≤ u32_max)%Z.

Lemma parsed_sound str cfg : limits_u32 → parse_str toml str = Ok cfg → valid_config cfg → sound cfg.
Proof.
  intros Ht Hp Hv. split; [done|]. unfold parse_str in Hp.
  destruct (toml str) as [c|] eqn:E; simplify_eq/=. by eapply Ht.
Qed.

(** C25. The state of the running server stays well formed, whatever happens:
    the file system is a tree with live descriptors and without symbolic links,
    the account table is the one of a valid configuration, and the accountant's
    counts are the sums of its slots, within their bounds and dated in the
    past. *)
Theorem system_well_formed cfg0 t s0 y :
  limits_u32 → plain_fs s0 → sound cfg0 → runs (started cfg0 t s0) y →
  plain_fs (sy_fs y) ∧
  (∃ cfg, sound cfg ∧ r_accounts (sy_running y) = build cfg) ∧
  inv (sy_clock y) (r_sessions (sy_running y)).
Proof.
  intros Ht Hp Hc Hr.
  assert (∀ str cfg, parse_str toml str = Ok cfg → valid_config cfg → sound cfg) as Hs
    by (intros; by eapply parsed_sound).
  pose proof (wf_contract toml b path qc presented editions asked sound Hs) as Hct.
  assert (sys_ok presented plain_fs client_op sound (started cfg0 t s0)) as Hst by (by apply started_ok).
  assert (sys_ok presented plain_fs client_op sound y) as Hy by (by eapply sys_steps_ok).
  split; [apply Hy|]. split; [apply Hy|].
  eapply inv_system_steps; [|exact Hct|exact Hr|done|]; [by intros cfg []|by apply inv_new, Hc].
Qed.

(** C9. Every session the server holds was authenticated: its client presented
    a password that the table of a valid configuration accepts for that login,
    over a channel the account allowed, and its role is the one such a table
    gives the login. *)
Theorem sessions_authenticated cfg0 t s0 y user :
  plain_fs s0 → valid_config cfg0 → runs (started cfg0 t s0) y → user ∈ sy_sessions y →
  entitled presented valid_config user.
Proof.
  intros Hp Hc Hr Hu.
  assert (sys_ok presented plain_fs client_op valid_config y) as Hy.
  { eapply sys_steps_ok; [by apply wf_contract|exact Hr|by apply started_ok]. }
  pose proof (so_sessions _ _ _ _ _ Hy) as Hs. rewrite list.Forall_forall in Hs. auto.
Qed.

(** A reload that nothing disturbs reads the configuration to the end. *)
Lemma reading_runs p t s st ls us ps :
  runs (mkSystem t s st ls us ps (Reading p))
       (mkSystem t (run_ok p s).2 st ls us ps (Reading (Ret (run_ok p s).1))).
Proof.
  revert s. induction p as [r|T e k IH]; intros s; [apply rtc_refl|].
  rewrite run_ok_vis. eapply rtc_l; [apply y_reading, ev_ok|apply IH].
Qed.

Lemma reload_runs t s st ls us ps cfg s' :
  run_ok (reload_io toml path) s = (Ok cfg, s') →
  runs (mkSystem t s st ls us ps Waiting)
       (mkSystem t s' (store_limits cfg (store_accounts cfg st)) ls us ps Waiting).
Proof.
  intros Hr. pose proof (reading_runs (reload_io toml path) t s st ls us ps) as Hrd. rewrite Hr in Hrd.
  eapply rtc_l; [apply y_hangup|]. etrans; [exact Hrd|].
  eapply rtc_l; [apply y_swap|]. apply rtc_once, y_limits.
Qed.

Lemma authenticate_principal now acc u creds (ss : SessionState) p :
  (authenticate now acc u creds ss).1 = Ok p → p = mkPrincipal u.
Proof.
  unfold authenticate. destruct (check_credentials _ _ _) as [a|]; [|done]. destruct (_ && _); [done|].
  destruct (take_slot now u ss) as [[] ?]; cbn; [by intros [= <-]|done].
Qed.

(** C39. A login reads the account table twice, and a reload may come between.  In
    whatever state the server is, a client that the table in force admits gets
    the account that the table of the reloaded configuration has for its login,
    with that one's role and TLS requirement, whatever the new table says of the
    password it presented and the channel it came over. *)
Theorem reload_races_login t s st ls us ps u creds p cfg s' a :
  presented u creds → (authenticate t (r_accounts st) u creds (r_sessions st)).1 = Ok p →
  run_ok (reload_io toml path) s = (Ok cfg, s') → Account.get (build cfg) u = Some a →
  ∃ st', r_accounts st' = build cfg ∧
    runs (mkSystem t s st ls us ps Waiting)
         (mkSystem t s' st' ls (us ++ [mkReoUser (username a) (role a) (require_tls a)]) ps Waiting).
Proof.
  intros Hc Ha Hr Hg. set (n := length ls).
  assert (∀ l : Login, (ls ++ [l]) !! n = Some l) as Hl by (intros l; apply list_lookup_middle; done).
  eexists. split; [|eapply rtc_l; [by apply y_connect|]; eapply rtc_l; [by apply (y_check _ _ _ _ _ _ _ _ n)|]].
  2: { cbn [r_accounts r_sessions]. rewrite Ha, insert_app_r_alt, Nat.sub_diag by lia. cbn [insert list_insert].
    etrans; [by apply reload_runs|]. eapply rtc_l; [by apply (y_details _ _ _ _ _ _ _ _ n)|].
    apply authenticate_principal in Ha as ->. unfold provide_user_detail.
    cbn [principal_username r_accounts store_limits store_accounts]. unfold n. rewrite Hg, delete_middle, app_nil_r.
    apply rtc_refl. }
  done.
Qed.
End properties.
