(* ===== verification/Service.v ===== *)
(** Requests in the running server: what a viewer and a camera can count on while
    the whole server of [System] is at work around them.

    [Reading] and [Concurrent] say what one request ends with among other requests.
    Here the others are everything the server does: logins and logouts, requests of
    all sessions, the reaper, reloads with the directories they make, the
    administrator's edits of the configuration file and the clock.  [serving] is what
    a request keeps on its way to its answer, and [serving_step] that every step of
    the server keeps it; [ends_as] says of a request how it ends. *)
From stdpp Require Import relations.
From S2P Require Import Prelude StdPath StdFs Prog FsView Rely Append Paths Crypto Config Account.
From S2P Require Import Limits Auth Store Backend Immutable Confine Own Concurrent Reading Server System.

Section service.
Context `{AgeLib} `{Argon2} (toml : string → result Config string).
Context (b : ReoBackend) (path : string) (qc : list string).
Context (presented : string → Credentials → Prop) (editions : bytes → Prop).
Context (asked : ReoUser → Request → Prop) (fails : nat → Prop).

Abbreviation steps_to := (sys_step toml b path qc presented editions asked fails).
Abbreviation runs := (sys_steps toml b path qc presented editions asked fails).

(** A session makes a request; its number is that of the requests before it. *)
Definition requests (user : ReoUser) (r : Request) (y : System) : System :=
  mkSystem (sy_clock y) (sy_fs y) (sy_running y) (sy_logins y) (sy_sessions y)
    (sy_requests y ++ [serve b user r]) (sy_reload y).

(** ** How a request ends *)

(** The requests perform operations in the given order, and nothing else happens. *)
Definition scheduled (js : list nat) (y : System) : System :=
  let c := sched js (sy_fs y) (sy_requests y) in
  mkSystem (sy_clock y) c.1 (sy_running y) (sy_logins y) (sy_sessions y) c.2 (sy_reload y).

Lemma scheduled_runs js y : runs y (scheduled js y).
Proof.
  destruct y as [t s st ls us ps rl]. unfold scheduled. cbn. revert s ps.
  induction js as [|i js IH]; intros s ps; cbn; [apply rtc_refl|].
  destruct (ps !! i) as [[a|T e k]|] eqn:Hi; [apply IH| |apply IH].
  eapply rtc_l; [|apply IH]. eapply y_operate; [exact Hi|apply own_does].
Qed.

(** Request [n] ends with [Q]: whenever it is answered, [Q] holds, and wherever the
    server has got to, operations of this request alone bring it to its answer. *)
Definition ends_as (y : System) (n : nat) (Q : result Answer Storage.Error → System → Prop) : Prop :=
  ∀ y', runs y y' →
    (∀ ans, sy_requests y' !! n = Some (Ret ans) → Q ans y') ∧
    ∃ j ans, let y2 := scheduled (replicate j n) y' in
      runs y' y2 ∧ sy_requests y2 !! n = Some (Ret ans) ∧ Q ans y2.

Lemma requests_stay n y y' : runs y y' → is_Some (sy_requests y !! n) → is_Some (sy_requests y' !! n).
Proof.
  intros Hr. rewrite !lookup_lt_is_Some. intros Hn. induction Hr as [|y y1 y' Hs _ IH]; [done|].
  apply IH. clear -Hs Hn. destruct Hs; cbn in *; rewrite ?length_app, ?length_insert; lia.
Qed.

Lemma requests_made user r y : is_Some (sy_requests (requests user r y) !! length (sy_requests y)).
Proof. exists (serve b user r). cbn. by rewrite lookup_app_r, Nat.sub_diag. Qed.

(** What holds of every answer makes the request end with it. *)
Lemma ends_as_answered y n Q :
  is_Some (sy_requests y !! n) →
  (∀ y' ans, runs y y' → sy_requests y' !! n = Some (Ret ans) → Q ans y') → ends_as y n Q.
Proof.
  intros Hn HQ y' Hr. split; [by intros ans; apply HQ|].
  destruct (requests_stay _ _ _ Hr Hn) as [p Hp].
  destruct (thread_ends (λ _, False) (λ _, False) n (sy_fs y') _ p Hp) as (j & ans & s' & Hj & _).
  pose proof (scheduled_runs (replicate j n) y') as Hr'.
  assert (sy_requests (scheduled (replicate j n) y') !! n = Some (Ret ans)) as Ha.
  { unfold scheduled. rewrite Hj. cbn. rewrite list_lookup_insert_eq; [done|by eapply lookup_lt_Some]. }
  exists j, ans. split; [done|]. split; [done|]. apply HQ; [by etrans|done].
Qed.

(** ** Descriptors in the server *)

(** A reload uses none. *)
Definition reload_no_fd (rl : Reloading) : Prop :=
  match rl with System.Reading p => all_ops no_fd p | _ => True end.

Lemma reload_io_no_fd : all_ops no_fd (reload_io toml path).
Proof.
  unfold reload_io, load. cbn [bind ask]. split; [done|]. intros r.
  destruct r as [str|k]; cbn; [|done]. destruct (parse_str toml str) as [cfg|]; cbn; [|done].
  destruct (validate cfg) as [[]|]; cbn; [|done]. apply all_ops_bind; [|by intros []].
  apply ensure_dirs_ops. intros c _. by apply create_dir_all_ops.
Qed.

Record descriptors_owned (y : System) : Prop := {
  do_requests : Forall (own (λ fd, fd < fs_next_fd (sy_fs y))) (sy_requests y);
  do_reload : reload_no_fd (sy_reload y)
}.

Lemma own_later {A} s s' (p : prog A) :
  fs_next_fd s ≤ fs_next_fd s' → own (λ fd, fd < fs_next_fd s) p → own (λ fd, fd < fs_next_fd s') p.
Proof. intros Hn. apply owned_mono; [|done]. intros fd Hfd. lia. Qed.

Lemma started_owned cfg t s : descriptors_owned (started cfg t s).
Proof. by split. Qed.

Lemma owned_step y y' : steps_to y y' → descriptors_owned y → descriptors_owned y'.
Proof.
  intros Hs [Hr Hl]. destruct Hs as [| | |i user r t s st ls us ps rl Hu Hq
    |i T e k r t s s' st ls us ps rl Hi He%own_ev| | | | |T e k r t s s' st ls us ps He| | | | | ];
    cbn in *; split; cbn; try done.
  - apply Forall_app_2; [done|]. apply Forall_singleton, serve_own.
  - pose proof (ev_step_next_fd _ _ _ _ He) as Hn.
    assert (∀ p : prog (result Answer Storage.Error), own (λ fd, fd < fs_next_fd s) p → own (λ fd, fd < fs_next_fd s') p)
      as Hm by (intros p; by apply own_later).
    pose proof Hr as Hv. eapply Forall_lookup_1 in Hv; [|exact Hi]. destruct Hv as [_ Hk].
    apply Forall_insert; [by eapply Forall_impl|]. eapply owned_mono; [|done|exact (Hk r)]. cbn.
    intros fd [Hfd|Hret]; [lia|]. apply (ev_step_returned _ _ _ _ _ He) in Hret as [-> ->]. lia.
  - apply reload_io_no_fd.
  - eapply Forall_impl; [exact Hr|]. intros p. apply own_later. by eapply ev_step_next_fd.
  - apply Hl.
Qed.

Lemma owned_steps y y' : runs y y' → descriptors_owned y → descriptors_owned y'.
Proof. induction 1; eauto using owned_step. Qed.

(** ** A request at work in the server *)

Section serving.
Context (J : Fs → Prop) (P O : ∀ T, Sys T → Prop) (C : Config → Prop) (K : gset nat → Fs → Fs → Prop).
Context (Hct : contract toml b path qc presented editions asked J P C).
Context (Hrl : reliable K O).

(** What everybody else does is within [O], and [K] allows the edits. *)
Record surroundings : Prop := {
  su_request user r : entitled presented C user → asked user r → ensures J O (serve b user r) (λ _, True);
  su_reload : ensures J O (reload_io toml path) (λ _, True);
  su_edit txt i mine bb s :
    editions txt → fs_tree s !! qc = Some (EFile i) → K mine bb s → K mine bb (set_content i txt s)
}.

Context (Hsu : surroundings).

Definition reload_beside (rl : Reloading) : Prop :=
  match rl with
  | System.Reading p => ensures J O p (λ _, True) ∧ all_ops no_fd p
  | _ => True
  end.

(** Request [n] is at work in a server that keeps [J], and can count on [Q]. *)
Record serving (n : nat) (Q : result Answer Storage.Error → gset nat → Fs → Prop) (y : System) : Prop := {
  sv_ok : sys_ok presented J P C y;
  sv_reload : reload_beside (sy_reload y);
  sv_thread : attended K (fails n) O J n Q (sy_fs y) (sy_requests y)
}.

Lemma serving_step n Q y y' : steps_to y y' → serving n Q y → serving n Q y'.
Proof.
  intros Hs [Hok Hrl' Hat]. assert (sys_ok presented J P C y') as Hok' by (by eapply sys_step_ok).
  pose proof (so_fs _ _ _ _ _ Hok) as Hj. pose proof (so_sessions _ _ _ _ _ Hok) as Hu.
  destruct Hs as [| | |i user r t s st ls us ps rl Hi Hq|i T e k r t s s' st ls us ps rl Hi He| | | |
    |T e k r t s s' st ls us ps He| | | |txt i t s st ls us ps rl Htxt Hi|t' now t s st ls us ps rl Ht Hn];
    cbn in *; split; cbn; try done.
  - apply attended_arrive; [|apply serve_own|done]. apply (su_request Hsu); [|done].
    by eapply Forall_lookup_1 in Hu.
  - eapply attended_thread; [exact Hrl|exact Hj|exact Hi| |exact Hat]. destruct He; constructor. by intros ->.
  - split; [apply (su_reload Hsu)|apply reload_io_no_fd].
  - destruct Hrl' as [[_ Hk] [_ Hn]]. split; [by eapply Hk|apply Hn].
  - destruct Hrl' as [[Ho _] [Hn _]]. by eapply attended_beside.
  - revert Hat. apply attended_env; [|done]. intros mine bb. by apply (su_edit Hsu).
  - by apply attended_clock.
Qed.

Lemma serving_steps n Q y y' : runs y y' → serving n Q y → serving n Q y'.
Proof. induction 1; eauto using serving_step. Qed.

(** It ends with what it can count on. *)
Lemma serving_answered n Q y y' a :
  runs y y' → serving n Q y → sy_requests y' !! n = Some (Ret a) → ∃ mine, Q a mine (sy_fs y').
Proof.
  intros Hr Hs Ha. destruct (serving_steps _ _ _ _ Hr Hs) as [_ _ (mine & bb & p & Hp & Hk & Hw & _)].
  rewrite Ha in Hp. injection Hp as <-. exists mine. by apply Hw.
Qed.

(** A request that is made now. *)
Lemma serving_start user r Q y :
  sys_ok presented J P C y → descriptors_owned y →
  ensures J P (serve b user r) (λ _, True) → K ∅ (sy_fs y) (sy_fs y) →
  wp K (fails (length (sy_requests y))) ∅ (serve b user r) Q (sy_fs y) →
  Forall (λ p, ensures J O p (λ _, True)) (sy_requests y) →
  match sy_reload y with System.Reading p => ensures J O p (λ _, True) | _ => True end →
  serving (length (sy_requests y)) Q (requests user r y).
Proof.
  intros Hok [Ho Hno] Hp Hk Hw He Hl. split.
  - destruct Hok. split; try done. apply Forall_app_2; [done|]. by apply Forall_singleton.
  - cbn. destruct (sy_reload y); by try split.
  - by apply attended_start.
Qed.
End serving.

(** ** A viewer's retrieval *)

Lemma around_reader_edit q i ino txt j mine bb s :
  qc ≠ q → fs_tree s !! qc = Some (EFile j) →
  around_reader q i ino mine bb s → around_reader q i ino mine bb (set_content j txt s).
Proof.
  intros Hq Hj (Hp & Hs & Hm). split; [by apply plain_edit|]. split; [|done].
  apply sealed_content; [done|]. intros ->. by apply (se_names _ _ _ _ Hs) in Hj.
Qed.

Lemma reader_surroundings q i ino :
  qc ≠ q →
  surroundings (λ s, plain_fs s ∧ sealed q i ino s) client_op (λ _, True) (around_reader q i ino).
Proof.
  intros Hq. split.
  - intros user r _ _. apply ensures_ops, serve_client.
  - eapply ensures_mono; [|by apply (reload_io_client _ _ _ (λ _, True))]. done.
  - intros txt j mine bb s _. by apply around_reader_edit.
Qed.

Lemma retrieval_ends viewer scope v pos qb parts bs y y' ans :
  sys_ok presented plain_fs client_op (λ _, True) y → descriptors_owned y →
  finalized (sy_fs y) (qb ++ parts) bs → qc ≠ qb ++ parts →
  user_role viewer = Viewer scope → select_root scope v = Ok (render qb, parts) →
  runs (requests viewer (RGet v pos) y) y' →
  sy_requests y' !! length (sy_requests y) = Some (Ret ans) →
  match ans with
  | Ok a => a = ABytes (drop (Z.to_nat pos) bs)
  | Err _ => fails (length (sy_requests y))
  end.
Proof.
  intros Hok Hown (i & ino & Hse & <-) Hqc Hu Hsel Hr Ha.
  pose proof (so_fs _ _ _ _ _ Hok) as Hp.
  assert (Forall valid_name (qb ++ parts)) as Hv by (eapply entry_valid; [apply Hp|apply Hse]).
  pose proof (sealed_contract toml b path qc presented editions asked _ i ino Hqc) as Hct.
  assert (sys_ok presented (λ s, plain_fs s ∧ sealed (qb ++ parts) i ino s) client_op (λ _, True) y) as Hy.
  { eapply sys_ok_under, conj; [|exact Hok|exact Hp|exact Hse]. by intros s []. }
  destruct (serving_answered _ client_op client_op _ _ Hct (reader_reliable _ _ _) (reader_surroundings _ i ino Hqc)
    (length (sy_requests y)) (λ r _ _, match r with
       | Ok a => a = ABytes (drop (Z.to_nat pos) (i_data ino))
       | Err _ => fails (length (sy_requests y))
       end) _ y' ans Hr) as [mine HQ]; [|exact Ha|exact HQ].
  apply serving_start; [exact Hy|done| |by apply reader_start; [split|set_solver]| |apply Hy|].
  - apply ensures_ops, serve_client.
  - eapply serve_reads; [done|done|exact Hu| |by split]. unfold user_view. rewrite Hu. exact Hsel.
  - pose proof (so_reload _ _ _ _ _ Hy) as Hl. destruct (sy_reload y); try done.
    by eapply ensures_mono; [|exact Hl].
Qed.

(** ** A camera's upload *)

Abbreviation loadable := (may_load toml editions).

(** A session of a camera is confined to a directory of the archive. *)
Lemma entitled_home q s0 user home :
  archive_at toml qc editions q s0 → entitled presented loadable user → user_role user = Uploader home →
  ∃ x, home = render (q ++ [x]) ∧ is_dir (fs_tree s0) (q ++ [x]).
Proof.
  intros Ha (cfg & cfg' & u & creds & a & a' & _ & Hc' & _ & _ & _ & Hg & ->) Hu. cbn in Hu.
  apply build_get in Hg; [|by eapply may_load_valid].
  destruct Hg as [(cam & Hcam & -> & ->)|(v & _ & _ & ->)]; cbn in Hu; [|by destruct (viewer_scope v)].
  injection Hu as <-. destruct (aa_homes _ _ _ _ _ Ha cfg' cam Hc' Hcam) as [_ Hd].
  exists (cam_name cam). by rewrite (aa_root _ _ _ _ _ Ha cfg'), <- render_snoc.
Qed.

Section upload.
Context (q : list string) (x : string) (parts : list string) (n : string) (extra : list string) (s0 : Fs).
Context (Hp0 : plain_fs s0) (Hat : archive_at toml qc editions q s0).

Abbreviation home := (q ++ [x]).
Abbreviation region := (claimed (home ++ parts) n extra).

(** What the camera's sessions ask for besides has other names. *)
Definition others_elsewhere : Prop :=
  ∀ user r, asked user r → user_role user = Uploader (render home) → elsewhere region home r.

Context (Hothers : others_elsewhere).
Context (Hen : enclosed region s0) (Hcf : config_file path qc editions region s0).

Lemma region_below p : region p → below home p.
Proof. intros (m & _ & ->). rewrite <- app_assoc. by eexists. Qed.

(** Nobody asks for what is the upload's or the configuration file. *)
Lemma asked_apart user r :
  entitled presented loadable user → asked user r → apart (watched qc region) s0 user r.
Proof.
  intros He Hr. unfold apart. destruct (user_role user) as [h|] eqn:Hu; [|done].
  destruct (entitled_home q s0 user h Hat He Hu) as (x' & -> & Hd).
  assert (∀ t, q ++ [x'] ++ t ≠ qc) as Hqc.
  { intros t Ht. apply (aa_outside _ _ _ _ _ Hat). rewrite <- Ht. by eexists. }
  assert (x' ≠ x → ∀ t, ¬ watched qc region ((q ++ [x']) ++ t)) as Hne.
  { intros Hx t [[k Hk]%region_below|Ht]; [|by apply (Hqc t); rewrite app_assoc].
    rewrite <- !app_assoc in Hk. apply app_inv_head in Hk. by injection Hk. }
  exists (q ++ [x']). split; [done|]. split; [done|].
  destruct (decide (x' = x)) as [->|Hx].
  - split.
    + intros [(m & _ & Hm)|Ht]; [|by apply (Hqc []); rewrite app_nil_r].
      rewrite <- !app_assoc in Hm. apply app_inv_head in Hm. injection Hm as Hm. by destruct parts.
    + specialize (Hothers user r Hr Hu). destruct r; try done; destruct Hothers as [Hq Hs]; split.
      all: try (intros t [Ht|Ht]; [by apply (Hq t)|by apply (Hqc (QUARANTINE_DIR :: t)); rewrite app_assoc]).
      all: intros ps r' Hn Hsp [Ht|Ht]; [by apply (Hs ps r')|by apply (Hqc r'); rewrite app_assoc].
  - split; [rewrite <- (app_nil_r (q ++ [x'])); by apply Hne|].
    destruct r; try done; (split; [intros t; by apply Hne|intros; by apply Hne]).
Qed.

(** *** What the server keeps *)

Abbreviation nothing := (λ _ : list string, False).

Lemma watched_nothing p : watched qc nothing p → watched qc region p.
Proof. intros [[]|Hp]. by right. Qed.

Lemma region_watched p : region p → watched qc region p.
Proof. by left. Qed.

Lemma config_alone : config_file path qc editions nothing s0.
Proof. destruct Hcf. by split; auto. Qed.

Lemma nothing_enclosed : enclosed nothing s0.
Proof. by split. Qed.

(** With the region, *)
Lemma region_contract :
  contract toml b path qc presented editions asked (guarded qc editions region s0)
    (confined_op (watched qc region) s0) loadable.
Proof.
  apply guarded_contract; [done..| |].
  - intros user r. apply asked_apart.
  - intros cfg. by eapply homes_confined.
Qed.

(** without it, as far as the others go, *)
Lemma others_contract :
  contract toml b path qc presented editions asked (guarded qc editions nothing s0)
    (confined_op (watched qc region) s0) loadable.
Proof.
  pose proof config_alone as Hca. split.
  - intros T e s r s' He. apply guarded_step.
    eapply confined_op_sub; [apply watched_nothing|done|exact He].
  - intros now s. apply guarded_clock.
  - intros txt i s. by eapply guarded_edit.
  - intros user r Hu Hr. eapply ensures_under; [|by apply apart_promises, asked_apart].
    by intros s (sb & _ & [Hp _]).
  - apply reload_io_ensures; [done|]. intros s r s' str cfg Hj Hs Hr Hpa Hv.
    assert (loadable cfg) as Hl by (by eapply (guarded_reads _ _ _ _ nothing s0)).
    split; [done|]. by eapply homes_confined.
Qed.

(** and with the upload. *)
Lemma upload_contract :
  contract toml b path qc presented editions asked (guarded qc editions nothing s0)
    (confined_op (watched qc nothing) s0) loadable.
Proof.
  pose proof config_alone. apply guarded_contract; [done..| |].
  - intros user r Hu Hr. eapply apart_sub; [apply watched_nothing|by apply asked_apart].
  - intros cfg. by eapply homes_confined.
Qed.

Lemma ensures_smaller {A} J (p : prog A) Q :
  ensures J (confined_op (watched qc region) s0) p Q → ensures J (confined_op (watched qc nothing) s0) p Q.
Proof.
  intros Hp. eapply ensures_ops_mono; [|exact Hp]. intros T e. apply confined_op_sub; [apply watched_nothing|done].
Qed.

(** *** From the start to the upload *)

(** The region at any time before. *)
Lemma region_kept s :
  guarded qc editions region s0 s →
  plain_fs s ∧ (∀ d, is_dir (fs_tree s0) d → is_dir (fs_tree s) d) ∧ enclosed region s.
Proof.
  intros (sb & [Ht _ _] & [Hp Hk]). split; [done|].
  split; [intros d Hd; apply (kp_dirs _ _ _ _ Hk); by rewrite Ht|]. split.
  - intros p p' i Hr Hi Hi'.
    destruct (decide (p' = qc)) as [->|Hne].
    + pose proof (kp_entries _ _ _ _ Hk p (or_introl Hr)) as He.
      pose proof (kp_entries _ _ _ _ Hk qc (or_intror eq_refl)) as He'. rewrite Ht in He, He'.
      rewrite He in Hi. rewrite He' in Hi'. by rewrite <- (proj1 (cf_private _ _ _ _ _ Hcf i Hi') p Hi).
    + destruct (decide (region p')) as [Hy|Hn]; [done|]. exfalso.
      eapply (kp_private _ _ _ _ Hk p' i); [|exact Hi'|by left|exact Hi]. by intros [?|?].
  - intros p i fd h Hr Hi Hh Hw. eapply (kp_fds _ _ _ _ Hk fd h i); [set_solver|exact Hh|exact Hw|by left|exact Hi].
Qed.

Lemma guarded_so_far cfg0 t y :
  loadable cfg0 → runs (started cfg0 t s0) y → guarded qc editions region s0 (sy_fs y).
Proof.
  intros Hc Hr. eapply so_fs, sys_steps_ok; [apply region_contract|exact Hr|].
  apply started_ok; [done|]. by eapply guarded_start.
Qed.

Section ends.
Context (s1 : Fs) (Hs1 : guarded qc editions region s0 s1).

Abbreviation around := (among s1 (home ++ parts) n extra).

Lemma around_edit txt i mine bb s :
  fs_tree s !! qc = Some (EFile i) → around mine bb s → around mine bb (set_content i txt s).
Proof.
  intros Hi [Hd [Hp Hk]]. split; [done|]. split; [by apply plain_edit|].
  apply kept_content; [done|]. eapply (kp_private _ _ _ _ Hk); [apply Hcf|exact Hi].
Qed.

Lemma around_reliable : reliable around (confined_op (watched qc region) s0).
Proof.
  destruct (region_kept s1 Hs1) as (Hp1 & Hd1 & _).
  eapply reliable_sub; [|apply among_reliable; done]. intros T e.
  apply confined_op_sub; [apply region_watched|done].
Qed.

Lemma upload_surroundings :
  surroundings (guarded qc editions nothing s0) (confined_op (watched qc region) s0) loadable around.
Proof.
  pose proof others_contract as Hc. split.
  - apply Hc.
  - eapply ensures_mono; [|apply Hc]. done.
  - intros txt i mine bb s _. apply around_edit.
Qed.
End ends.

(** A request of a camera for the upload's name, in a server that was started and
    where nobody else asks for it. *)
Lemma upload_ends cam r Q cfg0 t y y' ans :
  loadable cfg0 → runs (started cfg0 t s0) y → spare (home ++ parts) n extra (sy_fs y) → apart (watched qc nothing) s0 cam r →
  wp (among (sy_fs y) (home ++ parts) n extra) (fails (length (sy_requests y))) ∅ (serve b cam r) Q (sy_fs y) →
  runs (requests cam r y) y' → sy_requests y' !! length (sy_requests y) = Some (Ret ans) →
  ∃ mine, Q ans mine (sy_fs y').
Proof.
  intros Hc Hr Hsp Hap Hw Hr' Ha. pose proof config_alone as Hca. pose proof nothing_enclosed as Hne.
  assert (sys_ok presented (guarded qc editions nothing s0) (confined_op (watched qc region) s0) loadable y) as H1.
  { eapply sys_steps_ok; [apply others_contract|exact Hr|]. apply started_ok; [done|]. by eapply guarded_start. }
  pose proof (guarded_so_far _ _ _ Hc Hr) as Hg. destruct (region_kept _ Hg) as (Hp1 & Hd1 & He1).
  eapply (serving_answered _ _ _ _ _ upload_contract (around_reliable _ Hg) (upload_surroundings _));
    [exact Hr'| |exact Ha].
  apply serving_start; [|by eapply owned_steps, started_owned| | |exact Hw|apply H1|].
  - destruct H1. split; try done.
    + eapply Forall_impl; [done|]. intros p. apply ensures_smaller.
    + destruct (sy_reload y); try done. by apply ensures_smaller.
  - eapply ensures_under; [|by apply apart_promises]. by intros s (sb & _ & [Hp _]).
  - split; [by split|]. by apply enclosed_intact.
  - pose proof (so_reload _ _ _ _ _ H1) as Hl. destruct (sy_reload y); try done.
    by eapply ensures_mono; [|exact Hl].
Qed.

(** The upload is nothing to the configuration file. *)
Lemma own_upload_apart cam seed input v pos :
  is_dir (fs_tree s0) home → user_role cam = Uploader (render home) →
  apart (watched qc nothing) s0 cam (RPut seed input v pos).
Proof.
  intros Hd Hu. apply confined_apart. unfold confined. rewrite Hu. exists home.
  split; [done|]. split; [done|]. intros r [[]|Ht]. apply (aa_outside _ _ _ _ _ Hat).
  rewrite <- Ht, <- app_assoc. by eexists.
Qed.
End upload.

(** *** The server with one more request *)

Lemma requests_ok J P (C : Config → Prop) user r y :
  sys_ok presented J P C y → ensures J P (serve b user r) (λ _, True) → sys_ok presented J P C (requests user r y).
Proof. intros [] He. split; try done. apply Forall_app_2; [done|]. by apply Forall_singleton. Qed.

Lemma requests_owned user r y : descriptors_owned y → descriptors_owned (requests user r y).
Proof. intros []. split; [|done]. apply Forall_app_2; [done|]. apply Forall_singleton, serve_own. Qed.

Lemma runs_client y y' :
  sys_ok presented plain_fs client_op (λ _, True) y ∧ descriptors_owned y → runs y y' →
  sys_ok presented plain_fs client_op (λ _, True) y' ∧ descriptors_owned y'.
Proof.
  intros [Hok Ho] Hr. split; [|by eapply owned_steps]. eapply sys_steps_ok; [by apply wf_contract|exact Hr|done].
Qed.

Lemma started_client cfg0 t s0 y :
  plain_fs s0 → runs (started cfg0 t s0) y →
  sys_ok presented plain_fs client_op (λ _, True) y ∧ descriptors_owned y.
Proof.
  intros Hp. apply runs_client. split; [by apply started_ok|apply started_owned].
Qed.

Lemma requests_client user r y :
  sys_ok presented plain_fs client_op (λ _, True) y ∧ descriptors_owned y →
  sys_ok presented plain_fs client_op (λ _, True) (requests user r y) ∧ descriptors_owned (requests user r y).
Proof.
  intros [Hok Ho]. split; [|by apply requests_owned]. apply requests_ok; [done|]. apply ensures_ops, serve_client.
Qed.
End service.

(** ** Properties *)

Section properties.
Context `{AgeLib} `{Argon2} (toml : string → result Config string).
Context (b : ReoBackend) (path : string) (qc : list string).
Context (presented : string → Credentials → Prop) (editions : bytes → Prop).

Abbreviation runs := (sys_steps toml b path qc presented editions).
Abbreviation ends := (ends_as toml b path qc presented editions).

(** From [y] on, the server delivers the recording [p]: whatever happens, whatever
    is asked for and whatever fails, a retrieval of it by a viewer can be answered, and
    the answer is its bytes from the asked position on, or an error only if
    operations of the retrieval itself may fail. *)
Definition delivers (y : System) (p : list string) (bs : bytes) : Prop :=
  ∀ asked fails y1 viewer scope v pos qb parts,
    runs asked fails y y1 → user_role viewer = Viewer scope →
    select_root scope v = Ok (render qb, parts) → qb ++ parts = p →
    ends asked fails (requests b viewer (RGet v pos) y1) (length (sy_requests y1)) (λ ans _,
      match ans with
      | Ok a => a = ABytes (drop (Z.to_nat pos) bs)
      | Err _ => fails (length (sy_requests y1))
      end).

(** A finalized file is delivered. *)
Lemma finalized_delivered y q n bs :
  sys_ok presented plain_fs client_op (λ _, True) y ∧ descriptors_owned y →
  finalized (sy_fs y) (q ++ [n]) bs → qc ≠ q ++ [n] → delivers y (q ++ [n]) bs.
Proof.
  intros Hy (i & ino & Hse & <-) Hqc asked fails y1 viewer scope v pos qb parts Hr Hu Hs Hqb.
  apply ends_as_answered; [apply requests_made|]. intros y2 ans Hr' Ha.
  destruct (runs_client _ _ _ _ _ _ _ _ _ _ Hy Hr) as [Hok1 Ho1]. destruct Hy as [Hok _].
  assert (sys_ok presented (λ s, plain_fs s ∧ sealed (q ++ [n]) i ino s) client_op (λ _, True) y1) as Hy1.
  { eapply sys_steps_ok; [by apply sealed_contract|exact Hr|].
    eapply sys_ok_under, conj; [|exact Hok|apply Hok|exact Hse]. by intros s []. }
  eapply (retrieval_ends _ _ _ _ _ _ _ _ viewer scope v pos qb parts); try done.
  - rewrite Hqb. exists i, ino. split; [apply Hy1|done].
  - by rewrite Hqb.
Qed.

(** C8. The running server delivers what it has.  Once a file is finalized, in any
    state the server can reach, every viewer it is in the scope of gets exactly
    its bytes, and can always be answered, whatever else the server does: logins, other requests of anybody
    that were in flight or arrive, the reaper, reloads of any configuration, and any
    failures but those of the retrieval itself. *)
Theorem server_delivers asked fails cfg0 t s0 y q n bs :
  plain_fs s0 → runs asked fails (started cfg0 t s0) y →
  finalized (sy_fs y) (q ++ [n]) bs → qc ≠ q ++ [n] → delivers y (q ++ [n]) bs.
Proof. intros Hp Hr. by eapply finalized_delivered, started_client. Qed.

Section upload.
Context (asked : ReoUser → Request → Prop) (fails : nat → Prop).
Context (q : list string) (x : string) (parts : list string) (cfg0 : Config) (t : Z) (s0 : Fs) (y : System).
Context (Hp : plain_fs s0) (Hat : archive_at toml qc editions q s0) (Hc : may_load toml editions cfg0).
Context (Hr : runs asked fails (started cfg0 t s0) y).

Abbreviation place := (q ++ [x] ++ parts).

(** The state an upload starts in. *)
Lemma upload_state n extra :
  let region := claimed place n extra in
  config_file path qc editions region s0 → enclosed region s0 →
  others_elsewhere asked q x parts n extra →
  plain_fs (sy_fs y) ∧ (∀ d, is_dir (fs_tree s0) d → is_dir (fs_tree (sy_fs y)) d) ∧ enclosed region (sy_fs y).
Proof.
  intros region Hcf Hen Hoth. subst region. rewrite (app_assoc q [x] parts) in *.
  eapply region_kept, guarded_so_far; done.
Qed.

Lemma test_name v f ps n : file_name v = Some f → normalize v = Ok (ps ++ [n]) → to_string_lossy f = n.
Proof.
  intros Hf Hn. destruct (normalize_file_name v f _ Hf Hn) as [r Hpr]. by apply app_inj_tail in Hpr as [_ <-].
Qed.

Lemma place_not_config n : qc ≠ place ++ [n].
Proof.
  intros Hqc. apply (aa_outside _ _ _ _ _ Hat). rewrite Hqc, <- app_assoc. by eexists.
Qed.

(** What an upload has finished is delivered. *)
Lemma answered_delivered cam r y' p n bs :
  runs asked fails (requests b cam r y) y' → qc ≠ p ++ [n] →
  finalized (sy_fs y') (p ++ [n]) bs → delivers y' (p ++ [n]) bs.
Proof.
  intros Hr' Hqc Hfin. apply finalized_delivered; [|done|done].
  apply (runs_client toml b path qc presented editions asked fails (requests b cam r y)); [|exact Hr'].
  exact (requests_client _ _ _ _ _ (started_client toml b path qc presented editions asked fails cfg0 t s0 y Hp Hr)).
Qed.

(** C5. What a camera stores, viewers get, in the running server.  A camera uploads a
    file for whose name nobody else asks, while the server does everything else:
    logins, other requests of anybody, the reaper, reloads with the administrator's
    edits of the configuration.  The upload can always be answered.  If it is, as stored, the
    file holds exactly what was staged and sent, and unless the upload's own
    operations could fail, it is delivered to viewers from then on, whatever
    happens; and if not, the final name does not exist, and either the upload was not
    well continued or its own operations could fail. *)
Theorem stored_is_served n cam seed v f old pos input :
  let region := claimed place n [] in
  backend_recipients b = None →
  config_file path qc editions region s0 → enclosed region s0 → others_elsewhere asked q x parts n [] →
  user_role cam = Uploader (render (q ++ [x])) → is_dir (fs_tree s0) (q ++ [x]) →
  file_name v = Some f → normalize v = Ok (parts ++ [n]) → volatile n = false →
  fs_tree (sy_fs y) !! (place ++ [n]) = None → stock place n old (sy_fs y) →
  ends asked fails (requests b cam (RPut seed input v pos) y) (length (sy_requests y)) (λ ans y',
    match ans with
    | Ok a => a = AStored (Z.of_nat (length (in_data input))) ∧ in_end input = None ∧
        file_at (sy_fs y') (place ++ [n]) = Some (old ++ in_data input) ∧
        (fails (length (sy_requests y)) ∨ delivers y' (place ++ [n]) (old ++ in_data input))
    | Err _ => fs_tree (sy_fs y') !! (place ++ [n]) = None ∧
        (well_continued place n old pos input (sy_fs y) → fails (length (sy_requests y)))
    end).
Proof.
  intros region Hb Hcf Hen Hoth Hu Hd Hf Hn Hvol Hnone Hk.
  apply ends_as_answered; [apply requests_made|]. intros y' ans Hr' Ha.
  destruct (upload_state n [] Hcf Hen Hoth) as (Hp1 & Hd1 & He1). subst region.
  assert (is_reolink_test_file (to_string_lossy f) = false) as Ht.
  { rewrite (test_name v f parts n) by done. by apply orb_false_iff in Hvol as [_ ?]. }
  pose proof (place_not_config n) as Hqc. rewrite (app_assoc q [x] parts) in *.
  pose proof (continuing_counts b seed cam (q ++ [x]) parts n v f old input pos (sy_fs y)
    (fails (length (sy_requests y))) Hp1 Hb Hu (Hd1 _ Hd) Hf Ht Hn Hnone Hk He1) as Hw.
  eapply (upload_ends toml b path qc presented editions asked fails q x parts n [] s0) in Hw as [mine HQ];
    [|done..|apply spare_nil|by eapply own_upload_apart|exact Hr'|exact Ha].
  destruct ans as [a|e]; [|exact HQ]. destruct HQ as (-> & Hend & Hfin).
  split; [done|]. split; [done|]. split; [by eapply finished_file_at|].
  apply finished_finalized in Hfin as [Hm|Hfin]; [by left|right|done].
  by eapply answered_delivered.
Qed.

(** C11. The same with encryption on, where the final name is the name with [.age].
    The upload can always be answered.  If it is, as stored, the file holds a ciphertext that
    every identity it was encrypted to decrypts to exactly what the camera sent,
    and unless the upload's own operations could fail, it is delivered to viewers
    from then on, whatever happens; and if not, the final name does not exist, and
    either the upload was not well begun or its own operations could fail. *)
Theorem encrypted_upload_served `{!AgeLaws} n recs cam seed v f input :
  let name := n +:+ ".age" in
  let region := claimed place name [n] in
  backend_recipients b = Some recs →
  config_file path qc editions region s0 → enclosed region s0 → others_elsewhere asked q x parts name [n] →
  user_role cam = Uploader (render (q ++ [x])) → is_dir (fs_tree s0) (q ++ [x]) →
  file_name v = Some f → normalize v = Ok (parts ++ [n]) → is_reolink_test_file n = false →
  fs_tree (sy_fs y) !! (place ++ [n]) = None → fs_tree (sy_fs y) !! (place ++ [name]) = None →
  ends asked fails (requests b cam (RPut seed input v 0) y) (length (sy_requests y)) (λ ans y',
    match ans with
    | Ok a => a = AStored (Z.of_nat (length (in_data input))) ∧ in_end input = None ∧
        ∃ ct, file_at (sy_fs y') (place ++ [name]) = Some ct ∧
          (∀ id, to_public id ∈ recs → ∃ cs, decryptor id ct = Ok (cs, None) ∧ concat cs = in_data input) ∧
          (fails (length (sy_requests y)) ∨ delivers y' (place ++ [name]) ct)
    | Err _ => fs_tree (sy_fs y') !! (place ++ [name]) = None ∧
        (well_sealed place name seed recs input (sy_fs y) → fails (length (sy_requests y)))
    end).
Proof.
  intros name region Hb Hcf Hen Hoth Hu Hd Hf Hn Ht Hnone Hfin.
  apply ends_as_answered; [apply requests_made|]. intros y' ans Hr' Ha.
  destruct (upload_state name [n] Hcf Hen Hoth) as (Hp1 & Hd1 & He1). subst region.
  destruct (age_name_lasting n Ht) as [Hns Hnt]. assert (volatile name = false) as Hvol by (by apply orb_false_iff).
  pose proof (place_not_config name) as Hqc. rewrite <- (test_name v f parts n) in Ht by done.
  rewrite (app_assoc q [x] parts) in *.
  pose proof (sealing_counts b seed recs cam (q ++ [x]) parts n v f input (sy_fs y)
    (fails (length (sy_requests y))) Hp1 Hb Hu (Hd1 _ Hd) Hf Ht Hn Hnone Hfin He1) as Hw.
  eapply (upload_ends toml b path qc presented editions asked fails q x parts name [n] s0) in Hw as [mine HQ];
    [|done..|by apply spare_one|by eapply own_upload_apart|exact Hr'|exact Ha].
  destruct ans as [a|e]; [|exact HQ]. destruct HQ as (-> & Hend & enc & Henc & Hdone).
  split; [done|]. split; [done|]. eexists. split; [by eapply finished_file_at|]. split.
  - intros id Hid. destruct (age_decrypts id seed recs enc (in_chunks input) Hid Henc) as (cs & Hdec & Hcs & _).
    by exists cs.
  - apply finished_finalized in Hdone as [Hm|Hdone]; [by left|right|done]. by eapply answered_delivered.
Qed.
End upload.
End properties.
