(* ===== verification/Moves.v ===== *)
(** A deterministic scheduler for the transitions of System.v, so that executions
    of the whole system can be evaluated.  Operations succeed or fail as the file
    system says, never for outside reasons. *)
From stdpp Require Import relations.
From S2P Require Import Prelude StdPath StdFs Prog FsView Append Paths Crypto Config Account.
From S2P Require Import Limits Auth Store Backend Immutable Confine Server System.

Inductive Move `{AgeLib} : Type :=
| MConnect (u : string) (creds : Credentials)
| MCheck (i : nat)
| MDetails (i : nat)
| MRequest (i : nat) (r : Request)
| MOperate (i : nat)
| MLogout (i : nat)
| MReap
| MHangup
| MReload
| MEdit (txt : bytes).

Section scheduler.
Context `{AgeLib} `{Argon2} (toml : string → result Config string).
Context (b : ReoBackend) (path : string) (qc : list string).

(** One move; a move that is not possible in the state does nothing. *)
Definition move (m : Move) (y : System) : System :=
  let 'mkSystem t s st ls us ps rl := y in
  match m with
  | MConnect u creds => mkSystem t s st (ls ++ [Checking (r_accounts st) u creds]) us ps rl
  | MCheck i =>
      match ls !! i with
      | Some (Checking acc u creds) =>
          mkSystem t s (mkRunning (r_accounts st) (authenticate t acc u creds (r_sessions st)).2)
            (match (authenticate t acc u creds (r_sessions st)).1 with
             | Ok p => <[i := Granted p]> ls
             | Err _ => delete i ls
             end) us ps rl
      | _ => y
      end
  | MDetails i =>
      match ls !! i with
      | Some (Granted p) =>
          mkSystem t s st (delete i ls)
            (match provide_user_detail (r_accounts st) p with
             | Ok user => us ++ [user]
             | Err _ => us
             end) ps rl
      | _ => y
      end
  | MRequest i r =>
      match us !! i with
      | Some user => mkSystem t s st ls us (ps ++ [serve b user r]) rl
      | None => y
      end
  | MOperate i =>
      match ps !! i with
      | Some (Vis e k) => mkSystem t (exec e s).2 st ls us (<[i := k (exec e s).1]> ps) rl
      | _ => y
      end
  | MLogout i =>
      match us !! i with
      | Some user =>
          mkSystem t s (on_sessions (receive_presence_event LoggedOut (login user)) st)
            ls (delete i us) ps rl
      | None => y
      end
  | MReap =>
      mkSystem t s (on_sessions (λ ss, (reap t (from_secs SESSION_TTL_SECS) ss).2) st) ls us ps rl
  | MHangup =>
      match rl with
      | Waiting => mkSystem t s st ls us ps (Reading (reload_io toml path))
      | _ => y
      end
  | MReload =>
      match rl with
      | Reading (Vis e k) => mkSystem t (exec e s).2 st ls us ps (Reading (k (exec e s).1))
      | Reading (Ret (Err _)) => mkSystem t s st ls us ps Waiting
      | Reading (Ret (Ok cfg)) => mkSystem t s (store_accounts cfg st) ls us ps (Swapped cfg)
      | Swapped cfg => mkSystem t s (store_limits cfg st) ls us ps Waiting
      | Waiting => y
      end
  | MEdit txt =>
      match fs_tree s !! qc with
      | Some (EFile i) => mkSystem t (set_content i txt s) st ls us ps rl
      | _ => y
      end
  end.

Definition moves (l : list Move) (y : System) : System := fold_left (λ y m, move m y) l y.

Context (presented : string → Credentials → Prop) (editions : bytes → Prop).
Context (asked : ReoUser → Request → Prop) (fails : nat → Prop).

(** What a move needs of the environment. *)
Definition possible (m : Move) : Prop :=
  match m with
  | MConnect u creds => presented u creds
  | MEdit txt => editions txt
  | MRequest _ r => ∀ user, asked user r
  | _ => True
  end.

Lemma move_step m y :
  possible m → sys_steps toml b path qc presented editions asked fails y (move m y).
Proof.
  destruct y as [t s st ls us ps rl]. intros Hm.
  destruct m as [u creds|i|i|i r|i|i| | | |txt]; cbn [move].
  - by eapply rtc_once, y_connect.
  - destruct (ls !! i) as [[]|] eqn:E; [by eapply rtc_once, y_check|apply rtc_refl..].
  - destruct (ls !! i) as [[]|] eqn:E; [apply rtc_refl|by eapply rtc_once, y_details|apply rtc_refl].
  - destruct (us !! i) as [user|] eqn:E; [eapply rtc_once, y_request; [exact E|apply Hm]|apply rtc_refl].
  - destruct (ps !! i) as [[a|T e k]|] eqn:E; [apply rtc_refl| |apply rtc_refl].
    by eapply rtc_once, y_operate, own_does.
  - destruct (us !! i) as [user|] eqn:E; [by eapply rtc_once, y_logout|apply rtc_refl].
  - apply rtc_once, y_reap.
  - destruct rl; [apply rtc_once, y_hangup|apply rtc_refl..].
  - destruct rl as [|[[cfg|e]|T e k]|cfg]; [apply rtc_refl|apply rtc_once..];
      [apply y_swap|apply y_refused|apply y_reading, ev_ok|apply y_limits].
  - destruct (fs_tree s !! qc) as [[i| |]|] eqn:E; [by eapply rtc_once, y_edit|apply rtc_refl..].
Qed.

Lemma moves_steps l y :
  Forall possible l → sys_steps toml b path qc presented editions asked fails y (moves l y).
Proof.
  intros Hl. revert y. induction Hl as [|m l Hm Hl IH]; intros y; [apply rtc_refl|].
  etrans; [by apply move_step|apply IH].
Qed.
End scheduler.
