(* ===== verification/Commands.v ===== *)
(** [cli.rs], [nftables.rs] and the commands of [main.rs]: the configuration
    snippets, the firewall rules, cleanup, password hashing, key files and the
    decryption of downloaded files.

    A command answers what it prints (line by line) or the error it ends with.
    Console input and the environment are arguments. *)
From stdpp Require Import pretty.
From S2P Require Import Prelude StdPath StdFs Prog FsView Append Paths Crypto Config Account.
From S2P Require Import Limits Auth Store Backend Retention.

(** ** [cli.rs] *)

Definition quoted (s : string) : string := dquote +:+ s +:+ dquote.

Definition render_camera_entry (name : string) (username : option string) (hash : string)
    (require_tls : bool) : string :=
  newline +:+ "[[camera]]" +:+ newline +:+ "name = " +:+ quoted name +:+ newline +:+
  (match username with
   | Some u => "username = " +:+ quoted u +:+ newline
   | None => ""
   end) +:+
  "upload_password_hash = " +:+ quoted hash +:+ newline +:+
  (if require_tls then "require_tls = true" +:+ newline else "").

(** [str::split] at a character. *)
Fixpoint split_char (c : ascii) (s : string) : list string :=
  match s with
  | EmptyString => [EmptyString]
  | String a s' =>
      if decide (a = c) then EmptyString :: split_char c s'
      else match split_char c s' with
           | h :: t => String a h :: t
           | [] => [String a EmptyString]
           end
  end.

Definition render_viewer_entry (name hash scope : string) : string :=
  let scope_toml :=
    if decide (scope = "all") then quoted "all"
    else "[" +:+ String.concat ", " ((λ x, quoted (trim x)) <$> split_char "," scope) +:+ "]" in
  newline +:+ "[[viewer]]" +:+ newline +:+ "name = " +:+ quoted name +:+ newline +:+
  "password_hash = " +:+ quoted hash +:+ newline +:+ "scope = " +:+ scope_toml +:+ newline.

(** ** [nftables.rs] *)

Definition tab : string := String (Ascii.ascii_of_nat 9) EmptyString.

Definition render_nftables (cfg : Config) : string :=
  let port := pretty (port (server cfg)) in
  let plo := pretty (passive_ports (server cfg)).1 in
  let phi := pretty (passive_ports (server cfg)).2 in
  let per_ip := pretty (max_connections_per_ip (limits cfg)) in
  let global := pretty (max_connections (limits cfg)) in
  "table inet reoftpd {" +:+ newline +:+
  tab +:+ "chain input {" +:+ newline +:+
  tab +:+ tab +:+ "type filter hook input priority filter; policy accept;" +:+ newline +:+
  tab +:+ tab +:+ "# Global cap on the FTP control port (backstop to the in-process session cap)" +:+ newline +:+
  tab +:+ tab +:+ "tcp dport " +:+ port +:+ " ct state new ct count over " +:+ global +:+ " drop" +:+ newline +:+
  tab +:+ tab +:+ "# Per-source-IP cap on control + passive data ports" +:+ newline +:+
  tab +:+ tab +:+ "tcp dport { " +:+ port +:+ ", " +:+ plo +:+ "-" +:+ phi +:+
    " } ct state new meter reoftpd_perip { ip saddr ct count over " +:+ per_ip +:+ " } drop" +:+ newline +:+
  tab +:+ "}" +:+ newline +:+
  "}" +:+ newline.

(** ** [main.rs] *)

(** [trim_end_matches] of line ends. *)
Fixpoint trim_line_end (s : string) : string :=
  match s with
  | EmptyString => EmptyString
  | String c s' =>
      let t := trim_line_end s' in
      if decide (t = "" ∧ (c = Ascii.ascii_of_nat 10 ∨ c = Ascii.ascii_of_nat 13)) then EmptyString
      else String c t
  end.

(** The environment variable if set, one line of input otherwise. *)
Definition read_password (env : option string) (stdin_line : result string string)
    : result string string :=
  match env with
  | Some pw => Ok pw
  | None => let? line := stdin_line in Ok (trim_line_end line)
  end.

(** [str::lines]: pieces ended by a line feed lose a carriage return before it;
    a last piece without line feed is kept as it is. *)
Definition strip_cr (s : string) : string :=
  default s (strip_suffix (String (Ascii.ascii_of_nat 13) EmptyString) s).
Definition str_lines (s : string) : list string :=
  let pieces := split_char (Ascii.ascii_of_nat 10) s in
  (strip_cr <$> removelast pieces) ++
  (match list.last pieces with Some (String c t) => [String c t] | _ => [] end).

Definition DEFAULT_CONFIG : string := "/etc/reoftpd/reoftpd.toml".

(** [Duration::from_secs(retention_days * 86_400)]: the product is a [u64]
    multiplication, which wraps in a release build. *)
Definition retention_ns (retention_days : Z) : Z := from_secs (wrap_u64 (retention_days * 86400)).
Definition QUARANTINE_TTL : Z := from_secs 3600.
Definition STAGING_TTL : Z := from_secs 3600.

(** The sweep as [cleanup] starts it, for a retention period of [days]. *)
Definition cleaning (days now : Z) (dry_run : bool) (fuel : nat) (root : string)
    : prog (option (io SweepReport)) :=
  sweep (retention_ns days) QUARANTINE_TTL STAGING_TTL now dry_run fuel root.

Section commands.
Context `{AgeLib} (toml : string → result Config string).

Definition cleanup (fuel : nat) (config : string) (dry_run : bool) (now : Z)
    : prog (option (result (list string) string)) :=
  let! r := load toml config in
  match r with
  | Err e => Ret (Some (Err (config_error_to_string e)))
  | Ok cfg =>
      let! r := cleaning (retention_days (archive cfg)) now dry_run fuel (root (archive cfg)) in
      Ret (match r with
           | None => None
           | Some (Err e) => Some (Err (io_to_string e))
           | Some (Ok report) =>
               Some (Ok (("deleted " +:+ pretty (length (deleted report)) +:+ " file(s):")
                    :: ((λ p, "  " +:+ to_string_lossy p) <$> deleted report)
                    ++ ("pruned " +:+ pretty (length (pruned_dirs report)) +:+ " empty director(ies):")
                    :: ((λ p, "  " +:+ to_string_lossy p) <$> pruned_dirs report)))
           end)
  end.

(** [write_all] of a snippet at the end of an existing file. *)
Definition append_snippet (config snippet : string) : prog (result unit string) :=
  let! r := ask (OpenExisting config) in
  match r with
  | Err e => Ret (Err ("opening " +:+ to_string_lossy config +:+ ": " +:+ io_to_string e))
  | Ok fd =>
      let! r := ask (Write fd (bytes_of snippet)) in
      let! _ := ask (Close fd) in
      Ret (map_err io_to_string r)
  end.

Definition hashed `{Argon2} (salt : bytes) (password : string) : result string string :=
  map_err hash_error_to_string (hash_password salt password).

Definition add_camera `{Argon2} (env_config : option string) (salt : bytes)
    (password : result string string) (name : string) (username : option string) (tls : bool)
    : prog (result unit string) :=
  let config := default DEFAULT_CONFIG env_config in
  match password with
  | Err e => Ret (Err e)
  | Ok pw =>
      match hashed salt pw with
      | Err e => Ret (Err e)
      | Ok hash => append_snippet config (render_camera_entry name username hash tls)
      end
  end.

Definition add_viewer `{Argon2} (env_config : option string) (salt : bytes)
    (password : result string string) (name scope : string) : prog (result unit string) :=
  let config := default DEFAULT_CONFIG env_config in
  match password with
  | Err e => Ret (Err e)
  | Ok pw =>
      match hashed salt pw with
      | Err e => Ret (Err e)
      | Ok hash => append_snippet config (render_viewer_entry name hash scope)
      end
  end.

(** The identity file and the lines printed on standard output. *)
Definition genkey (seed : Seed) (output : option string) : prog (result (list string) string) :=
  let '(public, secret) := generate_identity seed in
  match output with
  | None => Ret (Ok [secret; public])
  | Some path =>
      let! r := ask (OpenTruncate PRIVATE_MODE path) in
      match r with
      | Err e => Ret (Err (io_to_string e))
      | Ok fd =>
          let! r := ask (Write fd (bytes_of (secret +:+ newline))) in
          let! _ := ask (Close fd) in
          Ret (match r with Ok _ => Ok [public] | Err e => Err (io_to_string e) end)
      end
  end.

Definition is_key_line (l : string) : bool := starts_with_str "AGE-SECRET-KEY-" (trim_start l).

Definition read_identity (identity : string) : prog (result Identity string) :=
  let! r := ask (ReadToString identity) in
  Ret (match r with
       | Err e => Err (io_to_string e)
       | Ok id_text =>
           match List.find is_key_line (str_lines id_text) with
           | None => Err ("no AGE-SECRET-KEY- line in " +:+ to_string_lossy identity)
           | Some key_line =>
               map_err (λ _, "identity file does not contain a valid AGE-SECRET-KEY-... value")
                 (identity_from_str (trim key_line))
           end
       end).

(** The name of the output: the input's name without [.age]. *)
Definition decrypt_stem (input : string) : option string :=
  match file_name input with
  | Some n => if decide (to_string_lossy n = n) then strip_suffix ".age" n else None
  | None => None
  end.

Definition decrypt_file (id : Identity) (output : option string) (input : string)
    : prog (result unit string) :=
  match decrypt_stem input with
  | None => Ret (Err (to_string_lossy input +:+ " does not end in .age"))
  | Some stem =>
      let out_path := match output with
                      | Some dir => join dir stem
                      | None => with_file_name input stem
                      end in
      let! r := ask (OpenRead input) in
      match r with
      | Err e => Ret (Err (io_to_string e))
      | Ok rd =>
          let! r := ask (OpenTruncate FILE_MODE out_path) in
          match r with
          | Err e => let! _ := ask (Close rd) in Ret (Err (io_to_string e))
          | Ok wr =>
              let! r := decrypt_stream id rd wr in
              let! _ := ask (Close wr) in
              let! _ := ask (Close rd) in
              match r with
              | Ok _ => Ret (Ok tt)
              | Err e =>
                  let! _ := ask (RemoveFile out_path) in
                  Ret (Err (to_string_lossy input +:+ ": " +:+ crypto_error_to_string e))
              end
          end
      end
  end.

Fixpoint decrypt_files (id : Identity) (output : option string) (files : list string)
    : prog (result unit string) :=
  match files with
  | [] => Ret (Ok tt)
  | f :: rest => try! _ := decrypt_file id output f in decrypt_files id output rest
  end.

Definition decrypt (identity : string) (output : option string) (files : list string)
    : prog (result unit string) :=
  try! id := read_identity identity in
  decrypt_files id output files.

(** ** [tls.rs] *)

Inductive TlsError : Type := Gen (e : string).

(** The certificate generator is the [rcgen] crate: it answers the PEM texts of a
    certificate and of its key. *)
Definition generate_self_signed (rcgen : list string → result (string * string) string)
    (hostnames : list string) : result (string * string) TlsError :=
  map_err Gen (rcgen hostnames).

(** A text written to a file, which is created with the mode. *)
Definition write_text_mode (mode : Z) (path text : string) : prog (io unit) :=
  try! fd := ask (OpenTruncate mode path) in
  let! r := ask (Write fd (bytes_of text)) in
  let! _ := ask (Close fd) in
  Ret r.

(** [std::fs::write] of a text. *)
Definition write_text (path text : string) : prog (io unit) := write_text_mode FILE_MODE path text.

Definition write_cert_files (cert_pem key_pem cert_path key_path : string) : prog (io unit) :=
  try! _ := write_text cert_path cert_pem in
  write_text_mode PRIVATE_MODE key_path key_pem.

(** The error is printed with [Debug], which escapes the text. *)
Definition gencert (debug : string → string)
    (rcgen : list string → result (string * string) string)
    (hostnames : list string) (cert key : string) : prog (result (list string) string) :=
  match generate_self_signed rcgen hostnames with
  | Err (Gen e) => Ret (Err ("Gen(" +:+ debug e +:+ ")"))
  | Ok (cert_pem, key_pem) =>
      let! r := write_cert_files cert_pem key_pem cert key in
      Ret (match r with
           | Err e => Err (io_to_string e)
           | Ok _ => Ok ["Certificate written to " +:+ to_string_lossy cert +:+ " and key to "
                         +:+ to_string_lossy key +:+ "."]
           end)
  end.
End commands.

(** ** Lemmas *)

Fixpoint no_dquote (s : string) : bool :=
  match s with
  | EmptyString => true
  | String c s' => negb (bool_decide (c = Ascii.ascii_of_nat 34)) && no_dquote s'
  end.

(** A quoted field ends at its closing quote. *)
Lemma quoted_inj a b r r' :
  no_dquote a = true → no_dquote b = true →
  a +:+ dquote +:+ r = b +:+ dquote +:+ r' → a = b ∧ r = r'.
Proof.
  revert b. induction a as [|c a IH]; intros [|d b] Ha Hb; cbn in *.
  - by intros [= ->].
  - intros [= <- _]. by rewrite bool_decide_eq_true_2 in Hb.
  - intros [= -> _]. by rewrite bool_decide_eq_true_2 in Ha.
  - intros [= -> H]. apply andb_true_iff in Ha as [_ Ha]. apply andb_true_iff in Hb as [_ Hb].
    by destruct (IH b Ha Hb H) as [-> ->].
Qed.

Lemma string_app_inj_l (s t u : string) : s +:+ t = s +:+ u → t = u.
Proof. induction s as [|c s IH]; cbn; [done|]. intros [= H]. auto. Qed.

Definition hash_text (h : string) (t : bool) : string :=
  ("upload_password_hash = " +:+ dquote) +:+ h +:+ dquote +:+ newline +:+
  (if t then "require_tls = true" +:+ newline else "").

(** A camera entry, field by field. *)
Lemma camera_entry_text n u h t :
  render_camera_entry n u h t =
    (newline +:+ "[[camera]]" +:+ newline +:+ "name = " +:+ dquote) +:+ n +:+ dquote +:+ newline +:+
    match u with
    | Some v => ("username = " +:+ dquote) +:+ v +:+ dquote +:+ newline +:+ hash_text h t
    | None => hash_text h t
    end.
Proof.
  unfold render_camera_entry, hash_text, quoted. destruct u; by rewrite <- !string_app_assoc.
Qed.

(** *** Decimal numbers in text *)

Definition is_digit (c : ascii) : bool :=
  Nat.leb 48 (Ascii.nat_of_ascii c) && Nat.leb (Ascii.nat_of_ascii c) 57.

Fixpoint all_digits (s : string) : bool :=
  match s with EmptyString => true | String c s' => is_digit c && all_digits s' end.

Lemma pretty_N_go_digits x s : all_digits s = true → all_digits (pretty_N_go x s) = true.
Proof.
  revert s. induction (N.lt_wf_0 x) as [x _ IH]; intros s Hs.
  assert (x = 0 ∨ 0 < x)%N as [->|Hx] by lia; [by rewrite pretty_N_go_0|].
  rewrite pretty_N_go_step by done. apply IH; [by apply N.div_lt|].
  cbn. rewrite Hs, andb_true_r. unfold pretty_N_char. by repeat case_match.
Qed.

Lemma pretty_digits (z : Z) : (0 ≤ z)%Z → all_digits (pretty z) = true.
Proof.
  intros Hz. destruct z as [|p|p]; [done| |lia].
  unfold pretty, pretty_Z, pretty, pretty_positive, pretty, pretty_N.
  case_decide; [done|]. by apply pretty_N_go_digits.
Qed.

Lemma digits_inj a b c r r' :
  all_digits a = true → all_digits b = true → is_digit c = false →
  a +:+ String c r = b +:+ String c r' → a = b ∧ r = r'.
Proof.
  revert b. induction a as [|x a IH]; intros [|y b] Ha Hb Hc; cbn in *.
  - by intros [= ->].
  - intros [= <- _]. by rewrite Hc in Hb.
  - intros [= -> _]. by rewrite Hc in Ha.
  - intros [= -> Hr]. apply andb_true_iff in Ha as [_ Ha]. apply andb_true_iff in Hb as [_ Hb].
    by destruct (IH b Ha Hb Hc Hr) as [-> ->].
Qed.

(** A number followed by something else can be read back. *)
Lemma number_inj (x y : Z) c t r r' :
  (0 ≤ x)%Z → (0 ≤ y)%Z → is_digit c = false →
  pretty x +:+ String c t +:+ r = pretty y +:+ String c t +:+ r' → x = y ∧ r = r'.
Proof.
  intros Hx Hy Hc Hr. apply digits_inj in Hr as [Hp Hr]; auto using pretty_digits.
  apply string_app_inj_l in Hr. split; [|done]. by apply (inj pretty).
Qed.

(** *** Decryption *)

Section decryption.
Context `{AgeLib}.

Lemma decrypt_loop_spec wr i reads t s h :
  fs_fds s !! wr = Some h → at_end h i s → Forall (λ c, c ≠ []) reads →
  ∃ s', run_ok (decrypt_loop wr reads None t) s =
      (Ok (t + Z.of_nat (length (concat reads)))%Z, s') ∧ wrote wr i (concat reads) s s'.
Proof.
  intros Hfd Hh Hne. revert t s h Hfd Hh.
  induction Hne as [|c rest Hc _ IH]; intros t s h Hfd Hh; cbn [decrypt_loop concat].
  { exists s. split; [by rewrite run_ok_ret, Z.add_0_r|]. by eapply wrote_nil. }
  rewrite decide_False by done. rewrite run_ok_bind, run_ok_ask.
  destruct (write_end wr i c s h Hfd Hh) as (s1 & -> & Hw1). cbn [fst snd].
  destruct (wr_fd _ _ _ _ _ Hw1) as (h1 & Hfd1 & Hh1).
  destruct (IH (t + Z.of_nat (length c))%Z s1 h1 Hfd1 Hh1) as (s2 & -> & Hw2).
  exists s2. split; [|by eapply wrote_trans]. by rewrite length_app, Nat2Z.inj_add, Z.add_assoc.
Qed.

Lemma decrypt_names q n :
  Forall valid_name q → valid_name n → valid_name (n +:+ ".age") →
  to_string_lossy (n +:+ ".age") = n +:+ ".age" →
  decrypt_stem (render (q ++ [n +:+ ".age"])) = Some n ∧
  with_file_name (render (q ++ [n +:+ ".age"])) n = render (q ++ [n]).
Proof.
  intros Hq Hn Ha Hl. assert (Forall valid_name (q ++ [n +:+ ".age"])) as Hv
    by (apply Forall_app; auto).
  unfold decrypt_stem, with_file_name. rewrite file_name_render, last_snoc, parent_render by done.
  rewrite decide_True, strip_suffix_app by done. split; [done|]. by rewrite render_snoc.
Qed.

(** Both files opened and the ciphertext read. *)
Lemma decrypt_stream_spec id rd wr i i0 s cs h :
  fs_fds s !! rd = Some (HRead i0 0) → fs_fds s !! wr = Some h → at_end h i s → rd ≠ wr →
  decryptor id (content s i0) = Ok (cs, None) → Forall (λ c, c ≠ []) cs →
  ∃ s' n, run_ok (decrypt_stream id rd wr) s = (Ok n, s') ∧
    fs_tree s' = fs_tree s ∧ content s' i = content s i ++ concat cs ∧
    (∀ j, j ≠ i → content s' j = content s j) ∧
    (∀ fd, fd ≠ rd → fd ≠ wr → fs_fds s' !! fd = fs_fds s !! fd).
Proof.
  intros Hrd Hwr Hh Hne Hdec Hcs. unfold decrypt_stream. rewrite run_ok_bind, run_ok_ask.
  cbn [exec]. rewrite Hrd. cbn [fst snd drop]. rewrite drop_0, Hdec.
  set (s1 := set_fds <[rd := HRead i0 (Nat.max 0 (length (content s i0)))]> s).
  destruct (decrypt_loop_spec wr i cs 0 s1 h) as (s2 & Hr & Hw); [|done|done|].
  { cbn. by rewrite lookup_insert_ne. }
  exists s2, (Z.of_nat (length (concat cs))). split; [exact Hr|].
  split; [by rewrite (wr_tree _ _ _ _ _ Hw)|]. split; [by rewrite (wr_content _ _ _ _ _ Hw)|].
  split; [intros j Hj; by rewrite (wr_others _ _ _ _ _ Hw)|].
  intros fd H1 H2. rewrite (wr_fds _ _ _ _ _ Hw) by done. cbn. by rewrite lookup_insert_ne.
Qed.
(** What an output file, once opened and written, holds beside the others. *)
Lemma output_files st fd i h s s2 s3 b :
  opened st fd i h [] s s2 → fs_tree s3 = fs_tree s2 → content s3 i = b →
  (∀ j, j ≠ i → content s3 j = content s2 j) →
  file_at s3 st = Some b ∧ ∀ q', q' ≠ st → file_at s3 q' = file_at s q'.
Proof.
  intros Hop Ht Hc Hoc. unfold file_at. rewrite Ht, (op_tree _ _ _ _ _ _ _ Hop), lookup_insert_eq.
  split; [by rewrite Hc|]. intros q' Hq. rewrite lookup_insert_ne by done.
  destruct (fs_tree s !! q') as [[j| |]|] eqn:E; try done. f_equal.
  assert (j ≠ i) as Hj by (intros ->; by apply (op_sole _ _ _ _ _ _ _ Hop) in E).
  by rewrite Hoc, (op_others _ _ _ _ _ _ _ Hop).
Qed.
Lemma decrypt_file_ok id s q n ct cs :
  plain_fs s → is_dir (fs_tree s) q → valid_name n → valid_name (n +:+ ".age") →
  to_string_lossy (n +:+ ".age") = n +:+ ".age" →
  file_at s (q ++ [n +:+ ".age"]) = Some ct → fs_tree s !! (q ++ [n]) = None →
  decryptor id ct = Ok (cs, None) → Forall (λ c, c ≠ []) cs →
  ∃ s', run_ok (decrypt_file id None (render (q ++ [n +:+ ".age"]))) s = (Ok tt, s') ∧
    file_at s' (q ++ [n]) = Some (concat cs) ∧
    (∀ q', q' ≠ q ++ [n] → file_at s' q' = file_at s q') ∧
    (∀ fd, fs_fds s' !! fd = fs_fds s !! fd).
Proof.
  intros Hp Hd Hn Ha Hl Hct Hfree Hdec Hcs.
  destruct (decrypt_names q n (plain_dir_valid s Hp q Hd) Hn Ha Hl) as [Hstem Hout].
  destruct (open_read_at s _ _ Hp Hct) as (i0 & Ho & Hi0).
  set (s1 := (open_handle (HRead i0 0) s).2).
  assert (plain_fs s1) as Hp1.
  { pose proof (exec_plain (OpenRead (render (q ++ [n +:+ ".age"]))) s Hp I) as H'. by rewrite Ho in H'. }
  destruct (open_truncate_staging s1 q n Hp1 Hd Hn) as (i & s2 & Ho2 & Hop).
  { intros i Hi. cbn in Hi. congruence. }
  { cbn. by rewrite Hfree. }
  pose proof (next_fd_fresh s (pf_wf _ Hp)) as Hf1.
  assert (fs_fds s1 !! fs_next_fd s = Some (HRead i0 0)) as Hrd by (cbn; by simplify_map_eq).
  assert (fs_next_fd s ≠ fs_next_fd s1) as Hne by (cbn; lia).
  assert (i0 ≠ i) as Hi by (intros ->; by eapply (op_quiet _ _ _ _ _ _ _ Hop)).
  destruct (decrypt_stream_spec id (fs_next_fd s) (fs_next_fd s1) i i0 s2 cs (HWrite i 0))
    as (s3 & m & Hr & Ht & Hc & Hoc & Hfds); try done.
  - rewrite (op_fds _ _ _ _ _ _ _ Hop). by rewrite lookup_insert_ne.
  - rewrite (op_fds _ _ _ _ _ _ _ Hop). by rewrite lookup_insert_eq.
  - apply Hop.
  - rewrite (op_others _ _ _ _ _ _ _ Hop) by done. change (content s1 i0) with (content s i0). by rewrite Hi0.
  - pose proof (output_files _ _ _ _ _ _ _ (concat cs) Hop Ht) as Hfiles.
    specialize (Hfiles ltac:(by rewrite Hc, (op_content _ _ _ _ _ _ _ Hop)) Hoc).
    exists (set_fds (delete (fs_next_fd s)) (set_fds (delete (fs_next_fd s1)) s3)). split_and!.
    + unfold decrypt_file. rewrite Hstem, Hout. rewrite run_ok_bind, run_ok_ask, Ho.
      unfold open_handle at 1. cbn [fst]. rewrite run_ok_bind, run_ok_ask. fold s1. rewrite Ho2.
      cbn [fst snd]. rewrite run_ok_bind, Hr. cbn [fst snd].
      by rewrite run_ok_bind, run_ok_ask, run_ok_bind, run_ok_ask.
    + by apply Hfiles.
    + intros q' Hq. by apply Hfiles.
    + intros fd. cbn. destruct (decide (fd = fs_next_fd s)) as [->|H1]; [by rewrite lookup_delete_eq|].
      rewrite lookup_delete_ne by done.
      destruct (decide (fd = fs_next_fd s1)) as [->|H2].
      * rewrite lookup_delete_eq. symmetry. rewrite <- (op_fresh _ _ _ _ _ _ _ Hop).
        cbn. by rewrite lookup_insert_ne.
      * rewrite lookup_delete_ne, Hfds, (op_fds _ _ _ _ _ _ _ Hop), lookup_insert_ne by done.
        cbn. by rewrite lookup_insert_ne.
Qed.
End decryption.

(** ** Properties *)

Section properties.
Context `{AgeLib}.

(** Decrypting a downloaded file writes, beside it and under its name without
    [.age], exactly the plaintext its ciphertext decrypts to; every other file
    keeps its content and no descriptor stays open. *)
Theorem decrypt_restores id s q n ct cs :
  plain_fs s → is_dir (fs_tree s) q → valid_name n → valid_name (n +:+ ".age") →
  to_string_lossy (n +:+ ".age") = n +:+ ".age" →
  file_at s (q ++ [n +:+ ".age"]) = Some ct → fs_tree s !! (q ++ [n]) = None →
  decryptor id ct = Ok (cs, None) → Forall (λ c, c ≠ []) cs →
  ∃ s', run_ok (decrypt_file id None (render (q ++ [n +:+ ".age"]))) s = (Ok tt, s') ∧
    file_at s' (q ++ [n]) = Some (concat cs) ∧
    (∀ q', q' ≠ q ++ [n] → file_at s' q' = file_at s q') ∧
    (∀ fd, fs_fds s' !! fd = fs_fds s !! fd).
Proof. apply decrypt_file_ok. Qed.

(** The retention period is the configured number of days as long as its seconds
    fit in 64 bits, that is up to 213503982334601 days; one day more wraps around
    to less than a day, so that asking to keep footage for ever deletes
    everything older than some hours. *)
Theorem retention_wraps :
  (∀ d, 0 ≤ d ≤ 213503982334601 → retention_ns d = from_secs (d * 86400))%Z ∧
  (retention_ns 213503982334602 < from_secs 86400)%Z.
Proof.
  split; [|by vm_compute]. intros d Hd. unfold retention_ns, wrap_u64. f_equal.
  apply Z.mod_small. lia.
Qed.

(** A camera entry of fields without double quotes determines the fields: two
    different cameras are never rendered alike. *)
Theorem camera_entry_injective n1 u1 h1 t1 n2 u2 h2 t2 :
  no_dquote n1 = true → no_dquote h1 = true → (∀ u, u1 = Some u → no_dquote u = true) →
  no_dquote n2 = true → no_dquote h2 = true → (∀ u, u2 = Some u → no_dquote u = true) →
  render_camera_entry n1 u1 h1 t1 = render_camera_entry n2 u2 h2 t2 →
  n1 = n2 ∧ u1 = u2 ∧ h1 = h2 ∧ t1 = t2.
Proof.
  intros Hn1 Hh1 Hu1 Hn2 Hh2 Hu2. rewrite !camera_entry_text. intros Hr%string_app_inj_l.
  apply quoted_inj in Hr as [-> Hr]; [|done..]. apply string_app_inj_l in Hr.
  assert (u1 = u2 ∧ hash_text h1 t1 = hash_text h2 t2) as [-> Hh].
  { destruct u1 as [v1|], u2 as [v2|]; [|done|done|done].
    apply string_app_inj_l, quoted_inj in Hr as [-> Hr]; [|by apply Hu1|by apply Hu2].
    by apply string_app_inj_l in Hr. }
  apply string_app_inj_l, quoted_inj in Hh as [-> Hh]; [|done..].
  by destruct t1, t2.
Qed.

(** Fields are not escaped: a camera name that carries a quote, a line end and a
    key of its own renders to the very entry of another camera with another
    login, so the name chosen on the command line decides other settings. *)
Theorem camera_entry_injection n u h t :
  render_camera_entry (n +:+ dquote +:+ newline +:+ "username = " +:+ dquote +:+ u) None h t =
  render_camera_entry n (Some u) h t.
Proof. rewrite !camera_entry_text. by rewrite <- !string_app_assoc. Qed.

(** The firewall rules carry the configured limits faithfully: the ports and caps
    can be read back from the generated text, so two configurations with the
    same rules have the same control port, passive range, per-address cap and
    global cap. *)
Theorem nftables_faithful c1 c2 :
  (∀ c, c = c1 ∨ c = c2 → 0 ≤ port (server c) ∧ 0 ≤ (passive_ports (server c)).1 ∧
    0 ≤ (passive_ports (server c)).2 ∧ 0 ≤ max_connections_per_ip (limits c) ∧
    0 ≤ max_connections (limits c))%Z →
  render_nftables c1 = render_nftables c2 →
  port (server c1) = port (server c2) ∧ passive_ports (server c1) = passive_ports (server c2) ∧
  max_connections_per_ip (limits c1) = max_connections_per_ip (limits c2) ∧
  max_connections (limits c1) = max_connections (limits c2).
Proof.
  intros Hnn. destruct (Hnn c1 (or_introl eq_refl)) as (? & ? & ? & ? & ?).
  destruct (Hnn c2 (or_intror eq_refl)) as (? & ? & ? & ? & ?).
  unfold render_nftables. cbn zeta. intros Hr.
  do 16 apply string_app_inj_l in Hr.
  apply number_inj in Hr as [Hport Hr]; [|done..].
  apply number_inj in Hr as [Hglobal Hr]; [|done..]. do 8 apply string_app_inj_l in Hr.
  apply number_inj in Hr as [_ Hr]; [|done..].
  apply number_inj in Hr as [Hlo Hr]; [|done..].
  apply number_inj in Hr as [Hhi Hr]; [|done..].
  apply number_inj in Hr as [Hip _]; [|done..].
  split; [done|]. split; [|done]. destruct (passive_ports (server c1)), (passive_ports (server c2)).
  cbn in *. congruence.
Qed.

(** The hash an added account is given lets its own password in: a camera or viewer
    whose stored hash was computed by [hash_password], under any salt, passes the
    credential check with that password. *)
Theorem added_account_logs_in `{Argon2} `{!Argon2Laws} salt pw phc accounts u a :
  hashed salt pw = Ok phc → Account.get accounts u = Some a → password_hash a = phc →
  check_credentials accounts u pw = Some a.
Proof.
  unfold hashed, hash_password. destruct (argon2_hash hasher (bytes_of pw) salt) as [h|e] eqn:E; cbn; [|done].
  intros [= <-] Ha Hp. apply check_credentials_Some. split; [done|]. exists h.
  rewrite Hp. split; [apply phc_parse_print|]. by eapply argon2_verify_hash.
Qed.
End properties.
