(* ===== verification/Keys.v ===== *)
(** Keys: what [genkey] (main.rs, crypto.rs) and [gencert] (main.rs, tls.rs) leave
    on the disk, and the life of an age key from its generation to the decryption
    of a recording.

    A private key is only ever in a file that nobody but its owner can read, at
    every moment of the run and whichever operation fails, provided that no file
    was there before: the permission bits asked for only apply to a file that is
    created ([Findings.old_key_file_keeps_mode]). *)
From S2P Require Import Prelude StdPath StdFs Prog FsView Append Paths Crypto Config Account.
From S2P Require Import Limits Auth Store Backend Confine Commands.

(** ** Every moment of a run *)

(** The moments of a program's execution by itself, failures included. *)
Inductive moment {A} : prog A → Fs → prog A → Fs → Prop :=
| moment_here p s : moment p s p s
| moment_next T (e : Sys T) k s r s1 p s2 :
    ev_step e s r s1 → moment (k r) s1 p s2 → moment (Vis e k) s p s2.

(** [I] holds at every moment, and [Q] at the end. *)
Fixpoint always {A} (I : Fs → Prop) (p : prog A) (Q : A → Fs → Prop) (s : Fs) : Prop :=
  I s ∧
  match p with
  | Ret a => Q a s
  | Vis e k => ∀ r s', ev_step e s r s' → always I (k r) Q s'
  end.

Lemma always_moment {A} I (p q : prog A) Q s s' : always I p Q s → moment p s q s' → I s'.
Proof.
  intros Hp Hm. induction Hm as [p s|T e k s r s1 p s2 He _ IH]; [by destruct p, Hp|].
  destruct Hp as [_ Hk]. by eapply IH, Hk.
Qed.

Lemma always_bind {A B} I (p : prog A) (f : A → prog B) Q s :
  always I p (λ a s, always I (f a) Q s) s → always I (bind p f) Q s.
Proof.
  revert s. induction p as [a|T e k IH]; intros s; cbn; [by intros [_ ?]|].
  intros [Hi Hk]. split; [done|]. intros r s' Hs. by apply IH, Hk.
Qed.

Lemma always_mono {A} I (p : prog A) (Q Q' : A → Fs → Prop) s :
  (∀ a s, I s → Q a s → Q' a s) → always I p Q s → always I p Q' s.
Proof.
  intros HQ. revert s. induction p as [a|T e k IH]; intros s; cbn; intros [Hi Hk]; [auto|].
  split; [done|]. intros r s' Hs. by apply IH, Hk.
Qed.

(** ** Private files *)

(** No permission bit for the group or for others. *)
Definition private (ino : Inode) : Prop := Z.land (i_mode ino) 0x3f = 0%Z.

(** Compared to [s0], every file that is new or changed is private, or holds the
    beginning of the text that may be [shown]. *)
Definition discreet (s0 : Fs) (shown : option bytes) (s : Fs) : Prop :=
  ∀ i ino, fs_inodes s !! i = Some ino →
    fs_inodes s0 !! i = Some ino ∨ private ino ∨ ∃ t, shown = Some t ∧ i_data ino `prefix_of` t.

Lemma private_created now umask : private (mkInode [] now (Z.ldiff PRIVATE_MODE umask)).
Proof.
  unfold private. cbn [i_mode]. rewrite Z.ldiff_land, <- Z.land_assoc, (Z.land_comm (Z.lnot _)), Z.land_assoc.
  by rewrite Z.land_0_l.
Qed.

Section discreet.
Context (s0 : Fs) (shown : option bytes).

Lemma discreet_refl : discreet s0 shown s0.
Proof. by left. Qed.

Lemma discreet_set i b s :
  discreet s0 shown s → private (inode_of s i) ∨ (∃ t, shown = Some t ∧ b `prefix_of` t) →
  discreet s0 shown (set_content i b s).
Proof.
  intros Hd Hb j ino. cbn. intros [[<- <-]|[_ Hj]]%lookup_insert_Some; [right|by apply Hd].
  destruct Hb as [Hb|Hb]; [by left|by right].
Qed.

Lemma discreet_create mode d n s :
  discreet s0 shown s → mode = PRIVATE_MODE ∨ is_Some shown → discreet s0 shown (create_file mode d n s).
Proof.
  intros Hd Hm j ino. cbn. intros [[<- <-]|[_ Hj]]%lookup_insert_Some; [right|by apply Hd].
  destruct Hm as [->|[t ->]]; [left; apply private_created|right]. exists t. split; [done|apply prefix_nil].
Qed.

(** An empty file is open for writing at its start, and [text] may go there. *)
Definition receiving (q : list string) (text : bytes) (s : Fs) (fd : nat) (s1 : Fs) : Prop :=
  discreet s0 shown s1 ∧ plain_fs s1 ∧ (∀ q', q' ≠ q → fs_tree s1 !! q' = fs_tree s !! q') ∧
  ∃ i, fs_fds s1 !! fd = Some (HWrite i 0) ∧ content s1 i = [] ∧
    (private (inode_of s1 i) ∨ shown = Some text).

Lemma open_receiving mode p q text s r s1 :
  plain_fs s → components p = RootDir :: lexical q → Forall valid_name q → discreet s0 shown s →
  (mode = PRIVATE_MODE ∧ fs_tree s !! q = None) ∨ shown = Some text →
  ev_step (OpenTruncate mode p) s r s1 →
  (s1 = s ∧ ∃ x, r = Err x) ∨ ∃ fd, r = Ok fd ∧ receiving q text s fd s1.
Proof.
  intros Hp Hc Hv Hd Hm Hs. pose proof (ev_step_plain (OpenTruncate mode p) _ _ _ I Hs Hp) as Hp1.
  inversion Hs; subst; clear Hs; [|by left; eauto].
  pose proof (lookup_lexical s true p q Hp Hc Hv) as Hl.
  pose proof (lookup_path_wf s true p (pf_wf _ Hp)) as Hw. cbn [exec] in *.
  destruct (lookup_path s true p) as [q' e|d m|]; [subst q'| |by left; eauto].
  - destruct e as [i| |t]; [|by left; eauto..]. right. eexists. split; [done|].
    destruct Hm as [[_ Hn]|Hm]; [congruence|].
    assert (content (set_content i [] s) i = []) as Hci.
    { unfold content, inode_of. cbn. by rewrite lookup_insert_eq. }
    split; [|split; [done|split; [done|]]].
    + apply (discreet_set i [] s); [done|right; exists text; split; [done|apply prefix_nil]].
    + exists i. split; [cbn; by rewrite lookup_insert_eq|]. split; [done|by right].
  - destruct Hw as (_ & _ & Hnone). right. eexists. split; [done|].
    split; [|split; [done|split]].
    + apply (discreet_create mode d m s); [done|]. destruct Hm as [[-> _]|Hm]; [by left|right; by eexists].
    + intros q' Hq. cbn. rewrite lookup_insert_ne; [done|congruence].
    + exists (fs_next_ino s). unfold content, inode_of. cbn. rewrite !lookup_insert_eq. split; [done|]. split; [done|].
      destruct Hm as [[-> _]|Hm]; [left; apply private_created|by right].
Qed.

(** Open, write, close. *)
Lemma write_always {A} q text s fd s1 (k : io unit → prog A) Q :
  receiving q text s fd s1 →
  (∀ r s2, discreet s0 shown s2 → plain_fs s2 → (∀ q', q' ≠ q → fs_tree s2 !! q' = fs_tree s !! q') →
     always (discreet s0 shown) (k r) Q s2) →
  always (discreet s0 shown) (let! r := ask (Write fd text) in let! _ := ask (Close fd) in k r) Q s1.
Proof.
  intros (Hd & Hp & Ht & i & Hfd & Hc & Hpriv) Hk. cbn [bind ask always]. split; [done|]. intros r s2 Hs.
  pose proof (ev_step_plain (Write fd text) _ _ _ I Hs Hp) as Hp2.
  assert (∃ b, b `prefix_of` text ∧
    s2 = set_fds <[fd := HWrite i (0 + length b)]> (set_content i b s1)) as (b & Hb & ->).
  { assert (∀ b, write_handle fd b s1 = Some (set_fds <[fd := HWrite i (0 + length b)]> (set_content i b s1))) as Hw.
    { intros b. unfold write_handle. rewrite Hfd, Hc. unfold overwrite. cbn. by rewrite drop_nil, app_nil_r. }
    inversion Hs; subst; clear Hs; cbn [exec fault_exec]; rewrite Hw; eexists; [split; [reflexivity|done]|].
    split; [|done]. by exists (drop (fl_stored f) text); rewrite take_drop. }
  assert (discreet s0 shown (set_content i b s1)) as Hd2.
  { apply discreet_set; [done|]. destruct Hpriv as [?|Hs']; [by left|right; by exists text]. }
  split; [exact Hd2|]. intros r3 s3 Hs3. pose proof (ev_step_plain (Close fd) _ _ _ I Hs3 Hp2) as Hp3.
  assert (s3 = set_fds (delete fd) (set_fds <[fd := HWrite i (0 + length b)]> (set_content i b s1))) as ->
    by (by inversion Hs3).
  by apply Hk.
Qed.
End discreet.

Section keys.
Context `{AgeLib}.

Lemma genkey_always seed path q s :
  plain_fs s → components path = RootDir :: lexical q → Forall valid_name q → fs_tree s !! q = None →
  always (discreet s None) (genkey seed (Some path)) (λ _ _, True) s.
Proof.
  intros Hp Hc Hv Hn. unfold genkey. destruct (generate_identity seed) as [public secret].
  split; [apply discreet_refl|]. intros r s1 Hs.
  destruct (open_receiving s None _ path q (bytes_of (secret +:+ newline)) s r s1 Hp Hc Hv
    (discreet_refl s None) (or_introl (conj eq_refl Hn)) Hs) as [[-> [x ->]]|(fd & -> & Hr)].
  - split; [apply discreet_refl|done].
  - eapply write_always; [exact Hr|]. intros r2 s2 Hd _ _. by split.
Qed.

Lemma write_text_always s0 shown mode path text q s Q :
  plain_fs s → components path = RootDir :: lexical q → Forall valid_name q → discreet s0 shown s →
  (mode = PRIVATE_MODE ∧ fs_tree s !! q = None) ∨ shown = Some (bytes_of text) →
  (∀ r s2, discreet s0 shown s2 → plain_fs s2 → (∀ q', q' ≠ q → fs_tree s2 !! q' = fs_tree s !! q') → Q r s2) →
  always (discreet s0 shown) (write_text_mode mode path text) Q s.
Proof.
  intros Hp Hc Hv Hd Hm HQ. unfold write_text_mode. cbn [bind ask]. split; [done|]. intros r s1 Hs.
  destruct (open_receiving s0 shown mode path q (bytes_of text) s r s1 Hp Hc Hv Hd Hm Hs)
    as [[-> [x ->]]|(fd & -> & Hr)].
  - split; [done|]. by apply HQ.
  - eapply write_always; [exact Hr|]. intros r2 s2 Hd2 Hp2 Ht. split; [done|]. by apply HQ.
Qed.

Lemma write_cert_files_always cert_pem key_pem cert key qc qk s :
  plain_fs s → components cert = RootDir :: lexical qc → components key = RootDir :: lexical qk →
  Forall valid_name qc → Forall valid_name qk → fs_tree s !! qk = None → qc ≠ qk →
  always (discreet s (Some (bytes_of cert_pem))) (write_cert_files cert_pem key_pem cert key) (λ _ _, True) s.
Proof.
  intros Hp Hcc Hck Hvc Hvk Hn Hne. unfold write_cert_files, write_text. apply always_bind.
  apply (write_text_always _ _ _ _ _ qc); [exact Hp|exact Hcc|exact Hvc|apply discreet_refl|by right|].
  intros r s1 Hd Hp1 Ht. destruct r as [u|x]; [|by split].
  apply (write_text_always _ _ _ _ _ qk); [exact Hp1|exact Hck|exact Hvk|exact Hd| |done].
  left. split; [done|]. by rewrite Ht by (by apply not_eq_sym).
Qed.

(** ** The identity file *)

Definition key_text (id : Identity) : bytes := bytes_of (identity_to_string id +:+ newline).

Lemma split_newline s : graphic s = true → split_char (Ascii.ascii_of_nat 10) (s +:+ newline) = [s; ""].
Proof.
  induction s as [|c s IH]; cbn; [done|]. intros [Hc Hs]%andb_prop. rewrite IH by done.
  destruct (decide (c = Ascii.ascii_of_nat 10)) as [->|_]; [|done]. by vm_compute in Hc.
Qed.

(** The text is one line. *)
Lemma key_lines s : graphic s = true → str_lines (s +:+ newline) = [s].
Proof.
  intros Hs. unfold str_lines. rewrite split_newline by done. cbn. f_equal. unfold strip_cr.
  destruct (strip_suffix _ s) as [t|] eqn:E; [|done]. apply strip_suffix_Some in E as ->.
  by rewrite graphic_app, andb_false_r in Hs.
Qed.

Lemma graphic_ascii s : graphic s = true → is_ascii (s +:+ newline) = true.
Proof.
  induction s as [|c s IH]; cbn; [done|]. intros [Hc%bool_decide_eq_true Hs]%andb_prop.
  rewrite IH by done. rewrite andb_true_r. apply Nat.leb_le. lia.
Qed.

Lemma key_read `{!AgeLaws} id s q :
  plain_fs s → file_at s q = Some (key_text id) →
  run_ok (read_identity (render q)) s = (Ok id, s).
Proof.
  intros Hp Hf. destruct (age_identity_text id) as [Hg Hpre].
  unfold file_at in Hf. destruct (fs_tree s !! q) as [[i| |]|] eqn:E; simplify_eq.
  destruct (wft_parent _ (wf_is_tree _ (pf_wf _ Hp)) _ _ E) as (d & n & -> & Hn & Hd).
  unfold read_identity. rewrite run_ok_bind, run_ok_ask. cbn [exec].
  rewrite (lookup_at s Hp), E, Hf by done. unfold key_text, bytes_of.
  rewrite String.string_of_list_byte_of_string, decide_True by by apply to_string_lossy_ascii, graphic_ascii.
  cbn [fst snd]. rewrite key_lines by done. cbn [List.find]. unfold is_key_line.
  rewrite graphic_trim_start, Hpre by done. rewrite run_ok_ret, graphic_trim, age_identity_roundtrip by done. done.
Qed.

Lemma genkey_run seed s d k :
  plain_fs s → is_dir (fs_tree s) d → valid_name k → fs_tree s !! (d ++ [k]) = None →
  let id := identity_generate seed in
  ∃ s', run_ok (genkey seed (Some (render (d ++ [k])))) s = (Ok [recipient_to_string (to_public id)], s') ∧
    file_at s' (d ++ [k]) = Some (key_text id).
Proof.
  intros Hp Hd Hk Hn id.
  set (i := fs_next_ino s). set (fd := fs_next_fd s).
  set (s1 := (open_handle (HWrite i 0) (create_file PRIVATE_MODE d k s)).2).
  assert (content s1 i = []) as Hc by (unfold content, inode_of; cbn; by rewrite lookup_insert_eq).
  destruct (write_end fd i (key_text id) s1 (HWrite i 0)) as (s2 & Hx & Hw).
  { cbn. by rewrite lookup_insert_eq. }
  { right. by rewrite Hc. }
  exists (set_fds (delete fd) s2). split.
  - unfold genkey, generate_identity. fold id. rewrite run_ok_bind, run_ok_ask. cbn [exec].
    rewrite (lookup_at s Hp), Hn by done. unfold open_handle. cbn [fst snd].
    rewrite run_ok_bind, run_ok_ask. change (exec (Write _ _) _) with (exec (Write fd (key_text id)) s1).
    rewrite Hx. cbn [fst snd]. by rewrite run_ok_bind, run_ok_ask.
  - unfold file_at. cbn. rewrite (wr_tree _ _ _ _ _ Hw). cbn. rewrite lookup_insert_eq. f_equal.
    change (content s2 i = key_text id). by rewrite (wr_content _ _ _ _ _ Hw), Hc.
Qed.

(** ** Properties *)

(** C30. Keys stay private.  At every moment of [genkey] and [gencert], whichever
    operation fails: a file that was created or changed is readable for its owner
    alone, or holds the beginning of the certificate, which is public.  For the
    key's path no file may be there before, and it is another one than the
    certificate's. *)
Theorem keys_private s :
  plain_fs s →
  (∀ seed path q p s', components path = RootDir :: lexical q → Forall valid_name q →
     fs_tree s !! q = None → moment (genkey seed (Some path)) s p s' → discreet s None s') ∧
  (∀ debug rcgen hostnames cert_pem key_pem cert key qc qk p s',
     rcgen hostnames = Ok (cert_pem, key_pem) →
     components cert = RootDir :: lexical qc → components key = RootDir :: lexical qk →
     Forall valid_name qc → Forall valid_name qk → fs_tree s !! qk = None → qc ≠ qk →
     moment (gencert debug rcgen hostnames cert key) s p s' →
     discreet s (Some (bytes_of cert_pem)) s').
Proof.
  intros Hp. split.
  - intros seed path q p s' Hc Hv Hn. by eapply always_moment, genkey_always.
  - intros debug rcgen hostnames cert_pem key_pem cert key qc qk p s' Hg Hcc Hck Hvc Hvk Hn Hne.
    apply (always_moment _ _ _ (λ _ _, True)). unfold gencert, generate_self_signed. rewrite Hg. cbn [map_err].
    apply always_bind. eapply always_mono; [|by eapply write_cert_files_always]. by split.
Qed.

(** C29. The life of a key.  [genkey] writes an identity file and prints a public line;
    the server's configuration accepts that line as the recipient of the identity;
    and whatever is encrypted to it, among any other recipients, [decrypt] restores
    with that file, on whatever machine it is. *)
Theorem key_lifecycle `{!AgeLaws} seed s d k :
  plain_fs s → is_dir (fs_tree s) d → valid_name k → fs_tree s !! (d ++ [k]) = None →
  let id := identity_generate seed in
  ∃ public s',
    run_ok (genkey seed (Some (render (d ++ [k])))) s = (Ok [public], s') ∧
    file_at s' (d ++ [k]) = Some (key_text id) ∧
    parse_recipients [public] = Ok [to_public id] ∧
    ∀ seed2 recs enc chunks m d2 k2 q n,
      to_public id ∈ recs → with_recipients seed2 recs = Ok enc →
      plain_fs m → file_at m (d2 ++ [k2]) = Some (key_text id) →
      is_dir (fs_tree m) q → valid_name n → valid_name (n +:+ ".age") →
      to_string_lossy (n +:+ ".age") = n +:+ ".age" →
      file_at m (q ++ [n +:+ ".age"]) = Some (concat (ciphertext enc chunks)) →
      fs_tree m !! (q ++ [n]) = None →
      ∃ m', run_ok (decrypt (render (d2 ++ [k2])) None [render (q ++ [n +:+ ".age"])]) m = (Ok tt, m') ∧
        file_at m' (q ++ [n]) = Some (concat chunks) ∧
        (∀ q', q' ≠ q ++ [n] → file_at m' q' = file_at m q').
Proof.
  intros Hp Hd Hk Hn id. destruct (genkey_run seed s d k Hp Hd Hk Hn) as (s' & Hr & Hf).
  eexists _, s'. split; [exact Hr|]. split; [exact Hf|]. split.
  { unfold parse_recipients. cbn. by rewrite graphic_trim, age_recipient_roundtrip by apply age_key_text. }
  intros seed2 recs enc chunks m d2 k2 q n Hid Henc Hpm Hkey Hq Hvn Hva Hl Hct Hfree.
  destruct (age_decrypts id seed2 recs enc chunks Hid Henc) as (cs & Hdec & Hcs & Hne).
  destruct (decrypt_file_ok id m q n _ cs Hpm Hq Hvn Hva Hl Hct Hfree Hdec Hne) as (m' & Hrun & Hfile & Hoth & _).
  exists m'. unfold decrypt. rewrite run_ok_bind, (key_read id m _ Hpm Hkey). cbn [fst snd decrypt_files].
  rewrite run_ok_bind, Hrun. cbn [fst snd]. rewrite run_ok_ret, Hfile, Hcs. done.
Qed.
End keys.
