(* ===== verification/Main.v ===== *)
(** [main.rs]: the program, from its parsed arguments to what it prints or the
    server it leaves running.

    Arguments are parsed by the clap crate into [Command]; the process' inputs
    (environment, standard input, random bytes, clock) are [Process].  An
    outcome is the standard output or the error a command ends with; messages to
    standard error are left out. *)
From stdpp Require Import relations.
From S2P Require Import Prelude StdPath StdFs Prog FsView Append Paths Crypto Config Account.
From S2P Require Import Limits Auth Store Backend Immutable Retention Server System Commands.

(** ** [cli.rs]: the subcommands *)

Inductive Command : Type :=
| Serve (config : string)
| Cleanup (config : string) (dry_run : bool)
| AddCamera (name : string) (username : option string) (require_tls : bool)
| AddViewer (name scope : string)
| HashPassword
| Nftables (config : string)
| Gencert (hostnames : list string) (cert key : string)
| Genkey (output : option string)
| Decrypt (identity : string) (output : option string) (files : list string).

Record Process `{AgeLib} : Type := mkProcess {
  env_password : option string;
  env_config : option string;
  stdin_line : result string string;
  salt : bytes;
  seed : Seed;
  wall_clock : Z;
  stack : nat
}.

Arguments mkProcess {_}.
Arguments Process {_}.

Inductive Outcome (S : Type) : Type :=
| Exit (r : result string string)
| Listening (srv : S) (st : Running) (addr : string)
| Unfinished.
Arguments Exit {S} _.
Arguments Listening {S} _ _ _.
Arguments Unfinished {S}.

(** [stack] bounds the depth the sweep may recurse to. *)

(** The text of printed lines. *)
Definition println (lines : list string) : string := String.concat "" ((λ l, l +:+ newline) <$> lines).

Section main.
Context `{AgeLib} `{Argon2} (toml : string → result Config string).
Context (rcgen : list string → result (string * string) string) (debug : string → string).
Context {S : Type} (lib_build : ServerSettings → result S string).

Definition printed (r : result (list string) string) : Outcome S :=
  Exit (match r with Ok lines => Ok (println lines) | Err e => Err e end).

Definition config_path (pr : Process) : string := default DEFAULT_CONFIG (env_config pr).

Definition password_of_process (pr : Process) : result string string :=
  read_password (env_password pr) (stdin_line pr).

Definition main (pr : Process) (c : Command) : prog (Outcome S) :=
  match c with
  | Serve config =>
      let! r := load toml config in
      match r with
      | Err e => Ret (Exit (Err (config_error_to_string e)))
      | Ok cfg =>
          let! r := start lib_build cfg in
          Ret (match r with
               | Err e => Exit (Err e)
               | Ok (srv, st, addr) => Listening srv st addr
               end)
      end
  | Cleanup config dry_run =>
      let! r := cleanup toml (stack pr) config dry_run (wall_clock pr) in
      Ret (match r with None => Unfinished | Some r => printed r end)
  | AddCamera name username require_tls =>
      let! r := add_camera (env_config pr) (salt pr) (password_of_process pr) name username require_tls in
      Ret (printed (match r with
                    | Err e => Err e
                    | Ok _ => Ok ["Camera " +:+ debug name +:+ " added to "
                                  +:+ to_string_lossy (config_path pr) +:+ "."]
                    end))
  | AddViewer name scope =>
      let! r := add_viewer (env_config pr) (salt pr) (password_of_process pr) name scope in
      Ret (printed (match r with
                    | Err e => Err e
                    | Ok _ => Ok ["Viewer " +:+ debug name +:+ " added to "
                                  +:+ to_string_lossy (config_path pr) +:+ "."]
                    end))
  | HashPassword =>
      Ret (printed (let? password := password_of_process pr in
                    let? hash := hashed (salt pr) password in
                    Ok [hash]))
  | Nftables config =>
      let! r := load toml config in
      Ret (Exit (match r with
                 | Err e => Err (config_error_to_string e)
                 | Ok cfg => Ok (render_nftables cfg)
                 end))
  | Gencert hostnames cert key =>
      let! r := gencert debug rcgen hostnames cert key in Ret (printed r)
  | Genkey output =>
      let! r := genkey (seed pr) output in Ret (printed r)
  | Decrypt identity output files =>
      let! r := decrypt identity output files in
      Ret (printed (match r with Err e => Err e | Ok _ => Ok [] end))
  end.

(** The commands that only look. *)
Definition looks_only (c : Command) : bool :=
  match c with
  | Cleanup _ dry_run => dry_run
  | HashPassword | Nftables _ => true
  | _ => false
  end.

(** The configuration file a command must be able to load first. *)
Definition needs_config (c : Command) : option string :=
  match c with
  | Serve config | Cleanup config _ | Nftables config => Some config
  | _ => None
  end.
End main.

(** ** Lemmas *)

Definition inspects (T : Type) (e : Sys T) : Prop :=
  match e with ReadToString _ => True | _ => read_only T e end.

Lemma inspects_step T (e : Sys T) s r s' : inspects T e → ev_step e s r s' → s' = s.
Proof.
  intros He Hs. destruct e; try done; try (by eapply read_only_step, Hs).
  inversion Hs; subst; clear Hs; [|done]. cbn [exec]. by repeat case_match.
Qed.

Lemma inspects_run {A} (p : prog A) w : all_ops inspects p → w_fs (run p w).2 = w_fs w.
Proof.
  intros Hp. apply (run_invariant (λ s, s = w_fs w) inspects); [|done|done].
  intros T e s r s' He Hs ->. by eapply inspects_step.
Qed.

Lemma load_inspects `{AgeLib} toml path : all_ops inspects (load toml path).
Proof. by repeat split. Qed.

Section lemmas.
Context `{AgeLib} `{Argon2} (toml : string → result Config string).
Context (rcgen : list string → result (string * string) string) (debug : string → string).
Context {S : Type} (lib_build : ServerSettings → result S string).
Abbreviation main := (main toml rcgen debug lib_build).

Lemma looks_only_inspects pr c : looks_only c = true → all_ops inspects (main pr c).
Proof.
  intros Hc. pose proof (load_inspects toml) as Hl.
  destruct c as [| config dry | | | | | | |]; try done; cbn [looks_only] in Hc; cbn [Main.main].
  - subst dry. assert (∀ fuel r q st n root, all_ops inspects (sweep r q st n true fuel root)) as Hs.
    { intros. eapply all_ops_mono; [|apply visit_dry_read_only]. by intros T []. }
    unfold cleanup. ops.
Qed.

Lemma run_load_err path w e :
  (run (load toml path) w).1 = Err e → w_fs (run (load toml path) w).2 = w_fs w.
Proof. intros _. apply inspects_run, load_inspects. Qed.
End lemmas.

(** ** Properties *)

Section properties.
Context `{AgeLib} `{Argon2} (toml : string → result Config string).
Context (rcgen : list string → result (string * string) string) (debug : string → string).
Context {S : Type} (lib_build : ServerSettings → result S string).
Abbreviation main := (main toml rcgen debug lib_build).

(** C35. Only [serve] starts a server, and it starts the one of its configuration
    file: when the program comes to listen, the file was loaded and valid, the
    library accepted its settings, and the state the server runs on is the
    initial state of the system. *)
Theorem main_serves pr c w srv st addr w' :
  run (main pr c) w = (Listening srv st addr, w') →
  ∃ config cfg, c = Serve config ∧ (run (load toml config) w).1 = Ok cfg ∧ valid_config cfg ∧
    build_server lib_build cfg = Ok srv ∧ ∀ t s, st = sy_running (started cfg t s).
Proof.
  destruct c as [config|config dry|n u t|n sc| |config|h ce k|o|i o fs]; cbn [Main.main];
    rewrite ?run_bind.
  3-9: intros [= E _].
  - destruct (run (load toml config) w) as [[cfg|e] w1] eqn:El; cbn [fst snd]; [|done].
    rewrite run_bind. unfold start. rewrite run_bind.
    destruct (run (ensure_home_dirs cfg) w1) as [[u|k] w2]; cbn [fst snd run]; [|done].
    destruct (build_server lib_build cfg) as [s|e] eqn:Eb; cbn [fst snd run]; [|done]. intros [= <- <- _ _].
    exists config, cfg. rewrite El. split_and!; try done. by eapply load_valid.
  - intros [= E _]. unfold printed in E. by repeat case_match.
Qed.

(** Commands that are meant to look do so: hashing a password, printing the
    firewall rules and a dry run of the cleanup leave every file and directory
    as it was, whichever operations fail; and a command whose configuration
    cannot be loaded ends with that error and changes nothing either. *)
Theorem main_changes_nothing pr c w :
  (looks_only c = true → w_fs (run (main pr c) w).2 = w_fs w) ∧
  (∀ config e, needs_config c = Some config → (run (load toml config) w).1 = Err e →
     (run (main pr c) w).1 = Exit (Err (config_error_to_string e)) ∧
     w_fs (run (main pr c) w).2 = w_fs w).
Proof.
  split; [intros Hc; by apply inspects_run, looks_only_inspects|].
  intros config e Hn He. pose proof (run_load_err toml config w e He) as Hw.
  destruct c as [c'|c' dry| | | |c'| | |]; try done; cbn in Hn; injection Hn as ->; cbn [Main.main];
    unfold cleanup; rewrite !run_bind;
    destruct (run (load toml config) w) as [r w1]; cbn [fst snd] in *; subst r; by split.
Qed.

(** What [hash-password] prints is a hash that accepts the password it was
    given, through the environment or on the input line without its line end. *)
Theorem hash_password_usable `{!Argon2Laws} pr pw phc w :
  password_of_process pr = Ok pw → hashed (salt pr) pw = Ok phc →
  run (main pr HashPassword) w = (Exit (Ok (phc +:+ newline)), w) ∧
  verify_password pw phc = Ok true.
Proof.
  intros Hpw Hh. cbn [Main.main run]. rewrite Hpw. cbn. rewrite Hh. cbn. split; [done|].
  unfold hashed, hash_password in Hh.
  destruct (argon2_hash hasher (bytes_of pw) (salt pr)) as [h|e] eqn:E; simplify_eq/=.
  unfold verify_password. rewrite phc_parse_print. cbn. by erewrite argon2_verify_hash.
Qed.
End properties.
