(* ===== verification/Delivery.v ===== *)
(** The whole way of an encrypted recording: a camera's upload, a viewer's
    retrieval, and the decryption of the retrieved file on the viewer's own
    machine. *)
From S2P Require Import Prelude StdPath StdFs Prog FsView Append Paths Crypto Config Account.
From S2P Require Import Limits Auth Store Backend Commands.

Section delivery.
Context `{AgeLib} `{!AgeLaws}.

(** C10. With encryption on, what a camera records is what the owner of a key
    sees: the upload of a fresh name is stored under the name with [.age], a viewer
    whose scope reaches that file retrieves a ciphertext, and the decryption of
    the retrieved file with any configured identity, in any directory of another
    machine, leaves there exactly the bytes the camera sent. *)
Theorem encrypted_delivery b recs seed enc cam viewer home v f v' qb qb' parts parts' n input s
    id l d :
  plain_fs s → backend_recipients b = Some recs → with_recipients seed recs = Ok enc →
  user_role cam = Uploader home → capability_allowed (user_role viewer) Op.Get = true →
  file_name v = Some f → is_reolink_test_file (to_string_lossy f) = false →
  rooted s cam v qb (parts ++ [n]) → rooted s viewer v' qb' parts' →
  qb' ++ parts' = qb ++ parts ++ [n +:+ ".age"] → open_way s (qb ++ parts) →
  fs_tree s !! (qb ++ parts ++ [n +:+ ".age"]) = None →
  fs_tree s !! (qb ++ parts ++ [n +:+ ".age" +:+ STAGING_SUFFIX]) = None →
  in_end input = None → to_public id ∈ recs →
  to_string_lossy (n +:+ ".age") = n +:+ ".age" →
  plain_fs l → is_dir (fs_tree l) d → fs_tree l !! (d ++ [n]) = None →
  ∃ s1 s2 ct,
    run_ok (serve b cam (RPut seed input v 0)) s =
      (Ok (AStored (Z.of_nat (length (in_data input)))), s1) ∧
    run_ok (serve b viewer (RGet v' 0)) s1 = (Ok (ABytes ct), s2) ∧
    (file_at l (d ++ [n +:+ ".age"]) = Some ct →
     ∃ l', run_ok (decrypt_file id None (render (d ++ [n +:+ ".age"]))) l = (Ok tt, l') ∧
       file_at l' (d ++ [n]) = Some (in_data input)).
Proof.
  intros Hp Hb Henc Hu Hg Hf Ht Hr Hr' Hq Hw Hfin Hst Hend Hid Hl Hpl Hd Hfree.
  pose proof (rooted_valid _ _ _ _ _ Hp Hr) as Hv. rewrite app_assoc in Hv.
  apply Forall_app in Hv as [_ Hn]. inversion Hn as [|? ? Hvn _]; subst.
  assert (valid_name (n +:+ ".age")) as Ha by (apply valid_name_push; [done|done|cbn; lia]).
  rewrite app_assoc, string_app_assoc in Hst. rewrite app_assoc in Hfin.
  destruct (store_encrypted_ok seed recs enc s (qb ++ parts) (n +:+ ".age") input)
    as (s1 & Hs & He & _); try done.
  { by rewrite Hst. }
  { intros i. by rewrite Hst. }
  destruct (age_decrypts id seed recs enc (in_chunks input) Hid Henc) as (cs & Hdec & Hcs & Hne).
  destruct (download_content b viewer v' 0 s1 qb' parts' (concat (ciphertext enc (in_chunks input))))
    as (s2 & Hget & _).
  - apply He.
  - done.
  - by apply (rooted_mono s); [|apply He..|].
  - rewrite Hq, app_assoc. apply He.
  - exists s1, s2, (concat (ciphertext enc (in_chunks input))). split_and!.
    + cbn [serve]. rewrite run_answered. erewrite put_encrypted by done. by rewrite app_assoc, Hs.
    + cbn [serve]. by rewrite run_answered, Hget.
    + intros Hct. destruct (decrypt_file_ok id l d n _ cs Hpl Hd Hvn Ha Hl Hct Hfree Hdec Hne)
        as (l' & Hrun & Hout & _).
      exists l'. split; [done|]. by rewrite Hout, Hcs.
Qed.
End delivery.
