(* ===== verification/Upkeep.v ===== *)
(** The nightly cleanup while the server is in use: [reoftpd cleanup] is a
    process of its own (main.rs, retention.rs), so the operations of its sweep
    interleave with those of the requests.

    A sweep looks at the date of a file and removes it by its name in two
    operations.  [Retention] says what it does undisturbed; here nothing is
    undisturbed, and the question is whether footage that is still to be kept can
    be lost in between. *)
From stdpp Require Import relations.
From S2P Require Import Prelude StdPath StdFs Prog FsView Append Paths Crypto Config Account.
From S2P Require Import Limits Auth Store Backend Immutable Confine Retention Commands.

(** ** The processes *)

(** Its date and its place say that the file is to be deleted. *)
Definition outlived (days now : Z) (q : list string) (ino : Inode) : Prop :=
  (i_mtime ino ≤ now)%Z ∧
  (now - i_mtime ino > ttl_of (retention_ns days) QUARANTINE_TTL STAGING_TTL q)%Z.

(** A process whose answer nobody waits for. *)
Definition process {A} (p : prog A) : prog unit := let! _ := p in Ret tt.

(** What is started on the machine: requests of any users, and cleanups of
    canonical directories for which [due] holds. *)
Inductive upkeep `{AgeLib} (due : Z → Z → Prop) : prog unit → Prop :=
| u_request b user r : upkeep due (process (serve b user r))
| u_cleanup days now dry fuel root :
    Forall valid_name root → due days now →
    upkeep due (process (cleaning days now dry fuel (render root))).

(** ** Operations of requests and cleanups *)

(** They keep the file system plain. *)
Definition tidy_op (T : Type) (e : Sys T) : Prop :=
  match e with
  | RemoveFile _ | RemoveDir _ => True
  | _ => client_op T e
  end.

(** They keep the file [q] while it is sealed. *)
Definition sparing_op (q : list string) (T : Type) (e : Sys T) : Prop :=
  match e with
  | RemoveDir _ => True
  | RemoveFile p =>
      named is_staging_name p ∨ ∃ q', Forall valid_name q' ∧ p = render q' ∧ q' ≠ q
  | _ => client_op T e
  end.

(** A plain file system, seen by a process whose working directory is the root. *)
Definition tidy (s : Fs) : Prop := plain_fs s ∧ fs_cwd s = [].

(** ** Lemmas *)

(** Removing a directory never removes the root. *)
Lemma remove_dir_plain p s : tidy s → plain_fs (exec (RemoveDir p) s).2.
Proof.
  intros [Hp Hc]. destruct (lookup_path s false p) as [[|n q] [i| |t]| |] eqn:E;
    first [by apply exec_plain; [done|cbn; rewrite Hc, E] | by cbn [exec]; rewrite E].
Qed.

Lemma tidy_step T (e : Sys T) s r s' : tidy_op T e → ev_step e s r s' → tidy s → tidy s'.
Proof.
  intros He Hs Ht. split; [|rewrite (ev_step_cwd _ _ _ _ Hs); apply Ht].
  inversion Hs; subst; clear Hs; [|by apply fault_plain, Ht].
  destruct e; try (by apply exec_plain; [apply Ht|]). by apply remove_dir_plain.
Qed.

Lemma client_tidy {A} (p : prog A) : all_ops client_op p → all_ops tidy_op p.
Proof. apply all_ops_mono. by intros T []. Qed.

(** A removal of another file keeps a sealed one. *)
Lemma sealed_remove_other q i ino s q' :
  sealed q i ino s → q' ≠ q → sealed q i ino (remove_entry q' s).
Proof.
  intros [] Hq. split; cbn; try done.
  - by rewrite lookup_delete_ne.
  - intros q1 [_ ?]%lookup_delete_Some. eauto.
Qed.

Section spare.
Context (q : list string) (i : nat) (ino : Inode).
Abbreviation safe := (λ s, tidy s ∧ sealed q i ino s).

Lemma sealed_remove_file s p q' :
  plain_fs s → sealed q i ino s → Forall valid_name q' → p = render q' → q' ≠ q →
  sealed q i ino (exec (RemoveFile p) s).2.
Proof.
  intros Hp Hs Hv -> Hq. pose proof (lookup_lexical s false (render q') q' Hp (components_render _ Hv) Hv) as Hl.
  cbn [exec]. destruct (lookup_path s false (render q')) as [q1 [j| |t]| |]; try done; subst q1;
    by apply sealed_remove_other.
Qed.

Lemma sealed_remove_dir s p : plain_fs s → sealed q i ino s → sealed q i ino (exec (RemoveDir p) s).2.
Proof.
  intros Hp Hs. pose proof (lookup_path_wf s false p (pf_wf _ Hp)) as Hw. cbn [exec].
  destruct (lookup_path s false p) as [[|n q'] [j| |t]| |]; try done.
  destruct (children _ _); [|done]. apply sealed_remove_other; [done|]. intros Heq.
  destruct Hw as [?|Hw]; [done|]. pose proof (se_entry _ _ _ _ Hs) as He. congruence.
Qed.

Lemma sparing_tidy T (e : Sys T) : sparing_op q T e → tidy_op T e.
Proof. by destruct e. Qed.

Lemma safe_step T (e : Sys T) s r s' : sparing_op q T e → ev_step e s r s' → safe s → safe s'.
Proof.
  intros He Hs [Ht Hi]. split; [by eapply tidy_step, Ht; [by apply sparing_tidy|]|].
  inversion Hs; subst; clear Hs; [|by apply sealed_fault].
  destruct e; try (by apply sealed_exec; [|apply Ht|]).
  - destruct He as [He|(q' & Hv & Hp & Hq)]; [by apply sealed_exec; [|apply Ht|]|].
    by apply (sealed_remove_file s p q'); [apply Ht|..].
  - apply sealed_remove_dir; [apply Ht|done].
Qed.

(** *** What a cleanup does, whatever happens around it *)

(** Names of a directory are names. *)
Lemma plain_names d s r s' names :
  plain_fs s → Forall valid_name d → ev_step (ReadDir (render d)) s r s' → r = Ok names →
  Forall valid_name names.
Proof.
  intros Hp Hv Hs ->. inversion Hs as [Hr Hs'|]; clear Hs. cbn [exec] in Hr, Hs'.
  destruct (lookup_path s true (render d)) as [q' [j| |l]| |] eqn:E; simplify_eq/=.
  apply list.Forall_forall. intros n [e He]%children_spec.
  apply (entry_valid _ _ _ (wf_is_tree _ (pf_wf _ Hp))) in He.
  apply Forall_app in He as [_ He]. by inversion He.
Qed.

(** The date the sweep sees of the sealed file. *)
Lemma sealed_stat s r s' meta :
  safe s → Forall valid_name q → ev_step (Stat (render q)) s r s' → r = Ok meta →
  m_modified meta = i_mtime ino.
Proof.
  intros [[Hp _] Hi] Hv Hs ->. inversion Hs as [Hr Hs'|]; clear Hs. cbn [exec] in Hr, Hs'.
  pose proof (lookup_lexical s true (render q) q Hp (components_render _ Hv) Hv) as Hl.
  pose proof (lookup_path_wf s true (render q) (pf_wf _ Hp)) as Hw.
  destruct (lookup_path s true (render q)) as [q' e| |]; simplify_eq/=.
  destruct Hi as [He Hino (d & n & Hq & _) _ _]. destruct e as [j| |l]; cbn; try congruence.
  destruct Hw as [Hw|Hw]; [|congruence]. rewrite Hq in Hw. by destruct d.
Qed.

Lemma sealed_valid s : safe s → Forall valid_name q.
Proof. intros [[Hp _] Hi]. eapply entry_valid; [apply Hp|apply Hi]. Qed.

Context (days now : Z) (Hdue : ¬ outlived days now q ino).

Lemma visit_file_spares dry d n rep :
  Forall valid_name (d ++ [n]) →
  ensures safe (sparing_op q)
    (visit_file (retention_ns days) QUARANTINE_TTL STAGING_TTL now dry
       (is_quarantine (render d)) (render (d ++ [n])) rep) (λ _, True).
Proof.
  intros Hv. unfold visit_file, older_than. rewrite <- ttl_of_child by done.
  cbn. split; [done|]. intros s r s' Hs Hst.
  match goal with |- ensures _ _ (if ?x then _ else _) _ => destruct x eqn:E end; cbn; [|done].
  destruct dry; cbn; [done|]. split; [|done]. right. exists (d ++ [n]).
  split; [done|]. split; [done|]. intros Hq. apply Hdue. destruct r as [meta|k]; [|done].
  case_decide as Hle; [|done]. apply bool_decide_eq_true in E. rewrite Hq in *.
  rewrite (sealed_stat _ _ _ meta Hs Hv Hst eq_refl) in *. done.
Qed.
End spare.

(** *** Invariants of the machine *)

Lemma cleaning_ensures (J : Fs → Prop) (P : ∀ T, Sys T → Prop) days now dry fuel root :
  (∀ s, J s → plain_fs s) → (∀ T (e : Sys T), read_only T e → P T e) → (∀ p, P _ (RemoveDir p)) →
  (∀ d n rep, Forall valid_name (d ++ [n]) → ensures J P
    (visit_file (retention_ns days) QUARANTINE_TTL STAGING_TTL now dry
       (is_quarantine (render d)) (render (d ++ [n])) rep) (λ _, True)) →
  Forall valid_name root → ensures J P (process (cleaning days now dry fuel (render root))) (λ _, True).
Proof.
  intros HJ Hl Hd Hf Hv. apply (ensures_bind _ _ _ _ (λ _, True)); [|done].
  unfold cleaning, sweep. generalize (mkSweepReport [] []). revert root Hv.
  induction fuel as [|fuel IH]; intros root Hv rep; [done|].
  apply (visit_promises _ _ _ _ _ _ _ (λ _, True)); [|done|].
  - split; try done. intros d s r s' names Hs. by apply plain_names, HJ.
  - intros n rep' Hn _. apply IH. apply Forall_app; auto.
Qed.

Section machine.
Context `{AgeLib}.

Lemma request_ensures (J : Fs → Prop) (P : ∀ T, Sys T → Prop) b user r :
  (∀ T (e : Sys T), client_op T e → P T e) →
  ensures J P (process (serve b user r)) (λ _, True).
Proof.
  intros Hc. apply ensures_ops, all_ops_bind; [|done].
  eapply all_ops_mono; [exact Hc|apply serve_client].
Qed.

Lemma upkeep_tidy due p : upkeep due p → ensures tidy tidy_op p (λ _, True).
Proof.
  intros [b user r|days now dry fuel root Hv _].
  - apply request_ensures. by intros T [].
  - apply cleaning_ensures; try done; [by intros s []|by intros T []|].
    intros d n rep _. unfold visit_file, older_than. cbn. split; [done|]. intros s r s' _ _.
    by case_match; cbn; [destruct dry|].
Qed.

Lemma upkeep_spares q i ino due p :
  (∀ days now, due days now → ¬ outlived days now q ino) → upkeep due p →
  ensures (λ s, tidy s ∧ sealed q i ino s) (sparing_op q) p (λ _, True).
Proof.
  intros Hdue [b user r|days now dry fuel root Hv Hd].
  - apply request_ensures. intros T []; try done. by left.
  - apply cleaning_ensures; try done; [by intros s [[]]|by intros T []|].
    intros d n rep. apply visit_file_spares. by apply Hdue.
Qed.

Lemma tidy_clock now s : tidy s → tidy (set_now now s).
Proof. intros [Hp Hc]. split; [by apply plain_set_now|done]. Qed.

Lemma sealed_clock now q i ino s : sealed q i ino s → sealed q i ino (set_now now s).
Proof. by intros []. Qed.

(** ** Properties *)

(** C23. Cleaning up while the cameras record loses nothing that is to be kept.
    Once a recording is published, and the cleanups begun before are over, nothing
    removes or changes it but a cleanup that starts when it has outlived the
    retention period: whatever requests are in flight or arrive, however many
    cleanups run at a time, for whichever directories and periods, however their
    operations interleave, and whichever of them fail. *)
Theorem cleanup_spares_recordings s0 s ps q n bs i s' ps' :
  plain_fs s0 → fs_cwd s0 = [] → pool_steps (upkeep (λ _ _, True)) (s0, []) (s, ps) →
  Forall (all_ops client_op) ps →
  finalized s (q ++ [n]) bs → fs_tree s !! (q ++ [n]) = Some (EFile i) →
  pool_steps (upkeep (λ days now, ¬ outlived days now (q ++ [n]) (inode_of s i))) (s, ps) (s', ps') →
  file_at s' (q ++ [n]) = Some bs.
Proof.
  intros Hp Hc Hreach Hps (j & ino & Hs & <-) Hi Hsteps.
  assert (tidy s) as Ht.
  { eapply (ensures_pool tidy tidy_op); [exact tidy_step|apply tidy_clock|apply upkeep_tidy|exact Hreach|done..]. }
  assert (j = i ∧ inode_of s i = ino) as [-> Hino].
  { pose proof (se_entry _ _ _ _ Hs). pose proof (se_inode _ _ _ _ Hs). simplify_eq. done. }
  rewrite Hino in Hsteps.
  destruct (ensures_pool (λ s, tidy s ∧ sealed (q ++ [n]) i ino s) (sparing_op (q ++ [n]))
    (upkeep (λ days now, ¬ outlived days now (q ++ [n]) ino)) (λ _, True) s ps s' ps' (safe_step _ _ _)) with (3 := Hsteps) as [[_ Hs'] _].
  - intros t s1 []. split; [by apply tidy_clock|by apply sealed_clock].
  - intros p. by apply upkeep_spares.
  - eapply Forall_impl; [exact Hps|]. intros p Ho. apply ensures_ops.
    eapply all_ops_mono; [|exact Ho]. intros T []; try done. by left.
  - done.
  - by eapply sealed_file_at.
Qed.
End machine.

(** ** What cleanup does to a camera that has nothing recorded *)

(** A part of the archive where every file has expired is gone after a sweep,
    the directories included. *)
Lemma swept_clean retention qttl sttl now R d home s s' :
  plain_fs s → depth_below d (fs_tree s) → swept retention qttl sttl now R s s' →
  (∀ q, home `prefix_of` q → R q) →
  (∀ q i, home `prefix_of` q → fs_tree s !! q = Some (EFile i) → expired retention qttl sttl now s q i) →
  ∀ q, home `prefix_of` q → fs_tree s' !! q = None.
Proof.
  intros Hp Hd Hs HR Hex.
  assert (∀ k q, S d - length q ≤ k → home `prefix_of` q → fs_tree s' !! q = None) as Hk; [|by intros q; eapply Hk].
  induction k as [|k IH]; intros q Hlen Hq; destruct (fs_tree s' !! q) as [e|] eqn:E; try done; exfalso;
    pose proof (sw_subset _ _ _ _ _ _ _ Hs q e E) as Es; pose proof (Hd q e Es) as Hle; [lia|].
  destruct e as [i| |t].
  - apply (sw_files _ _ _ _ _ _ _ Hs q i (HR q Hq) Es) in E. by apply E, Hex.
  - destruct (sw_dirs _ _ _ _ _ _ _ Hs q (HR q Hq) E) as [n [e He]].
    rewrite (IH (q ++ [n])) in He; [done| |by apply prefix_app_r].
    rewrite length_app. cbn. lia.
  - by destruct (pf_links _ Hp _ _ Es).
Qed.

(** A camera without a home cannot upload. *)
Lemma homeless_put `{AgeLib} b seed user home input v pos s :
  user_role user = Uploader home →
  (∀ f, file_name v = Some f → is_reolink_test_file (to_string_lossy f) = false) →
  (exec (Canonicalize home) s).1 = Err Io.NotFound → (exec (Canonicalize home) s).2 = s →
  ∃ e, run_ok (serve b user (RPut seed input v pos)) s = (Err e, s) ∧
    (∀ f parts, file_name v = Some f → normalize v = Ok parts →
       e = Storage.Kind Storage.PermanentFileNotAvailable).
Proof.
  intros Hu Ht Hc Hs. cbn [serve]. rewrite run_answered. unfold put. rewrite Hu.
  cbn [capability_allowed negb]. destruct (file_name v) as [f|]; [|by eexists].
  rewrite (Ht f eq_refl). rewrite run_ok_bind. unfold resolve_for, user_view. rewrite Hu, run_ok_bind.
  unfold resolve. destruct (normalize v) as [parts|]; [|by eexists]. cbn [single_root single].
  unfold contained. rewrite run_ok_bind, run_ok_ask, Hc, Hs. by eexists.
Qed.

(** The sweep leaves the directory it was called for, and nothing of the home. *)
Lemma swept_home retention qttl sttl now d q cam s s' :
  plain_fs s → is_dir (fs_tree s) q → depth_below d (fs_tree s) → is_dir (fs_tree s) (q ++ [cam]) →
  (∀ q' i, (q ++ [cam]) `prefix_of` q' → fs_tree s !! q' = Some (EFile i) →
     expired retention qttl sttl now s q' i) →
  swept retention qttl sttl now (region q (children (fs_tree s) q)) s s' →
  plain_fs s' ∧ is_dir (fs_tree s') q ∧ ∀ k, fs_tree s' !! ((q ++ [cam]) ++ k) = None.
Proof.
  intros Hp Hd Hdep Hhome Hex Ha.
  assert (fs_tree s !! (q ++ [cam]) = Some EDir) as Hc.
  { destruct Hhome as [Hh|Hh]; [by destruct q|done]. }
  assert (∀ q', (q ++ [cam]) `prefix_of` q' → region q (children (fs_tree s) q) q') as Hreg.
  { intros q' [r ->]. exists cam, r. split; [by apply children_spec; eexists|by rewrite <- app_assoc]. }
  split; [apply Ha|]. split.
  - destruct Hd as [->|Hd]; [by left|]. right. rewrite (sw_outside _ _ _ _ _ _ _ Ha); [done|].
    intros (n & r & _ & Hq). apply (f_equal length) in Hq. rewrite length_app in Hq. cbn in Hq. lia.
  - intros k. apply (swept_clean retention qttl sttl now _ d (q ++ [cam]) s s' Hp Hdep Ha Hreg Hex).
    by eexists.
Qed.

(** So the way into it is free. *)
Lemma home_way s q cam k :
  plain_fs s → is_dir (fs_tree s) q → valid_name cam → Forall valid_name k →
  (∀ k, fs_tree s !! ((q ++ [cam]) ++ k) = None) → open_way s ((q ++ [cam]) ++ k).
Proof.
  intros Hp Hd Hcam Hk Hgone. destruct (dir_open_way s q Hp Hd) as [Hv Hw]. split.
  { apply Forall_app. split; [|done]. apply Forall_app. by split; [|apply Forall_singleton]. }
  intros q' i [t Ht]. rewrite <- app_assoc in Ht. apply app_eq_inv in Ht as [(r & -> & _)|(r & -> & Hr)].
  - apply Hw. by eexists.
  - destruct r as [|x r]; [rewrite app_nil_r; by apply Hw|]. injection Hr as <- _.
    change (cam :: r) with ([cam] ++ r). by rewrite app_assoc, Hgone.
Qed.

Section properties.
Context `{AgeLib}.

(** C37. Cleanup locks a camera out.  When every file in a camera's home has outlived its
    time to live, or there is none, the sweep removes the home with them.  From
    then on every upload of the camera but that of a Reolink test file is refused,
    whatever it is, and changes nothing, so the next one meets the same state.
    What ends this is making the home again: a restart or a reload does, and so does
    an upload of a test file, which makes the quarantine in it. *)
Theorem cleanup_locks_out_camera retention qttl sttl now d fuel q cam s :
  plain_fs s → is_dir (fs_tree s) q → fs_cwd s = [] → depth_below d (fs_tree s) →
  d < length q + fuel → valid_name cam → is_dir (fs_tree s) (q ++ [cam]) →
  (∀ q' i, (q ++ [cam]) `prefix_of` q' → fs_tree s !! q' = Some (EFile i) →
     expired retention qttl sttl now s q' i) →
  let home := q ++ [cam] in
  ∃ rep s',
    run_ok (sweep retention qttl sttl now false fuel (render q)) s = (Some (Ok rep), s') ∧
    fs_tree s' !! home = None ∧
    (∀ b seed user input v pos, user_role user = Uploader (render home) →
       (∀ f, file_name v = Some f → is_reolink_test_file (to_string_lossy f) = false) →
       ∃ e, run_ok (serve b user (RPut seed input v pos)) s' = (Err e, s') ∧
         (∀ f parts, file_name v = Some f → normalize v = Ok parts →
            e = Storage.Kind Storage.PermanentFileNotAvailable)) ∧
    (∃ s'', run_ok (create_dir_all (render home)) s' = (Ok tt, s'') ∧ is_dir (fs_tree s'') home) ∧
    (∀ b seed user input v pos f, user_role user = Uploader (render home) → file_name v = Some f →
       is_reolink_test_file (to_string_lossy f) = true → in_end input = None →
       ∃ s'', run_ok (serve b user (RPut seed input v pos)) s' =
           (Ok (AStored (Z.of_nat (length (in_data input)))), s'') ∧ is_dir (fs_tree s'') home).
Proof.
  intros Hp Hd Hcwd Hdep Hf Hcam Hhome Hex home. subst home.
  destruct (visit_spec retention qttl sttl now false d fuel q s (mkSweepReport [] []))
    as (rep & s' & Hr & Ha & _); [done..|].
  destruct (swept_home retention qttl sttl now d q cam s s' Hp Hd Hdep Hhome Hex Ha) as (Hp' & Hd' & Hgone).
  pose proof (Hgone []) as Hnone. rewrite app_nil_r in Hnone.
  exists rep, s'. split; [done|]. split; [done|]. split; [|split].
  - intros b seed user input v pos Hu Ht.
    apply (homeless_put _ _ _ (render (q ++ [cam]))); [done..| |];
      cbn [exec]; rewrite (lookup_at s' Hp'), Hnone; done.
  - destruct (home_way s' q cam [] Hp' Hd' Hcam) as [Hv Hw]; [done..|]. rewrite app_nil_r in *.
    destruct (create_dir_all_ok (q ++ [cam]) s' Hp') as (s'' & Hmk & Hd'' & _); [done..|]. by exists s''.
  - intros b seed user input v pos f Hu Hfn Ht Hend.
    destruct (quarantine_run b seed user (q ++ [cam]) v f input pos s') as (s0 & s'' & i & Hrun & _ & Hdq & Hg); [done..| | | |].
    + apply home_way; [done..| |done]. by apply Forall_singleton.
    + by rewrite <- app_assoc, Hgone.
    + intros i. by rewrite <- app_assoc, Hgone.
    + rewrite Hend in Hrun. exists s''. split; [done|]. eapply is_dir_prefix; [apply Hg|].
      eapply staged_keeps_dir; [exact Hg|exact Hdq].
Qed.
End properties.
