(* ===== verification/Scenario.v ===== *)
(** A server with two cameras, run: what the theorems of System.v say of it, and
    a login that races a reload. *)
From stdpp Require Import relations.
From S2P Require Import Prelude StdPath StdFs Prog FsView Append Paths Crypto Config Account.
From S2P Require Import Limits Auth Store Backend Immutable Confine Concurrent Server System Service Moves.
From S2P Require Import Commands Main Toy Terminates Retention.

(** ** The site: two cameras, a viewer, two editions of the configuration *)

Definition site_server : ServerCfg := mkServerCfg "0.0.0.0" 21 (50000, 50100)%Z None None None None.
Definition site_limits : LimitsCfg :=
  mkLimitsCfg 8 4 30 120 1024 (mkLockoutCfg 5 300 3600) (Some 2%Z).

Definition site_cfg (cam : CameraCfg) : Config :=
  mkConfig site_server (mkArchiveCfg "/a" 30) site_limits
    [cam; mkCameraCfg "yard" None "$argon2id$0$yd" None] ∅ [mkViewerCfg "all" "$argon2id$0$all" All] None.

Definition first_cfg : Config := site_cfg (mkCameraCfg "cam" None "$argon2id$0$pw" None).
Definition second_cfg : Config := site_cfg (mkCameraCfg "cam" None "$argon2id$0$new" (Some true)).

(** The TOML library, on the two editions. *)
Definition site_toml (s : string) : result Config string :=
  if decide (s = "1") then Ok first_cfg
  else if decide (s = "2") then Ok second_cfg
  else Err "syntax".

Definition q_config : list string := ["etc"; "reo"].

(** Directories of both cameras, the configuration file, and one recording. *)
Definition site_fs : Fs :=
  (run_ok
    (let! _ := create_dir_all "/a/cam" in
     let! _ := create_dir_all "/a/yard" in
     let! _ := create_dir_all "/etc" in
     let! r := ask (OpenTruncate FILE_MODE "/etc/reo") in
     match r with
     | Err _ => Ret tt
     | Ok fd =>
         let! _ := ask (Write fd (bytes_of "1")) in
         let! _ := ask (Close fd) in
         let! _ := serve plain_backend cam_user (upload "clip" 0 "AA") in
         Ret tt
     end) (empty_fs 1000)).2.

Definition password_of (pw : string) : Credentials := mkCredentials (Some pw) Plaintext.

Abbreviation site_moves := (moves site_toml plain_backend "/etc/reo" q_config).

(** A client that knows the password of the camera "yard" only: it logs in,
    uploads, tries the other camera's directory and the other camera's login;
    the server reloads. *)
Definition intrusion : list Move :=
  [MConnect "yard" (password_of "yd"); MCheck 0; MDetails 0; MRequest 0 (upload "x" 0 "BB")]
  ++ replicate 14 (MOperate 0) ++
  [MRequest 0 (upload "/../cam/clip" 2 "ZZ"); MRequest 0 (RDel "/clip"); MOperate 1; MHangup]
  ++ replicate 12 MReload ++
  [MConnect "cam" (password_of "yd"); MCheck 0; MLogout 0; MReap].

Definition site : System := started first_cfg 0 site_fs.
Definition intruded : System := site_moves intrusion site.

(** ** The hypotheses of the theorems hold of the site *)

Lemma site_plain : plain_fs site_fs.
Proof.
  apply run_plain; [|apply empty_plain].
  assert (∀ p, all_ops removes_no_dir (create_dir_all p)) as Hd by (intros; by apply create_dir_all_ops).
  assert (∀ r, all_ops removes_no_dir (serve plain_backend cam_user r)) as Hs.
  { intros r. eapply all_ops_mono; [|apply serve_client]. by intros T []. }
  ops.
Qed.

(** What the client presents: the password of the camera "yard", anywhere. *)
Definition knows_yard (u : string) (creds : Credentials) : Prop := creds = password_of "yd".
Definition only_first (txt : bytes) : Prop := txt = bytes_of "1".
Definition anything (user : ReoUser) (r : Request) : Prop := True.

Lemma first_parsed :
  parse_str site_toml (String.string_of_list_byte (bytes_of "1")) = Ok first_cfg.
Proof. reflexivity. Qed.

Lemma site_loadable cfg : may_load site_toml only_first cfg ↔ cfg = first_cfg.
Proof.
  split.
  - intros (txt & -> & _ & Hp). rewrite first_parsed in Hp. by injection Hp.
  - intros ->. exists (bytes_of "1"). split; [done|]. split; [by vm_compute|apply first_parsed].
Qed.

Lemma site_cameras cam : cam ∈ camera first_cfg → cam_name cam = "cam" ∨ cam_name cam = "yard".
Proof. intros [->|[->|H]%elem_of_cons]%elem_of_cons; [by left|by right|by apply elem_of_nil in H]. Qed.

Lemma site_archive : archive_at site_toml q_config only_first ["a"] site_fs.
Proof.
  split.
  - by intros cfg ->%site_loadable.
  - intros cfg c ->%site_loadable [-> | ->]%site_cameras; (split; [by vm_compute|right; by vm_compute]).
  - by apply (bool_decide_unpack (¬ _)); vm_compute.
Qed.

Lemma site_config_file : config_file "/etc/reo" q_config only_first (below (["a"] ++ ["cam"])) site_fs.
Proof.
  split.
  - by vm_compute.
  - by apply (bool_decide_unpack (Forall valid_name _)); vm_compute.
  - by apply (bool_decide_unpack (¬ _)); vm_compute.
  - intros i Hi. destruct (published_by site_fs q_config (bytes_of "1") 0) as (j & Hj & _ & H1 & H2);
      [by vm_compute..|]. rewrite Hj in Hi. injection Hi as <-. exact (conj H1 H2).
  - intros i Hi. vm_compute in Hi. injection Hi as <-. by vm_compute.
Qed.

(** The only file of the camera is its clip. *)
Definition clip : list string := ["a"; "cam"; "clip"].

Lemma site_files q i : below (["a"] ++ ["cam"]) q → fs_tree site_fs !! q = Some (EFile i) → q = clip.
Proof.
  intros Hq Hi.
  assert (map_Forall (λ p e, e = EDir ∨ p = q_config ∨ p = clip) (fs_tree site_fs)) as Hf.
  { by apply (bool_decide_unpack (map_Forall _ _)); vm_compute. }
  destruct (Hf _ _ Hi) as [?|[->|?]]; [done| |done]. by destruct Hq.
Qed.

Lemma site_enclosed : enclosed (below (["a"] ++ ["cam"])) site_fs.
Proof.
  split.
  - intros q q' i Hq Hi Hi'.
    destruct (published_by site_fs clip (bytes_of "AA") 1) as (j & Hj & _ & H1 & _); [by vm_compute..|].
    assert (q = clip) as -> by (by eapply site_files).
    rewrite Hj in Hi. injection Hi as <-. apply H1 in Hi' as ->. by exists ["clip"].
  - intros q i fd h _ _ Hh. assert (fs_fds site_fs = ∅) as He by (by vm_compute). rewrite He, lookup_empty in Hh. discriminate Hh.
Qed.

Lemma cam_password_unknown : password_unknown site_toml knows_yard only_first "cam".
Proof.
  intros cfg cfg' c creds a ->%site_loadable ->%site_loadable Hc Hn -> [Hg (h & Hh & Hv)].
  apply elem_of_cons in Hc as [->|Hc]; [|apply elem_of_cons in Hc as [->|Hc]; [done|by apply elem_of_nil in Hc]].
  vm_compute in Hg. injection Hg as <-. vm_compute in Hh. injection Hh as <-. by vm_compute in Hv.
Qed.

Lemma intrusion_steps :
  sys_steps site_toml plain_backend "/etc/reo" q_config knows_yard only_first anything (λ _, False) site intruded.
Proof. unfold intruded. apply moves_steps. by repeat constructor. Qed.

Lemma recordings_need_password_witness :
  fs_tree (sy_fs intruded) !! (["a"] ++ ["cam"] ++ ["clip"]) = fs_tree site_fs !! (["a"] ++ ["cam"] ++ ["clip"]) ∧
  file_at (sy_fs intruded) (["a"] ++ ["cam"] ++ ["clip"]) = file_at site_fs (["a"] ++ ["cam"] ++ ["clip"]).
Proof.
  apply (recordings_need_password site_toml plain_backend "/etc/reo" q_config knows_yard only_first anything (λ _, False)
    ["a"] "cam" first_cfg 0 site_fs intruded ["clip"]).
  - apply site_plain.
  - apply site_enclosed.
  - apply site_config_file.
  - apply site_archive.
  - apply cam_password_unknown.
  - by apply site_loadable.
  - apply intrusion_steps.
Defined.

(** The state after the upload of the camera "yard". *)
Definition served : System := site_moves (take 18 intrusion) site.

Lemma served_steps :
  sys_steps site_toml plain_backend "/etc/reo" q_config knows_yard only_first anything (λ _, False) site served.
Proof. unfold served. apply moves_steps. by repeat constructor. Qed.

Lemma intruded_later :
  sys_steps site_toml plain_backend "/etc/reo" q_config knows_yard only_first anything (λ _, False) served intruded.
Proof.
  assert (intruded = site_moves (drop 18 intrusion) served) as ->.
  { unfold served, intruded, moves. by rewrite <- fold_left_app, take_drop. }
  apply moves_steps. by repeat constructor.
Qed.

Lemma system_keeps_finalized_witness :
  file_at (sy_fs intruded) (["a"; "yard"] ++ ["x"]) = Some (bytes_of "BB").
Proof.
  apply (system_keeps_finalized site_toml plain_backend "/etc/reo" q_config knows_yard only_first anything (λ _, False)
    ["a"; "yard"] "x" (bytes_of "BB") first_cfg 0 site_fs served intruded).
  - apply site_plain.
  - by apply (bool_decide_unpack (¬ _)); vm_compute.
  - apply served_steps.
  - apply published_finalized; [|reflexivity].
    apply (published_by _ (["a"; "yard"] ++ ["x"]) (bytes_of "BB") 2); vm_compute; reflexivity.
  - apply intruded_later.
Defined.

Lemma site_limits_u32 : limits_u32 site_toml.
Proof.
  intros s cfg. unfold site_toml. repeat case_decide; intros [= <-]; by vm_compute.
Qed.

Lemma first_valid : valid_config first_cfg.
Proof. apply validate_iff. by vm_compute. Qed.

Lemma system_well_formed_witness :
  plain_fs (sy_fs intruded) ∧
  (∃ cfg, sound cfg ∧ r_accounts (sy_running intruded) = build cfg) ∧
  inv (sy_clock intruded) (r_sessions (sy_running intruded)).
Proof.
  apply (system_well_formed site_toml plain_backend "/etc/reo" q_config knows_yard only_first anything (λ _, False)
    first_cfg 0 site_fs intruded).
  - apply site_limits_u32.
  - apply site_plain.
  - split; [apply first_valid|by vm_compute].
  - apply intrusion_steps.
Defined.

Definition yard_user : ReoUser := mkReoUser "yard" (Uploader "/a/yard") false.

Lemma sessions_authenticated_witness : entitled knows_yard valid_config yard_user.
Proof.
  apply (sessions_authenticated site_toml plain_backend "/etc/reo" q_config knows_yard only_first anything (λ _, False)
    first_cfg 0 site_fs served yard_user).
  - apply site_plain.
  - apply first_valid.
  - apply served_steps.
  - assert (sy_sessions served = [yard_user]) as -> by (by vm_compute). by left.
Defined.

(** ** A busy server *)

(** Both cameras are logged in, and "cam" uploads at the same time as "yard"; the
    server reloads meanwhile.  Sessions of "yard" ask for nothing else in writing. *)
Definition polite (user : ReoUser) (r : Request) : Prop :=
  match r with
  | RPut _ _ _ _ | RMkd _ => user_role user ≠ Uploader "/a/yard"
  | _ => True
  end.

Definition anybody (u : string) (creds : Credentials) : Prop := True.

Definition log_ins : list Move :=
  [MConnect "yard" (password_of "yd"); MCheck 0; MDetails 0;
   MConnect "cam" (password_of "pw"); MCheck 0; MDetails 0].

Definition all_at_once : list Move := MHangup :: concat (replicate 20 [MOperate 0; MReload; MOperate 1]).

Definition cam_session : ReoUser := mkReoUser "cam" (Uploader "/a/cam") false.

Definition busy : System :=
  requests plain_backend cam_session (upload "other" 0 "CC") (site_moves log_ins site).
Definition uploaded_busy : System :=
  site_moves all_at_once (requests plain_backend yard_user (upload "x" 0 "BB") busy).

Abbreviation busy_runs := (sys_steps site_toml plain_backend "/etc/reo" q_config anybody only_first polite (λ _, False)).

Lemma busy_steps : busy_runs site busy.
Proof.
  eapply rtc_r; [by apply (moves_steps _ _ _ _ _ _ polite (λ _, False) log_ins); repeat constructor|].
  unfold busy, requests. assert (sy_sessions (site_moves log_ins site) = [yard_user; cam_session]) as Hs by by vm_compute.
  destruct (site_moves log_ins site) as [t s st ls us ps rl]. cbn [sy_sessions] in Hs. subst us.
  by apply (y_request _ _ _ _ _ _ _ _ 1 cam_session).
Qed.

Lemma uploaded_busy_steps :
  busy_runs (requests plain_backend yard_user (upload "x" 0 "BB") busy) uploaded_busy.
Proof. unfold uploaded_busy. apply moves_steps. cbn. by repeat constructor. Qed.

(** The camera's new recording is not there yet, nor staged. *)
Section yard.
Context (n : string) (extra : list string).
Context (Hfree : Forall (λ x, fs_tree site_fs !! (["a"; "yard"] ++ [x]) = None) (n :: (n +:+ STAGING_SUFFIX) :: extra)).

Abbreviation yard_region := (claimed (["a"; "yard"] ++ []) n extra).

Lemma yard_unused p i : yard_region p → fs_tree site_fs !! p = Some (EFile i) → False.
Proof. intros (x & Hx & ->) Hi. rewrite Forall_forall in Hfree. rewrite app_nil_r in Hi. by rewrite (Hfree x) in Hi. Qed.

Lemma yard_enclosed : enclosed yard_region site_fs.
Proof.
  split; [intros p p' i Hp Hi|intros p i fd h Hp Hi]; by destruct (yard_unused p i Hp Hi).
Qed.

Lemma yard_config_file : config_file "/etc/reo" q_config only_first yard_region site_fs.
Proof.
  destruct site_config_file as [Hp Hv _ Hs He]. split; [done|done| |done|done].
  intros (x & _ & Hx). discriminate Hx.
Qed.

Lemma yard_others : others_elsewhere polite ["a"] "yard" [] n extra.
Proof. intros user [] Hp Hu; try exact I; by destruct (Hp Hu). Qed.
End yard.

Lemma x_free :
  Forall (λ x, fs_tree site_fs !! (["a"; "yard"] ++ [x]) = None) ["x"; "x" +:+ STAGING_SUFFIX].
Proof. by apply (bool_decide_unpack (Forall _ _)); vm_compute. Qed.

Lemma x_age_free :
  Forall (λ x, fs_tree site_fs !! (["a"; "yard"] ++ [x]) = None) ["x.age"; "x.age" +:+ STAGING_SUFFIX; "x"].
Proof. by apply (bool_decide_unpack (Forall _ _)); vm_compute. Qed.

(** The camera's upload is stored, and delivered from then on. *)
Lemma stored_is_served_witness :
  file_at (sy_fs uploaded_busy) (["a"; "yard"] ++ ["x"]) = Some (bytes_of "BB") ∧
  delivers site_toml plain_backend "/etc/reo" q_config anybody only_first uploaded_busy
    (["a"; "yard"] ++ ["x"]) (bytes_of "BB").
Proof.
  destruct (stored_is_served site_toml plain_backend "/etc/reo" q_config anybody only_first polite (λ _, False)
    ["a"] "yard" [] first_cfg 0 site_fs busy site_plain site_archive) with
    (n := "x") (cam := yard_user) (seed := seed0) (v := "/x") (f := "x") (old := [] : bytes) (pos := 0%Z)
    (input := input_of (bytes_of "BB")) (y' := uploaded_busy)
    as [Hans _].
  - by apply site_loadable.
  - apply busy_steps.
  - reflexivity.
  - apply yard_config_file.
  - apply yard_enclosed, x_free.
  - apply yard_others.
  - reflexivity.
  - right. vm_compute. reflexivity.
  - reflexivity.
  - vm_compute. reflexivity.
  - reflexivity.
  - vm_compute. reflexivity.
  - vm_compute. reflexivity.
  - apply uploaded_busy_steps.
  - destruct (Hans (Ok (AStored 2))) as (_ & _ & Hf & [[]|Hd]); [vm_compute; reflexivity|exact (conj Hf Hd)].
Defined.

(** With encryption on. *)
Abbreviation sealing_moves := (moves site_toml age_backend "/etc/reo" q_config).
Abbreviation sealing_runs := (sys_steps site_toml age_backend "/etc/reo" q_config anybody only_first polite (λ _, False)).

Definition logged_in : System := sealing_moves log_ins site.
Definition uploaded_sealed : System :=
  sealing_moves all_at_once (requests age_backend yard_user (upload "x" 0 "BB") logged_in).

Lemma logged_in_steps : sealing_runs site logged_in.
Proof. unfold logged_in. apply moves_steps. by repeat constructor. Qed.

Lemma uploaded_sealed_steps :
  sealing_runs (requests age_backend yard_user (upload "x" 0 "BB") logged_in) uploaded_sealed.
Proof. unfold uploaded_sealed. apply moves_steps. cbn. by repeat constructor. Qed.

Lemma encrypted_upload_served_witness :
  ∃ ct cs, file_at (sy_fs uploaded_sealed) (["a"; "yard"] ++ ["x.age"]) = Some ct ∧
    decryptor key_a ct = Ok (cs, None) ∧ concat cs = bytes_of "BB" ∧
    delivers site_toml age_backend "/etc/reo" q_config anybody only_first uploaded_sealed
      (["a"; "yard"] ++ ["x.age"]) ct.
Proof.
  destruct (encrypted_upload_served site_toml age_backend "/etc/reo" q_config anybody only_first polite (λ _, False)
    ["a"] "yard" [] first_cfg 0 site_fs logged_in site_plain site_archive) with
    (n := "x") (recs := [true]) (cam := yard_user) (seed := seed0) (v := "/x") (f := "x")
    (input := input_of (bytes_of "BB")) (y' := uploaded_sealed) as [Hans _].
  - by apply site_loadable.
  - apply logged_in_steps.
  - exact _.
  - reflexivity.
  - apply yard_config_file.
  - apply yard_enclosed, x_age_free.
  - apply yard_others.
  - reflexivity.
  - right. vm_compute. reflexivity.
  - reflexivity.
  - vm_compute. reflexivity.
  - reflexivity.
  - vm_compute. reflexivity.
  - vm_compute. reflexivity.
  - apply uploaded_sealed_steps.
  - destruct (Hans (Ok (AStored 2))) as (_ & _ & ct & Hf & Hd & [[]|Hdel]); [vm_compute; reflexivity|].
    destruct (Hd key_a) as (cs & Hdec & Hcs); [by left|]. exists ct, cs. exact (conj Hf (conj Hdec (conj Hcs Hdel))).
Defined.

(** A viewer logs in and asks for the second byte of the recording, while its camera
    tries to delete it and the server reloads. *)
Definition all_user : ReoUser := mkReoUser "all" (Viewer (single "/a")) false.
Definition asking : list Move :=
  [MConnect "all" (password_of "all"); MCheck 0; MDetails 0; MRequest 0 (RDel "/x"); MHangup].
Definition watching : list Move := concat (replicate 20 [MOperate 1; MReload; MOperate 2]).
Definition asked_site : System := site_moves asking served.
Definition watched_site : System :=
  site_moves watching (requests plain_backend all_user (RGet "/yard/x" 1) asked_site).

Abbreviation quiet_runs := (sys_steps site_toml plain_backend "/etc/reo" q_config anybody only_first anything (λ _, False)).

Lemma served_anybody : quiet_runs site served.
Proof. unfold served. apply moves_steps. by repeat constructor. Qed.

Lemma asked_site_steps : quiet_runs served asked_site.
Proof. unfold asked_site. apply moves_steps. by repeat constructor. Qed.

Lemma watched_site_steps :
  quiet_runs (requests plain_backend all_user (RGet "/yard/x" 1) asked_site) watched_site.
Proof. unfold watched_site. apply moves_steps. cbn. by repeat constructor. Qed.

Lemma server_delivers_witness :
  sy_requests watched_site !! 2%nat = Some (Ret (Ok (ABytes (bytes_of "B")))) ∧
  ABytes (bytes_of "B") = ABytes (drop 1 (bytes_of "BB")).
Proof.
  assert (sy_requests watched_site !! 2%nat = Some (Ret (Ok (ABytes (bytes_of "B"))))) as Ha
    by (vm_compute; reflexivity).
  split; [exact Ha|].
  eapply (proj1 (server_delivers site_toml plain_backend "/etc/reo" q_config anybody only_first anything (λ _, False)
    first_cfg 0 site_fs served ["a"; "yard"] "x" (bytes_of "BB") site_plain served_anybody _ _
    anything (λ _, False) asked_site all_user (single "/a") "/yard/x" 1%Z ["a"] ["yard"; "x"]
    asked_site_steps eq_refl eq_refl eq_refl watched_site watched_site_steps) (Ok (ABytes (bytes_of "B")))).
  - exact Ha.
  Unshelve.
  + apply published_finalized; [|reflexivity].
    apply (published_by _ (["a"; "yard"] ++ ["x"]) (bytes_of "BB") 2); vm_compute; reflexivity.
  + by apply (bool_decide_unpack (¬ _)); vm_compute.
Defined.

(** ** A login that races a reload *)

(** The administrator gives the camera a new password and requires TLS of it; a
    client of the old password, in the clear, was admitted just before the
    reload and asks for its details just after. *)
Definition raced : System :=
  site_moves
    ([MConnect "cam" (password_of "pw"); MCheck 0; MEdit (bytes_of "2"); MHangup]
     ++ replicate 8 MReload ++ [MDetails 0]) site.

(** The session holds the new table's account, although the new table rejects the
    password it was opened with and asks for TLS, which it does not use. *)
Example raced_session :
  sy_sessions raced = [mkReoUser "cam" (Uploader "/a/cam") true] ∧
  (∃ a, Account.get (r_accounts (sy_running raced)) "cam" = Some a ∧ require_tls a = true) ∧
  (authenticate 0 (r_accounts (sy_running raced)) "cam" (password_of "pw")
     (r_sessions (sy_running raced))).1 = Err BadPassword.
Proof.
  split; [by vm_compute|]. split; [|by vm_compute].
  eexists. split; [vm_compute; reflexivity|]. by vm_compute.
Qed.

(** The same run as the theorem gives it. *)
Definition edited_fs : Fs := sy_fs (site_moves [MEdit (bytes_of "2")] site).
Definition only_second (txt : bytes) : Prop := txt = bytes_of "2".

Lemma edited_reload :
  run_ok (reload_io site_toml "/etc/reo") edited_fs =
    (Ok second_cfg, (run_ok (reload_io site_toml "/etc/reo") edited_fs).2).
Proof.
  assert ((run_ok (reload_io site_toml "/etc/reo") edited_fs).1 = Ok second_cfg) as Hr by (vm_compute; reflexivity).
  by destruct (run_ok (reload_io site_toml "/etc/reo") edited_fs) as [r s'] eqn:E; cbn [fst snd] in *; rewrite Hr.
Qed.

Lemma reload_races_login_witness :
  ∃ st', r_accounts st' = build second_cfg ∧
    sys_steps site_toml plain_backend "/etc/reo" q_config anybody only_second polite (λ _, False)
      (mkSystem 0 edited_fs (sy_running site) [] [] [] Waiting)
      (mkSystem 0 (run_ok (reload_io site_toml "/etc/reo") edited_fs).2 st' []
         ([] ++ [mkReoUser "cam" (Uploader "/a/cam") true]) [] Waiting).
Proof.
  apply (reload_races_login site_toml plain_backend "/etc/reo" q_config anybody only_second polite (λ _, False)
    0 edited_fs (sy_running site) [] [] [] "cam" (password_of "pw") (mkPrincipal "cam") second_cfg
    (run_ok (reload_io site_toml "/etc/reo") edited_fs).2
    (mkAccount "cam" "$argon2id$0$new" (Uploader "/a/cam") true)).
  - exact I.
  - vm_compute. reflexivity.
  - apply edited_reload.
  - vm_compute. reflexivity.
Defined.

(** ** The program started on the site *)

Definition site_process : Process :=
  mkProcess (Some "pw") None (Err "no terminal") [] seed0 0 10.

Abbreviation site_main := (main site_toml (λ _, Err "no rcgen") id (λ _, Ok tt)).

(** What the server listens on when the program was started to serve. *)
Definition site_running : Running := sy_running site.

Lemma main_serves_witness :
  ∃ config cfg, Serve "/etc/reo" = Serve config ∧
    (run (load site_toml config) (mkWorld site_fs [])).1 = Ok cfg ∧ valid_config cfg ∧
    build_server (λ _, Ok tt) cfg = Ok tt ∧ ∀ t s, site_running = sy_running (started cfg t s).
Proof.
  apply (main_serves site_toml (λ _, Err "no rcgen") id (λ _, Ok tt) site_process (Serve "/etc/reo")
    (mkWorld site_fs []) tt site_running "0.0.0.0:21"
    (run (site_main site_process (Serve "/etc/reo")) (mkWorld site_fs [])).2).
  vm_compute. reflexivity.
Defined.

Lemma hash_password_usable_witness :
  run (site_main site_process HashPassword) (mkWorld site_fs [])
    = (Exit (Ok ("$argon2id$0$pw" +:+ newline)), mkWorld site_fs []) ∧
  verify_password "pw" "$argon2id$0$pw" = Ok true.
Proof.
  apply (hash_password_usable site_toml (λ _, Err "no rcgen") id (λ _, Ok tt) site_process "pw"
    "$argon2id$0$pw" (mkWorld site_fs [])).
  - reflexivity.
  - by vm_compute.
Defined.

(** ** Termination *)

Lemma sweep_terminates_witness :
  ensures (λ s, tame 4 (fs_tree s)) only_removes
    (sweep 30 1 1 100 false 4 (render ["a"])) is_Some ∧
  ∀ w, tame 4 (fs_tree (w_fs w)) →
    ∃ r, (run (sweep 30 1 1 100 false 4 (render ["a"])) w).1 = Some r.
Proof.
  apply (sweep_terminates 30 1 1 100 false 4 4 ["a"]).
  - by apply (bool_decide_unpack (Forall valid_name _)); vm_compute.
  - cbn. lia.
  - lia.
Defined.

Lemma contained_terminates_witness :
  run (contained_loop 9 "/a" "/a/b" "") (mkWorld site_fs []) =
  run (contained_loop (contained_fuel "/a/b") "/a" "/a/b" "") (mkWorld site_fs []).
Proof.
  apply (contained_terminates "/a" "/a/b" 9 (mkWorld site_fs [])).
  unfold contained_fuel. apply (bool_decide_unpack (_ ≤ _)). by vm_compute.
Defined.
