(* ===== verification/UnitTests.v ===== *)
(** The repository's own unit tests, on the model: the tests of append.rs,
    account.rs, config.rs, limits.rs, presence.rs, hashing.rs, auth.rs, cli.rs,
    nftables.rs, server.rs and the capability tests of backend.rs, which touch no
    files.

    Each is a boolean, the conjunction of the test's assertions; an [unwrap] that
    would panic makes it false.  The libraries are the toy instances of Toy.v, and
    a test that parses TOML starts from the configuration its text stands for. *)
From S2P Require Import Prelude StdPath StdFs Prog FsView Append Paths Crypto Config Account.
From S2P Require Import Limits Auth Store Backend Retention Server Commands Toy.

(** All assertions of a test. *)
Definition asserts (l : list bool) : bool := forallb id l.

Definition contains (sub s : string) : bool :=
  match String.index 0 sub s with Some _ => true | None => false end.

Definition has {A} (o : option A) : bool := match o with Some _ => true | None => false end.

(** The value of a result, if it is [a]. *)
Definition is_val {A E} `{EqDecision A} (r : result A E) (a : A) : bool :=
  match r with Ok b => bool_decide (b = a) | Err _ => false end.

(** ** [append.rs] *)

Definition offset_equal_is_ok : bool :=
  asserts [bool_decide (classify_offset 100 100 = Verdict.Ok);
           bool_decide (classify_offset 0 0 = Verdict.Ok)].

Definition offset_below_existing_is_overlap : bool :=
  asserts [bool_decide (classify_offset 50 100 = Verdict.Overlap);
           bool_decide (classify_offset 0 1 = Verdict.Overlap)].

Definition offset_above_existing_is_gap : bool :=
  bool_decide (classify_offset 101 100 = Verdict.Gap).

Definition staging_path_appends_suffix : bool :=
  bool_decide (path_eq (staging_path "/srv/reolink/cam/clip.mp4")
                 "/srv/reolink/cam/clip.mp4.reoftpd-partial").

Definition detects_reolink_test_file : bool :=
  asserts [is_reolink_test_file "test.txt"; is_reolink_test_file "TestFtp.dat";
           is_reolink_test_file "test"; negb (is_reolink_test_file "testament.mp4");
           negb (is_reolink_test_file "testudo.mp4");
           negb (is_reolink_test_file "MD_2026-06-19_120000.mp4")].

(** ** [account.rs] *)

Definition account_cfg : Config :=
  mkConfig (mkServerCfg "0.0.0.0" 21 (50000, 50100)%Z None None None None)
    (mkArchiveCfg "/srv/reolink" 30)
    (mkLimitsCfg 1 1 1 1 1 (mkLockoutCfg 1 1 1) None)
    [mkCameraCfg "front-door" (Some "cam-fd") "$argon2id$x" (Some true);
     mkCameraCfg "driveway" None "$argon2id$y" None]
    {[ "outdoor" := ["driveway"] ]}
    [mkViewerCfg "admin" "$argon2id$z" All;
     mkViewerCfg "patio" "$argon2id$w" (ScopeList ["outdoor"; "front-door"])]
    None.

Definition uploader_login_uses_username_override : bool :=
  match Account.get (build account_cfg) "cam-fd" with
  | Some a =>
      require_tls a &&
      match role a with
      | Uploader home => bool_decide (file_name home = Some "front-door")
      | Viewer _ => false
      end
  | None => false
  end.

Definition uploader_defaults_login_to_name : bool :=
  has (Account.get (build account_cfg) "driveway").

Definition viewer_all_is_single_root : bool :=
  match Account.get (build account_cfg) "admin" with
  | Some a => match role a with Viewer _ => true | Uploader _ => false end
  | None => false
  end.

Definition viewer_scope_expands_group_and_camera_deduped : bool :=
  match Account.get (build account_cfg) "patio" with
  | Some a =>
      match role a with
      | Viewer scope => bool_decide (list_root scope = ["driveway"; "front-door"])
      | Uploader _ => false
      end
  | None => false
  end.

(** ** [config.rs] *)

Section config_tests.
Let server0 (host greet : option string) (ports : Z * Z) : ServerCfg :=
  mkServerCfg "0.0.0.0" 21 ports host greet None None.
Let limits0 (per_account : option Z) : LimitsCfg :=
  mkLimitsCfg 256 8 30 120 1024 (mkLockoutCfg 5 300 900) per_account.
Let camera0 : CameraCfg := mkCameraCfg "front-door" None "$argon2id$x" None.
Let admin : ViewerCfg := mkViewerCfg "admin" "$argon2id$y" All.
Let patio (items : list string) : ViewerCfg := mkViewerCfg "patio" "$argon2id$z" (ScopeList items).

(** The sample, with what the tests change in it. *)
Let sample_with (srv : ServerCfg) (lim : LimitsCfg) (cams : list CameraCfg) (vs : list ViewerCfg)
    (enc : option EncryptionCfg) : Config :=
  mkConfig srv (mkArchiveCfg "/srv/reolink" 30) lim (camera0 :: cams)
    {[ "outdoor" := ["front-door"] ]} vs enc.
Let ports0 : Z * Z := (50000, 50100)%Z.

Definition SAMPLE : Config :=
  sample_with (server0 None None ports0) (limits0 None) [] [admin; patio ["outdoor"]] None.

Definition sample_cameras (cams : list CameraCfg) : Config :=
  sample_with (server0 None None ports0) (limits0 None) cams [admin; patio ["outdoor"]] None.
Definition sample_viewers (vs : list ViewerCfg) : Config :=
  sample_with (server0 None None ports0) (limits0 None) [] (admin :: vs) None.
Definition sample_encryption (keys : list string) : Config :=
  sample_with (server0 None None ports0) (limits0 None) [] [admin; patio ["outdoor"]]
    (Some (mkEncryptionCfg keys)).

Definition parses_sample : bool :=
  asserts [bool_decide (length (camera SAMPLE) = 1); bool_decide (retention_days (archive SAMPLE) = 30)%Z;
           match viewer SAMPLE !! 0 with Some v => match viewer_scope v with All => true | _ => false end | None => false end;
           match viewer SAMPLE !! 1 with
           | Some v => match viewer_scope v with ScopeList l => bool_decide (l = ["outdoor"]) | _ => false end
           | None => false
           end;
           is_ok (validate SAMPLE)].

Definition rejects_scope_referencing_unknown_name : bool :=
  negb (is_ok (validate (sample_viewers [patio ["nope"]]))).

Definition rejects_duplicate_camera_name : bool :=
  negb (is_ok (validate (sample_cameras [mkCameraCfg "front-door" None "$argon2id$q" None]))).

(** The parser refuses the scope through its conversion. *)
Definition rejects_bogus_scope_string : bool := negb (is_ok (scope_deserialize (ReprStr "everything"))).

Definition rejects_passive_ports_out_of_order : bool :=
  negb (is_ok (validate (sample_with (server0 None None (50100, 50000)%Z) (limits0 None) []
                           [admin; patio ["outdoor"]] None))).

Definition rejects_duplicate_effective_username : bool :=
  negb (is_ok (validate (sample_cameras [mkCameraCfg "garage" (Some "front-door") "$argon2id$q" None]))).

Definition rejects_duplicate_viewer_name : bool :=
  negb (is_ok (validate (sample_viewers [patio ["outdoor"]; mkViewerCfg "admin" "$argon2id$dup" All]))).

Definition rejects_viewer_name_colliding_with_camera_login : bool :=
  negb (is_ok (validate (sample_viewers [patio ["outdoor"]; mkViewerCfg "front-door" "$argon2id$c" All]))).

Definition encryption_absent_is_none : bool :=
  negb (has (encryption SAMPLE)) && is_ok (validate SAMPLE).

Definition encryption_with_valid_recipient_parses_and_validates : bool :=
  let c := sample_encryption [(generate_identity seed0).1] in
  bool_decide (length <$> (recipients <$> encryption c) = Some 1) && is_ok (validate c).

Definition encryption_rejects_empty_list_and_bad_key : bool :=
  negb (is_ok (validate (sample_encryption []))) &&
  negb (is_ok (validate (sample_encryption ["not-a-key"]))).
End config_tests.

(** ** [hashing.rs] *)

Definition salt1 : bytes := [].
Definition salt2 : bytes := [Byte.x01].

Definition hash_then_verify_roundtrip : bool :=
  match hash_password salt1 "s3cret-cam-pw" with
  | Ok phc => starts_with_str "$argon2id$" phc && is_val (verify_password "s3cret-cam-pw" phc) true
  | Err _ => false
  end.

Definition wrong_password_fails : bool :=
  match hash_password salt1 "right" with
  | Ok phc => is_val (verify_password "wrong" phc) false
  | Err _ => false
  end.

Definition malformed_hash_errors : bool := negb (is_ok (verify_password "x" "not-a-phc-string")).

Definition same_password_hashes_differ_due_to_random_salt : bool :=
  match hash_password salt1 "x", hash_password salt2 "x" with
  | Ok h1, Ok h2 => bool_decide (h1 ≠ h2)
  | _, _ => false
  end.

(** ** [limits.rs] *)

Section limits_tests.
Let t0 : Z := 0.

Definition global_cap_blocks_when_reached : bool :=
  let t := on_login t0 "b" (on_login t0 "a" (new 2 None)) in
  at_capacity "c" t && negb (at_capacity "c" (on_logout "a" t)).

Definition per_account_cap_blocks_same_user_only : bool :=
  let t := on_login t0 "a" (new 100 (Some 1%Z)) in
  at_capacity "a" t && negb (at_capacity "b" t).

Definition logout_saturates_and_never_underflows : bool :=
  let t := on_logout "ghost" (new 5 (Some 2%Z)) in
  negb (at_capacity "ghost" t) &&
  negb (at_capacity "ghost" (on_logout "ghost" (on_logout "ghost" (on_login t0 "ghost" t)))).

Definition unlimited_per_account_when_none : bool :=
  negb (at_capacity "a" (on_login t0 "a" (on_login t0 "a" (on_login t0 "a" (new 100 None))))).

Definition set_limits_updates_caps_live : bool :=
  let t := on_login t0 "a" (new 1 None) in
  at_capacity "b" t && negb (at_capacity "b" (set_limits 2 None t)).

Definition try_admit_increments_on_success_and_blocks_at_cap : bool :=
  let '(r1, t) := try_admit t0 "a" (new 1 None) in
  let '(r2, t) := try_admit t0 "b" t in
  let '(r3, _) := try_admit t0 "b" (on_logout "a" t) in
  asserts [r1; negb r2; r3].

Definition try_admit_does_not_increment_when_refused : bool :=
  let '(r1, t) := try_admit t0 "a" (new 1 None) in
  let '(r2, t) := try_admit t0 "a" t in
  let '(r3, t) := try_admit t0 "a" t in
  let '(r4, _) := try_admit t0 "a" (on_logout "a" t) in
  asserts [r1; negb r2; negb r3; r4].

Definition try_admit_respects_per_account_cap : bool :=
  let '(r1, t) := try_admit t0 "a" (new 100 (Some 1%Z)) in
  let '(r2, t) := try_admit t0 "a" t in
  let '(r3, _) := try_admit t0 "b" t in
  asserts [r1; negb r2; r3].

Definition reap_frees_stale_leaked_sessions : bool :=
  let '(r1, t) := try_admit t0 "a" (new 100 (Some 1%Z)) in
  let '(r2, t) := try_admit t0 "a" t in
  let '(reaped, t) := reap t0 (from_secs 0) t in
  let '(r3, _) := try_admit t0 "a" t in
  asserts [r1; negb r2; bool_decide (reaped = 1)%Z; r3].

Definition reap_keeps_fresh_sessions : bool :=
  let '(r1, t) := try_admit t0 "a" (new 100 (Some 2%Z)) in
  let '(reaped, t) := reap t0 (from_secs 3600) t in
  let '(r2, t) := try_admit t0 "a" t in
  let '(r3, _) := try_admit t0 "a" t in
  asserts [r1; bool_decide (reaped = 0)%Z; r2; negb r3].

Definition reap_decrements_global_too : bool :=
  let '(r1, t) := try_admit t0 "a" (new 1 None) in
  let '(r2, t) := try_admit t0 "b" t in
  let '(reaped, t) := reap t0 (from_secs 0) t in
  let '(r3, _) := try_admit t0 "b" t in
  asserts [r1; negb r2; bool_decide (reaped = 1)%Z; r3].

(** ** [presence.rs] *)

Definition logout_decrements_tracker_admitted_via_try_admit : bool :=
  let '(r1, t) := try_admit t0 "cam" (new 1 None) in
  let t1 := receive_presence_event LoggedIn "cam" t in
  let t2 := receive_presence_event LoggedOut "cam" t1 in
  asserts [r1; at_capacity "other" t; at_capacity "other" t1; negb (at_capacity "other" t2)].

Definition logout_decrements_per_account_cap : bool :=
  let '(r1, t) := try_admit t0 "cam" (new 100 (Some 1%Z)) in
  asserts [r1; at_capacity "cam" t;
           negb (at_capacity "cam" (receive_presence_event LoggedOut "cam" t))].
End limits_tests.

(** ** [auth.rs] *)

Definition unlimited_tracker : SessionState := new u32_max None.

Definition accounts_with (login plain : string) (tls : bool) : Accounts :=
  mkAccounts {[ login := mkAccount login
    (match hash_password salt1 plain with Ok phc => phc | Err _ => "" end)
    (Uploader "/srv/reolink/x") tls ]}.

Definition make_creds (password : string) (sec : ChannelEncryptionState) : Credentials :=
  mkCredentials (Some password) sec.

Definition accepts_correct_password : bool :=
  has (check_credentials (accounts_with "cam" "pw" false) "cam" "pw").

Definition rejects_wrong_password_and_unknown_user : bool :=
  let a := accounts_with "cam" "pw" false in
  negb (has (check_credentials a "cam" "nope")) && negb (has (check_credentials a "ghost" "pw")).

Definition channel_is_secure_variants : bool :=
  negb (channel_is_secure Plaintext) && channel_is_secure Tls.

(** The answer of [authenticate] and the tracker afterwards. *)
Definition attempt (accts : Accounts) (u : string) (creds : Credentials) (t : SessionState)
    : option string * SessionState :=
  match authenticate 0 accts u creds t with
  | (Ok p, t') => (Some (principal_username p), t')
  | (Err _, t') => (None, t')
  end.

Definition require_tls_rejects_plaintext_accepts_secure : bool :=
  let accts := accounts_with "cam" "pw" true in
  let '(r1, t) := attempt accts "cam" (make_creds "pw" Plaintext) unlimited_tracker in
  let '(r2, _) := attempt accts "cam" (make_creds "pw" Tls) t in
  negb (has r1) && bool_decide (r2 = Some "cam").

Definition no_require_tls_allows_plaintext : bool :=
  has (attempt (accounts_with "cam" "pw" false) "cam" (make_creds "pw" Plaintext) unlimited_tracker).1.

Definition authenticate_rejected_when_at_global_capacity : bool :=
  let sessions := on_login 0 "someone-else" (new 1 None) in
  negb (has (attempt (accounts_with "cam" "pw" false) "cam" (make_creds "pw" Plaintext) sessions).1).

Definition authenticate_ok_when_below_capacity : bool :=
  let sessions := on_login 0 "someone-else" (new 2 None) in
  has (attempt (accounts_with "cam" "pw" false) "cam" (make_creds "pw" Plaintext) sessions).1.

Definition reo_user_home_returns_correct_values : bool :=
  bool_decide (home (mkReoUser "cam" (Uploader "/srv/reolink/x") false) = Some "/srv/reolink/x") &&
  bool_decide (home (mkReoUser "viewer" (Viewer (single "/srv/reolink")) false) = None).

Definition user_detail_provider_known_and_unknown : bool :=
  let accts := accounts_with "cam" "pw" false in
  match provide_user_detail accts (mkPrincipal "cam"), provide_user_detail accts (mkPrincipal "ghost") with
  | Ok user, Err (UserNotFound _) => bool_decide (login user = "cam")
  | _, _ => false
  end.

(** ** [cli.rs] *)

Definition camera_entry_includes_username_and_tls : bool :=
  let s := render_camera_entry "front-door" (Some "cam-fd") "$argon2id$x" true in
  asserts [contains ("name = " +:+ quoted "front-door") s; contains ("username = " +:+ quoted "cam-fd") s;
           contains "require_tls = true" s; contains ("upload_password_hash = " +:+ quoted "$argon2id$x") s].

Definition camera_entry_omits_username_when_default : bool :=
  let s := render_camera_entry "driveway" None "$argon2id$y" false in
  negb (contains "username =" s) && negb (contains "require_tls" s).

Definition viewer_entry_all_scope : bool :=
  contains ("scope = " +:+ quoted "all") (render_viewer_entry "admin" "$argon2id$z" "all").

Definition viewer_entry_list_scope : bool :=
  contains ("scope = [" +:+ quoted "outdoor" +:+ ", " +:+ quoted "front-door" +:+ "]")
    (render_viewer_entry "patio" "$argon2id$w" "outdoor,front-door").

(** ** [nftables.rs] *)

Definition renders_ports_and_counts : bool :=
  let out := render_nftables SAMPLE in
  asserts [contains "table inet reoftpd" out; contains "tcp dport 21" out; contains "50000-50100" out;
           contains "ct count over 8" out; contains "ct count over 256" out; contains "ip saddr" out].

(** ** [backend.rs]: the capability matrix *)

Definition uploader_allowed_ops : bool :=
  asserts (capability_allowed (Uploader "/tmp") <$> [Op.Put; Op.Mkd; Op.List; Op.Metadata; Op.Cwd]).

Definition uploader_denied_ops : bool :=
  asserts ((λ op, negb (capability_allowed (Uploader "/tmp") op)) <$> [Op.Get; Op.Del; Op.Rmd; Op.Rename]).

Definition viewer_allowed_ops : bool :=
  asserts (capability_allowed (Viewer (single "/tmp")) <$> [Op.Get; Op.List; Op.Metadata; Op.Cwd]).

Definition viewer_denied_ops : bool :=
  asserts ((λ op, negb (capability_allowed (Viewer (single "/tmp")) op))
    <$> [Op.Put; Op.Mkd; Op.Del; Op.Rmd; Op.Rename]).

Definition user_view_viewer_maps_to_scope : bool :=
  let scope := multi {[ "cam-a" := "/tmp/cam-a"; "cam-b" := "/tmp/cam-b" ]} in
  bool_decide (list_root (user_view (mkReoUser "viewer" (Viewer scope) false)) = ["cam-a"; "cam-b"]).

(** ** [server.rs] *)

(** The passwd database: root has uid 0. *)
Definition passwd (name : string) : result (option UserIds) string :=
  Ok (if decide (name = "root") then Some (mkUserIds 0 0) else None).

Definition resolve_user_root_has_uid_0 : bool :=
  match resolve_user passwd "root" with Ok ids => bool_decide (uid ids = 0)%Z | Err _ => false end.

Definition resolve_user_unknown_errors : bool :=
  match resolve_user passwd "definitely-not-a-user-xyz-9999" with
  | Ok _ => false
  | Err msg => contains "not found" msg || contains "os error" msg
  end.

Definition MINIMAL_CFG : Config :=
  mkConfig (mkServerCfg "127.0.0.1" 21210 (50000, 50010)%Z None None None None)
    (mkArchiveCfg "/tmp/reolink-test-archive" 7)
    (mkLimitsCfg 4 2 10 30 512 (mkLockoutCfg 3 60 300) None)
    [mkCameraCfg "front-door" None "$argon2id$v=19$m=16,t=2,p=1$AAAA$AAAAAAAAAAAAAAAAAAAAAA" None]
    ∅ [] None.

(** The server library accepts the settings. *)
Definition build_server_assembles_ok : bool := is_ok (build_server (λ _, Ok tt) MINIMAL_CFG).

(** ** All of them *)

Definition unit_tests : list (string * bool) :=
  [("offset_equal_is_ok", offset_equal_is_ok);
   ("offset_below_existing_is_overlap", offset_below_existing_is_overlap);
   ("offset_above_existing_is_gap", offset_above_existing_is_gap);
   ("staging_path_appends_suffix", staging_path_appends_suffix);
   ("detects_reolink_test_file", detects_reolink_test_file);
   ("uploader_login_uses_username_override", uploader_login_uses_username_override);
   ("uploader_defaults_login_to_name", uploader_defaults_login_to_name);
   ("viewer_all_is_single_root", viewer_all_is_single_root);
   ("viewer_scope_expands_group_and_camera_deduped", viewer_scope_expands_group_and_camera_deduped);
   ("parses_sample", parses_sample);
   ("rejects_scope_referencing_unknown_name", rejects_scope_referencing_unknown_name);
   ("rejects_duplicate_camera_name", rejects_duplicate_camera_name);
   ("rejects_bogus_scope_string", rejects_bogus_scope_string);
   ("rejects_passive_ports_out_of_order", rejects_passive_ports_out_of_order);
   ("rejects_duplicate_effective_username", rejects_duplicate_effective_username);
   ("rejects_duplicate_viewer_name", rejects_duplicate_viewer_name);
   ("rejects_viewer_name_colliding_with_camera_login", rejects_viewer_name_colliding_with_camera_login);
   ("encryption_absent_is_none", encryption_absent_is_none);
   ("encryption_with_valid_recipient_parses_and_validates", encryption_with_valid_recipient_parses_and_validates);
   ("encryption_rejects_empty_list_and_bad_key", encryption_rejects_empty_list_and_bad_key);
   ("hash_then_verify_roundtrip", hash_then_verify_roundtrip);
   ("wrong_password_fails", wrong_password_fails);
   ("malformed_hash_errors", malformed_hash_errors);
   ("same_password_hashes_differ_due_to_random_salt", same_password_hashes_differ_due_to_random_salt);
   ("global_cap_blocks_when_reached", global_cap_blocks_when_reached);
   ("per_account_cap_blocks_same_user_only", per_account_cap_blocks_same_user_only);
   ("logout_saturates_and_never_underflows", logout_saturates_and_never_underflows);
   ("unlimited_per_account_when_none", unlimited_per_account_when_none);
   ("set_limits_updates_caps_live", set_limits_updates_caps_live);
   ("try_admit_increments_on_success_and_blocks_at_cap", try_admit_increments_on_success_and_blocks_at_cap);
   ("try_admit_does_not_increment_when_refused", try_admit_does_not_increment_when_refused);
   ("try_admit_respects_per_account_cap", try_admit_respects_per_account_cap);
   ("reap_frees_stale_leaked_sessions", reap_frees_stale_leaked_sessions);
   ("reap_keeps_fresh_sessions", reap_keeps_fresh_sessions);
   ("reap_decrements_global_too", reap_decrements_global_too);
   ("logout_decrements_tracker_admitted_via_try_admit", logout_decrements_tracker_admitted_via_try_admit);
   ("logout_decrements_per_account_cap", logout_decrements_per_account_cap);
   ("accepts_correct_password", accepts_correct_password);
   ("rejects_wrong_password_and_unknown_user", rejects_wrong_password_and_unknown_user);
   ("channel_is_secure_variants", channel_is_secure_variants);
   ("require_tls_rejects_plaintext_accepts_secure", require_tls_rejects_plaintext_accepts_secure);
   ("no_require_tls_allows_plaintext", no_require_tls_allows_plaintext);
   ("authenticate_rejected_when_at_global_capacity", authenticate_rejected_when_at_global_capacity);
   ("authenticate_ok_when_below_capacity", authenticate_ok_when_below_capacity);
   ("reo_user_home_returns_correct_values", reo_user_home_returns_correct_values);
   ("user_detail_provider_known_and_unknown", user_detail_provider_known_and_unknown);
   ("camera_entry_includes_username_and_tls", camera_entry_includes_username_and_tls);
   ("camera_entry_omits_username_when_default", camera_entry_omits_username_when_default);
   ("viewer_entry_all_scope", viewer_entry_all_scope);
   ("viewer_entry_list_scope", viewer_entry_list_scope);
   ("renders_ports_and_counts", renders_ports_and_counts);
   ("uploader_allowed_ops", uploader_allowed_ops);
   ("uploader_denied_ops", uploader_denied_ops);
   ("viewer_allowed_ops", viewer_allowed_ops);
   ("viewer_denied_ops", viewer_denied_ops);
   ("user_view_viewer_maps_to_scope", user_view_viewer_maps_to_scope);
   ("resolve_user_root_has_uid_0", resolve_user_root_has_uid_0);
   ("resolve_user_unknown_errors", resolve_user_unknown_errors);
   ("build_server_assembles_ok", build_server_assembles_ok)].

(** The names of the tests that fail. *)
Definition failing (l : list (string * bool)) : list string :=
  (filter (λ t, t.2 = false) l).*1.
