(* ===== verification/FileTests.v ===== *)
(** The repository's own unit tests that work on files, on the model: the tests
    of paths.rs, crypto.rs, retention.rs, tls.rs, the store and backend tests of
    backend.rs and the reload test of server.rs.

    A test is a program over the file system answering whether its assertions
    hold, run on an empty file system whose temporary directory is [tmp]; the
    library is the toy age instance of Toy.v.  Symbolic links and modification
    times, which no operation of the program sets, are put into the state. *)
From S2P Require Import Prelude StdPath StdFs Prog FsView Append Paths Crypto Config Account.
From S2P Require Import Limits Auth Store Backend Retention Server Commands Toy UnitTests.

(** ** Operations the tests use *)

(** [unwrap]: an error fails the test. *)
Notation "'unwrap!' x := p 'in' k" :=
  (bind p (λ r, match r with Ok x => k | Err _ => Ret false end))
  (at level 10, x pattern, p at level 100, k at level 200) : reo_scope.

(** [Path::exists]. *)
Definition path_exists (p : string) : prog bool := let! r := ask (Stat p) in Ret (is_ok r).

(** [std::fs::read]. *)
Definition fs_read (p : string) : prog (io bytes) :=
  try! fd := ask (OpenRead p) in
  let! r := ask (ReadToEnd fd) in
  let! _ := ask (Close fd) in
  Ret r.

Definition is_file_with (p text : string) : prog bool :=
  let! r := fs_read p in
  Ret (match r with Ok b => bool_decide (b = bytes_of text) | Err _ => false end).

Definition missing (p : string) : prog bool := let! e := path_exists p in Ret (negb e).

(** The conjunction of assertions made one after the other. *)
Fixpoint all_of (l : list (prog bool)) : prog bool :=
  match l with
  | [] => Ret true
  | p :: rest => let! b := p in let! bs := all_of rest in Ret (b && bs)
  end.

Definition holds (b : bool) : prog bool := Ret b.

Definition test_now : Z := from_secs (1000 * 86400).
Definition tmp : string := "/tmp/t".
Definition at_ (name : string) : string := join tmp name.
Definition scratch : Fs := (run_ok (create_dir_all tmp) (empty_fs test_now)).2.

(** A test run on a file system, and on the scratch one. *)
Definition on_fs (s : Fs) (t : prog bool) : bool := (run_ok t s).1.
Definition passes (t : prog bool) : bool := on_fs scratch t.

Definition add_symlink (q : list string) (target : string) (s : Fs) : Fs :=
  set_tree <[q := ELink target]> s.

Definition error_kind (e : Storage.Error) : option Storage.ErrorKind :=
  match e with Storage.Kind k | Storage.New k _ => Some k | Storage.FromIo _ => None end.

Definition is_permission_denied {A} (r : result A Storage.Error) : bool :=
  match r with
  | Ok _ => false
  | Err e => match error_kind e with Some Storage.PermissionDenied => true | _ => false end
  end.

(** ** [paths.rs] *)

Definition fixture_cam : string := at_ "front-door".

Definition fixture : Fs :=
  (run_ok
    (let! _ := create_dir_all (join fixture_cam "2026-06-19") in
     write_text (join fixture_cam "2026-06-19/clip.mp4") "data") scratch).2.

Definition resolves_to (m : ScopeMap) (v p : string) : prog bool :=
  let! r := resolve m v in
  Ret (match r with Ok q => bool_decide (path_eq q p) | Err _ => false end).

Definition resolve_fails (m : ScopeMap) (v : string) (e : PathError) : prog bool :=
  let! r := resolve m v in
  Ret (match r with Ok _ => false | Err e' => bool_decide (e' = e) end).

Definition single_root_resolves_inside : bool :=
  on_fs fixture (resolves_to (single fixture_cam) "/2026-06-19/clip.mp4"
                   (join fixture_cam "2026-06-19/clip.mp4")).

Definition single_root_rejects_parent_traversal : bool :=
  on_fs fixture (resolve_fails (single fixture_cam) "/../secret" Traversal).

Definition multi_root_lists_only_allowed_names : bool :=
  bool_decide (list_root (multi {[ "front-door" := fixture_cam; "driveway" := at_ "driveway" ]})
               = ["driveway"; "front-door"]).

Definition multi_root_maps_first_component_to_real_dir : bool :=
  on_fs fixture (resolves_to (multi {[ "front-door" := fixture_cam ]}) "/front-door/2026-06-19/clip.mp4"
                   (join fixture_cam "2026-06-19/clip.mp4")).

Definition multi_root_rejects_unknown_camera : bool :=
  on_fs fixture (resolve_fails (multi {[ "front-door" := fixture_cam ]}) "/driveway/x" OutsideScope).

(** A directory outside the jail, and a link to it inside. *)
Definition escaping : Fs :=
  add_symlink ["tmp"; "t"; "front-door"; "escape"] "/tmp/outside"
    (run_ok (create_dir_all "/tmp/outside") fixture).2.

Definition rejects_symlink_escape_existing_target : bool :=
  on_fs escaping (resolve_fails (single fixture_cam) "/escape" Traversal).

Definition rejects_symlink_escape_nonexistent_leaf : bool :=
  on_fs escaping (resolve_fails (single fixture_cam) "/escape/definitely-not-here-1234" Traversal).

(** ** [backend.rs]: the store *)

Definition text (s : string) : Input := input_of (bytes_of s).
Definition clip_path : string := at_ "clip.mp4".
Definition clip_staging : string := staging_path clip_path.

Definition user_view_uploader_maps_to_single : bool :=
  let view := user_view (mkReoUser "cam" (Uploader tmp) false) in
  bool_decide (list_root view = []) &&
  passes (unwrap! _ := write_text clip_path "x" in resolves_to view "/clip.mp4" clip_path).

Definition store_first_write_then_finalizes : bool :=
  passes (unwrap! n := store_stream clip_path 0 (text "hello world") in
          all_of [holds (bool_decide (n = 11)%Z); path_exists clip_path; missing clip_staging;
                  is_file_with clip_path "hello world"]).

Definition is_overlap (r : result Z StoreError) : bool := match r with Err Overlap => true | _ => false end.
Definition is_gap (r : result Z StoreError) : bool := match r with Err Gap => true | _ => false end.
Definition is_finalized (r : result Z StoreError) : bool := match r with Err Finalized => true | _ => false end.

Definition store_overlap_rejected_staging_discarded : bool :=
  passes (unwrap! _ := store_stream clip_path 0 (text "hello") in
          unwrap! _ := ask (RemoveFile clip_path) in
          unwrap! _ := write_text clip_staging "hello" in
          let! r := store_stream clip_path 3 (text " world") in
          all_of [holds (is_overlap r); missing clip_staging]).

Definition store_gap_rejected_staging_discarded : bool :=
  passes (unwrap! _ := write_text clip_staging "hello" in
          let! r := store_stream clip_path 10 (text "world") in
          all_of [holds (is_gap r); missing clip_staging]).

Definition store_already_finalized_rejected : bool :=
  passes (unwrap! _ := write_text clip_path "original" in
          let! r := store_stream clip_path 0 (text "new") in
          holds (is_finalized r)).

Definition store_resume_extends_then_finalizes : bool :=
  passes (unwrap! _ := write_text clip_staging "hello" in
          unwrap! n := store_stream clip_path 5 (text " world") in
          all_of [holds (bool_decide (n = 6)%Z); is_file_with clip_path "hello world"; missing clip_staging]).

(** ** [backend.rs]: the backend *)

Definition test_uploader : ReoUser := mkReoUser "cam" (Uploader tmp) false.
Definition test_viewer : ReoUser := mkReoUser "viewer" (Viewer (single tmp)) false.

Definition list_hides_staging_and_quarantine : bool :=
  passes (unwrap! _ := write_text clip_path "data" in
          unwrap! _ := write_text clip_staging "partial" in
          unwrap! _ := ask (Mkdir (at_ QUARANTINE_DIR)) in
          unwrap! entries := list_ plain_backend test_uploader "/" in
          let names := to_string_lossy ∘ fi_path <$> entries in
          Ret (asserts [bool_decide ("clip.mp4" ∈ names);
                        negb (existsb (ends_with STAGING_SUFFIX) names);
                        bool_decide (QUARANTINE_DIR ∉ names)])).

Definition put_denied_for_viewer : bool :=
  passes (let! r := put plain_backend seed0 test_viewer (text "data") "/clip.mp4" 0 in
          holds (is_permission_denied r)).

Definition get_denied_for_uploader : bool :=
  passes (let! r := Backend.get plain_backend test_uploader "/clip.mp4" 0 in holds (is_permission_denied r)).

Definition del_always_denied : bool :=
  passes (let! r := del plain_backend test_uploader "/clip.mp4" in holds (is_permission_denied r)).

Definition rmd_always_denied : bool :=
  passes (let! r := rmd plain_backend test_uploader "/some-dir" in holds (is_permission_denied r)).

Definition rename_always_denied : bool :=
  passes (let! r := rename plain_backend test_uploader "/a.mp4" "/b.mp4" in holds (is_permission_denied r)).

Definition quarantine_reolink_test_file : bool :=
  let quarantine := join (at_ QUARANTINE_DIR) "test.txt" in
  passes (unwrap! _ := put plain_backend seed0 test_uploader (text "test data") "/test.txt" 0 in
          let! there := path_exists quarantine in
          unwrap! _ := put plain_backend seed0 test_uploader (text "new data") "/test.txt" 0 in
          all_of [holds there; is_file_with quarantine "new data"]).

Definition put_nontest_name_never_quarantined : bool :=
  negb (is_reolink_test_file "clip.mp4") &&
  passes (unwrap! _ := put plain_backend seed0 test_uploader (text "video data") "/clip.mp4" 0 in
          all_of [path_exists clip_path; missing (at_ QUARANTINE_DIR)]).

Definition synth_dir_meta_is_dir_zero_len_no_panic : bool :=
  asserts [MetaImpl.is_dir SynthDir; negb (MetaImpl.is_file SynthDir); negb (MetaImpl.is_symlink SynthDir);
           bool_decide (MetaImpl.len SynthDir = 0)%Z; is_val (MetaImpl.modified SynthDir) 0%Z].

(** ** [crypto.rs] *)

(** Encrypting into a file and decrypting from one: the tests' vectors. *)
Definition encrypt_to (recs : list Recipient) (input : Input) (out : string)
    : prog (result Z CryptoError) :=
  let! r := ask (OpenTruncate FILE_MODE out) in
  match r with
  | Err k => Ret (Err (CEIo k))
  | Ok fd => let! r := encrypt_stream seed0 recs input fd in let! _ := ask (Close fd) in Ret r
  end.

Definition decrypt_to (id : Identity) (from out : string) : prog (result Z CryptoError) :=
  let! r := ask (OpenRead from) in
  match r with
  | Err k => Ret (Err (CEIo k))
  | Ok rd =>
      let! r := ask (OpenTruncate FILE_MODE out) in
      match r with
      | Err k => Ret (Err (CEIo k))
      | Ok wr =>
          let! r := decrypt_stream id rd wr in
          let! _ := ask (Close wr) in
          let! _ := ask (Close rd) in
          Ret r
      end
  end.

Definition ct_path : string := at_ "ct".
Definition pt_path : string := at_ "pt".

(** Both keys there are. *)
Definition key_pair (seed : Seed) : string * string := generate_identity seed.

Definition recipients_of (keys : list string) : list Recipient :=
  match parse_recipients keys with Ok rs => rs | Err _ => [] end.

(** What [Identity::from_str] of a secret decrypts the file to. *)
Definition decrypts_to (secret plain : string) : prog bool :=
  match identity_from_str secret with
  | Err _ => Ret false
  | Ok id => unwrap! _ := decrypt_to id ct_path pt_path in is_file_with pt_path plain
  end.

Definition round_trip_single_recipient : bool :=
  let '(pubkey, secret) := key_pair true in
  passes (unwrap! n := encrypt_to (recipients_of [pubkey]) (text "top secret footage") ct_path in
          let! same := is_file_with ct_path "top secret footage" in
          all_of [holds (bool_decide (n = 18)%Z); holds (negb same);
                  decrypts_to secret "top secret footage"]).

Definition multi_recipient_each_can_decrypt : bool :=
  let '(p1, s1) := key_pair true in
  let '(p2, s2) := key_pair false in
  passes (unwrap! _ := encrypt_to (recipients_of [p1; p2]) (text "x") ct_path in
          all_of [decrypts_to s1 "x"; decrypts_to s2 "x"]).

Definition parse_rejects_garbage : bool :=
  negb (is_ok (parse_recipients ["not-an-age-key"])) &&
  match parse_recipients [(key_pair true).1] with Ok rs => bool_decide (length rs = 1) | Err _ => false end.

(** The last byte, with all its bits flipped. *)
Definition flip_last (b : bytes) : bytes :=
  match list.last b with
  | Some x => removelast b ++ [default x (Byte.of_N (N.lxor (Byte.to_N x) 255))]
  | None => b
  end.

Definition corrupted_ciphertext_is_decrypt_error : bool :=
  let '(pubkey, secret) := key_pair true in
  match identity_from_str secret with
  | Err _ => false
  | Ok id =>
      passes (unwrap! _ := encrypt_to (recipients_of [pubkey]) (text "hello world") ct_path in
              unwrap! ct := fs_read ct_path in
              unwrap! _ := write_text ct_path (String.string_of_list_byte (flip_last ct)) in
              let! r := decrypt_to id ct_path pt_path in
              Ret (match r with Err (CEDecrypt _) => true | _ => false end))
  end.

(** ** [backend.rs]: encrypted stores *)

Definition age_path : string := at_ "cam/clip.mp4.age".

Definition store_encrypted_writes_ciphertext_that_decrypts : bool :=
  let '(pubkey, secret) := key_pair true in
  match identity_from_str secret with
  | Err _ => false
  | Ok id =>
      passes (unwrap! _ := create_dir_all (at_ "cam") in
              unwrap! n := store_encrypted seed0 age_path (recipients_of [pubkey]) (text "camera footage bytes") in
              let! same := is_file_with age_path "camera footage bytes" in
              unwrap! _ := decrypt_to id age_path pt_path in
              all_of [holds (bool_decide (n = 20)%Z); holds (negb same);
                      missing (at_ "cam/clip.mp4.age.reoftpd-partial");
                      is_file_with pt_path "camera footage bytes"])
  end.

Definition store_encrypted_refuses_existing_finalized : bool :=
  let recips := recipients_of [(key_pair true).1] in
  passes (unwrap! _ := create_dir_all (at_ "cam") in
          unwrap! _ := store_encrypted seed0 age_path recips (text "a") in
          let! r := store_encrypted seed0 age_path recips (text "b") in
          holds (is_finalized r)).

(** ** [retention.rs] *)

(** [set_modified] of a file, [age] before now. *)
Definition set_mtime (p : string) (age : Z) (s : Fs) : Fs :=
  match lookup_path s true p with
  | WFound _ (EFile i) => set_inodes <[i := mkInode (content s i) (test_now - age) (i_mode (inode_of s i))]> s
  | _ => s
  end.

Definition days (n : Z) : Z := from_secs (n * 86400).

Definition test_sweep (dry_run : bool) : prog (option (io SweepReport)) :=
  sweep (days 30) (from_secs 3600) (from_secs 3600) test_now dry_run 10 tmp.

Definition reported (dry_run : bool) (check : SweepReport → prog bool) : prog bool :=
  let! r := test_sweep dry_run in
  match r with Some (Ok rep) => check rep | _ => Ret false end.

Definition cam_dir : string := at_ "cam/2026-01-01".

Definition aged_clips : Fs :=
  let s := (run_ok (let! _ := create_dir_all cam_dir in
                    let! _ := write_text (join cam_dir "old.mp4") "x" in
                    write_text (join cam_dir "new.mp4") "y") scratch).2 in
  set_mtime (join cam_dir "new.mp4") (days 1) (set_mtime (join cam_dir "old.mp4") (days 40) s).

Definition deletes_old_keeps_new : bool :=
  on_fs aged_clips (reported false (λ r,
    all_of [missing (join cam_dir "old.mp4"); path_exists (join cam_dir "new.mp4");
            holds (existsb (λ p, bool_decide (file_name p = Some "old.mp4")) (deleted r))])).

Definition aged_file : Fs :=
  set_mtime (at_ "old.mp4") (days 40) (run_ok (write_text (at_ "old.mp4") "x") scratch).2.

Definition dry_run_deletes_nothing : bool :=
  on_fs aged_file (reported true (λ r,
    all_of [path_exists (at_ "old.mp4"); holds (bool_decide (length (deleted r) = 1))])).

(** ** [server.rs]: reload *)

(** The texts the test writes, and what they stand for. *)
Definition with_garage : Config :=
  mkConfig (server MINIMAL_CFG) (archive MINIMAL_CFG) (limits MINIMAL_CFG)
    (camera MINIMAL_CFG ++ [mkCameraCfg "garage" None
       "$argon2id$v=19$m=16,t=2,p=1$AAAA$AAAAAAAAAAAAAAAAAAAAAA" None])
    ∅ [] None.

Definition test_toml (s : string) : result Config string :=
  if decide (s = "MINIMAL_CFG") then Ok MINIMAL_CFG
  else if decide (s = "with_garage") then Ok with_garage
  else Err "not TOML".

Definition has_garage (st : Running) : bool := has (Account.get (r_accounts st) "garage").

Definition reload_swaps_accounts_and_keeps_old_on_invalid : bool :=
  let path := at_ "reoftpd.toml" in
  passes (unwrap! _ := write_text path "MINIMAL_CFG" in
          unwrap! cfg := load test_toml path in
          let st := mkRunning (build cfg) (new (max_connections (limits cfg))
                                (max_connections_per_account (limits cfg))) in
          unwrap! _ := write_text path "with_garage" in
          let! r1 := reload_config test_toml path st in
          unwrap! _ := write_text path "this is not valid toml [[[" in
          let! r2 := reload_config test_toml path r1.2 in
          Ret (asserts [has (Account.get (r_accounts st) "front-door"); negb (has_garage st);
                        is_ok r1.1; has_garage r1.2; negb (is_ok r2.1);
                        bool_decide (has_garage r2.2 = has_garage r1.2)])).

(** ** [tls.rs] *)

Definition gencert_produces_pem : bool :=
  match generate_self_signed toy_rcgen ["reoftpd.local"] with
  | Ok (cert, key) => asserts [contains "BEGIN CERTIFICATE" cert; contains "PRIVATE KEY" key]
  | Err _ => false
  end.

(** [fs::metadata] and its permission bits. *)
Definition mode_at (s : Fs) (p : string) : option Z :=
  match lookup_path s true p with WFound _ (EFile i) => Some (i_mode (inode_of s i)) | _ => None end.

Definition write_cert_files_creates_files_with_correct_permissions : bool :=
  match generate_self_signed toy_rcgen ["reoftpd.local"] with
  | Ok (cert, key) =>
      let cert_path := at_ "cert.pem" in
      let key_path := at_ "key.pem" in
      let '(r, s) := run_ok (write_cert_files cert key cert_path key_path) scratch in
      asserts [is_ok r; on_fs s (path_exists cert_path); on_fs s (path_exists key_path);
               on_fs s (is_file_with cert_path cert); contains "BEGIN CERTIFICATE" cert;
               on_fs s (is_file_with key_path key); contains "PRIVATE KEY" key;
               bool_decide (mode_at s key_path = Some 0x180%Z)]
  | Err _ => false
  end.

(** ** All of them *)

Definition file_tests : list (string * bool) :=
  [("single_root_resolves_inside", single_root_resolves_inside);
   ("single_root_rejects_parent_traversal", single_root_rejects_parent_traversal);
   ("multi_root_lists_only_allowed_names", multi_root_lists_only_allowed_names);
   ("multi_root_maps_first_component_to_real_dir", multi_root_maps_first_component_to_real_dir);
   ("multi_root_rejects_unknown_camera", multi_root_rejects_unknown_camera);
   ("rejects_symlink_escape_existing_target", rejects_symlink_escape_existing_target);
   ("rejects_symlink_escape_nonexistent_leaf", rejects_symlink_escape_nonexistent_leaf);
   ("user_view_uploader_maps_to_single", user_view_uploader_maps_to_single);
   ("store_first_write_then_finalizes", store_first_write_then_finalizes);
   ("store_overlap_rejected_staging_discarded", store_overlap_rejected_staging_discarded);
   ("store_gap_rejected_staging_discarded", store_gap_rejected_staging_discarded);
   ("store_already_finalized_rejected", store_already_finalized_rejected);
   ("store_resume_extends_then_finalizes", store_resume_extends_then_finalizes);
   ("list_hides_staging_and_quarantine", list_hides_staging_and_quarantine);
   ("put_denied_for_viewer", put_denied_for_viewer);
   ("get_denied_for_uploader", get_denied_for_uploader);
   ("del_always_denied", del_always_denied);
   ("rmd_always_denied", rmd_always_denied);
   ("rename_always_denied", rename_always_denied);
   ("quarantine_reolink_test_file", quarantine_reolink_test_file);
   ("put_nontest_name_never_quarantined", put_nontest_name_never_quarantined);
   ("synth_dir_meta_is_dir_zero_len_no_panic", synth_dir_meta_is_dir_zero_len_no_panic);
   ("round_trip_single_recipient", round_trip_single_recipient);
   ("multi_recipient_each_can_decrypt", multi_recipient_each_can_decrypt);
   ("parse_rejects_garbage", parse_rejects_garbage);
   ("corrupted_ciphertext_is_decrypt_error", corrupted_ciphertext_is_decrypt_error);
   ("store_encrypted_writes_ciphertext_that_decrypts", store_encrypted_writes_ciphertext_that_decrypts);
   ("store_encrypted_refuses_existing_finalized", store_encrypted_refuses_existing_finalized);
   ("deletes_old_keeps_new", deletes_old_keeps_new);
   ("dry_run_deletes_nothing", dry_run_deletes_nothing);
   ("reload_swaps_accounts_and_keeps_old_on_invalid", reload_swaps_accounts_and_keeps_old_on_invalid);
   ("gencert_produces_pem", gencert_produces_pem);
   ("write_cert_files_creates_files_with_correct_permissions",
      write_cert_files_creates_files_with_correct_permissions)].
