(* ===== verification/SystemTests.v ===== *)
(** The repository's integration tests (tests/integration.rs) on the model of the
    running server.

    The tests start the server and drive it with an FTP client.  Here a test is a
    script of clients on the [System]: it connects, logs in, makes a request and
    waits for the answer, looks at the disk, and quits.  Passwords, the age library
    and the file system are those of Toy.v and FileTests.v; the temporary directory
    is [tmp]. *)
From S2P Require Import Prelude StdPath StdFs Prog FsView Append Paths Crypto Config Account.
From S2P Require Import Limits Auth Store Backend Immutable Confine Server System Moves Commands Toy.
From S2P Require Import UnitTests FileTests.

(** ** Scripts *)

Definition script (A : Type) : Type := System → A * System.
Definition done_with {A} (a : A) : script A := λ y, (a, y).

Notation "'then!' x := p 'in' k" :=
  (λ y, let '(x, y') := p y in k y')
  (at level 10, x pattern, p at level 100, k at level 200) : reo_scope.

Section scripts.
Context (b : ReoBackend).

Abbreviation steps := (Moves.moves test_toml b "/dev/null" []).

(** A client connects and logs in; the answer is its session, if it gets one. *)
Definition login (u pw : string) : script (option nat) := λ y,
  let y' := steps [MConnect u (mkCredentials (Some pw) Plaintext); MCheck 0; MDetails 0] y in
  (if decide (length (sy_sessions y') = S (length (sy_sessions y))) then Some (length (sy_sessions y)) else None, y').

(** A request, with its answer awaited. *)
Definition request (session : option nat) (r : Request) : script (result Answer Storage.Error) := λ y,
  match session with
  | None => (denied, y)
  | Some i =>
      let j := length (sy_requests y) in
      let y' := steps (MRequest i r :: replicate 100 (MOperate j)) y in
      (match sy_requests y' !! j with Some (Ret a) => a | _ => denied end, y')
  end.

Definition quit (session : option nat) : script unit := λ y,
  match session with None => (tt, y) | Some i => (tt, steps [MLogout i] y) end.

(** [std::fs::read], and [Path::exists]. *)
Definition disk (p : string) : script (option bytes) := λ y,
  (match (run_ok (fs_read p) (sy_fs y)).1 with Ok bs => Some bs | Err _ => None end, y).

Definition put_file (session : option nat) (name txt : string) : script (result Answer Storage.Error) :=
  request session (RPut seed0 (text txt) name 0).
End scripts.

Definition is_bytes (r : result Answer Storage.Error) (txt : string) : bool :=
  match r with Ok (ABytes bs) => bool_decide (bs = bytes_of txt) | _ => false end.

Definition lists (r : result Answer Storage.Error) (name : string) : bool :=
  match r with Ok (AList l) => existsb (λ fi, contains name (fi_path fi)) l | _ => false end.

Definition root_path (rest : string) : string := join tmp rest.

(** The hash of a password. *)
Definition hash_of (pw : string) : string := match hash_password [] pw with Ok h => h | Err _ => "" end.

Definition integration_cfg (sessions : Z) (recipients : option EncryptionCfg) : Config :=
  mkConfig (mkServerCfg "127.0.0.1" 2121 (50000, 50030)%Z None None None None)
    (mkArchiveCfg tmp 30)
    (mkLimitsCfg sessions 8 60 30 1 (mkLockoutCfg 50 60 60) None)
    [mkCameraCfg "front-door" None (hash_of "pw") None] ∅
    [mkViewerCfg "admin" (hash_of "vp") All] recipients.

(** [validate], and [server::run] up to listening. *)
Definition with_server (cfg : Config) (t : script bool) : bool :=
  is_ok (validate cfg) &&
  (let '(r, s) := run_ok (ensure_home_dirs cfg) scratch in
   is_ok r && (t (started cfg test_now s)).1).

(** ** The tests *)

Definition end_to_end_append_only_and_scoped_read : bool :=
  let b := plain_backend in
  with_server (integration_cfg 64 None)
   (then! cam := login b "front-door" "pw" in
    then! a1 := put_file b cam "clip.mp4" "hello" in
    then! d1 := disk (root_path "front-door/clip.mp4") in
    then! a2 := put_file b cam "clip.mp4" "overwrite" in
    then! d2 := disk (root_path "front-door/clip.mp4") in
    then! a3 := request b cam (RGet "clip.mp4" 0) in
    then! a4 := request b cam (RDel "clip.mp4") in
    then! a5 := request b cam (RMkd "sub") in
    then! a5b := put_file b cam "sub/c2.mp4" "data2" in
    then! d5 := disk (root_path "front-door/sub/c2.mp4") in
    then! a6 := request b cam (RRmd "sub") in
    then! a7 := put_file b cam "test.txt" "probe1" in
    then! a7b := put_file b cam "test.txt" "probe2" in
    then! d7 := disk (root_path "front-door/.quarantine/test.txt") in
    then! d7b := disk (root_path "front-door/test.txt") in
    then! _ := quit b cam in
    then! admin := login b "admin" "vp" in
    then! a8 := request b admin (RList "/") in
    then! a8b := request b admin (RGet "/front-door/clip.mp4" 0) in
    then! a9 := put_file b admin "/front-door/evil.mp4" "evil" in
    then! a10 := request b admin (RDel "/front-door/clip.mp4") in
    then! _ := quit b admin in
    done_with (asserts
      [has cam; is_ok a1; bool_decide (d1 = Some (bytes_of "hello"));
       negb (is_ok a2); bool_decide (d2 = Some (bytes_of "hello")); negb (is_ok a3); negb (is_ok a4);
       is_ok a5; is_ok a5b; has d5; negb (is_ok a6); is_ok a7; is_ok a7b; has d7; negb (has d7b);
       has admin; lists a8 "front-door"; is_bytes a8b "hello"; negb (is_ok a9); negb (is_ok a10)])).

Definition global_session_cap_refuses_second_login : bool :=
  let b := plain_backend in
  with_server (integration_cfg 1 None)
   (then! ftp1 := login b "front-door" "pw" in
    then! ftp2 := login b "front-door" "pw" in
    then! _ := quit b ftp1 in
    then! ftp3 := login b "front-door" "pw" in
    then! _ := quit b ftp3 in
    done_with (asserts [has ftp1; negb (has ftp2); has ftp3])).

Definition encrypted_upload_is_ciphertext_on_disk_and_decryptable : bool :=
  let '(pubkey, secret) := generate_identity seed0 in
  let cfg := integration_cfg 64 (Some (mkEncryptionCfg [pubkey])) in
  match parse_recipients [pubkey] with
  | Ok recs =>
      let b := mkReoBackend (Some recs) in
      let body := "END TO END ARCHIVE BYTES" in
      with_server cfg
       (then! up := login b "front-door" "pw" in
        then! a1 := put_file b up "clip.mp4" body in
        then! _ := quit b up in
        then! stored := disk (root_path "front-door/clip.mp4.age") in
        then! plain := disk (root_path "front-door/clip.mp4") in
        then! vw := login b "admin" "vp" in
        then! downloaded := request b vw (RGet "/front-door/clip.mp4.age" 0) in
        then! _ := quit b vw in
        done_with (asserts
          [has up; is_ok a1; has stored; negb (bool_decide (stored = Some (bytes_of body))); negb (has plain);
           has vw; negb (is_bytes downloaded body);
           match downloaded with
           | Ok (ABytes ct) =>
               passes (unwrap! _ := write_text ct_path (String.string_of_list_byte ct) in
                       decrypts_to secret body)
           | _ => false
           end]))
  | Err _ => false
  end.

Definition system_tests : list (string * bool) :=
  [("end_to_end_append_only_and_scoped_read", end_to_end_append_only_and_scoped_read);
   ("global_session_cap_refuses_second_login", global_session_cap_refuses_second_login);
   ("encrypted_upload_is_ciphertext_on_disk_and_decryptable",
      encrypted_upload_is_ciphertext_on_disk_and_decryptable)].

(** None of the unit tests, with files and without, and of the integration tests
    fails. *)
Example repository_tests_pass : failing (unit_tests ++ file_tests ++ system_tests) = [].
Proof. vm_compute. reflexivity. Qed.
