(* ===== verification/Race.v ===== *)
(** Two uploads of one name at a time.

    [Concurrent] and [Service] prove what an upload can count on while nobody else
    uploads its name.  Here somebody does: both are welcome until the final name
    exists, and they share the staging file.  The schedule is built from the parts
    of the two programs that run [alone]. *)
From S2P Require Import Prelude StdPath StdFs Prog FsView Append Paths Crypto Config Account.
From S2P Require Import Limits Auth Store Backend.

(** ** A program running alone for a while *)

Inductive alone {A} : Fs → prog A → Fs → prog A → Prop :=
| alone_refl s p : alone s p s p
| alone_vis {T} (e : Sys T) k s s' p' :
    alone (exec e s).2 (k (exec e s).1) s' p' → alone s (Vis e k) s' p'.

Lemma alone_trans {A} s (p : prog A) s1 p1 s2 p2 : alone s p s1 p1 → alone s1 p1 s2 p2 → alone s p s2 p2.
Proof. induction 1; [done|]. intros H2. constructor. auto. Qed.

Lemma alone_bind {A B} s (p : prog A) s' p' (f : A → prog B) : alone s p s' p' → alone s (bind p f) s' (bind p' f).
Proof. induction 1; [constructor|]. cbn. by constructor. Qed.

Lemma alone_run {A} (p : prog A) s a s' : run_ok p s = (a, s') → alone s p s' (Ret a).
Proof.
  revert s. induction p as [r|T e k IH]; intros s; [rewrite run_ok_ret; intros [= <- <-]; constructor|].
  rewrite run_ok_vis. intros Hr. constructor. auto.
Qed.

(** It runs the first part of a sequence. *)
Lemma alone_then {A B} (p : prog A) (f : A → prog B) s a s1 s' p' :
  run_ok p s = (a, s1) → alone s1 (f a) s' p' → alone s (bind p f) s' p'.
Proof. intros Hr. apply alone_trans. change (f a) with (bind (Ret a) f). by apply alone_bind, alone_run. Qed.

Lemma alone_sched {A} n s (p : prog A) s' p' ps :
  alone s p s' p' → ps !! n = Some p → ∃ j, sched (replicate j n) s ps = (s', <[n := p']> ps).
Proof.
  intros Ha. revert ps. induction Ha as [s p|T e k s s' p' _ IH]; intros ps Hp.
  - exists 0. cbn. by rewrite list_insert_id.
  - destruct (IH (<[n := k (exec e s).1]> ps)) as [j Hj].
    { rewrite list_lookup_insert_eq; [done|by eapply lookup_lt_Some]. }
    exists (S j). cbn. by rewrite Hp, Hj, list_insert_insert_eq.
Qed.

Lemma sched_app {A} js js' s (ps : list (prog A)) :
  sched (js ++ js') s ps = sched js' (sched js s ps).1 (sched js s ps).2.
Proof.
  revert s ps. induction js as [|j js IH]; intros s ps; [done|]. cbn.
  destruct (ps !! j) as [[]|]; auto.
Qed.

(** ** An upload in parts *)

(** The part of [append_to] from the open staging file to the answer. *)
Definition receive (staging real_final : string) (input : Input) (fd : nat) : prog (result Z StoreError) :=
  let! r := copy input fd in
  match r with
  | Err e =>
      let! _ := ask (RemoveFile staging) in
      let! _ := ask (Close fd) in
      Ret (Err (SIo e))
  | Ok bytes_written =>
      let! r := ask (Flush fd) in
      match r with
      | Err e => let! _ := ask (Close fd) in Ret (Err (SIo e))
      | Ok _ =>
          let! _ := ask (Close fd) in
          finalize staging real_final bytes_written
      end
  end.

Section parts.
Context (q : list string) (n : string) (Hvq : Forall valid_name q) (Hvn : valid_name n).

Abbreviation final := (q ++ [n]).
Abbreviation staging := (q ++ [n +:+ STAGING_SUFFIX]).

(** Nothing is published; inode [i] is staged, holds [data], and [fd] appends to it. *)
Record appending (fd i : nat) (data : bytes) (s : Fs) : Prop := {
  ap_plain : plain_fs s;
  ap_dir : is_dir (fs_tree s) q;
  ap_staging : fs_tree s !! staging = Some (EFile i);
  ap_final : fs_tree s !! final = None;
  ap_content : content s i = data;
  ap_fd : fs_fds s !! fd = Some (HAppend i)
}.

(** The upload opens a staging file that is empty, or not there. *)
Lemma staging_opens s :
  plain_fs s → is_dir (fs_tree s) q → fs_tree s !! final = None →
  match fs_tree s !! staging with None => True | Some (EFile i) => content s i = [] | _ => False end →
  ∃ i, exec (OpenAppend (render staging)) s = (Ok (fs_next_fd s), (exec (OpenAppend (render staging)) s).2) ∧
    let s' := (exec (OpenAppend (render staging)) s).2 in
    appending (fs_next_fd s) i [] s' ∧
    (∀ fd, fd ≠ fs_next_fd s → fs_fds s' !! fd = fs_fds s !! fd) ∧
    (∀ k, fs_tree s !! staging = Some (EFile k) → i = k).
Proof.
  intros Hp Hd Hf Hst. pose proof (staging_name_valid n Hvn) as Hx. pose proof (final_ne_staging q n) as Hne.
  pose proof (exec_plain (OpenAppend (render staging)) s Hp I) as Hp'.
  cbn [exec] in *. rewrite (lookup_at s Hp) in * by done.
  destruct (fs_tree s !! staging) as [[i| |]|] eqn:E; try done; cbn in *.
  - exists i. split; [done|]. split; [|split; [|by intros k [= ->]]].
    + by split; cbn; rewrite ?lookup_insert_eq.
    + intros fd Hfd. by rewrite lookup_insert_ne.
  - exists (fs_next_ino s). split; [done|]. split; [|split; [|done]].
    + split; cbn; rewrite ?lookup_insert_eq; try done.
      * by apply is_dir_insert.
      * by rewrite lookup_insert_ne.
      * unfold content, inode_of. cbn. by rewrite lookup_insert_eq.
    + intros fd Hfd. by rewrite lookup_insert_ne.
Qed.

(** So an upload from the beginning gets to the open staging file. *)
Lemma store_stream_opens s input :
  plain_fs s → is_dir (fs_tree s) q → fs_tree s !! final = None →
  match fs_tree s !! staging with None => True | Some (EFile i) => content s i = [] | _ => False end →
  ∃ i fd s', alone s (store_stream (render final) 0 input) s' (receive (render staging) (render final) input fd) ∧
    appending fd i [] s' ∧ fs_fds s !! fd = None ∧ (∀ fd', fd' ≠ fd → fs_fds s' !! fd' = fs_fds s !! fd') ∧
    (∀ k, fs_tree s !! staging = Some (EFile k) → i = k).
Proof.
  intros Hp Hd Hf Hst. pose proof (staging_name_valid n Hvn) as Hx.
  destruct (make_parent_ok s q (n +:+ STAGING_SUFFIX)) as (s0 & Hmk & Hd0 & Hm); [done|by apply dir_open_way|done|].
  destruct (staging_opens s0) as (i & Ho & Hap & Hfds & Hi); [apply Hm|done|by rewrite (dirs_made_child s s0 q Hm)| |].
  { rewrite (dirs_made_child s s0 q Hm). destruct (fs_tree s !! staging) as [[k| |]|]; try done.
    by rewrite <- Hst; unfold content, inode_of; rewrite (dm_inodes _ _ _ Hm). }
  exists i, (fs_next_fd s0), (exec (OpenAppend (render staging)) s0).2. split_and!; [|done|..].
  - unfold store_stream. eapply (alone_then _ _ _ (Ok false) s).
    { rewrite run_ok_bind, run_ok_ask. cbn [exec]. by rewrite (lookup_at s Hp), Hf. }
    rewrite staging_render by done. eapply (alone_then _ _ _ (Ok 0%Z) s).
    { unfold staging_size. rewrite run_ok_bind, run_ok_ask. cbn [exec]. rewrite (lookup_at s Hp) by done.
      destruct (fs_tree s !! staging) as [[k| |]|] eqn:E; try done. cbn. by rewrite Hst. }
    cbn [classify_offset Z.compare]. unfold append_to. eapply (alone_then _ _ _ (Ok tt) s0).
    { by rewrite run_ok_bind, Hmk. }
    eapply (alone_then _ _ _ (Ok (fs_next_fd s0)) (exec (OpenAppend (render staging)) s0).2).
    { by rewrite run_ok_bind, run_ok_ask, Ho. }
    apply alone_refl.
  - rewrite <- (dm_fds _ _ _ Hm). apply next_fd_fresh, Hm.
  - intros fd Hfd. by rewrite Hfds, (dm_fds _ _ _ Hm).
  - intros k. rewrite <- (dirs_made_child s s0 q Hm). apply Hi.
Qed.

(** What is sent goes into the staged inode, whichever name it has by then. *)
Lemma received fd i data input s :
  fs_fds s !! fd = Some (HAppend i) → content s i = data → plain_fs s → in_end input = None →
  ∃ s', run_ok (copy input fd) s = (Ok (Z.of_nat (length (in_data input))), s') ∧
    let s1 := set_fds (delete fd) s' in
    plain_fs s1 ∧ fs_tree s1 = fs_tree s ∧ content s1 i = data ++ in_data input ∧
    (∀ fd', fd' ≠ fd → fs_fds s1 !! fd' = fs_fds s !! fd').
Proof.
  intros Hfd Hc Hp Hend. destruct (copy_spec fd i input s (HAppend i) Hfd) as (s' & Hr & Hw); [by left|].
  rewrite Hend in Hr. exists s'. split; [done|]. split_and!.
  - by apply (exec_plain (Close fd) s'); [apply Hw|].
  - apply Hw.
  - change (content s' i = data ++ in_data input). rewrite (wr_content _ _ _ _ _ Hw). by rewrite Hc.
  - intros fd' Hne. cbn. by rewrite lookup_delete_ne, (wr_fds _ _ _ _ _ Hw).
Qed.

Lemma lookup_in s t follow x :
  plain_fs s → is_dir t q → fs_tree s = t → valid_name x →
  lookup_path s follow (render (q ++ [x])) =
    match t !! (q ++ [x]) with None => WMissing q x | Some e => WFound (q ++ [x]) e end.
Proof. intros Hp Hd <-. by apply lookup_at. Qed.

(** The first to be through publishes the inode; *)
Lemma receive_publishes fd i data input s :
  appending fd i data s → in_end input = None →
  ∃ s', run_ok (receive (render staging) (render final) input fd) s =
      (Ok (Z.of_nat (length (in_data input))), s') ∧
    plain_fs s' ∧ is_dir (fs_tree s') q ∧ fs_tree s' !! staging = None ∧ fs_tree s' !! final = Some (EFile i) ∧
    content s' i = data ++ in_data input ∧ (∀ fd', fd' ≠ fd → fs_fds s' !! fd' = fs_fds s !! fd').
Proof.
  intros [Hp Hd Hst Hf Hc Hfd] Hend. pose proof (staging_name_valid n Hvn) as Hx.
  pose proof (final_ne_staging q n) as Hne.
  destruct (received fd i data input s Hfd Hc Hp Hend) as (s1 & Hr & Hp1 & Ht & Hc1 & Hfds).
  set (s2 := set_fds (delete fd) s1) in *.
  assert (exec (HardLink (render staging) (render final)) s2 = (Ok tt, insert_entry q n (EFile i) s2)) as Hl.
  { cbn [exec]. by rewrite !(lookup_in s2 (fs_tree s)), Hst, Hf. }
  pose proof (exec_plain (HardLink (render staging) (render final)) s2 Hp1 I) as Hp3. rewrite Hl in Hp3. cbn [snd] in Hp3.
  set (s3 := insert_entry q n (EFile i) s2) in *.
  assert (fs_tree s3 = <[final := EFile i]> (fs_tree s)) as Ht3.
  { change (fs_tree s3) with (<[final := EFile i]> (fs_tree s2)). by rewrite Ht. }
  assert (is_dir (fs_tree s3) q) as Hd3 by (rewrite Ht3; by apply is_dir_insert).
  assert (exec (RemoveFile (render staging)) s3 = (Ok tt, remove_entry staging s3)) as Hrm.
  { cbn [exec]. rewrite Ht3 in Hd3. by rewrite (lookup_in s3 _ _ _ Hp3 Hd3 Ht3), lookup_insert_ne, Hst. }
  pose proof (exec_plain (RemoveFile (render staging)) s3 Hp3 I) as Hp4. rewrite Hrm in Hp4.
  exists (remove_entry staging s3). split_and!; [|done|..].
  - unfold receive. rewrite run_ok_bind, Hr. cbn [fst snd]. rewrite run_ok_bind, run_ok_ask. cbn [exec fst snd].
    rewrite run_ok_bind, run_ok_ask. change (exec (Close fd) s1) with (Ok (E := Io.ErrorKind) tt, s2). cbn [fst snd].
    unfold finalize. rewrite run_ok_bind, run_ok_ask, Hl. cbn [fst snd].
    by rewrite run_ok_bind, run_ok_ask, Hrm.
  - apply (is_dir_delete_file (fs_tree s3) staging q (EFile i)); [|done|exact Hd3]. by rewrite Ht3, lookup_insert_ne.
  - cbn. by rewrite lookup_delete_eq.
  - change (delete staging (fs_tree s3) !! final = Some (EFile i)).
    by rewrite lookup_delete_ne, Ht3, lookup_insert_eq.
  - done.
  - done.
Qed.

(** the other one then still writes to it, and is told that its staging file is
    gone. *)
Lemma receive_late fd i data input s :
  plain_fs s → is_dir (fs_tree s) q → fs_tree s !! staging = None → fs_tree s !! final = Some (EFile i) →
  content s i = data → fs_fds s !! fd = Some (HAppend i) → in_end input = None →
  ∃ s', run_ok (receive (render staging) (render final) input fd) s = (Err (SIo Io.NotFound), s') ∧
    file_at s' final = Some (data ++ in_data input).
Proof.
  intros Hp Hd Hst Hf Hc Hfd Hend. pose proof (staging_name_valid n Hvn) as Hx.
  destruct (received fd i data input s Hfd Hc Hp Hend) as (s1 & Hr & Hp1 & Ht & Hc1 & _).
  set (s2 := set_fds (delete fd) s1) in *.
  assert (∀ follow, lookup_path s2 follow (render staging) = WMissing q (n +:+ STAGING_SUFFIX)) as Hl.
  { intros follow. by rewrite (lookup_in s2 (fs_tree s)), Hst. }
  exists s2. split.
  - unfold receive. rewrite run_ok_bind, Hr. cbn [fst snd]. rewrite run_ok_bind, run_ok_ask. cbn [exec fst snd].
    rewrite run_ok_bind, run_ok_ask. change (exec (Close fd) s1) with (Ok (E := Io.ErrorKind) tt, s2). cbn [fst snd].
    unfold finalize. rewrite run_ok_bind, run_ok_ask. cbn [exec]. rewrite Hl. cbn [fst snd].
    rewrite run_ok_bind, run_ok_ask. cbn [exec]. by rewrite Hl.
  - unfold file_at. by rewrite Ht, Hf, Hc1.
Qed.
End parts.

(** ** Requests *)

Section requests.
Context `{AgeLib} (b : ReoBackend) (Hb : backend_recipients b = None).
Context (qb parts : list string) (n v f : string).
Context (Hf : file_name v = Some f) (Ht : is_reolink_test_file (to_string_lossy f) = false).
Context (Hn : normalize v = Ok (parts ++ [n])).

Abbreviation dir := (qb ++ parts).
Abbreviation final := (dir ++ [n]).
Abbreviation staging := (dir ++ [n +:+ STAGING_SUFFIX]).

(** The result of the store becomes the answer. *)
Definition answering (p : prog (result Z StoreError)) : prog (result Answer Storage.Error) :=
  answered AStored (let! r := p in Ret (map_err store_error_to_storage r)).

Lemma alone_answering s p s' p' : alone s p s' p' → alone s (answering p) s' (answering p').
Proof. intros Ha. by do 2 apply alone_bind. Qed.

Lemma answering_run s p r s' :
  run_ok p s = (r, s') →
  alone s (answering p) s' (Ret (match r with Ok m => Ok (AStored m) | Err e => Err (store_error_to_storage e) end)).
Proof.
  intros Hr. eapply alone_trans; [by apply alone_answering, alone_run|]. unfold answering, answered. cbn.
  destruct r; constructor.
Qed.

Lemma upload_starts s cam seed input :
  plain_fs s → is_dir (fs_tree s) qb → user_role cam = Uploader (render qb) →
  alone s (serve b cam (RPut seed input v 0)) s (answering (store_stream (render final) 0 input)).
Proof.
  intros Hp Hd Hu. cbn [serve]. unfold answered, put. rewrite Hu, Hf, Ht, Hb. cbn [capability_allowed negb].
  apply alone_bind. eapply (alone_then _ _ _ (Ok (render final)) s); [|constructor].
  rewrite <- app_assoc. apply (rooted_resolve s cam v qb); [done|]. exists (render qb).
  unfold user_view. rewrite Hu. unfold select_root. rewrite Hn. split; [done|]. by apply lookup_dir_at.
Qed.
End requests.

(** ** Properties *)

(** C36. Two uploads of one name can share the staging file, and a finalized file then
    changes.  Whatever two connections of a camera send, completely and from the
    beginning, under a name that is neither stored nor staged yet and no test file's,
    in a directory that exists, there is a schedule in which no operation fails, after which the
    first upload is answered as stored and the final file holds exactly its bytes,
    and a continuation after which the file holds those of the second upload as
    well, through the descriptor this one opened before; the second upload itself
    is answered with an error. *)
Theorem concurrent_uploads_break_final `{AgeLib} b seed1 seed2 cam1 cam2 qb parts n v f in1 in2 s :
  let final := (qb ++ parts) ++ [n] in
  plain_fs s → backend_recipients b = None →
  user_role cam1 = Uploader (render qb) → user_role cam2 = Uploader (render qb) →
  is_dir (fs_tree s) (qb ++ parts) → file_name v = Some f → is_reolink_test_file (to_string_lossy f) = false →
  normalize v = Ok (parts ++ [n]) →
  fs_tree s !! final = None → fs_tree s !! ((qb ++ parts) ++ [n +:+ STAGING_SUFFIX]) = None →
  in_end in1 = None → in_end in2 = None →
  ∃ js1 s1 ps1 js2 s2 ps2,
    sched js1 s [serve b cam1 (RPut seed1 in1 v 0); serve b cam2 (RPut seed2 in2 v 0)] = (s1, ps1) ∧
    ps1 !! 0 = Some (Ret (Ok (AStored (Z.of_nat (length (in_data in1)))))) ∧
    file_at s1 final = Some (in_data in1) ∧
    sched js2 s1 ps1 = (s2, ps2) ∧
    ps2 !! 1 = Some (Ret (Err (Storage.FromIo Io.NotFound))) ∧
    file_at s2 final = Some (in_data in1 ++ in_data in2).
Proof.
  intros final Hp Hb Hu1 Hu2 Hd Hf Ht Hn Hfin Hst He1 He2. subst final. set (q := qb ++ parts) in *.
  assert (∀ t, wf_tree t → is_dir t q → is_dir t qb) as Hqb by (intros t Hw; by apply is_dir_prefix).
  assert (Forall valid_name q ∧ valid_name n) as [Hvq Hvn].
  { split; [by eapply plain_dir_valid|]. apply normalize_valid, Forall_app in Hn as [_ Hn]. by inversion Hn. }
  destruct (store_stream_opens q n Hvq Hvn s in2) as (i & fd2 & sa & Ha & [Hpa Hda Hsta Hfa Hca Hfda] & _ & _ & _);
    [done..|by rewrite Hst|].
  destruct (store_stream_opens q n Hvq Hvn sa in1) as (i' & fd1 & sb & Hb1 & Hapb & Hfree & Hfdb & Hi);
    [done..|by rewrite Hsta|]. specialize (Hi i Hsta) as ->.
  assert (fd2 ≠ fd1) as Hne by congruence.
  destruct (receive_publishes q n Hvn fd1 i [] in1 sb Hapb He1) as (s1 & Hr1 & Hp1 & Hd1 & Hst1 & Hf1 & Hc1 & Hfd1).
  assert (fs_fds s1 !! fd2 = Some (HAppend i)) as Hfd2 by (by rewrite Hfd1, Hfdb).
  destruct (receive_late q n Hvn fd2 i (in_data in1) in2 s1) as (s2 & Hr2 & Hf2); [done..|].
  assert (alone s (serve b cam2 (RPut seed2 in2 v 0)) sa (answering (receive (render (q ++ [n +:+ STAGING_SUFFIX])) (render (q ++ [n])) in2 fd2))) as A2.
  { eapply alone_trans; [|by apply alone_answering]. apply (upload_starts b Hb qb parts n v f); try done.
    by apply Hqb; [apply Hp|]. }
  assert (alone sa (serve b cam1 (RPut seed1 in1 v 0)) s1 (Ret (Ok (AStored (Z.of_nat (length (in_data in1))))))) as A1.
  { eapply alone_trans; [apply (upload_starts b Hb qb parts n v f); try done; by apply Hqb; [apply Hpa|]|].
    eapply alone_trans; [by apply alone_answering|]. exact (answering_run _ _ _ _ Hr1). }
  pose proof (answering_run _ _ _ _ Hr2) as A3.
  destruct (alone_sched 1 _ _ _ _ [serve b cam1 (RPut seed1 in1 v 0); serve b cam2 (RPut seed2 in2 v 0)] A2)
    as [j2 H2]; [done|].
  match type of H2 with _ = (_, ?psa) => destruct (alone_sched 0 _ _ _ _ psa A1) as [j1 H1]; [done|] end.
  match type of H1 with _ = (_, ?psb) => destruct (alone_sched 1 _ _ _ _ psb A3) as [j3 H3]; [done|] end.
  exists (replicate j2 1 ++ replicate j1 0). do 2 eexists. exists (replicate j3 1). do 2 eexists.
  split; [rewrite sched_app, H2; exact H1|]. split; [done|]. split; [by unfold file_at; rewrite Hf1, Hc1|].
  split; [exact H3|]. by split.
Qed.
