(* ===== verification/Witnesses.v ===== *)
(** The theorems at work: each property with hypotheses, applied to a concrete
    input where they hold. *)
From stdpp Require Import relations.
From S2P Require Import Prelude StdPath StdFs Prog FsView Append Paths Crypto Config Account.
From S2P Require Import Limits Auth Store Backend Archive Immutable Confine Own Concurrent Reading Retention Server Commands Keys.
From S2P Require Import Delivery Upkeep Race Toy.

Abbreviation q_cam := ["a"; "cam"].

(** ** Uploads *)

Definition first_upload := serve plain_backend cam_user (upload "clip" 0 "AA").
Definition uploaded : Fs := (run_ok first_upload archive_fs).2.

Lemma uploaded_published : published uploaded (q_cam ++ ["clip"]) (bytes_of "AA").
Proof.
  apply (published_by uploaded (q_cam ++ ["clip"]) (bytes_of "AA") 0); vm_compute; reflexivity.
Qed.

Lemma is_request b u r : server_request (serve b u r).
Proof. by exists b, u, r. Qed.

Lemma uploaded_reached :
  pool_steps server_request (archive_fs, []) (uploaded, [Ret (run_ok first_upload archive_fs).1]).
Proof. unfold uploaded. apply run_ok_steps, is_request. Qed.

(** A second upload of the name and a viewer's retrieval, interleaved after it. *)
Definition later : Fs * list (prog (result Answer Storage.Error)) :=
  sched [1; 2; 1; 2; 1; 2; 1; 2; 1; 2; 1; 2; 1; 2] uploaded
    ([Ret (run_ok first_upload archive_fs).1] ++
     [serve plain_backend cam_user (upload "clip" 2 "BB");
      serve plain_backend all_viewer (RGet "/cam/clip" 0)]).

Lemma later_reached : pool_steps server_request
  (uploaded, [Ret (run_ok first_upload archive_fs).1]) (later.1, later.2).
Proof. unfold later. apply arrive_sched. repeat constructor; apply is_request. Qed.

Lemma finalized_immutable_witness : file_at later.1 (q_cam ++ ["clip"]) = Some (bytes_of "AA").
Proof.
  apply (finalized_immutable archive_fs uploaded [Ret (run_ok first_upload archive_fs).1]
    q_cam "clip" (bytes_of "AA") later.1 later.2).
  - apply archive_plain.
  - apply uploaded_reached.
  - apply published_finalized; [apply uploaded_published|reflexivity].
  - apply later_reached.
Defined.

Lemma clip_target : target archive_fs q_cam "clip".
Proof. split; [apply archive_plain|apply archive_way|by vm_compute]. Qed.

Lemma no_staging (s : Fs) q : fs_tree s !! q = None → own_staging s q.
Proof. intros Hq i Hi. congruence. Qed.

Lemma store_stream_stores_witness :
  ∃ s', run_ok (store_stream "/a/cam/clip" 0 (input_of (bytes_of "AA"))) archive_fs = (Ok 2%Z, s') ∧
    upload_effect q_cam "clip" (Some (bytes_of "AA")) archive_fs s' ∧
    published s' (q_cam ++ ["clip"]) (bytes_of "AA").
Proof.
  apply (store_stream_stores archive_fs q_cam "clip" 0 (input_of (bytes_of "AA"))).
  - apply clip_target.
  - by vm_compute.
  - by vm_compute.
  - by apply no_staging; vm_compute.
  - by vm_compute.
  - by vm_compute.
Defined.

Definition three : Input := input_of (bytes_of "AAB").

Lemma put_then_get_witness :
  ∃ s1 s2,
    run_ok (serve plain_backend cam_user (RPut seed0 three "/clip" 0)) archive_fs =
      (Ok (AStored (Z.of_nat (length (in_data three)))), s1) ∧
    run_ok (serve plain_backend cam_viewer (RGet "/cam/clip" 1)) s1 =
      (Ok (ABytes (drop (Z.to_nat 1) (in_data three))), s2).
Proof.
  apply (put_then_get plain_backend seed0 cam_user cam_viewer "/a/cam" "/clip" "clip" "/cam/clip"
    q_cam q_cam [] ["clip"] "clip" three 1 archive_fs).
  - apply archive_plain.
  - reflexivity.
  - reflexivity.
  - reflexivity.
  - by vm_compute.
  - by vm_compute.
  - exists "/a/cam". split; by vm_compute.
  - exists "/a/cam". split; by vm_compute.
  - reflexivity.
  - apply archive_way.
  - by vm_compute.
  - by vm_compute.
  - reflexivity.
Defined.

Definition again := serve plain_backend cam_user (upload "/clip" 0 "CC").

Lemma upload_permanent_witness :
  file_at (run_ok again uploaded).2 (q_cam ++ [] ++ ["clip"]) = Some (in_data (input_of (bytes_of "AA"))).
Proof.
  apply (upload_permanent plain_backend seed0 cam_user "/a/cam" "clip" "clip" q_cam [] "clip"
    (input_of (bytes_of "AA")) archive_fs uploaded (run_ok again uploaded).2
    [Ret (run_ok again uploaded).1]).
  - apply archive_plain.
  - reflexivity.
  - reflexivity.
  - by vm_compute.
  - by vm_compute.
  - by apply cam_rooted; vm_compute.
  - by vm_compute.
  - apply archive_way.
  - by vm_compute.
  - by vm_compute.
  - reflexivity.
  - unfold uploaded, first_upload, upload. reflexivity.
  - apply run_ok_steps, is_request.
Defined.

Lemma store_encrypted_roundtrip_witness :
  ∃ s' ct cs,
    run_ok (store_encrypted seed0 "/a/cam/clip.age" [to_public key_a] (input_of (bytes_of "AA"))) archive_fs = (Ok 2%Z, s') ∧
    upload_effect q_cam "clip.age" (Some ct) archive_fs s' ∧ published s' (q_cam ++ ["clip.age"]) ct ∧
    decryptor key_a ct = Ok (cs, None) ∧ concat cs = bytes_of "AA".
Proof.
  apply (store_encrypted_roundtrip seed0 [to_public key_a] encryptor0 key_a archive_fs q_cam "clip.age" (input_of (bytes_of "AA"))).
  - split; [apply archive_plain|apply archive_way|by vm_compute].
  - by vm_compute.
  - by vm_compute.
  - by apply no_staging; vm_compute.
  - by vm_compute.
  - by vm_compute.
  - by left.
Defined.

Lemma uploaded_plain : plain_fs uploaded.
Proof. by eapply pool_client, uploaded_reached; [apply server_request_client|apply archive_plain]. Qed.

Lemma uploaded_target n : valid_name n → target uploaded q_cam n.
Proof.
  intros Hn. split; [apply uploaded_plain| |done].
  apply dir_open_way; [apply uploaded_plain|]. right. by vm_compute.
Qed.

Lemma store_stream_immutable_witness :
  run_ok (store_stream "/a/cam/clip" 2 (input_of (bytes_of "BB"))) uploaded = (Err Finalized, uploaded).
Proof.
  apply (store_stream_immutable uploaded q_cam "clip" 2 (input_of (bytes_of "BB")) (EFile 0)).
  - by apply uploaded_target; vm_compute.
  - by vm_compute.
Defined.

Lemma store_stream_offset_witness :
  ∃ s', run_ok (store_stream "/a/cam/clip" 7 (input_of (bytes_of "BB"))) archive_fs = (Err Gap, s') ∧
    upload_effect q_cam "clip" None archive_fs s'.
Proof.
  apply (store_stream_offset archive_fs q_cam "clip" 7 (input_of (bytes_of "BB"))).
  - apply clip_target.
  - by vm_compute.
  - by vm_compute.
  - by vm_compute.
Defined.

Lemma store_stream_broken_witness :
  ∃ s', run_ok (store_stream "/a/cam/clip" 0 (mkInput [bytes_of "A"] (Some Io.Other))) archive_fs
      = (Err (SIo Io.Other), s') ∧
    upload_effect q_cam "clip" None archive_fs s'.
Proof.
  apply (store_stream_broken archive_fs q_cam "clip" 0 (mkInput [bytes_of "A"] (Some Io.Other))).
  - apply clip_target.
  - by vm_compute.
  - by vm_compute.
  - by apply no_staging; vm_compute.
  - by vm_compute.
  - by vm_compute.
Defined.

(** ** Requests *)

Definition stored : World := mkWorld uploaded [].

Lemma viewer_never_writes_witness :
  fs_tree (w_fs (run (serve plain_backend all_viewer (RGet "/cam/clip" 0)) stored).2)
    = fs_tree (w_fs stored) ∧
  fs_inodes (w_fs (run (serve plain_backend all_viewer (RGet "/cam/clip" 0)) stored).2)
    = fs_inodes (w_fs stored).
Proof.
  apply (viewer_never_writes plain_backend all_viewer (single "/a") (RGet "/cam/clip" 0)
    stored).
  reflexivity.
Defined.

Lemma climbing_refused_witness :
  ∃ e, run (serve plain_backend cam_user (upload "../clip" 0 "A")) (mkWorld archive_fs [])
    = (Err e, mkWorld archive_fs []).
Proof.
  apply (climbing_refused plain_backend cam_user (upload "../clip" 0 "A") "../clip" (mkWorld archive_fs [])).
  - split; [done|]. intros f [= <-]. by vm_compute.
  - by left.
Defined.

Lemma list_dir_exact_witness :
  ∃ l, run_ok (list_ plain_backend cam_viewer "/cam") uploaded = (Ok l, uploaded) ∧
    (∀ n e, fs_tree uploaded !! (q_cam ++ [] ++ [n]) = Some e → visible n = true →
       mkFileinfo n (Real (metadata_of uploaded (q_cam ++ [] ++ [n]) e)) ∈ l) ∧
    (∀ fi, fi ∈ l → visible (fi_path fi) = true ∧ ∃ e,
       fs_tree uploaded !! (q_cam ++ [] ++ [fi_path fi]) = Some e ∧
       fi_metadata fi = Real (metadata_of uploaded (q_cam ++ [] ++ [fi_path fi]) e)) ∧
    NoDup (fi_path <$> l).
Proof.
  apply (list_dir_exact plain_backend cam_viewer "/cam" uploaded q_cam []).
  - apply uploaded_plain.
  - reflexivity.
  - by vm_compute.
  - exists "/a/cam". split; by vm_compute.
  - right. by vm_compute.
Defined.

Lemma quarantine_stores_witness :
  ∃ s', run_ok (serve plain_backend cam_user (RPut seed0 three "/Test.txt" 5)) uploaded =
      (Ok (AStored (Z.of_nat (length (in_data three)))), s') ∧
    file_at s' (q_cam ++ [QUARANTINE_DIR; to_string_lossy "Test.txt"]) = Some (in_data three) ∧
    (∀ q, q ≠ q_cam ++ [QUARANTINE_DIR; to_string_lossy "Test.txt"] →
       file_at s' q = file_at uploaded q) ∧
    (∀ fd, fs_fds s' !! fd = fs_fds uploaded !! fd).
Proof.
  apply (quarantine_stores plain_backend seed0 cam_user q_cam "/Test.txt" "Test.txt" three 5 uploaded).
  - apply uploaded_plain.
  - by vm_compute.
  - by vm_compute.
  - by vm_compute.
  - split; [by apply (bool_decide_unpack (Forall valid_name _)); vm_compute|].
    assert (map_Forall (λ q e, e ≠ EDir → last q ≠ Some QUARANTINE_DIR ∧ length q = 3) (fs_tree uploaded)) as Hf.
    { by apply (bool_decide_unpack (map_Forall _ _)); vm_compute. }
    intros q' i Hq Hi. destruct (Hf _ _ Hi ltac:(done)) as [Hl Hn].
    apply prefix_length_eq in Hq as ->; [by apply Hl|]. cbn in Hn. by rewrite Hn.
  - by vm_compute.
  - by apply no_staging; vm_compute.
  - done.
Defined.

(** ** Confinement *)

Lemma archive_no_files q i : fs_tree archive_fs !! q ≠ Some (EFile i).
Proof.
  assert (map_Forall (λ _ e, e = EDir) (fs_tree archive_fs)) as Hd.
  { by apply (bool_decide_unpack (map_Forall _ _)); vm_compute. }
  intros Hi. by specialize (Hd _ _ Hi).
Qed.

Definition elsewhere (q : list string) : Prop := ¬ q_cam `prefix_of` q.

Lemma requests_confined_witness :
  fs_tree uploaded !! ["a"] = fs_tree archive_fs !! ["a"] ∧
  file_at uploaded ["a"] = file_at archive_fs ["a"].
Proof.
  apply (requests_confined elsewhere archive_fs uploaded [Ret (run_ok first_upload archive_fs).1]).
  - apply archive_plain.
  - split; [intros q q' i _ Hi|intros q i fd h _ Hi]; by destruct (archive_no_files q i).
  - unfold uploaded. apply run_ok_steps.
    exists plain_backend, cam_user, (upload "clip" 0 "AA"). split; [apply confined_apart|done].
    exists q_cam. split; [done|]. split; [apply archive_dir|]. intros r Hr. apply Hr. by exists r.
  - unfold elsewhere. by apply (bool_decide_unpack (¬ _)); vm_compute.
Defined.

(** ** Paths *)

Lemma archive_wf : wf_fs archive_fs.
Proof. apply archive_plain. Qed.

Lemma contained_confined_witness :
  ∃ qb eb, lookup_path archive_fs true "/a" = WFound qb eb ∧ qb `prefix_of` q_cam.
Proof.
  apply (contained_confined archive_fs "/a" "/a/cam" "/a/cam" q_cam EDir).
  - apply archive_wf.
  - done.
  - vm_compute. discriminate.
  - by vm_compute.
  - by vm_compute.
Defined.

Definition fresh_world : World := mkWorld archive_fs [].

Lemma resolve_in_jail_witness :
  ∃ base parts q e, select_root (single "/a") "//./cam/" = Ok (base, parts) ∧
    lookup_path (w_fs fresh_world) true base = WFound q e ∧
    starts_with "/a/cam" (render q) = true.
Proof.
  apply (resolve_in_jail (single "/a") "//./cam/" fresh_world "/a/cam").
  by vm_compute.
Defined.

(** ** The configuration and its accounts *)

Definition house : Config := mkConfig
  (mkServerCfg "0.0.0.0" 2121 (50000, 50100)%Z None None None None)
  (mkArchiveCfg "/a" 30)
  (mkLimitsCfg 10 5 30 300 1024 (mkLockoutCfg 5 60 600) (Some 2%Z))
  [mkCameraCfg "cam" None "$argon2id$0$pw" (Some true); mkCameraCfg "yard" (Some "yardcam") "$argon2id$0$up" None]
  {[ "outside" := ["yard"] ]}
  [mkViewerCfg "alice" "$argon2id$0$see" (ScopeList ["outside"; "cam"]); mkViewerCfg "bob" "$argon2id$0$all" All]
  None.

Lemma house_valid : valid_config house.
Proof. apply validate_iff. by vm_compute. Qed.

Lemma build_complete_witness :
  Account.get (build house) "yardcam" = Some (mkAccount "yardcam" "$argon2id$0$up" (Uploader "/a/yard") false) ↔
  (∃ cam, cam ∈ camera house ∧ "yardcam" = cam_login cam ∧
     mkAccount "yardcam" "$argon2id$0$up" (Uploader "/a/yard") false = camera_account house cam) ∨
  (∃ v, v ∈ viewer house ∧ "yardcam" = viewer_name v ∧
     mkAccount "yardcam" "$argon2id$0$up" (Uploader "/a/yard") false = viewer_account house v).
Proof. apply (build_complete house). apply house_valid. Defined.

Definition alice : ViewerCfg := mkViewerCfg "alice" "$argon2id$0$see" (ScopeList ["outside"; "cam"]).

Lemma expand_scope_cameras_witness :
  ∃ cam, cam ∈ camera house ∧ "yard" = cam_name cam ∧
    role (camera_account house cam) = Uploader "/a/yard" ∧
    ∃ it, it ∈ ["outside"; "cam"] ∧ "yard" ∈ scope_item_names (group house) it.
Proof.
  apply (expand_scope_cameras house alice ["outside"; "cam"] "yard" "/a/yard").
  - apply house_valid.
  - by left.
  - done.
  - by vm_compute.
Defined.

Lemma camera_jails_disjoint_witness : starts_with "/a/cam" "/a/yard" = false.
Proof.
  apply (camera_jails_disjoint house (mkCameraCfg "cam" None "$argon2id$0$pw" (Some true))
    (mkCameraCfg "yard" (Some "yardcam") "$argon2id$0$up" None) "/a/cam" "/a/yard").
  - apply house_valid.
  - by left.
  - by right; left.
  - done.
  - by vm_compute.
  - by vm_compute.
  - by vm_compute.
  - by vm_compute.
Defined.

(** ** Logins *)

Definition tracker0 : SessionState := new 10 (Some 2%Z).

Lemma tracker0_inv now : inv now tracker0.
Proof. by apply inv_new. Qed.

Definition by_password (pw : string) (st : ChannelEncryptionState) : Credentials :=
  mkCredentials (Some pw) st.

Lemma authenticate_spec_witness :
  (is_ok (authenticate 7 (build house) "cam" (by_password "pw" Tls) tracker0).1 = true ↔
     ∃ a, credentials_ok (build house) "cam" (by_password "pw" Tls) a ∧
       channel_ok a (by_password "pw" Tls) ∧ may tracker0 "cam") ∧
  (is_ok (authenticate 7 (build house) "cam" (by_password "pw" Tls) tracker0).1 = true →
     (authenticate 7 (build house) "cam" (by_password "pw" Tls) tracker0).1 = Ok (mkPrincipal "cam") ∧
     slots (authenticate 7 (build house) "cam" (by_password "pw" Tls) tracker0).2 "cam"
       = slots tracker0 "cam" + 1 ∧
     ∀ u', u' ≠ "cam" →
       slots (authenticate 7 (build house) "cam" (by_password "pw" Tls) tracker0).2 u'
         = slots tracker0 u') ∧
  (is_ok (authenticate 7 (build house) "cam" (by_password "pw" Tls) tracker0).1 = false →
     (authenticate 7 (build house) "cam" (by_password "pw" Tls) tracker0).2 = tracker0).
Proof.
  apply (authenticate_spec 7 (build house) "cam" (by_password "pw" Tls) tracker0).
  - apply tracker0_inv.
  - by destruct (authenticate _ _ _ _ _).
Defined.

Lemma login_scope_witness :
  login (mkReoUser "yardcam" (Uploader "/a/yard") false) = "yardcam" ∧
  ((∃ cam, cam ∈ camera house ∧ "yardcam" = cam_login cam ∧
      home (mkReoUser "yardcam" (Uploader "/a/yard") false)
        = Some (join (root (archive house)) (cam_name cam)) ∧
      verify_password (default EmptyString (password (by_password "up" Plaintext)))
        (upload_password_hash cam) = Ok true ∧
      (cam_require_tls cam = Some true →
        command_channel_security (by_password "up" Plaintext) = Tls)) ∨
   (∃ v, v ∈ viewer house ∧ "yardcam" = viewer_name v ∧
      home (mkReoUser "yardcam" (Uploader "/a/yard") false) = None ∧
      user_role (mkReoUser "yardcam" (Uploader "/a/yard") false)
        = Viewer (expand_scope house (viewer_scope v)) ∧
      verify_password (default EmptyString (password (by_password "up" Plaintext)))
        (viewer_password_hash v) = Ok true)).
Proof.
  apply (login_scope house 7 "yardcam" (by_password "up" Plaintext) tracker0
    (mkReoUser "yardcam" (Uploader "/a/yard") false)
    (log_in 7 (build house) (build house) "yardcam" (by_password "up" Plaintext) tracker0).2).
  - apply house_valid.
  - by vm_compute.
Defined.

(** ** The session tracker *)

Definition tracker1 : SessionState := (try_admit 5 "cam" tracker0).2.

Lemma tracker1_inv now : (5 ≤ now)%Z → inv now tracker1.
Proof. intros Hn. apply (inv_later 5 now); [done|]. apply inv_try_admit, tracker0_inv. Qed.

Lemma tracker1_table : per_account tracker1 = {[ "cam" := [5%Z] ]}.
Proof. by vm_compute. Qed.

Lemma try_admit_refines_witness :
  ((try_admit 9 "cam" tracker1).1 = true ↔ Spec.may_admit tracker1 "cam") ∧
  (∀ u', Spec.counts (try_admit 9 "cam" tracker1).2 u' =
     Spec.counts tracker1 u' +
       (if (try_admit 9 "cam" tracker1).1 then if decide (u' = "cam") then 1 else 0 else 0)) ∧
  ((try_admit 9 "cam" tracker1).1 = false → (try_admit 9 "cam" tracker1).2 = tracker1).
Proof. apply (try_admit_refines 9 "cam" tracker1). by apply tracker1_inv. Defined.

Lemma tracker1_step : tstep (0%Z, tracker0) (5%Z, tracker1).
Proof. by apply t_admit. Qed.

Lemma caps_respected_witness :
  (Z.of_nat (total (per_account tracker1)) ≤ 10)%Z ∧
  (∀ m, Some 2%Z = Some m → (0 ≤ m)%Z → (Z.of_nat (Spec.counts tracker1 "cam") ≤ m)%Z).
Proof.
  apply (caps_respected 10 (Some 2%Z) 0 5 tracker1 "cam").
  - done.
  - apply rtc_once. split; [apply tracker1_step|done].
Defined.

Definition ttl : Z := from_secs SESSION_TTL_SECS.
Definition much_later : Z := from_secs 1000.

Lemma reap_exact_witness :
  (∀ u, default [] (per_account (reap much_later ttl tracker1).2 !! u) =
        filter (fresh_session much_later ttl) (default [] (per_account tracker1 !! u))) ∧
  (reap much_later ttl tracker1).1 = (global tracker1 - global (reap much_later ttl tracker1).2)%Z ∧
  max_global (reap much_later ttl tracker1).2 = max_global tracker1 ∧
  max_per_account (reap much_later ttl tracker1).2 = max_per_account tracker1.
Proof. apply (reap_exact much_later ttl tracker1). by apply tracker1_inv. Defined.

Lemma reap_unwedges_witness :
  per_account (reap much_later ttl tracker1).2 = ∅ ∧ global (reap much_later ttl tracker1).2 = 0%Z ∧
  (try_admit much_later "cam" (reap much_later ttl tracker1).2).1 = true.
Proof.
  apply (reap_unwedges much_later ttl tracker1 "cam").
  - by apply tracker1_inv.
  - done.
  - intros u' v t Hu Ht. rewrite tracker1_table in Hu.
    apply lookup_singleton_Some in Hu as [_ <-]. by apply list_elem_of_singleton in Ht as ->.
  - done.
  - by intros m [= <-].
Defined.

(** ** Cleanup, the server and the commands *)

Lemma uploaded_depth : depth_below 3 (fs_tree uploaded).
Proof.
  assert (map_Forall (λ q _, length q ≤ 3) (fs_tree uploaded)) as Hf.
  { by apply (bool_decide_unpack (map_Forall _ _)); vm_compute. }
  intros q e He. by apply (Hf q e).
Qed.

Lemma sweep_exact_witness :
  ∃ rep s', run_ok (sweep 0 0 0 much_later false 5 (render ["a"])) uploaded = (Some (Ok rep), s') ∧
    swept 0 0 0 much_later (region ["a"] (children (fs_tree uploaded) ["a"])) uploaded s' ∧
    ∀ p, p ∈ deleted rep ↔ ∃ q' i, region ["a"] (children (fs_tree uploaded) ["a"]) q' ∧
      fs_tree uploaded !! q' = Some (EFile i) ∧ expired 0 0 0 much_later uploaded q' i ∧
      p = render q'.
Proof.
  apply (sweep_exact 0 0 0 much_later 3 5 ["a"] uploaded).
  - apply uploaded_plain.
  - right. by vm_compute.
  - by vm_compute.
  - apply uploaded_depth.
  - cbn. lia.
Defined.

Definition house_toml (s : string) : result Config string :=
  if decide (s = "house") then Ok house else Err "not a table".

Definition running0 : Running := mkRunning (build house) tracker0.

Lemma reload_fail_safe_witness :
  (is_ok (run (reload_config house_toml "/missing.toml" running0) fresh_world).1.1 = false →
     (run (reload_config house_toml "/missing.toml" running0) fresh_world).1.2 = running0) ∧
  (is_ok (run (reload_config house_toml "/missing.toml" running0) fresh_world).1.1 = true →
   ∃ cfg, valid_config cfg ∧
     r_accounts (run (reload_config house_toml "/missing.toml" running0) fresh_world).1.2 = build cfg ∧
     max_global (r_sessions (run (reload_config house_toml "/missing.toml" running0) fresh_world).1.2)
       = max_connections (limits cfg) ∧
     max_per_account (r_sessions (run (reload_config house_toml "/missing.toml" running0) fresh_world).1.2)
       = max_connections_per_account (limits cfg) ∧
     per_account (r_sessions (run (reload_config house_toml "/missing.toml" running0) fresh_world).1.2)
       = per_account (r_sessions running0) ∧
     global (r_sessions (run (reload_config house_toml "/missing.toml" running0) fresh_world).1.2)
       = global (r_sessions running0)).
Proof.
  apply (reload_fail_safe house_toml "/missing.toml" running0 fresh_world
    (run (reload_config house_toml "/missing.toml" running0) fresh_world).1.1
    (run (reload_config house_toml "/missing.toml" running0) fresh_world).1.2
    (run (reload_config house_toml "/missing.toml" running0) fresh_world).2).
  by destruct (run _ _) as [[r st] w].
Defined.

Lemma homes_ready_witness :
  ∃ s', run_ok (ensure_home_dirs house) archive_fs = (Ok tt, s') ∧ plain_fs s' ∧
    (∀ q', file_at s' q' = file_at archive_fs q') ∧
    ∀ c, c ∈ camera house → ∃ home, role (camera_account house c) = Uploader home ∧
      lookup_path s' true home = WFound (["a"] ++ [cam_name c]) EDir.
Proof.
  apply (homes_ready house ["a"] archive_fs).
  - apply archive_plain.
  - done.
  - by apply (bool_decide_unpack (Forall valid_name _)); vm_compute.
  - apply (proj1 (Forall_forall (λ c, valid_name (cam_name c)) (camera house))).
    by apply (bool_decide_unpack (Forall _ _)); vm_compute.
  - intros c q' i _ _ Hq.
    assert (map_Forall (λ _ e, e = EDir) (fs_tree archive_fs)) as Hd.
    { by apply (bool_decide_unpack (map_Forall _ _)); vm_compute. }
    by specialize (Hd _ _ Hq).
Defined.

Lemma server_invariant_witness : inv 5 tracker1.
Proof.
  apply (server_invariant house_toml house 0 5 (mkRunning (build house) tracker1)).
  - unfold house_toml. intros s c. case_decide; [|done]. intros [= <-]. done.
  - done.
  - apply rtc_once.
    replace tracker1 with (authenticate 5 (build house) "cam" (by_password "pw" Tls) tracker0).2
      by (by vm_compute).
    by apply (s_login house_toml 0 5 "cam" (by_password "pw" Tls) running0).
Defined.

Definition first_encrypted := serve age_backend cam_user (upload "clip" 0 "BB").
Definition encrypted : Fs := (run_ok first_encrypted archive_fs).2.

Lemma encrypted_plain : plain_fs encrypted.
Proof.
  eapply (pool_client server_request archive_fs encrypted [Ret (run_ok first_encrypted archive_fs).1]);
    [apply server_request_client|apply archive_plain|].
  unfold encrypted. apply run_ok_steps, is_request.
Qed.

Lemma decrypt_restores_witness :
  ∃ s', run_ok (decrypt_file key_a None (render (q_cam ++ ["clip" +:+ ".age"]))) encrypted = (Ok tt, s') ∧
    file_at s' (q_cam ++ ["clip"]) = Some (concat [bytes_of "BB"]) ∧
    (∀ q', q' ≠ q_cam ++ ["clip"] → file_at s' q' = file_at encrypted q') ∧
    (∀ fd, fs_fds s' !! fd = fs_fds encrypted !! fd).
Proof.
  apply (decrypt_restores key_a encrypted q_cam "clip" (bytes_of "ABB" ++ [Byte.xff]) [bytes_of "BB"]).
  - apply encrypted_plain.
  - right. by vm_compute.
  - by vm_compute.
  - by vm_compute.
  - by vm_compute.
  - by vm_compute.
  - by vm_compute.
  - by vm_compute.
  - by repeat constructor.
Defined.

Lemma encrypted_delivery_witness :
  ∃ s1 s2 ct,
    run_ok (serve age_backend cam_user (RPut seed0 three "clip" 0)) archive_fs =
      (Ok (AStored (Z.of_nat (length (in_data three)))), s1) ∧
    run_ok (serve age_backend all_viewer (RGet "/cam/clip.age" 0)) s1 = (Ok (ABytes ct), s2) ∧
    (file_at encrypted (q_cam ++ ["clip" +:+ ".age"]) = Some ct →
     ∃ l', run_ok (decrypt_file key_a None (render (q_cam ++ ["clip" +:+ ".age"]))) encrypted = (Ok tt, l') ∧
       file_at l' (q_cam ++ ["clip"]) = Some (in_data three)).
Proof.
  apply (encrypted_delivery age_backend [to_public key_a] seed0 encryptor0 cam_user all_viewer
    "/a/cam" "clip" "clip" "/cam/clip.age" q_cam ["a"] [] ["cam"; "clip.age"] "clip" three archive_fs
    key_a encrypted q_cam).
  - apply archive_plain.
  - done.
  - by vm_compute.
  - done.
  - done.
  - by vm_compute.
  - by vm_compute.
  - exists "/a/cam". split; by vm_compute.
  - exists "/a". split; by vm_compute.
  - done.
  - apply archive_way.
  - by vm_compute.
  - by vm_compute.
  - done.
  - by left.
  - by vm_compute.
  - apply encrypted_plain.
  - right. by vm_compute.
  - by vm_compute.
Defined.

(** The camera records while a cleanup goes through its directory. *)
Definition recorded : Fs * list (prog unit) :=
  sched (replicate 30 0) archive_fs [process (serve plain_backend cam_user (upload "clip" 0 "AA"))].
Definition newcomers : list (prog unit) :=
  [process (cleaning 30 (from_secs 1000) false 5 (render ["a"]));
   process (serve plain_backend cam_user (upload "next" 0 "BB"))].
Definition mixed : list nat := concat (replicate 20 [1; 2; 2]).
Definition cleaned_up : Fs * list (prog unit) := sched mixed recorded.1 (recorded.2 ++ newcomers).

Lemma recorded_published : published recorded.1 (q_cam ++ ["clip"]) (bytes_of "AA").
Proof.
  apply (published_by recorded.1 (q_cam ++ ["clip"]) (bytes_of "AA") 0); vm_compute; reflexivity.
Qed.

Lemma recorded_answers : recorded.2 = [Ret tt].
Proof. by vm_compute. Qed.

Lemma clip_dated : inode_of recorded.1 0 = mkInode (bytes_of "AA") 1000 0x1a4.
Proof. by vm_compute. Qed.

(** The clip has not outlived thirty days. *)
Lemma clip_is_young : ¬ outlived 30 (from_secs 1000) (q_cam ++ ["clip"]) (inode_of recorded.1 0).
Proof.
  rewrite clip_dated. intros [_ Hx]. cbn [i_mtime] in Hx.
  assert ((from_secs 1000 - 1000 > ttl_of (retention_ns 30) QUARANTINE_TTL STAGING_TTL
    (q_cam ++ ["clip"]))%Z ↔ False) as Hn; [|by apply Hn].
  split; [|done]. by apply (bool_decide_unpack (¬ _)); vm_compute.
Qed.

Lemma cleanup_spares_recordings_witness :
  published recorded.1 (q_cam ++ ["clip"]) (bytes_of "AA") ∧
  file_at cleaned_up.1 (q_cam ++ ["clip"]) = Some (bytes_of "AA").
Proof.
  split; [exact recorded_published|].
  apply (cleanup_spares_recordings archive_fs recorded.1 recorded.2 q_cam "clip" (bytes_of "AA") 0
    cleaned_up.1 cleaned_up.2).
  - apply archive_plain.
  - reflexivity.
  - apply (arrive_sched _ (replicate 30 0) [process (serve plain_backend cam_user (upload "clip" 0 "AA"))]).
    constructor; [apply u_request|constructor].
  - rewrite recorded_answers. constructor; [exact I|constructor].
  - apply published_finalized; [exact recorded_published|reflexivity].
  - by vm_compute.
  - apply (arrive_sched _ mixed newcomers). constructor; [|constructor; [apply u_request|constructor]].
    apply u_cleanup; [|exact clip_is_young].
    by apply (bool_decide_unpack (Forall valid_name _)); vm_compute.
Defined.

(** ** Requests among others *)

(** A camera's upload of [x] is directed away from the names of another upload. *)
Lemma upload_apart n extra seed input v x pos :
  normalize v = Ok [x] →
  Forall (λ y, y ≠ QUARANTINE_DIR ∧
    Forall (λ suf, x +:+ suf ≠ y) [""; STAGING_SUFFIX; ".age"; ".age" +:+ STAGING_SUFFIX])
    (n :: (n +:+ STAGING_SUFFIX) :: extra) →
  apart (claimed q_cam n extra) archive_fs cam_user (RPut seed input v pos).
Proof.
  intros Hv Hn. rewrite Forall_forall in Hn. exists q_cam. split; [done|]. split; [apply archive_dir|].
  split; [by intros (y & _ & ?)|].
  assert (∀ r' y, q_cam ++ r' = q_cam ++ [y] → r' = [y]) as Hinj by (intros r' y; apply app_inv_head).
  split.
  - intros t (y & Hy & Hr%Hinj). destruct (Hn y Hy) as [Hq _]. by injection Hr as <-.
  - intros parts r' Hp Hs (y & Hy & Hr%Hinj). subst r'. rewrite Hv in Hp. injection Hp as <-.
    destruct (Hn y Hy) as [_ Hx]. rewrite Forall_forall in Hx.
    assert (x ≠ y) as Hxy by (rewrite <- (string_app_nil_r x); apply Hx; by left).
    assert ([y] `prefix_of` [x] → False) as Hpre by (by intros [t [= ?]]).
    destruct Hs as [?|(r & m & Hrm & Hs)]; [by apply Hpre|].
    destruct r as [|? [|]]; [|done..]. injection Hrm as <-.
    destruct Hs as [?|(suf & t & Hsuf & Ht)]; [by apply Hpre|]. injection Ht as -> _. by apply (Hx suf).
Qed.

Lemma archive_enclosed R : enclosed R archive_fs.
Proof.
  split; [intros q q' i _ Hi|intros q i fd h _ Hi]; by destruct (archive_no_files q i).
Qed.

(** The camera uploads another file and a viewer lists the directory meanwhile. *)
Definition company (b : ReoBackend) : list (prog (result Answer Storage.Error)) :=
  [serve b cam_user (upload "next" 0 "XY"); serve b all_viewer (RList "/cam")].

Lemma company_apart b n extra :
  Forall (λ y, y ≠ QUARANTINE_DIR ∧
    Forall (λ suf, "next" +:+ suf ≠ y) [""; STAGING_SUFFIX; ".age"; ".age" +:+ STAGING_SUFFIX])
    (n :: (n +:+ STAGING_SUFFIX) :: extra) →
  Forall (apart_request (claimed q_cam n extra) archive_fs) (company b).
Proof.
  intros Hn. constructor; [|constructor; [|constructor]].
  - exists b, cam_user, (upload "next" 0 "XY"). split; [|done]. by apply (upload_apart _ _ _ _ _ "next").
  - by exists b, all_viewer, (RList "/cam").
Qed.

(** Everybody in turn. *)
Definition turns : list nat := concat (replicate 30 [1; 0; 2]).

Definition crowded (b : ReoBackend) : Fs * list (prog (result Answer Storage.Error)) :=
  sched turns archive_fs ([serve b cam_user (upload "clip" 0 "AA")] ++ company b).

Lemma upload_among_others_witness :
  (crowded plain_backend).2 !! 0 = Some (Ret (Ok (AStored 2))) ∧
  file_at (crowded plain_backend).1 (q_cam ++ ["clip"]) = Some (bytes_of "AA").
Proof.
  assert ((crowded plain_backend).2 !! 0 = Some (Ret (Ok (AStored 2)))) as Ha by (vm_compute; reflexivity).
  split; [exact Ha|].
  destruct (upload_among_others (λ _, False) plain_backend true cam_user q_cam [] "clip" "clip" "clip" [] (input_of (bytes_of "AA"))
    0 archive_fs (crowded plain_backend).2 (crowded plain_backend).1 (Ok (AStored 2))) as (_ & _ & Hf); [..|exact Hf].
  - apply archive_plain.
  - reflexivity.
  - reflexivity.
  - apply archive_dir.
  - by vm_compute.
  - by vm_compute.
  - by vm_compute.
  - by vm_compute.
  - by vm_compute.
  - apply archive_enclosed.
  - unfold crowded. apply arrive_sched_if, company_apart.
    by apply (bool_decide_unpack (Forall _ _)); vm_compute.
  - exact Ha.
Defined.

Lemma encrypted_upload_among_others_witness :
  (crowded age_backend).2 !! 0 = Some (Ret (Ok (AStored 2))) ∧
  ∃ ct cs, file_at (crowded age_backend).1 (q_cam ++ ["clip.age"]) = Some ct ∧
    decryptor key_a ct = Ok (cs, None) ∧ concat cs = bytes_of "AA".
Proof.
  assert ((crowded age_backend).2 !! 0 = Some (Ret (Ok (AStored 2)))) as Ha by (vm_compute; reflexivity).
  split; [exact Ha|].
  destruct (encrypted_upload_among_others (λ _, False) age_backend true [true] cam_user q_cam [] "clip" "clip" "clip"
    (input_of (bytes_of "AA")) archive_fs (crowded age_backend).2 (crowded age_backend).1 (Ok (AStored 2)))
    as (_ & _ & ct & Hf & Hd).
  - apply archive_plain.
  - reflexivity.
  - reflexivity.
  - apply archive_dir.
  - by vm_compute.
  - by vm_compute.
  - by vm_compute.
  - by vm_compute.
  - by vm_compute.
  - apply archive_enclosed.
  - unfold crowded. apply arrive_sched_if, company_apart.
    by apply (bool_decide_unpack (Forall _ _)); vm_compute.
  - exact Ha.
  - destruct (Hd key_a) as (cs & Hdec & Hcs); [by left|]. exists ct, cs. split; [exact Hf|]. by split.
Defined.

(** Two viewers, and the camera going on, while a recording is retrieved from its
    second byte on. *)
Definition crowd : list (prog (result Answer Storage.Error)) :=
  [serve plain_backend cam_user (upload "clip" 2 "BB"); serve plain_backend cam_viewer (RGet "/cam/clip" 0)].

Definition attended_read : Fs * list (prog (result Answer Storage.Error)) :=
  sched (concat (replicate 30 [1; 2; 3])) uploaded
    (([Ret (run_ok first_upload archive_fs).1] ++ [serve plain_backend all_viewer (RGet "/cam/clip" 1)]) ++ crowd).

Lemma download_among_others_witness :
  attended_read.2 !! 1 = Some (Ret (Ok (ABytes (bytes_of "A")))).
Proof.
  destruct (attended_read.2 !! 1) as [[ans|]|] eqn:Ha; [|vm_compute in Ha; discriminate..].
  pose proof (download_among_others (λ _, False) plain_backend all_viewer (single "/a") "/cam/clip" 1 ["a"] ["cam"]
    "clip" (bytes_of "AA") archive_fs uploaded [Ret (run_ok first_upload archive_fs).1] attended_read.1 attended_read.2
    ans) as H.
  destruct ans as [a|e]; [rewrite H; [reflexivity|..]|destruct H].
  all: lazymatch goal with
    | |- plain_fs _ => apply archive_plain
    | |- finalized _ _ _ => apply (published_finalized _ q_cam); [apply uploaded_published|reflexivity]
    | |- pool_steps _ _ _ => apply uploaded_reached
    | |- pool_steps_if _ _ _ _ => unfold attended_read; apply arrive_sched_if; repeat constructor; apply is_request
    | |- _ !! _ = _ => exact Ha
    | |- user_role _ = _ => reflexivity
    | |- _ => by vm_compute
    end.
Defined.

(** ** The ledger *)

(** Two recordings of the camera, a directory it makes, and its quarantine. *)
Definition clips : list place := [q_cam ++ ["clip"]; q_cam ++ ["next"]; q_cam ++ ["day"]].
Definition is_clip (p : place) : Prop := p ∈ clips.
Definition q_test : place := q_cam ++ [QUARANTINE_DIR].
Definition is_test (d : place) : Prop := d = q_test.

Lemma clips_layout : layout is_clip is_test.
Proof.
  assert (Forall (λ p, p ≠ [] ∧ Forall valid_name p) clips) as H1.
  { by apply (bool_decide_unpack (Forall _ _)); vm_compute. }
  assert (Forall (λ p, Forall (λ p', (p `prefix_of` p' → p = p') ∧ ¬ beside p `prefix_of` p') clips) clips) as H2.
  { by apply (bool_decide_unpack (Forall _ _)); vm_compute. }
  assert (Forall (λ p, ¬ q_test `prefix_of` p ∧ ¬ p `prefix_of` q_test ∧ ¬ beside p `prefix_of` q_test) clips) as H3.
  { by apply (bool_decide_unpack (Forall _ _)); vm_compute. }
  rewrite Forall_forall in H1, H2, H3. split; [exact H1|..].
  1-2: intros p p' Hp Hp'; specialize (H2 p Hp); rewrite Forall_forall in H2; by apply (H2 p').
  1-3: intros d p -> Hp; by apply (H3 p Hp).
  intros d d' f -> ->. apply prefix_snoc_not.
Qed.

Definition no_recordings : Ledger.Ledger := Ledger.mkLedger ∅ ∅ ∅.

Lemma test_way : open_way archive_fs q_test.
Proof.
  destruct archive_way as [Hv Hw]. split; [by apply (bool_decide_unpack (Forall valid_name _)); vm_compute|].
  intros q i [->|Hq]%prefix_snoc_cases; [by vm_compute|by apply Hw].
Qed.

Lemma archive_represents : represents is_clip is_test no_recordings archive_fs.
Proof.
  assert (Forall (λ p, (fs_tree archive_fs !! p = None ∧ fs_tree archive_fs !! beside p = None) ∧
    removelast p = q_cam) clips) as H1.
  { by apply (bool_decide_unpack (Forall _ _)); vm_compute. }
  rewrite Forall_forall in H1.
  assert (∀ x, loose is_clip is_test x → fs_tree archive_fs !! x = None) as Hloose.
  { intros x [(p & Hp & ->)|(d & f & -> & ->)]; [by apply H1|].
    apply (dir_child_missing archive_fs archive_plain). intros [Hd|Hd]; by vm_compute in Hd. }
  split; [apply archive_plain|..]; intros p Hp.
  - apply file_at_None, H1, Hp.
  - apply file_at_None, H1, Hp.
  - cbn. destruct (H1 p Hp) as [[-> _] _]. set_solver.
  - rewrite (Hloose p Hp). split; [done|]. apply no_staging, (Hloose p Hp).
  - destruct Hp as [(p' & Hp' & ->)| ->]; [|apply test_way].
    destruct (H1 p' Hp') as [_ ->]. apply archive_way.
Qed.

(** A day at the archive. *)
Definition day : list (ReoUser * Request) :=
  [(cam_user, upload "clip" 0 "AA"); (all_viewer, RGet "/cam/clip" 1); (cam_user, RList "/");
   (cam_user, upload "next" 3 "BB"); (cam_user, upload "clip" 0 "CC"); (cam_user, RDel "clip");
   (all_viewer, RGet "/cam/next" 0); (all_viewer, RMetadata "/cam/clip"); (cam_user, RMkd "day");
   (cam_user, upload "day" 0 "DD"); (all_viewer, RGet "/cam/day" 0); (cam_user, RMkd "clip");
   (cam_user, RMkd "else"); (cam_user, upload "Test.txt" 0 "T"); (all_viewer, RGet "../x" 0)].

Definition day_events : list (option Ledger.Event) :=
  [Some (Ledger.Upload (q_cam ++ ["clip"]) 0 (input_of (bytes_of "AA")));
   Some (Ledger.Retrieve (["a"] ++ ["cam"; "clip"]) 1); None;
   Some (Ledger.Upload (q_cam ++ ["next"]) 3 (input_of (bytes_of "BB")));
   Some (Ledger.Upload (q_cam ++ ["clip"]) 0 (input_of (bytes_of "CC")));
   Some Ledger.Forbidden; Some (Ledger.Retrieve (["a"] ++ ["cam"; "next"]) 0);
   Some (Ledger.Measure (["a"] ++ ["cam"; "clip"])); Some (Ledger.Folder (q_cam ++ ["day"]));
   Some (Ledger.Upload (q_cam ++ ["day"]) 0 (input_of (bytes_of "DD")));
   Some (Ledger.Retrieve (["a"] ++ ["cam"; "day"]) 0); Some (Ledger.Folder (q_cam ++ ["clip"]));
   None; None; None].

Lemma viewer_rooted n parts :
  select_root (single "/a") n = Ok ("/a", parts) → rooted archive_fs all_viewer n ["a"] parts.
Proof. intros Hs. exists "/a". split; [done|]. by vm_compute. Qed.

Lemma else_away : away is_clip is_test (q_cam ++ ["else"]).
Proof.
  assert (Forall (λ p, ¬ p `prefix_of` q_cam ++ ["else"] ∧ ¬ beside p `prefix_of` q_cam ++ ["else"]) clips) as H.
  { by apply (bool_decide_unpack (Forall _ _)); vm_compute. }
  rewrite Forall_forall in H. split; [intros p Hp; by apply (H p)|].
  intros x [(p & Hp & ->)|(d & f & -> & ->)]; [by apply (H p)|].
  intros Hpre. apply prefix_length in Hpre. cbn in Hpre. lia.
Qed.

Lemma else_way : open_way archive_fs (q_cam ++ ["else"]).
Proof.
  destruct archive_way as [Hv Hw]. split; [by apply (bool_decide_unpack (Forall valid_name _)); vm_compute|].
  intros q i [->|Hq]%prefix_snoc_cases; [by vm_compute|by apply Hw].
Qed.

Section day_means.
Abbreviation meant := (means is_clip is_test archive_fs).

Lemma upload_means n txt pos :
  file_name n = Some n → is_reolink_test_file (to_string_lossy n) = false →
  select_root (single "/a/cam") n = Ok ("/a/cam", [n]) → bool_decide (q_cam ++ [n] ∈ clips) = true →
  meant cam_user (upload n pos txt) (Some (Ledger.Upload (q_cam ++ [n]) pos (input_of (bytes_of txt)))).
Proof.
  intros Hf Ht Hs Hc%bool_decide_eq_true.
  exact (means_upload is_clip is_test archive_fs cam_user "/a/cam" true _ n pos n q_cam [n] eq_refl Hf Ht (cam_rooted n Hs) Hc).
Qed.

Lemma retrieve_means v pos parts :
  select_root (single "/a") v = Ok ("/a", parts) → bool_decide (["a"] ++ parts ∈ clips) = true →
  meant all_viewer (RGet v pos) (Some (Ledger.Retrieve (["a"] ++ parts) pos)).
Proof.
  intros Hs Hc%bool_decide_eq_true.
  exact (means_retrieve is_clip is_test archive_fs all_viewer (single "/a") v pos ["a"] parts eq_refl (viewer_rooted v parts Hs) Hc).
Qed.

Lemma folder_means n :
  select_root (single "/a/cam") n = Ok ("/a/cam", [n]) → bool_decide (q_cam ++ [n] ∈ clips) = true →
  meant cam_user (RMkd n) (Some (Ledger.Folder (q_cam ++ [n]))).
Proof.
  intros Hs Hc%bool_decide_eq_true.
  exact (means_folder is_clip is_test archive_fs cam_user "/a/cam" n q_cam [n] eq_refl (cam_rooted n Hs) Hc).
Qed.

Lemma day_means : Forall2 (λ '(user, r) ev, meant user r ev) day day_events.
Proof.
  constructor; [apply upload_means; vm_compute; reflexivity|].
  constructor; [apply retrieve_means; vm_compute; reflexivity|].
  constructor; [by apply means_browse|].
  constructor; [apply upload_means; vm_compute; reflexivity|].
  constructor; [apply upload_means; vm_compute; reflexivity|].
  constructor; [by apply means_forbidden|].
  constructor; [apply retrieve_means; vm_compute; reflexivity|].
  constructor.
  { apply (means_measure _ _ _ _ "/cam/clip" ["a"] ["cam"; "clip"]); [apply viewer_rooted; vm_compute; reflexivity|].
    by apply (bool_decide_unpack (_ ∈ clips)); vm_compute. }
  constructor; [apply folder_means; vm_compute; reflexivity|].
  constructor; [apply upload_means; vm_compute; reflexivity|].
  constructor; [apply retrieve_means; vm_compute; reflexivity|].
  constructor; [apply folder_means; vm_compute; reflexivity|].
  constructor.
  { apply (means_directory _ _ _ _ "/a/cam" "else" q_cam ["else"]);
      [reflexivity|apply cam_rooted; vm_compute; reflexivity|exact else_away|exact else_way]. }
  constructor; [apply (means_test _ _ _ _ q_cam _ _ "Test.txt" 0 "Test.txt"); vm_compute; reflexivity|].
  constructor; [|constructor].
  apply means_climb. by apply (bool_decide_unpack (ParentDir ∈ components "../x")); vm_compute.
Qed.
End day_means.

Lemma backend_refines_ledger_witness :
  (Ledger.history day_events no_recordings).1 =
    [Some (Ledger.Stored 2); Some (Ledger.Content (bytes_of "A")); None; Some (Ledger.Rejected Gap);
     Some (Ledger.Rejected Finalized); Some Ledger.Denied; Some Ledger.Missing; Some (Ledger.Size 2);
     Some Ledger.Made; Some (Ledger.Rejected Finalized); Some Ledger.Unreadable; Some Ledger.Occupied;
     None; None; None] ∧
  file_at (serve_all plain_backend day archive_fs).2 (q_cam ++ ["clip"]) = Some (bytes_of "AA").
Proof.
  split; [by vm_compute|].
  pose proof (backend_refines_ledger plain_backend eq_refl is_clip is_test clips_layout day day_events
    no_recordings archive_fs archive_represents day_means) as Hx.
  destruct (Ledger.history day_events no_recordings) as [os l'] eqn:E.
  destruct (serve_all plain_backend day archive_fs) as [answers s']. destruct Hx as (_ & Hrep & _). cbn [snd].
  rewrite (rp_recordings _ _ _ _ Hrep) by (by apply (bool_decide_unpack (_ ∈ clips)); vm_compute).
  apply (f_equal (λ x, Ledger.recordings x.2 !! (q_cam ++ ["clip"]))) in E. cbn [snd] in E. rewrite <- E.
  by vm_compute.
Defined.

(** ** Keys *)

Definition key_made : Fs := (run_ok (genkey seed0 (Some "/a/key")) archive_fs).2.

(** A recording and the identity file on one machine. *)
Definition desk : Fs := (run_ok (genkey seed0 (Some "/a/key")) encrypted).2.

Lemma made_moment {A} (p : prog A) s : moment p s (Ret (run_ok p s).1) (run_ok p s).2.
Proof.
  revert s. induction p as [a|T e k IH]; intros s; [constructor|].
  eapply moment_next; [apply (perform_step e (mkWorld s []))|].
  rewrite run_ok_vis. apply IH.
Qed.

Lemma desk_plain : plain_fs desk.
Proof.
  unfold desk. refine (run_plain (genkey seed0 (Some "/a/key")) encrypted _ encrypted_plain).
  cbn. repeat (split; [exact I|intros ?]; repeat case_match; cbn); exact I.
Qed.

Lemma keys_private_witness : discreet archive_fs None key_made ∧ fs_tree key_made !! ["a"; "key"] = Some (EFile 0).
Proof.
  split; [|by vm_compute].
  destruct (keys_private archive_fs archive_plain) as [Hg _].
  apply (Hg seed0 "/a/key" ["a"; "key"] (Ret (run_ok (genkey seed0 (Some "/a/key")) archive_fs).1)).
  - by vm_compute.
  - by apply (bool_decide_unpack (Forall valid_name _)); vm_compute.
  - by vm_compute.
  - unfold key_made. exact (made_moment (genkey seed0 (Some "/a/key")) archive_fs).
Defined.

Lemma key_lifecycle_witness :
  ∃ public m',
    (run_ok (genkey seed0 (Some (render (["a"] ++ ["key"])))) archive_fs).1 = Ok [public] ∧
    run_ok (decrypt (render (["a"] ++ ["key"])) None [render (q_cam ++ ["clip" +:+ ".age"])]) desk = (Ok tt, m') ∧
    file_at m' (q_cam ++ ["clip"]) = Some (concat [bytes_of "BB"]).
Proof.
  destruct (key_lifecycle seed0 archive_fs ["a"] "key") as (public & s' & Hr & _ & _ & Hd).
  - apply archive_plain.
  - right. by vm_compute.
  - by vm_compute.
  - by vm_compute.
  - exists public. destruct (Hd seed0 [true] encryptor0 [bytes_of "BB"] desk ["a"] "key" q_cam "clip")
      as (m' & Hm & Hf & _).
    + by left.
    + reflexivity.
    + exact desk_plain.
    + by vm_compute.
    + right. by vm_compute.
    + by vm_compute.
    + by vm_compute.
    + by vm_compute.
    + by vm_compute.
    + by vm_compute.
    + exists m'. split; [by rewrite Hr|]. by split.
Defined.

(** ** A camera that has recorded nothing *)

Definition cleaned : option (io SweepReport) * Fs :=
  run_ok (sweep (retention_ns 30) QUARANTINE_TTL STAGING_TTL (from_secs 1000) false 5 (render ["a"])) archive_fs.

Lemma archive_depth : depth_below 2 (fs_tree archive_fs).
Proof.
  assert (map_Forall (λ q _, length q ≤ 2) (fs_tree archive_fs)) as Hf.
  { by apply (bool_decide_unpack (map_Forall _ _)); vm_compute. }
  intros q e He. by apply (Hf q e).
Qed.

Lemma cleanup_locks_out_camera_witness :
  (run_ok (serve plain_backend cam_user (upload "clip" 0 "AA")) archive_fs).1 = Ok (AStored 2) ∧
  (run_ok (serve plain_backend cam_user (upload "clip" 0 "AA")) cleaned.2).1
    = Err (Storage.Kind Storage.PermanentFileNotAvailable).
Proof.
  split; [by vm_compute|].
  destruct (cleanup_locks_out_camera (retention_ns 30) QUARANTINE_TTL STAGING_TTL (from_secs 1000) 2 5 ["a"] "cam"
    archive_fs) as (rep & s' & Hs & _ & Hput & _).
  - apply archive_plain.
  - right. by vm_compute.
  - by vm_compute.
  - apply archive_depth.
  - cbn. lia.
  - by vm_compute.
  - apply archive_dir.
  - intros q' i _ Hi. by destruct (archive_no_files q' i).
  - unfold cleaned. rewrite Hs. cbn [snd]. unfold upload.
    destruct (Hput plain_backend true cam_user (input_of (bytes_of "AA")) "clip" 0%Z) as (e & He & Hk); [done| |].
    + intros f Hf. vm_compute in Hf. by injection Hf as <-.
    + rewrite He, (Hk "clip" ["clip"]); [done|by vm_compute..].
Defined.

(** Three connections of an account with one slot, all open at once. *)
Lemma reaped_logout_overadmits_witness :
  let y := acts (overadmission "cam" 2) (mkSessions 0 (new 1 (Some 1%Z)) []) in
  live y = replicate 3 (mkConn "cam" (from_secs 600)) ∧ global (tracker y) = 1%Z.
Proof.
  destruct (reaped_logout_overadmits "cam" 1 (Some 1%Z) 0 2) as (Hl & Hg & _).
  - lia.
  - intros m [= <-]. lia.
  - split; [|exact Hg]. rewrite Hl. vm_compute. reflexivity.
Defined.

(** Two connections of the camera send a clip of one name. *)
Lemma concurrent_uploads_break_final_witness :
  ∃ js1 s1 ps1 js2 s2 ps2,
    sched js1 archive_fs [serve plain_backend cam_user (upload "clip" 0 "AA");
                          serve plain_backend cam_user (upload "clip" 0 "BBB")] = (s1, ps1) ∧
    ps1 !! 0 = Some (Ret (Ok (AStored 2))) ∧ file_at s1 ((q_cam ++ []) ++ ["clip"]) = Some (bytes_of "AA") ∧
    sched js2 s1 ps1 = (s2, ps2) ∧ ps2 !! 1 = Some (Ret (Err (Storage.FromIo Io.NotFound))) ∧
    file_at s2 ((q_cam ++ []) ++ ["clip"]) = Some (bytes_of "AA" ++ bytes_of "BBB").
Proof.
  apply (concurrent_uploads_break_final plain_backend true true cam_user cam_user q_cam [] "clip" "clip" "clip"
    (input_of (bytes_of "AA")) (input_of (bytes_of "BBB")) archive_fs).
  - apply archive_plain.
  - reflexivity.
  - reflexivity.
  - reflexivity.
  - apply archive_dir.
  - by vm_compute.
  - by vm_compute.
  - by vm_compute.
  - by vm_compute.
  - by vm_compute.
  - reflexivity.
  - reflexivity.
Defined.
